(* ===== verification/_CoqProject ===== *)
-Q . S2P
Prelude.v
GoStrings.v
GoFmt.v
GoTime.v
GoDuration.v
GoQuote.v
Lease.v
LeaseSet.v
Tx.v
LeaseUtil.v
Refresh.v
RefreshProps.v
Policy.v
PolicyProps.v
PolicyCodec.v
PolicyText.v
CacheProv.v
FsProv.v
Provider.v
MemProv.v
BoltProv.v
LogProv.v
LogProps.v
Program.v
Server.v
Client.v
ClientProps.v
Wire.v
Maintainer.v
MaintainerProps.v
LeaseWatch.v
LeaseUI.v
LeaseUIRun.v
LeaseViews.v
Dialogs.v
Runner.v
RunnerProps.v
RunnerRun.v
RunnerRunProps.v
RunnerTimed.v
Detect.v
EnforcerScan.v
ProcessManager.v
WinUser.v
Invocation.v
Events.v
InvocationProps.v
InvocationTimed.v
EnforcerUI.v
TrayRun.v
Session.v
SessionManager.v
SessionManagerProps.v
PolicyManager.v
Service.v
ServiceHandler.v
Install.v
Installer.v
Commands.v
Console.v
Stats.v
StatsProps.v
Concurrency.v
TxProps.v
ServerRun.v
Daemon.v
ServerSafe.v
ServerProps.v
ServerReply.v
Stream.v
Timed.v
ServerRunProps.v
EndToEnd.v
