(* ===== verification/Prelude.v ===== *)
(** * Resourceful: a verification library

    Resourceful (src/) limits how many programs run at a time.  A guardian
    server keeps leases, a set for each limited resource, and grants them under
    policies; clients acquire, renew and release leases while the programs that
    need them run; an enforcer, a service on each computer, looks for running
    programs that policies apply to and terminates those without a lease.

    This library models the program as Rocq functions and step relations and
    proves what makes it correct.  This header says what is modelled where, what
    the theorems show, and what is left out.

    ** Conventions

    A Go function that returns a value and an error is a function into
    [result]; one that may panic or loop into [outcome] ([Prelude.v]).  Methods
    that mutate their receiver take and return it.  Integers have their width:
    durations are [int64] with [wrap64], counters [uint64] with [wrapu64];
    instants are unbounded.  Strings and bytes are byte strings.  A Go map is a
    [gmap]; where the order of a range over it matters, that order is an
    argument or the class [MapOrder].  What runs under one mutex is one step.
    Goroutines are step relations: each says in its doc comment what is atomic.

    Code of other packages is an argument or a class, with its documented
    behaviour as the laws of a second class ([...Spec]): [Sorter] (sort.Sort),
    [GoText] (strings.ToLower, regexp), [MapOrder], [PolicyText], [LeaseText] and
    [JSON] and [EventJSON] (encoding/json), [Printable] (Unicode), [FileErrors] and [FileRange] (the file system),
    [Bolt], [Net] (the client's network), [WinProcess], [WinSystem] and
    [WinLaunch] (Windows), [MessageText], [LogText], [StatHatService] and
    [EventStream] (an HTTP event source); [sum224] is the hash function.  The program's own interfaces are classes too:
    [LeaseProvider] with its contract [LeaseProviderSpec], which the in-memory
    and the bolt provider fulfil and the server's theorems rely on;
    [PolicyCache], which the file system provider implements for the policy
    manager; [StatRecipient], which the StatHat recipient implements;
    [ServiceControl], which the Windows service handler relies on;
    [Keeper], which is what a lease maintainer keeps informed.

    ** Leases (lease/, lease/leaseutil/, strategy/, counter/)

    [Lease.v]: leases, subjects, statuses, properties, effects and operations.
    [LeaseSet.v]: sets of leases, their order, selections and statistics.
    [Tx.v]: transactions, with the index loop of [Tx.Process] over a slice that
    its body changes; the length of the slice is enough fuel, since each turn
    either passes a lease or deletes it.  [LeaseUtil.v]: the
    accumulator and [leaseutil.Refresh].  [Refresh.v] describes a refresh by the
    relation [refreshed_set]; [RefreshProps.v] states what it guarantees: it
    returns, never exceeds the limits (refresh_within_limits), leaves no
    capacity unused while leases wait (refresh_leaves_no_capacity), removes what
    is stale (refresh_removes_stale) and nothing else
    (refresh_conserves_leases), and its accumulator is the one that counting the
    result gives (refresh_accumulator_agrees).

    ** Policies (policy/, provider/cacheprov/, provider/fsprov/)

    [Policy.v], [PolicyProps.v]: criteria, policies, policy sets, hashes and
    differences.  The byte encoding that is hashed is injective
    (policy_encoding_injective); a set yields the most restrictive values
    ([policy_set_most_restrictive]); differences are those of the sets
    ([policy_diff_correct]).  [PolicyCodec.v]: JSON and file names; durations are
    text there, which is read back exactly ([ParseDuration_text]).
    [PolicyText.v]: the text of a policy.  [FsProv.v]:
    a directory of policy files returns the set that was stored, as a file
    carries it (fs_policies_roundtrip: a zero duration is read as the default,
    and an unknown strategy makes the reading fail), and a policy file is only deleted when the new set
    has been written (fs_set_policies_safe).  [CacheProv.v]: concurrent
    pulls fill the cache once (cacheprov_fills_once).

    ** Lease providers (lease/provider.go, provider/)

    [Provider.v] is the interface.  [MemProv.v] and [BoltProv.v] refine it
    (memprov_commit_correct, boltprov_commit_correct): a commit replaces the
    leases exactly when nobody has committed since the revision of the
    transaction.  [LogProv.v], [LogProps.v]: the wrapper that logs transactions
    ([logprov_commit_records]), its schedules (parse_schedule_valid) and timer
    ([logprov_timer]).

    ** The server (guardian/server.go, guardian/transport/)

    [Program.v]: handlers are programs [prog] whose calls to the providers are
    explicit.  [Server.v]: every handler, with its five attempts, early returns
    and panics.  [Concurrency.v]: a pool of handlers whose calls interleave, and
    a program logic [wp] for one of them; the contract of the providers makes
    handlers proved in it safe together, for fewer than 2^64 commits, after
    which a revision could repeat.  [TxProps.v] and [ServerSafe.v] prove the
    handlers; [ServerProps.v] states the results: leases never exceed the limit
    of their resource, whatever interleaves (server_limit_safety); no handler
    panics, if host names have no space (server_never_panics); acquisitions and
    releases do what they should (acquire_decides, release_ends_lease).
    [ServerReply.v] follows the commits: a lease is granted only if its last
    commit stored it within the limit (granted_leases_are_committed).
    [Timed.v] adds a clock that never goes back: the leases that clients have
    been told are active, that still last and were not given up stay within the
    limit at every moment (exclusive_use).  [Stream.v]: the event stream over
    the handlers: what an acquisition, a release or a refresh commits is
    announced to the clients that listen (stream_delivers); what a query for
    leases or a purge commits is not ([commits_unannounced]).
    [ServerRun.v], [ServerRunProps.v]: [Server.Run] with its goroutines refines
    that pool, so that its guarantees hold from the first purge to the last and
    beyond (server_life_safe); a missing logger is the one reason to die
    ([listen_error_without_logger]); when its context is done, [Serve] has failed
    or it cannot listen, it can return by its own steps (server_run_returns).

    ** Clients (guardian/client.go, endpoint.go, endpointset.go, maintainer.go)

    [Client.v], [ClientProps.v]: requests, selection of endpoints, failover
    (failover_selects_healthy).  [GoFmt.v], [Wire.v], [EndToEnd.v]: client and
    server together over a network that refuses and loses messages; a lease
    that a client is told of is one that the server has stored within the limit
    (client_told_what_is_stored), and a new client obtains one
    (new_client_gets_lease).  [Maintainer.v], [MaintainerProps.v]: the goroutine
    that keeps a lease renews it in time (maintainer_renews_in_time), closes its
    listeners once and reports consistent states (maintainer_consistent), and
    releases it when it is told to, if its listeners are drained
    (maintainer_releases); one that is not blocks it for ever
    ([undrained_listener_blocks]).  [LeaseWatch.v]: a maintainer in time with
    what handles its states, an instance of the class [Keeper]; under the laws of
    [KeeperSpec] a program does not outlive its lease by more than the time of
    an attempt and some delays.  The runner and the invocations are instances.

    ** Running a program (runner/, lease/leaseui/)

    [Runner.v], [RunnerProps.v]: the program runs under a lease
    (runner_enforces_lease).  [RunnerRun.v], [RunnerRunProps.v]: the goroutine of
    [run] with that of the user interface, its callbacks, and the one that closes
    the maintainer; they refine the atomic turns of [Runner.v] and can return
    once they are told to (runner_run_returns), unless they hang in one of two
    ways ([runner_hangs], [runner_hangs_early]).  [RunnerTimed.v]: the
    runner as a keeper (runner_stops_in_time).  [Detect.v]: random identifiers
    ([randomID_takes_letters]; the fuel is the number of chunks read).
    [LeaseUI.v]: the manager of dialogs and its directives.  [LeaseUIRun.v]: the
    goroutines of its [Run], which follows the directives in order and can
    return unless a caller and [Run] wait for each other (ui_run_follows, and
    [ui_run_deadlocks] for the schedule).  [LeaseViews.v], [Dialogs.v]: what
    the dialogs show, their texts, buttons, results and refresh.

    ** The enforcer (enforcer/, enforcerui/)

    [EnforcerScan.v]: processes and the filters of a scan ([scan_complete]).
    [ProcessManager.v]: one round of enforcement opens exactly the processes that
    are due and manages or records each (enforce_complete).
    [WinUser.v], [Invocation.v], [InvocationProps.v]: an invocation terminates
    its process just when its lease forbids it to run (invocation_enforces) and
    stops when asked to ([invocation_stops]); [InvocationTimed.v] makes it a
    keeper (invocation_stops_in_time).  [EnforcerUI.v]: messages, the
    summary and the tray.  [TrayRun.v]: the goroutines of the tray, which shows
    the states in order and can always be stopped (tray_life).  [Events.v]:
    events, loggers and messages.  [Session.v]: a connection to the user's
    process hands over what it was sent, once and in order, but for what a failed
    write loses (session_delivers, [accepted_message_lost]).  [SessionManager.v],
    [SessionManagerProps.v]: one session for each user's session, connected no
    sooner than its attempts allow (session_manager_sound).  [PolicyManager.v]: the policies that the service
    follows ([policy_manager_tracks]).
    [Service.v]: the service ends what it manages (service_stops).

    ** Commands (cmd/resourceful/)

    [Stats.v], [StatsProps.v]: statistics show current consumption
    (stats_shown_are_current), but for users whose report fails or whose name is
    empty ([dropped_user_error], [empty_user_not_counted]).  [Daemon.v]: the guardian command closes what it
    opens, in order.  [ServiceHandler.v]: the requests of the Windows service
    manager.  [Install.v]: registry values and version numbers; [Installer.v]:
    the order in which the install and uninstall commands change the system.
    [Commands.v]: the wiring of the other commands; the list command misses no
    process (list_complete).  [Console.v]: the console and its standard files,
    the icons, and what the commands and dialogs are on other systems, where a
    run of the dialogs panics ([unix_turns_panic]).

    ** Helpers

    [GoStrings.v], [GoTime.v], [GoDuration.v] (the text of durations, with the
    floating-point arithmetic of its parser), [GoFmt.v] and [GoQuote.v] model
    what the source uses of Go's standard library; their loops have the length
    of their text as fuel, which is proved to be enough.  [Prelude.v] holds the outcomes and machine integers.

    ** Not modelled

    The layout and drawing of widgets (a third-party toolkit), the parsing of
    flags, the generator of the version resource, most of the log output (text that nothing reads), the
    transport of the event stream, file copies and the Windows service manager.
    The run command is commented out in the source.  Time is whatever the clock
    argument says; how long a step takes is not modelled, so that liveness is
    stated as what the goroutines can still do. *)

From Stdlib Require Export Lia.
From stdpp Require Export sorting.
From stdpp Require Export base gmap strings numbers countable list.

(** ** Outcomes of Go code

    [Ret] is a normal return, [Panic] a run-time panic and [Diverge] an
    exhausted fuel bound; the latter is proved unreachable wherever a loop of
    the source is modelled with fuel. *)

Inductive outcome (A : Type) : Type :=
| Ret (a : A)
| Panic (msg : string)
| Diverge.
Arguments Ret {A} a.
Arguments Panic {A} msg.
Arguments Diverge {A}.

#[export] Instance outcome_ret : MRet outcome := fun A a => Ret a.
#[export] Instance outcome_bind : MBind outcome := fun A B f m =>
  match m with
  | Ret a => f a
  | Panic s => Panic s
  | Diverge => Diverge
  end.

Definition is_Ret {A} (m : outcome A) : Prop := exists a, m = Ret a.

(** Results of Go functions that return [(value, error)]. *)

Definition error := string.

Inductive result (A : Type) : Type :=
| Ok (a : A)
| Err (e : error).
Arguments Ok {A} a.
Arguments Err {A} e.

#[export] Instance result_ret : MRet result := fun A a => Ok a.
#[export] Instance result_bind : MBind result := fun A B f m =>
  match m with
  | Ok a => f a
  | Err e => Err e
  end.

Definition is_Ok {A} (r : result A) : Prop := exists a, r = Ok a.

Lemma bind_Ret_inv {A B} (m : outcome A) (f : A -> outcome B) b :
  (m ≫= f) = Ret b -> exists a, m = Ret a /\ f a = Ret b.
Proof. destruct m; cbn; intros; [eauto | discriminate..]. Qed.

Lemma bind_Ret {A B} (a : A) (f : A -> outcome B) : (Ret a ≫= f) = f a.
Proof. reflexivity. Qed.

Lemma outcome_bind_assoc {A B C} (m : outcome A) (f : A -> outcome B) (g : B -> outcome C) :
  ((m ≫= f) ≫= g) = (m ≫= fun a => f a ≫= g).
Proof. by destruct m. Qed.

(** ** Machine integers *)

(** [int64] arithmetic (the representation of [time.Duration]). *)
Definition wrap64 (z : Z) : Z := ((z + 2 ^ 63) mod 2 ^ 64 - 2 ^ 63)%Z.
Definition int64_min : Z := (- 2 ^ 63)%Z.
Definition int64_max : Z := (2 ^ 63 - 1)%Z.
Definition in_int64 (z : Z) : Prop := (int64_min <= z <= int64_max)%Z.

(** [uint64] (and, on the platforms of the program, [uint]) arithmetic. *)
Definition wrapu64 (n : N) : N := (n mod 2 ^ 64)%N.
Definition subu64 (a b : N) : N := ((a + 2 ^ 64 - b mod 2 ^ 64) mod 2 ^ 64)%N.

Lemma wrap64_id z : in_int64 z -> wrap64 z = z.
Proof.
  unfold in_int64, wrap64, int64_min, int64_max. intros ?.
  rewrite Z.mod_small; lia.
Qed.

Lemma wrap64_in z : in_int64 (wrap64 z).
Proof.
  unfold in_int64, wrap64, int64_min, int64_max.
  pose proof (Z.mod_pos_bound (z + 2 ^ 63) (2 ^ 64)). lia.
Qed.

Lemma wrapu64_id n : (n < 2 ^ 64)%N -> wrapu64 n = n.
Proof. intros. by apply N.mod_small. Qed.

Lemma subu64_id a b : (b <= a)%N -> (a < 2 ^ 64)%N -> subu64 a b = (a - b)%N.
Proof.
  intros Hle Ha. unfold subu64. rewrite (N.mod_small b) by lia.
  replace (a + 2 ^ 64 - b)%N with ((a - b) + 1 * 2 ^ 64)%N by lia.
  rewrite N.Div0.mod_add. apply N.mod_small. lia.
Qed.
