(* ===== verification/GoStrings.v ===== *)
(** * The part of Go's package [strings] that the program uses

    Strings are byte strings, as in Go. *)

From Stdlib Require Ascii.
From S2P Require Import Prelude.

Abbreviation bytes := (list Ascii.ascii) (only parsing).

Definition comma : Ascii.ascii := Ascii.ascii_of_nat 44.
Definition newline : string := String (Ascii.ascii_of_nat 10) EmptyString.
Definition quoted (s : string) : string :=
  String (Ascii.ascii_of_nat 34) s +:+ String (Ascii.ascii_of_nat 34) EmptyString.

(** [strings.Split(s, ",")]; [cur] is the current item, reversed. *)
Fixpoint split_comma (cur s : string) : list string :=
  match s with
  | EmptyString => [String.rev cur]
  | String c s => if decide (c = comma) then String.rev cur :: split_comma EmptyString s
                  else split_comma (String c cur) s
  end.
Definition strings_Split (s : string) : list string := split_comma EmptyString s.

(** [strings.HasSuffix] and [strings.TrimSuffix]. *)
Definition HasSuffix (s suffix : string) : bool :=
  bool_decide (String.length suffix <= String.length s)
  && bool_decide (String.substring (String.length s - String.length suffix)
                    (String.length suffix) s = suffix).
Definition TrimSuffix (s suffix : string) : string :=
  if HasSuffix s suffix then String.substring 0 (String.length s - String.length suffix) s else s.

(** [strings.Contains]. *)
Fixpoint HasPrefix (s prefix : string) : bool :=
  match prefix, s with
  | EmptyString, _ => true
  | String c prefix, String d s => bool_decide (c = d) && HasPrefix s prefix
  | String _ _, EmptyString => false
  end.
Fixpoint Contains (s sub : string) : bool :=
  HasPrefix s sub || match s with EmptyString => false | String _ s => Contains s sub end.

(** ** Lemmas *)

Lemma String_app c a b : String c a +:+ b = String c (a +:+ b).
Proof. reflexivity. Qed.

Lemma substring_app_l a b : String.substring 0 (String.length a) (a +:+ b) = a.
Proof. induction a as [|c a IH]; [by destruct b|]. rewrite String_app. cbn. by rewrite IH. Qed.

Lemma substring_full b : String.substring 0 (String.length b) b = b.
Proof. induction b as [|c b IH]; cbn; [done|]. by rewrite IH. Qed.

Lemma substring_app_r a b : String.substring (String.length a) (String.length b) (a +:+ b) = b.
Proof. induction a as [|c a IH]; [apply substring_full|]. rewrite String_app. done. Qed.

Lemma string_app_length a b : String.length (a +:+ b) = String.length a + String.length b.
Proof. induction a as [|c a IH]; [done|]. rewrite String_app. cbn. by rewrite IH. Qed.

Lemma HasSuffix_app a b : HasSuffix (a +:+ b) b = true /\ TrimSuffix (a +:+ b) b = a.
Proof.
  assert (H : HasSuffix (a +:+ b) b = true).
  { unfold HasSuffix. rewrite string_app_length, Nat.add_sub, substring_app_r.
    rewrite !bool_decide_true by (done || lia). done. }
  split; [done|]. unfold TrimSuffix. rewrite H, string_app_length, Nat.add_sub.
  apply substring_app_l.
Qed.

(** A name without spaces ends at the first space. *)
Definition no_space (s : string) : Prop := Ascii.ascii_of_nat 32 ∉ String.list_ascii_of_string s.

Lemma list_ascii_app a b :
  String.list_ascii_of_string (a +:+ b)
  = String.list_ascii_of_string a ++ String.list_ascii_of_string b.
Proof.
  induction a as [|c a IH]; [done|]. change (String c a +:+ b) with (String c (a +:+ b)).
  cbn. by rewrite IH.
Qed.

Lemma split_at_space a1 a2 (b1 b2 : list Ascii.ascii) sp :
  sp ∉ a1 -> sp ∉ a2 -> a1 ++ sp :: b1 = a2 ++ sp :: b2 -> a1 = a2 /\ b1 = b2.
Proof.
  revert a2. induction a1 as [|x a1 IH]; intros [|y a2]; cbn; intros H1 H2 [= He].
  - done.
  - subst. exfalso. apply H2. left.
  - subst. exfalso. apply H1. left.
  - subst. apply not_elem_of_cons in H1 as [_ H1], H2 as [_ H2].
    destruct (IH a2 H1 H2) as [-> ->]; done.
Qed.
