(* ===== verification/GoFmt.v ===== *)
(** * [fmt.Fprintf] without operands

    The server writes its JSON through [fmt.Fprintf(w, string(data))], which
    takes the text for a format.  This is the formatter of Go's package [fmt]
    ([doPrintf]) for a call without operands: text is copied, and every
    directive becomes a percent sign or a complaint.  Formats are UTF-8. *)

From Stdlib Require Ascii.
From S2P Require Import Prelude GoStrings.

Definition str (s : string) : bytes := String.list_ascii_of_string s.

Definition is_digit (c : Ascii.ascii) : bool :=
  bool_decide (48 <= Ascii.nat_of_ascii c <= 57).
Definition is_flag (c : Ascii.ascii) : bool :=
  bool_decide (c ∈ str "#0+- ").
Definition percent : Ascii.ascii := Ascii.ascii_of_nat 37.
Definition star : Ascii.ascii := Ascii.ascii_of_nat 42.
Definition dot : Ascii.ascii := Ascii.ascii_of_nat 46.
Definition lbracket : Ascii.ascii := Ascii.ascii_of_nat 91.
Definition rbracket : Ascii.ascii := Ascii.ascii_of_nat 93.

Fixpoint take_while (p : Ascii.ascii -> bool) (s : bytes) : bytes * bytes :=
  match s with
  | c :: s' => if p c then let '(a, b) := take_while p s' in (c :: a, b) else ([], s)
  | [] => ([], [])
  end.

(** [parsenum]: a number of more than 10^6 makes it skip to the end. *)
Fixpoint parsenum_loop (num : N) (isnum : bool) (s : bytes) : option N * bytes :=
  match s with
  | c :: s' =>
      if is_digit c then
        if decide (10 ^ 6 < num)%N then (None, [])
        else parsenum_loop (num * 10 + N.of_nat (Ascii.nat_of_ascii c - 48)) true s'
      else (if isnum then Some num else None, s)
  | [] => (if isnum then Some num else None, [])
  end.
Definition parsenum : bytes -> option N * bytes := parsenum_loop 0 false.

(** [argNumber], of which no index is in range: what it leaves, whether it
    found a number and whether the index is good. *)
Definition argNumber (s : bytes) : bytes * bool * bool :=
  match s with
  | c :: s' =>
      if decide (c = lbracket) then
        if decide (length s < 3) then (s', false, false)
        else
          let '(inside, rest) := take_while (fun c => negb (bool_decide (c = rbracket))) s' in
          match rest with
          | [] => (s', false, false)
          | _ :: rest =>
              let '(num, rem) := parsenum inside in
              (rest, bool_decide (is_Some num /\ rem = []), false)
          end
      else (s, false, true)
  | [] => ([], false, true)
  end.

(** The bytes of the first rune. *)
Definition rune_size (c : Ascii.ascii) : nat :=
  let n := Ascii.nat_of_ascii c in
  if decide (n < 192) then 1 else if decide (n < 224) then 2 else if decide (n < 240) then 3 else 4.

(** Width or precision: an asterisk finds no operand. *)
Definition star_or_num (complaint : string) (after : bool) (s : bytes) : bytes * bool * bytes :=
  match s with
  | c :: s' => if decide (c = star) then (str complaint, false, s') else ([], after, (parsenum s).2)
  | [] => ([], after, [])
  end.

(** One directive, after its percent sign: what is written and what is left;
    the text may end in the middle of it. *)
Definition directive (s : bytes) : bytes * bytes :=
  let '(_, s) := take_while is_flag s in
  let '(s, after, good) := argNumber s in
  let widened := (parsenum s).1 in
  let starred := match s with c :: _ => bool_decide (c = star) | [] => false end in
  let good := good && negb (negb starred && after && bool_decide (is_Some widened)) in
  let '(out1, after, s) := star_or_num "%!(BADWIDTH)" after s in
  let '(out2, after, good, s) :=
    match s with
    | c :: s' =>
        if decide (c = dot) then
          let good := good && negb after in
          let '(s', after', good') := argNumber s' in
          let '(out, after', s') := star_or_num "%!(BADPREC)" after' s' in
          (out, after', good && good', s')
        else ([], after, good, s)
    | [] => ([], after, good, s)
    end in
  let '(s, good) := (if after : bool then (s, good)
                     else let '(s, _, good') := argNumber s in (s, good && good')) in
  match s with
  | [] => (out1 ++ out2 ++ str "%!(NOVERB)", [])
  | c :: _ =>
      let verb := take (rune_size c) s in
      let rest := drop (rune_size c) s in
      (out1 ++ out2
       ++ (if decide (c = percent) then [percent]
           else str "%!" ++ verb ++ (if good : bool then str "(MISSING)" else str "(BADINDEX)")), rest)
  end.

(** Each turn of the loop takes at least one byte, so that as much fuel as
    there are bytes is enough. *)
Fixpoint doPrintf (fuel : nat) (s : bytes) : option bytes :=
  match s with
  | [] => Some []
  | c :: s' =>
      match fuel with
      | O => None
      | S fuel =>
          if decide (c = percent) then
            let '(out, rest) := directive s' in
            match doPrintf fuel rest with Some t => Some (out ++ t) | None => None end
          else match doPrintf fuel s' with Some t => Some (c :: t) | None => None end
      end
  end.

Definition Fprintf (s : bytes) : bytes := default [] (doPrintf (length s) s).

(** ** Lemmas *)

Lemma take_while_length p s : length (take_while p s).2 <= length s.
Proof.
  induction s as [|c s IH]; cbn; [done|]. destruct (p c); [|cbn; lia].
  destruct (take_while p s) as [a b]. cbn in *. lia.
Qed.

Lemma parsenum_loop_length num b s : length (parsenum_loop num b s).2 <= length s.
Proof.
  revert num b. induction s as [|c s IH]; intros num b; cbn; [done|].
  destruct (is_digit c); [|cbn; lia]. case_decide; cbn; [lia|].
  pose proof (IH (num * 10 + N.of_nat (Ascii.nat_of_ascii c - 48))%N true). lia.
Qed.

Lemma argNumber_length s : length (argNumber s).1.1 <= length s.
Proof.
  destruct s as [|c s]; cbn [argNumber]; [done|]. case_decide; [|done]. case_decide; [cbn; lia|].
  pose proof (take_while_length (fun c => negb (bool_decide (c = rbracket))) s) as Htw.
  destruct (take_while _ s) as [a [|x b]]; cbn in *; [lia|].
  destruct (parsenum a) as [n l]. cbn. lia.
Qed.

Lemma star_length complaint after s : length (star_or_num complaint after s).2 <= length s.
Proof.
  destruct s as [|c s]; cbn [star_or_num]; [done|]. case_decide; [cbn; lia|].
  cbn [snd]. apply parsenum_loop_length.
Qed.

Lemma directive_length s : length (directive s).2 <= length s.
Proof.
  unfold directive. pose proof (take_while_length is_flag s) as H0.
  destruct (take_while is_flag s) as [f s0]. cbn [snd] in H0.
  pose proof (argNumber_length s0) as H1. destruct (argNumber s0) as [[s1 after] good]. cbn [fst] in H1.
  cbn zeta. set (g := good && _). clearbody g.
  pose proof (star_length "%!(BADWIDTH)" after s1) as H2.
  destruct (star_or_num "%!(BADWIDTH)" after s1) as [[out1 after2] s2]. cbn [snd] in H2.
  assert (H3 : forall after g, length (match s2 with
    | c :: s' => if decide (c = dot) then
        let good := g && negb after in
        let '(s', after', good') := argNumber s' in
        let '(out, after', s') := star_or_num "%!(BADPREC)" after' s' in
        (out, after', good && good', s')
      else ([], after, g, s2)
    | [] => ([], after, g, s2) end).2 <= length s2).
  { intros af gg. destruct s2 as [|c s2]; [done|]. case_decide; [|done]. cbn zeta.
    pose proof (argNumber_length s2) as H4. destruct (argNumber s2) as [[s3 a3] g3]. cbn [fst] in H4.
    pose proof (star_length "%!(BADPREC)" a3 s3) as H5.
    destruct (star_or_num "%!(BADPREC)" a3 s3) as [[o a4] s4]. cbn in *. lia. }
  specialize (H3 after2 g).
  destruct (match s2 with [] => _ | _ => _ end) as [[[out2 after3] g3] s3]. cbn [snd] in H3.
  pose proof (argNumber_length s3) as H6. destruct (argNumber s3) as [[s4 a4] g4]. cbn [fst] in H6.
  destruct after3.
  - destruct s3 as [|c s3]; cbn [snd length]; [lia|]. rewrite length_drop. cbn [length] in *. lia.
  - destruct s4 as [|c s4]; cbn [snd length]; [lia|]. rewrite length_drop. cbn [length] in *. lia.
Qed.

(** The loop ends on every format. *)
Lemma doPrintf_total fuel s : length s <= fuel -> is_Some (doPrintf fuel s).
Proof.
  revert s. induction fuel as [|fuel IH]; intros [|c s]; cbn; [done|lia|done|]. intros Hf.
  pose proof (directive_length s) as Hd. destruct (directive s) as [out rest]. cbn in Hd.
  case_decide.
  - destruct (IH rest ltac:(lia)) as [t ->]. done.
  - destruct (IH s ltac:(lia)) as [t ->]. done.
Qed.

Lemma doPrintf_plain fuel s : length s <= fuel -> percent ∉ s -> doPrintf fuel s = Some s.
Proof.
  revert s. induction fuel as [|fuel IH]; intros [|c s]; cbn; [done|lia|done|]. intros Hf Hn.
  apply not_elem_of_cons in Hn as [Hc Hn]. rewrite decide_False by done.
  by rewrite (IH s) by (done || lia).
Qed.

(** Text without a percent sign is written as it is. *)
Lemma Fprintf_plain s : percent ∉ s -> Fprintf s = s.
Proof. intros Hs. unfold Fprintf. by rewrite doPrintf_plain. Qed.

(** Directives are not. *)
Example Fprintf_percent_d : Fprintf (str "50%d") = str "50%!d(MISSING)".
Proof. reflexivity. Qed.
Example Fprintf_percent_end : Fprintf (str "50%") = str "50%!(NOVERB)".
Proof. reflexivity. Qed.
Example Fprintf_quote : Fprintf (str "{50%}") = str "{50%!}(MISSING)".
Proof. reflexivity. Qed.
Example Fprintf_index : Fprintf (str "%[1]d%6.2f%%") = str "%!d(BADINDEX)%!f(MISSING)%".
Proof. reflexivity. Qed.
