(* ===== verification/GoTime.v ===== *)
(** * The part of Go's package [time] that the program uses

    An instant is its number of nanoseconds since Go's zero time (January 1 of
    year 1, UTC), as an unbounded integer: [Time.Add] overflows only some 292
    billion years away from it.  A duration is an [int64] number of
    nanoseconds; the arithmetic that the source performs on durations is
    written with [wrap64].  [Time.Sub] saturates, as documented. *)

From S2P Require Import Prelude.

Definition Time := Z.
Definition Duration := Z.


Definition Nanosecond : Duration := 1%Z.
Definition Millisecond : Duration := (10 ^ 6)%Z.
Definition Second : Duration := (10 ^ 9)%Z.
Definition Minute : Duration := (60 * Second)%Z.

Definition zero_time : Time := 0%Z.

Definition Time_Add (t : Time) (d : Duration) : Time := (t + d)%Z.
Definition Time_After (t u : Time) : bool := bool_decide (u < t)%Z.
Definition Time_Before (t u : Time) : bool := bool_decide (t < u)%Z.
Definition Time_IsZero (t : Time) : bool := bool_decide (t = zero_time).
Definition Time_Sub (t u : Time) : Duration :=
  Z.max int64_min (Z.min int64_max (t - u)).

Definition Duration_sub (d e : Duration) : Duration := wrap64 (d - e).
Definition Duration_mul (d : Duration) (k : Z) : Duration := wrap64 (d * k).
(** Go's integer division truncates towards zero. *)
Definition Duration_div (d : Duration) (k : Z) : Duration := wrap64 (Z.quot d k).

(** [Duration.Round]: to the nearest multiple of [m], halves away from zero. *)
Definition Duration_Round (d m : Duration) : Duration :=
  if decide (m <= 0)%Z then d
  else
    let r := Z.rem d m in
    if decide (d < 0)%Z then
      let r := (- r)%Z in
      if decide (r + r < m)%Z then (d + r)%Z
      else let d1 := (d - m + r)%Z in if decide (int64_min <= d1)%Z then d1 else int64_min
    else
      if decide (r + r < m)%Z then (d - r)%Z
      else let d1 := (d + m - r)%Z in if decide (d1 <= int64_max)%Z then d1 else int64_max.

Lemma Time_After_true t u : Time_After t u = true <-> (u < t)%Z.
Proof. apply bool_decide_eq_true. Qed.

Lemma Time_After_false t u : Time_After t u = false <-> (t <= u)%Z.
Proof. unfold Time_After. rewrite bool_decide_eq_false. lia. Qed.

Lemma Time_Before_true t u : Time_Before t u = true <-> (t < u)%Z.
Proof. apply bool_decide_eq_true. Qed.

Lemma Time_Before_false t u : Time_Before t u = false <-> (u <= t)%Z.
Proof. unfold Time_Before. rewrite bool_decide_eq_false. lia. Qed.

Lemma Time_Sub_exact t u : in_int64 (t - u) -> Time_Sub t u = (t - u)%Z.
Proof. unfold in_int64, Time_Sub. lia. Qed.

Lemma Time_Sub_in t u : in_int64 (Time_Sub t u).
Proof. unfold in_int64, Time_Sub, int64_min, int64_max. lia. Qed.

Lemma Time_Sub_pos t u : (u < t)%Z -> (0 < Time_Sub t u)%Z.
Proof. unfold Time_Sub, int64_min, int64_max. lia. Qed.

Lemma Time_Sub_le t u : (u <= t)%Z -> (Time_Sub t u <= t - u)%Z.
Proof. unfold Time_Sub, int64_min, int64_max. lia. Qed.

Create Rewrite HintDb gotime.
#[export] Hint Rewrite Time_After_true Time_After_false Time_Before_true
  Time_Before_false : gotime.
