(* ===== verification/GoDuration.v ===== *)
(** * The text of a duration

    [Duration.String] of Go's package [time]: hours, minutes and seconds with a
    fraction, or a smaller unit for less than a second; and [ParseDuration],
    which reads it back.  The fraction is computed in floating point: [RN]
    rounds a quotient to the nearest number of 53 binary digits, as the
    operations on [float64] do. *)

From stdpp Require Import pretty.
From S2P Require Import Prelude GoStrings GoTime.

(** [fmtFrac]: the fraction of [v / 10^prec] without trailing zeros, and the
    integer part; [text] follows, [print] once a digit has been printed. *)
Fixpoint fmtFrac_loop (prec : nat) (v : N) (print : bool) (text : string) : string * N :=
  match prec with
  | O => (if print then "." +:+ text else text, v)
  | S prec =>
      let digit := (v `mod` 10)%N in
      let print := print || bool_decide (digit <> 0%N) in
      fmtFrac_loop prec (v `div` 10)%N print (if print then pretty digit +:+ text else text)
  end.
Definition fmtFrac (v : N) (prec : nat) (text : string) : string * N := fmtFrac_loop prec v false text.

(** The micro sign, in UTF-8. *)
Definition micro : string := String (Ascii.ascii_of_nat 194) (String (Ascii.ascii_of_nat 181) "").

(** The magnitude of a duration. *)
Definition format_magnitude (u : N) : string :=
  if decide (u < 1000000000)%N then
    if decide (u = 0%N) then "0s"
    else
      let '(unit, prec) :=
        if decide (u < 1000)%N then ("ns", 0)
        else if decide (u < 1000000)%N then (micro +:+ "s", 3)
        else ("ms", 6) in
      let '(text, u) := fmtFrac u prec unit in
      pretty u +:+ text
  else
    let '(text, u) := fmtFrac u 9 "s" in
    let text := pretty (u `mod` 60)%N +:+ text in
    let u := (u `div` 60)%N in
    if decide (0 < u)%N then
      let text := pretty (u `mod` 60)%N +:+ "m" +:+ text in
      let u := (u `div` 60)%N in
      if decide (0 < u)%N then pretty u +:+ "h" +:+ text else text
    else text.

Definition Duration_text (d : Duration) : string :=
  let text := format_magnitude (Z.to_N (Z.abs d)) in
  if decide (d < 0)%Z then "-" +:+ text else text.

(** ** Numbers of type [float64]

    Positive ones, far from the limits of the exponent, as a quotient. *)

Definition float64 : Type := N * N.

(** The quotient, rounded to 53 binary digits, half to even. *)
Definition RN (num den : N) : float64 :=
  if decide (num = 0%N) then (0, 1)%N
  else
    let e0 := (Z.of_N (N.log2 num) - Z.of_N (N.log2 den) - 52)%Z in
    let scaled e := (num * 2 ^ Z.to_N (- e), den * 2 ^ Z.to_N e)%N in
    let e := if decide ((scaled e0).1 / (scaled e0).2 < 2 ^ 52)%N then (e0 - 1)%Z else e0 in
    let '(n, d) := scaled e in
    let m := (n / d)%N in
    let r := (n mod d)%N in
    let m := if decide (d < 2 * r \/ (d = 2 * r /\ m mod 2 = 1))%N then (m + 1)%N else m in
    (m * 2 ^ Z.to_N e, 2 ^ Z.to_N (- e))%N.

Definition of_uint64 (n : N) : float64 := RN n 1.
Definition fmul (x y : float64) : float64 := RN (x.1 * y.1) (x.2 * y.2).
Definition fdiv (x y : float64) : float64 := RN (x.1 * y.2) (x.2 * y.1).
Definition to_uint64 (x : float64) : N := (x.1 / x.2)%N.

(** ** [ParseDuration] *)

Definition digit_of (c : Ascii.ascii) : option N :=
  let n := Ascii.N_of_ascii c in
  if decide (48 <= n <= 57)%N then Some (n - 48)%N else None.
Definition is_dot (c : Ascii.ascii) : bool := bool_decide (Ascii.N_of_ascii c = 46%N).

(** [leadingInt]; [None]: the number is too large. *)
Fixpoint leadingInt (x : N) (s : string) : option (N * string) :=
  match s with
  | "" => Some (x, s)
  | String c s' =>
      match digit_of c with
      | None => Some (x, s)
      | Some digit =>
          if decide (2 ^ 63 / 10 < x)%N then None
          else if decide (2 ^ 63 < x * 10 + digit)%N then None
          else leadingInt (x * 10 + digit) s'
      end
  end.

(** [leadingFraction]: the digits that fit, and the power of ten that they are
    divided by, which a [float64] holds exactly. *)
Fixpoint leadingFraction (x scale : N) (overflow : bool) (s : string) : N * N * string :=
  match s with
  | "" => (x, scale, s)
  | String c s' =>
      match digit_of c with
      | None => (x, scale, s)
      | Some digit =>
          if overflow then leadingFraction x scale true s'
          else if decide ((2 ^ 63 - 1) / 10 < x)%N then leadingFraction x scale true s'
          else if decide (2 ^ 63 < x * 10 + digit)%N then leadingFraction x scale true s'
          else leadingFraction (x * 10 + digit) (scale * 10) false s'
      end
  end.

(** The unit: everything up to a dot or a digit. *)
Fixpoint leadingUnit (s : string) : string * string :=
  match s with
  | "" => ("", "")
  | String c s' =>
      if is_dot c || bool_decide (is_Some (digit_of c)) then ("", s)
      else let '(u, s'') := leadingUnit s' in (String c u, s'')
  end.

(** The Greek letter mu, in UTF-8. *)
Definition mu : string := String (Ascii.ascii_of_nat 206) (String (Ascii.ascii_of_nat 188) "").
Definition unitMap (u : string) : option N :=
  if decide (u = "ns") then Some 1%N
  else if decide (u = "us" \/ u = micro +:+ "s" \/ u = mu +:+ "s") then Some 1000%N
  else if decide (u = "ms") then Some 1000000%N
  else if decide (u = "s") then Some 1000000000%N
  else if decide (u = "m") then Some 60000000000%N
  else if decide (u = "h") then Some 3600000000000%N
  else None.

(** The quotation of the package: bytes that are not printable are written in
    hexadecimal. *)
Definition hex_char (n : N) : Ascii.ascii := Ascii.ascii_of_N (if decide (n < 10)%N then 48 + n else 87 + n)%N.
Fixpoint time_escape (s : string) : string :=
  match s with
  | "" => ""
  | String c s =>
      let n := Ascii.N_of_ascii c in
      if decide (128 <= n \/ n < 32)%N
      then "\x" +:+ String (hex_char (n / 16)) (String (hex_char (n mod 16)) (time_escape s))
      else if decide (n = 34 \/ n = 92)%N then "\" +:+ String c (time_escape s)
      else String c (time_escape s)
  end.
Definition time_quote (s : string) : string := quoted (time_escape s).

Definition invalid_duration (orig : string) : error := "time: invalid duration " +:+ time_quote orig.

(** What one turn reads: a number with a unit, in nanoseconds, and the rest. *)
Definition parse_component (orig s : string) : result (N * string) :=
  match s with
  | "" => Err (invalid_duration orig)
  | String c _ =>
      if negb (is_dot c || bool_decide (is_Some (digit_of c))) then Err (invalid_duration orig)
      else
        let pl := String.length s in
        match leadingInt 0 s with
        | None => Err (invalid_duration orig)
        | Some (v, s) =>
            let pre := negb (bool_decide (pl = String.length s)) in
            let '(f, scale, s, post) :=
              match s with
              | String c s' =>
                  if is_dot c then
                    let '(f, scale, rest) := leadingFraction 0 1 false s' in
                    (f, scale, rest, negb (bool_decide (String.length s' = String.length rest)))
                  else (0%N, 1%N, s, false)
              | "" => (0%N, 1%N, s, false)
              end in
            if negb pre && negb post then Err (invalid_duration orig)
            else
              let '(u, s) := leadingUnit s in
              if decide (u = "") then Err ("time: missing unit in duration " +:+ time_quote orig)
              else
                match unitMap u with
                | None => Err ("time: unknown unit " +:+ time_quote u +:+ " in duration " +:+ time_quote orig)
                | Some unit =>
                    if decide (2 ^ 63 / unit < v)%N then Err (invalid_duration orig)
                    else
                      let v := (v * unit)%N in
                      if decide (0 < f)%N then
                        let v := (v + to_uint64 (fmul (of_uint64 f) (fdiv (of_uint64 unit) (scale, 1))))%N in
                        if decide (2 ^ 63 < v)%N then Err (invalid_duration orig) else Ok (v, s)
                      else Ok (v, s)
                end
        end
  end.

(** Every turn takes a character or more. *)
Fixpoint parse_components (fuel : nat) (orig s : string) (d : N) : result N :=
  match s, fuel with
  | "", _ => Ok d
  | _, O => Err (invalid_duration orig)
  | _, S fuel =>
      '(v, s) ← parse_component orig s;
      let d := wrapu64 (d + v) in
      if decide (2 ^ 63 < d)%N then Err (invalid_duration orig)
      else parse_components fuel orig s d
  end.

Definition ParseDuration (orig : string) : result Duration :=
  let '(neg, s) :=
    match orig with
    | String c s' =>
        let n := Ascii.N_of_ascii c in
        if decide (n = 45 \/ n = 43)%N then (bool_decide (n = 45%N), s') else (false, orig)
    | "" => (false, "")
    end in
  if decide (s = "0") then Ok 0%Z
  else if decide (s = "") then Err (invalid_duration orig)
  else
    d ← parse_components (String.length s) orig s 0;
    if (neg : bool) then Ok (- Z.of_N d)%Z
    else if decide (2 ^ 63 - 1 < d)%N then Err (invalid_duration orig)
    else Ok (Z.of_N d).

(** ** Lemmas *)

Lemma duration_texts :
  Duration_text 0%Z = "0s" /\ Duration_text (90 * Second)%Z = "1m30s" /\ Duration_text (1500 * Millisecond)%Z = "1.5s"
  /\ Duration_text (3600 * Second)%Z = "1h0m0s" /\ Duration_text 1500000%Z = "1.5ms" /\ Duration_text (-5)%Z = "-5ns".
Proof. by vm_compute. Qed.

(** The digits of a fraction: what was printed of [v] and what is left of it. *)
Lemma fmtFrac_loop_rest prec v print text : (fmtFrac_loop prec v print text).2 = (v `div` 10 ^ N.of_nat prec)%N.
Proof.
  revert v print text. induction prec as [|prec IH]; intros v print text; [by rewrite N.div_1_r|].
  cbn [fmtFrac_loop]. rewrite IH, N.Div0.div_div. f_equal.
  by rewrite Nat2N.inj_succ, N.pow_succ_r'.
Qed.

(** A whole number of seconds has no fraction. *)
Lemma fmtFrac_loop_whole prec v text :
  (v `mod` 10 ^ N.of_nat prec = 0)%N -> (fmtFrac_loop prec v false text).1 = text.
Proof.
  revert v. induction prec as [|prec IH]; intros v Hv; [done|]. cbn [fmtFrac_loop].
  rewrite Nat2N.inj_succ, N.pow_succ_r' in Hv.
  rewrite N.Div0.mod_mul_r in Hv. apply N.eq_add_0 in Hv as [H10 Hv].
  apply N.eq_mul_0 in Hv as [Hv|Hv]; [done|]. rewrite H10. cbn. by apply IH.
Qed.

Lemma whole_seconds_text n :
  (0 < n < 60)%Z -> Duration_text (n * Second)%Z = pretty (Z.to_N n) +:+ "s".
Proof.
  intros Hn. unfold Duration_text, format_magnitude, fmtFrac, Second.
  rewrite (decide_False (P := (n * 10 ^ 9 < 0)%Z)) by lia.
  assert (Hu : Z.to_N (Z.abs (n * 10 ^ 9)) = (Z.to_N n * 1000000000)%N) by lia. rewrite Hu.
  rewrite decide_False by lia.
  destruct (fmtFrac_loop 9 (Z.to_N n * 1000000000) false "s") as [text u] eqn:He.
  pose proof (fmtFrac_loop_whole 9 (Z.to_N n * 1000000000) "s") as Ht.
  pose proof (fmtFrac_loop_rest 9 (Z.to_N n * 1000000000) false "s") as Hr.
  rewrite He in Ht, Hr. cbn [fst snd] in Ht, Hr. rewrite Ht by (by apply N.Div0.mod_mul).
  assert (u = Z.to_N n) as ->.
  { rewrite Hr. apply (N.div_mul (Z.to_N n) 1000000000). done. }
  assert (Hlt : (Z.to_N n < 60)%N) by (clear -Hn; lia).
  by rewrite (N.mod_small (Z.to_N n) 60 Hlt), (N.div_small (Z.to_N n) 60 Hlt).
Qed.

Lemma durations_parsed :
  ParseDuration "1h15m30.918s" = Ok 4530918000000%Z /\ ParseDuration "-1.5h" = Ok (-5400000000000)%Z
  /\ ParseDuration "+.5ms" = Ok 500000%Z /\ ParseDuration (mu +:+ "s") = Err (invalid_duration (mu +:+ "s"))
  /\ ParseDuration "3" = Err ("time: missing unit in duration " +:+ quoted "3")
  /\ ParseDuration "1d" = Err ("time: unknown unit " +:+ quoted "d" +:+ " in duration " +:+ quoted "1d")
  /\ ParseDuration "-9223372036854775808ns" = Ok int64_min
  /\ ParseDuration "9223372036854775808ns" = Err (invalid_duration "9223372036854775808ns")
  /\ ParseDuration "0.3333333333333333333h" = Ok 1200000000000%Z
  /\ ParseDuration "9223372036854775808ns9223372036854775808ns" = Ok 0%Z
  /\ ParseDuration "" = Err (invalid_duration "") /\ ParseDuration "0" = Ok 0%Z.
Proof. by vm_compute. Qed.

(** ** Exact arithmetic in floating point *)

Lemma RN_exact n d :
  (0 < n < 2 ^ 53)%N -> (0 < d)%N ->
  exists b, RN (n * d) d = (n * b, b)%N /\ (0 < b)%N.
Proof.
  intros Hn Hd. unfold RN. rewrite decide_False by lia.
  set (e0 := (Z.of_N (N.log2 (n * d)) - Z.of_N (N.log2 d) - 52)%Z).
  assert (He0 : (e0 <= 1)%Z).
  { pose proof (N.log2_mul_above n d ltac:(lia) ltac:(lia)) as H1.
    assert (H2 : (N.log2 n <= 52)%N) by (apply N.lt_succ_r, N.log2_lt_pow2; lia). unfold e0. lia. }
  set (e := if decide _ then (e0 - 1)%Z else e0).
  assert (He : (e <= 0)%Z).
  { unfold e. case_decide as Hq; [lia|]. cbn [fst snd] in Hq.
    destruct (decide (e0 = 1%Z)) as [E|]; [|lia]. exfalso. apply Hq. rewrite E. cbn.
    rewrite N.mul_1_r. apply (N.Div0.div_lt_upper_bound). change (2 ^ 53)%N with (2 * 2 ^ 52)%N in Hn. nia. }
  clearbody e. cbv zeta beta iota. assert (Hz : Z.to_N e = 0%N) by lia. rewrite Hz, N.pow_0_r, !N.mul_1_r.
  set (b := (2 ^ Z.to_N (- e))%N).
  assert (Hb : (0 < b)%N) by (unfold b; apply N.neq_0_lt_0, N.pow_nonzero; done).
  assert (Hnd : (n * d * b = n * b * d)%N) by lia. rewrite Hnd, N.div_mul, N.Div0.mod_mul by lia.
  rewrite decide_False by lia. by exists b.
Qed.

(** A fraction of a unit is exact if the unit is a multiple of the scale. *)
Lemma fraction_exact f j scale :
  (0 < f)%N -> (0 < j)%N -> (0 < scale)%N -> (f * j < 2 ^ 53)%N -> (j * scale < 2 ^ 53)%N ->
  to_uint64 (fmul (of_uint64 f) (fdiv (of_uint64 (j * scale)) (scale, 1%N))) = (f * j)%N.
Proof.
  intros Hf Hj Hs Hfj Hjs. unfold fmul, fdiv, of_uint64, to_uint64.
  destruct (RN_exact f 1) as (b1 & H1 & Hb1); [nia|lia|]. rewrite N.mul_1_r in H1. rewrite H1.
  destruct (RN_exact (j * scale) 1) as (b2 & H2 & Hb2); [nia|lia|]. rewrite N.mul_1_r in H2. rewrite H2. cbn [fst snd].
  rewrite N.mul_1_r. replace (j * scale * b2)%N with (j * (b2 * scale))%N by lia.
  destruct (RN_exact j (b2 * scale)) as (b3 & -> & Hb3); [nia|nia|]. cbn [fst snd].
  replace (f * b1 * (j * b3))%N with ((f * j) * (b1 * b3))%N by lia.
  destruct (RN_exact (f * j) (b1 * b3)) as (b4 & -> & Hb4); [nia|nia|]. cbn [fst snd].
  apply N.div_mul. lia.
Qed.

(** ** Reading what was printed *)

(** The rest of a text at which a number ends. *)
Definition ends_number (s : string) : Prop :=
  match s with "" => True | String c _ => digit_of c = None end.

Lemma digit_of_char n : (n < 10)%N -> digit_of (pretty_N_char n) = Some n.
Proof.
  intros Hn. assert (H : forallb (fun k => bool_decide (digit_of (pretty_N_char (N.of_nat k)) = Some (N.of_nat k))) (seq 0 10) = true)
    by (vm_compute; reflexivity).
  rewrite forallb_forall in H. specialize (H (N.to_nat n)). rewrite N2Nat.id in H.
  apply (bool_decide_eq_true_1 _), H, in_seq. lia.
Qed.

Lemma pretty_N_go_app n s t : pretty_N_go n s +:+ t = pretty_N_go n (s +:+ t).
Proof.
  revert s. induction (N.lt_wf_0 n) as [n _ IH]; intros s.
  destruct (decide (n = 0%N)) as [->|Hn]; [done|]. rewrite !(pretty_N_go_step n) by lia.
  rewrite IH by (apply N.div_lt; lia). by rewrite String_app.
Qed.

Lemma leadingInt_digit x n s :
  (n < 10)%N -> (x * 10 + n <= 2 ^ 63)%N -> leadingInt x (String (pretty_N_char n) s) = leadingInt (x * 10 + n) s.
Proof.
  intros Hn Hx. cbn [leadingInt]. rewrite digit_of_char by done.
  assert (~ (2 ^ 63 / 10 < x)%N) by (apply N.nlt_ge, N.div_le_lower_bound; lia).
  by rewrite !decide_False by lia.
Qed.

Lemma leadingInt_go n s : (n <= 2 ^ 63)%N -> leadingInt 0 (pretty_N_go n s) = leadingInt n s.
Proof.
  revert s. induction (N.lt_wf_0 n) as [n _ IH]; intros s Hn.
  destruct (decide (n = 0%N)) as [->|Hn0]; [done|]. rewrite pretty_N_go_step by lia.
  pose proof (N.div_mod n 10 ltac:(done)) as Hdm. pose proof (N.mod_lt n 10 ltac:(done)).
  rewrite IH by ((apply N.div_lt; lia) || (apply N.Div0.div_le_upper_bound; lia)).
  rewrite leadingInt_digit by lia. f_equal. lia.
Qed.

Lemma leadingInt_ends n s : ends_number s -> leadingInt n s = Some (n, s).
Proof. destruct s as [|c s]; [done|]. cbn. by intros ->. Qed.

Lemma leadingInt_pretty n s : (n <= 2 ^ 63)%N -> ends_number s -> leadingInt 0 (pretty n +:+ s) = Some (n, s).
Proof.
  intros Hn Hs. unfold pretty, pretty_N. case_decide as H0.
  - subst n. change (leadingInt 0 (String (pretty_N_char 0) s) = Some (0%N, s)).
    rewrite leadingInt_digit by lia. by apply leadingInt_ends.
  - rewrite pretty_N_go_app, leadingInt_go by done. by apply (leadingInt_ends n ("" +:+ s)).
Qed.

(** A number begins with a digit. *)
Lemma pretty_go_first n s :
  (0 < n)%N -> exists c t, pretty_N_go n s = String c t /\ is_Some (digit_of c).
Proof.
  revert s. induction (N.lt_wf_0 n) as [n _ IH]; intros s Hn. rewrite pretty_N_go_step by done.
  pose proof (N.mod_lt n 10 ltac:(done)).
  destruct (decide (n < 10)%N).
  - rewrite N.div_small by done. rewrite pretty_N_go_0. eexists _, _. split; [done|].
    by rewrite digit_of_char.
  - apply IH; [apply N.div_lt; lia|]. apply N.div_str_pos. lia.
Qed.
Lemma pretty_first (n : N) : exists c t, pretty n = String c t /\ is_Some (digit_of c).
Proof.
  unfold pretty, pretty_N. case_decide as H0; [by eexists _, _|]. apply pretty_go_first. lia.
Qed.

(** ** Every turn of the loop shortens the text *)

Lemma leadingInt_shorter x s y s' : leadingInt x s = Some (y, s') -> String.length s' <= String.length s.
Proof.
  revert x. induction s as [|c s IH]; intros x; cbn; [by intros [= <- <-]|].
  destruct (digit_of c); [|by intros [= <- <-]]. repeat case_decide; try done. intros Hr%IH. lia.
Qed.
Lemma leadingFraction_shorter x scale o s : String.length (leadingFraction x scale o s).2 <= String.length s.
Proof.
  revert x scale o. induction s as [|c s IH]; intros x scale o; cbn; [done|].
  destruct (digit_of c); [|done].
  repeat case_match; cbn; eauto using Nat.le_trans, Nat.le_succ_diag_r.
Qed.
Lemma leadingUnit_length s : String.length (leadingUnit s).1 + String.length (leadingUnit s).2 = String.length s.
Proof.
  induction s as [|c s IH]; [done|]. cbn. case_match; [done|]. destruct (leadingUnit s). cbn in *. lia.
Qed.

Lemma parse_component_shorter orig s v s' :
  parse_component orig s = Ok (v, s') -> String.length s' < String.length s.
Proof.
  unfold parse_component. destruct s as [|c s]; [done|]. case_match; [done|].
  destruct (leadingInt 0 (String c s)) as [[n s1]|] eqn:Hi; [|done]. apply leadingInt_shorter in Hi.
  set (frac := match s1 with "" => _ | String _ _ => _ end).
  assert (Hf : String.length frac.1.2 <= String.length s1).
  { unfold frac. destruct s1 as [|c1 s1]; [done|]. case_match; [|done].
    pose proof (leadingFraction_shorter 0 1 false s1). destruct (leadingFraction 0 1 false s1) as [[]]. cbn in *. lia. }
  destruct frac as [[[f scale] s2] post]. cbn in Hf. case_match; [done|].
  pose proof (leadingUnit_length s2) as Hu. destruct (leadingUnit s2) as [u s3]. cbn in Hu.
  clear H0 H. case_decide as Hne; [done|]. destruct u as [|cu u]; [by destruct Hne|]. cbn in Hu.
  destruct (unitMap _); [|done]. repeat case_decide; intros; simplify_eq; lia.
Qed.

(** The fuel is enough: with more of it the result is the same. *)
Lemma parse_components_enough fuel orig s d :
  String.length s <= fuel -> parse_components fuel orig s d = parse_components (String.length s) orig s d.
Proof.
  revert s d. induction fuel as [fuel IH] using lt_wf_ind. intros s d Hs.
  destruct s as [|c s]; [by destruct fuel|]. destruct fuel as [|fuel]; [cbn in Hs; lia|].
  cbn [parse_components String.length]. destruct (parse_component orig (String c s)) as [[v s']|] eqn:Hp; [|done]. cbn.
  apply parse_component_shorter in Hp. cbn in Hp, Hs. case_decide; [done|].
  rewrite (IH fuel) by lia. destruct (decide (fuel = String.length s)) as [->|]; [symmetry; apply IH; lia|].
  symmetry. apply IH; lia.
Qed.

Lemma parse_components_step orig s v s' d :
  parse_component orig s = Ok (v, s') -> (d + v <= 2 ^ 63)%N ->
  parse_components (String.length s) orig s d = parse_components (String.length s') orig s' (d + v).
Proof.
  intros Hp Hd. pose proof (parse_component_shorter orig s v s' Hp) as Hl.
  destruct s as [|c s]; [done|]. cbn [parse_components String.length]. rewrite Hp. cbn. rewrite wrapu64_id by lia. rewrite decide_False by lia.
  cbn in Hl. apply parse_components_enough. lia.
Qed.

(** ** Fractions *)

Lemma pretty_digit n : (n < 10)%N -> pretty n = String (pretty_N_char n) "".
Proof.
  intros Hn. unfold pretty, pretty_N. case_decide as H0; [by subst|].
  rewrite pretty_N_go_step by lia. by rewrite N.div_small, N.mod_small by done.
Qed.

Lemma leadingFraction_digit x scale n s :
  (n < 10)%N -> (x < 10 ^ 9)%N ->
  leadingFraction x scale false (String (pretty_N_char n) s) = leadingFraction (x * 10 + n) (scale * 10) false s.
Proof.
  intros Hn Hx. cbn [leadingFraction]. rewrite digit_of_char by done.
  assert (~ ((2 ^ 63 - 1) / 10 < x)%N) by (apply N.nlt_ge, N.div_le_lower_bound; lia).
  by rewrite !decide_False by lia.
Qed.

(** The text of a fraction: nothing for zero, or a dot and digits that are
    read as [f], to be divided by [scale]. *)
Definition fraction_text (D : string) (f scale : N) : Prop :=
  (D = "" /\ f = 0%N)
  \/ exists ds, D = "." +:+ ds
       /\ forall rest, ends_number rest -> leadingFraction 0 1 false (ds +:+ rest) = (f, scale, rest).

Lemma string_app_assoc (a b c : string) : (a +:+ b) +:+ c = a +:+ (b +:+ c).
Proof. induction a as [|x a IH]; [done|]. by rewrite !String_app, IH. Qed.

Lemma fmtFrac_loop_digits prec v text :
  prec <= 9 ->
  exists ds, (fmtFrac_loop prec v true text).1 = "." +:+ (ds +:+ text)
    /\ forall rest, leadingFraction 0 1 false (ds +:+ rest)
         = leadingFraction (v mod 10 ^ N.of_nat prec) (10 ^ N.of_nat prec) false rest.
Proof.
  revert v text. induction prec as [|prec IH]; intros v text Hp.
  { exists "". split; [done|]. intros rest. cbn. by rewrite N.mod_1_r. }
  cbn [fmtFrac_loop orb]. pose proof (N.mod_lt v 10 ltac:(done)) as Hd.
  destruct (IH (v / 10)%N (pretty (v mod 10)%N +:+ text)) as (ds & -> & Hds); [lia|].
  rewrite pretty_digit in * by done.
  exists (ds +:+ String (pretty_N_char (v mod 10)) ""). split; [by rewrite string_app_assoc|]. intros rest.
  rewrite string_app_assoc, Hds. cbn [String.append].
  assert (Hpow : (10 ^ N.of_nat prec <= 10 ^ 9)%N) by (apply N.pow_le_mono_r; lia).
  pose proof (N.mod_lt (v / 10) (10 ^ N.of_nat prec) ltac:(apply N.pow_nonzero; done)).
  change (leadingFraction ?x ?s false (String ?c "" +:+ rest)) with (leadingFraction x s false (String c rest)).
  rewrite leadingFraction_digit by lia.
  rewrite Nat2N.inj_succ, N.pow_succ_r', N.Div0.mod_mul_r. f_equal; lia.
Qed.

Lemma fmtFrac_text prec v text :
  prec <= 9 ->
  exists D f scale k, (fmtFrac v prec text) = (D +:+ text, v / 10 ^ N.of_nat prec)%N
    /\ fraction_text D f scale /\ k <= prec /\ scale = (10 ^ N.of_nat k)%N
    /\ (f * 10 ^ N.of_nat (prec - k) = v mod 10 ^ N.of_nat prec)%N.
Proof.
  intros Hp. unfold fmtFrac. rewrite (surjective_pairing (fmtFrac_loop prec v false text)), fmtFrac_loop_rest.
  enough (exists D f scale k, (fmtFrac_loop prec v false text).1 = D +:+ text
    /\ fraction_text D f scale /\ k <= prec /\ scale = (10 ^ N.of_nat k)%N
    /\ (f * 10 ^ N.of_nat (prec - k) = v mod 10 ^ N.of_nat prec)%N) as (D & f & scale & k & -> & H).
  { by exists D, f, scale, k. }
  revert v. induction prec as [|prec IH]; intros v.
  { exists "", 0%N, 1%N, 0. split_and!; try done; [by left|]. by rewrite N.mod_1_r. }
  cbn [fmtFrac_loop orb]. pose proof (N.mod_lt v 10 ltac:(done)) as Hd.
  destruct (decide (v mod 10 = 0)%N) as [H0|H0].
  - rewrite bool_decide_false by tauto. destruct (IH ltac:(lia) (v / 10)%N) as (D & f & scale & k & HD & Hf & Hk & Hs & Hv).
    exists D, f, scale, k. split_and!; [done..|lia|done|].
    rewrite Nat2N.inj_succ, N.pow_succ_r', N.Div0.mod_mul_r, <-Hv, H0.
    replace (S prec - k) with (S (prec - k)) by lia. rewrite Nat2N.inj_succ, N.pow_succ_r'. lia.
  - rewrite bool_decide_true by done.
    destruct (fmtFrac_loop_digits prec (v / 10)%N (pretty (v mod 10)%N +:+ text)) as (ds & -> & Hds); [lia|].
    rewrite pretty_digit by done.
    exists ("." +:+ (ds +:+ String (pretty_N_char (v mod 10)) "")), (v mod 10 ^ N.of_nat (S prec))%N,
      (10 ^ N.of_nat (S prec))%N, (S prec).
    split_and!; [by rewrite !string_app_assoc| |done|done|by rewrite Nat.sub_diag, N.mul_1_r].
    right. eexists. split; [done|]. intros rest Hr.
    rewrite string_app_assoc, Hds.
    assert (Hpow : (10 ^ N.of_nat prec <= 10 ^ 9)%N) by (apply N.pow_le_mono_r; lia).
    pose proof (N.mod_lt (v / 10) (10 ^ N.of_nat prec) ltac:(apply N.pow_nonzero; done)).
    change (leadingFraction ?x ?s false (String ?c "" +:+ rest)) with (leadingFraction x s false (String c rest)).
    rewrite leadingFraction_digit by lia.
    rewrite Nat2N.inj_succ, N.pow_succ_r', N.Div0.mod_mul_r.
    rewrite (N.add_comm _ (v mod 10)), (N.mul_comm _ 10), (N.mul_comm _ 10).
    destruct rest as [|c rest]; cbn [leadingFraction]; [done|]. by rewrite Hr.
Qed.

(** ** What is printed is read back *)

(** Text that ends a unit, and the text of a unit. *)
Definition begins_number (s : string) : Prop :=
  match s with "" => True | String c _ => is_Some (digit_of c) end.
Fixpoint unit_text (u : string) : bool :=
  match u with
  | "" => true
  | String c u => negb (is_dot c || bool_decide (is_Some (digit_of c))) && unit_text u
  end.

Lemma leadingUnit_app u rest : unit_text u = true -> begins_number rest -> leadingUnit (u +:+ rest) = (u, rest).
Proof.
  intros Hu Hr. induction u as [|c u IH].
  - destruct rest as [|c rest]; [done|]. change ("" +:+ String c rest) with (String c rest). cbn [leadingUnit].
    rewrite bool_decide_true by done. by rewrite orb_true_r.
  - cbn [unit_text] in Hu. apply andb_true_iff in Hu as [Hc Hu]. apply negb_true_iff in Hc. rewrite String_app. cbn [leadingUnit].
    by rewrite Hc, IH.
Qed.

(** The nanoseconds of a fraction [f / scale] of a unit. *)
Definition fraction_of (unit f scale : N) : N :=
  if decide (0 < f)%N then to_uint64 (fmul (of_uint64 f) (fdiv (of_uint64 unit) (scale, 1%N))) else 0%N.

Lemma parse_component_text orig n D f scale u unit rest :
  fraction_text D f scale -> u <> "" -> unit_text u = true -> unitMap u = Some unit -> begins_number rest ->
  (n <= 2 ^ 63 / unit)%N -> (0 < unit)%N -> (n * unit + fraction_of unit f scale <= 2 ^ 63)%N ->
  parse_component orig (pretty n +:+ D +:+ u +:+ rest) = Ok (n * unit + fraction_of unit f scale, rest)%N.
Proof.
  intros HD Hu0 Hu Hm Hrest Hn Hunit Hv.
  assert (Hn63 : (n <= 2 ^ 63)%N) by nia.
  assert (Hend : ends_number (u +:+ rest)).
  { destruct u as [|c u]; [done|]. cbn [unit_text] in Hu. apply andb_true_iff in Hu as [Hc _].
    apply negb_true_iff, orb_false_iff in Hc as [_ Hc]. apply bool_decide_eq_false in Hc.
    cbn. by apply eq_None_not_Some. }
  assert (Hdot : forall c t, u +:+ rest = String c t -> is_dot c = false).
  { intros c t Ht. destruct u as [|cu u]; [done|]. rewrite String_app in Ht. injection Ht as <- _.
    cbn [unit_text] in Hu. apply andb_true_iff in Hu as [Hc _]. by apply negb_true_iff, orb_false_iff in Hc as [Hc _]. }
  assert (HDend : ends_number (D +:+ u +:+ rest)) by (by destruct HD as [[-> _]|(ds & -> & _)]).
  destruct (pretty_first n) as (c & t & Hp & Hc). unfold parse_component.
  assert (Hi : leadingInt 0 (pretty n +:+ D +:+ u +:+ rest) = Some (n, D +:+ u +:+ rest)) by (by apply leadingInt_pretty).
  assert (Hl : String.length (pretty n +:+ D +:+ u +:+ rest) <> String.length (D +:+ u +:+ rest))
    by (rewrite string_app_length, Hp; cbn [String.length]; lia).
  remember (pretty n +:+ D +:+ u +:+ rest) as s eqn:E. rewrite Hp, String_app in E. destruct s as [|c' s']; [done|].
  injection E as -> _. rewrite (bool_decide_true (is_Some (digit_of c))) by done. rewrite orb_true_r. cbn [negb].
  rewrite Hi. rewrite (bool_decide_false (_ = _)) by done. cbn [negb andb].
  assert (Hfrac : exists post, match D +:+ u +:+ rest with
    | String c s' => if is_dot c then let '(f, scale, rest) := leadingFraction 0 1 false s' in
                       (f, scale, rest, negb (bool_decide (String.length s' = String.length rest)))
                     else (0%N, 1%N, D +:+ u +:+ rest, false)
    | "" => (0%N, 1%N, D +:+ u +:+ rest, false) end
    = (f, (if decide (f = 0%N) then (match D with "" => 1%N | _ => scale end) else scale), u +:+ rest, post)).
  { destruct HD as [[-> ->]|(ds & -> & Hds)].
    - exists false. cbn [String.append]. change ("" +:+ u +:+ rest) with (u +:+ rest). rewrite decide_True by done.
      destruct (u +:+ rest) as [|c' t'] eqn:Ht; [done|]. by rewrite (Hdot c' t').
    - eexists. change (("." +:+ ds) +:+ u +:+ rest) with (String (Ascii.ascii_of_nat 46) (ds +:+ u +:+ rest)).
      change (is_dot (Ascii.ascii_of_nat 46)) with true. cbv iota. rewrite (Hds _ Hend). case_decide; reflexivity. }
  destruct Hfrac as [post ->]. cbn [negb andb]. rewrite (leadingUnit_app u rest Hu Hrest).
  rewrite decide_False by done. rewrite Hm. rewrite decide_False by lia.
  unfold fraction_of in *. case_decide as Hf; [|by rewrite N.add_0_r].
  rewrite (decide_False (P := f = 0%N)) by lia. by rewrite decide_False by lia.
Qed.

Lemma fraction_value prec f k r :
  prec <= 9 -> k <= prec -> (r < 10 ^ N.of_nat prec)%N -> (f * 10 ^ N.of_nat (prec - k) = r)%N ->
  fraction_of (10 ^ N.of_nat prec) f (10 ^ N.of_nat k) = r.
Proof.
  intros Hp Hk Hr Hf. unfold fraction_of. case_decide as H0; [|lia].
  assert (Hpow : (10 ^ N.of_nat prec = 10 ^ N.of_nat (prec - k) * 10 ^ N.of_nat k)%N).
  { rewrite <-N.pow_add_r. f_equal. lia. }
  assert (Hle : (10 ^ N.of_nat prec <= 10 ^ 9)%N) by (apply N.pow_le_mono_r; lia).
  assert (Hbig : (10 ^ 9 < 2 ^ 53)%N) by done.
  rewrite Hpow at 1. rewrite fraction_exact; [done|done| | |lia|lia]; apply N.neq_0_lt_0, N.pow_nonzero; done.
Qed.

(** The last component: a number with the fraction of [v]. *)
Lemma parse_fraction orig n v prec u :
  prec <= 9 -> u <> "" -> unit_text u = true -> unitMap u = Some (10 ^ N.of_nat prec)%N ->
  (n * 10 ^ N.of_nat prec + v mod 10 ^ N.of_nat prec <= 2 ^ 63)%N ->
  parse_component orig (pretty n +:+ (fmtFrac v prec u).1) = Ok (n * 10 ^ N.of_nat prec + v mod 10 ^ N.of_nat prec, "")%N.
Proof.
  intros Hp Hu0 Hu Hm Hv. assert (Hpos : (0 < 10 ^ N.of_nat prec)%N) by (apply N.neq_0_lt_0, N.pow_nonzero; done).
  destruct (fmtFrac_text prec v u Hp) as (D & f & scale & k & -> & HD & Hk & -> & Hf). cbn [fst].
  pose proof (N.mod_lt v (10 ^ N.of_nat prec) ltac:(lia)) as Hr.
  pose proof (fraction_value prec f k _ Hp Hk Hr Hf) as Hval.
  assert (Htail : u +:+ "" = u) by (clear; induction u as [|c u IH]; [done|by rewrite String_app, IH]).
  replace (D +:+ u) with (D +:+ u +:+ "") by (by rewrite Htail). rewrite <-Hval.
  apply parse_component_text; try done; [|by rewrite Hval]. apply N.div_le_lower_bound; lia.
Qed.

(** A component without a fraction. *)
Lemma parse_whole orig n u unit rest :
  u <> "" -> unit_text u = true -> unitMap u = Some unit -> begins_number rest -> (0 < unit)%N ->
  (n * unit <= 2 ^ 63)%N -> parse_component orig (pretty n +:+ u +:+ rest) = Ok (n * unit, rest)%N.
Proof.
  intros Hu0 Hu Hm Hr Hpos Hn.
  pose proof (parse_component_text orig n "" 0 1 u unit rest) as H. unfold fraction_of in H.
  rewrite decide_False, N.add_0_r in H by lia. apply H; try done; [by left|].
  apply N.div_le_lower_bound; lia.
Qed.

Lemma begins_pretty (n : N) t : begins_number (pretty n +:+ t).
Proof. destruct (pretty_first n) as (c & s & -> & Hc). by rewrite String_app. Qed.

Lemma parse_components_last orig s v d :
  parse_component orig s = Ok (v, "") -> (d + v <= 2 ^ 63)%N -> parse_components (String.length s) orig s d = Ok (d + v)%N.
Proof. intros Hp Hd. by rewrite (parse_components_step orig s v "" d Hp Hd). Qed.

Lemma fmtFrac_rest v prec u : (fmtFrac v prec u).2 = (v / 10 ^ N.of_nat prec)%N.
Proof. apply fmtFrac_loop_rest. Qed.

(** A text of one component. *)
Lemma parse_small orig v prec u :
  prec <= 9 -> u <> "" -> unit_text u = true -> unitMap u = Some (10 ^ N.of_nat prec)%N -> (v <= 2 ^ 63)%N ->
  let s := pretty (fmtFrac v prec u).2 +:+ (fmtFrac v prec u).1 in
  parse_components (String.length s) orig s 0 = Ok v.
Proof.
  intros Hp Hu0 Hu Hm Hv s. subst s. rewrite fmtFrac_rest.
  assert (Hsplit : (v / 10 ^ N.of_nat prec * 10 ^ N.of_nat prec + v mod 10 ^ N.of_nat prec = v)%N).
  { pose proof (N.div_mod v (10 ^ N.of_nat prec) ltac:(apply N.pow_nonzero; done)). lia. }
  rewrite (parse_components_last _ _ v); [done| |lia].
  rewrite parse_fraction; [by rewrite Hsplit|done..|by rewrite Hsplit].
Qed.

Lemma parse_magnitude orig u :
  (u <= 2 ^ 63)%N ->
  parse_components (String.length (format_magnitude u)) orig (format_magnitude u) 0 = Ok u.
Proof.
  intros Hu. unfold format_magnitude. case_decide as H9.
  { case_decide as H0; [subst u; reflexivity|].
    set (p := if decide (u < 1000)%N then _ else _).
    assert (Hp : exists prec unit, p = (unit, prec) /\ prec <= 9 /\ unit <> "" /\ unit_text unit = true
                 /\ unitMap unit = Some (10 ^ N.of_nat prec)%N).
    { unfold p. repeat case_decide; eexists _, _; (split; [reflexivity|]); (split; [lia|]); done. }
    destruct Hp as (prec & unit & -> & Hp & Hn & Ht & Hm).
    pose proof (parse_small orig u prec unit Hp Hn Ht Hm Hu) as H. cbv zeta in H.
    by destruct (fmtFrac u prec unit). }
  pose proof (fmtFrac_rest u 9 "s") as Hq. pose proof (fun n => parse_fraction orig n u 9 "s") as Hs.
  destruct (fmtFrac u 9 "s") as [text q]. cbn [fst snd] in *. change (10 ^ N.of_nat 9)%N with 1000000000%N in *.
  pose proof (N.div_mod u 1000000000 ltac:(done)) as Hu9. rewrite <-Hq in Hu9.
  pose proof (N.mod_lt u 1000000000 ltac:(done)) as Hr.
  set (r := (u mod 1000000000)%N) in *. clearbody r. clear Hq.
  pose proof (N.div_mod q 60 ltac:(done)) as Hq60. pose proof (N.mod_lt q 60 ltac:(done)) as Hsec.
  pose proof (N.div_mod (q / 60) 60 ltac:(done)) as Hm60. pose proof (N.mod_lt (q / 60) 60 ltac:(done)) as Hmin.
  set (sec := (q mod 60)%N) in *. set (m := (q / 60)%N) in *. set (h := (m / 60)%N) in *. set (min := (m mod 60)%N) in *.
  clearbody h min. clearbody m sec.
  assert (Hsecs : forall d, (d + (sec * 1000000000 + r) <= 2 ^ 63)%N ->
    parse_components (String.length (pretty sec +:+ text)) orig (pretty sec +:+ text) d = Ok (d + (sec * 1000000000 + r))%N).
  { intros d Hd. apply parse_components_last; [|done]. apply Hs; [lia|done..|lia]. }
  assert (Hmins : forall d, (d + (min * 60000000000 + (sec * 1000000000 + r)) <= 2 ^ 63)%N ->
    parse_components (String.length (pretty min +:+ "m" +:+ pretty sec +:+ text)) orig (pretty min +:+ "m" +:+ pretty sec +:+ text) d
    = Ok (d + (min * 60000000000 + (sec * 1000000000 + r)))%N).
  { intros d Hd. erewrite parse_components_step;
      [|apply (parse_whole orig min "m" 60000000000); [done..|apply begins_pretty|done|lia]|lia].
    rewrite Hsecs by lia. f_equal. lia. }
  case_decide as Hm.
  - case_decide as Hh.
    + change (pretty h +:+ "h" +:+ pretty min +:+ "m" +:+ pretty sec +:+ text)
        with (pretty h +:+ "h" +:+ (pretty min +:+ "m" +:+ pretty sec +:+ text)).
      erewrite parse_components_step;
        [|apply (parse_whole orig h "h" 3600000000000); [done..|apply begins_pretty|done|lia]|lia].
      rewrite Hmins by lia. f_equal. lia.
    + rewrite Hmins by lia. f_equal. lia.
  - rewrite Hsecs by lia. f_equal. lia.
Qed.

(** A printed magnitude begins with a digit, and is not just a zero. *)
Lemma format_magnitude_first u :
  exists c t, format_magnitude u = String c t /\ is_Some (digit_of c) /\ t <> "".
Proof.
  assert (H : forall n s, s <> "" -> exists c t, pretty (n : N) +:+ s = String c t /\ is_Some (digit_of c) /\ t <> "").
  { intros n s Hs. destruct (pretty_first n) as (c & t & -> & Hc). rewrite String_app. eexists _, _. split; [done|]. split; [done|].
    by destruct t, s. }
  assert (Hfrac : forall v prec unit, unit <> "" -> (fmtFrac v prec unit).1 <> "").
  { intros v prec unit. unfold fmtFrac. generalize false as print. revert v unit.
    induction prec as [|prec IH]; intros v unit print Hu; cbn [fmtFrac_loop].
    - destruct print; [by destruct unit|done].
    - apply IH. case_match; [|done]. destruct (pretty_first (v mod 10)%N) as (c & t & -> & _). by rewrite String_app. }
  unfold format_magnitude. case_decide.
  - case_decide; [by eexists _, _|]. set (p := if decide (u < 1000)%N then _ else _).
    assert (Hp : p.1 <> "") by (unfold p; by repeat case_decide).
    destruct p as [unit prec]. pose proof (Hfrac u prec unit Hp) as Hne. destruct (fmtFrac u prec unit). by apply H.
  - pose proof (Hfrac u 9 "s" ltac:(done)) as Hne. destruct (fmtFrac u 9 "s") as [text q].
    repeat case_decide; by apply H.
Qed.

(** [ParseDuration] reads back what [String] has printed. *)
Lemma ParseDuration_text d : in_int64 d -> ParseDuration (Duration_text d) = Ok d.
Proof.
  intros Hd. unfold in_int64, int64_min, int64_max in Hd.
  unfold ParseDuration, Duration_text.
  destruct (format_magnitude_first (Z.to_N (Z.abs d))) as (c & t & Ht & [x Hc] & Hne).
  pose proof (parse_magnitude (Duration_text d) (Z.to_N (Z.abs d)) ltac:(lia)) as Hp.
  unfold Duration_text in Hp. rewrite Ht in Hp |- *.
  assert (Hnot0 : String c t <> "0") by (by intros [= _ ->]).
  case_decide as Hneg.
  - change ("-" +:+ String c t) with (String (Ascii.ascii_of_nat 45) (String c t)) in *.
    change (Ascii.N_of_ascii (Ascii.ascii_of_nat 45)) with 45%N. cbv zeta beta iota. rewrite decide_True by (by left). cbv beta iota.
    rewrite decide_False by done. rewrite decide_False by done. rewrite Hp. cbn. f_equal. lia.
  - unfold digit_of in Hc. case_decide as Hcd; [|done].
    rewrite decide_False by lia. cbv beta iota.
    rewrite decide_False by done. rewrite decide_False by done. rewrite Hp. cbn.
    rewrite decide_False by lia. f_equal. lia.
Qed.

Lemma Duration_text_nonempty d : Duration_text d <> "".
Proof.
  unfold Duration_text. destruct (format_magnitude_first (Z.to_N (Z.abs d))) as (c & t & -> & _). by case_decide.
Qed.

(** A duration is not written with every letter. *)
Fixpoint avoids (c : Ascii.ascii) (s : string) : bool :=
  match s with "" => true | String d s => negb (bool_decide (c = d)) && avoids c s end.

Lemma avoids_app c s t : avoids c (s +:+ t) = avoids c s && avoids c t.
Proof. induction s as [|d s IH]; [done|]. rewrite String_app. cbn. by rewrite IH, andb_assoc. Qed.

Lemma avoids_substring c i n s : avoids c s = true -> avoids c (String.substring i n s) = true.
Proof.
  revert i n. induction s as [|d s IH]; intros i n; cbn; [by destruct i, n|].
  intros [Hd Hs]%andb_true_iff. destruct i as [|i].
  - destruct n as [|n]; [done|]. cbn. by rewrite Hd, IH.
  - by apply IH.
Qed.

Lemma avoids_suffix c s suffix : avoids c s = true -> avoids c suffix = false -> HasSuffix s suffix = false.
Proof.
  intros Hs Hx. unfold HasSuffix. destruct (bool_decide (_ <= _)); [|done]. cbn. apply bool_decide_eq_false. intros E.
  by rewrite <-E, avoids_substring in Hx.
Qed.

Lemma avoids_pretty c (n : N) : digit_of c = None -> avoids c (pretty n) = true.
Proof.
  intros Hc. assert (Hd : forall k, (k < 10)%N -> c <> pretty_N_char k) by (intros k Hk ->; by rewrite digit_of_char in Hc).
  unfold pretty, pretty_N. case_decide as H0; [cbn; rewrite bool_decide_false; [done|by apply (Hd 0%N)]|].
  clear H0. enough (H : forall s, avoids c s = true -> avoids c (pretty_N_go n s) = true) by (by apply H).
  induction (N.lt_wf_0 n) as [n _ IH]. intros s Hs.
  destruct (decide (n = 0%N)) as [->|H0]; [done|]. rewrite pretty_N_go_step by lia. apply IH; [apply N.div_lt; lia|].
  cbn. rewrite bool_decide_false by (apply Hd, N.mod_lt; done). done.
Qed.

Lemma avoids_fmtFrac c v prec unit :
  digit_of c = None -> is_dot c = false -> avoids c unit = true -> avoids c (fmtFrac v prec unit).1 = true.
Proof.
  intros Hc Hdot. unfold fmtFrac. generalize false as print. revert v unit.
  induction prec as [|prec IH]; intros v unit print Hu; cbn [fmtFrac_loop].
  - destruct print; [|done]. cbn [fst]. rewrite avoids_app, Hu. cbn. rewrite bool_decide_false; [done|]. by intros ->.
  - apply IH. case_match; [|done]. by rewrite avoids_app, avoids_pretty, Hu.
Qed.

Definition letter_p : Ascii.ascii := Ascii.ascii_of_nat 112.

Lemma Duration_text_avoids d : avoids letter_p (Duration_text d) = true.
Proof.
  assert (Hp : forall n : N, avoids letter_p (pretty n) = true) by (intros n; by apply avoids_pretty).
  assert (Hf : forall v prec unit, avoids letter_p unit = true -> avoids letter_p (fmtFrac v prec unit).1 = true)
    by (intros; by apply avoids_fmtFrac).
  assert (Hm : forall u, avoids letter_p (format_magnitude u) = true).
  { intros u. unfold format_magnitude. case_decide.
    - case_decide; [done|]. set (x := if decide (u < 1000)%N then _ else _).
      assert (Hx : avoids letter_p x.1 = true) by (unfold x; by repeat case_decide). destruct x as [unit prec].
      pose proof (Hf u prec unit Hx) as H1. destruct (fmtFrac u prec unit). by rewrite avoids_app, Hp.
    - pose proof (Hf u 9 "s" eq_refl) as H1. destruct (fmtFrac u 9 "s") as [text q]. cbn [fst] in H1.
      repeat case_decide; by rewrite ?avoids_app, ?Hp, ?H1. }
  unfold Duration_text. case_decide; [|done]. by rewrite avoids_app, Hm.
Qed.
