(* ===== verification/GoQuote.v ===== *)
(** * [strconv.Quote]

    The decoding of UTF-8 ([utf8.DecodeRuneInString]) and the quotation that
    the format [%q] makes of a string.  Which runes beyond Latin-1 can be
    printed is a table of the Unicode standard: the class [Printable]. *)

From Stdlib Require Ascii.
From S2P Require Import Prelude GoStrings.

Class Printable := printable_rune : N -> bool.

Definition RuneError : N := 65533.
Definition byte (c : Ascii.ascii) : N := Ascii.N_of_ascii c.
Definition within (lo hi n : N) : bool := bool_decide (lo <= n <= hi)%N.

(** How long the rune that a byte begins is, and which second bytes it has;
    [None]: none begins with it. *)
Definition first_byte (b : N) : option (nat * N * N) :=
  if within 0 127 b then Some (1, 0%N, 0%N)
  else if within 194 223 b then Some (2, 128%N, 191%N)
  else if decide (b = 224%N) then Some (3, 160%N, 191%N)
  else if decide (b = 237%N) then Some (3, 128%N, 159%N)
  else if within 225 239 b then Some (3, 128%N, 191%N)
  else if decide (b = 240%N) then Some (4, 144%N, 191%N)
  else if within 241 243 b then Some (4, 128%N, 191%N)
  else if decide (b = 244%N) then Some (4, 128%N, 143%N)
  else None.

(** [utf8.DecodeRuneInString] of a string that is not empty: the rune and its
    width. *)
Definition DecodeRune (s : bytes) : N * nat :=
  let wrong := (RuneError, 1) in
  match s with
  | [] => (RuneError, 0)
  | c :: s =>
      let b := byte c in
      match first_byte b, byte <$> s with
      | None, _ => wrong
      | Some (1, _, _), _ => (b, 1)
      | Some (2, lo, hi), b1 :: _ =>
          if within lo hi b1 then (N.lor (N.shiftl (N.land b 31) 6) (N.land b1 63), 2) else wrong
      | Some (3, lo, hi), b1 :: b2 :: _ =>
          if within lo hi b1 && within 128 191 b2
          then (N.lor (N.shiftl (N.land b 15) 12)
                  (N.lor (N.shiftl (N.land b1 63) 6) (N.land b2 63)), 3)
          else wrong
      | Some (4, lo, hi), b1 :: b2 :: b3 :: _ =>
          if within lo hi b1 && within 128 191 b2 && within 128 191 b3
          then (N.lor (N.shiftl (N.land b 7) 18)
                  (N.lor (N.shiftl (N.land b1 63) 12)
                     (N.lor (N.shiftl (N.land b2 63) 6) (N.land b3 63))), 4)
          else wrong
      | Some _, _ => wrong
      end
  end.

(** The [digits] low hexadecimal digits of a number. *)
Definition hex_digit (n : N) : Ascii.ascii :=
  Ascii.ascii_of_N (if decide (n < 10)%N then 48 + n else 87 + n)%N.
Fixpoint hex (digits : nat) (n : N) : bytes :=
  match digits with
  | O => []
  | S digits => hex_digit (N.land (N.shiftr n (4 * N.of_nat digits)) 15) :: hex digits n
  end.

Definition backslash : Ascii.ascii := Ascii.ascii_of_nat 92.
Definition quote : Ascii.ascii := Ascii.ascii_of_nat 34.

(** [strconv.IsPrint]. *)
Definition IsPrint `{Printable} (r : N) : bool :=
  if decide (r <= 255)%N then within 32 126 r || (within 161 255 r && negb (bool_decide (r = 173%N)))
  else printable_rune r.

(** The letters of the short escapes. *)
Definition short_escape (r : N) : option Ascii.ascii :=
  list_find (fun e => e.1 = r) (zip [7; 8; 12; 10; 13; 9; 11]%N (String.list_ascii_of_string "abfnrtv"))
    ≫= fun found => Some found.2.2.

(** [appendEscapedRune]; [text] are the bytes of the rune. *)
Definition escape_rune `{Printable} (r : N) (text : bytes) : bytes :=
  if decide (r = byte quote \/ r = byte backslash) then backslash :: text
  else if IsPrint r then text
  else backslash ::
    match short_escape r with
    | Some letter => [letter]
    | None =>
        if decide (r < 32 \/ r = 127)%N then Ascii.ascii_of_nat 120 :: hex 2 r
        else if decide (r < 65536)%N then Ascii.ascii_of_nat 117 :: hex 4 r
        else Ascii.ascii_of_nat 85 :: hex 8 r
    end.

(** One turn of the loop: a byte that begins no rune is written in
    hexadecimal. *)
Definition quote_rune `{Printable} (s : bytes) : bytes * nat :=
  let '(r, width) := DecodeRune s in
  (if decide (width = 1 /\ r = RuneError)
   then match s with
        | c :: _ => backslash :: Ascii.ascii_of_nat 120 :: hex 2 (byte c)
        | [] => []
        end
   else escape_rune r (take width s), width).

(** Every turn takes a byte or more, so that as many turns as there are bytes
    are enough. *)
Fixpoint quote_loop `{Printable} (fuel : nat) (s : bytes) : bytes :=
  match fuel, s with
  | S fuel, _ :: _ => let '(text, width) := quote_rune s in text ++ quote_loop fuel (drop width s)
  | _, _ => []
  end.

Definition Quote `{Printable} (s : string) : string :=
  let s := String.list_ascii_of_string s in
  String.string_of_list_ascii (quote :: quote_loop (length s) s ++ [quote]).

(** ** Lemmas *)

Lemma DecodeRune_width s : s <> [] -> 1 <= (DecodeRune s).2 <= 4.
Proof.
  destruct s as [|c s]; [done|]. intros _. unfold DecodeRune.
  destruct (first_byte (byte c)) as [[[[|[|[|[|[|n]]]]] lo] hi]|], s as [|? [|? [|? s]]]; cbn;
    repeat case_match; cbn; lia.
Qed.

(** More turns write nothing more. *)
Lemma quote_loop_enough `{Printable} fuel s :
  length s <= fuel -> quote_loop fuel s = quote_loop (length s) s.
Proof.
  revert s. induction fuel as [fuel IH] using lt_wf_ind. intros s Hs.
  destruct s as [|c s]; [by destruct fuel|]. destruct fuel as [|fuel]; [cbn in Hs; lia|].
  cbn [quote_loop length]. destruct (quote_rune (c :: s)) as [text width] eqn:Hq. f_equal.
  assert (Hw : 1 <= width).
  { pose proof (DecodeRune_width (c :: s) ltac:(done)) as Hd. unfold quote_rune in Hq.
    destruct (DecodeRune (c :: s)). cbn in Hd. simplify_eq. lia. }
  assert (Hl : length (drop width (c :: s)) <= length s) by (rewrite length_drop; cbn; lia).
  cbn in Hs. rewrite (IH fuel) by lia. destruct (decide (length s = fuel)) as [->|]; [|].
  - symmetry. apply IH; lia.
  - symmetry. apply IH; lia.
Qed.

(** What can be printed in ASCII is only wrapped in quotation marks, its
    quotation marks and backslashes apart. *)
Definition plain (c : Ascii.ascii) : bool :=
  within 32 126 (byte c) && negb (bool_decide (c = quote \/ c = backslash)).

Lemma quote_loop_plain `{Printable} s : forallb plain s = true -> quote_loop (length s) s = s.
Proof.
  induction s as [|c s IH]; [done|]. cbn [forallb]. intros [Hc Hs]%andb_true_iff.
  cbn [length quote_loop]. unfold plain, within in Hc. apply andb_true_iff in Hc as [Hr Hq].
  apply bool_decide_eq_true in Hr. apply negb_true_iff, bool_decide_eq_false in Hq.
  assert (Hd : DecodeRune (c :: s) = (byte c, 1)).
  { unfold DecodeRune, first_byte, within. rewrite bool_decide_true by lia. done. }
  unfold quote_rune. rewrite Hd. rewrite decide_False by (unfold RuneError; lia).
  unfold escape_rune. rewrite decide_False.
  2:{ intros [Hb|Hb]; apply Hq; [left|right];
      apply (f_equal Ascii.ascii_of_N) in Hb; unfold byte in Hb;
      by rewrite !Ascii.ascii_N_embedding in Hb. }
  unfold IsPrint. rewrite decide_True by lia. unfold within. rewrite bool_decide_true by lia.
  cbn. by rewrite drop_0, IH.
Qed.

Lemma quotations `{Printable} :
  Quote "a b" = quoted "a b"
  /\ Quote (String quote (String (Ascii.ascii_of_nat 10) (String (Ascii.ascii_of_nat 255) EmptyString)))
     = quoted (String backslash (String quote "\n\xff")).
Proof. split; vm_compute; reflexivity. Qed.
