(* ===== verification/Lease.v ===== *)
(** * Leases (packages [strategy] and [lease])

    The data of a lease with its methods (lease.go), its subject and instance
    (subject.go, instance.go), statuses (status.go), properties
    (properties.go), the operations and effects a transaction records (op.go)
    and the state a lease holder keeps (state.go).  A Go method [T.M] is the
    definition [T_M]. *)

From S2P Require Import Prelude GoTime.

(** ** strategy/strategy.go *)

Definition Strategy := string.
Definition Strategy_Empty : Strategy := "".
Definition Strategy_Instance : Strategy := "instance".
Definition Strategy_Consumer : Strategy := "consumer".

Definition Strategy_Valid (strategy : Strategy) : bool :=
  bool_decide (strategy = Strategy_Empty)
  || bool_decide (strategy = Strategy_Consumer)
  || bool_decide (strategy = Strategy_Instance).

(** ** lease/instance.go and lease/subject.go *)

Record LeaseInstance := mkInstance {
  inst_Host : string;
  inst_User : string;
  inst_ID : string;
}.

Record Subject := mkSubject {
  sub_Resource : string;
  sub_Instance : LeaseInstance;
}.

#[export] Instance LeaseInstance_eq_dec : EqDecision LeaseInstance.
Proof. solve_decision. Defined.
#[export] Instance Subject_eq_dec : EqDecision Subject.
Proof. solve_decision. Defined.

#[export] Instance LeaseInstance_countable : Countable LeaseInstance.
Proof.
  refine (inj_countable' (fun i => (inst_Host i, inst_User i, inst_ID i))
            (fun '(h, u, d) => mkInstance h u d) _).
  by intros [].
Defined.

Definition Instance_Empty (i : LeaseInstance) : bool :=
  bool_decide (inst_Host i = "") && bool_decide (inst_User i = "")
  && bool_decide (inst_ID i = "").

Definition Instance_String (i : LeaseInstance) : string :=
  inst_Host i +:+ " " +:+ inst_User i +:+ " " +:+ inst_ID i.

Definition Subject_HostUser (s : Subject) : string :=
  inst_Host (sub_Instance s) +:+ " " +:+ inst_User (sub_Instance s).

Definition Subject_Empty (s : Subject) : bool :=
  bool_decide (sub_Resource s = "") && Instance_Empty (sub_Instance s).

Definition Subject_String (s : Subject) : string :=
  if decide (sub_Resource s = "") then Instance_String (sub_Instance s)
  else sub_Resource s +:+ ": " +:+ Instance_String (sub_Instance s).

(** ** lease/properties.go

    A nil map and an empty one are the same finite map: the source only
    looks keys up, ranges over them and counts them. *)

Abbreviation Properties := (gmap string string) (only parsing).

(** The Go expression [p[key]]: the zero value when the key is absent. *)
Definition Properties_get (p : Properties) (key : string) : string :=
  default "" (p !! key).

Definition Properties_Clone (p : Properties) : Properties :=
  map_fold (fun k v (to : Properties) => <[k := v]> to) ∅ p.

(** Merging one map into [merged]: every key of [p] is written. *)
Definition merge_into (merged p : Properties) : Properties :=
  map_fold (fun k v (m : Properties) => <[k := v]> m) merged p.

Definition MergeProperties (props : list Properties) : Properties :=
  foldl merge_into ∅ props.

(** ** lease/status.go *)

Definition Status := string.
Definition Queued : Status := "queued".
Definition Active : Status := "active".
Definition Released : Status := "released".


Definition Status_Order (s : Status) : nat :=
  if decide (s = Active) then 0
  else if decide (s = Released) then 1
  else if decide (s = Queued) then 2
  else 3.

(** ** lease/refresh.go and lease/lease.go *)

Definition MinimumRefresh : Duration := Second.

Record Refresh_ := mkRefresh {
  ref_Active : Duration;
  ref_Queued : Duration;
}.

Record Lease := mkLease {
  ls_Subject : Subject;
  ls_Properties : Properties;
  ls_Status : Status;
  ls_Started : Time;
  ls_Renewed : Time;
  ls_Released : Time;
  ls_Strategy : Strategy;
  ls_Limit : N;
  ls_Duration : Duration;
  ls_Decay : Duration;
  ls_Refresh : Refresh_;
}.

#[export] Instance Refresh_eq_dec : EqDecision Refresh_.
Proof. solve_decision. Defined.
#[export] Instance Lease_eq_dec : EqDecision Lease.
Proof. solve_decision. Defined.

(** The Go zero value [Lease{}]. *)
Definition zero_instance : LeaseInstance := mkInstance "" "" "".
Definition zero_subject : Subject := mkSubject "" zero_instance.
Definition zero_lease : Lease :=
  mkLease zero_subject ∅ "" zero_time zero_time zero_time "" 0 0%Z 0%Z (mkRefresh 0%Z 0%Z).

(** Promoted fields of the embedded [Subject]. *)
Definition ls_Resource (ls : Lease) : string := sub_Resource (ls_Subject ls).
Definition ls_Instance (ls : Lease) : LeaseInstance := sub_Instance (ls_Subject ls).
Definition ls_HostUser (ls : Lease) : string := Subject_HostUser (ls_Subject ls).

(** Field assignments. *)
Definition set_Status (s : Status) (ls : Lease) : Lease :=
  mkLease (ls_Subject ls) (ls_Properties ls) s (ls_Started ls) (ls_Renewed ls)
    (ls_Released ls) (ls_Strategy ls) (ls_Limit ls) (ls_Duration ls) (ls_Decay ls)
    (ls_Refresh ls).
Definition set_Released (t : Time) (ls : Lease) : Lease :=
  mkLease (ls_Subject ls) (ls_Properties ls) (ls_Status ls) (ls_Started ls)
    (ls_Renewed ls) t (ls_Strategy ls) (ls_Limit ls) (ls_Duration ls) (ls_Decay ls)
    (ls_Refresh ls).
Definition set_Started (t : Time) (ls : Lease) : Lease :=
  mkLease (ls_Subject ls) (ls_Properties ls) (ls_Status ls) t
    (ls_Renewed ls) (ls_Released ls) (ls_Strategy ls) (ls_Limit ls) (ls_Duration ls)
    (ls_Decay ls) (ls_Refresh ls).
Definition set_Refresh (r : Refresh_) (ls : Lease) : Lease :=
  mkLease (ls_Subject ls) (ls_Properties ls) (ls_Status ls) (ls_Started ls)
    (ls_Renewed ls) (ls_Released ls) (ls_Strategy ls) (ls_Limit ls) (ls_Duration ls)
    (ls_Decay ls) r.

Definition Lease_MatchResource (ls : Lease) (resource : string) : bool :=
  bool_decide (ls_Resource ls = resource).

Definition Lease_MatchHostUser (ls : Lease) (resource host user : string) : bool :=
  bool_decide (ls_Resource ls = resource)
  && bool_decide (inst_Host (ls_Instance ls) = host)
  && bool_decide (inst_User (ls_Instance ls) = user).

Definition Lease_MatchInstance (ls : Lease) (resource : string) (inst : LeaseInstance) : bool :=
  bool_decide (ls_Resource ls = resource) && bool_decide (ls_Instance ls = inst).

Definition Lease_MatchStatus (ls : Lease) (status : Status) : bool :=
  bool_decide (ls_Status ls = status).

Definition Lease_Consumptive (ls : Lease) : bool :=
  bool_decide (ls_Status ls = Active) || bool_decide (ls_Status ls = Released).

Definition Lease_ExpirationTime (ls : Lease) : Time :=
  Time_Add (ls_Renewed ls) (ls_Duration ls).

Definition Lease_Expired (ls : Lease) (at_ : Time) : bool :=
  Time_After at_ (Lease_ExpirationTime ls).

Definition Lease_DecayTime (ls : Lease) : Time :=
  let release :=
    if negb (Time_IsZero (ls_Released ls)) then ls_Released ls
    else Lease_ExpirationTime ls in
  Time_Add release (ls_Decay ls).

Definition Lease_Decayed (ls : Lease) (at_ : Time) : bool :=
  Time_After at_ (Lease_DecayTime ls).

Definition Lease_EffectiveRefresh (ls : Lease) : Duration :=
  let interval :=
    if decide (ls_Status ls = Active) then ref_Active (ls_Refresh ls)
    else if decide (ls_Status ls = Queued) then ref_Queued (ls_Refresh ls)
    else 0%Z in
  let interval :=
    if decide (interval = 0%Z) then Duration_div (ls_Duration ls) 2 else interval in
  if decide (interval < MinimumRefresh)%Z then MinimumRefresh else interval.

Definition Lease_ResourceName (ls : Lease) : string :=
  let name := Properties_get (ls_Properties ls) "resource.name" in
  if decide (name <> "") then name
  else
    let name := Properties_get (ls_Properties ls) "resource.id" in
    if decide (name <> "") then name else ls_Resource ls.

Definition Clone (from : Lease) : Lease :=
  mkLease (ls_Subject from) (Properties_Clone (ls_Properties from)) (ls_Status from)
    (ls_Started from) (ls_Renewed from) (ls_Released from) (ls_Strategy from)
    (ls_Limit from) (ls_Duration from) (ls_Decay from) (ls_Refresh from).

(** ** lease/op.go *)

Inductive Action := OpNone | OpCreate | OpUpdate | OpDelete.

#[export] Instance Action_eq_dec : EqDecision Action.
Proof. solve_decision. Defined.

Definition Action_String (t : Action) : string :=
  match t with
  | OpNone => "none"
  | OpCreate => "create"
  | OpUpdate => "update"
  | OpDelete => "delete"
  end.

Inductive UpdateType := Renew | Downgrade | Upgrade | Replace | Exchange | Transmute.

#[export] Instance UpdateType_eq_dec : EqDecision UpdateType.
Proof. solve_decision. Defined.

Definition UpdateType_String (t : UpdateType) : string :=
  match t with
  | Renew => "renew"
  | Upgrade => "upgrade"
  | Downgrade => "downgrade"
  | Replace => "replace"
  | Exchange => "exchange"
  | Transmute => "transmute"
  end.

Record Op := mkOp {
  op_Type : Action;
  op_Previous : Lease;
  op_Lease : Lease;
}.

Record Effect := mkEffect {
  eff_Action : Action;
  eff_Lease : Lease;
}.

(** [strings.ToUpper] on the ASCII strings it is applied to (action names and
    the statuses of consumptive leases). *)
Definition ascii_upper (c : Ascii.ascii) : Ascii.ascii :=
  let n := Ascii.N_of_ascii c in
  if (97 <=? n)%N && (n <=? 122)%N then Ascii.ascii_of_N (n - 32) else c.

Fixpoint ToUpper (s : string) : string :=
  match s with
  | EmptyString => EmptyString
  | String c s' => String (ascii_upper c) (ToUpper s')
  end.

Definition Effect_String (e : Effect) : string :=
  Instance_String (ls_Instance (eff_Lease e)) +:+ " "
  +:+ ToUpper (Action_String (eff_Action e)) +:+ " "
  +:+ ToUpper (ls_Status (eff_Lease e)) +:+ " "
  +:+ ls_Resource (eff_Lease e).

Definition Op_UpdateType (op : Op) : UpdateType :=
  let l := op_Lease op in
  let p := op_Previous op in
  if decide (ls_Resource l <> ls_Resource p) then Transmute
  else if decide (inst_Host (ls_Instance l) <> inst_Host (ls_Instance p)
                  \/ inst_User (ls_Instance l) <> inst_User (ls_Instance p)) then Exchange
  else if decide (ls_Instance l <> ls_Instance p) then Replace
  else if decide (ls_Status l <> ls_Status p) then
    if decide (Status_Order (ls_Status l) < Status_Order (ls_Status p)) then Upgrade
    else Downgrade
  else Renew.

Definition Op_Consumptive (op : Op) : bool :=
  match op_Type op with
  | OpCreate => Lease_Consumptive (op_Lease op)
  | OpUpdate => Lease_Consumptive (op_Lease op) || Lease_Consumptive (op_Previous op)
  | OpDelete => Lease_Consumptive (op_Previous op)
  | OpNone => false
  end.

Definition Op_Effects (op : Op) : list Effect :=
  (match op_Type op with
   | OpDelete | OpUpdate => [mkEffect OpDelete (op_Previous op)]
   | _ => []
   end) ++
  (match op_Type op with
   | OpCreate | OpUpdate => [mkEffect OpCreate (op_Lease op)]
   | _ => []
   end).

(** ** lease/state.go

    [state_Err] is the [error] of the source, [None] for [nil]. *)

Record State := mkState {
  state_Online : bool;
  state_LeaseNotRequired : bool;
  state_Acquired : bool;
  state_Lease : Lease;
  state_Leases : list Lease;
  state_Retry : Duration;
  state_Err : option error;
}.

Definition zero_state : State := mkState false false false zero_lease [] 0%Z None.

Definition State_IsZero (s : State) : bool :=
  if state_Online s || state_Acquired s || state_LeaseNotRequired s then false
  else if negb (Subject_Empty (ls_Subject (state_Lease s))) then false
  else if decide (0 < length (state_Leases s)) then false
  else if decide (state_Err s <> None) then false
  else true.

(** ** Lemmas *)

Lemma map_fold_insert_rebuild (p m : Properties) :
  map_fold (fun k v (to : Properties) => <[k := v]> to) m p = p ∪ m.
Proof.
  revert p. apply (map_fold_weak_ind (fun r p => r = p ∪ m)).
  - by rewrite (left_id_L ∅ (∪)).
  - intros k v p r Hk ->. by rewrite insert_union_l.
Qed.

Lemma Properties_Clone_id p : Properties_Clone p = p.
Proof.
  unfold Properties_Clone. rewrite map_fold_insert_rebuild. apply (right_id_L ∅ (∪)).
Qed.

Lemma merge_into_union merged p : merge_into merged p = p ∪ merged.
Proof. apply map_fold_insert_rebuild. Qed.

(** [Clone] copies every field: as a value, the clone is the lease itself. *)
Lemma Clone_id l : Clone l = l.
Proof. destruct l. unfold Clone. cbn. by rewrite Properties_Clone_id. Qed.

Lemma foldl_merge_app props p m :
  foldl merge_into m (props ++ [p]) = p ∪ foldl merge_into m props.
Proof. by rewrite foldl_app; cbn; rewrite merge_into_union. Qed.

Lemma MergeProperties_snoc props p :
  MergeProperties (props ++ [p]) = p ∪ MergeProperties props.
Proof. apply foldl_merge_app. Qed.

Lemma MergeProperties_2 p q : MergeProperties [p; q] = q ∪ p.
Proof.
  unfold MergeProperties. cbn. rewrite !merge_into_union.
  by rewrite (right_id_L ∅ (∪)).
Qed.

Lemma MatchInstance_true l r i :
  Lease_MatchInstance l r i = true <-> ls_Resource l = r /\ ls_Instance l = i.
Proof. unfold Lease_MatchInstance. by rewrite andb_true_iff, !bool_decide_eq_true. Qed.

Lemma MatchHostUser_true l r h u :
  Lease_MatchHostUser l r h u = true <->
  ls_Resource l = r /\ inst_Host (ls_Instance l) = h /\ inst_User (ls_Instance l) = u.
Proof.
  unfold Lease_MatchHostUser. rewrite !andb_true_iff, !bool_decide_eq_true. tauto.
Qed.

Lemma Consumptive_true l :
  Lease_Consumptive l = true <-> ls_Status l = Active \/ ls_Status l = Released.
Proof. unfold Lease_Consumptive. by rewrite orb_true_iff, !bool_decide_eq_true. Qed.

Lemma Expired_true l t :
  Lease_Expired l t = true <-> (ls_Renewed l + ls_Duration l < t)%Z.
Proof. apply Time_After_true. Qed.

Lemma Expired_false l t :
  Lease_Expired l t = false <-> (t <= ls_Renewed l + ls_Duration l)%Z.
Proof. apply Time_After_false. Qed.

Lemma DecayTime_unreleased l :
  ls_Released l = zero_time ->
  Lease_DecayTime l = (ls_Renewed l + ls_Duration l + ls_Decay l)%Z.
Proof. intros H. unfold Lease_DecayTime, Time_IsZero. rewrite H. by rewrite bool_decide_true. Qed.

(** Releasing an expired lease at its expiration time keeps its decay time. *)
Lemma DecayTime_released_at_expiration l :
  Lease_DecayTime (set_Released (Lease_ExpirationTime l) l)
  = (ls_Renewed l + ls_Duration l + ls_Decay l)%Z.
Proof.
  unfold Lease_DecayTime, Time_IsZero, Lease_ExpirationTime, Time_Add. cbn.
  by case_bool_decide; cbn.
Qed.

Lemma Decayed_false l t : Lease_Decayed l t = false <-> (t <= Lease_DecayTime l)%Z.
Proof. apply Time_After_false. Qed.

Lemma Decayed_true l t : Lease_Decayed l t = true <-> (Lease_DecayTime l < t)%Z.
Proof. apply Time_After_true. Qed.

Lemma set_Status_id l : set_Status (ls_Status l) l = l.
Proof. by destruct l. Qed.

Lemma Status_Order_Active : Status_Order Active = 0.
Proof. reflexivity. Qed.
Lemma Status_Order_Released : Status_Order Released = 1.
Proof. reflexivity. Qed.
Lemma Status_Order_Queued : Status_Order Queued = 2.
Proof. reflexivity. Qed.

Lemma Status_Order_inj_low s1 s2 :
  Status_Order s1 < 3 -> Status_Order s1 = Status_Order s2 -> s1 = s2.
Proof. unfold Status_Order. repeat case_decide; intros; subst; try congruence; lia. Qed.

(** The statuses, by case; [status_cases s] splits on the three known ones. *)
Lemma status_cases (s : Status) :
  s = Active \/ s = Released \/ s = Queued \/ (s <> Active /\ s <> Released /\ s <> Queued).
Proof.
  destruct (decide (s = Active)); [by left|].
  destruct (decide (s = Released)); [by right; left|].
  destruct (decide (s = Queued)); [by right; right; left|].
  by right; right; right.
Qed.

Lemma Active_ne_Released : Active <> Released. Proof. done. Qed.
Lemma Active_ne_Queued : Active <> Queued. Proof. done. Qed.
Lemma Released_ne_Queued : Released <> Queued. Proof. done. Qed.

Create HintDb lease.
#[export] Hint Resolve Active_ne_Released Active_ne_Queued Released_ne_Queued : lease.
#[export] Hint Extern 1 (Released <> Active) => (apply not_eq_sym; exact Active_ne_Released) : lease.
#[export] Hint Extern 1 (Queued <> Active) => (apply not_eq_sym; exact Active_ne_Queued) : lease.
#[export] Hint Extern 1 (Queued <> Released) => (apply not_eq_sym; exact Released_ne_Queued) : lease.

(** [HostUser] never returns the empty string: the separator is always there. *)
Lemma HostUser_nonempty s : Subject_HostUser s <> "".
Proof. unfold Subject_HostUser. by destruct (inst_Host (sub_Instance s)). Qed.
