(* ===== verification/LeaseSet.v ===== *)
(** * Sets of leases (lease/set.go, lease/stats.go, lease/snapshot.go)

    A [lease.Set] is a Go slice, modelled as a list; the loops that collect
    the matching members are filters.  [Set_Less] is the order by which the
    source sorts; [sort.Sort] is not stable and leaves the order of ties
    unspecified, so it is a class [Sorter] with the two facts its
    documentation promises; the insertion sort that Go runs on short slices is
    an instance.  The statistics are computed by the loop of [Set.Stats]. *)

From S2P Require Import Prelude GoTime Lease.

Abbreviation LeaseSet := (list Lease) (only parsing).

(** ** Selections *)

Definition Set_Resource (s : LeaseSet) (resource : string) : LeaseSet :=
  Clone <$> filter (fun l => Lease_MatchResource l resource) s.

Definition Set_HostUser (s : LeaseSet) (resource host user : string) : LeaseSet :=
  Clone <$> filter (fun l => Lease_MatchHostUser l resource host user) s.

Definition Set_User (s : LeaseSet) (user : string) : LeaseSet :=
  Clone <$> filter (fun l => inst_User (ls_Instance l) = user) s.

Definition Set_Status (s : LeaseSet) (status : Status) : LeaseSet :=
  Clone <$> filter (fun l => Lease_MatchStatus l status) s.

(** The first matching lease; [None] is the source's [found = false]. *)
Fixpoint Set_Instance (s : LeaseSet) (resource : string) (inst : LeaseInstance) : option Lease :=
  match s with
  | [] => None
  | l :: s' => if Lease_MatchInstance l resource inst then Some (Clone l)
               else Set_Instance s' resource inst
  end.

Fixpoint Set_Index_from (i : Z) (s : LeaseSet) (resource : string) (inst : LeaseInstance) : Z :=
  match s with
  | [] => (-1)%Z
  | l :: s' => if Lease_MatchInstance l resource inst then i
               else Set_Index_from (i + 1) s' resource inst
  end.
Definition Set_Index (s : LeaseSet) (resource : string) (inst : LeaseInstance) : Z :=
  Set_Index_from 0 s resource inst.

Fixpoint first_property (p : Properties) (keys : list string) : option string :=
  match keys with
  | [] => None
  | k :: keys' => match p !! k with
                  | Some v => Some v
                  | None => first_property p keys'
                  end
  end.
Definition Set_Property (s : LeaseSet) (keys : list string) : list string :=
  omap (fun l => first_property (ls_Properties l) keys) s.

(** ** Times *)

(** The loops of [ExpirationTime] and [DecayTime]: the running minimum. *)
Definition earliest (f : Lease -> Time) (init : Time) (s : LeaseSet) : Time :=
  foldl (fun e l => if Time_Before (f l) e then f l else e) init s.

Definition Set_ExpirationTime (s : LeaseSet) : Time :=
  match s with
  | [] => zero_time
  | l :: s' => earliest Lease_ExpirationTime (Lease_ExpirationTime l) s'
  end.

Definition Set_DecayTime (s : LeaseSet) : Time :=
  match s with
  | [] => zero_time
  | l :: s' => earliest Lease_DecayTime (Lease_DecayTime l) s'
  end.

Definition Set_DecayDuration (s : LeaseSet) (at_ : Time) : Duration :=
  let dt := Set_DecayTime s in
  if Time_After dt at_ then Time_Sub dt at_ else 0%Z.

(** ** The order *)

Definition started_less (a b : Lease) : bool :=
  if Time_Before (ls_Started a) (ls_Started b) then true
  else if Time_After (ls_Started a) (ls_Started b) then false
  else false.

Definition lease_less (a b : Lease) : bool :=
  let o1 := Status_Order (ls_Status a) in
  let o2 := Status_Order (ls_Status b) in
  if decide (o1 < o2) then true
  else if decide (o2 < o1) then false
  else if decide (ls_Status a = Released) then
    let r1 := ls_Released a in
    let r2 := ls_Released b in
    let e1 := Time_Add r1 (ls_Decay a) in
    let e2 := Time_Add r2 (ls_Decay b) in
    if Time_After e1 e2 then true
    else if Time_Before e1 e2 then false
    else if Time_Before r1 r2 then true
    else if Time_After r1 r2 then false
    else started_less a b
  else if decide (ls_Status a = Active \/ ls_Status a = Queued) then started_less a b
  else false.

(** [Set_Less s i j]; [None] is the run-time panic on a bad index. *)
Definition Set_Less (s : LeaseSet) (i j : nat) : option bool :=
  a ← s !! i; b ← s !! j; Some (lease_less a b).

Definition Set_Swap (s : LeaseSet) (i j : nat) : option LeaseSet :=
  a ← s !! i; b ← s !! j; Some (<[j := a]> (<[i := b]> s)).

Definition Set_Len (s : LeaseSet) : nat := length s.

(** "Not less in the other direction": what a sorted slice has between an
    element and its successors. *)
Definition lease_le (a b : Lease) : Prop := lease_less b a = false.

Class Sorter := Sort : LeaseSet -> LeaseSet.

Class SorterSpec (SO : Sorter) : Prop := {
  Sort_perm : forall s, Sort s ≡ₚ s;
  Sort_Sorted : forall s, Sorted lease_le (Sort s);
}.

(** The insertion sort Go uses for slices of at most twelve elements: the new
    element moves left while it is less than its neighbour.  The sorted prefix
    is kept reversed. *)
Fixpoint insert_left (x : Lease) (rev_prefix : LeaseSet) : LeaseSet :=
  match rev_prefix with
  | [] => [x]
  | y :: r => if lease_less x y then y :: insert_left x r else x :: y :: r
  end.

Definition insertionSort (s : LeaseSet) : LeaseSet :=
  reverse (foldl (fun r x => insert_left x r) [] s).

#[export] Instance insertion_sorter : Sorter := insertionSort.

(** ** lease/stats.go *)

Record Tally := mkTally {
  tally_Active : N;
  tally_Released : N;
  tally_Queued : N;
  tally_Consumed : N;
  tally_Users : gmap string N;
}.

Definition zero_tally : Tally := mkTally 0 0 0 0 ∅.

(** [m[k]++] and [m[k]] on a Go map of unsigned counters. *)
Definition counter_get (m : gmap string N) (k : string) : N := default 0%N (m !! k).
Definition counter_incr (m : gmap string N) (k : string) : gmap string N :=
  <[k := (counter_get m k + 1)%N]> m.

Definition Tally_Add (t : Tally) (user : string) (status : Status) : Tally :=
  if decide (status = Active) then
    mkTally (tally_Active t + 1) (tally_Released t) (tally_Queued t)
      (tally_Consumed t + 1) (counter_incr (tally_Users t) user)
  else if decide (status = Released) then
    mkTally (tally_Active t) (tally_Released t + 1) (tally_Queued t)
      (tally_Consumed t + 1) (tally_Users t)
  else if decide (status = Queued) then
    mkTally (tally_Active t) (tally_Released t) (tally_Queued t + 1)
      (tally_Consumed t) (tally_Users t)
  else t.

Record Stats := mkStats {
  stats_Instance : Tally;
  stats_Consumer : Tally;
}.

Definition zero_stats : Stats := mkStats zero_tally zero_tally.

(** The switch of the accessors: the tally of the strategy, or a panic. *)
Definition Stats_tally (s : Stats) (strat : Strategy) : outcome Tally :=
  if decide (strat = Strategy_Instance) then Ret (stats_Instance s)
  else if decide (strat = Strategy_Consumer) then Ret (stats_Consumer s)
  else Panic "unknown strategy".

Definition Stats_Active (s : Stats) (strat : Strategy) : outcome N :=
  t ← Stats_tally s strat; Ret (tally_Active t).
Definition Stats_Released (s : Stats) (strat : Strategy) : outcome N :=
  t ← Stats_tally s strat; Ret (tally_Released t).
Definition Stats_Queued (s : Stats) (strat : Strategy) : outcome N :=
  t ← Stats_tally s strat; Ret (tally_Queued t).
Definition Stats_Consumed (s : Stats) (strat : Strategy) : outcome N :=
  t ← Stats_tally s strat; Ret (tally_Consumed t).
Definition Stats_Users (s : Stats) (strat : Strategy) : outcome (gmap string N) :=
  t ← Stats_tally s strat; Ret (tally_Users t).

(** The loop of [Set.Stats]; [seen] is the map [consumers]. *)
Fixpoint Set_Stats_loop (s : LeaseSet) (seen : gset string) (stats : Stats) : Stats :=
  match s with
  | [] => stats
  | ls :: s' =>
      let user := inst_User (ls_Instance ls) in
      let inst := Tally_Add (stats_Instance stats) user (ls_Status ls) in
      let c := ls_HostUser ls in
      if decide (c ∈ seen) then
        Set_Stats_loop s' seen (mkStats inst (stats_Consumer stats))
      else
        Set_Stats_loop s' ({[c]} ∪ seen)
          (mkStats inst (Tally_Add (stats_Consumer stats) user (ls_Status ls)))
  end.

Definition Set_Stats (s : LeaseSet) : Stats := Set_Stats_loop s ∅ zero_stats.

Record Snapshot := mkSnapshot {
  snap_Resource : string;
  snap_Revision : N;
  snap_Leases : LeaseSet;
  snap_Stats : Stats;
}.

(** ** Lemmas: the order *)

(** The lexicographic key behind [lease_less]. *)
Definition lease_key (l : Lease) : Z * Z * Z * Z :=
  let o := Z.of_nat (Status_Order (ls_Status l)) in
  let r := if decide (ls_Status l = Released) then ls_Released l else 0%Z in
  let e := if decide (ls_Status l = Released) then (- (ls_Released l + ls_Decay l))%Z else 0%Z in
  let s := if decide (Status_Order (ls_Status l) = 3) then 0%Z else ls_Started l in
  (o, e, r, s).

Definition lex4 (x y : Z * Z * Z * Z) : Prop :=
  let '(a1, a2, a3, a4) := x in
  let '(b1, b2, b3, b4) := y in
  (a1 < b1 \/ a1 = b1 /\ (a2 < b2 \/ a2 = b2 /\ (a3 < b3 \/ a3 = b3 /\ a4 < b4)))%Z.

Lemma started_less_spec a b : started_less a b = true <-> (ls_Started a < ls_Started b)%Z.
Proof.
  unfold started_less, Time_Before, Time_After. repeat case_bool_decide; split; done || lia.
Qed.

Lemma Status_Order_3 s :
  Status_Order s = 3 <-> s <> Active /\ s <> Released /\ s <> Queued.
Proof. unfold Status_Order. repeat case_decide; split; intros; intuition congruence. Qed.

Lemma lease_less_spec a b : lease_less a b = true <-> lex4 (lease_key a) (lease_key b).
Proof.
  unfold lease_less, lex4, lease_key. cbn zeta.
  destruct (decide (_ < _)); [split; [lia|done]|].
  destruct (decide (_ < _)); [split; [done|lia]|].
  assert (Heq : Status_Order (ls_Status a) = Status_Order (ls_Status b)) by lia.
  destruct (decide (Status_Order (ls_Status a) = 3)) as [H3|H3].
  - pose proof (proj1 (Status_Order_3 _) H3) as (? & ? & ?).
    pose proof H3 as H3'. rewrite Heq in H3'. apply Status_Order_3 in H3' as (? & ? & ?).
    repeat case_decide; try tauto; split; done || lia.
  - assert (Hs : ls_Status b = ls_Status a).
    { apply Status_Order_inj_low; [|done]. rewrite <- Heq.
      revert H3. unfold Status_Order. repeat case_decide; lia. }
    rewrite Hs. destruct (decide (Status_Order (ls_Status a) = 3)); [done|].
    rewrite Status_Order_3 in H3. destruct (decide (ls_Status a = Released)).
    + unfold Time_Add, Time_After, Time_Before.
      repeat case_bool_decide; rewrite ?started_less_spec; split; done || lia.
    + destruct (decide (_ \/ _)); [rewrite started_less_spec; lia|tauto].
Qed.

Lemma lease_le_spec a b : lease_le a b <-> ~ lex4 (lease_key b) (lease_key a).
Proof. unfold lease_le. rewrite <- lease_less_spec. by destruct (lease_less b a). Qed.

#[export] Instance lease_le_trans : Transitive lease_le.
Proof.
  intros a b c. rewrite !lease_le_spec. unfold lex4.
  destruct (lease_key a) as [[[? ?] ?] ?], (lease_key b) as [[[? ?] ?] ?],
    (lease_key c) as [[[? ?] ?] ?]. lia.
Qed.

#[export] Instance lease_le_refl : Reflexive lease_le.
Proof.
  intros a. rewrite lease_le_spec. unfold lex4.
  destruct (lease_key a) as [[[? ?] ?] ?]. lia.
Qed.

Lemma lease_less_le a b : lease_less a b = true -> lease_le a b.
Proof.
  rewrite lease_less_spec, lease_le_spec. unfold lex4.
  destruct (lease_key a) as [[[? ?] ?] ?], (lease_key b) as [[[? ?] ?] ?]. lia.
Qed.

Lemma lease_le_order a b :
  lease_le a b -> Status_Order (ls_Status a) <= Status_Order (ls_Status b).
Proof.
  rewrite lease_le_spec. unfold lex4, lease_key. cbn zeta. lia.
Qed.

(** ** Lemmas: sorting *)

Abbreviation sorted_set := (StronglySorted lease_le).

Lemma Sort_sorted `{SorterSpec} s : sorted_set (Sort s).
Proof. apply Sorted_StronglySorted; [intros a b c; apply lease_le_trans | apply Sort_Sorted]. Qed.

Lemma Sort_elem `{SorterSpec} s l : l ∈ Sort s <-> l ∈ s.
Proof. by rewrite (Sort_perm s). Qed.

Lemma Sort_length `{SorterSpec} s : length (Sort s) = length s.
Proof. by rewrite (Sort_perm s). Qed.

Lemma insert_left_perm x r : insert_left x r ≡ₚ x :: r.
Proof.
  induction r as [|y r IH]; cbn; [done|]. destruct (lease_less x y); [|done].
  rewrite IH. apply Permutation_swap.
Qed.

(** The reversed prefix is sorted downwards. *)
Lemma insert_left_sorted x r :
  StronglySorted (flip lease_le) r -> StronglySorted (flip lease_le) (insert_left x r).
Proof.
  induction 1 as [|y r Hs IH Hall]; cbn.
  - repeat constructor.
  - destruct (lease_less x y) eqn:Hlt.
    + constructor; [done|]. rewrite insert_left_perm. constructor; [|done].
      by apply lease_less_le.
    + constructor; [by constructor|]. constructor; [done|].
      eapply Forall_impl; [exact Hall|]. cbn. intros z Hz. by etrans.
Qed.

Lemma StronglySorted_reverse {A} (R : relation A) l :
  StronglySorted (flip R) l -> StronglySorted R (reverse l).
Proof.
  induction 1 as [|x l Hs IH Hall]; [constructor|].
  rewrite reverse_cons. apply StronglySorted_app_2; [|done|repeat constructor].
  intros y z Hy Hz%list_elem_of_singleton. subst z. rewrite elem_of_reverse in Hy.
  rewrite Forall_forall in Hall. exact (Hall y Hy).
Qed.

Lemma insertionSort_invariant s r :
  StronglySorted (flip lease_le) r ->
  StronglySorted (flip lease_le) (foldl (fun r x => insert_left x r) r s)
  /\ foldl (fun r x => insert_left x r) r s ≡ₚ s ++ r.
Proof.
  revert r. induction s as [|x s IH]; intros r Hr; cbn; [done|].
  destruct (IH (insert_left x r)) as [H1 H2]; [by apply insert_left_sorted|].
  split; [done|]. rewrite H2, insert_left_perm. symmetry. apply Permutation_middle.
Qed.

#[export] Instance insertion_sorter_spec : SorterSpec insertion_sorter.
Proof.
  split; intros s; unfold Sort, insertion_sorter, insertionSort.
  - rewrite reverse_Permutation.
    destruct (insertionSort_invariant s []) as [_ H]; [constructor|]. by rewrite H, app_nil_r.
  - apply StronglySorted_Sorted, StronglySorted_reverse.
    by destruct (insertionSort_invariant s []) as [H _]; [constructor|].
Qed.

(** ** Lemmas: selections *)

Lemma fmap_Clone (s : LeaseSet) : Clone <$> s = s.
Proof. induction s as [|l s IH]; cbn; [done|]. by rewrite Clone_id, IH. Qed.

Lemma Set_HostUser_filter s r h u :
  Set_HostUser s r h u = filter (fun l => Lease_MatchHostUser l r h u) s.
Proof. apply fmap_Clone. Qed.

Lemma Set_Status_filter s st :
  Set_Status s st = filter (fun l => Lease_MatchStatus l st) s.
Proof. apply fmap_Clone. Qed.

Lemma Set_Instance_Some s r i l :
  Set_Instance s r i = Some l -> l ∈ s /\ ls_Resource l = r /\ ls_Instance l = i.
Proof.
  induction s as [|x s IH]; cbn; [done|].
  destruct (Lease_MatchInstance x r i) eqn:Hm.
  - intros [= <-]. rewrite Clone_id. apply MatchInstance_true in Hm.
    split; [left|done].
  - intros H. destruct (IH H) as (? & ? & ?). split; [by right|done].
Qed.

Lemma Set_Instance_None s r i :
  Set_Instance s r i = None <->
  forall l, l ∈ s -> ~ (ls_Resource l = r /\ ls_Instance l = i).
Proof.
  induction s as [|x s IH]; cbn.
  - split; [|done]. intros _ l Hl. by apply not_elem_of_nil in Hl.
  - destruct (Lease_MatchInstance x r i) eqn:Hm.
    + split; [done|]. intros H. apply MatchInstance_true in Hm.
      by destruct (H x); [left|].
    + rewrite IH. split; intros H.
      * intros l [->|Hl]%elem_of_cons; [|by apply H].
        rewrite <- MatchInstance_true. by rewrite Hm.
      * intros l Hl. apply H. by right.
Qed.

Lemma Set_Index_from_spec k s r i :
  (0 <= k)%Z ->
  match Set_Index_from k s r i with
  | Zneg _ => Set_Index_from k s r i = (-1)%Z
              /\ Forall (fun l => Lease_MatchInstance l r i = false) s
  | z => exists n l, z = (k + Z.of_nat n)%Z /\ s !! n = Some l
           /\ Lease_MatchInstance l r i = true
           /\ Forall (fun l => Lease_MatchInstance l r i = false) (take n s)
  end.
Proof.
  revert k. induction s as [|x s IH]; intros k Hk; cbn [Set_Index_from]; [done|].
  destruct (Lease_MatchInstance x r i) eqn:Hm.
  - destruct k; [exists 0, x | exists 0, x | lia]; repeat split; try done; try lia; constructor.
  - specialize (IH (k + 1)%Z ltac:(lia)).
    destruct (Set_Index_from (k + 1) s r i) eqn:HI.
    + destruct IH as (n & l & Hz & Hn & Hl & Hall). exists (S n), l.
      repeat split; [lia|done|done|]. cbn. by constructor.
    + destruct IH as (n & l & Hz & Hn & Hl & Hall). exists (S n), l.
      repeat split; [lia|done|done|]. cbn. by constructor.
    + destruct IH as [-> Hall]. split; [done|]. by constructor.
Qed.

(** ** Lemmas: earliest times *)

Lemma earliest_spec f init s :
  (earliest f init s <= init)%Z /\ (forall l, l ∈ s -> (earliest f init s <= f l)%Z)
  /\ (earliest f init s = init \/ exists l, l ∈ s /\ earliest f init s = f l).
Proof.
  unfold earliest. revert init. induction s as [|x s IH]; intros init; cbn.
  - split; [done|]. split; [|by left]. intros l Hl. by apply not_elem_of_nil in Hl.
  - destruct (IH (if Time_Before (f x) init then f x else init)) as (H1 & H2 & H3).
    destruct (Time_Before (f x) init) eqn:Hb;
      [apply Time_Before_true in Hb|apply Time_Before_false in Hb].
    + split; [lia|]. split.
      * intros l [->|Hl]%elem_of_cons; [lia|by apply H2].
      * right. destruct H3 as [H3|(l & Hl & H3)]; [exists x|exists l]; (split; [by rewrite elem_of_cons; auto|done]).
    + split; [lia|]. split.
      * intros l [->|Hl]%elem_of_cons; [lia|by apply H2].
      * destruct H3 as [H3|(l & Hl & H3)]; [by left|right; exists l].
        split; [by rewrite elem_of_cons; auto|done].
Qed.

Lemma Set_DecayTime_lower s l : l ∈ s -> (Set_DecayTime s <= Lease_DecayTime l)%Z.
Proof.
  destruct s as [|x s]; [by intros ?%not_elem_of_nil|]. cbn.
  destruct (earliest_spec Lease_DecayTime (Lease_DecayTime x) s) as (H1 & H2 & _).
  intros [->|Hl]%elem_of_cons; [done|by apply H2].
Qed.

Lemma Set_DecayDuration_nonneg s at_ : (0 <= Set_DecayDuration s at_)%Z.
Proof.
  unfold Set_DecayDuration. destruct (Time_After _ _) eqn:H; [|done].
  apply Time_After_true in H. pose proof (Time_Sub_pos _ _ H). lia.
Qed.

(** ** Lemmas: statistics *)

(** The number of members with a property, and the set of consumers (in the
    sense of [HostUser]) that hold a lease with it. *)
Definition count (P : Lease -> Prop) `{forall l, Decision (P l)} (s : LeaseSet) : N :=
  N.of_nat (length (filter P s)).

Definition holders (P : Lease -> Prop) `{forall l, Decision (P l)} (s : LeaseSet) : gset string :=
  list_to_set (ls_HostUser <$> filter P s).

Section Counting.
Context (P : Lease -> Prop) `{Pdec : forall l, Decision (P l)}.

Lemma count_nil : count P [] = 0%N.
Proof. reflexivity. Qed.

Lemma count_cons l s : count P (l :: s) = ((if decide (P l) then 1 else 0) + count P s)%N.
Proof. unfold count. rewrite filter_cons. case_decide; cbn [length]; lia. Qed.

Lemma count_app s1 s2 : count P (s1 ++ s2) = (count P s1 + count P s2)%N.
Proof. unfold count. rewrite filter_app, length_app. lia. Qed.

Lemma holders_nil : holders P [] = ∅.
Proof. reflexivity. Qed.

Lemma holders_cons l s :
  holders P (l :: s) = if decide (P l) then {[ls_HostUser l]} ∪ holders P s else holders P s.
Proof. unfold holders. rewrite filter_cons. by case_decide. Qed.

Lemma elem_of_holders c s : c ∈ holders P s <-> exists l, l ∈ s /\ P l /\ ls_HostUser l = c.
Proof.
  unfold holders. rewrite elem_of_list_to_set, list_elem_of_fmap.
  setoid_rewrite list_elem_of_filter. naive_solver.
Qed.

Lemma holders_app s1 s2 : holders P (s1 ++ s2) = holders P s1 ∪ holders P s2.
Proof. unfold holders. by rewrite filter_app, fmap_app, list_to_set_app_L. Qed.

#[export] Instance count_perm : Proper ((≡ₚ) ==> (=)) (count P).
Proof. intros s1 s2 H. unfold count. by rewrite H. Qed.

#[export] Instance holders_perm : Proper ((≡ₚ) ==> (=)) (holders P).
Proof. intros s1 s2 H. unfold holders. apply list_to_set_perm_L. by rewrite H. Qed.

Lemma count_pos s : (0 < count P s)%N <-> exists l, l ∈ s /\ P l.
Proof.
  induction s as [|x s IH].
  - rewrite count_nil. split; [lia|]. by intros (l & ?%not_elem_of_nil & _).
  - rewrite count_cons. setoid_rewrite elem_of_cons. case_decide.
    + split; [|lia]. intros _. exists x. auto.
    + rewrite N.add_0_l, IH. naive_solver.
Qed.

Lemma count_0 s : count P s = 0%N <-> forall l, l ∈ s -> ~ P l.
Proof.
  pose proof (count_pos s) as [H1 H2]. split.
  - intros H l Hl Hp. assert (0 < count P s)%N by eauto. lia.
  - intros H. destruct (decide (count P s = 0%N)); [done|].
    destruct H1 as (l & Hl & Hp); [lia|]. by destruct (H l).
Qed.

Lemma size_holders_le_count s : (N.of_nat (size (holders P s)) <= count P s)%N.
Proof.
  induction s as [|x s IH]; [rewrite holders_nil, size_empty; done|].
  rewrite holders_cons, count_cons. case_decide; [|lia].
  pose proof (size_union_alt {[ls_HostUser x]} (holders P s)) as Hs.
  rewrite size_singleton in Hs.
  pose proof (subseteq_size (holders P s ∖ {[ls_HostUser x]}) (holders P s) ltac:(set_solver)).
  lia.
Qed.
End Counting.

Definition status_upto (k : nat) (l : Lease) : Prop := Status_Order (ls_Status l) <= k.
#[export] Instance status_upto_dec k l : Decision (status_upto k l).
Proof. unfold status_upto. apply _. Defined.
#[global] Typeclasses Opaque status_upto.

Lemma Tally_Add_spec t u l :
  let t' := Tally_Add t u (ls_Status l) in
  tally_Active t' = (tally_Active t + if decide (status_upto 0 l) then 1 else 0)%N
  /\ tally_Consumed t' = (tally_Consumed t + if decide (status_upto 1 l) then 1 else 0)%N
  /\ (tally_Consumed t' + tally_Queued t'
      = tally_Consumed t + tally_Queued t + if decide (status_upto 2 l) then 1 else 0)%N
  /\ (tally_Active t' + tally_Released t' + tally_Consumed t
      = tally_Active t + tally_Released t + tally_Consumed t')%N.
Proof.
  cbn zeta. unfold Tally_Add.
  destruct (status_cases (ls_Status l)) as [Hs|[Hs|[Hs|Hs]]].
  1-3: rewrite Hs; repeat case_decide; unfold status_upto in *; rewrite Hs in *;
    rewrite ?Status_Order_Active, ?Status_Order_Released, ?Status_Order_Queued in *; cbn;
    try done; lia.
  apply Status_Order_3 in Hs as Ho. repeat case_decide; unfold status_upto in *; try tauto; lia.
Qed.

(** The tally of the instance strategy counts every lease. *)
Lemma Stats_loop_Instance s seen st :
  let t0 := stats_Instance st in
  let t := stats_Instance (Set_Stats_loop s seen st) in
  tally_Active t = (tally_Active t0 + count (status_upto 0) s)%N
  /\ tally_Consumed t = (tally_Consumed t0 + count (status_upto 1) s)%N
  /\ (tally_Consumed t + tally_Queued t
      = tally_Consumed t0 + tally_Queued t0 + count (status_upto 2) s)%N.
Proof.
  revert seen st. induction s as [|l s IH]; intros seen st; cbn zeta.
  { cbn. rewrite !count_nil. lia. }
  rewrite !count_cons. cbn [Set_Stats_loop].
  destruct (Tally_Add_spec (stats_Instance st) (inst_User (ls_Instance l)) l)
    as (Ha & Hc & Hq & _).
  destruct (decide (ls_HostUser l ∈ seen));
    match goal with
    | |- context [Set_Stats_loop s ?X ?Y] => destruct (IH X Y) as (H1 & H2 & H3)
    end; cbn [stats_Instance] in *; lia.
Qed.

Lemma sorted_upto_none k l s :
  sorted_set (l :: s) -> ~ status_upto k l -> holders (status_upto k) s = ∅.
Proof.
  intros [Hall _]%StronglySorted_cons Hk. apply set_eq. intros c.
  rewrite elem_of_holders. split; [|set_solver].
  intros (x & Hx & Hp & _). rewrite Forall_forall in Hall.
  apply Hall, lease_le_order in Hx. unfold status_upto in *. lia.
Qed.

Lemma holders_step k l s seen :
  sorted_set (l :: s) ->
  ls_HostUser l ∉ seen ->
  size (holders (status_upto k) (l :: s) ∖ seen)
  = (if decide (status_upto k l) then 1 else 0)
    + size (holders (status_upto k) s ∖ ({[ls_HostUser l]} ∪ seen)).
Proof.
  intros Hs Hc. rewrite holders_cons. case_decide as Hk.
  - replace (({[ls_HostUser l]} ∪ holders (status_upto k) s) ∖ seen) with
      ({[ls_HostUser l]} ∪ (holders (status_upto k) s ∖ ({[ls_HostUser l]} ∪ seen)) : gset string).
    + rewrite size_union by set_solver. by rewrite size_singleton.
    + apply set_eq. intros x. destruct (decide (x = ls_HostUser l)); set_solver.
  - assert (He : forall X : gset string, ∅ ∖ X = ∅) by set_solver.
    by rewrite (sorted_upto_none k l s), !He.
Qed.

Lemma holders_seen k l s seen :
  ls_HostUser l ∈ seen ->
  holders (status_upto k) (l :: s) ∖ seen = holders (status_upto k) s ∖ seen.
Proof. intros Hc. rewrite holders_cons. case_decide; [set_solver|done]. Qed.

(** The tally of the consumer strategy counts every consumer once, under its
    most permanent status, provided the set is sorted. *)
Lemma Stats_loop_Consumer s seen st :
  sorted_set s ->
  let t0 := stats_Consumer st in
  let t := stats_Consumer (Set_Stats_loop s seen st) in
  tally_Active t = (tally_Active t0 + N.of_nat (size (holders (status_upto 0) s ∖ seen)))%N
  /\ tally_Consumed t = (tally_Consumed t0 + N.of_nat (size (holders (status_upto 1) s ∖ seen)))%N
  /\ (tally_Consumed t + tally_Queued t
      = tally_Consumed t0 + tally_Queued t0 + N.of_nat (size (holders (status_upto 2) s ∖ seen)))%N.
Proof.
  revert seen st. induction s as [|l s IH]; intros seen st Hs; cbn zeta.
  { cbn [Set_Stats_loop]. rewrite !holders_nil. assert (∅ ∖ seen = (∅ : gset string)) as -> by set_solver.
    rewrite size_empty. lia. }
  pose proof (proj2 (proj1 (StronglySorted_cons _ _ _) Hs)) as Hs'.
  cbn [Set_Stats_loop]. destruct (decide (ls_HostUser l ∈ seen)) as [Hseen|Hseen].
  - rewrite !holders_seen by done.
    match goal with
    | |- context [Set_Stats_loop s ?X ?Y] => exact (IH X Y Hs')
    end.
  - rewrite !holders_step by done.
    destruct (Tally_Add_spec (stats_Consumer st) (inst_User (ls_Instance l)) l)
      as (Ha & Hc & Hq & _).
    match goal with
    | |- context [Set_Stats_loop s ?X ?Y] => destruct (IH X Y Hs') as (H1 & H2 & H3)
    end; cbn [stats_Consumer] in *.
    repeat case_decide; lia.
Qed.
