(* ===== verification/Tx.v ===== *)
(** * Lease transactions (lease/tx.go, lease/iter.go)

    A transaction holds a revision, the lease set it produces and the
    operations that lead to it.  [Tx_Process] is the index loop of the source:
    its processor is a Go closure, modelled as a function that threads the
    captured variables [S] and may panic.  [process_list] is the structural
    reading of that loop and [process_loop_spec] shows that they agree, so the
    fuel of the loop is always enough.  [Process_rule] is the proof rule the
    clients use; its [journal] says that the recorded operations turn the lease
    set one step at a time into the resulting one. *)

From S2P Require Import Prelude GoTime Lease LeaseSet.

(** ** lease/iter.go *)

Record Iter := mkIter {
  iter_action : Action;
  iter_Lease : Lease;
}.

Definition Iter_Update (iter : Iter) : Iter := mkIter OpUpdate (iter_Lease iter).
Definition Iter_Delete (iter : Iter) : Iter := mkIter OpDelete (iter_Lease iter).
(** Assignment to the embedded lease. *)
Definition Iter_assign (l : Lease) (iter : Iter) : Iter := mkIter (iter_action iter) l.

Definition Processor (S : Type) := S -> Iter -> outcome (S * Iter).

(** ** lease/tx.go *)

Record Tx := mkTx {
  tx_resource : string;
  tx_revision : N;
  tx_leases : LeaseSet;
  tx_ops : list Op;
}.

Definition NewTx (resource : string) (revision : N) (leases : LeaseSet) : Tx :=
  mkTx resource revision leases [].

Definition set_leases (s : LeaseSet) (tx : Tx) : Tx :=
  mkTx (tx_resource tx) (tx_revision tx) s (tx_ops tx).
Definition add_op (op : Op) (tx : Tx) : Tx :=
  mkTx (tx_resource tx) (tx_revision tx) (tx_leases tx) (tx_ops tx ++ [op]).

(** [apply]: records the operation at index [i] and returns the shift. *)
Definition Tx_apply (action : Action) (ls : Lease) (i : nat) (step : Z) (tx : Tx)
  : outcome (Z * Tx) :=
  match action with
  | OpUpdate =>
      match tx_leases tx !! i with
      | None => Panic "index out of range"
      | Some prev =>
          let tx := add_op (mkOp OpUpdate prev ls) tx in
          Ret (0%Z, set_leases (<[i := ls]> (tx_leases tx)) tx)
      end
  | OpDelete =>
      match tx_leases tx !! i with
      | None => Panic "index out of range"
      | Some prev =>
          let tx := add_op (mkOp OpDelete prev zero_lease) tx in
          Ret ((- step)%Z, set_leases (take i (tx_leases tx) ++ drop (S i) (tx_leases tx)) tx)
      end
  | _ => Ret (0%Z, tx)
  end.

Section Process.
Context {St : Type} (process : Processor St).

(** The loop [for i := 0; i < len(tx.leases); i++]. *)
Fixpoint process_loop (fuel : nat) (i : nat) (tx : Tx) (st : St) : outcome (St * Tx) :=
  match tx_leases tx !! i with
  | None => Ret (st, tx)
  | Some l =>
      match fuel with
      | O => Diverge
      | S fuel =>
          '(st, iter) ← process st (mkIter OpNone (Clone l));
          '(shift, tx) ← Tx_apply (iter_action iter) (iter_Lease iter) i 1 tx;
          process_loop fuel (Z.to_nat (Z.of_nat i + shift + 1)) tx st
      end
  end.

(** The structural reading: what is kept of a lease, and what is recorded. *)
Definition iter_out (l : Lease) (iter : Iter) : LeaseSet :=
  match iter_action iter with
  | OpUpdate => [iter_Lease iter]
  | OpDelete => []
  | _ => [l]
  end.

Definition iter_ops (l : Lease) (iter : Iter) : list Op :=
  match iter_action iter with
  | OpUpdate => [mkOp OpUpdate l (iter_Lease iter)]
  | OpDelete => [mkOp OpDelete l zero_lease]
  | _ => []
  end.

Fixpoint process_list (st : St) (s : LeaseSet) : outcome (St * LeaseSet * list Op) :=
  match s with
  | [] => Ret (st, [], [])
  | l :: s =>
      '(st, iter) ← process st (mkIter OpNone l);
      '(st, outs, ops) ← process_list st s;
      Ret (st, iter_out l iter ++ outs, iter_ops l iter ++ ops)
  end.
End Process.

Section Tx.
Context `{SO : Sorter}.

Definition sort_leases (tx : Tx) : Tx := set_leases (Sort (tx_leases tx)) tx.

Definition Tx_Process {St} (process : Processor St) (tx : Tx) (st : St) : outcome (St * Tx) :=
  '(st, tx) ← process_loop process (length (tx_leases tx)) 0 tx st;
  Ret (st, sort_leases tx).

(** As in the source, the loop runs forwards. *)
Definition Tx_ProcessReverse {St} (process : Processor St) (tx : Tx) (st : St)
  : outcome (St * Tx) :=
  '(st, tx) ← process_loop process (length (tx_leases tx)) 0 tx st;
  Ret (st, sort_leases tx).

Definition Tx_HostUser (tx : Tx) (host user : string) : LeaseSet :=
  Set_HostUser (tx_leases tx) (tx_resource tx) host user.

Definition Tx_Instance (tx : Tx) (inst : LeaseInstance) : option Lease :=
  Set_Instance (tx_leases tx) (tx_resource tx) inst.

Definition Tx_Create (ls : Lease) (tx : Tx) : Tx :=
  let tx := set_leases (tx_leases tx ++ [ls]) tx in
  let tx := add_op (mkOp OpCreate zero_lease ls) tx in
  sort_leases tx.

Definition update_processor (resource : string) (inst : LeaseInstance) (ls : Lease)
  : Processor unit := fun _ iter =>
  if Lease_MatchInstance (iter_Lease iter) resource inst
  then Ret (tt, Iter_Update (Iter_assign (Clone ls) iter))
  else Ret (tt, iter).

Definition Tx_Update (inst : LeaseInstance) (ls : Lease) (tx : Tx) : outcome Tx :=
  '(_, tx) ← Tx_Process (update_processor (tx_resource tx) inst ls) tx tt; Ret tx.

Definition release_processor (resource : string) (inst : LeaseInstance) (at_ : Time)
  : Processor unit := fun _ iter =>
  if Lease_MatchInstance (iter_Lease iter) resource inst then
    if decide (ls_Status (iter_Lease iter) = Active) then
      let iter := Iter_assign (set_Status Released (iter_Lease iter)) iter in
      let iter := Iter_assign (set_Released at_ (iter_Lease iter)) iter in
      Ret (tt, Iter_Update iter)
    else Ret (tt, Iter_Delete iter)
  else Ret (tt, iter).

Definition Tx_Release (inst : LeaseInstance) (at_ : Time) (tx : Tx) : outcome Tx :=
  '(_, tx) ← Tx_Process (release_processor (tx_resource tx) inst at_) tx tt; Ret tx.

Definition delete_processor (resource : string) (inst : LeaseInstance)
  : Processor unit := fun _ iter =>
  if Lease_MatchInstance (iter_Lease iter) resource inst then Ret (tt, Iter_Delete iter)
  else Ret (tt, iter).

Definition Tx_Delete (inst : LeaseInstance) (tx : Tx) : outcome Tx :=
  '(_, tx) ← Tx_Process (delete_processor (tx_resource tx) inst) tx tt; Ret tx.

Definition Tx_Stats (tx : Tx) : Stats := Set_Stats (tx_leases tx).

Definition Tx_Empty (tx : Tx) : bool := bool_decide (length (tx_ops tx) = 0).

(** The nested loops of [Tx.Effects] append every effect in order. *)
Definition Tx_Effects (tx : Tx) : list Effect := tx_ops tx ≫= Op_Effects.
End Tx.

(** ** The journal of a transaction *)

(** One recorded operation, on lease sets up to their order. *)
Definition op_step (op : Op) (s s' : LeaseSet) : Prop :=
  match op_Type op with
  | OpCreate => s' ≡ₚ op_Lease op :: s
  | OpUpdate => exists r, s ≡ₚ op_Previous op :: r /\ s' ≡ₚ op_Lease op :: r
  | OpDelete => exists r, s ≡ₚ op_Previous op :: r /\ s' ≡ₚ r
  | OpNone => s' ≡ₚ s
  end.

(** [journal I ops s s']: the operations lead from [s] to [s'] and [I] holds
    of every lease set on the way, both ends included. *)
Inductive journal (I : LeaseSet -> Prop) : list Op -> LeaseSet -> LeaseSet -> Prop :=
| journal_nil s s' : I s -> s ≡ₚ s' -> journal I [] s s'
| journal_cons op ops s s1 s2 :
    I s -> op_step op s s1 -> journal I ops s1 s2 -> journal I (op :: ops) s s2.

#[export] Instance op_step_perm : Proper ((=) ==> (≡ₚ) ==> (≡ₚ) ==> iff) op_step.
Proof.
  intros op ? <- s1 s2 Hs t1 t2 Ht. unfold op_step.
  destruct (op_Type op); setoid_rewrite Hs; setoid_rewrite Ht; done.
Qed.

Lemma journal_app I ops1 ops2 s1 s2 s3 :
  Proper ((≡ₚ) ==> iff) I ->
  journal I ops1 s1 s2 -> journal I ops2 s2 s3 -> journal I (ops1 ++ ops2) s1 s3.
Proof.
  intros HI H1 H2. induction H1 as [s s' Hs Hp|op ops s s1 s' Hs Hstep H1 IH]; cbn.
  - destruct H2 as [t t' Ht Hp'|op ops t t1 t' Ht Hstep H2].
    + constructor; [done|by etrans].
    + econstructor; [done| |done]. by rewrite Hp.
  - econstructor; eauto.
Qed.

Lemma journal_mono (I J : LeaseSet -> Prop) ops s s' :
  (forall t, I t -> J t) -> journal I ops s s' -> journal J ops s s'.
Proof. induction 2; econstructor; eauto. Qed.

Lemma journal_end I ops s s' :
  Proper ((≡ₚ) ==> iff) I -> journal I ops s s' -> I s'.
Proof. intros HI. induction 1 as [s s' Hs Hp|]; [by rewrite <- Hp|done]. Qed.

Lemma journal_perm_r I ops s s' s'' :
  journal I ops s s' -> s' ≡ₚ s'' -> journal I ops s s''.
Proof.
  induction 1 as [s s' Hs Hp|op ops s s1 s' Hs Hstep H1 IH]; intros H2.
  - constructor; [done|by etrans].
  - econstructor; eauto.
Qed.

Lemma journal_perm_l I ops s s' s'' :
  Proper ((≡ₚ) ==> iff) I ->
  s' ≡ₚ s -> journal I ops s' s'' -> journal I ops s s''.
Proof.
  intros HI Hp Hj. destruct Hj as [t t' Ht Hp'|op ops t t1 t' Ht Hstep H2].
  - constructor; [by rewrite <- Hp|]. by rewrite <- Hp.
  - econstructor; [by rewrite <- Hp|by rewrite <- Hp|done].
Qed.

(** ** The loop and its structural reading *)

Section ProcessSpec.
Context {St : Type} (process : Processor St).

Lemma process_loop_spec fuel pre rest tx st :
  tx_leases tx = pre ++ rest -> length rest <= fuel ->
  process_loop process fuel (length pre) tx st
  = ('(st, outs, ops) ← process_list process st rest;
     Ret (st, mkTx (tx_resource tx) (tx_revision tx) (pre ++ outs) (tx_ops tx ++ ops))).
Proof.
  revert pre rest tx st. induction fuel as [|fuel IH]; intros pre rest tx st Htx Hlen.
  - destruct rest; [|cbn in Hlen; lia]. destruct tx; cbn in *. subst.
    rewrite !app_nil_r, lookup_ge_None_2 by lia. done.
  - destruct rest as [|l rest].
    { destruct tx; cbn in *. subst. rewrite !app_nil_r, lookup_ge_None_2 by lia. done. }
    cbn [process_loop process_list]. rewrite Htx, list_lookup_middle by done.
    rewrite Clone_id. destruct (process st (mkIter OpNone l)) as [[st' iter]| |];
      cbn [mbind outcome_bind]; [|done..].
    cbn in Hlen. unfold Tx_apply, iter_out, iter_ops.
    destruct (iter_action iter); cbn [mbind outcome_bind].
    + replace (Z.to_nat _) with (length (pre ++ [l])) by (rewrite length_app; cbn; lia).
      rewrite (IH (pre ++ [l]) rest) by (try rewrite Htx, <- (assoc_L (++)); done || lia).
      destruct (process_list process st' rest) as [[[? ?] ?]| |]; [|done..].
      cbn. by rewrite <- (assoc_L (++)).
    + replace (Z.to_nat _) with (length (pre ++ [l])) by (rewrite length_app; cbn; lia).
      rewrite (IH (pre ++ [l]) rest) by (try rewrite Htx, <- (assoc_L (++)); done || lia).
      destruct (process_list process st' rest) as [[[? ?] ?]| |]; [|done..].
      cbn. by rewrite <- (assoc_L (++)).
    + rewrite Htx, list_lookup_middle by done. cbn [mbind outcome_bind].
      replace (Z.to_nat _) with (length (pre ++ [iter_Lease iter])) by (rewrite length_app; cbn; lia).
      rewrite (IH (pre ++ [iter_Lease iter]) rest).
      * destruct (process_list process st' rest) as [[[? ?] ?]| |]; [|done..].
        cbn. by rewrite <- !(assoc_L (++)).
      * cbn. rewrite Htx, insert_app_r_alt, Nat.sub_diag by lia. cbn.
        by rewrite <- (assoc_L (++)).
      * lia.
    + rewrite Htx, list_lookup_middle by done. cbn [mbind outcome_bind].
      replace (Z.to_nat _) with (length pre) by lia.
      rewrite (IH pre rest).
      * destruct (process_list process st' rest) as [[[? ?] ?]| |]; [|done..].
        cbn. by rewrite <- !(assoc_L (++)).
      * cbn. rewrite Htx, take_app_length, <- Nat.add_1_r, drop_app_add. done.
      * lia.
Qed.
End ProcessSpec.

(** ** The proof rule for [Process] *)

Section ProcessRule.
Context {St : Type} (process : Processor St).
(** [P st pre rest]: the closure's variables are [st], the loop has produced
    [pre] and [rest] is still to come. *)
Context (P : St -> LeaseSet -> LeaseSet -> Prop).
Context (Pstep : forall st pre l rest,
  P st pre (l :: rest) ->
  exists st' iter, process st (mkIter OpNone l) = Ret (st', iter)
    /\ P st' (pre ++ iter_out l iter) rest).

Definition on_the_way (s : LeaseSet) : Prop :=
  exists st pre rest, P st pre rest /\ s ≡ₚ pre ++ rest.

#[export] Instance on_the_way_perm : Proper ((≡ₚ) ==> iff) on_the_way.
Proof. intros s1 s2 Hs. unfold on_the_way. by setoid_rewrite Hs. Qed.

Lemma iter_step pre l rest iter :
  match iter_ops l iter with
  | [] => pre ++ iter_out l iter ++ rest = pre ++ l :: rest
  | op :: ops => ops = [] /\ op_step op (pre ++ l :: rest) (pre ++ iter_out l iter ++ rest)
  end.
Proof.
  unfold iter_ops, iter_out, op_step.
  destruct (iter_action iter); cbn; try done; (split; [done|]); exists (pre ++ rest);
    rewrite <- ?Permutation_middle; done.
Qed.

Lemma process_list_rule st pre rest :
  P st pre rest ->
  exists st' outs ops, process_list process st rest = Ret (st', outs, ops)
    /\ P st' (pre ++ outs) []
    /\ journal on_the_way ops (pre ++ rest) (pre ++ outs).
Proof.
  revert st pre. induction rest as [|l rest IH]; intros st pre HP.
  - exists st, [], []. split; [done|]. rewrite app_nil_r. split; [done|].
    constructor; [|done]. exists st, pre, []. by rewrite app_nil_r.
  - destruct (Pstep _ _ _ _ HP) as (st1 & iter & Hp & HP1).
    destruct (IH _ _ HP1) as (st' & outs & ops & Hl & HP' & Hj).
    exists st', (iter_out l iter ++ outs), (iter_ops l iter ++ ops).
    cbn [process_list]. rewrite Hp. cbn. rewrite Hl. cbn.
    rewrite <- !(assoc_L (++)) in *. split; [done|]. split; [done|].
    pose proof (iter_step pre l rest iter) as Hs.
    destruct (iter_ops l iter) as [|op ops1]; cbn.
    + by rewrite <- Hs.
    + destruct Hs as [-> Hs]. econstructor; [|exact Hs|exact Hj].
      exists st, pre, (l :: rest). done.
Qed.

Lemma Process_rule `{SorterSpec} tx st :
  P st [] (tx_leases tx) ->
  exists st' tx' outs ops, Tx_Process process tx st = Ret (st', tx')
    /\ tx_resource tx' = tx_resource tx /\ tx_revision tx' = tx_revision tx
    /\ tx_leases tx' = Sort outs /\ tx_ops tx' = tx_ops tx ++ ops
    /\ P st' outs []
    /\ journal on_the_way ops (tx_leases tx) outs.
Proof.
  intros HP. destruct (process_list_rule _ _ _ HP) as (st' & outs & ops & Hl & HP' & Hj).
  unfold Tx_Process.
  change 0 with (length (@nil Lease)) at 1.
  rewrite (process_loop_spec process (length (tx_leases tx)) [] (tx_leases tx) tx st) by done.
  rewrite Hl. cbn. eexists _, _, outs, ops. repeat split; cbn; done.
Qed.
End ProcessRule.

(** Processors without state of their own, given by what they make of a lease. *)
Lemma process_list_stateless (p : Processor unit) f s :
  (forall l, p tt (mkIter OpNone l) = Ret (tt, f l)) ->
  process_list p tt s
  = Ret (tt, s ≫= (fun l => iter_out l (f l)), s ≫= (fun l => iter_ops l (f l))).
Proof.
  intros Hp. induction s as [|l s IH]; cbn [process_list]; [done|].
  rewrite Hp. cbn. rewrite IH. done.
Qed.

Lemma Tx_Process_list `{SO : Sorter} {St} (process : Processor St) tx st :
  Tx_Process process tx st
  = ('(st, outs, ops) ← process_list process st (tx_leases tx);
     Ret (st, mkTx (tx_resource tx) (tx_revision tx) (Sort outs) (tx_ops tx ++ ops))).
Proof.
  unfold Tx_Process. change 0 with (length (@nil Lease)) at 1.
  rewrite (process_loop_spec process (length (tx_leases tx)) [] (tx_leases tx) tx st) by done.
  by destruct (process_list process st (tx_leases tx)) as [[[? ?] ?]| |].
Qed.

(** The three processors of the source, by what they make of a lease. *)
Definition update_iter (resource : string) inst ls l : Iter :=
  if Lease_MatchInstance l resource inst then mkIter OpUpdate ls else mkIter OpNone l.
Definition release_iter (resource : string) inst at_ l : Iter :=
  if Lease_MatchInstance l resource inst then
    if decide (ls_Status l = Active)
    then mkIter OpUpdate (set_Released at_ (set_Status Released l))
    else mkIter OpDelete l
  else mkIter OpNone l.
Definition delete_iter (resource : string) inst l : Iter :=
  if Lease_MatchInstance l resource inst then mkIter OpDelete l else mkIter OpNone l.

Lemma update_processor_stateless r i ls l :
  update_processor r i ls tt (mkIter OpNone l) = Ret (tt, update_iter r i ls l).
Proof.
  unfold update_processor, update_iter. cbn. rewrite Clone_id.
  by destruct (Lease_MatchInstance l r i).
Qed.

Lemma release_processor_stateless r i t l :
  release_processor r i t tt (mkIter OpNone l) = Ret (tt, release_iter r i t l).
Proof.
  unfold release_processor, release_iter. cbn.
  destruct (Lease_MatchInstance l r i); [|done]. by destruct (decide _).
Qed.

Lemma delete_processor_stateless r i l :
  delete_processor r i tt (mkIter OpNone l) = Ret (tt, delete_iter r i l).
Proof. unfold delete_processor, delete_iter. cbn. by destruct (Lease_MatchInstance l r i). Qed.

Definition tx_apply_iters `{SO : Sorter} (f : Lease -> Iter) (tx : Tx) : Tx :=
  mkTx (tx_resource tx) (tx_revision tx)
    (Sort (tx_leases tx ≫= (fun l => iter_out l (f l))))
    (tx_ops tx ++ (tx_leases tx ≫= (fun l => iter_ops l (f l)))).

Section TxFacts.
Context `{SO : Sorter}.

Lemma Tx_Update_spec i ls tx :
  Tx_Update i ls tx = Ret (tx_apply_iters (update_iter (tx_resource tx) i ls) tx).
Proof.
  unfold Tx_Update. rewrite Tx_Process_list.
  erewrite process_list_stateless by (apply update_processor_stateless). done.
Qed.

Lemma Tx_Release_spec i t tx :
  Tx_Release i t tx = Ret (tx_apply_iters (release_iter (tx_resource tx) i t) tx).
Proof.
  unfold Tx_Release. rewrite Tx_Process_list.
  erewrite process_list_stateless by (apply release_processor_stateless). done.
Qed.

Lemma Tx_Delete_spec i tx :
  Tx_Delete i tx = Ret (tx_apply_iters (delete_iter (tx_resource tx) i) tx).
Proof.
  unfold Tx_Delete. rewrite Tx_Process_list.
  erewrite process_list_stateless by (apply delete_processor_stateless). done.
Qed.

Lemma ProcessReverse_Process {St} (p : Processor St) tx st :
  Tx_ProcessReverse p tx st = Tx_Process p tx st.
Proof. reflexivity. Qed.
End TxFacts.
