(* ===== verification/LeaseUtil.v ===== *)
(** * Refreshing a lease set (package [leaseutil])

    The accumulator (accumulator.go), the activation test (func.go) and the
    two passes of [Refresh] (refresh.go), each the body of the closure the
    source hands to [Tx.Process].  Their theorems are in [Refresh.v]. *)

From S2P Require Import Prelude GoTime Lease LeaseSet Tx.

(** ** leaseutil/accumulator.go *)

Record Accumulator := mkAccumulator {
  acc_total : N;
  acc_active : gmap string N;
  acc_released : gmap string N;
  acc_consumed : gmap string N;
  acc_replacements : gmap string N;
}.

Definition NewAccumulator : Accumulator := mkAccumulator 0 ∅ ∅ ∅ ∅.

Definition Accumulator_Add (consumer : string) (status : Status) (a : Accumulator) : Accumulator :=
  if decide (status = Active) then
    mkAccumulator (acc_total a + 1) (counter_incr (acc_active a) consumer) (acc_released a)
      (counter_incr (acc_consumed a) consumer) (acc_replacements a)
  else if decide (status = Released) then
    mkAccumulator (acc_total a + 1) (acc_active a) (counter_incr (acc_released a) consumer)
      (counter_incr (acc_consumed a) consumer) (acc_replacements a)
  else a.

(** [m[k]--], then [delete(m, k)] when the count has reached zero. *)
Definition counter_decr_delete (m : gmap string N) (k : string) : gmap string N :=
  let n := (counter_get m k - 1)%N in
  if decide (n = 0%N) then delete k m else <[k := n]> m.

Definition Accumulator_StartReplacement (consumer : string) (a : Accumulator) : outcome Accumulator :=
  if decide (counter_get (acc_released a) consumer = 0%N) then
    Panic "leaseutil: accumulator: cannot start replacement lease because no leases are replaceable"
  else
    Ret (mkAccumulator (acc_total a) (counter_incr (acc_active a) consumer)
           (counter_decr_delete (acc_released a) consumer) (acc_consumed a)
           (counter_incr (acc_replacements a) consumer)).

Definition Accumulator_FinishReplacement (consumer : string) (a : Accumulator) : outcome Accumulator :=
  if decide (counter_get (acc_replacements a) consumer = 0%N) then
    Panic "leaseutil: accumulator: cannot finished replacement lease because no replacement was started"
  else
    Ret (mkAccumulator (acc_total a) (acc_active a) (acc_released a) (acc_consumed a)
           (counter_decr_delete (acc_replacements a) consumer)).

Definition Accumulator_Active (a : Accumulator) (consumer : string) : N :=
  counter_get (acc_active a) consumer.
Definition Accumulator_Released (a : Accumulator) (consumer : string) : N :=
  counter_get (acc_released a) consumer.

Definition Accumulator_Consumed (a : Accumulator) (consumer : string) (strat : Strategy) : N :=
  if decide (strat = Strategy_Consumer) then counter_get (acc_consumed a) consumer
  else if decide (0 < counter_get (acc_consumed a) consumer)%N then 1 else 0.

Definition Accumulator_Replacements (a : Accumulator) (consumer : string) : N :=
  counter_get (acc_replacements a) consumer.

Definition Accumulator_ReplacementsRecorded (a : Accumulator) : bool :=
  bool_decide (0 < size (acc_replacements a)).

Definition Accumulator_Total (a : Accumulator) (strat : Strategy) : N :=
  if decide (strat = Strategy_Consumer) then N.of_nat (size (acc_consumed a))
  else acc_total a.

(** ** leaseutil/func.go *)

Definition CanActivate (strat : Strategy) (active consumed limit : N) : bool :=
  if decide (limit = 0%N) then false
  else if decide (limit < consumed)%N then false
  else if decide (strat = Strategy_Consumer /\ (0 < active)%N) then true
  else bool_decide (consumed < limit)%N.

(** ** leaseutil/refresh.go *)

(** The closure of the first pass, with the captured [acc] and [replacements]. *)
Definition refresh_first (at_ : Time) : Processor (Accumulator * LeaseSet) :=
  fun '(acc, replacements) iter =>
  let ls := iter_Lease iter in
  if decide (ls_Status ls = Active) then
    if Lease_Decayed ls at_ then Ret (acc, replacements, Iter_Delete iter)
    else
      let iter :=
        if Lease_Expired ls at_ then
          let iter := Iter_assign (set_Status Released (iter_Lease iter)) iter in
          let iter := Iter_assign
            (set_Released (Time_Add (ls_Renewed (iter_Lease iter)) (ls_Duration (iter_Lease iter)))
               (iter_Lease iter)) iter in
          Iter_Update iter
        else iter in
      Ret (Accumulator_Add (ls_HostUser (iter_Lease iter)) (ls_Status (iter_Lease iter)) acc,
           replacements, iter)
  else if decide (ls_Status ls = Released) then
    if Lease_Decayed ls at_ then Ret (acc, replacements, Iter_Delete iter)
    else Ret (Accumulator_Add (ls_HostUser ls) (ls_Status ls) acc, replacements, iter)
  else if decide (ls_Status ls = Queued) then
    if Lease_Expired ls at_ then Ret (acc, replacements, Iter_Delete iter)
    else
      let consumed := Accumulator_Total acc (ls_Strategy ls) in
      if decide (ls_Limit ls < consumed)%N then Ret (acc, replacements, iter)
      else if decide (0 < Accumulator_Released acc (ls_HostUser ls))%N then
        acc ← Accumulator_StartReplacement (ls_HostUser ls) acc;
        Ret (acc, replacements ++ [ls], Iter_Delete iter)
      else if CanActivate (ls_Strategy ls) (Accumulator_Active acc (ls_HostUser ls))
                consumed (ls_Limit ls) then
        let iter := Iter_Update (Iter_assign (set_Status Active ls) iter) in
        Ret (Accumulator_Add (ls_HostUser (iter_Lease iter)) (ls_Status (iter_Lease iter)) acc,
             replacements, iter)
      else Ret (acc, replacements, iter)
  else Ret (acc, replacements, iter).

(** The closure of the second pass, with the captured [acc] and index [r]. *)
Definition refresh_second (replacements : LeaseSet) : Processor (Accumulator * nat) :=
  fun '(acc, r) iter =>
  let ls := iter_Lease iter in
  if decide (ls_Status ls <> Released) then Ret (acc, r, iter)
  else if decide (Accumulator_Replacements acc (ls_HostUser ls) = 0%N) then Ret (acc, r, iter)
  else
    acc ← Accumulator_FinishReplacement (ls_HostUser ls) acc;
    match replacements !! r with
    | None => Panic "index out of range"
    | Some replacement =>
        let iter := Iter_assign replacement iter in
        let iter := Iter_assign (set_Status Active (iter_Lease iter)) iter in
        Ret (acc, S r, Iter_Update iter)
    end.

Definition Refresh `{SO : Sorter} (tx : Tx) (at_ : Time) : outcome (Accumulator * Tx) :=
  '(acc, replacements, tx) ← Tx_Process (refresh_first at_) tx (NewAccumulator, []);
  if Accumulator_ReplacementsRecorded acc then
    '(acc, _, tx) ← Tx_ProcessReverse (refresh_second replacements) tx (acc, 0);
    Ret (acc, tx)
  else Ret (acc, tx).
