(* ===== verification/Refresh.v ===== *)
(** * What [leaseutil.Refresh] does

    A refresh drops the stale leases, releases the active leases that have
    expired, promotes queued leases while the limit allows it and lets a queued
    lease replace a released one of the same consumer.  [Refresh_rule] is the
    complete description: it relates the refreshed set to the original one,
    gives the accumulator's figures and the journal of the recorded operations. *)

From S2P Require Import Prelude GoTime Lease LeaseSet Tx LeaseUtil.

(** ** Vocabulary *)

(** What identifies a lease within a lease set. *)
Definition lease_id (l : Lease) : string * LeaseInstance := (ls_Resource l, ls_Instance l).
Definition unique_ids (s : LeaseSet) : Prop := NoDup (lease_id <$> s).

#[export] Instance unique_ids_perm : Proper ((≡ₚ) ==> iff) unique_ids.
Proof. intros s1 s2 H. unfold unique_ids. by rewrite H. Qed.

Definition with_status (st : Status) (c : string) (l : Lease) : Prop :=
  ls_Status l = st /\ ls_HostUser l = c.
#[export] Instance with_status_dec st c l : Decision (with_status st c l).
Proof. unfold with_status. apply _. Defined.

Definition by_consumer (c : string) (l : Lease) : Prop := ls_HostUser l = c.
#[export] Instance by_consumer_dec c l : Decision (by_consumer c l).
Proof. unfold by_consumer. apply _. Defined.

#[global] Typeclasses Opaque with_status by_consumer.

(** The consumption of a lease set under a counting strategy. *)
Definition consumption (strat : Strategy) (s : LeaseSet) : N :=
  if decide (strat = Strategy_Consumer)
  then N.of_nat (size (holders (status_upto 1) s))
  else count (status_upto 1) s.

#[export] Instance consumption_perm strat : Proper ((≡ₚ) ==> (=)) (consumption strat).
Proof. intros s1 s2 H. unfold consumption. case_decide; by rewrite H. Qed.

(** A lease that a refresh removes. *)
Definition stale (at_ : Time) (l : Lease) : Prop :=
  ls_Status l = Active /\ Lease_Decayed l at_ = true
  \/ ls_Status l = Released /\ Lease_Decayed l at_ = true
  \/ ls_Status l = Queued /\ Lease_Expired l at_ = true.

Definition expire (l : Lease) : Lease :=
  set_Released (Lease_ExpirationTime l) (set_Status Released l).

(** What a refresh makes of a lease it keeps. *)
Inductive refreshed (at_ : Time) : Lease -> Lease -> Prop :=
| refreshed_keep l :
    ~ stale at_ l ->
    (ls_Status l = Active -> Lease_Expired l at_ = false) ->
    refreshed at_ l l
| refreshed_expire l :
    ls_Status l = Active -> ~ stale at_ l -> Lease_Expired l at_ = true ->
    refreshed at_ l (expire l)
| refreshed_promote l :
    ls_Status l = Queued -> ~ stale at_ l ->
    refreshed at_ l (set_Status Active l).

Lemma refreshed_id at_ l l' : refreshed at_ l l' -> lease_id l' = lease_id l.
Proof. by destruct 1. Qed.

Lemma refreshed_HostUser at_ l l' : refreshed at_ l l' -> ls_HostUser l' = ls_HostUser l.
Proof. by destruct 1. Qed.

Lemma refreshed_ids at_ s s' :
  Forall2 (refreshed at_) s s' -> lease_id <$> s' = lease_id <$> s.
Proof. induction 1 as [|l l' s s' H1 H2 IH]; [done|]. cbn. by rewrite IH, (refreshed_id _ _ _ H1). Qed.

Lemma status_upto_1 l : status_upto 1 l <-> ls_Status l = Active \/ ls_Status l = Released.
Proof.
  unfold status_upto, Status_Order. repeat case_decide; split; intros; try lia; try tauto.
Qed.

Lemma Consumptive_upto l : Lease_Consumptive l = true <-> status_upto 1 l.
Proof. by rewrite Consumptive_true, status_upto_1. Qed.

(** ** Counters *)

Lemma counter_get_incr m k c :
  counter_get (counter_incr m k) c = (counter_get m c + if decide (k = c) then 1 else 0)%N.
Proof.
  unfold counter_incr, counter_get. rewrite lookup_insert. case_decide; subst; cbn; lia.
Qed.

Lemma counter_get_decr m k c :
  (0 < counter_get m k)%N ->
  (counter_get (counter_decr_delete m k) c + (if decide (k = c) then 1 else 0) = counter_get m c)%N.
Proof.
  unfold counter_decr_delete, counter_get. intros Hp. cbn zeta.
  destruct (decide (_ = 0%N)); rewrite ?lookup_delete, ?lookup_insert; case_decide; subst; cbn; lia.
Qed.

Lemma counter_incr_nonzero m k c : m !! c <> Some 0%N -> counter_incr m k !! c <> Some 0%N.
Proof. unfold counter_incr. rewrite lookup_insert. case_decide; [|done]. intros _ [=]. lia. Qed.

Lemma counter_decr_nonzero m k c :
  m !! c <> Some 0%N -> counter_decr_delete m k !! c <> Some 0%N.
Proof.
  unfold counter_decr_delete. cbn zeta. intros Hc. case_decide as Hn.
  - rewrite lookup_delete. by case_decide.
  - rewrite lookup_insert. case_decide; [|done]. by intros [=].
Qed.

Lemma count_ext P Q `{forall l, Decision (P l)} `{forall l, Decision (Q l)} s :
  (forall l, l ∈ s -> P l <-> Q l) -> count P s = count Q s.
Proof.
  induction s as [|l s IH]; intros HPQ; [done|]. rewrite !count_cons, IH.
  - f_equal. pose proof (HPQ l ltac:(left)). repeat case_decide; tauto || lia.
  - intros x Hx. apply HPQ. by right.
Qed.

Lemma count_le P Q `{forall l, Decision (P l)} `{forall l, Decision (Q l)} s :
  (forall l, l ∈ s -> P l -> Q l) -> (count P s <= count Q s)%N.
Proof.
  induction s as [|l s IH]; intros HPQ; [done|]. rewrite !count_cons.
  assert (count P s <= count Q s)%N by (apply IH; intros x Hx; apply HPQ; by right).
  pose proof (HPQ l ltac:(left)). repeat case_decide; tauto || lia.
Qed.

Lemma count_snoc P `{forall l, Decision (P l)} s l :
  count P (s ++ [l]) = (count P s + if decide (P l) then 1 else 0)%N.
Proof. rewrite count_app, count_cons, count_nil. lia. Qed.

(** ** Consumption *)

Lemma consumption_app_l strat s1 s2 : (consumption strat s1 <= consumption strat (s1 ++ s2))%N.
Proof.
  unfold consumption. case_decide.
  - rewrite holders_app.
    pose proof (subseteq_size (holders (status_upto 1) s1)
      (holders (status_upto 1) s1 ∪ holders (status_upto 1) s2) ltac:(set_solver)). lia.
  - rewrite count_app. lia.
Qed.

Lemma consumption_snoc_le strat s l :
  (consumption strat (s ++ [l]) <= consumption strat s + 1)%N.
Proof.
  unfold consumption. case_decide.
  - rewrite holders_app, holders_cons, holders_nil.
    pose proof (size_union_alt (holders (status_upto 1) s)
      (if decide (status_upto 1 l) then {[ls_HostUser l]} ∪ ∅ else ∅)) as Hs.
    rewrite Hs. set (X := (if decide _ then _ else _) : gset string).
    pose proof (subseteq_size (X ∖ holders (status_upto 1) s) {[ls_HostUser l]}) as Hx.
    rewrite size_singleton in Hx. specialize (Hx ltac:(subst X; case_decide; set_solver)). lia.
  - rewrite count_snoc. case_decide; lia.
Qed.

Lemma consumption_snoc_idle strat s l :
  ~ status_upto 1 l -> consumption strat (s ++ [l]) = consumption strat s.
Proof.
  intros Hl. unfold consumption. case_decide.
  - rewrite holders_app, holders_cons, holders_nil, decide_False by done.
    by rewrite (right_id_L ∅ (∪)).
  - rewrite count_snoc, decide_False by done. lia.
Qed.

Lemma consumption_snoc_held s l :
  ls_HostUser l ∈ holders (status_upto 1) s ->
  consumption Strategy_Consumer (s ++ [l]) = consumption Strategy_Consumer s.
Proof.
  intros Hl. unfold consumption. rewrite !decide_True by done.
  rewrite holders_app, holders_cons, holders_nil. do 2 f_equal.
  apply set_eq. intros x. case_decide; set_solver.
Qed.

(** Two sets with the same consumptive consumers, with multiplicity, consume
    the same. *)
Lemma consumption_HostUsers strat s1 s2 :
  ls_HostUser <$> filter (status_upto 1) s1 ≡ₚ ls_HostUser <$> filter (status_upto 1) s2 ->
  consumption strat s1 = consumption strat s2.
Proof.
  intros Hp. unfold consumption, holders, count. case_decide.
  - do 2 f_equal. by apply list_to_set_perm_L.
  - apply Permutation_length in Hp. rewrite !length_fmap in Hp. lia.
Qed.

Lemma consumption_stats strat s :
  strat = Strategy_Instance \/ strat = Strategy_Consumer ->
  sorted_set s ->
  Stats_Consumed (Set_Stats s) strat = Ret (consumption strat s).
Proof.
  intros Hst Hs. unfold Stats_Consumed, Stats_tally, consumption, Set_Stats.
  destruct (Stats_loop_Instance s ∅ zero_stats) as (_ & Hi & _).
  destruct (Stats_loop_Consumer s ∅ zero_stats Hs) as (_ & Hc & _).
  destruct Hst as [->| ->].
  - rewrite decide_True, decide_False by done. cbn [mbind outcome_bind]. by rewrite Hi.
  - rewrite (decide_False (P := Strategy_Consumer = Strategy_Instance)), !decide_True by done.
    cbn [mbind outcome_bind]. rewrite Hc, difference_empty_L. done.
Qed.

(** ** The first pass *)

(** The six things the first pass can do with a lease. *)
Inductive first_step (at_ : Time) (a : Accumulator) (repl : LeaseSet) (l : Lease)
  : Accumulator -> LeaseSet -> LeaseSet -> Prop :=
| fs_drop : stale at_ l -> first_step at_ a repl l a repl []
| fs_add l' :
    status_upto 1 l -> status_upto 1 l' -> refreshed at_ l l' ->
    first_step at_ a repl l (Accumulator_Add (ls_HostUser l') (ls_Status l') a) repl [l']
| fs_other :
    Status_Order (ls_Status l) = 3 -> first_step at_ a repl l a repl [l]
| fs_wait :
    ls_Status l = Queued -> ~ stale at_ l ->
    (ls_Limit l < Accumulator_Total a (ls_Strategy l))%N
    \/ CanActivate (ls_Strategy l) (Accumulator_Active a (ls_HostUser l))
         (Accumulator_Total a (ls_Strategy l)) (ls_Limit l) = false ->
    first_step at_ a repl l a repl [l]
| fs_replace a' :
    ls_Status l = Queued -> ~ stale at_ l ->
    (Accumulator_Total a (ls_Strategy l) <= ls_Limit l)%N ->
    (0 < Accumulator_Released a (ls_HostUser l))%N ->
    Accumulator_StartReplacement (ls_HostUser l) a = Ret a' ->
    first_step at_ a repl l a' (repl ++ [l]) []
| fs_promote :
    ls_Status l = Queued -> ~ stale at_ l ->
    CanActivate (ls_Strategy l) (Accumulator_Active a (ls_HostUser l))
      (Accumulator_Total a (ls_Strategy l)) (ls_Limit l) = true ->
    first_step at_ a repl l (Accumulator_Add (ls_HostUser l) Active a) repl
      [set_Status Active l].

Lemma not_stale_Active at_ l :
  ls_Status l = Active -> Lease_Decayed l at_ = false -> ~ stale at_ l.
Proof.
  unfold stale, Active, Released, Queued. intros Hs Hd [[? ?]|[[? ?]|[? ?]]]; congruence.
Qed.
Lemma not_stale_Released at_ l :
  ls_Status l = Released -> Lease_Decayed l at_ = false -> ~ stale at_ l.
Proof.
  unfold stale, Active, Released, Queued. intros Hs Hd [[? ?]|[[? ?]|[? ?]]]; congruence.
Qed.
Lemma not_stale_Queued at_ l :
  ls_Status l = Queued -> Lease_Expired l at_ = false -> ~ stale at_ l.
Proof.
  unfold stale, Active, Released, Queued. intros Hs Hd [[? ?]|[[? ?]|[? ?]]]; congruence.
Qed.
#[export] Hint Resolve not_stale_Active not_stale_Released not_stale_Queued : lease.

Lemma StartReplacement_Ret c a :
  (0 < Accumulator_Released a c)%N -> exists a', Accumulator_StartReplacement c a = Ret a'.
Proof.
  unfold Accumulator_StartReplacement, Accumulator_Released. intros H.
  rewrite decide_False by lia. eauto.
Qed.

(** The first pass never panics, and does one of the six things. *)
Lemma refresh_first_total at_ a repl l :
  exists a' repl' iter,
    refresh_first at_ (a, repl) (mkIter OpNone l) = Ret (a', repl', iter)
    /\ first_step at_ a repl l a' repl' (iter_out l iter).
Proof.
  unfold refresh_first. cbn [iter_Lease]. case_decide as HA.
  { destruct (Lease_Decayed l at_) eqn:Hd.
    - do 3 eexists. split; [done|]. apply fs_drop. by left.
    - destruct (Lease_Expired l at_) eqn:He; do 3 eexists; (split; [done|]).
      + apply (fs_add at_ a repl l (expire l)); [apply status_upto_1; auto..|].
        constructor; auto with lease.
      + apply (fs_add at_ a repl l l); [apply status_upto_1; auto..|].
        constructor; auto with lease. }
  case_decide as HR.
  { destruct (Lease_Decayed l at_) eqn:Hd; do 3 eexists; (split; [done|]).
    - apply fs_drop. right; left; done.
    - apply (fs_add at_ a repl l l); [apply status_upto_1; auto..|].
      constructor; [auto with lease|congruence]. }
  case_decide as HQ.
  2: { do 3 eexists. split; [done|]. by apply fs_other, Status_Order_3. }
  destruct (Lease_Expired l at_) eqn:He.
  { do 3 eexists. split; [done|]. apply fs_drop. right; right; done. }
  cbn zeta. case_decide as Hlim.
  { do 3 eexists. split; [done|]. apply fs_wait; auto with lease. }
  case_decide as Hrel.
  { destruct (StartReplacement_Ret _ _ Hrel) as [a' Ha]. rewrite Ha.
    do 3 eexists. split; [done|]. apply fs_replace; auto with lease. lia. }
  destruct (CanActivate _ _ _ _) eqn:Hcan; do 3 eexists; (split; [done|]).
  - exact (fs_promote at_ a repl l HQ (not_stale_Queued _ _ HQ He) Hcan).
  - apply fs_wait; auto with lease.
Qed.

(** The accumulator counts what the pass has produced ([pre]) and the queued
    leases set aside ([repl]). *)
Record acc_sync (a : Accumulator) (repl pre : LeaseSet) : Prop := {
  sync_total : acc_total a = count (status_upto 1) pre;
  sync_consumed : dom (acc_consumed a) = holders (status_upto 1) pre;
  sync_active c : counter_get (acc_active a) c
    = (count (with_status Active c) pre + count (by_consumer c) repl)%N;
  sync_released c : (counter_get (acc_released a) c + count (by_consumer c) repl)%N
    = count (with_status Released c) pre;
  sync_repl c : counter_get (acc_replacements a) c = count (by_consumer c) repl;
  sync_nonzero c : acc_replacements a !! c <> Some 0%N;
}.

Lemma acc_sync_Total a repl pre strat :
  acc_sync a repl pre -> Accumulator_Total a strat = consumption strat pre.
Proof.
  intros [Ht Hc _ _ _ _]. unfold Accumulator_Total, consumption. case_decide; [|done].
  by rewrite <- Hc, size_dom.
Qed.

Lemma acc_sync_new : acc_sync NewAccumulator [] [].
Proof. split; intros; try done. Qed.

Lemma count_with_status_snoc st c s l :
  count (with_status st c) (s ++ [l])
  = (count (with_status st c) s
     + if decide (ls_Status l = st) then if decide (ls_HostUser l = c) then 1 else 0 else 0)%N.
Proof.
  rewrite count_snoc. f_equal. destruct (decide (with_status st c l)) as [[H1 H2]|H].
  - by rewrite !decide_True.
  - unfold with_status in H. repeat case_decide; tauto.
Qed.

Lemma holders_snoc s l :
  status_upto 1 l ->
  holders (status_upto 1) (s ++ [l]) = {[ls_HostUser l]} ∪ holders (status_upto 1) s.
Proof.
  intros Hl. rewrite holders_app, holders_cons, decide_True, holders_nil by done. set_solver.
Qed.

Lemma acc_sync_add a repl pre l :
  status_upto 1 l -> acc_sync a repl pre ->
  acc_sync (Accumulator_Add (ls_HostUser l) (ls_Status l) a) repl (pre ++ [l]).
Proof.
  intros Hl [Ht Hc Ha Hr Hp Hn]. pose proof Hl as Hs. apply status_upto_1 in Hs.
  assert (Hdom : forall m, dom (counter_incr m (ls_HostUser l)) = {[ls_HostUser l]} ∪ dom m)
    by (intros m; apply dom_insert_L).
  unfold Accumulator_Add.
  destruct Hs as [Hs|Hs]; rewrite Hs;
    [rewrite decide_True by done|rewrite decide_False, decide_True by done];
    split; cbn [acc_total acc_active acc_released acc_consumed acc_replacements]; intros; try done;
    rewrite ?Hdom, ?holders_snoc, ?count_with_status_snoc, ?count_snoc, ?Hs, ?counter_get_incr, ?Hc,
      ?(decide_True (P := status_upto 1 l)) by done; try done;
    rewrite ?(decide_False (P := Active = Released)), ?(decide_False (P := Released = Active)),
      ?(decide_True (P := Active = Active)), ?(decide_True (P := Released = Released)) by done.
  all: rewrite ?Ha, <- ?Hr; repeat case_decide; done || lia.
Qed.

Lemma acc_sync_idle a repl pre l :
  ~ status_upto 1 l -> acc_sync a repl pre -> acc_sync a repl (pre ++ [l]).
Proof.
  intros Hl [Ht Hc Ha Hr Hp Hn]. pose proof Hl as Hs. rewrite status_upto_1 in Hs.
  split; intros; try done; rewrite ?count_with_status_snoc, ?count_snoc.
  - rewrite decide_False by done. lia.
  - rewrite holders_app, holders_cons, decide_False, holders_nil by done. set_solver.
  - rewrite decide_False by tauto. rewrite Ha. lia.
  - rewrite decide_False by tauto. rewrite Hr. lia.
Qed.

Lemma count_by_consumer_cons c s l :
  count (by_consumer c) (l :: s)
  = ((if decide (ls_HostUser l = c) then 1 else 0) + count (by_consumer c) s)%N.
Proof. rewrite count_cons. unfold by_consumer. repeat case_decide; done. Qed.

Lemma count_by_consumer_snoc c s l :
  count (by_consumer c) (s ++ [l])
  = (count (by_consumer c) s + if decide (ls_HostUser l = c) then 1 else 0)%N.
Proof. rewrite count_snoc. unfold by_consumer. repeat case_decide; done. Qed.

Lemma acc_sync_replace a repl pre l a' :
  (0 < Accumulator_Released a (ls_HostUser l))%N ->
  Accumulator_StartReplacement (ls_HostUser l) a = Ret a' ->
  acc_sync a repl pre -> acc_sync a' (repl ++ [l]) pre.
Proof.
  unfold Accumulator_StartReplacement, Accumulator_Released. intros Hpos.
  case_decide; [done|]. intros [= <-] [Ht Hc Ha Hr Hp Hn].
  split; intros; cbn [acc_total acc_active acc_released acc_consumed acc_replacements];
    rewrite ?count_by_consumer_snoc, ?counter_get_incr, ?Ha, ?Hp; try done.
  - case_decide; lia.
  - rewrite <- Hr. pose proof (counter_get_decr _ _ c Hpos). case_decide; lia.
  - apply counter_incr_nonzero, Hn.
Qed.

Lemma CanActivate_false strat active consumed limit :
  CanActivate strat active consumed limit = false -> (limit <= consumed)%N.
Proof.
  unfold CanActivate. repeat case_decide; try lia; try done.
Qed.

Lemma CanActivate_true strat active consumed limit :
  CanActivate strat active consumed limit = true ->
  (consumed < limit)%N
  \/ (consumed <= limit)%N /\ strat = Strategy_Consumer /\ (0 < active)%N.
Proof.
  unfold CanActivate. repeat case_decide; try done.
  - intros _. right. split; [lia|done].
  - rewrite bool_decide_eq_true. by left.
Qed.

Record pass1 (at_ : Time) (input : LeaseSet) (a : Accumulator) (repl pre rest : LeaseSet)
  : Prop := {
  p1_split : exists dropped kept,
    input ≡ₚ dropped ++ repl ++ kept ++ rest
    /\ Forall (stale at_) dropped /\ Forall2 (refreshed at_) kept pre;
  p1_repl : Forall (fun l => ls_Status l = Queued /\ ~ stale at_ l) repl;
  p1_sync : acc_sync a repl pre;
  p1_waiting l : l ∈ pre -> ls_Status l = Queued ->
    (ls_Limit l <= consumption (ls_Strategy l) pre)%N;
}.

Lemma not_upto_1_Queued l : ls_Status l = Queued -> ~ status_upto 1 l.
Proof. rewrite status_upto_1. unfold Active, Released, Queued. intros ->. intuition congruence. Qed.

Lemma upto_1_not_Queued l : status_upto 1 l -> ls_Status l <> Queued.
Proof. intros H1 H2. by apply (not_upto_1_Queued l). Qed.

Lemma first_step_sync at_ a repl pre l a' repl' out :
  first_step at_ a repl l a' repl' out -> acc_sync a repl pre -> acc_sync a' repl' (pre ++ out).
Proof.
  destruct 1 as [Hs|l' Hl Hl' Hr|Ho|Hq Hs Hw|a' Hq Hs Hlim Hrel Ha|Hq Hs Hcan]; intros Hsync.
  - by rewrite app_nil_r.
  - by apply acc_sync_add.
  - apply acc_sync_idle; [|done]. unfold status_upto. lia.
  - apply acc_sync_idle; [|done]. by apply not_upto_1_Queued.
  - rewrite app_nil_r. by apply (acc_sync_replace a).
  - apply (acc_sync_add a repl pre (set_Status Active l)); [|done].
    apply status_upto_1. by left.
Qed.

Lemma refreshed_other at_ l : Status_Order (ls_Status l) = 3 -> refreshed at_ l l.
Proof.
  intros (? & ? & ?)%Status_Order_3. constructor; [|done].
  unfold stale. intuition congruence.
Qed.

Lemma first_step_split at_ a repl l a' repl' out :
  first_step at_ a repl l a' repl' out ->
  (out = [] /\ repl' = repl /\ stale at_ l)
  \/ (out = [] /\ repl' = repl ++ [l] /\ ls_Status l = Queued /\ ~ stale at_ l)
  \/ (exists l', out = [l'] /\ repl' = repl /\ refreshed at_ l l').
Proof.
  destruct 1 as [Hs|l' Hl Hl' Hr|Ho|Hq Hs Hw|a' Hq Hs Hlim Hrel Ha|Hq Hs Hcan]; auto.
  - right; right. exists l'. auto.
  - right; right. exists l. auto using refreshed_other.
  - right; right. exists l. split_and!; [done..|]. constructor; [done|].
    unfold Queued, Active in *. congruence.
  - by right; left.
  - right; right. eexists. split; [done|]. split; [done|]. by constructor.
Qed.

Lemma first_step_waiting at_ a repl pre l a' repl' out x :
  acc_sync a repl pre ->
  first_step at_ a repl l a' repl' out -> x ∈ out -> ls_Status x = Queued ->
  (ls_Limit x <= consumption (ls_Strategy x) (pre ++ out))%N.
Proof.
  intros Hsync Hstep Hx Hq.
  assert (Hmono := fun strat => consumption_app_l strat pre out).
  destruct Hstep as [Hs|l' Hl Hl' Hr|Ho|Hq' Hs Hw|a' Hq' Hs Hlim Hrel Ha|Hq' Hs Hcan];
    try (by apply not_elem_of_nil in Hx); apply list_elem_of_singleton in Hx; subst x.
  - by apply upto_1_not_Queued in Hl'.
  - rewrite Hq in Ho. discriminate Ho.
  - specialize (Hmono (ls_Strategy l)). rewrite (acc_sync_Total _ _ _ _ Hsync) in Hw.
    destruct Hw as [Hw|Hw%CanActivate_false]; lia.
  - cbn in Hq. unfold Active, Queued in *. congruence.
Qed.

Lemma pass1_step at_ input a repl pre l rest a' repl' out :
  pass1 at_ input a repl pre (l :: rest) ->
  first_step at_ a repl l a' repl' out ->
  pass1 at_ input a' repl' (pre ++ out) rest.
Proof.
  intros [(dropped & kept & Hin & Hd & Hk) Hrep Hsync Hw] Hstep. split.
  - apply first_step_split in Hstep as [(-> & -> & Hs)|[(-> & -> & _)|(l' & -> & -> & Hr)]].
    + exists (l :: dropped), kept. rewrite app_nil_r. split_and!; [|by constructor|done].
      rewrite Hin. cbn. by rewrite <- !Permutation_middle.
    + exists dropped, kept. rewrite app_nil_r. split_and!; [|done|done].
      rewrite Hin. f_equiv. rewrite <- (assoc_L (++)). f_equiv. cbn.
      by rewrite <- Permutation_middle.
    + exists dropped, (kept ++ [l]). split_and!; [|done|by apply Forall2_app; repeat constructor].
      rewrite Hin. by rewrite <- (assoc_L (++)).
  - apply first_step_split in Hstep as [(_ & -> & _)|[(_ & -> & Hs)|(l' & _ & -> & _)]]; try done.
    apply Forall_app. by rewrite Forall_singleton.
  - by apply (first_step_sync at_ a repl pre l).
  - intros x [Hx|Hx]%elem_of_app Hq.
    + etrans; [by apply Hw|]. apply consumption_app_l.
    + by apply (first_step_waiting at_ a repl pre l a' repl').
Qed.

Lemma pass1_start at_ input : pass1 at_ input NewAccumulator [] [] input.
Proof.
  split.
  - exists [], []. split_and!; [done|constructor..].
  - constructor.
  - apply acc_sync_new.
  - by intros l ?%not_elem_of_nil.
Qed.

Lemma pass1_unique at_ input a repl pre rest :
  pass1 at_ input a repl pre rest -> unique_ids input -> unique_ids (repl ++ pre ++ rest).
Proof.
  intros [(dropped & kept & Hin & _ & Hk) _ _ _]. rewrite Hin. unfold unique_ids.
  rewrite !fmap_app, <- (refreshed_ids _ _ _ Hk). by intros (_ & _ & ?)%NoDup_app.
Qed.

(** What the first pass never does is raise the consumption above the limit. *)
Definition within (strat : Strategy) (L : N) (l : Lease) : Prop :=
  ls_Status l = Queued -> ls_Strategy l = strat /\ (ls_Limit l <= L)%N.

Lemma first_step_consumption at_ strat L a repl pre l a' repl' out :
  acc_sync a repl pre ->
  first_step at_ a repl l a' repl' out ->
  within strat L l -> ls_Status l = Queued ->
  (consumption strat (pre ++ out) <= N.max L (consumption strat pre))%N.
Proof.
  intros Hsync Hstep Hw Hq. destruct (Hw Hq) as [Hst HL].
  destruct Hstep as [Hs|l' Hl Hl' Hr|Ho|Hq' Hs Hwt|a' Hq' Hs Hlim Hrel Ha|Hq' Hs Hcan];
    rewrite ?app_nil_r; try lia.
  - by apply upto_1_not_Queued in Hl.
  - rewrite Hq in Ho. discriminate Ho.
  - rewrite consumption_snoc_idle by by apply not_upto_1_Queued. lia.
  - rewrite (acc_sync_Total _ _ _ _ Hsync), Hst in Hcan.
    apply CanActivate_true in Hcan as [Hlt|(Hle & -> & Hact)].
    + pose proof (consumption_snoc_le strat pre (set_Status Active l)). lia.
    + rewrite consumption_snoc_held; [lia|]. cbn.
      unfold Accumulator_Active in Hact. rewrite (sync_active _ _ _ Hsync) in Hact.
      pose proof (sync_released _ _ _ Hsync (ls_HostUser l)) as Hr.
      assert (Hex : (0 < count (with_status Active (ls_HostUser l)) pre)%N
                    \/ (0 < count (with_status Released (ls_HostUser l)) pre)%N) by lia.
      apply elem_of_holders.
      destruct Hex as [(x & Hx & Hxs & Hxc)%count_pos|(x & Hx & Hxs & Hxc)%count_pos];
        exists x; (split; [done|]; split; [apply status_upto_1; auto|done]).
Qed.

(** Along a sorted input, the consumptive leases come first: until the first
    queued lease the output is dominated by what has been read. *)
Definition dominated (s t : LeaseSet) : Prop :=
  (count (status_upto 1) s <= count (status_upto 1) t)%N
  /\ holders (status_upto 1) s ⊆ holders (status_upto 1) t.

Lemma dominated_consumption strat s t :
  dominated s t -> (consumption strat s <= consumption strat t)%N.
Proof.
  intros [Hc Hh]. unfold consumption. case_decide; [|done].
  apply subseteq_size in Hh. lia.
Qed.

Lemma dominated_snoc s t l :
  dominated s t -> dominated s (t ++ [l]).
Proof.
  intros [Hc Hh]. split; [rewrite count_app; lia|]. rewrite holders_app. set_solver.
Qed.

Lemma dominated_snoc_both s t l l' :
  dominated s t -> (status_upto 1 l' -> status_upto 1 l) -> ls_HostUser l' = ls_HostUser l ->
  dominated (s ++ [l']) (t ++ [l]).
Proof.
  intros [Hc Hh] Hl Hu. split.
  - rewrite !count_snoc. repeat case_decide; try tauto; lia.
  - rewrite !holders_app, !holders_cons, !holders_nil, Hu. repeat case_decide; try tauto; set_solver.
Qed.

Definition pass1_safe (input pre rest : LeaseSet) : Prop :=
  exists dn, input = dn ++ rest
    /\ (dominated pre dn \/ Forall (fun l => ~ status_upto 1 l) rest)
    /\ forall strat L, Forall (within strat L) input ->
         (consumption strat pre <= N.max L (consumption strat input))%N.

Lemma sorted_after_idle dn l rest :
  sorted_set (dn ++ l :: rest) -> ~ status_upto 1 l ->
  Forall (fun x => ~ status_upto 1 x) rest.
Proof.
  intros [Hall _]%StronglySorted_app_1_r%StronglySorted_cons Hl.
  eapply Forall_impl; [exact Hall|]. intros x Hx%lease_le_order. unfold status_upto in *. lia.
Qed.

Lemma pass1_safe_start input : pass1_safe input [] input.
Proof.
  exists []. split; [done|]. split; [by left|]. intros strat L _.
  unfold consumption. rewrite count_nil, holders_nil, size_empty. case_decide; lia.
Qed.

Lemma pass1_safe_step at_ input a repl pre l rest a' repl' out :
  sorted_set input -> acc_sync a repl pre ->
  first_step at_ a repl l a' repl' out ->
  pass1_safe input pre (l :: rest) -> pass1_safe input (pre ++ out) rest.
Proof.
  intros Hsort Hsync Hstep (dn & Hin & Hdom & Hsafe).
  exists (dn ++ [l]). rewrite <- (assoc_L (++)). split; [done|].
  destruct (decide (status_upto 1 l)) as [Hl|Hl].
  - destruct Hdom as [Hdom|Hdom]; [|by apply Forall_cons_1 in Hdom as [? _]].
    assert (Hd' : dominated (pre ++ out) (dn ++ [l])).
    { apply first_step_split in Hstep as [(-> & _)|[(-> & _)|(l' & -> & _ & Hr)]];
        rewrite ?app_nil_r; [by apply dominated_snoc..|].
      apply dominated_snoc_both; [done..|]. by apply refreshed_HostUser in Hr. }
    split; [by left|]. intros strat L _.
    apply (dominated_consumption strat) in Hd'.
    pose proof (consumption_app_l strat (dn ++ [l]) rest) as Hm.
    rewrite <- (assoc_L (++)) in Hm. cbn [app] in Hm. rewrite <- Hin in Hm. lia.
  - split; [right; rewrite Hin in Hsort; by apply sorted_after_idle in Hsort|].
    intros strat L Hw. specialize (Hsafe strat L Hw).
    destruct (decide (ls_Status l = Queued)) as [Hq|Hq].
    + assert (Hwl : within strat L l).
      { rewrite Hin in Hw. apply Forall_app in Hw as [_ Hw]. by apply Forall_cons_1 in Hw as [? _]. }
      pose proof (first_step_consumption _ _ _ _ _ _ _ _ _ _ Hsync Hstep Hwl Hq). lia.
    + destruct Hstep; try done; rewrite ?app_nil_r; try done.
      by rewrite consumption_snoc_idle.
Qed.

Section Pass1.
Context `{SO : Sorter, HSO : !SorterSpec SO}.

(** The first pass as a whole. *)
Lemma pass1_rule at_ tx :
  exists a repl tx1 outs ops,
    Tx_Process (refresh_first at_) tx (NewAccumulator, []) = Ret (a, repl, tx1)
    /\ tx_resource tx1 = tx_resource tx /\ tx_revision tx1 = tx_revision tx
    /\ tx_leases tx1 = Sort outs /\ tx_ops tx1 = tx_ops tx ++ ops
    /\ pass1 at_ (tx_leases tx) a repl outs []
    /\ (sorted_set (tx_leases tx) -> pass1_safe (tx_leases tx) outs [])
    /\ (unique_ids (tx_leases tx) -> journal unique_ids ops (tx_leases tx) outs).
Proof.
  set (input := tx_leases tx).
  set (P := fun (st : Accumulator * LeaseSet) pre rest => pass1 at_ input st.1 st.2 pre rest
       /\ (sorted_set input -> pass1_safe input pre rest)).
  assert (Pstep : forall st pre l rest, P st pre (l :: rest) ->
    exists st' iter, refresh_first at_ st (mkIter OpNone l) = Ret (st', iter)
      /\ P st' (pre ++ iter_out l iter) rest).
  { intros [a repl] pre l rest [HP HS].
    destruct (refresh_first_total at_ a repl l) as (a' & repl' & iter & Hrun & Hstep).
    exists (a', repl'), iter. split; [done|]. split; cbn in *.
    - by apply (pass1_step _ _ a repl pre l).
    - intros Hs. eapply pass1_safe_step; eauto. apply HP. }
  destruct (Process_rule (refresh_first at_) P Pstep tx (NewAccumulator, []))
    as ([a repl] & tx1 & outs & ops & Hp & Hr & Hv & Hl & Ho & [HP HS] & Hj).
  { split; [apply pass1_start|]. intros _. apply pass1_safe_start. }
  exists a, repl, tx1, outs, ops. split_and!; try done.
  intros Hu. eapply journal_mono; [|exact Hj].
  intros t ([a1 r1] & pre & rest & [Hp1 _] & Ht). rewrite Ht.
  apply (pass1_unique _ _ _ _ _ _ Hp1) in Hu. unfold unique_ids in *.
  rewrite fmap_app in Hu. by apply NoDup_app in Hu as (_ & _ & ?).
Qed.
End Pass1.

(** ** The second pass *)

(** [X] are the released leases replaced so far, [Y] what has been read and
    kept; [dn] and [pend] are the replacement requests granted and pending,
    by consumer, as the accumulator counts them. *)
Record pass2 (input repl : LeaseSet) (a0 a : Accumulator) (r : nat) (pre rest : LeaseSet)
  : Prop := {
  p2_split : exists X Y,
    input ≡ₚ X ++ Y ++ rest
    /\ pre ≡ₚ Y ++ (set_Status Active <$> take r repl)
    /\ Forall (fun l => ls_Status l = Released) X
    /\ exists dn pend, repl ≡ₚ dn ++ pend /\ length dn = r
       /\ ls_HostUser <$> X ≡ₚ ls_HostUser <$> dn
       /\ (forall c, counter_get (acc_replacements a) c = count (by_consumer c) pend)
       /\ (forall c, (count (by_consumer c) pend <= count (with_status Released c) rest)%N);
  p2_same : acc_total a = acc_total a0 /\ acc_active a = acc_active a0
    /\ acc_released a = acc_released a0 /\ acc_consumed a = acc_consumed a0;
  p2_nonzero c : acc_replacements a !! c <> Some 0%N;
}.

Lemma count_by_consumer_app c s1 s2 :
  count (by_consumer c) (s1 ++ s2) = (count (by_consumer c) s1 + count (by_consumer c) s2)%N.
Proof. apply count_app. Qed.

(** A lease that the second pass leaves alone. *)
Lemma pass2_skip input repl a0 a r pre l rest :
  pass2 input repl a0 a r pre (l :: rest) ->
  ls_Status l <> Released \/ counter_get (acc_replacements a) (ls_HostUser l) = 0%N ->
  pass2 input repl a0 a r (pre ++ [l]) rest.
Proof.
  intros [(X & Y & Hin & Hpre & HX & dn & pend & Hrep & Hdn & Hhu & Hcnt & Hle) Hsame Hnz] Hl.
  split; [|done..]. exists X, (Y ++ [l]). split_and!; [| |done|].
  - rewrite Hin, <- (assoc_L (++)). done.
  - rewrite Hpre, <- !(assoc_L (++)). f_equiv. apply Permutation_app_comm.
  - exists dn, pend. split_and!; try done. intros c. specialize (Hle c).
    rewrite count_cons in Hle. case_decide as Hd; [|lia]. destruct Hd as [Hs <-].
    destruct Hl as [Hl|Hl]; [done|]. rewrite Hcnt in Hl. lia.
Qed.

Lemma count_by_consumer_pos c s :
  (0 < count (by_consumer c) s)%N -> exists x s', s ≡ₚ x :: s' /\ ls_HostUser x = c.
Proof.
  intros (x & Hx & Hc)%count_pos. apply elem_of_Permutation in Hx as [s' Hs].
  by exists x, s'.
Qed.

(** A released lease that the second pass replaces. *)
Lemma pass2_replace input repl a0 a r pre l rest :
  pass2 input repl a0 a r pre (l :: rest) ->
  ls_Status l = Released ->
  (0 < counter_get (acc_replacements a) (ls_HostUser l))%N ->
  exists x a', repl !! r = Some x
    /\ Accumulator_FinishReplacement (ls_HostUser l) a = Ret a'
    /\ pass2 input repl a0 a' (S r) (pre ++ [set_Status Active x]) rest.
Proof.
  intros [(X & Y & Hin & Hpre & HX & dn & pend & Hrep & Hdn & Hhu & Hcnt & Hle) Hsame Hnz] Hl Hpos.
  pose proof Hpos as Hpos'. rewrite Hcnt in Hpos'.
  apply count_by_consumer_pos in Hpos' as (x & pend' & Hpend & Hx).
  destruct (lookup_lt_is_Some_2 repl r) as [y Hy].
  { rewrite Hrep, Hpend, length_app. cbn. lia. }
  unfold Accumulator_FinishReplacement. rewrite decide_False by lia.
  eexists y, _. split; [done|]. split; [done|].
  split; [|done|intros c; apply counter_decr_nonzero, Hnz].
  exists (X ++ [l]), Y. split_and!.
  - rewrite Hin, <- !(assoc_L (++)). f_equiv. cbn. by rewrite <- Permutation_middle.
  - rewrite Hpre, (take_S_r _ _ _ Hy), fmap_app, (assoc_L (++)). done.
  - by apply Forall_app; rewrite Forall_singleton.
  - exists (dn ++ [x]), pend'. split_and!.
    + rewrite Hrep, Hpend, <- (assoc_L (++)). done.
    + rewrite length_app. cbn. lia.
    + rewrite !fmap_app, Hhu. cbn. by rewrite Hx.
    + intros c. cbn. pose proof (counter_get_decr _ _ c Hpos) as Hd. rewrite Hcnt in Hd.
      rewrite Hpend, count_by_consumer_cons, Hx in Hd. case_decide; lia.
    + intros c. specialize (Hle c). rewrite Hpend, count_by_consumer_cons, Hx, count_cons in Hle.
      unfold with_status at 1 in Hle. repeat case_decide; try lia; tauto.
Qed.

Lemma no_consumer s : (forall c, count (by_consumer c) s = 0%N) -> s = [].
Proof.
  destruct s as [|l s]; [done|]. intros H. specialize (H (ls_HostUser l)).
  rewrite count_by_consumer_cons, decide_True in H by done. lia.
Qed.

Lemma pass2_start a repl input outs :
  acc_sync a repl outs -> input ≡ₚ outs -> pass2 input repl a a 0 [] input.
Proof.
  intros [_ _ _ Hr Hp Hn] Hin. split; [|done..]. exists [], []. split_and!; [done..|constructor|].
  exists [], repl. split_and!; [done..|]. intros c. rewrite Hin, <- Hr. lia.
Qed.

Lemma set_Status_ids st (s : LeaseSet) : lease_id <$> (set_Status st <$> s) = lease_id <$> s.
Proof. induction s as [|l s IH]; [done|]. cbn. by rewrite IH. Qed.

Lemma unique_ids_part s t k :
  lease_id <$> t ≡ₚ (lease_id <$> s) ++ k -> unique_ids t -> unique_ids s.
Proof. unfold unique_ids. intros ->. by intros (? & _)%NoDup_app. Qed.

Lemma pass2_unique input repl a0 a r pre rest :
  pass2 input repl a0 a r pre rest ->
  unique_ids (repl ++ input) -> unique_ids (pre ++ rest).
Proof.
  intros [(X & Y & Hin & Hpre & _) _ _].
  apply (unique_ids_part _ _ (lease_id <$> (drop r repl ++ X))).
  rewrite Hin, Hpre, !fmap_app, set_Status_ids.
  rewrite <- (take_drop r repl) at 1. rewrite fmap_app. solve_Permutation.
Qed.

(** ** The whole refresh *)

(** [s'] is [s] refreshed, and [a] the accumulator the refresh returns. *)
Record refreshed_set (at_ : Time) (s s' : LeaseSet) (a : Accumulator) : Prop := {
  rs_split : exists dropped repl kept pre X Y,
    s ≡ₚ dropped ++ repl ++ kept
    /\ Forall (stale at_) dropped
    /\ Forall (fun l => ls_Status l = Queued /\ ~ stale at_ l) repl
    /\ Forall2 (refreshed at_) kept pre
    /\ pre ≡ₚ X ++ Y
    /\ Forall (fun l => ls_Status l = Released) X
    /\ ls_HostUser <$> X ≡ₚ ls_HostUser <$> repl
    /\ s' ≡ₚ Y ++ (set_Status Active <$> repl);
  rs_sync : acc_sync a [] s';
  rs_waiting l : l ∈ s' -> ls_Status l = Queued ->
    (ls_Limit l <= consumption (ls_Strategy l) s')%N;
  rs_safe strat L : sorted_set s -> Forall (within strat L) s ->
    (consumption strat s' <= N.max L (consumption strat s))%N;
}.

Lemma acc_sync_perm a repl s s' : s ≡ₚ s' -> acc_sync a repl s -> acc_sync a repl s'.
Proof. intros Hp [? ? Ha Hr ? ?]. split; intros; rewrite <- ?Hp; eauto. Qed.

Lemma filter_all (P : Lease -> Prop) `{forall l, Decision (P l)} s : Forall P s -> filter P s = s.
Proof. induction 1 as [|l s Hl Hs IH]; [done|]. rewrite filter_cons_True by done. by rewrite IH. Qed.

Lemma HostUser_set_Status st (s : LeaseSet) : ls_HostUser <$> (set_Status st <$> s) = ls_HostUser <$> s.
Proof. induction s as [|l s IH]; [done|]. cbn. by rewrite IH. Qed.

Lemma activated_upto (s : LeaseSet) : Forall (status_upto 1) (set_Status Active <$> s).
Proof. apply Forall_fmap, Forall_true. intros l. apply status_upto_1. by left. Qed.

Lemma released_upto s : Forall (fun l => ls_Status l = Released) s -> Forall (status_upto 1) s.
Proof. intros H. eapply Forall_impl; [exact H|]. intros l Hl. apply status_upto_1. by right. Qed.

(** Swapping released leases for activated ones of the same consumers. *)
Lemma swap_HostUsers X Y repl :
  Forall (fun l => ls_Status l = Released) X ->
  ls_HostUser <$> X ≡ₚ ls_HostUser <$> repl ->
  ls_HostUser <$> filter (status_upto 1) (X ++ Y)
  ≡ₚ ls_HostUser <$> filter (status_upto 1) (Y ++ (set_Status Active <$> repl)).
Proof.
  intros HX Hhu. rewrite !filter_app, !fmap_app, (filter_all _ X) by by apply released_upto.
  rewrite (filter_all _ (set_Status Active <$> repl)) by apply activated_upto.
  rewrite HostUser_set_Status, Hhu. solve_Permutation.
Qed.

Lemma count_released_by c X :
  Forall (fun l => ls_Status l = Released) X ->
  count (with_status Released c) X = count (by_consumer c) X
  /\ count (with_status Active c) X = 0%N.
Proof.
  intros HX. rewrite Forall_forall in HX. split.
  - apply count_ext. intros l Hl. unfold with_status, by_consumer. specialize (HX l Hl). tauto.
  - apply count_0. intros l Hl [Hs _]. specialize (HX l Hl). cbn in HX. rewrite HX in Hs. done.
Qed.

Lemma count_activated_by c (s : LeaseSet) :
  count (with_status Active c) (set_Status Active <$> s) = count (by_consumer c) s
  /\ count (with_status Released c) (set_Status Active <$> s) = 0%N.
Proof.
  induction s as [|l s [IH1 IH2]]; [done|]. rewrite fmap_cons, !count_cons, IH1, IH2.
  unfold with_status, by_consumer, ls_HostUser. cbn.
  split; repeat case_decide; try lia; try tauto; exfalso; unfold Active, Released in *;
    intuition congruence.
Qed.

Lemma count_HostUsers c s1 s2 :
  ls_HostUser <$> s1 ≡ₚ ls_HostUser <$> s2 -> count (by_consumer c) s1 = count (by_consumer c) s2.
Proof.
  assert (Hc : forall s, count (by_consumer c) s = N.of_nat (length (filter (fun x => x = c) (ls_HostUser <$> s)))).
  { induction s as [|l s IH]; [done|]. rewrite count_by_consumer_cons, IH, fmap_cons, filter_cons.
    case_decide; cbn [length]; lia. }
  intros Hp. by rewrite !Hc, Hp.
Qed.

Lemma acc_sync_swap a a' X Y repl :
  acc_sync a repl (X ++ Y) ->
  Forall (fun l => ls_Status l = Released) X ->
  ls_HostUser <$> X ≡ₚ ls_HostUser <$> repl ->
  acc_total a' = acc_total a -> acc_active a' = acc_active a ->
  acc_released a' = acc_released a -> acc_consumed a' = acc_consumed a ->
  (forall c, counter_get (acc_replacements a') c = 0%N) ->
  (forall c, acc_replacements a' !! c <> Some 0%N) ->
  acc_sync a' [] (Y ++ (set_Status Active <$> repl)).
Proof.
  intros [Ht Hc Ha Hr Hp Hn] HX Hhu Et Ea Er Ec Hz Hn'.
  pose proof (swap_HostUsers X Y repl HX Hhu) as Hsw.
  split; intros; rewrite ?Et, ?Ec, ?Ea, ?Er, ?Ht, ?Hc, ?Hz; try done.
  - apply Permutation_length in Hsw. rewrite !length_fmap in Hsw. unfold count. by rewrite Hsw.
  - unfold holders. by apply list_to_set_perm_L.
  - rewrite Ha, !count_app, (proj2 (count_released_by c X HX)), (proj1 (count_activated_by c repl)).
    rewrite count_nil. lia.
  - specialize (Hr c). rewrite !count_app, (proj1 (count_released_by c X HX)) in Hr.
    rewrite (count_HostUsers c _ _ Hhu) in Hr.
    rewrite !count_app, (proj2 (count_activated_by c repl)), count_nil. lia.
Qed.

Section Refresh.
Context `{SO : Sorter, HSO : !SorterSpec SO}.

Lemma pass2_rule repl a0 outs tx :
  acc_sync a0 repl outs -> tx_leases tx ≡ₚ outs ->
  exists a r tx' outs' ops,
    Tx_ProcessReverse (refresh_second repl) tx (a0, 0) = Ret (a, r, tx')
    /\ tx_resource tx' = tx_resource tx /\ tx_revision tx' = tx_revision tx
    /\ tx_leases tx' = Sort outs' /\ tx_ops tx' = tx_ops tx ++ ops
    /\ pass2 (tx_leases tx) repl a0 a r outs' []
    /\ (unique_ids (repl ++ outs) -> journal unique_ids ops (tx_leases tx) outs').
Proof.
  intros Hsync Hin. rewrite ProcessReverse_Process. set (input := tx_leases tx).
  set (P := fun (st : Accumulator * nat) pre rest => pass2 input repl a0 st.1 st.2 pre rest).
  assert (Pstep : forall st pre l rest, P st pre (l :: rest) ->
    exists st' iter, refresh_second repl st (mkIter OpNone l) = Ret (st', iter)
      /\ P st' (pre ++ iter_out l iter) rest).
  { intros [a r] pre l rest HP. unfold refresh_second. cbn [iter_Lease].
    case_decide as Hs; [do 2 eexists; split; [done|]; apply pass2_skip; auto|].
    case_decide as Hr; [do 2 eexists; split; [done|]; apply pass2_skip; auto|].
    destruct (pass2_replace _ _ _ _ _ _ _ _ HP) as (x & a' & Hx & Ha' & HP').
    - by destruct (decide (ls_Status l = Released)).
    - unfold Accumulator_Replacements in Hr. cbn [fst]. lia.
    - cbn [fst snd] in *. rewrite Ha'. cbn. rewrite Hx. by do 2 eexists. }
  destruct (Process_rule (refresh_second repl) P Pstep tx (a0, 0))
    as ([a r] & tx1 & outs' & ops & Hp & Hr & Hv & Hl & Ho & HP & Hj).
  { by apply (pass2_start _ _ _ outs). }
  exists a, r, tx1, outs', ops. split_and!; try done.
  intros Hu. eapply journal_mono; [|exact Hj].
  intros t ([a1 r1] & pre & rest & Hp1 & ->).
  apply (pass2_unique _ _ _ _ _ _ _ Hp1). unfold input. unfold unique_ids in *.
  rewrite fmap_app in *. by rewrite Hin.
Qed.

Lemma pass2_done input repl a0 a r pre :
  pass2 input repl a0 a r pre [] ->
  exists X Y, input ≡ₚ X ++ Y /\ Forall (fun l => ls_Status l = Released) X
    /\ ls_HostUser <$> X ≡ₚ ls_HostUser <$> repl
    /\ pre ≡ₚ Y ++ (set_Status Active <$> repl)
    /\ (forall c, counter_get (acc_replacements a) c = 0%N).
Proof.
  intros [(X & Y & Hin & Hpre & HX & dn & pend & Hrep & Hdn & Hhu & Hcnt & Hle) _ _].
  assert (pend = []) as ->.
  { apply no_consumer. intros c. specialize (Hle c). rewrite count_nil in Hle. lia. }
  rewrite app_nil_r in *. exists X, Y. split_and!; try done.
  - by rewrite Hhu, Hrep.
  - rewrite Hpre, take_ge; [done|]. rewrite Hrep. lia.
Qed.

Lemma replacements_none a repl outs :
  acc_sync a repl outs -> Accumulator_ReplacementsRecorded a = false -> repl = [].
Proof.
  intros [_ _ _ _ Hp _]. unfold Accumulator_ReplacementsRecorded.
  rewrite bool_decide_eq_false. intros Hsz. apply no_consumer. intros c. rewrite <- Hp.
  unfold counter_get. rewrite (map_size_empty_inv (acc_replacements a)) by lia. done.
Qed.

Lemma pass1_refreshed at_ s a repl outs X Y s' a' :
  pass1 at_ s a repl outs [] -> (sorted_set s -> pass1_safe s outs []) ->
  outs ≡ₚ X ++ Y -> Forall (fun l => ls_Status l = Released) X ->
  ls_HostUser <$> X ≡ₚ ls_HostUser <$> repl ->
  s' ≡ₚ Y ++ (set_Status Active <$> repl) ->
  acc_sync a' [] s' -> refreshed_set at_ s s' a'.
Proof.
  intros [(dropped & kept & Hin & Hd & Hk) Hrep Hsync Hw] Hsafe Hout HX Hhu Hs' Hsync'.
  assert (Hcons : forall strat, consumption strat s' = consumption strat outs).
  { intros strat. rewrite Hs', Hout. symmetry.
    by apply consumption_HostUsers, swap_HostUsers. }
  rewrite app_nil_r in Hin. split.
  - exists dropped, repl, kept, outs, X, Y. done.
  - done.
  - intros l Hl Hq. rewrite Hcons. apply Hw; [|done]. rewrite Hs' in Hl. rewrite Hout.
    apply elem_of_app in Hl as [Hl|(y & -> & Hy)%list_elem_of_fmap];
      [by apply elem_of_app; right|done].
  - intros strat L Hsort HL. rewrite Hcons.
    destruct (Hsafe Hsort) as (dn & _ & _ & H). by apply H.
Qed.

(** [Refresh] never panics and its loops end; its result is the refreshed
    set, sorted, and its operations are those of a journal. *)
Lemma Refresh_rule tx at_ :
  exists a tx' ops, Refresh tx at_ = Ret (a, tx')
    /\ tx_resource tx' = tx_resource tx /\ tx_revision tx' = tx_revision tx
    /\ tx_ops tx' = tx_ops tx ++ ops
    /\ sorted_set (tx_leases tx')
    /\ refreshed_set at_ (tx_leases tx) (tx_leases tx') a
    /\ (unique_ids (tx_leases tx) ->
        journal unique_ids ops (tx_leases tx) (tx_leases tx')).
Proof.
  destruct (pass1_rule at_ tx)
    as (a & repl & tx1 & outs & ops & Hrun & Hr & Hv & Hl & Ho & HP & HS & Hj).
  unfold Refresh. rewrite Hrun. cbn.
  assert (Hsync : acc_sync a repl outs) by apply HP.
  assert (Hperm : tx_leases tx1 ≡ₚ outs) by (rewrite Hl; apply Sort_perm).
  destruct (Accumulator_ReplacementsRecorded a) eqn:Hrec.
  - destruct (pass2_rule repl a outs tx1 Hsync Hperm)
      as (a' & r & tx2 & outs2 & ops2 & Hrun2 & Hr2 & Hv2 & Hl2 & Ho2 & HP2 & Hj2).
    rewrite Hrun2. cbn. exists a', tx2, (ops ++ ops2).
    pose proof (p2_same _ _ _ _ _ _ _ HP2) as (Et & Ea & Er & Ec).
    pose proof (p2_nonzero _ _ _ _ _ _ _ HP2) as Hnz.
    destruct (pass2_done _ _ _ _ _ _ HP2) as (X & Y & Hin & HX & Hhu & Hpre & Hz).
    assert (Hp2 : tx_leases tx2 ≡ₚ outs2) by (rewrite Hl2; apply Sort_perm).
    assert (Hout : outs ≡ₚ X ++ Y) by (by rewrite <- Hin).
    split_and!; [done|congruence|congruence|by rewrite Ho2, Ho, (assoc_L (++))| | |].
    + rewrite Hl2. apply Sort_sorted.
    + eapply pass1_refreshed; eauto; [by rewrite Hp2|].
      apply (acc_sync_perm _ _ (Y ++ (set_Status Active <$> repl))); [by rewrite Hp2, Hpre|].
      apply (acc_sync_swap a a' X Y repl); try done. by apply (acc_sync_perm _ _ outs).
    + intros Hu. pose proof (pass1_unique _ _ _ _ _ _ HP Hu) as Hu1. rewrite app_nil_r in Hu1.
      eapply journal_app; [apply _|by apply Hj|].
      eapply journal_perm_r; [|symmetry; exact Hp2].
      apply (journal_perm_l _ _ _ (tx_leases tx1)); [apply _|done|by apply Hj2].
  - assert (repl = []) as -> by by apply (replacements_none a _ outs).
    exists a, tx1, ops. split_and!; try done.
    + rewrite Hl. apply Sort_sorted.
    + eapply (pass1_refreshed _ _ _ _ _ [] outs); eauto; [by rewrite Hperm, app_nil_r|].
      by apply (acc_sync_perm _ _ outs).
    + intros Hu. eapply journal_perm_r; [by apply Hj|]. by rewrite Hperm.
Qed.
End Refresh.

Lemma Forall2_elem_r {A B} (R : A -> B -> Prop) s t y :
  Forall2 R s t -> y ∈ t -> exists x, x ∈ s /\ R x y.
Proof.
  intros H Hy. apply list_elem_of_lookup in Hy as [i Hy].
  destruct (Forall2_lookup_r _ _ _ _ _ H Hy) as (x & Hx & HR).
  exists x. split; [by eapply list_elem_of_lookup_2|done].
Qed.

(** Where a lease of the refreshed set comes from. *)
Lemma refreshed_set_elem at_ s s' a l' :
  refreshed_set at_ s s' a -> l' ∈ s' ->
  exists l, l ∈ s /\ refreshed at_ l l'.
Proof.
  intros [(dropped & repl & kept & pre & X & Y & Hs & Hd & Hrep & Hk & Hpre & HX & Hhu & Hs') _ _ _].
  rewrite Hs'. intros [Hl|(l & -> & Hl)%list_elem_of_fmap]%elem_of_app.
  - assert (Hl' : l' ∈ pre) by (rewrite Hpre; apply elem_of_app; by right).
    destruct (Forall2_elem_r _ _ _ _ Hk Hl') as (l & Hlk & HR). exists l. split; [|done].
    rewrite Hs. rewrite !elem_of_app. auto.
  - rewrite Forall_forall in Hrep. destruct (Hrep l Hl) as [Hq Hst].
    exists l. split; [|by constructor]. rewrite Hs, !elem_of_app. auto.
Qed.
