(* ===== verification/RefreshProps.v ===== *)
(** * What a refresh guarantees

    The properties of [leaseutil.Refresh] that the rest of the program relies
    on: it returns, it never exceeds the limits, it leaves no capacity unused,
    it removes what is stale, it invents and loses no lease, and its
    accumulator agrees with the statistics of the set it leaves. *)

From S2P Require Import Prelude GoTime Lease LeaseSet Tx LeaseUtil Refresh.

(** The leases the program creates: only a released lease has a release time,
    and decay periods are not negative. *)
Definition well_formed (l : Lease) : Prop :=
  (ls_Status l <> Released -> ls_Released l = zero_time) /\ (0 <= ls_Decay l)%Z.

(** Nothing is left to be done about the lease at the time given. *)
Definition current (at_ : Time) (l : Lease) : Prop :=
  ~ stale at_ l /\ (ls_Status l = Active -> Lease_Expired l at_ = false).

Lemma stale_Active at_ l : ls_Status l = Active -> stale at_ l -> Lease_Decayed l at_ = true.
Proof. unfold stale, Active, Released, Queued. intuition congruence. Qed.
Lemma stale_Released at_ l : ls_Status l = Released -> stale at_ l -> Lease_Decayed l at_ = true.
Proof. unfold stale, Active, Released, Queued. intuition congruence. Qed.
Lemma fresh_Queued at_ l : ls_Status l = Queued -> ~ stale at_ l -> Lease_Expired l at_ = false.
Proof. unfold stale. intros Hs Hn. apply not_true_iff_false. tauto. Qed.
Lemma fresh_Active at_ l : ls_Status l = Active -> ~ stale at_ l -> Lease_Decayed l at_ = false.
Proof. unfold stale. intros Hs Hn. apply not_true_iff_false. tauto. Qed.

Lemma promoted_current at_ l :
  well_formed l -> ls_Status l = Queued -> ~ stale at_ l ->
  current at_ (set_Status Active l) /\ well_formed (set_Status Active l).
Proof.
  intros [Hr Hd] Hq Hs. pose proof (fresh_Queued _ _ Hq Hs) as He.
  assert (Hz : ls_Released l = zero_time) by (apply Hr; rewrite Hq; auto with lease).
  split; [|by split]. split; [|done]. intros Hst. apply stale_Active in Hst; [|done].
  apply Decayed_true in Hst. apply Expired_false in He.
  rewrite DecayTime_unreleased in Hst by done. cbn in Hst. lia.
Qed.

Lemma refreshed_current at_ l l' :
  refreshed at_ l l' -> well_formed l -> current at_ l' /\ well_formed l'.
Proof.
  intros Href Hwf. destruct Href as [l Hs He|l Ha Hs He|l Hq Hs].
  - split; [|done]. split; done.
  - destruct Hwf as [Hr Hd]. split; [|split; [|done]]; [split|]; try done.
    intros Hst. apply stale_Released in Hst; [|done].
    pose proof (fresh_Active _ _ Ha Hs) as Hn. apply Decayed_false in Hn.
    rewrite DecayTime_unreleased in Hn by (apply Hr; rewrite Ha; auto with lease).
    apply Decayed_true in Hst. change (Lease_DecayTime (expire l)) with
      (Lease_DecayTime (set_Released (Lease_ExpirationTime l) l)) in Hst.
    rewrite DecayTime_released_at_expiration in Hst. lia.
  - by apply promoted_current.
Qed.

Lemma refreshed_set_current at_ s s' a :
  refreshed_set at_ s s' a -> Forall well_formed s ->
  Forall (fun l => current at_ l /\ well_formed l) s'.
Proof.
  intros Hrs Hwf. rewrite Forall_forall in *. intros l' Hl'.
  destruct (refreshed_set_elem _ _ _ _ _ Hrs Hl') as (l & Hl & HR).
  apply (refreshed_current _ _ _ HR). by apply Hwf.
Qed.

(** A released lease of the refreshed set that has made room for another. *)
Lemma refreshed_set_fate at_ s s' a l :
  refreshed_set at_ s s' a -> l ∈ s ->
  stale at_ l
  \/ (exists l', l' ∈ s' /\ refreshed at_ l l')
  \/ (exists l1 r, refreshed at_ l l1 /\ ls_Status l1 = Released
        /\ r ∈ s /\ ls_Status r = Queued /\ ls_HostUser r = ls_HostUser l
        /\ set_Status Active r ∈ s').
Proof.
  intros [(dropped & repl & kept & pre & X & Y & Hs & Hd & Hrep & Hk & Hpre & HX & Hhu & Hs') _ _ _].
  rewrite Hs. intros [Hl|[Hl|Hl]%elem_of_app]%elem_of_app.
  - left. rewrite Forall_forall in Hd. by apply Hd.
  - right; left. exists (set_Status Active l). rewrite Hs'. split.
    + apply elem_of_app; right. by apply list_elem_of_fmap_2.
    + rewrite Forall_forall in Hrep. destruct (Hrep l Hl). by constructor.
  - apply list_elem_of_lookup in Hl as [i Hl].
    destruct (Forall2_lookup_l _ _ _ _ _ Hk Hl) as (l1 & Hl1 & HR).
    apply list_elem_of_lookup_2 in Hl1. rewrite Hpre in Hl1.
    apply elem_of_app in Hl1 as [Hl1|Hl1].
    + right; right. assert (Hc : ls_HostUser l1 ∈ ls_HostUser <$> X) by by apply list_elem_of_fmap_2.
      rewrite Hhu in Hc. apply list_elem_of_fmap in Hc as (r & Hr & Hrin). exists l1, r.
      rewrite Forall_forall in HX, Hrep. destruct (Hrep r Hrin) as [Hq _].
      rewrite <- Hr, (refreshed_HostUser _ _ _ HR).
      split_and!; [done|by apply HX| |done..|].
      * rewrite Hs, !elem_of_app. auto.
      * rewrite Hs'. apply elem_of_app; right. by apply list_elem_of_fmap_2.
    + right; left. exists l1. rewrite Hs'. split; [by apply elem_of_app; left|done].
Qed.

Lemma acc_counts a s :
  acc_sync a [] s ->
  (forall strat, Accumulator_Total a strat = consumption strat s)
  /\ (forall c, Accumulator_Active a c = count (with_status Active c) s)
  /\ (forall c, Accumulator_Released a c = count (with_status Released c) s)
  /\ (forall c, Accumulator_Replacements a c = 0%N).
Proof.
  intros Hs. split; [intros; by apply (acc_sync_Total _ [])|].
  destruct Hs as [_ _ Ha Hr Hp _]. split_and!; intros c.
  - unfold Accumulator_Active. rewrite Ha, count_nil. lia.
  - unfold Accumulator_Released. specialize (Hr c). rewrite count_nil in Hr. lia.
  - apply Hp.
Qed.

(** ** The properties *)

(** A lease set to try them on: one expired active lease, one active lease and
    two queued ones, under a limit of two. *)
Definition sample_lease (host user id : string) (st : Status) (started renewed : Time)
  (limit : N) : Lease :=
  mkLease (mkSubject "res" (mkInstance host user id)) ∅ st started renewed 0%Z
    Strategy_Instance limit (10 * Second)%Z (60 * Second)%Z (mkRefresh 0%Z 0%Z).

Definition sample_set : LeaseSet :=
  [sample_lease "h1" "ann" "1" Active (1 * Second)%Z (1 * Second)%Z 2;
   sample_lease "h2" "bob" "1" Active (5 * Second)%Z (15 * Second)%Z 2;
   sample_lease "h1" "ann" "2" Queued (6 * Second)%Z (15 * Second)%Z 2;
   sample_lease "h3" "cat" "1" Queued (7 * Second)%Z (15 * Second)%Z 2].

Definition sample_tx : Tx := NewTx "res" 3 sample_set.

Lemma sample_sorted : sorted_set sample_set.
Proof. unfold sample_set. repeat constructor. Qed.

Lemma sample_unique : unique_ids sample_set.
Proof. unfold unique_ids. apply (bool_decide_unpack _). vm_compute. exact I. Qed.

Lemma sample_well_formed : Forall well_formed sample_set.
Proof. unfold sample_set. repeat constructor; intros; done. Qed.

Section Properties.
Context `{SO : Sorter, HSO : !SorterSpec SO}.

(** C8. Limit safety.  A refresh of a sorted lease set returns (it neither
    panics nor loops) and, when every queued lease counts by the strategy
    [strat] under a limit of at most [L], the consumption it leaves is within
    [L], or no higher than it was. *)
Theorem refresh_within_limits tx at_ strat L :
  sorted_set (tx_leases tx) ->
  Forall (within strat L) (tx_leases tx) ->
  exists a tx', Refresh tx at_ = Ret (a, tx')
    /\ (consumption strat (tx_leases tx') <= N.max L (consumption strat (tx_leases tx)))%N.
Proof.
  intros Hs Hw. destruct (Refresh_rule tx at_) as (a & tx' & ops & Hrun & _ & _ & _ & _ & Hrs & _).
  exists a, tx'. split; [done|]. by apply (rs_safe _ _ _ _ Hrs).
Qed.

(** C27. Work conservation.  After a refresh a lease is left queued only if the
    consumption under its strategy has reached its limit. *)
Theorem refresh_leaves_no_capacity tx at_ :
  exists a tx', Refresh tx at_ = Ret (a, tx')
    /\ forall l, l ∈ tx_leases tx' -> ls_Status l = Queued ->
         (ls_Limit l <= consumption (ls_Strategy l) (tx_leases tx'))%N.
Proof.
  destruct (Refresh_rule tx at_) as (a & tx' & ops & Hrun & _ & _ & _ & _ & Hrs & _).
  exists a, tx'. split; [done|]. apply (rs_waiting _ _ _ _ Hrs).
Qed.

(** C28. Cleaning.  After a refresh of well-formed leases no lease is stale
    (decayed, or expired while queued), no active lease has expired, and the
    leases are still well formed. *)
Theorem refresh_removes_stale tx at_ :
  Forall well_formed (tx_leases tx) ->
  exists a tx', Refresh tx at_ = Ret (a, tx')
    /\ Forall (fun l => current at_ l /\ well_formed l) (tx_leases tx').
Proof.
  intros Hwf. destruct (Refresh_rule tx at_) as (a & tx' & ops & Hrun & _ & _ & _ & _ & Hrs & _).
  exists a, tx'. split; [done|]. by apply (refreshed_set_current _ _ _ _ Hrs).
Qed.

(** C29. Conservation.  The recorded operations lead from the original leases to
    the refreshed ones through sets in which every lease is identified by its
    resource and instance; and a lease that a refresh removes was stale, or
    was released and a queued lease of the same consumer took its place. *)
Theorem refresh_conserves_leases tx at_ :
  unique_ids (tx_leases tx) ->
  exists a tx' ops, Refresh tx at_ = Ret (a, tx') /\ tx_ops tx' = tx_ops tx ++ ops
    /\ journal unique_ids ops (tx_leases tx) (tx_leases tx')
    /\ forall l, l ∈ tx_leases tx ->
         stale at_ l
         \/ (exists l', l' ∈ tx_leases tx' /\ lease_id l' = lease_id l /\ refreshed at_ l l')
         \/ (exists l1 r, refreshed at_ l l1 /\ ls_Status l1 = Released
               /\ r ∈ tx_leases tx /\ ls_Status r = Queued
               /\ ls_HostUser r = ls_HostUser l
               /\ set_Status Active r ∈ tx_leases tx').
Proof.
  intros Hu. destruct (Refresh_rule tx at_) as (a & tx' & ops & Hrun & _ & _ & Hops & _ & Hrs & Hj).
  exists a, tx', ops. split_and!; [done..|by apply Hj|].
  intros l Hl. destruct (refreshed_set_fate _ _ _ _ _ Hrs Hl) as [H|[(l' & Hl' & HR)|H]]; [by left| |by right; right].
  right; left. exists l'. split_and!; [done|by apply (refreshed_id at_)|done].
Qed.

(** C30. Accounting.  The accumulator that a refresh returns counts the leases
    it leaves: its totals are the consumption that [Set.Stats] reports, its
    per-consumer counts those of the set, and no replacement is pending. *)
Theorem refresh_accumulator_agrees tx at_ :
  exists a tx', Refresh tx at_ = Ret (a, tx') /\ sorted_set (tx_leases tx')
    /\ (forall strat, strat = Strategy_Instance \/ strat = Strategy_Consumer ->
          Stats_Consumed (Set_Stats (tx_leases tx')) strat = Ret (Accumulator_Total a strat))
    /\ (forall c, Accumulator_Active a c = count (with_status Active c) (tx_leases tx'))
    /\ (forall c, Accumulator_Released a c = count (with_status Released c) (tx_leases tx'))
    /\ (forall c, Accumulator_Replacements a c = 0%N).
Proof.
  destruct (Refresh_rule tx at_) as (a & tx' & ops & Hrun & _ & _ & _ & Hsort & Hrs & _).
  exists a, tx'. destruct (acc_counts _ _ (rs_sync _ _ _ _ Hrs)) as (Ht & Ha & Hr & Hp).
  split_and!; try done. intros strat Hst. rewrite Ht. by apply consumption_stats.
Qed.
End Properties.

Lemma refresh_within_limits_witness :
  exists a tx', Refresh sample_tx (20 * Second)%Z = Ret (a, tx')
    /\ (consumption Strategy_Instance (tx_leases tx') <= 2)%N.
Proof.
  destruct (refresh_within_limits sample_tx (20 * Second)%Z Strategy_Instance 2)
    as (a & tx' & Hrun & Hc).
  - exact sample_sorted.
  - repeat constructor; done.
  - exists a, tx'. split; [exact Hrun|]. exact Hc.
Defined.

Lemma refresh_leaves_no_capacity_witness :
  exists a tx', Refresh sample_tx (20 * Second)%Z = Ret (a, tx')
    /\ forall l, l ∈ tx_leases tx' -> ls_Status l = Queued ->
         (ls_Limit l <= consumption (ls_Strategy l) (tx_leases tx'))%N.
Proof. exact (refresh_leaves_no_capacity sample_tx (20 * Second)%Z). Defined.

Lemma refresh_removes_stale_witness :
  exists a tx', Refresh sample_tx (20 * Second)%Z = Ret (a, tx')
    /\ Forall (fun l => current (20 * Second)%Z l /\ well_formed l) (tx_leases tx').
Proof. exact (refresh_removes_stale sample_tx (20 * Second)%Z sample_well_formed). Defined.

Lemma refresh_conserves_leases_witness :
  exists a tx' ops, Refresh sample_tx (20 * Second)%Z = Ret (a, tx') /\ tx_ops tx' = [] ++ ops
    /\ journal unique_ids ops sample_set (tx_leases tx').
Proof.
  destruct (refresh_conserves_leases sample_tx (20 * Second)%Z sample_unique)
    as (a & tx' & ops & H1 & H2 & H3 & _).
  exists a, tx', ops. split_and!; [exact H1|exact H2|exact H3].
Defined.

Lemma refresh_accumulator_agrees_witness :
  exists a tx', Refresh sample_tx (20 * Second)%Z = Ret (a, tx') /\ sorted_set (tx_leases tx').
Proof.
  destruct (refresh_accumulator_agrees sample_tx (20 * Second)%Z) as (a & tx' & H1 & H2 & _).
  exists a, tx'. split; [exact H1|exact H2].
Defined.
