(* ===== verification/Policy.v ===== *)
(** * Policies (package [policy])

    Criteria (criteria.go), policies (policy.go) with the byte encoding that
    their hash is computed from (hashwriter.go), and policy sets (set.go).

    Strings are byte strings, as in Go.  Lower-casing, regular expressions and
    the SHA-3 digest are code the source only calls: they are the class
    [GoText] and the section variable [sum224].  The order in which Go ranges
    over a map is unspecified and may differ each time: it is an argument
    ([orders]) of the definitions that range over one. *)

From Stdlib Require Ascii.
From S2P Require Import Prelude GoStrings GoTime Lease LeaseSet.

(** ** Text functions of the standard library *)

Class GoText := {
  ToLower : string -> string;
  (** [regexp.Compile]: [None] is an error, otherwise the compiled expression
      as its [MatchString]. *)
  regexp_Compile : string -> option (string -> bool);
}.

(** ** policy/constants.go *)

Definition ComparisonExact : string := "exact".
Definition ComparisonIgnoreCase : string := "ignorecase".
Definition ComparisonRegex : string := "regex".

Definition DefaultLimit : N := (2 ^ 64 - 1)%N.
Definition DefaultDuration : Duration := (Minute * 15)%Z.
Definition DefaultStrategy : Strategy := Strategy_Instance.

(** ** policy/criteria.go *)

Record Criterion := mkCriterion {
  crit_Key : string;
  crit_Comparison : string;
  crit_Value : string;
}.

Abbreviation Criteria := (list Criterion) (only parsing).

#[export] Instance Criterion_eq_dec : EqDecision Criterion.
Proof. solve_decision. Defined.

Definition Criterion_Match `{GoText} (c : Criterion) (props : Properties) : bool :=
  let value := Properties_get props (crit_Key c) in
  if decide (crit_Comparison c = ComparisonExact) then bool_decide (crit_Value c = value)
  else if decide (crit_Comparison c = ComparisonIgnoreCase) then
    bool_decide (ToLower (crit_Value c) = ToLower value)
  else if decide (crit_Comparison c = ComparisonRegex) then
    match regexp_Compile (crit_Value c) with
    | None => false
    | Some matchString => matchString value
    end
  else false.

Fixpoint Criteria_loop `{GoText} (c : Criteria) (props : Properties) : bool :=
  match c with
  | [] => true
  | criterion :: c => if negb (Criterion_Match criterion props) then false else Criteria_loop c props
  end.

Definition Criteria_Match `{GoText} (c : Criteria) (props : Properties) : bool :=
  if decide (length c = 0) then false else Criteria_loop c props.

Definition Criterion_String (c : Criterion) : string :=
  let output := crit_Key c in
  let output := output +:+
    (if decide (crit_Comparison c = ComparisonExact) then "="
     else if decide (crit_Comparison c = ComparisonIgnoreCase) then "≈"
     else if decide (crit_Comparison c = ComparisonRegex) then "~"
     else "." +:+ crit_Comparison c +:+ ".") in
  output +:+ crit_Value c.

(** [strings.Join]. *)
Fixpoint strings_Join (parts : list string) (sep : string) : string :=
  match parts with
  | [] => ""
  | [p] => p
  | p :: ps => p +:+ sep +:+ strings_Join ps sep
  end.

Definition Criteria_String (c : Criteria) : string := strings_Join (Criterion_String <$> c) "⋅".

(** ** policy/policy.go *)

Record Policy := mkPolicy {
  pol_Resource : string;
  pol_Criteria : Criteria;
  pol_Strategy : Strategy;
  pol_Limit : N;
  pol_Duration : Duration;
  pol_Decay : Duration;
  pol_Refresh : Refresh_;
  pol_Properties : Properties;
}.

#[export] Instance Policy_eq_dec : EqDecision Policy.
Proof. solve_decision. Defined.

Definition Policy_New (resource : string) (strat : Strategy) (limit : N) (duration : Duration)
  (criteria : Criteria) : Policy :=
  mkPolicy resource criteria strat limit duration 0%Z (mkRefresh 0%Z 0%Z) ∅.

Definition Policy_Match `{GoText} (p : Policy) (props : Properties) : bool :=
  Criteria_Match (pol_Criteria p) props.

(** ** policy/hashwriter.go *)

(** [binary.LittleEndian.PutUint64] of [uint64(v)]. *)
Definition PutUint64 (v : Z) : bytes :=
  (fun i => Ascii.ascii_of_N (Z.to_N (Z.land (Z.shiftr v (8 * Z.of_nat i)) 255))) <$> seq 0 8.

Definition WriteInt (w : bytes) (v : Z) : bytes := w ++ PutUint64 v.
Definition WriteDuration (w : bytes) (v : Duration) : bytes := w ++ PutUint64 v.
Definition WriteString (w : bytes) (s : string) : bytes :=
  WriteInt w (Z.of_nat (String.length s)) ++ String.list_ascii_of_string s.

(** [Policy.Hash], up to the digest: [props] is the order in which the map of
    properties is ranged over. *)
Definition Hash_input (p : Policy) (props : list (string * string)) : bytes :=
  let w := WriteString [] (pol_Resource p) in
  let w := WriteInt w (Z.of_nat (length (pol_Criteria p))) in
  let w := foldl (fun w c =>
    let w := WriteString w (crit_Key c) in
    let w := WriteString w (crit_Comparison c) in
    WriteString w (crit_Value c)) w (pol_Criteria p) in
  let w := WriteString w (pol_Strategy p) in
  let w := WriteInt w (Z.of_N (pol_Limit p)) in
  let w := WriteDuration w (pol_Duration p) in
  let w := WriteDuration w (pol_Decay p) in
  let w := WriteDuration w (ref_Active (pol_Refresh p)) in
  let w := WriteDuration w (ref_Queued (pol_Refresh p)) in
  let w := WriteInt w (Z.of_nat (size (pol_Properties p))) in
  foldl (fun w kv => WriteString (WriteString w kv.1) kv.2) w props.

(** ** policy/set.go *)

Abbreviation PolicySet := (list Policy) (only parsing).

Definition PolicySet_MatchResource (s : PolicySet) (resource : string) : PolicySet :=
  filter (fun p => pol_Resource p = resource) s.

Definition PolicySet_Match `{GoText} (s : PolicySet) (props : Properties) : PolicySet :=
  filter (fun p => Policy_Match p props) s.

Fixpoint PolicySet_Strategy (s : PolicySet) : Strategy :=
  match s with
  | [] => DefaultStrategy
  | p :: s => if decide (pol_Strategy p = Strategy_Empty) then PolicySet_Strategy s
              else pol_Strategy p
  end.

Definition PolicySet_Limit (s : PolicySet) : N :=
  match s with
  | [] => DefaultLimit
  | p :: s => foldl (fun limit p => if decide (pol_Limit p < limit)%N then pol_Limit p else limit)
                (pol_Limit p) s
  end.

Definition PolicySet_Duration (s : PolicySet) : Duration :=
  match s with
  | [] => DefaultDuration
  | p :: s => foldl (fun d p => if decide (pol_Duration p < d)%Z then pol_Duration p else d)
                (pol_Duration p) s
  end.

Definition PolicySet_Decay (s : PolicySet) : Duration :=
  match s with
  | [] => 0%Z
  | p :: s => foldl (fun d p => if decide (d < pol_Decay p)%Z then pol_Decay p else d)
                (pol_Decay p) s
  end.

Fixpoint PolicySet_Refresh_loop (s : PolicySet) (refresh : Refresh_) : Refresh_ :=
  match s with
  | [] => refresh
  | p :: s =>
      let refresh :=
        if decide (ref_Active refresh = 0%Z /\ ref_Active (pol_Refresh p) <> 0%Z)
        then mkRefresh (ref_Active (pol_Refresh p)) (ref_Queued refresh) else refresh in
      let refresh :=
        if decide (ref_Queued refresh = 0%Z /\ ref_Queued (pol_Refresh p) <> 0%Z)
        then mkRefresh (ref_Active refresh) (ref_Queued (pol_Refresh p)) else refresh in
      if decide (ref_Active refresh <> 0%Z /\ ref_Queued refresh <> 0%Z) then refresh
      else PolicySet_Refresh_loop s refresh
  end.
Definition PolicySet_Refresh (s : PolicySet) : Refresh_ :=
  PolicySet_Refresh_loop s (mkRefresh 0%Z 0%Z).

Fixpoint PolicySet_Resource (s : PolicySet) : string :=
  match s with
  | [] => ""
  | p :: s => if decide (pol_Resource p <> "") then pol_Resource p else PolicySet_Resource s
  end.

(** The map [seen] of the source is never written: it stays empty. *)
Fixpoint PolicySet_Resources_loop (s : PolicySet) (seen : gmap string bool) : list string :=
  match s with
  | [] => []
  | p :: s =>
      let resource := pol_Resource p in
      if decide (resource <> "" /\ default false (seen !! resource) = false)
      then resource :: PolicySet_Resources_loop s seen
      else PolicySet_Resources_loop s seen
  end.
Definition PolicySet_Resources (s : PolicySet) : list string := PolicySet_Resources_loop s ∅.

Definition PolicySet_Properties (s : PolicySet) : Properties :=
  MergeProperties (pol_Properties <$> s).

(** ** Hashes and differences

    A hash is the digest of the encoding.  The [n]-th call of [Hash] ranges
    over the properties in the order [orders n]; a range over the map of hashed
    policies is [range].  Both orders are unspecified permutations. *)

Class MapOrder := {
  orders : nat -> Properties -> list (string * string);
  range : gmap bytes Policy -> list (bytes * Policy);
}.

Class MapOrderSpec (MO : MapOrder) : Prop := {
  orders_perm : forall n m, orders n m ≡ₚ map_to_list m;
  range_perm : forall m, range m ≡ₚ map_to_list m;
}.

Section Hash.
Context (sum224 : bytes -> bytes) `{MO : MapOrder}.

Definition Policy_Hash (n : nat) (p : Policy) : bytes :=
  sum224 (Hash_input p (orders n (pol_Properties p))).

(** The loops that fill the maps [a] and [b]: call [n] hashes the head. *)
Fixpoint hash_map (n : nat) (s : PolicySet) (m : gmap bytes Policy) : gmap bytes Policy :=
  match s with
  | [] => m
  | p :: s => hash_map (S n) s (<[Policy_Hash n p := p]> m)
  end.

Definition missing_from (m : gmap bytes Policy) (l : list (bytes * Policy)) : PolicySet :=
  snd <$> filter (fun kp => m !! kp.1 = None) l.

(** [None] is the nil slice. *)
Definition PolicySet_Diff (s next : option PolicySet) : option PolicySet * option PolicySet :=
  match s, next with
  | None, _ => (next, None)
  | Some _, None => (None, s)
  | Some s, Some next =>
      let a := hash_map 0 s ∅ in
      let b := hash_map (length s) next ∅ in
      (Some (missing_from a (range b)), Some (missing_from b (range a)))
  end.
End Hash.

(** ** Lemmas: encodings *)

Lemma PutUint64_length v : length (PutUint64 v) = 8.
Proof. reflexivity. Qed.

Lemma ascii_of_byte_inj a b :
  (0 <= a < 256)%Z -> (0 <= b < 256)%Z ->
  Ascii.ascii_of_N (Z.to_N a) = Ascii.ascii_of_N (Z.to_N b) -> a = b.
Proof.
  intros Ha Hb H. apply (f_equal Ascii.N_of_ascii) in H.
  rewrite !Ascii.N_ascii_embedding in H by lia. lia.
Qed.

Lemma byte_of_bounds v i : (0 <= Z.land (Z.shiftr v (8 * i)) 255 < 256)%Z.
Proof.
  change 255%Z with (Z.ones 8). rewrite Z.land_ones by lia.
  apply Z.mod_pos_bound. lia.
Qed.

Lemma PutUint64_inj v1 v2 : PutUint64 v1 = PutUint64 v2 -> (v1 mod 2 ^ 64 = v2 mod 2 ^ 64)%Z.
Proof.
  unfold PutUint64. intros H.
  assert (Hb : forall i : nat, i < 8 ->
    Z.land (Z.shiftr v1 (8 * Z.of_nat i)) 255 = Z.land (Z.shiftr v2 (8 * Z.of_nat i)) 255).
  { intros i Hi. apply (f_equal (fun l => l !! i)) in H. rewrite !list_lookup_fmap in H.
    rewrite lookup_seq_lt in H by lia. cbn in H. apply (inj Some) in H.
    eapply ascii_of_byte_inj; [apply byte_of_bounds..|done]. }
  rewrite <- !Z.land_ones by lia. apply Z.bits_inj'. intros n Hn.
  rewrite !Z.land_spec. destruct (decide (n < 64)%Z) as [Hlt|Hge].
  - assert (Hd : (8 * (n / 8) + n mod 8 = n)%Z) by (symmetry; apply Z.div_mod; lia).
    pose proof (Z.mod_pos_bound n 8 ltac:(lia)).
    assert (Hi : (0 <= n / 8 < 8)%Z) by (split; [apply Z.div_pos|apply Z.div_lt_upper_bound]; lia).
    specialize (Hb (Z.to_nat (n / 8)) ltac:(lia)). rewrite Z2Nat.id in Hb by lia.
    apply (f_equal (fun z => Z.testbit z (n mod 8))) in Hb.
    rewrite !Z.land_spec, !Z.shiftr_spec in Hb by lia.
    change 255%Z with (Z.ones 8) in Hb. rewrite (Z.ones_spec_low 8), !andb_true_r in Hb by lia.
    replace (n mod 8 + 8 * (n / 8))%Z with n in Hb by lia. by rewrite Hb.
  - rewrite (Z.ones_spec_high 64), !andb_false_r by lia. done.
Qed.

Lemma wrap64_mod v1 v2 :
  in_int64 v1 -> in_int64 v2 -> (v1 mod 2 ^ 64 = v2 mod 2 ^ 64)%Z -> v1 = v2.
Proof.
  unfold in_int64, int64_min, int64_max. intros H1 H2 H.
  assert (Hd : ((v1 - v2) mod 2 ^ 64 = 0)%Z) by (rewrite Zminus_mod, H, Z.sub_diag; done).
  apply Z.mod_divide in Hd as [k Hk]; [|lia]. assert (k = 0)%Z by lia. lia.
Qed.

Lemma PutUint64_app v1 v2 r1 r2 :
  PutUint64 v1 ++ r1 = PutUint64 v2 ++ r2 -> (v1 mod 2 ^ 64 = v2 mod 2 ^ 64)%Z /\ r1 = r2.
Proof.
  intros [H ->]%app_inj_1; [|by rewrite !PutUint64_length]. split; [|done]. by apply PutUint64_inj.
Qed.

Definition string_ok (s : string) : Prop := (Z.of_nat (String.length s) < 2 ^ 63)%Z.

Lemma of_nat_in_int64 n : (Z.of_nat n < 2 ^ 63)%Z -> in_int64 (Z.of_nat n).
Proof. unfold in_int64, int64_min, int64_max. lia. Qed.

Lemma list_ascii_inj s1 s2 :
  String.list_ascii_of_string s1 = String.list_ascii_of_string s2 -> s1 = s2.
Proof.
  intros H. rewrite <- (String.string_of_list_ascii_of_string s1), H.
  apply String.string_of_list_ascii_of_string.
Qed.

Lemma list_ascii_length s : length (String.list_ascii_of_string s) = String.length s.
Proof. induction s as [|c s IH]; cbn; [done|]. by rewrite IH. Qed.

Arguments PutUint64 : simpl never.

(** What one [WriteString] appends. *)
Definition str_bytes (s : string) : bytes :=
  PutUint64 (Z.of_nat (String.length s)) ++ String.list_ascii_of_string s.

Arguments str_bytes : simpl never.

Lemma WriteString_app w s : WriteString w s = w ++ str_bytes s.
Proof. unfold WriteString, WriteInt, str_bytes. by rewrite <- (assoc_L (++)). Qed.

Lemma str_bytes_app s1 s2 r1 r2 :
  string_ok s1 -> string_ok s2 ->
  str_bytes s1 ++ r1 = str_bytes s2 ++ r2 -> s1 = s2 /\ r1 = r2.
Proof.
  unfold str_bytes, string_ok. intros H1 H2. rewrite <- !(assoc_L (++)).
  intros [Hl H]%PutUint64_app. apply wrap64_mod in Hl; [|by apply of_nat_in_int64..].
  apply app_inj_1 in H as [H ->]; [|rewrite !list_ascii_length; lia].
  split; [|done]. by apply list_ascii_inj.
Qed.

(** An encoder whose output can be split off again. *)
Definition prefix_free {A} (ok : A -> Prop) (f : A -> bytes) : Prop :=
  forall x y r1 r2, ok x -> ok y -> f x ++ r1 = f y ++ r2 -> x = y /\ r1 = r2.

Lemma prefix_free_list {A} (ok : A -> Prop) (f : A -> bytes) l1 l2 r1 r2 :
  prefix_free ok f -> Forall ok l1 -> Forall ok l2 -> length l1 = length l2 ->
  (l1 ≫= f) ++ r1 = (l2 ≫= f) ++ r2 -> l1 = l2 /\ r1 = r2.
Proof.
  intros Hf H1. revert l2. induction H1 as [|x l1 Hx H1 IH]; intros [|y l2]; try done.
  intros [Hy H2]%Forall_cons [= Hl]. cbn. rewrite <- !(assoc_L (++)).
  intros [-> H]%Hf; [|done..]. by destruct (IH l2 H2 Hl H) as [-> ->].
Qed.

Lemma foldl_write {A} (f : A -> bytes) w l : foldl (fun w x => w ++ f x) w l = w ++ (l ≫= f).
Proof.
  revert w. induction l as [|x l IH]; intros w; cbn; [by rewrite app_nil_r|].
  by rewrite IH, <- (assoc_L (++)).
Qed.

Lemma foldl_ext' {A B} (f g : A -> B -> A) w l :
  (forall w x, f w x = g w x) -> foldl f w l = foldl g w l.
Proof. intros H. revert w. induction l as [|x l IH]; intros w; cbn; [done|]. by rewrite H. Qed.

Definition crit_bytes (c : Criterion) : bytes :=
  str_bytes (crit_Key c) ++ str_bytes (crit_Comparison c) ++ str_bytes (crit_Value c).
Definition pair_bytes (kv : string * string) : bytes := str_bytes kv.1 ++ str_bytes kv.2.

Definition crit_ok (c : Criterion) : Prop :=
  string_ok (crit_Key c) /\ string_ok (crit_Comparison c) /\ string_ok (crit_Value c).
Definition pair_ok (kv : string * string) : Prop := string_ok kv.1 /\ string_ok kv.2.

(** What every policy in memory satisfies: its integers are in range and its
    strings and collections have a length that fits an [int]. *)
Record policy_ok (p : Policy) : Prop := {
  po_resource : string_ok (pol_Resource p);
  po_criteria : Forall crit_ok (pol_Criteria p);
  po_ncriteria : in_int64 (Z.of_nat (length (pol_Criteria p)));
  po_strategy : string_ok (pol_Strategy p);
  po_limit : (pol_Limit p < 2 ^ 64)%N;
  po_duration : in_int64 (pol_Duration p);
  po_decay : in_int64 (pol_Decay p);
  po_active : in_int64 (ref_Active (pol_Refresh p));
  po_queued : in_int64 (ref_Queued (pol_Refresh p));
  po_properties : Forall pair_ok (map_to_list (pol_Properties p));
  po_nproperties : in_int64 (Z.of_nat (size (pol_Properties p)));
}.

Lemma crit_bytes_prefix : prefix_free crit_ok crit_bytes.
Proof.
  intros [k1 c1 v1] [k2 c2 v2] r1 r2 (? & ? & ?) (? & ? & ?). unfold crit_bytes. cbn in *.
  rewrite <- !(assoc_L (++)).
  intros [-> [-> [-> ->]%str_bytes_app]%str_bytes_app]%str_bytes_app; done.
Qed.

Lemma pair_bytes_prefix : prefix_free pair_ok pair_bytes.
Proof.
  intros [k1 v1] [k2 v2] r1 r2 [? ?] [? ?]. unfold pair_bytes. cbn in *.
  rewrite <- !(assoc_L (++)). intros [-> [-> ->]%str_bytes_app]%str_bytes_app; done.
Qed.

Lemma Hash_input_app p props :
  Hash_input p props
  = str_bytes (pol_Resource p)
    ++ PutUint64 (Z.of_nat (length (pol_Criteria p)))
    ++ (pol_Criteria p ≫= crit_bytes)
    ++ str_bytes (pol_Strategy p)
    ++ PutUint64 (Z.of_N (pol_Limit p))
    ++ PutUint64 (pol_Duration p) ++ PutUint64 (pol_Decay p)
    ++ PutUint64 (ref_Active (pol_Refresh p)) ++ PutUint64 (ref_Queued (pol_Refresh p))
    ++ PutUint64 (Z.of_nat (size (pol_Properties p)))
    ++ (props ≫= pair_bytes).
Proof.
  unfold Hash_input, WriteDuration, WriteInt. cbn zeta.
  rewrite (foldl_ext' _ (fun w c => w ++ crit_bytes c))
    by (intros; rewrite !WriteString_app; unfold crit_bytes; by rewrite <- !(assoc_L (++))).
  rewrite (foldl_ext' (fun w kv => WriteString (WriteString w kv.1) kv.2)
             (fun w kv => w ++ pair_bytes kv))
    by (intros; rewrite !WriteString_app; unfold pair_bytes; by rewrite <- !(assoc_L (++))).
  rewrite !foldl_write, !WriteString_app. rewrite <- !(assoc_L (++)). done.
Qed.

Lemma limit_inj n1 n2 :
  (n1 < 2 ^ 64)%N -> (n2 < 2 ^ 64)%N ->
  (Z.of_N n1 mod 2 ^ 64 = Z.of_N n2 mod 2 ^ 64)%Z -> n1 = n2.
Proof. intros H1 H2. rewrite !Z.mod_small by lia. lia. Qed.

(** The encoding determines the policy, whatever the order of its properties. *)
Lemma Hash_input_inj p q l1 l2 :
  policy_ok p -> policy_ok q ->
  l1 ≡ₚ map_to_list (pol_Properties p) -> l2 ≡ₚ map_to_list (pol_Properties q) ->
  Hash_input p l1 = Hash_input q l2 -> p = q /\ l1 = l2.
Proof.
  intros [? ? ? ? ? ? ? ? ? Hp1 ?] [? ? ? ? ? ? ? ? ? Hp2 ?] Hl1 Hl2. rewrite !Hash_input_app.
  intros [Hr [Hn H]%PutUint64_app]%str_bytes_app; [|done..].
  apply wrap64_mod in Hn; [|done..].
  apply (prefix_free_list crit_ok) in H as [Hc [Hs [Hlim [Hdu [Hde [Hac [Hqu [Hsz H]%PutUint64_app
    ]%PutUint64_app]%PutUint64_app]%PutUint64_app]%PutUint64_app]%PutUint64_app]%str_bytes_app];
    [|done..|apply crit_bytes_prefix|done|done|lia].
  apply limit_inj in Hlim; [|done..]. apply wrap64_mod in Hdu, Hde, Hac, Hqu, Hsz; [|done..].
  assert (Hpr : l1 = l2 /\ @nil Ascii.ascii = []).
  { apply (prefix_free_list pair_ok pair_bytes); [apply pair_bytes_prefix|by rewrite Hl1|by rewrite Hl2| |].
    - rewrite Hl1, Hl2. rewrite !length_map_to_list. lia.
    - by rewrite !app_nil_r. }
  destruct Hpr as [-> _]. split; [|done].
  assert (Hm : pol_Properties p = pol_Properties q) by (apply map_to_list_inj; by rewrite <- Hl1, Hl2).
  destruct p as [? ? ? ? ? ? [] ?], q as [? ? ? ? ? ? [] ?]; cbn in *. by subst.
Qed.

(** ** Lemmas: differences *)

(** The digest separates the encodings of the policies at hand: what one asks
    of a cryptographic hash. *)
Definition digest_separates (sum224 : bytes -> bytes) (s : PolicySet) : Prop :=
  forall p q l1 l2, p ∈ s -> q ∈ s ->
    l1 ≡ₚ map_to_list (pol_Properties p) -> l2 ≡ₚ map_to_list (pol_Properties q) ->
    sum224 (Hash_input p l1) = sum224 (Hash_input q l2) -> Hash_input p l1 = Hash_input q l2.

Section DiffFacts.
Context (sum224 : bytes -> bytes) `{MO : MapOrder, MOS : !MapOrderSpec MO}.

Lemma hash_map_Some n s m h p :
  hash_map sum224 n s m !! h = Some p ->
  m !! h = Some p \/ exists k, n <= k < n + length s /\ p ∈ s /\ h = Policy_Hash sum224 k p.
Proof.
  revert n m. induction s as [|q s IH]; intros n m; cbn; [by left|].
  intros [Hm|(k & Hk & Hp & ->)]%IH.
  - apply lookup_insert_Some in Hm as [[<- <-]|[_ Hm]]; [|by left].
    right. exists n. split; [lia|]. split; [left|done].
  - right. exists k. split; [lia|]. split; [by right|done].
Qed.

Lemma hash_map_mono n s m h :
  is_Some (m !! h) -> is_Some (hash_map sum224 n s m !! h).
Proof.
  revert n m. induction s as [|q s IH]; intros n m Hm; cbn; [done|].
  apply IH. rewrite lookup_insert. case_decide; [by eexists|done].
Qed.

Lemma hash_map_elem n s m p :
  p ∈ s -> exists k, n <= k < n + length s /\ is_Some (hash_map sum224 n s m !! Policy_Hash sum224 k p).
Proof.
  revert n m. induction s as [|q s IH]; intros n m; cbn; [by intros ?%not_elem_of_nil|].
  intros [->|Hp]%elem_of_cons.
  - exists n. split; [lia|]. apply hash_map_mono. rewrite lookup_insert_eq. by eexists.
  - destruct (IH (S n) (<[Policy_Hash sum224 n q:=q]> m) Hp) as (k & Hk & Hs).
    exists k. split; [lia|done].
Qed.

Lemma elem_of_missing m b p :
  p ∈ missing_from m (range b) <-> exists h, b !! h = Some p /\ m !! h = None.
Proof.
  unfold missing_from. rewrite list_elem_of_fmap. setoid_rewrite list_elem_of_filter.
  setoid_rewrite (range_perm b). split.
  - intros ([h q] & -> & Hm & Hb%elem_of_map_to_list). by exists h.
  - intros (h & Hb & Hm). exists (h, p). split; [done|]. split; [done|].
    by apply elem_of_map_to_list.
Qed.

Definition policies_ok (s : PolicySet) : Prop := Forall policy_ok s.

Lemma Policy_Hash_inj s n1 n2 p q :
  policies_ok s -> digest_separates sum224 s -> p ∈ s -> q ∈ s ->
  Policy_Hash sum224 n1 p = Policy_Hash sum224 n2 q -> p = q.
Proof.
  unfold policies_ok. rewrite Forall_forall. intros Hok Hsep Hp Hq H.
  apply Hsep in H; [|done|done|apply orders_perm..].
  apply Hash_input_inj in H as [-> _]; [done|by apply Hok|by apply Hok|apply orders_perm..].
Qed.

(** One direction of a difference: what [new] has that [old] lacks. *)
Lemma missing_complete old new n1 n2 p :
  policies_ok (old ++ new) -> digest_separates sum224 (old ++ new) ->
  p ∈ new -> p ∉ old ->
  p ∈ missing_from (hash_map sum224 n1 old ∅) (range (hash_map sum224 n2 new ∅)).
Proof.
  intros Hok Hsep Hn Ho. apply elem_of_missing.
  destruct (hash_map_elem n2 new ∅ p Hn) as (k & _ & [q Hq]).
  exists (Policy_Hash sum224 k p). rewrite Hq. split.
  - apply hash_map_Some in Hq as [Hq|(k' & _ & Hqn & Hq)]; [by rewrite lookup_empty in Hq|].
    f_equal. symmetry.
    apply (Policy_Hash_inj _ _ _ _ _ Hok Hsep) in Hq; [done|apply elem_of_app; by right..].
  - apply eq_None_not_Some. intros [r Hr].
    apply hash_map_Some in Hr as [Hr|(k' & _ & Hro & Hr)]; [by rewrite lookup_empty in Hr|].
    apply (Policy_Hash_inj _ _ _ _ _ Hok Hsep) in Hr; [by subst|(apply elem_of_app; auto)..].
Qed.

Lemma missing_subset m n new p :
  p ∈ missing_from m (range (hash_map sum224 n new ∅)) -> p ∈ new.
Proof.
  rewrite elem_of_missing. intros (h & Hb & _).
  apply hash_map_Some in Hb as [Hb|(_ & _ & Hp & _)]; [by rewrite lookup_empty in Hb|done].
Qed.

(** With at most one property there is only one order to range in. *)
Lemma Policy_Hash_stable n1 n2 p :
  size (pol_Properties p) <= 1 -> Policy_Hash sum224 n1 p = Policy_Hash sum224 n2 p.
Proof.
  intros Hs. unfold Policy_Hash. do 2 f_equal.
  assert (Hp : orders n1 (pol_Properties p) ≡ₚ orders n2 (pol_Properties p))
    by (by rewrite !orders_perm).
  rewrite <- length_map_to_list, <- (orders_perm n1 (pol_Properties p)) in Hs.
  destruct (orders n1 (pol_Properties p)) as [|x [|y l]].
  - symmetry in Hp. by apply Permutation_nil_r in Hp.
  - by apply Permutation_singleton_l in Hp.
  - cbn in Hs. lia.
Qed.

Lemma missing_sound old new n1 n2 p :
  size (pol_Properties p) <= 1 ->
  p ∈ missing_from (hash_map sum224 n1 old ∅) (range (hash_map sum224 n2 new ∅)) -> p ∉ old.
Proof.
  intros Hs. rewrite elem_of_missing. intros (h & Hb & Ha) Ho.
  apply hash_map_Some in Hb as [Hb|(k & _ & _ & ->)]; [by rewrite lookup_empty in Hb|].
  destruct (hash_map_elem n1 old ∅ p Ho) as (k' & _ & Hk').
  rewrite (Policy_Hash_stable k' k p Hs), Ha in Hk'. by destruct Hk'.
Qed.
End DiffFacts.
