(* ===== verification/PolicyProps.v ===== *)
(** * What policies guarantee

    Matching, the values a policy set yields, the injectivity of the policy
    encoding and the differences between policy sets. *)

From S2P Require Import Prelude GoStrings GoTime Lease LeaseSet Policy.

(** ** Lemmas *)

Lemma Criteria_loop_true `{GoText} c props :
  Criteria_loop c props = true <-> Forall (fun x => Criterion_Match x props = true) c.
Proof.
  induction c as [|x c IH]; cbn; [by split|].
  rewrite Forall_cons, <- IH. by destruct (Criterion_Match x props); cbn; intuition.
Qed.

Lemma Policy_Match_true `{GoText} p props :
  Policy_Match p props = true <->
  pol_Criteria p <> [] /\ Forall (fun c => Criterion_Match c props = true) (pol_Criteria p).
Proof.
  unfold Policy_Match, Criteria_Match. rewrite <- Criteria_loop_true.
  destruct (pol_Criteria p); cbn; [|by split; [|intros []]]. split; [done|by intros []].
Qed.

(** The running extremum that the loops of the set compute. *)
Lemma foldl_extremum {A} (le : Z -> Z -> Prop) (f : A -> Z) step init s :
  (forall x y, le x y \/ le y x) -> (forall x y z, le x y -> le y z -> le x z) ->
  (forall v x, step v x = v /\ le v (f x) \/ step v x = f x /\ le (f x) v) ->
  let r := foldl step init s in
  le r init /\ (forall x, x ∈ s -> le r (f x)) /\ (r = init \/ exists x, x ∈ s /\ r = f x).
Proof.
  intros Htot Htr Hstep. cbn zeta. assert (Hrefl : forall x, le x x) by (intros x; by destruct (Htot x x)).
  revert init. induction s as [|y s IH]; intros init; cbn.
  - split; [done|]. split; [by intros x ?%not_elem_of_nil|by left].
  - destruct (IH (step init y)) as (H1 & H2 & H3).
    destruct (Hstep init y) as [[Hs Hl]|[Hs Hl]]; rewrite Hs in *.
    + split; [done|]. split; [intros x [->|Hx]%elem_of_cons; eauto|].
      destruct H3 as [H3|(x & Hx & H3)]; [by left|right; exists x; split; [by right|done]].
    + split; [by eapply Htr|]. split; [intros x [->|Hx]%elem_of_cons; eauto|].
      right. destruct H3 as [H3|(x & Hx & H3)]; [exists y; split; [left|done]|].
      exists x. split; [by right|done].
Qed.

Lemma PolicySet_Duration_spec s :
  s <> [] ->
  (forall p, p ∈ s -> (PolicySet_Duration s <= pol_Duration p)%Z)
  /\ exists p, p ∈ s /\ PolicySet_Duration s = pol_Duration p.
Proof.
  destruct s as [|q s]; [done|]. intros _. cbn.
  destruct (foldl_extremum Z.le pol_Duration
    (fun d p => if decide (pol_Duration p < d)%Z then pol_Duration p else d) (pol_Duration q) s)
    as (H1 & H2 & H3); [lia|lia|intros; case_decide; lia|]. split.
  - intros p [->|Hp]%elem_of_cons; [done|by apply H2].
  - destruct H3 as [H3|(p & Hp & H3)]; [exists q|exists p]; (split; [rewrite elem_of_cons; auto|done]).
Qed.

Lemma PolicySet_Decay_spec s :
  s <> [] ->
  (forall p, p ∈ s -> (pol_Decay p <= PolicySet_Decay s)%Z)
  /\ exists p, p ∈ s /\ PolicySet_Decay s = pol_Decay p.
Proof.
  destruct s as [|q s]; [done|]. intros _. cbn.
  destruct (foldl_extremum Z.ge pol_Decay
    (fun d p => if decide (d < pol_Decay p)%Z then pol_Decay p else d) (pol_Decay q) s)
    as (H1 & H2 & H3); [lia|lia|intros; case_decide; lia|]. split.
  - intros p [->|Hp]%elem_of_cons; [lia|]. specialize (H2 p Hp). lia.
  - destruct H3 as [H3|(p & Hp & H3)]; [exists q|exists p]; (split; [rewrite elem_of_cons; auto|done]).
Qed.

Lemma foldl_limit s limit :
  Z.of_N (foldl (fun limit p => if decide (pol_Limit p < limit)%N then pol_Limit p else limit) limit s)
  = foldl (fun limit p => if decide (Z.of_N (pol_Limit p) < limit)%Z then Z.of_N (pol_Limit p) else limit)
      (Z.of_N limit) s.
Proof.
  revert limit. induction s as [|p s IH]; intros limit; cbn; [done|].
  rewrite IH. f_equal. repeat case_decide; lia.
Qed.

Lemma PolicySet_Limit_spec s :
  s <> [] ->
  (forall p, p ∈ s -> (PolicySet_Limit s <= pol_Limit p)%N)
  /\ exists p, p ∈ s /\ PolicySet_Limit s = pol_Limit p.
Proof.
  destruct s as [|q s]; [done|]. intros _. cbn.
  destruct (foldl_extremum Z.le (fun p => Z.of_N (pol_Limit p))
    (fun d p => if decide (Z.of_N (pol_Limit p) < d)%Z then Z.of_N (pol_Limit p) else d)
    (Z.of_N (pol_Limit q)) s)
    as (H1 & H2 & H3); [lia|lia|intros; case_decide; lia|].
  rewrite <- foldl_limit in *. split.
  - intros p [->|Hp]%elem_of_cons; [lia|]. specialize (H2 p Hp). lia.
  - destruct H3 as [H3|(p & Hp & H3)]; [exists q|exists p]; (split; [rewrite elem_of_cons; auto|lia]).
Qed.

Definition first_nonzero (s : list Duration) : Duration :=
  default 0%Z (head (filter (fun d => d <> 0%Z) s)).

Lemma first_nonzero_cons d s : first_nonzero (d :: s) = if decide (d = 0%Z) then first_nonzero s else d.
Proof. unfold first_nonzero. rewrite filter_cons. repeat case_decide; tauto || done. Qed.

(** The early exit of the loop changes nothing. *)
Lemma Refresh_loop_spec s r :
  PolicySet_Refresh_loop s r
  = mkRefresh (first_nonzero (ref_Active r :: ((fun p => ref_Active (pol_Refresh p)) <$> s)))
              (first_nonzero (ref_Queued r :: ((fun p => ref_Queued (pol_Refresh p)) <$> s))).
Proof.
  revert r. induction s as [|p s IH]; intros [a q]; cbn [PolicySet_Refresh_loop].
  - cbn. rewrite !first_nonzero_cons. unfold first_nonzero. cbn. repeat case_decide; by subst.
  - rewrite IH. rewrite !fmap_cons, !first_nonzero_cons. cbn [ref_Active ref_Queued].
    repeat case_decide; cbn [ref_Active ref_Queued] in *; subst; try done; try tauto; f_equal; tauto.
Qed.

(** ** The properties *)

(** Matching.  A policy set selects, in order, exactly the policies that
    have criteria and whose every criterion holds of the properties; a policy
    without criteria never applies. *)
Lemma policy_set_match `{GoText} s props p :
  PolicySet_Match s props `sublist_of` s
  /\ (p ∈ PolicySet_Match s props <->
      p ∈ s /\ pol_Criteria p <> []
      /\ Forall (fun c => Criterion_Match c props = true) (pol_Criteria p)).
Proof.
  unfold PolicySet_Match. split; [apply sublist_filter|].
  rewrite list_elem_of_filter, Is_true_true, Policy_Match_true. tauto.
Qed.

(** Aggregation.  A non-empty policy set imposes the lowest limit and the
    shortest duration and the longest decay of its policies, each of them that
    of some policy in it; its refresh intervals are the first non-zero ones. *)
Lemma policy_set_most_restrictive s :
  s <> [] ->
  ((forall p, p ∈ s -> (PolicySet_Limit s <= pol_Limit p)%N)
   /\ exists p, p ∈ s /\ PolicySet_Limit s = pol_Limit p)
  /\ ((forall p, p ∈ s -> (PolicySet_Duration s <= pol_Duration p)%Z)
      /\ exists p, p ∈ s /\ PolicySet_Duration s = pol_Duration p)
  /\ ((forall p, p ∈ s -> (pol_Decay p <= PolicySet_Decay s)%Z)
      /\ exists p, p ∈ s /\ PolicySet_Decay s = pol_Decay p)
  /\ PolicySet_Refresh s
     = mkRefresh (first_nonzero ((fun p => ref_Active (pol_Refresh p)) <$> s))
                 (first_nonzero ((fun p => ref_Queued (pol_Refresh p)) <$> s)).
Proof.
  intros Hs. split_and!; try apply PolicySet_Limit_spec; try apply PolicySet_Duration_spec;
    try apply PolicySet_Decay_spec; try done.
  unfold PolicySet_Refresh. rewrite Refresh_loop_spec, !first_nonzero_cons. done.
Qed.

(** C38. Injectivity of the encoding.  The bytes a policy is hashed from
    determine the policy: no two policies share an encoding, in whatever orders
    their properties are ranged over. *)
Theorem policy_encoding_injective p q l1 l2 :
  policy_ok p -> policy_ok q ->
  l1 ≡ₚ map_to_list (pol_Properties p) -> l2 ≡ₚ map_to_list (pol_Properties q) ->
  Hash_input p l1 = Hash_input q l2 -> p = q.
Proof. intros Hp Hq H1 H2 H. by destruct (Hash_input_inj p q l1 l2 Hp Hq H1 H2 H). Qed.

(** Differences.  With a digest that separates the policies at hand, [Diff]
    reports every policy that was added and every policy that was deleted, and
    nothing that is not a member; for policies of at most one property it
    reports exactly the changes. *)
Lemma policy_diff_correct (sum224 : bytes -> bytes) `{MO : MapOrder, MOS : !MapOrderSpec MO}
  s next additions deletions p :
  policies_ok (s ++ next) -> digest_separates sum224 (s ++ next) ->
  PolicySet_Diff sum224 (Some s) (Some next) = (Some additions, Some deletions) ->
  (p ∈ next -> p ∉ s -> p ∈ additions) /\ (p ∈ s -> p ∉ next -> p ∈ deletions)
  /\ (p ∈ additions -> p ∈ next) /\ (p ∈ deletions -> p ∈ s)
  /\ (size (pol_Properties p) <= 1 ->
      (p ∈ additions <-> p ∈ next /\ p ∉ s) /\ (p ∈ deletions <-> p ∈ s /\ p ∉ next)).
Proof.
  intros Hok Hsep [= <- <-].
  assert (Hok' : policies_ok (next ++ s)) by (unfold policies_ok; rewrite Permutation_app_comm; done).
  assert (Hsep' : digest_separates sum224 (next ++ s)).
  { intros x y l1 l2 Hx Hy. apply Hsep; rewrite elem_of_app in *; tauto. }
  assert (Ha : p ∈ next -> p ∉ s -> p ∈ missing_from (hash_map sum224 0 s ∅)
    (range (hash_map sum224 (length s) next ∅))) by (intros; by apply missing_complete).
  assert (Hd : p ∈ s -> p ∉ next -> p ∈ missing_from (hash_map sum224 (length s) next ∅)
    (range (hash_map sum224 0 s ∅))) by (intros; by apply missing_complete).
  pose proof (missing_subset sum224 (hash_map sum224 0 s ∅) (length s) next p).
  pose proof (missing_subset sum224 (hash_map sum224 (length s) next ∅) 0 s p).
  split_and!; [done..|]. intros Hs.
  pose proof (missing_sound sum224 s next 0 (length s) p Hs).
  pose proof (missing_sound sum224 next s (length s) 0 p Hs).
  tauto.
Qed.

(** ** Witnesses *)

Definition ascii_text : GoText := {|
  ToLower := fun s => String.string_of_list_ascii
    ((fun c => let n := Ascii.N_of_ascii c in
               if (65 <=? n)%N && (n <=? 90)%N then Ascii.ascii_of_N (n + 32) else c)
       <$> String.list_ascii_of_string s);
  regexp_Compile := fun e => Some (fun v => bool_decide (e = v));
|}.

Definition sample_policy (limit : N) (props : Properties) : Policy :=
  mkPolicy "res" [mkCriterion "user" ComparisonIgnoreCase "ANN"] Strategy_Instance limit
    (10 * Minute)%Z (2 * Minute)%Z (mkRefresh 0%Z (5 * Second)%Z) props.

Definition sample_props : Properties := {[ "a" := "1"; "b" := "2" ]}.

(** Keys in ascending order, then in descending order. *)
Definition alternating : MapOrder := {|
  orders := fun n m => if Nat.even n then map_to_list m else reverse (map_to_list m);
  range := map_to_list;
|}.

Lemma alternating_spec : MapOrderSpec alternating.
Proof.
  split; [|done]. intros n m. cbn. destruct (Nat.even n); [done|apply reverse_Permutation].
Qed.

Lemma sample_policy_ok limit : (limit < 2 ^ 64)%N -> policy_ok (sample_policy limit ∅).
Proof.
  intros Hl. split; cbn; try done; try (unfold string_ok; cbn; lia);
    try (unfold in_int64, int64_min, int64_max, Minute, Second; lia).
  repeat constructor.
Qed.

Lemma policy_set_most_restrictive_witness :
  PolicySet_Limit [sample_policy 3 ∅; sample_policy 2 ∅] = 2%N
  /\ (forall p, p ∈ [sample_policy 3 ∅; sample_policy 2 ∅] ->
        (PolicySet_Limit [sample_policy 3 ∅; sample_policy 2 ∅] <= pol_Limit p)%N).
Proof.
  split; [reflexivity|].
  destruct (policy_set_most_restrictive [sample_policy 3 ∅; sample_policy 2 ∅]) as [[H _] _].
  - intros Hn. discriminate Hn.
  - exact H.
Defined.

Lemma policy_encoding_injective_witness :
  Hash_input (sample_policy 3 ∅) [] <> Hash_input (sample_policy 2 ∅) [].
Proof.
  intros H. assert (He : sample_policy 3 ∅ = sample_policy 2 ∅).
  { apply (policy_encoding_injective _ _ [] []);
      [apply sample_policy_ok; lia|apply sample_policy_ok; lia| | |exact H];
      cbn; rewrite map_to_list_empty; reflexivity. }
  apply (f_equal pol_Limit) in He. discriminate He.
Defined.

Lemma policy_diff_correct_witness :
  let d := PolicySet_Diff (MO := alternating) (fun b => b) (Some [sample_policy 3 ∅]) (Some [sample_policy 2 ∅]) in
  exists additions deletions, d = (Some additions, Some deletions)
    /\ sample_policy 2 ∅ ∈ additions /\ sample_policy 3 ∅ ∈ deletions.
Proof.
  cbn zeta. do 2 eexists. split; [reflexivity|].
  assert (Hok : policies_ok ([sample_policy 3 ∅] ++ [sample_policy 2 ∅])).
  { repeat (apply Forall_cons_2 || apply Forall_nil_2); apply sample_policy_ok; lia. }
  assert (Hsep : digest_separates (fun b => b) ([sample_policy 3 ∅] ++ [sample_policy 2 ∅])).
  { intros p q l1 l2 _ _ _ _ H. exact H. }
  assert (Hne : sample_policy 3 ∅ <> sample_policy 2 ∅) by (intros H; apply (f_equal pol_Limit) in H; discriminate H).
  split.
  - destruct (policy_diff_correct (MO := alternating) (MOS := alternating_spec) (fun b => b)
      [sample_policy 3 ∅] [sample_policy 2 ∅] _ _ (sample_policy 2 ∅) Hok Hsep eq_refl) as [H _].
    apply H; [left|]. intros Hc%list_elem_of_singleton. by apply Hne.
  - destruct (policy_diff_correct (MO := alternating) (MOS := alternating_spec) (fun b => b)
      [sample_policy 3 ∅] [sample_policy 2 ∅] _ _ (sample_policy 3 ∅) Hok Hsep eq_refl) as (_ & H & _).
    apply H; [left|]. intros Hc%list_elem_of_singleton. by apply Hne.
Defined.

(** ** What the source does not promise *)

(** With two properties the hash of a policy depends on the order in which its
    map is ranged over: comparing a policy set with itself may report the
    policy both as added and as deleted, even under a perfect digest. *)
Lemma policy_diff_spurious :
  PolicySet_Diff (MO := alternating) (fun b => b)
    (Some [sample_policy 3 sample_props]) (Some [sample_policy 3 sample_props])
  = (Some [sample_policy 3 sample_props], Some [sample_policy 3 sample_props]).
Proof.
  cbn [PolicySet_Diff hash_map length]. unfold missing_from, range, alternating.
  set (p := sample_policy 3 sample_props).
  assert (Hne : Policy_Hash (MO := alternating) (fun b => b) 0 p
                <> Policy_Hash (MO := alternating) (fun b => b) 1 p) by (vm_compute; discriminate).
  unfold alternating in Hne. rewrite !insert_empty, !map_to_list_singleton.
  rewrite !filter_cons_True by (cbn [fst]; apply lookup_singleton_ne; done).
  reflexivity.
Qed.

(** [Resources] drops the blanks but, as [seen] is never written, keeps the
    repetitions that its comment rules out. *)
Lemma policy_resources_repeat s :
  PolicySet_Resources s = filter (fun r => r <> "") (pol_Resource <$> s).
Proof.
  unfold PolicySet_Resources. induction s as [|p s IH]; [done|].
  cbn [PolicySet_Resources_loop]. rewrite fmap_cons, filter_cons, lookup_empty. cbn [default].
  destruct (decide (pol_Resource p <> "")) as [Hr|Hr].
  - rewrite decide_True by done. by rewrite IH.
  - rewrite decide_False by tauto. done.
Qed.
