(* ===== verification/PolicyCodec.v ===== *)
(** * The JSON text and the file names of policies (policy.go, hash.go)

    [MarshalJSON] and [UnmarshalJSON] wrap the JSON codec of the standard
    library around a structure in which durations are text ([GoDuration.v]); the codec
    is the class [PolicyText].  A hash is written in base64
    with the URL alphabet, without padding. *)

From Stdlib Require Ascii.
From S2P Require Import Prelude GoStrings GoTime GoDuration Lease Policy.

(** ** The codec *)

(** The structure that is encoded: an embedded policy whose durations are
    shadowed by strings. *)
Record JSONPolicy := mkJSONPolicy {
  jp_Resource : string;
  jp_Criteria : Criteria;
  jp_Strategy : Strategy;
  jp_Limit : N;
  jp_Duration : string;
  jp_Decay : string;
  jp_Active : string;
  jp_Queued : string;
  jp_Properties : Properties;
}.

Class PolicyText := {
  json_Marshal : JSONPolicy -> result bytes;
  (** [json.Unmarshal] into a structure: absent fields keep their value. *)
  json_Unmarshal : bytes -> JSONPolicy -> result JSONPolicy;
}.

Section Codec.
Context `{PT : PolicyText}.

Definition Policy_MarshalJSON (p : Policy) : result bytes :=
  json_Marshal (mkJSONPolicy (pol_Resource p) (pol_Criteria p) (pol_Strategy p) (pol_Limit p)
    (Duration_text (pol_Duration p)) (Duration_text (pol_Decay p))
    (Duration_text (ref_Active (pol_Refresh p))) (Duration_text (ref_Queued (pol_Refresh p)))
    (pol_Properties p)).

(** A duration that is given replaces the one that the policy has. *)
Definition parse_field (text : string) (old : Duration) : result Duration :=
  if decide (text <> "") then ParseDuration text else Ok old.

Definition Policy_UnmarshalJSON (data : bytes) (p : Policy) : result Policy :=
  aux ← json_Unmarshal data (mkJSONPolicy (pol_Resource p) (pol_Criteria p) (pol_Strategy p)
          (pol_Limit p) "" "" "" "" (pol_Properties p));
  duration ← parse_field (jp_Duration aux) (pol_Duration p);
  decay ← parse_field (jp_Decay aux) (pol_Decay p);
  active ← parse_field (jp_Active aux) (ref_Active (pol_Refresh p));
  queued ← parse_field (jp_Queued aux) (ref_Queued (pol_Refresh p));
  Ok (mkPolicy (jp_Resource aux) (jp_Criteria aux) (jp_Strategy aux) (jp_Limit aux)
        duration decay (mkRefresh active queued) (jp_Properties aux)).
End Codec.

Definition zero_policy : Policy :=
  mkPolicy "" [] Strategy_Empty 0 0%Z 0%Z (mkRefresh 0%Z 0%Z) ∅.

(** ** policy/hash.go *)

Definition base64_url : list Ascii.ascii :=
  String.list_ascii_of_string "ABCDEFGHIJKLMNOPQRSTUVWXYZabcdefghijklmnopqrstuvwxyz0123456789-_".
Definition sextet (n : N) : Ascii.ascii :=
  default (Ascii.ascii_of_nat 65) (base64_url !! N.to_nat n).

(** [base64.RawURLEncoding.EncodeToString]. *)
Fixpoint base64_encode (b : bytes) : string :=
  match b with
  | [] => ""
  | [x] =>
      let v := (Ascii.N_of_ascii x * 65536)%N in
      String (sextet (v / 262144)) (String (sextet (v / 4096 mod 64)) "")
  | [x; y] =>
      let v := (Ascii.N_of_ascii x * 65536 + Ascii.N_of_ascii y * 256)%N in
      String (sextet (v / 262144)) (String (sextet (v / 4096 mod 64))
        (String (sextet (v / 64 mod 64)) ""))
  | x :: y :: z :: b =>
      let v := (Ascii.N_of_ascii x * 65536 + Ascii.N_of_ascii y * 256 + Ascii.N_of_ascii z)%N in
      String (sextet (v / 262144)) (String (sextet (v / 4096 mod 64))
        (String (sextet (v / 64 mod 64)) (String (sextet (v mod 64)) (base64_encode b))))
  end.

Definition Hash_String (h : bytes) : string := base64_encode h.

(** ** What the codec promises *)

(** JSON replaces bytes that are not UTF-8, and so does not keep every string:
    [keeps] holds of those it does. *)
Record JSONPolicy_text (keeps : string -> Prop) (j : JSONPolicy) : Prop := {
  jt_resource : keeps (jp_Resource j);
  jt_strategy : keeps (jp_Strategy j);
  jt_criteria : Forall (fun c => keeps (crit_Key c) /\ keeps (crit_Comparison c)
                                 /\ keeps (crit_Value c)) (jp_Criteria j);
  jt_properties : map_Forall (fun k v => keeps k /\ keeps v) (jp_Properties j);
  jt_durations : Forall keeps [jp_Duration j; jp_Decay j; jp_Active j; jp_Queued j];
}.

Class PolicyTextSpec (PT : PolicyText) := {
  json_keeps : string -> Prop;
  json_roundtrip j b :
    JSONPolicy_text json_keeps j -> json_Marshal j = Ok b ->
    json_Unmarshal b (mkJSONPolicy "" [] Strategy_Empty 0 "" "" "" "" ∅) = Ok j;
  Duration_keeps d : json_keeps (Duration_text d);
}.

Record policy_text `{PS : PolicyTextSpec} (p : Policy) : Prop := {
  pt_resource : json_keeps (pol_Resource p);
  pt_strategy : json_keeps (pol_Strategy p);
  pt_criteria : Forall (fun c => json_keeps (crit_Key c) /\ json_keeps (crit_Comparison c)
                                 /\ json_keeps (crit_Value c)) (pol_Criteria p);
  pt_properties : map_Forall (fun k v => json_keeps k /\ json_keeps v) (pol_Properties p);
}.

Lemma Policy_JSON_roundtrip `{PS : PolicyTextSpec} p b :
  policy_ok p -> policy_text p -> Policy_MarshalJSON p = Ok b ->
  Policy_UnmarshalJSON b zero_policy = Ok p.
Proof.
  intros Hok [] Hm. unfold Policy_UnmarshalJSON. cbn.
  rewrite (json_roundtrip _ _) with (2 := Hm).
  - cbn. unfold parse_field. rewrite !decide_True by apply Duration_text_nonempty.
    rewrite !ParseDuration_text by apply Hok. cbn. by destruct p as [? ? ? ? ? ? [] ?].
  - split; cbn; try done. repeat (apply Forall_cons_2 || apply Forall_nil_2); apply Duration_keeps.
Qed.

(** ** Base64 *)

Definition unsextet (c : Ascii.ascii) : N :=
  N.of_nat (default 0 (fst <$> list_find (fun d => c = d) base64_url)).

Lemma unsextet_sextet n : (n < 64)%N -> unsextet (sextet n) = n.
Proof.
  intros Hn. assert (H : forallb (fun i => (unsextet (sextet (N.of_nat i)) =? N.of_nat i)%N) (seq 0 64) = true)
    by (vm_compute; reflexivity).
  rewrite forallb_forall in H. specialize (H (N.to_nat n)). rewrite N2Nat.id in H.
  apply N.eqb_eq, H, in_seq. lia.
Qed.

Lemma sextet_inj m n : (m < 64)%N -> (n < 64)%N -> sextet m = sextet n -> m = n.
Proof. intros Hm Hn H. by rewrite <- (unsextet_sextet m), <- (unsextet_sextet n), H. Qed.

Lemma N_of_ascii_lt c : (Ascii.N_of_ascii c < 256)%N.
Proof. apply Ascii.N_ascii_bounded. Qed.

Lemma N_of_ascii_inj c d : Ascii.N_of_ascii c = Ascii.N_of_ascii d -> c = d.
Proof. intros H. by rewrite <- (Ascii.ascii_N_embedding c), H, Ascii.ascii_N_embedding. Qed.

#[local] Ltac Zify.zify_post_hook ::= Z.to_euclidean_division_equations.

Ltac sextet_bound := first [apply N.mod_lt; discriminate | apply N.Div0.div_lt_upper_bound; lia].

(** The four digits of a number below 2^24 determine it. *)
Lemma digits_inj v w :
  (v < 16777216)%N -> (w < 16777216)%N ->
  sextet (v / 262144) = sextet (w / 262144) ->
  sextet (v / 4096 mod 64) = sextet (w / 4096 mod 64) ->
  (v / 4096 = w / 4096)%N
  /\ (sextet (v / 64 mod 64) = sextet (w / 64 mod 64) ->
      (v / 64 = w / 64)%N /\ (sextet (v mod 64) = sextet (w mod 64) -> v = w)).
Proof.
  intros Hv Hw H1 H2. apply sextet_inj in H1; [|sextet_bound..]. apply sextet_inj in H2; [|sextet_bound..].
  assert (E1 : (v / 4096 = w / 4096)%N) by lia. split; [done|].
  intros H3. apply sextet_inj in H3; [|sextet_bound..]. assert (E2 : (v / 64 = w / 64)%N) by (clear H1 H2; lia).
  split; [done|]. intros H4. apply sextet_inj in H4; [|sextet_bound..]. clear H1 H2 H3 E1. lia.
Qed.

Ltac ascii_bounds :=
  repeat match goal with
  | c : Ascii.ascii |- _ =>
      lazymatch goal with H : (Ascii.N_of_ascii c < 256)%N |- _ => fail | _ => idtac end;
      pose proof (N_of_ascii_lt c)
  end.

Lemma base64_inj b1 b2 : base64_encode b1 = base64_encode b2 -> b1 = b2.
Proof.
  enough (H : forall n b1 b2, length b1 <= n -> base64_encode b1 = base64_encode b2 -> b1 = b2)
    by (by apply (H (length b1))).
  intros n. clear. induction n as [|n IH]; intros [|x1 [|y1 [|z1 b1]]] [|x2 [|y2 [|z2 b2]]] Hn;
    cbn [base64_encode]; try done; try (cbn in Hn; lia).
  - intros [= H1 H2]. ascii_bounds. apply digits_inj in H1 as [H1 _]; [|lia..|exact H2].
    f_equal. apply N_of_ascii_inj. lia.
  - intros [= H1 H2 H3]. ascii_bounds. apply digits_inj in H1 as [_ H1]; [|lia..|exact H2].
    destruct (H1 H3) as [E _]. f_equal; [|f_equal]; apply N_of_ascii_inj; lia.
  - intros [= H1 H2 H3 H4 E]. ascii_bounds. apply digits_inj in H1 as [_ H1]; [|lia..|exact H2].
    destruct (H1 H3) as [_ F]. specialize (F H4).
    rewrite (IH b1 b2) by (cbn in Hn; done || lia).
    f_equal; [|f_equal; [|f_equal]]; apply N_of_ascii_inj; lia.
Qed.

(** File names built from hashes hold no path separator. *)
Lemma sextet_plain n : sextet n <> Ascii.ascii_of_nat 47.
Proof.
  assert (H : Forall (fun c => c <> Ascii.ascii_of_nat 47) base64_url)
    by (apply (bool_decide_unpack _); vm_compute; reflexivity).
  unfold sextet. destruct (base64_url !! N.to_nat n) as [c|] eqn:Hc; cbn [default]; [|done].
  rewrite Forall_forall in H. by apply H, (list_elem_of_lookup_2 _ (N.to_nat n)).
Qed.

Definition slash_free (s : string) : Prop :=
  Forall (fun c => c <> Ascii.ascii_of_nat 47) (String.list_ascii_of_string s).

Lemma base64_slash_free b : slash_free (base64_encode b).
Proof.
  unfold slash_free. enough (H : forall n b, length b <= n -> Forall (fun c => c <> Ascii.ascii_of_nat 47)
    (String.list_ascii_of_string (base64_encode b))) by (by apply (H (length b))).
  intros n. clear. induction n as [|n IH]; intros [|x [|y [|z b]]] Hn;
    cbn [base64_encode String.list_ascii_of_string];
    repeat (apply Forall_cons_2 || apply Forall_nil_2); try apply sextet_plain; cbn in Hn; [lia|].
  apply IH. lia.
Qed.
