(* ===== verification/PolicyText.v ===== *)
(** * The text of a policy (policy/policy.go)

    [Policy.String], which the command line, the log and the server show. *)

From stdpp Require Import pretty sorting.
From S2P Require Import Prelude GoStrings GoTime GoDuration GoQuote Lease LeaseSet Policy.

(** ** policy/policy.go *)

(** Strings in the order of their bytes: a format prints a map by its keys. *)
Definition key_le (x y : string * string) : Prop := String.leb x.1 y.1 = true.
#[export] Instance key_le_dec x y : Decision (key_le x y).
Proof. unfold key_le. apply _. Defined.

(** The format [%q] of a map of strings. *)
Definition Quote_map `{Printable} (props : Properties) : string :=
  "map[" +:+ strings_Join ((fun kv => Quote kv.1 +:+ ":" +:+ Quote kv.2)
                             <$> merge_sort key_le (map_to_list props)) " " +:+ "]".

Definition Policy_String `{Printable} (p : Policy) : string :=
  let part (shown : bool) (text : string) := if shown then [text] else [] in
  strings_Join
    (part (negb (bool_decide (pol_Resource p = ""))) ("Resource: " +:+ Quote (pol_Resource p))
     ++ part (bool_decide (0 < length (pol_Criteria p))) ("Criteria: " +:+ Quote (Criteria_String (pol_Criteria p)))
     ++ part (negb (bool_decide (pol_Strategy p = Strategy_Empty))) ("Strategy: " +:+ pol_Strategy p)
     ++ part (negb (bool_decide (pol_Limit p = 0%N))) ("Limit: " +:+ pretty (pol_Limit p))
     ++ part (negb (bool_decide (pol_Duration p = 0%Z))) ("Duration: " +:+ Duration_text (pol_Duration p))
     ++ part (negb (bool_decide (pol_Decay p = 0%Z))) ("Decay: " +:+ Duration_text (pol_Decay p))
     ++ part (negb (bool_decide (ref_Active (pol_Refresh p) = 0%Z)))
          ("Active Refresh: " +:+ Duration_text (ref_Active (pol_Refresh p)))
     ++ part (negb (bool_decide (ref_Queued (pol_Refresh p) = 0%Z)))
          ("Queued Refresh: " +:+ Duration_text (ref_Queued (pol_Refresh p)))
     ++ part (bool_decide (0 < size (pol_Properties p))) ("Properties: " +:+ Quote_map (pol_Properties p))) " ".

(** ** Lemmas *)

(** The text of a policy without anything is empty, and one of a policy with
    everything. *)
Lemma policy_texts `{P : Printable} :
  Policy_String (Policy_New "" Strategy_Empty 0 0%Z []) = ""
  /\ Policy_String (mkPolicy "cad" [mkCriterion "program.name" ComparisonExact "acad.exe"] Strategy_Instance 2
       Minute (2 * Minute)%Z (mkRefresh Second 0%Z) {["b" := "2"; "a" := "1"]})
     = "Resource: " +:+ quoted "cad" +:+ " Criteria: " +:+ quoted "program.name=acad.exe"
       +:+ " Strategy: instance Limit: 2 Duration: 1m0s Decay: 2m0s Active Refresh: 1s Properties: map["
       +:+ quoted "a" +:+ ":" +:+ quoted "1" +:+ " " +:+ quoted "b" +:+ ":" +:+ quoted "2" +:+ "]".
Proof. split; vm_compute; reflexivity. Qed.
