(* ===== verification/CacheProv.v ===== *)
(** * The caching policy provider (provider/cacheprov/provider.go)

    [pull] checks, fills and reads the cache in three critical sections, which
    other goroutines may run between: it is a state machine of atomic steps.
    What the source of policies answers is up to the environment; like the
    file system provider it may return policies along with an error. *)

From S2P Require Import Prelude GoTime Lease Policy.

Record CacheProvider := mkCache {
  cache_cached : bool;
  cache_policies : PolicySet;
}.

Definition CacheProv_New : CacheProvider := mkCache false [].
Definition CacheProv_ProviderName (source : string) : string :=
  source +:+ " (with in-memory caching)".

(** Where a goroutine is in [pull]: before the first check, between the check
    and the lock, between the two critical sections, and at the end. *)
Inductive pull_pc :=
| PullStart
| PullMissed
| PullFilled (err : option error)
| PullReturned (policies : PolicySet) (err : option error).

Abbreviation answer_of_source := (PolicySet * option error)%type (only parsing).

(** One critical section; [answer] is what the source answers if it is asked,
    and the last component whether it is. *)
Definition pull_step (answer : answer_of_source) (pc : pull_pc) (p : CacheProvider)
  : pull_pc * CacheProvider * bool :=
  match pc with
  | PullStart =>
      if negb (cache_cached p) then (PullMissed, p, false)
      else (PullReturned (cache_policies p) None, p, false)
  | PullMissed =>
      if negb (cache_cached p) then
        let '(policies, err) := answer in
        (PullFilled err, mkCache (bool_decide (err = None)) policies, true)
      else (PullFilled None, p, false)
  | PullFilled err => (PullReturned (cache_policies p) err, p, false)
  | PullReturned _ _ => (pc, p, false)
  end.

(** A call that is not interrupted. *)
Definition pull (answer : answer_of_source) (p : CacheProvider) : pull_pc * CacheProvider :=
  let '(pc, p, _) := pull_step answer PullStart p in
  let '(pc, p, _) := pull_step answer pc p in
  let '(pc, p, _) := pull_step answer pc p in
  (pc, p).
Definition CacheProv_Policies := pull.

(** ** Goroutines *)

(** [cs_answers] are the answers of the source so far, the last one first. *)
Record cache_system := mkCacheSystem {
  cs_cache : CacheProvider;
  cs_pulls : list pull_pc;
  cs_answers : list answer_of_source;
}.

Inductive cache_step : cache_system -> cache_system -> Prop :=
| cache_step_call c pulls answers :
    cache_step (mkCacheSystem c pulls answers) (mkCacheSystem c (pulls ++ [PullStart]) answers)
| cache_step_run i pc pc' c c' asked a pulls answers :
    pulls !! i = Some pc -> pull_step a pc c = (pc', c', asked) ->
    cache_step (mkCacheSystem c pulls answers)
      (mkCacheSystem c' (<[i := pc']> pulls) (if asked then a :: answers else answers)).

Definition cache_initial : cache_system := mkCacheSystem CacheProv_New [] [].

(** How many critical sections a call still has to go through. *)
Definition pull_rank (pc : pull_pc) : nat :=
  match pc with PullStart => 3 | PullMissed => 2 | PullFilled _ => 1 | PullReturned _ _ => 0 end.

(** ** The invariant *)

Definition failed (a : answer_of_source) : Prop := a.2 <> None.

Definition pull_ok (c : CacheProvider) (pc : pull_pc) : Prop :=
  match pc with
  | PullFilled None => cache_cached c = true
  | PullReturned ps None => cache_cached c = true /\ ps = cache_policies c
  | _ => True
  end.

Record cache_inv (sys : cache_system) : Prop := {
  ci_pulls : Forall (pull_ok (cs_cache sys)) (cs_pulls sys);
  ci_empty : cache_cached (cs_cache sys) = false -> Forall failed (cs_answers sys);
  ci_full : cache_cached (cs_cache sys) = true ->
    exists l, cs_answers sys = (cache_policies (cs_cache sys), None) :: l /\ Forall failed l;
}.

Lemma pull_step_cached a pc c :
  cache_cached c = true -> pull_ok c pc ->
  exists pc', pull_step a pc c = (pc', c, false) /\ pull_ok c pc'.
Proof.
  intros Hc Hok. destruct pc as [| |[e|]|ps [e|]]; cbn in *; rewrite ?Hc; eexists; (split; [done|]); done.
Qed.

Lemma pull_step_empty a pc c :
  cache_cached c = false -> pull_ok c pc ->
  let '(pc', c', asked) := pull_step a pc c in
  pull_ok c' pc'
  /\ (asked = false -> c' = c)
  /\ (asked = true -> c' = mkCache (bool_decide (a.2 = None)) a.1).
Proof.
  intros Hc Hok. destruct pc as [| |[e|]|ps [e|]]; cbn in *; rewrite ?Hc; cbn; try done; try congruence.
  - destruct a as [ps [e|]]; done.
  - destruct Hok. congruence.
Qed.

Lemma pull_ok_empty c c' pc :
  cache_cached c = false -> pull_ok c pc -> pull_ok c' pc.
Proof.
  intros Hc. destruct pc as [| |[e|]|ps [e|]]; cbn; try done; [congruence|]. intros [? _]. congruence.
Qed.

Lemma cache_step_inv sys sys' : cache_step sys sys' -> cache_inv sys -> cache_inv sys'.
Proof.
  intros Hs [Hp He Hf].
  destruct Hs as [c pulls answers|i pc pc' c c' asked a pulls answers Hi Hstep]; cbn in *.
  - split; cbn; [|done..]. apply Forall_app. split; [done|]. by apply Forall_singleton.
  - pose proof (Forall_lookup_1 _ _ _ _ Hp Hi) as Hok. destruct (cache_cached c) eqn:Hc.
    + destruct (pull_step_cached a pc c Hc Hok) as (pc1 & Hs1 & Hok1).
      rewrite Hstep in Hs1. injection Hs1 as -> -> ->.
      split; cbn; [by apply Forall_insert|congruence|by intros _; apply Hf].
    + pose proof (pull_step_empty a pc c Hc Hok) as H. rewrite Hstep in H. destruct H as (Hok1 & Hsame & Hask).
      assert (Hall : Forall (pull_ok c') (<[i:=pc']> pulls)).
      { apply Forall_insert; [|done]. eapply Forall_impl; [exact Hp|]. intros q. by apply pull_ok_empty. }
      specialize (He eq_refl). destruct asked; split; cbn; try done.
      * rewrite Hask by done. cbn. intros H%bool_decide_eq_false. by constructor.
      * rewrite Hask by done. cbn. intros H%bool_decide_eq_true. exists answers. split; [|done].
        destruct a as [ps e]. cbn in *. by subst.
      * rewrite Hsame by done. by rewrite Hc.
Qed.

Lemma cache_reachable_inv sys : rtc cache_step cache_initial sys -> cache_inv sys.
Proof.
  assert (H0 : cache_inv cache_initial) by (split; cbn; [done|by constructor|done]).
  intros H. revert H0. induction H as [|s1 s2 s3 H12 _ IH]; [done|].
  intros H1. by apply IH, (cache_step_inv s1).
Qed.

(** ** The property *)

(** C37. The cache is filled once.  Whatever goroutines interleave, every call
    of [Policies] that returns without error returns the policies of the one
    answer of the source that was not an error, which was its last: the source
    is not asked again.  Each critical section brings a call nearer its end. *)
Theorem cacheprov_fills_once sys :
  rtc cache_step cache_initial sys ->
  (forall ps, PullReturned ps None ∈ cs_pulls sys ->
     exists l, cs_answers sys = (ps, None) :: l /\ Forall failed l)
  /\ (forall ps ps', PullReturned ps None ∈ cs_pulls sys -> PullReturned ps' None ∈ cs_pulls sys ->
        ps = ps')
  /\ (forall a pc, 0 < pull_rank pc ->
        pull_rank (pull_step a pc (cs_cache sys)).1.1 < pull_rank pc).
Proof.
  intros [Hp He Hf]%cache_reachable_inv. rewrite Forall_forall in Hp. split_and!.
  - intros ps Hps. destruct (Hp _ Hps) as [Hc ->]. by apply Hf.
  - intros ps ps' H1 H2. destruct (Hp _ H1) as [_ ->]. by destruct (Hp _ H2) as [_ ->].
  - intros a pc. destruct pc; cbn; try lia; intros _; destruct (cache_cached (cs_cache sys)); cbn; try lia.
    destruct a as [ps e]. cbn. lia.
Qed.


(** ** Witness *)

Definition cached_policy : Policy := Policy_New "res" Strategy_Instance 3 0%Z [].

Lemma cache_run i a sys sys' :
  (exists pc pc' c' asked, cs_pulls sys !! i = Some pc
     /\ pull_step a pc (cs_cache sys) = (pc', c', asked)
     /\ sys' = mkCacheSystem c' (<[i := pc']> (cs_pulls sys))
                 (if asked then a :: cs_answers sys else cs_answers sys)) ->
  cache_step sys sys'.
Proof.
  intros (pc & pc' & c' & asked & Hi & Hs & ->). destruct sys. by eapply cache_step_run.
Qed.

(** Two goroutines find the cache empty; the first one's request fails, the
    second one's does not, and both return the policies. *)
Definition two_pulls : cache_system :=
  mkCacheSystem (mkCache true [cached_policy])
    [PullReturned [cached_policy] (Some "down"); PullReturned [cached_policy] None]
    [([cached_policy], None); ([], Some "down")].

Lemma two_pulls_reachable : rtc cache_step cache_initial two_pulls.
Proof.
  do 2 (eapply rtc_l; [apply cache_step_call|]).
  eapply rtc_l; [apply (cache_run 0 ([], None)); repeat eexists|].
  eapply rtc_l; [apply (cache_run 1 ([], None)); repeat eexists|].
  eapply rtc_l; [apply (cache_run 0 ([], Some "down")); repeat eexists|].
  eapply rtc_l; [apply (cache_run 1 ([cached_policy], None)); repeat eexists|].
  eapply rtc_l; [apply (cache_run 1 ([], None)); repeat eexists|].
  eapply rtc_l; [apply (cache_run 0 ([], None)); repeat eexists|].
  apply rtc_refl.
Qed.

Lemma cacheprov_fills_once_witness :
  rtc cache_step cache_initial two_pulls
  /\ exists l, cs_answers two_pulls = ([cached_policy], None) :: l /\ Forall failed l.
Proof.
  split; [apply two_pulls_reachable|].
  apply (cacheprov_fills_once two_pulls two_pulls_reachable). right. left.
Defined.
