(* ===== verification/FsProv.v ===== *)
(** * The file system policy provider (provider/fsprov/provider.go)

    Policies are the [*.pol] files of one directory.  The directory is a map
    from names to entries; operations of the operating system may fail, which
    the class [FileErrors] decides.  Go ranges over a map in no particular
    order: [range_files] is that order. *)

From Stdlib Require Ascii.
From stdpp Require Import pretty.
From S2P Require Import Prelude GoStrings GoTime Lease Policy PolicyCodec.

(** ** The directory *)

Inductive FsEntry :=
| FsDir
| FsFile (contents : bytes).

Record FileSystem := mkFS { fs_entries : gmap string FsEntry }.

Class FileErrors := {
  (** [filepath.Join], for the texts of errors. *)
  filepath_Join : string -> string -> string;
  ReadDir_error : option error;
  ReadFile_error : string -> option error;
  (** A failed write leaves the file as it was, or with some other contents. *)
  WriteFile_error : string -> option (error * option bytes);
  Remove_error : string -> option error;
}.

Class FileRange := range_files : forall A, gmap string A -> list (string * A).
Class FileRangeSpec (FR : FileRange) : Prop :=
  range_files_perm : forall A (m : gmap string A), range_files A m ≡ₚ map_to_list m.

Definition String_le (x y : string * FsEntry) : Prop := String.leb x.1 y.1 = true.
#[export] Instance String_le_dec x y : Decision (String_le x y).
Proof. unfold String_le. apply _. Defined.

Section Files.
Context `{FE : FileErrors}.

(** [ioutil.ReadDir]: sorted by name. *)
Definition ReadDir (fs : FileSystem) : result (list (string * FsEntry)) :=
  match ReadDir_error with
  | Some e => Err e
  | None => Ok (merge_sort String_le (map_to_list (fs_entries fs)))
  end.

Definition ReadFile (name : string) (fs : FileSystem) : result bytes :=
  match ReadFile_error name with
  | Some e => Err e
  | None =>
      match fs_entries fs !! name with
      | Some (FsFile contents) => Ok contents
      | Some FsDir => Err "is a directory"
      | None => Err "no such file or directory"
      end
  end.

Definition put (name : string) (data : bytes) (fs : FileSystem) : FileSystem :=
  mkFS (<[name := FsFile data]> (fs_entries fs)).

Definition WriteFile (name : string) (data : bytes) (fs : FileSystem) : option error * FileSystem :=
  match fs_entries fs !! name with
  | Some FsDir => (Some "is a directory", fs)
  | _ =>
      match WriteFile_error name with
      | Some (e, None) => (Some e, fs)
      | Some (e, Some written) => (Some e, put name written fs)
      | None => (None, put name data fs)
      end
  end.

Definition Remove (name : string) (fs : FileSystem) : option error * FileSystem :=
  match Remove_error name with
  | Some e => (Some e, fs)
  | None =>
      match fs_entries fs !! name with
      | None => (Some "no such file or directory", fs)
      | Some _ => (None, mkFS (delete name (fs_entries fs)))
      end
  end.

(** ** The provider *)

Definition pol_suffix : string := ".pol".

(** [filepath.Match("*.pol", name)]: the star matches no separator. *)
Definition Match_pol (name : string) : bool :=
  HasSuffix name pol_suffix
  && forallb (fun c => negb (Ascii.eqb c (Ascii.ascii_of_nat 47)))
       (String.list_ascii_of_string (TrimSuffix name pol_suffix)).

Definition isPolicyFile (file : string * FsEntry) : bool :=
  match file.2 with
  | FsDir => false
  | FsFile _ => Match_pol file.1
  end.

Context `{PT : PolicyText}.
Context (path : string).

Definition FsProv_ProviderName : string := "Filesystem".

(** The loop of [Policies] over the files; it returns the policies read so far
    along with an error of the decoder. *)
Fixpoint Policies_loop (files : list (string * FsEntry)) (fs : FileSystem) (policies : PolicySet)
  : PolicySet * option error :=
  match files with
  | [] => (policies, None)
  | file :: files =>
      if negb (isPolicyFile file) then Policies_loop files fs policies
      else
        let name := filepath_Join path file.1 in
        match ReadFile file.1 fs with
        | Err e => ([], Some ("unable to read policy file " +:+ quoted name +:+ ": " +:+ e))
        | Ok contents =>
            match Policy_UnmarshalJSON contents zero_policy with
            | Err e => (policies, Some ("decoding error while parsing policy file " +:+ quoted name
                                        +:+ ": " +:+ e))
            | Ok pol =>
                if negb (Strategy_Valid (pol_Strategy pol)) then
                  (policies, Some ("invalid policy strategy in " +:+ quoted name +:+ ": "
                                   +:+ quoted (pol_Strategy pol)))
                else
                  let pol :=
                    if decide (pol_Duration pol = 0%Z)
                    then mkPolicy (pol_Resource pol) (pol_Criteria pol) (pol_Strategy pol)
                           (pol_Limit pol) DefaultDuration (pol_Decay pol) (pol_Refresh pol)
                           (pol_Properties pol)
                    else pol in
                  Policies_loop files fs (policies ++ [pol])
            end
        end
  end.

Definition FsProv_Policies (fs : FileSystem) : PolicySet * option error :=
  match ReadDir fs with
  | Err e => ([], Some ("unable to access policy directory " +:+ quoted path +:+ ": " +:+ e))
  | Ok files => Policies_loop files fs []
  end.

Context (sum224 : bytes -> bytes) `{MO : MapOrder, FR : FileRange}.

Definition pol_file (n : nat) (p : Policy) : string :=
  Hash_String (Policy_Hash sum224 n p) +:+ pol_suffix.

(** The files to write, by name. *)
Fixpoint newFiles_loop (i : nat) (policies : PolicySet) (newFiles : gmap string bytes)
  : result (gmap string bytes) :=
  match policies with
  | [] => Ok newFiles
  | pol :: policies =>
      match Policy_MarshalJSON pol with
      | Err e => Err ("failed to marshal json for policy " +:+ pretty i +:+ ": " +:+ e)
      | Ok content => newFiles_loop (S i) policies (<[pol_file i pol := content]> newFiles)
      end
  end.

(** The policy files that exist, and whether they are kept. *)
Fixpoint existing_loop (files : list (string * FsEntry)) (newFiles : gmap string bytes)
  (existingFiles : gmap string bool) : gmap string bool :=
  match files with
  | [] => existingFiles
  | file :: files =>
      if negb (isPolicyFile file) then existing_loop files newFiles existingFiles
      else
        let keep := bool_decide (is_Some (newFiles !! file.1)) in
        existing_loop files newFiles (<[file.1 := keep]> existingFiles)
  end.

Fixpoint write_loop (l : list (string * bytes)) (fs : FileSystem) : option error * FileSystem :=
  match l with
  | [] => (None, fs)
  | (name, data) :: l =>
      let '(err, fs) := WriteFile name data fs in
      match err with
      | Some e => (Some ("failed to write policy file " +:+ quoted name +:+ ": " +:+ e), fs)
      | None => write_loop l fs
      end
  end.

Fixpoint remove_loop (l : list (string * bool)) (fs : FileSystem) : option error * FileSystem :=
  match l with
  | [] => (None, fs)
  | (name, keep) :: l =>
      if (keep : bool) then remove_loop l fs
      else
        let '(err, fs) := Remove name fs in
        match err with
        | Some e => (Some ("failed to delete policy file " +:+ quoted name +:+ ": " +:+ e), fs)
        | None => remove_loop l fs
        end
  end.

Definition FsProv_SetPolicies (policies : PolicySet) (fs : FileSystem) : option error * FileSystem :=
  match newFiles_loop 0 policies ∅ with
  | Err e => (Some e, fs)
  | Ok newFiles =>
      match ReadDir fs with
      | Err e => (Some ("unable to access policy directory " +:+ quoted path +:+ ": " +:+ e), fs)
      | Ok files =>
          let existingFiles := existing_loop files newFiles ∅ in
          let '(err, fs) := write_loop (range_files _ newFiles) fs in
          match err with
          | Some e => (Some e, fs)
          | None => remove_loop (range_files _ existingFiles) fs
          end
      end
  end.
End Files.

(** ** Lemmas: the loops of [SetPolicies] *)

Section SetFacts.
Context `{FE : FileErrors, PT : PolicyText} (sum224 : bytes -> bytes) `{MO : MapOrder}.

Lemma newFiles_loop_Some i s m m' name c :
  newFiles_loop sum224 i s m = Ok m' -> m' !! name = Some c ->
  m !! name = Some c
  \/ exists k p, p ∈ s /\ name = pol_file sum224 k p /\ Policy_MarshalJSON p = Ok c.
Proof.
  revert i m. induction s as [|p s IH]; intros i m; cbn [newFiles_loop].
  - intros [= ->] H. by left.
  - destruct (Policy_MarshalJSON p) as [content|e] eqn:Hp; [|done]. intros H Hn.
    destruct (IH _ _ H Hn) as [Hm|(k & q & Hq & -> & Hc)].
    + apply lookup_insert_Some in Hm as [[<- <-]|[_ Hm]]; [|by left].
      right. exists i, p. split; [left|done].
    + right. exists k, q. split; [by right|done].
Qed.

Lemma newFiles_loop_mono i s m m' name :
  newFiles_loop sum224 i s m = Ok m' -> is_Some (m !! name) -> is_Some (m' !! name).
Proof.
  revert i m. induction s as [|p s IH]; intros i m; cbn [newFiles_loop]; [by intros [= ->]|].
  destruct (Policy_MarshalJSON p) as [content|e]; [|done]. intros H Hm. apply (IH _ _ H).
  rewrite lookup_insert. case_decide; [by eexists|done].
Qed.

Lemma newFiles_loop_elem i s m m' p :
  newFiles_loop sum224 i s m = Ok m' -> p ∈ s -> exists k, is_Some (m' !! pol_file sum224 k p).
Proof.
  revert i m. induction s as [|q s IH]; intros i m; cbn [newFiles_loop]; [by intros _ ?%not_elem_of_nil|].
  destruct (Policy_MarshalJSON q) as [content|e]; [|done]. intros H [->|Hp]%elem_of_cons.
  - exists i. eapply newFiles_loop_mono; [exact H|]. rewrite lookup_insert_eq. by eexists.
  - by apply (IH _ _ H).
Qed.

Lemma newFiles_loop_total i s m :
  Forall (fun p => is_Ok (Policy_MarshalJSON p)) s -> exists m', newFiles_loop sum224 i s m = Ok m'.
Proof.
  intros Hs. revert i m. induction Hs as [|p s [c Hc] Hs IH]; intros i m; cbn [newFiles_loop]; [eauto|].
  rewrite Hc. apply IH.
Qed.

Lemma existing_loop_lookup files newFiles m name :
  existing_loop files newFiles m !! name
  = if decide (Exists (fun f => f.1 = name /\ isPolicyFile f = true) files)
    then Some (bool_decide (is_Some (newFiles !! name))) else m !! name.
Proof.
  revert m. induction files as [|[n e] files IH]; intros m; cbn [existing_loop].
  - rewrite decide_False; [done|]. by intros ?%Exists_nil.
  - destruct (isPolicyFile (n, e)) eqn:Hp; cbn [negb]; rewrite IH.
    + cbn [fst]. destruct (decide (name = n)) as [->|Hne].
      * rewrite lookup_insert_eq. destruct (decide (Exists _ (_ :: files))) as [_|[]]; [|by left].
        by destruct (decide _).
      * rewrite lookup_insert_ne by done. apply decide_ext. rewrite Exists_cons. split; [by right|].
        intros [[H _]|H]; [by destruct Hne|done].
    + apply decide_ext. rewrite Exists_cons. split; [by right|]. intros [[_ H]|H]; [congruence|done].
Qed.

(** Writing: what has been written is there; other files are as they were. *)
Lemma WriteFile_spec name data fs :
  let '(err, fs') := WriteFile name data fs in
  (forall n, n <> name -> fs_entries fs' !! n = fs_entries fs !! n)
  /\ (is_Some (fs_entries fs !! name) -> is_Some (fs_entries fs' !! name))
  /\ (err = None -> fs_entries fs' !! name = Some (FsFile data)).
Proof.
  unfold WriteFile, put.
  destruct (fs_entries fs !! name) as [[|old]|] eqn:Hn; [by rewrite Hn|..];
    destruct (WriteFile_error name) as [[e [w|]]|]; cbn [fs_entries]; split_and!;
    intros; rewrite ?lookup_insert_ne, ?lookup_insert_eq in * by done; try done; congruence.
Qed.

Lemma write_loop_spec l fs err fs' :
  write_loop l fs = (err, fs') -> NoDup l.*1 ->
  (forall n, n ∉ l.*1 -> fs_entries fs' !! n = fs_entries fs !! n)
  /\ (forall n, is_Some (fs_entries fs !! n) -> is_Some (fs_entries fs' !! n))
  /\ (err = None -> forall n c, (n, c) ∈ l -> fs_entries fs' !! n = Some (FsFile c)).
Proof.
  revert fs. induction l as [|[name data] l IH]; intros fs; cbn [write_loop].
  - intros [= <- <-] _. split_and!; [done..|]. by intros _ n c ?%not_elem_of_nil.
  - cbn [fmap list_fmap fst]. intros H [Hname Hnd]%NoDup_cons.
    pose proof (WriteFile_spec name data fs) as Hw.
    destruct (WriteFile name data fs) as [[e|] fs1]; destruct Hw as (Hother & Hkeep & Hdone).
    + injection H as <- <-. split_and!; [|intros n; destruct (decide (n = name)) as [->|]; [done|by rewrite Hother]|done].
      intros n [? ?]%not_elem_of_cons. by apply Hother.
    + destruct (IH fs1 H Hnd) as (H1 & H2 & H3). split_and!.
      * intros n [? ?]%not_elem_of_cons. rewrite H1 by done. by apply Hother.
      * intros n Hn. apply H2. destruct (decide (n = name)) as [->|]; [by apply Hkeep|by rewrite Hother].
      * intros -> n c [[= -> ->]|Hin]%elem_of_cons; [|by apply H3].
        rewrite H1 by done. by apply Hdone.
Qed.

Lemma write_loop_total l fs :
  (forall n, WriteFile_error n = None) -> NoDup l.*1 ->
  (forall n, n ∈ l.*1 -> fs_entries fs !! n <> Some FsDir) ->
  exists fs', write_loop l fs = (None, fs').
Proof.
  intros He. revert fs. induction l as [|[name data] l IH]; intros fs; cbn [write_loop]; [eauto|].
  cbn [fmap list_fmap fst]. intros [Hname Hnd]%NoDup_cons Hdir.
  assert (Hw : WriteFile name data fs = (None, put name data fs)).
  { unfold WriteFile. rewrite He. specialize (Hdir name ltac:(left)).
    by destruct (fs_entries fs !! name) as [[]|]. }
  rewrite Hw. apply IH; [done|]. intros n Hn. unfold put. cbn [fs_entries].
  rewrite lookup_insert_ne by (by intros ->). apply Hdir. by right.
Qed.

(** Removing: only files that are not kept, and nothing is created. *)
Lemma remove_loop_spec l fs err fs' :
  remove_loop l fs = (err, fs') ->
  (forall n, (n, false) ∉ l -> fs_entries fs' !! n = fs_entries fs !! n)
  /\ (err = None -> forall n, (n, false) ∈ l -> fs_entries fs' !! n = None).
Proof.
  assert (Hgone : forall l fs err fs' n, remove_loop l fs = (err, fs') ->
    fs_entries fs !! n = None -> fs_entries fs' !! n = None).
  { clear. induction l as [|[name [|]] l IH]; intros fs err fs' n; cbn [remove_loop]; [by intros [= <- <-]|apply IH|].
    unfold Remove. destruct (Remove_error name); [by intros [= <- <-]|].
    destruct (fs_entries fs !! name); [|by intros [= <- <-]]. intros H Hn. apply (IH _ _ _ _ H).
    cbn. rewrite lookup_delete. by case_decide. }
  revert fs. induction l as [|[name [|]] l IH]; intros fs; cbn [remove_loop].
  - intros [= <- <-]. split; [done|]. by intros _ n ?%not_elem_of_nil.
  - intros [H1 H2]%IH. split.
    + intros n [_ Hn]%not_elem_of_cons. by apply H1.
    + intros -> n [?|Hn]%elem_of_cons; [done|by apply H2].
  - unfold Remove. destruct (Remove_error name) as [e|]; [by intros [= <- <-]|].
    destruct (fs_entries fs !! name) as [x|] eqn:Hx; [|by intros [= <- <-]].
    intros H. destruct (IH _ H) as [H1 H2]. split.
    + intros n [Hne Hn]%not_elem_of_cons. rewrite H1 by done. cbn. apply lookup_delete_ne. congruence.
    + intros -> n [[= ->]|Hn]%elem_of_cons; [|by apply H2]. apply (Hgone _ _ _ _ _ H). cbn.
      apply lookup_delete_eq.
Qed.

Lemma remove_loop_total l fs :
  (forall n, Remove_error n = None) -> NoDup l.*1 ->
  (forall n, n ∈ l.*1 -> is_Some (fs_entries fs !! n)) ->
  exists fs', remove_loop l fs = (None, fs').
Proof.
  intros He. revert fs. induction l as [|[name keep] l IH]; intros fs; cbn [remove_loop]; [eauto|].
  cbn [fmap list_fmap fst]. intros [Hname Hnd]%NoDup_cons Hin.
  assert (Hrest : forall n, n ∈ l.*1 -> is_Some (fs_entries fs !! n)) by (intros; apply Hin; by right).
  destruct keep; [by apply IH|]. unfold Remove. rewrite He.
  destruct (Hin name ltac:(left)) as [x ->]. apply IH; [done|].
  intros n Hn. cbn. rewrite lookup_delete_ne by (by intros ->). by apply Hrest.
Qed.
End SetFacts.

(** ** Lemmas: the directory after [SetPolicies] *)

Lemma String_list_app a b :
  String.list_ascii_of_string (a +:+ b) = String.list_ascii_of_string a ++ String.list_ascii_of_string b.
Proof. induction a as [|c a IH]; [done|]. rewrite String_app. cbn. by rewrite IH. Qed.

Lemma Match_pol_file sum224 `{MO : MapOrder} k p : Match_pol (pol_file sum224 k p) = true.
Proof.
  unfold Match_pol, pol_file. destruct (HasSuffix_app (Hash_String (Policy_Hash sum224 k p)) pol_suffix)
    as [-> ->]. cbn [andb]. rewrite forallb_forall. intros c Hc.
  pose proof (base64_slash_free (Policy_Hash sum224 k p)) as H. unfold slash_free in H.
  rewrite Forall_forall in H. specialize (H c). rewrite negb_true_iff. apply Ascii.eqb_neq, H.
  by apply list_elem_of_In.
Qed.

Lemma pol_file_inj sum224 `{MO : MapOrder} k1 k2 p q :
  pol_file sum224 k1 p = pol_file sum224 k2 q -> Policy_Hash sum224 k1 p = Policy_Hash sum224 k2 q.
Proof.
  unfold pol_file, Hash_String. intros H. apply base64_inj.
  apply (f_equal (fun s => TrimSuffix s pol_suffix)) in H.
  by rewrite !(proj2 (HasSuffix_app _ _)) in H.
Qed.

Lemma ReadDir_elem `{FE : FileErrors} fs files name e :
  ReadDir fs = Ok files -> (name, e) ∈ files <-> fs_entries fs !! name = Some e.
Proof.
  unfold ReadDir. destruct ReadDir_error; [done|]. intros [= <-].
  rewrite merge_sort_Permutation. apply elem_of_map_to_list.
Qed.

Section SetSpec.
Context `{FE : FileErrors, PT : PolicyText} (path : string) (sum224 : bytes -> bytes).
Context `{MO : MapOrder, FR : FileRange, HFR : !FileRangeSpec FR}.

Lemma range_keys {A} (m : gmap string A) : NoDup (range_files _ m).*1.
Proof. rewrite (range_files_perm _ m). apply NoDup_fst_map_to_list. Qed.

Lemma range_elem {A} (m : gmap string A) n x : (n, x) ∈ range_files _ m <-> m !! n = Some x.
Proof. rewrite (range_files_perm _ m). apply elem_of_map_to_list. Qed.

Lemma range_elem_key {A} (m : gmap string A) n : n ∈ (range_files _ m).*1 <-> is_Some (m !! n).
Proof.
  rewrite list_elem_of_fmap. split.
  - intros ([k x] & -> & H%range_elem). by exists x.
  - intros [x H%range_elem]. by exists (n, x).
Qed.

(** The files that are deleted: those of policies that are not in the new set. *)
Lemma existing_false fs files m n :
  ReadDir fs = Ok files ->
  existing_loop files m ∅ !! n = Some false
  <-> m !! n = None /\ exists e, fs_entries fs !! n = Some e /\ isPolicyFile (n, e) = true.
Proof.
  intros Hf. rewrite existing_loop_lookup, lookup_empty.
  assert (HE : Exists (fun f => f.1 = n /\ isPolicyFile f = true) files
    <-> exists e, fs_entries fs !! n = Some e /\ isPolicyFile (n, e) = true).
  { rewrite Exists_exists. split.
    - intros ([n' e] & Hin & Hn & Hp). cbn in Hn. subst n'. exists e. split; [|done].
      by apply (ReadDir_elem fs files).
    - intros (e & He & Hp). exists (n, e). split; [|done]. by apply (ReadDir_elem fs files). }
  case_decide as Hd; rewrite HE in Hd; split.
  - intros [= H%bool_decide_eq_false]. split; [by apply eq_None_not_Some|done].
  - intros [-> _]. done.
  - done.
  - by intros [_ H].
Qed.

(** Whatever happens, policy files only disappear once the new ones are in place. *)
Lemma SetPolicies_steps s fs err fs' :
  FsProv_SetPolicies path sum224 s fs = (err, fs') ->
  err <> None /\ fs' = fs \/ exists m files, newFiles_loop sum224 0 s ∅ = Ok m /\ ReadDir fs = Ok files
    /\ (forall n, m !! n = None ->
          (forall e, fs_entries fs !! n = Some e -> isPolicyFile (n, e) = false) ->
          fs_entries fs' !! n = fs_entries fs !! n)
    /\ (forall n, is_Some (fs_entries fs !! n) -> fs_entries fs' !! n = None ->
          m !! n = None /\ forall n' c, m !! n' = Some c -> fs_entries fs' !! n' = Some (FsFile c))
    /\ (err = None -> forall n, fs_entries fs' !! n
        = match m !! n with
          | Some c => Some (FsFile c)
          | None => match fs_entries fs !! n with
                    | Some e => if isPolicyFile (n, e) then None else Some e
                    | None => None
                    end
          end).
Proof.
  unfold FsProv_SetPolicies. destruct (newFiles_loop sum224 0 s ∅) as [m|e] eqn:Hm; [|by intros [= <- <-]; left].
  destruct (ReadDir fs) as [files|e] eqn:Hf; [|by intros [= <- <-]; left].
  destruct (write_loop (range_files _ m) fs) as [err1 fs1] eqn:Hw.
  pose proof (write_loop_spec _ _ _ _ Hw (range_keys m)) as (W1 & W2 & W3).
  assert (Wout : forall n, m !! n = None -> fs_entries fs1 !! n = fs_entries fs !! n).
  { intros n Hn. apply W1. rewrite range_elem_key, Hn. by intros []. }
  intros H. right. exists m, files. split; [done|]. split; [done|]. destruct err1 as [e|].
  - injection H as <- <-. split_and!; [by intros; apply Wout| |done].
    intros n Hn Hnone. apply W2 in Hn. rewrite Hnone in Hn. by destruct Hn.
  - specialize (W3 eq_refl). apply remove_loop_spec in H as [R1 R2].
    assert (Rkeep : forall n c, m !! n = Some c -> fs_entries fs' !! n = Some (FsFile c)).
    { intros n c Hc. rewrite R1; [apply W3; by apply range_elem|].
      rewrite range_elem, (existing_false fs) by done. intros [? _]. congruence. }
    split_and!.
    + intros n Hn Hp. rewrite R1; [by apply Wout|].
      rewrite range_elem, (existing_false fs) by done. intros (_ & e & He & Hpe).
      rewrite (Hp e He) in Hpe. done.
    + intros n Hsome Hnone. destruct (m !! n) as [c|] eqn:Hn; [|done].
      rewrite (Rkeep n c Hn) in Hnone. done.
    + intros -> n. destruct (m !! n) as [c|] eqn:Hn; [by apply Rkeep|].
      destruct (decide ((n, false) ∈ range_files _ (existing_loop files m ∅))) as [Hin|Hin].
      * rewrite (R2 eq_refl n Hin). rewrite range_elem, (existing_false fs) in Hin by done.
        destruct Hin as (_ & e & -> & ->). done.
      * rewrite R1, Wout by done. rewrite range_elem, (existing_false fs) in Hin by done.
        destruct (fs_entries fs !! n) as [e|]; [|done]. destruct (isPolicyFile (n, e)) eqn:Hp; [|done].
        destruct Hin. split; [done|]. by exists e.
Qed.

Definition no_file_errors : Prop :=
  ReadDir_error = None /\ (forall n, ReadFile_error n = None)
  /\ (forall n, WriteFile_error n = None) /\ (forall n, Remove_error n = None).

(** Directories do not bear the names of policy files. *)
Definition no_policy_dirs (fs : FileSystem) : Prop :=
  forall n, fs_entries fs !! n = Some FsDir -> Match_pol n = false.

Lemma SetPolicies_total s fs :
  no_file_errors -> no_policy_dirs fs -> Forall (fun p => is_Ok (Policy_MarshalJSON p)) s ->
  exists fs', FsProv_SetPolicies path sum224 s fs = (None, fs').
Proof.
  intros (Hrd & _ & Hwe & Hre) Hdirs Hs. unfold FsProv_SetPolicies.
  destruct (newFiles_loop_total sum224 0 s ∅ Hs) as [m Hm]. rewrite Hm.
  assert (exists files, ReadDir fs = Ok files) as [files Hf] by (unfold ReadDir; rewrite Hrd; eauto).
  rewrite Hf. destruct (write_loop_total (range_files _ m) fs Hwe (range_keys m)) as [fs1 Hw].
  { intros n [c Hn]%range_elem_key Hd. apply Hdirs in Hd.
    destruct (newFiles_loop_Some _ _ _ _ _ _ _ Hm Hn) as [He|(k & p & _ & -> & _)];
      [by rewrite lookup_empty in He|]. by rewrite Match_pol_file in Hd. }
  rewrite Hw. apply remove_loop_total; [done|apply range_keys|].
  intros n [keep Hk]%range_elem_key.
  destruct (write_loop_spec _ _ _ _ Hw (range_keys m)) as (_ & W2 & _). apply W2.
  rewrite existing_loop_lookup, lookup_empty in Hk. case_decide as Hd; [|done].
  apply Exists_exists in Hd as ([n' e] & Hin & <- & _).
  exists e. by apply (ReadDir_elem fs files).
Qed.
End SetSpec.

(** ** Lemmas: reading the directory *)

Section ReadFacts.
Context `{FE : FileErrors, PT : PolicyText} (path : string).

(** The file holds the policy [p]. *)
Definition loads (fs : FileSystem) (name : string) (p : Policy) : Prop :=
  exists c, ReadFile name fs = Ok c /\ Policy_UnmarshalJSON c zero_policy = Ok p.

Lemma loads_det fs name p q : loads fs name p -> loads fs name q -> p = q.
Proof. intros (c & Hc & Hp) (d & Hd & Hq). congruence. Qed.

(** A policy as it comes out of a file: without a duration it gets the default. *)
Definition as_read (p : Policy) : Policy :=
  if decide (pol_Duration p = 0%Z)
  then mkPolicy (pol_Resource p) (pol_Criteria p) (pol_Strategy p) (pol_Limit p) DefaultDuration
         (pol_Decay p) (pol_Refresh p) (pol_Properties p)
  else p.

Lemma as_read_kept p : pol_Duration p <> 0%Z -> as_read p = p.
Proof. intros H. unfold as_read. by rewrite decide_False. Qed.

(** The policy files among the entries hold policies of known strategies. *)
Definition readable (files : list (string * FsEntry)) (fs : FileSystem) : Prop :=
  forall file, file ∈ files -> isPolicyFile file = true ->
    exists p, loads fs file.1 p /\ Strategy_Valid (pol_Strategy p) = true.

Lemma Policies_loop_spec files fs acc :
  readable files fs ->
  exists ps, Policies_loop path files fs acc = (acc ++ ps, None)
    /\ forall q, q ∈ ps <-> exists file p, file ∈ files /\ isPolicyFile file = true
                             /\ loads fs file.1 p /\ q = as_read p.
Proof.
  revert acc. induction files as [|f files IH]; intros acc Hall; cbn [Policies_loop].
  - exists []. rewrite app_nil_r. split; [done|]. intros p. split; [by intros ?%not_elem_of_nil|].
    by intros (file & q & ?%not_elem_of_nil & _).
  - assert (Hrest : readable files fs) by (intros file Hin; apply Hall; by right).
    destruct (isPolicyFile f) eqn:Hp; cbn [negb].
    + destruct (Hall f ltac:(left) Hp) as (p & Hl & Hv). pose proof Hl as (c & -> & ->).
      rewrite Hv. cbn [negb]. fold (as_read p).
      destruct (IH (acc ++ [as_read p]) Hrest) as (ps & -> & Hps). exists (as_read p :: ps).
      rewrite <- (assoc_L (++)). split; [done|]. intros q. rewrite elem_of_cons, Hps. split.
      * intros [->|(file & r & Hin & H)]; [exists f, p; split; [left|done]|exists file, r; split; [by right|done]].
      * intros (file & r & [->|Hin]%elem_of_cons & Hf & Hq & ->); [left|right; by exists file, r].
        by rewrite (loads_det _ _ _ _ Hq Hl).
    + destruct (IH acc Hrest) as (ps & -> & Hps). exists ps. split; [done|]. intros q. rewrite Hps. split.
      * intros (file & r & Hin & H). exists file, r. split; [by right|done].
      * intros (file & r & [->|Hin]%elem_of_cons & Hf & Hq); [congruence|by exists file, r].
Qed.

(** One file whose policy has an unknown strategy makes the loop fail. *)
Lemma Policies_loop_refused files fs acc file p :
  (forall file, file ∈ files -> isPolicyFile file = true -> exists q, loads fs file.1 q) ->
  file ∈ files -> isPolicyFile file = true -> loads fs file.1 p ->
  Strategy_Valid (pol_Strategy p) = false ->
  exists ps e, Policies_loop path files fs acc = (ps, Some e).
Proof.
  revert acc. induction files as [|f files IH]; intros acc Hall Hin Hf Hl Hv; [by apply not_elem_of_nil in Hin|].
  assert (Hrest : forall file, file ∈ files -> isPolicyFile file = true -> exists q, loads fs file.1 q)
    by (intros g Hg; apply Hall; by right).
  cbn [Policies_loop]. apply elem_of_cons in Hin as [->|Hin].
  - rewrite Hf. destruct Hl as (c & -> & ->). rewrite Hv. cbn [negb]. by do 2 eexists.
  - destruct (isPolicyFile f) eqn:Hp; cbn [negb]; [|by apply IH].
    destruct (Hall f ltac:(left) Hp) as (q & c & -> & ->).
    destruct (Strategy_Valid (pol_Strategy q)); cbn [negb]; [by apply IH|by do 2 eexists].
Qed.
End ReadFacts.

(** ** The properties *)

(** A policy that the codec represents: its integers are in range and JSON
    keeps its strings. *)
Record storable_policy `{PT : PolicyText, PS : !PolicyTextSpec PT} (p : Policy) : Prop := {
  sp_ok : policy_ok p;
  sp_text : policy_text p;
  sp_json : is_Ok (Policy_MarshalJSON p);
}.

(** A policy that [Policies] returns as it is. *)
Record plain_policy (p : Policy) : Prop := {
  pp_strategy : Strategy_Valid (pol_Strategy p) = true;
  pp_duration : pol_Duration p <> 0%Z;
}.

(** The policy files after a successful [SetPolicies], and what they hold. *)
Lemma SetPolicies_files `{FE : FileErrors, PT : PolicyText, PS : !PolicyTextSpec PT}
    (path : string) (sum224 : bytes -> bytes) `{MO : MapOrder}
    `{FR : FileRange, HFR : !FileRangeSpec FR} s fs fs' :
  (forall n, ReadFile_error n = None) -> Forall storable_policy s ->
  FsProv_SetPolicies path sum224 s fs = (None, fs') ->
  (forall n e, fs_entries fs' !! n = Some e -> isPolicyFile (n, e) = true ->
     exists k p, p ∈ s /\ n = pol_file sum224 k p /\ loads fs' n p)
  /\ (forall p, p ∈ s -> exists k e, fs_entries fs' !! pol_file sum224 k p = Some e
        /\ isPolicyFile (pol_file sum224 k p, e) = true)
  /\ (forall n e, fs_entries fs !! n = Some e -> isPolicyFile (n, e) = false ->
        Match_pol n = false -> fs_entries fs' !! n = Some e).
Proof.
  intros Hrf Hs Hset. rewrite Forall_forall in Hs.
  destruct (SetPolicies_steps path sum224 s fs None fs' Hset)
    as [[? _]|(m & files & Hm & Hf & _ & _ & Hfin)]; [done|]. specialize (Hfin eq_refl).
  assert (Hload : forall n c, m !! n = Some c -> exists k p, p ∈ s /\ n = pol_file sum224 k p /\ loads fs' n p).
  { intros n c Hc. pose proof (Hfin n) as Hn. rewrite Hc in Hn.
    destruct (newFiles_loop_Some _ _ _ _ _ _ _ Hm Hc) as [He|(k & p & Hp & -> & Hmar)];
      [by rewrite lookup_empty in He|]. exists k, p. split; [done|]. split; [done|].
    destruct (Hs p Hp). exists c. unfold ReadFile. rewrite Hrf, Hn. split; [done|].
    by apply Policy_JSON_roundtrip. }
  split_and!.
  - intros n e He Hpf. rewrite Hfin in He. destruct (m !! n) as [c|] eqn:Hc; [by apply (Hload n c)|].
    destruct (fs_entries fs !! n) as [e'|]; [|done].
    destruct (isPolicyFile (n, e')) eqn:He'; [done|]. congruence.
  - intros p Hp. destruct (newFiles_loop_elem _ _ _ _ _ _ Hm Hp) as (k & c & Hc).
    exists k, (FsFile c). split; [by rewrite Hfin, Hc|]. apply Match_pol_file.
  - intros n e He Hpf Hmatch. rewrite Hfin, He. destruct (m !! n) as [c|] eqn:Hc; [|by rewrite Hpf].
    destruct (Hload n c Hc) as (k & p & _ & -> & _). by rewrite Match_pol_file in Hmatch.
Qed.

Section ReadBack.
Context `{FE : FileErrors, PT : PolicyText, PS : !PolicyTextSpec PT}.
Context (path : string) (sum224 : bytes -> bytes) `{MO : MapOrder, MOS : !MapOrderSpec MO}.
Context `{FR : FileRange, HFR : !FileRangeSpec FR}.

(** Each policy of the set is the one of some policy file, and conversely. *)
Lemma SetPolicies_loads s fs fs' files :
  (forall n, ReadFile_error n = None) -> Forall storable_policy s -> digest_separates sum224 s ->
  FsProv_SetPolicies path sum224 s fs = (None, fs') -> ReadDir fs' = Ok files ->
  (forall file, file ∈ files -> isPolicyFile file = true -> exists p, p ∈ s /\ loads fs' file.1 p)
  /\ (forall p, p ∈ s -> exists file, file ∈ files /\ isPolicyFile file = true /\ loads fs' file.1 p).
Proof.
  intros Hrf Hs Hsep Hset Hf.
  destruct (SetPolicies_files path sum224 s fs fs' Hrf Hs Hset) as (Hin & Hout & _). split.
  - intros [n e] Hfile Hpf. apply (ReadDir_elem fs' files n e Hf) in Hfile.
    destruct (Hin n e Hfile Hpf) as (k & p & Hp & _ & Hl). by exists p.
  - intros p Hp. destruct (Hout p Hp) as (k & e & He & Hpf). exists (pol_file sum224 k p, e).
    split; [by apply (ReadDir_elem fs' files)|]. split; [done|].
    destruct (Hin _ e He Hpf) as (k' & q & Hq & Hfile & Hl).
    assert (p = q) as <-; [|done].
    apply (Policy_Hash_inj sum224 s k k'); [|done|done|done|by apply pol_file_inj].
    by eapply Forall_impl; [exact Hs|]; intros r Hr; apply Hr.
Qed.

(** What a successful [SetPolicies] writes, [Policies] reads. *)
Lemma SetPolicies_read s fs fs' :
  ReadDir_error = None -> (forall n, ReadFile_error n = None) ->
  Forall storable_policy s -> digest_separates sum224 s ->
  Forall (fun p => Strategy_Valid (pol_Strategy p) = true) s ->
  FsProv_SetPolicies path sum224 s fs = (None, fs') ->
  exists ps, FsProv_Policies path fs' = (ps, None) /\ forall q, q ∈ ps <-> q ∈ as_read <$> s.
Proof.
  intros Hrd Hrf Hs Hsep Hv Hset. rewrite Forall_forall in Hv.
  assert (exists files, ReadDir fs' = Ok files) as [files Hf] by (unfold ReadDir; rewrite Hrd; eauto).
  destruct (SetPolicies_loads s fs fs' files Hrf Hs Hsep Hset Hf) as [Hin Hout].
  destruct (Policies_loop_spec path files fs' []) as (ps & Hps & Hel).
  { intros file Hfile Hpf. destruct (Hin file Hfile Hpf) as (p & Hp & Hl). exists p. auto. }
  exists ps. split; [unfold FsProv_Policies; by rewrite Hf|]. intros q. rewrite Hel, list_elem_of_fmap. split.
  - intros (file & p & Hfile & Hpf & Hl & ->). destruct (Hin file Hfile Hpf) as (p' & Hp' & Hl').
    exists p. by rewrite (loads_det _ _ _ _ Hl Hl').
  - intros (p & -> & Hp). destruct (Hout p Hp) as (file & ? & ? & ?). by exists file, p.
Qed.

Lemma SetPolicies_refused s fs fs' :
  ReadDir_error = None -> (forall n, ReadFile_error n = None) ->
  Forall storable_policy s -> digest_separates sum224 s ->
  Exists (fun p => Strategy_Valid (pol_Strategy p) = false) s ->
  FsProv_SetPolicies path sum224 s fs = (None, fs') ->
  exists ps e, FsProv_Policies path fs' = (ps, Some e).
Proof.
  intros Hrd Hrf Hs Hsep [p [Hp Hv]]%Exists_exists Hset.
  assert (exists files, ReadDir fs' = Ok files) as [files Hf] by (unfold ReadDir; rewrite Hrd; eauto).
  destruct (SetPolicies_loads s fs fs' files Hrf Hs Hsep Hset Hf) as [Hin Hout].
  destruct (Hout p Hp) as (file & Hfile & Hpf & Hl). unfold FsProv_Policies. rewrite Hf.
  apply (Policies_loop_refused path files fs' [] file p); [|done..].
  intros g Hg Hgp. destruct (Hin g Hg Hgp) as (q & _ & Hq). by exists q.
Qed.

(** Plain policies come back unchanged. *)
Lemma SetPolicies_Policies s fs fs' :
  ReadDir_error = None -> (forall n, ReadFile_error n = None) ->
  Forall storable_policy s -> Forall plain_policy s -> digest_separates sum224 s ->
  FsProv_SetPolicies path sum224 s fs = (None, fs') ->
  exists ps, FsProv_Policies path fs' = (ps, None) /\ forall p, p ∈ ps <-> p ∈ s.
Proof.
  intros Hrd Hrf Hs Hplain Hsep Hset.
  destruct (SetPolicies_read s fs fs' Hrd Hrf Hs Hsep) as (ps & Hps & Hel); [|done|].
  { eapply Forall_impl; [exact Hplain|]. by intros p []. }
  exists ps. split; [done|]. intros p. rewrite Hel.
  assert (as_read <$> s = s) as ->; [|done]. clear -Hplain.
  induction Hplain as [|q s Hq _ IH]; [done|]. rewrite fmap_cons, IH. f_equal. apply as_read_kept, Hq.
Qed.
End ReadBack.

(** C35. The policy cache keeps what it is given.  If the codec represents the
    policies of the set and the digest tells them apart, then, without operating
    system errors, [SetPolicies] succeeds and leaves the files that hold no
    policy untouched.  If the strategies of all the policies are known, [Policies]
    then returns exactly the policies of the set, except that those without a
    duration come back with the default duration; if one of the strategies is
    unknown, [Policies] fails. *)
Theorem fs_policies_roundtrip `{FE : FileErrors, PT : PolicyText, PS : !PolicyTextSpec PT}
    (path : string) (sum224 : bytes -> bytes) `{MO : MapOrder, MOS : !MapOrderSpec MO}
    `{FR : FileRange, HFR : !FileRangeSpec FR} s fs :
  no_file_errors -> no_policy_dirs fs -> Forall storable_policy s -> digest_separates sum224 s ->
  exists fs', FsProv_SetPolicies path sum224 s fs = (None, fs')
    /\ (Forall (fun p => Strategy_Valid (pol_Strategy p) = true) s ->
         exists ps, FsProv_Policies path fs' = (ps, None)
           /\ (forall q, q ∈ ps <-> q ∈ as_read <$> s)
           /\ (forall p, p ∈ s -> pol_Duration p <> 0%Z -> p ∈ ps))
    /\ (Exists (fun p => Strategy_Valid (pol_Strategy p) = false) s ->
         exists ps e, FsProv_Policies path fs' = (ps, Some e))
    /\ (forall n e, fs_entries fs !! n = Some e -> isPolicyFile (n, e) = false ->
          fs_entries fs' !! n = Some e).
Proof.
  intros Herr Hdirs Hs Hsep.
  destruct (SetPolicies_total path sum224 s fs Herr Hdirs) as [fs' Hset];
    [by eapply Forall_impl; [exact Hs|]; intros p Hp; apply Hp|].
  pose proof Herr as (Hrd & Hrf & _).
  destruct (SetPolicies_files path sum224 s fs fs' Hrf Hs Hset) as (_ & _ & Hother).
  exists fs'. split; [done|]. split_and!.
  - intros Hv. destruct (SetPolicies_read path sum224 s fs fs' Hrd Hrf Hs Hsep Hv Hset) as (ps & Hps & Hel).
    exists ps. split_and!; [done..|]. intros p Hp Hd. rewrite Hel, <- (as_read_kept p Hd).
    by apply list_elem_of_fmap_2.
  - intros Hv. by apply (SetPolicies_refused path sum224 s fs fs').
  - intros n e He Hpf. apply Hother; [done|done|]. destruct e as [|c]; [by apply Hdirs|exact Hpf].
Qed.

(** C36. No policy is lost on the way.  Whatever fails, the files that hold no
    policy are untouched, and a policy file has only been deleted when it is
    not part of the new set and every file of the new set has been written. *)
Theorem fs_set_policies_safe `{FE : FileErrors, PT : PolicyText}
    (path : string) (sum224 : bytes -> bytes) `{MO : MapOrder}
    `{FR : FileRange, HFR : !FileRangeSpec FR} s fs :
  let '(err, fs') := FsProv_SetPolicies path sum224 s fs in
  (forall n e, fs_entries fs !! n = Some e -> Match_pol n = false -> fs_entries fs' !! n = Some e)
  /\ (forall n, is_Some (fs_entries fs !! n) -> fs_entries fs' !! n = None ->
        exists m, newFiles_loop sum224 0 s ∅ = Ok m /\ m !! n = None
          /\ forall n' c, m !! n' = Some c -> fs_entries fs' !! n' = Some (FsFile c)).
Proof.
  destruct (FsProv_SetPolicies path sum224 s fs) as [err fs'] eqn:Hset.
  destruct (SetPolicies_steps path sum224 s fs err fs' Hset)
    as [[_ ->]|(m & files & Hm & Hf & Hother & Hgone & _)].
  - split; [done|]. intros n [e He] Hn. congruence.
  - split.
    + intros n e He Hmatch. rewrite Hother; [done| |].
      * destruct (m !! n) as [c|] eqn:Hc; [|done].
        destruct (newFiles_loop_Some _ _ _ _ _ _ _ Hm Hc) as [Hn|(k & p & _ & -> & _)];
          [by rewrite lookup_empty in Hn|]. by rewrite Match_pol_file in Hmatch.
      * intros e' He'. destruct e'; [done|exact Hmatch].
    + intros n Hsome Hnone. destruct (Hgone n Hsome Hnone) as [Hn Hall]. by exists m.
Qed.

(** ** Witnesses *)

(** A codec that can represent every policy: a binary text of the codes of the
    structures and of the durations. *)
Fixpoint pos_text (p : positive) : string :=
  match p with
  | xH => "1"
  | xO p => String (Ascii.ascii_of_nat 48) (pos_text p)
  | xI p => String (Ascii.ascii_of_nat 49) (pos_text p)
  end.
Fixpoint text_pos (s : string) : option positive :=
  match s with
  | EmptyString => None
  | String _ EmptyString => Some xH
  | String c s => p ← text_pos s; Some (if Ascii.eqb c (Ascii.ascii_of_nat 48) then xO p else xI p)
  end.

Lemma text_pos_text p : text_pos (pos_text p) = Some p.
Proof.
  induction p as [p IH|p IH|]; [| |done]; cbn [pos_text text_pos]; rewrite IH;
    (destruct (pos_text p) eqn:Hp; [by destruct p|]; done).
Qed.

#[local] Instance Criterion_countable : Countable Criterion.
Proof.
  refine (inj_countable' (fun c => (crit_Key c, crit_Comparison c, crit_Value c))
    (fun '(k, c, v) => mkCriterion k c v) _). by intros [].
Defined.
#[local] Instance JSONPolicy_eq_dec : EqDecision JSONPolicy.
Proof. solve_decision. Defined.
#[local] Instance JSONPolicy_countable : Countable JSONPolicy.
Proof.
  refine (inj_countable' (fun j => (jp_Resource j, jp_Criteria j, (jp_Strategy j : string), jp_Limit j,
      jp_Duration j, jp_Decay j, jp_Active j, jp_Queued j, (jp_Properties j : gmap string string)))
    (fun '(a, b, c, d, e, f, g, h, i) => mkJSONPolicy a b c d e f g h i) _). by intros [].
Defined.

#[local] Instance sample_text : PolicyText := {|
  json_Marshal j := Ok (String.list_ascii_of_string (pos_text (encode j)));
  json_Unmarshal b _ :=
    match p ← text_pos (String.string_of_list_ascii b); decode p with
    | Some j => Ok j
    | None => Err "malformed"
    end;
|}.

#[local] Instance sample_text_spec : PolicyTextSpec sample_text.
Proof.
  refine {| json_keeps := fun _ => True |}.
  - intros j b _ [= <-]. cbn. rewrite String.string_of_list_ascii_of_string, text_pos_text. cbn.
    by rewrite decode_encode.
  - done.
Defined.

#[local] Instance sound_files : FileErrors := {|
  filepath_Join := fun dir name => dir +:+ "/" +:+ name;
  ReadDir_error := None;
  ReadFile_error := fun _ => None;
  WriteFile_error := fun _ => None;
  Remove_error := fun _ => None;
|}.
#[local] Instance listed_range : FileRange := fun A => map_to_list.
#[local] Instance listed_range_spec : FileRangeSpec listed_range.
Proof. intros A m. done. Qed.

Definition some_policy : Policy :=
  mkPolicy "res" [] Strategy_Instance 3 Minute 0%Z (mkRefresh 0%Z 0%Z) ∅.
Definition one_order : MapOrder := {| orders := fun _ => map_to_list; range := map_to_list |}.
Lemma one_order_spec : MapOrderSpec one_order.
Proof. done. Qed.

(** An outdated policy and a file that is none. *)
Definition old_directory : FileSystem :=
  mkFS {[ "old.pol" := FsFile []; "notes.txt" := FsFile [] ]}.

Lemma some_policy_storable : storable_policy some_policy.
Proof.
  split.
  - split; cbn; try done; try (unfold string_ok; cbn; lia);
      try (unfold in_int64, int64_min, int64_max, Minute, Second; lia).
  - split; try done.
  - by eexists.
Qed.

Lemma old_directory_dirs : no_policy_dirs old_directory.
Proof.
  intros n. cbn. by intros [[_ ?]|[_ [_ ?]%lookup_singleton_Some]]%lookup_insert_Some.
Qed.

Lemma fs_policies_roundtrip_witness :
  exists fs' ps, FsProv_SetPolicies (MO := one_order) "dir" (fun b => b) [some_policy] old_directory = (None, fs')
    /\ FsProv_Policies "dir" fs' = (ps, None) /\ some_policy ∈ ps
    /\ fs_entries fs' !! "notes.txt" = Some (FsFile []).
Proof.
  destruct (fs_policies_roundtrip (MO := one_order) (MOS := one_order_spec) "dir" (fun b => b)
    [some_policy] old_directory) as (fs' & Hset & Hread & _ & Hkeep).
  - split; [reflexivity|split; [reflexivity|split; reflexivity]].
  - apply old_directory_dirs.
  - apply Forall_cons_2; [apply some_policy_storable|apply Forall_nil_2].
  - intros p q l1 l2 _ _ _ _ H. exact H.
  - destruct Hread as (ps & Hps & _ & Hel); [apply Forall_cons_2; [reflexivity|apply Forall_nil_2]|].
    exists fs', ps. split; [exact Hset|]. split; [exact Hps|]. split; [apply Hel; [left|discriminate]|].
    apply Hkeep; [reflexivity|vm_compute; reflexivity].
Defined.

Lemma fs_set_policies_safe_witness :
  let '(_, fs') := FsProv_SetPolicies (MO := one_order) "dir" (fun b => b) [some_policy] old_directory in
  fs_entries fs' !! "notes.txt" = Some (FsFile []).
Proof.
  pose proof (fs_set_policies_safe (MO := one_order) "dir" (fun b => b) [some_policy] old_directory) as H.
  destruct (FsProv_SetPolicies (MO := one_order) "dir" (fun b => b) [some_policy] old_directory) as [err fs'].
  apply H; [reflexivity|vm_compute; reflexivity].
Defined.
