(* ===== verification/Provider.v ===== *)
(** * Lease providers (lease/provider.go)

    [LeaseProvider] is the source's interface, as state-passing operations;
    each operation of an implementation runs under its locks, so that it is one
    atomic step.  [LeaseProviderSpec] is what the clients of the interface
    rely on: a view returns the contents of a resource and a commit replaces
    them, exactly when nobody else has committed since the revision that the
    transaction was built on. *)

From S2P Require Import Prelude GoTime Lease LeaseSet Tx Refresh.

Class LeaseProvider (St : Type) := {
  LeaseResources : St -> result (list string);
  LeaseView : string -> St -> result (N * LeaseSet) * St;
  LeaseCommit : Tx -> St -> option error * St;
}.

(** The revision and the leases stored under a resource. *)
Abbreviation Contents := (string -> N * LeaseSet) (only parsing).

(** What a successful commit of [tx] makes of the contents [c]: the leases of
    the transaction under its resource, at the next revision.  A provider may
    number the revisions of all resources together. *)
Definition committed (tx : Tx) (c c' : Contents) : Prop :=
  (exists s, c' (tx_resource tx) = (wrapu64 ((c (tx_resource tx)).1 + 1), s)
     /\ s ≡ₚ tx_leases tx /\ sorted_set s)
  /\ forall r, r <> tx_resource tx ->
       (c' r).2 = (c r).2
       /\ ((c' r).1 = (c r).1 \/ (c' r).1 = wrapu64 ((c r).1 + 1)).

(** A transaction whose operations lead from [s] to its leases. *)
Definition built_on (tx : Tx) (s : LeaseSet) : Prop :=
  journal unique_ids (tx_ops tx) s (tx_leases tx) /\ sorted_set (tx_leases tx).

Class LeaseProviderSpec (St : Type) `{LP : LeaseProvider St} := {
  provider_valid : St -> Prop;
  contents : St -> Contents;
  LeaseView_spec r st :
    provider_valid st ->
    let '(v, st') := LeaseView r st in
    provider_valid st' /\ (forall r', contents st' r' = contents st r')
    /\ match v with Ok v => v = contents st r | Err _ => True end;
  LeaseCommit_spec tx st :
    provider_valid st ->
    let '(err, st') := LeaseCommit tx st in
    provider_valid st'
    /\ match err with
       | Some _ => forall r, contents st' r = contents st r
       | None =>
           if decide (tx_ops tx = []) then forall r, contents st' r = contents st r
           else tx_revision tx = (contents st (tx_resource tx)).1
                /\ (built_on tx (contents st (tx_resource tx)).2 ->
                    committed tx (contents st) (contents st'))
       end;
}.
