(* ===== verification/MemProv.v ===== *)
(** * The in-memory lease provider (provider/memprov/provider.go)

    A page per resource, created when it is first looked at.  A commit replays
    the operations of the transaction on the page it finds; [replay_journal]
    shows that this yields the leases of the transaction, whatever the order of
    the page. *)

From S2P Require Import Prelude GoTime Lease LeaseSet Tx Refresh Provider.

Record leasePage := mkPage {
  page_revision : N;
  page_leases : LeaseSet;
}.

Definition new_page : leasePage := mkPage 0 [].

Record MemProvider := mkMem {
  leasePages : gmap string leasePage;
}.

Definition MemProv_New : MemProvider := mkMem ∅.

(** [leasePage]: the page of the resource, created on demand. *)
Definition get_leasePage (resource : string) (p : MemProvider) : leasePage * MemProvider :=
  match leasePages p !! resource with
  | Some page => (page, p)
  | None => (new_page, mkMem (<[resource := new_page]> (leasePages p)))
  end.

(** In an order that the source leaves to the iteration over a map. *)
Definition MemProv_LeaseResources (p : MemProvider) : result (list string) :=
  Ok ((map_to_list (leasePages p)).*1).

Definition MemProv_LeaseView (resource : string) (p : MemProvider)
  : result (N * LeaseSet) * MemProvider :=
  let '(page, p) := get_leasePage resource p in
  (Ok (page_revision page, page_leases page), p).

(** One turn of the loop over the operations. *)
Definition commit_op (leases : LeaseSet) (op : Op) : LeaseSet :=
  match op_Type op with
  | OpCreate => leases ++ [op_Lease op]
  | OpUpdate =>
      let i := Set_Index leases (ls_Resource (op_Previous op)) (ls_Instance (op_Previous op)) in
      if decide (0 <= i)%Z then <[Z.to_nat i := Clone (op_Lease op)]> leases else leases
  | OpDelete =>
      let i := Set_Index leases (ls_Resource (op_Previous op)) (ls_Instance (op_Previous op)) in
      if decide (0 <= i)%Z then take (Z.to_nat i) leases ++ drop (S (Z.to_nat i)) leases else leases
  | OpNone => leases
  end.

Definition lock_conflict : error :=
  "Unable to commit lease transaction due to opportunistic lock conflict".

Section Commit.
Context `{SO : Sorter}.

Definition MemProv_LeaseCommit (tx : Tx) (p : MemProvider) : option error * MemProvider :=
  let ops := tx_ops tx in
  if decide (length ops = 0) then (None, p)
  else
    let '(page, p) := get_leasePage (tx_resource tx) p in
    if decide (page_revision page <> tx_revision tx) then (Some lock_conflict, p)
    else
      let revision := wrapu64 (page_revision page + 1) in
      let leases := foldl commit_op (page_leases page) ops in
      let leases := Sort leases in
      (None, mkMem (<[tx_resource tx := mkPage revision leases]> (leasePages p))).

#[export] Instance MemProv_provider : LeaseProvider MemProvider := {|
  LeaseResources := MemProv_LeaseResources;
  LeaseView := MemProv_LeaseView;
  LeaseCommit := MemProv_LeaseCommit;
|}.
End Commit.

(** ** Replaying operations *)

Lemma Set_Index_found s r i l :
  unique_ids s -> l ∈ s -> lease_id l = (r, i) ->
  exists n, Set_Index s r i = Z.of_nat n /\ s !! n = Some l.
Proof.
  intros Hu Hl Hid. pose proof (Set_Index_from_spec 0 s r i ltac:(lia)) as H.
  unfold Set_Index. injection Hid as Hr Hi.
  assert (Hm : Lease_MatchInstance l r i = true) by (by apply MatchInstance_true).
  destruct (Set_Index_from 0 s r i) as [|p|p] eqn:HI.
  3: { destruct H as [_ H]. rewrite Forall_forall in H. specialize (H l Hl). congruence. }
  all: destruct H as (n & x & Hz & Hn & Hx & _); exists n; (split; [lia|]).
  all: apply MatchInstance_true in Hx as [Hxr Hxi]; rewrite Hn; f_equal.
  all: apply list_elem_of_lookup in Hl as [m Hl].
  all: assert (Hnm : n = m) by
    (eapply NoDup_lookup; [exact Hu|rewrite list_lookup_fmap, Hn; reflexivity|
      rewrite list_lookup_fmap, Hl; cbn; unfold lease_id; congruence]); congruence.
Qed.

Lemma Permutation_lookup_split {A} (s : list A) n x :
  s !! n = Some x -> s ≡ₚ x :: take n s ++ drop (S n) s.
Proof.
  intros H. rewrite <- (take_drop_middle s n x H) at 1. by rewrite Permutation_middle.
Qed.

Lemma insert_Permutation {A} (s : list A) n x y :
  s !! n = Some x -> <[n := y]> s ≡ₚ y :: take n s ++ drop (S n) s.
Proof.
  intros H. rewrite insert_take_drop by (by eapply lookup_lt_Some). by rewrite Permutation_middle.
Qed.

(** Replaying one operation on a set that is, up to its order, the one the
    operation was recorded on. *)
Lemma commit_op_step s t op s1 :
  unique_ids s -> t ≡ₚ s -> op_step op s s1 -> commit_op t op ≡ₚ s1.
Proof.
  intros Hu Ht. assert (Hut : unique_ids t) by by rewrite Ht.
  assert (Hidx : forall r, s ≡ₚ op_Previous op :: r ->
    exists n, Set_Index t (ls_Resource (op_Previous op)) (ls_Instance (op_Previous op)) = Z.of_nat n
      /\ t !! n = Some (op_Previous op) /\ take n t ++ drop (S n) t ≡ₚ r).
  { intros r Hr. destruct (Set_Index_found t (ls_Resource (op_Previous op))
      (ls_Instance (op_Previous op)) (op_Previous op) Hut) as (n & Hn & Hl); [|done|].
    - rewrite Ht, Hr. by left.
    - exists n. split_and!; [done..|]. apply (Permutation_cons_inv (a := op_Previous op)).
      by rewrite <- Hr, <- Ht, <- (Permutation_lookup_split _ _ _ Hl). }
  unfold op_step, commit_op. destruct (op_Type op).
  - intros ->. done.
  - intros ->. rewrite Ht. by rewrite <- Permutation_cons_append.
  - intros (r & Hr & ->). destruct (Hidx r Hr) as (n & -> & Hl & Hrest).
    cbn zeta. rewrite decide_True, Nat2Z.id, Clone_id by lia.
    by rewrite (insert_Permutation _ _ _ _ Hl), Hrest.
  - intros (r & Hr & ->). destruct (Hidx r Hr) as (n & -> & Hl & Hrest).
    cbn zeta. by rewrite decide_True, Nat2Z.id by lia.
Qed.

Lemma replay_journal ops s t s' :
  journal unique_ids ops s s' -> t ≡ₚ s -> foldl commit_op t ops ≡ₚ s'.
Proof.
  intros Hj. revert t. induction Hj as [s s' Hu Hp|op ops s s1 s' Hu Hstep Hj IH]; intros t Ht; cbn.
  - by rewrite Ht.
  - apply IH. by apply (commit_op_step s).
Qed.

(** ** The provider's contract *)

Definition mem_contents (p : MemProvider) (r : string) : N * LeaseSet :=
  let page := default new_page (leasePages p !! r) in (page_revision page, page_leases page).

Lemma get_leasePage_spec r p page p' :
  get_leasePage r p = (page, p') ->
  mem_contents p r = (page_revision page, page_leases page)
  /\ forall r', mem_contents p' r' = mem_contents p r'.
Proof.
  unfold get_leasePage, mem_contents. destruct (leasePages p !! r) as [pg|] eqn:Hp.
  - intros [= <- <-]. done.
  - intros [= <- <-]. split; [done|]. intros r'. cbn. rewrite lookup_insert.
    case_decide; [by subst; rewrite Hp|done].
Qed.

Section Contract.
Context `{SO : Sorter, HSO : !SorterSpec SO}.

Lemma MemProv_commit_spec tx p :
  let '(err, p') := MemProv_LeaseCommit tx p in
  match err with
  | Some _ => tx_ops tx <> []
      /\ tx_revision tx <> (mem_contents p (tx_resource tx)).1
      /\ forall r, mem_contents p' r = mem_contents p r
  | None =>
      if decide (tx_ops tx = []) then forall r, mem_contents p' r = mem_contents p r
      else tx_revision tx = (mem_contents p (tx_resource tx)).1
        /\ (built_on tx (mem_contents p (tx_resource tx)).2 ->
            committed tx (mem_contents p) (mem_contents p'))
  end.
Proof.
  unfold MemProv_LeaseCommit. cbn zeta. destruct (tx_ops tx) as [|op ops] eqn:Hops; [done|].
  rewrite decide_False by done.
  destruct (get_leasePage (tx_resource tx) p) as [page p1] eqn:Hg.
  apply get_leasePage_spec in Hg as [Hr Hc]. rewrite Hr. cbn [fst snd].
  case_decide as Hrev; [split; [done|]; split; [by apply not_eq_sym|exact Hc]|].
  rewrite decide_False by done. split; [by destruct (decide (tx_revision tx = page_revision page)); auto;
    destruct (decide (page_revision page = tx_revision tx))|].
  intros [Hj Hs]. rewrite Hops in Hj. split.
  - rewrite Hr. unfold mem_contents. cbn [leasePages]. rewrite lookup_insert_eq. cbn.
    eexists. split; [done|]. split; [|apply Sort_sorted].
    rewrite Sort_perm. by apply (replay_journal (op :: ops) (page_leases page)).
  - intros r Hne. unfold mem_contents at 1 3. cbn [leasePages]. rewrite lookup_insert_ne by done.
    pose proof (Hc r) as Hcr. unfold mem_contents in Hcr. rewrite Hcr. split; [done|by left].
Qed.

#[export] Instance MemProv_spec : LeaseProviderSpec MemProvider.
Proof.
  refine {| provider_valid := fun _ => True; contents := mem_contents |}.
  - intros r p _. cbn. unfold MemProv_LeaseView.
    destruct (get_leasePage r p) as [page p1] eqn:Hg.
    apply get_leasePage_spec in Hg as [Hr Hc]. by rewrite Hr.
  - intros tx p _. cbn. pose proof (MemProv_commit_spec tx p) as H.
    destruct (MemProv_LeaseCommit tx p) as [[e|] p'].
    + by destruct H as (_ & _ & H).
    + done.
Defined.
End Contract.

(** ** The property *)

(** C12. Optimistic commits.  A commit to the in-memory provider succeeds
    exactly when the transaction is empty or its revision is the current one.
    A conflict changes nothing; a successful commit of a transaction built on
    the stored leases stores that transaction's leases, in order, at the next
    revision, and leaves the other resources alone. *)
Theorem memprov_commit_correct `{SO : Sorter, HSO : !SorterSpec SO} tx p :
  let '(err, p') := MemProv_LeaseCommit tx p in
  (err = None <-> tx_ops tx = [] \/ tx_revision tx = (mem_contents p (tx_resource tx)).1)
  /\ (err <> None \/ tx_ops tx = [] -> forall r, mem_contents p' r = mem_contents p r)
  /\ (err = None -> tx_ops tx <> [] -> built_on tx (mem_contents p (tx_resource tx)).2 ->
      committed tx (mem_contents p) (mem_contents p')).
Proof.
  pose proof (MemProv_commit_spec tx p) as H. destruct (MemProv_LeaseCommit tx p) as [[e|] p'].
  - destruct H as (Hops & Hrev & Hc). split_and!; [|done|done]. split; [done|]. by intros [?|?].
  - case_decide as Hops; [by split_and!; [split; [by left|]|..]|]. destruct H as [Hrev Hc].
    split_and!; [split; [by right|done]| |done]. by intros [?|?].
Qed.

(** ** A witness *)

Definition mem_lease : Lease := set_Status Active zero_lease.
Definition one_create : Tx := Tx_Create mem_lease (NewTx "res" 0 []).

Lemma memprov_commit_correct_witness :
  let '(err, p') := MemProv_LeaseCommit one_create MemProv_New in
  err = None /\ committed one_create (mem_contents MemProv_New) (mem_contents p')
  /\ mem_contents p' "res" = (1%N, [mem_lease]).
Proof.
  pose proof (memprov_commit_correct one_create MemProv_New) as H.
  assert (He : MemProv_LeaseCommit one_create MemProv_New
    = (None, mkMem (<["res" := mkPage 1 [mem_lease]]> (leasePages MemProv_New)))) by (vm_compute; reflexivity).
  rewrite He in H |- *. destruct H as (_ & _ & H).
  split; [reflexivity|]. split; [|vm_compute; reflexivity].
  apply H; [reflexivity|intros Hc; discriminate Hc|]. split.
  - eapply (journal_cons _ _ _ _ [mem_lease]);
      [apply NoDup_nil_2|by constructor|apply journal_nil; [apply NoDup_singleton|reflexivity]].
  - repeat constructor.
Defined.
