(* ===== verification/BoltProv.v ===== *)
(** * The bolt lease provider (provider/boltprov/provider.go)

    Leases are kept as JSON in one bucket of a bolt database, a key for each
    resource; the sequence of the bucket is the revision of every resource.
    The database is the class [Bolt]: functions on the contents that a
    transaction sees, and transactions that take effect entirely or not at all
    ([BoltSpec]).  The JSON codec is the class [LeaseText]. *)

From S2P Require Import Prelude GoStrings GoTime Lease LeaseSet Tx Refresh Provider MemProv.

(** ** The database and the codec *)

Class Bolt := {
  BoltDB : Type;
  (** What a transaction sees. *)
  BoltTx : Type;
  db_View : forall A, BoltDB -> (BoltTx -> result A) -> result A;
  db_Update : BoltDB -> (BoltTx -> result BoltTx) -> option error * BoltDB;
  db_Close : BoltDB -> option error * BoltDB;
  (** Buckets by name, and buckets in a bucket; a bucket in a bucket has a
      sequence, keys with values, and a cursor over them in which the value of
      a nested bucket is nil. *)
  HasBucket : BoltTx -> string -> bool;
  HasChild : BoltTx -> string -> string -> bool;
  CreateBucketIfNotExists : string -> BoltTx -> result BoltTx;
  CreateChildIfNotExists : string -> string -> BoltTx -> result BoltTx;
  Sequence : BoltTx -> string * string -> N;
  NextSequence : string * string -> BoltTx -> result BoltTx;
  Get : BoltTx -> string * string -> string -> option bytes;
  Put : string * string -> string -> bytes -> BoltTx -> result BoltTx;
  Delete : string * string -> string -> BoltTx -> result BoltTx;
  Cursor : BoltTx -> string * string -> list (string * option bytes);
}.

Class LeaseText := {
  leases_Marshal : LeaseSet -> result bytes;
  leases_Unmarshal : bytes -> result LeaseSet;
}.

(** ** The provider *)

Definition ResourcefulBucket : string := "resourceful".
Definition LeaseBucket : string := "lease".

Section BoltProvider.
Context `{BT : Bolt, LT : LeaseText}.

Record BoltProvider := mkBolt {
  bolt_db : BoltDB;
  bolt_root : string;
}.

Definition BoltProv_New (db : BoltDB) : BoltProvider := mkBolt db ResourcefulBucket.

Definition BoltProv_Close (p : BoltProvider) : option error * BoltProvider :=
  let '(err, db) := db_Close (bolt_db p) in (err, mkBolt db (bolt_root p)).

Definition BoltProv_ProviderName : string := "bolt db".

Definition BoltProv_LeaseResources (p : BoltProvider) : result (list string) :=
  db_View _ (bolt_db p) (fun btx =>
    if negb (HasBucket btx (bolt_root p)) then Ok []
    else if negb (HasChild btx (bolt_root p) LeaseBucket) then Ok []
    else Ok (omap (fun kv => match kv.2 with Some _ => Some kv.1 | None => None end)
               (Cursor btx (bolt_root p, LeaseBucket)))).

(** The function that [LeaseView] runs in its transaction. *)
Definition view_tx (root resource : string) (btx : BoltTx) : result (N * LeaseSet) :=
  if negb (HasBucket btx root) then Ok (0%N, [])
  else if negb (HasChild btx root LeaseBucket) then Ok (0%N, [])
  else
    let revision := Sequence btx (root, LeaseBucket) in
    match Get btx (root, LeaseBucket) resource with
    | None => Ok (revision, [])
    | Some data => leases ← leases_Unmarshal data; Ok (revision, leases)
    end.

Definition BoltProv_LeaseView (resource : string) (p : BoltProvider)
  : result (N * LeaseSet) * BoltProvider :=
  (db_View _ (bolt_db p) (view_tx (bolt_root p) resource), p).

(** The function that [LeaseCommit] runs in its transaction. *)
Definition commit_tx (root : string) (tx : Tx) (btx : BoltTx) : result BoltTx :=
  let leases := tx_leases tx in
  let container := (root, LeaseBucket) in
  btx ← CreateBucketIfNotExists root btx;
  btx ← CreateChildIfNotExists root LeaseBucket btx;
  if decide (Sequence btx container <> tx_revision tx) then Err lock_conflict
  else
    btx ← NextSequence container btx;
    if decide (length leases = 0) then Delete container (tx_resource tx) btx
    else
      value ← leases_Marshal leases;
      Put container (tx_resource tx) value btx.

Definition BoltProv_LeaseCommit (tx : Tx) (p : BoltProvider) : option error * BoltProvider :=
  if decide (length (tx_ops tx) = 0) then (None, p)
  else
    let '(err, db) := db_Update (bolt_db p) (commit_tx (bolt_root p) tx) in
    (err, mkBolt db (bolt_root p)).

#[export] Instance BoltProv_provider : LeaseProvider BoltProvider := {|
  LeaseResources := BoltProv_LeaseResources;
  LeaseView := BoltProv_LeaseView;
  LeaseCommit := BoltProv_LeaseCommit;
|}.
End BoltProvider.

(** ** What the provider relies on *)

(** Two states of a bucket have the same sequence and the same values, but for
    the keys in [except]. *)
Definition same_bucket `{Bolt} (b : string * string) (t t' : BoltTx) (except : string -> Prop) : Prop :=
  forall k, ~ except k -> Get t' b k = Get t b k.

Class BoltSpec (BT : Bolt) := {
  (** The contents that are committed. *)
  db_contents : BoltDB -> BoltTx;
  db_View_spec A db (f : BoltTx -> result A) :
    db_View A db f = f (db_contents db) \/ exists e, db_View A db f = Err e;
  db_Update_spec db f :
    let '(err, db') := db_Update db f in
    match err with
    | None => f (db_contents db) = Ok (db_contents db')
    | Some _ => db_contents db' = db_contents db
    end;
  HasChild_bucket t r c : HasChild t r c = true -> HasBucket t r = true;
  CreateBucket_spec r t t' :
    CreateBucketIfNotExists r t = Ok t' ->
    HasBucket t' r = true
    /\ forall c, HasChild t' r c = HasChild t r c
         /\ (HasChild t r c = true -> Sequence t' (r, c) = Sequence t (r, c)
               /\ same_bucket (r, c) t t' (fun _ => False));
  CreateChild_spec r c t t' :
    CreateChildIfNotExists r c t = Ok t' ->
    HasBucket t' r = HasBucket t r /\ HasChild t' r c = true
    /\ if HasChild t r c
       then Sequence t' (r, c) = Sequence t (r, c) /\ same_bucket (r, c) t t' (fun _ => False)
       else Sequence t' (r, c) = 0%N /\ forall k, Get t' (r, c) k = None;
  NextSequence_spec r c t t' :
    NextSequence (r, c) t = Ok t' ->
    HasBucket t' r = HasBucket t r /\ HasChild t' r c = HasChild t r c
    /\ Sequence t' (r, c) = wrapu64 (Sequence t (r, c) + 1)
    /\ same_bucket (r, c) t t' (fun _ => False);
  Put_spec r c k v t t' :
    Put (r, c) k v t = Ok t' ->
    HasBucket t' r = HasBucket t r /\ HasChild t' r c = HasChild t r c
    /\ Sequence t' (r, c) = Sequence t (r, c)
    /\ same_bucket (r, c) t t' (fun k' => k' = k) /\ Get t' (r, c) k = Some v;
  Delete_spec r c k t t' :
    Delete (r, c) k t = Ok t' ->
    HasBucket t' r = HasBucket t r /\ HasChild t' r c = HasChild t r c
    /\ Sequence t' (r, c) = Sequence t (r, c)
    /\ same_bucket (r, c) t t' (fun k' => k' = k) /\ Get t' (r, c) k = None;
}.

(** JSON keeps the lease sets whose strings are UTF-8 and whose times it can
    express. *)
Class LeaseTextSpec (LT : LeaseText) := {
  leases_keep : LeaseSet -> Prop;
  leases_roundtrip s b : leases_keep s -> leases_Marshal s = Ok b -> leases_Unmarshal b = Ok s;
}.

(** ** Lemmas *)

Section Facts.
Context `{BT : Bolt, LT : LeaseText, BS : !BoltSpec BT, LS : !LeaseTextSpec LT}.

Definition tx_contents (root : string) (btx : BoltTx) (r : string) : N * LeaseSet :=
  match view_tx root r btx with
  | Ok v => v
  | Err _ => (Sequence btx (root, LeaseBucket), [])
  end.

Definition bolt_contents (p : BoltProvider) (r : string) : N * LeaseSet :=
  tx_contents (bolt_root p) (db_contents (bolt_db p)) r.

(** Every value in the bucket can be decoded. *)
Definition tx_readable (root : string) (btx : BoltTx) : Prop :=
  HasChild btx root LeaseBucket = true ->
  forall k data, Get btx (root, LeaseBucket) k = Some data -> is_Ok (leases_Unmarshal data).

Definition bolt_valid (p : BoltProvider) : Prop :=
  tx_readable (bolt_root p) (db_contents (bolt_db p)).

(** The revision and the value of a key, in a transaction in which the bucket exists. *)
Lemma tx_contents_child root btx r :
  HasChild btx root LeaseBucket = true ->
  tx_contents root btx r
  = (Sequence btx (root, LeaseBucket),
     match Get btx (root, LeaseBucket) r with
     | Some data => match leases_Unmarshal data with Ok s => s | Err _ => [] end
     | None => []
     end).
Proof.
  intros Hc. unfold tx_contents, view_tx. rewrite (HasChild_bucket _ _ _ Hc), Hc. cbn.
  destruct (Get _ _ _) as [data|]; [|done]. by destruct (leases_Unmarshal data).
Qed.

Lemma tx_contents_none root btx r :
  HasChild btx root LeaseBucket = false -> tx_contents root btx r = (0%N, []).
Proof. intros Hc. unfold tx_contents, view_tx. rewrite Hc. by destruct (HasBucket btx root). Qed.

(** Creating the buckets changes nothing that can be seen. *)
Lemma create_buckets root t t1 t2 :
  CreateBucketIfNotExists root t = Ok t1 -> CreateChildIfNotExists root LeaseBucket t1 = Ok t2 ->
  HasChild t2 root LeaseBucket = true
  /\ (forall r, tx_contents root t2 r = tx_contents root t r)
  /\ (tx_readable root t -> tx_readable root t2).
Proof.
  intros H1 H2. destruct (CreateBucket_spec _ _ _ H1) as [Hb Hc]. destruct (Hc LeaseBucket) as [Hc1 Hs1].
  destruct (CreateChild_spec _ _ _ _ H2) as (Hb2 & Hc2 & Hs2). rewrite Hc1 in Hs2.
  split; [done|]. destruct (HasChild t root LeaseBucket) eqn:Ht.
  - destruct (Hs1 eq_refl) as [Hq Hg]. destruct Hs2 as [Hq2 Hg2]. unfold same_bucket in *. split.
    + intros r. rewrite !tx_contents_child by done. rewrite Hq2, Hq, Hg2, Hg by tauto. done.
    + intros Hr _ k data. rewrite Hg2, Hg by tauto. by apply Hr.
  - destruct Hs2 as [Hq2 Hg2]. split.
    + intros r. rewrite tx_contents_child, tx_contents_none by done. by rewrite Hq2, Hg2.
    + intros _ _ k data. by rewrite Hg2.
Qed.

(** A bucket in which only the sequence and the key of [tx] change. *)
Definition tx_stored (root : string) (tx : Tx) (t t' : BoltTx) : Prop :=
  forall r, (tx_contents root t' r).1 = wrapu64 ((tx_contents root t r).1 + 1)
    /\ (r <> tx_resource tx -> (tx_contents root t' r).2 = (tx_contents root t r).2)
    /\ (r = tx_resource tx -> (tx_contents root t' r).2 = tx_leases tx).

Lemma store_value root tx t t1 t2 data :
  HasChild t root LeaseBucket = true -> tx_readable root t ->
  NextSequence (root, LeaseBucket) t = Ok t1 ->
  HasChild t2 root LeaseBucket = HasChild t1 root LeaseBucket ->
  Sequence t2 (root, LeaseBucket) = Sequence t1 (root, LeaseBucket) ->
  same_bucket (root, LeaseBucket) t1 t2 (fun k => k = tx_resource tx) ->
  Get t2 (root, LeaseBucket) (tx_resource tx) = data ->
  match data with Some d => leases_Unmarshal d = Ok (tx_leases tx) | None => tx_leases tx = [] end ->
  tx_stored root tx t t2 /\ tx_readable root t2.
Proof.
  intros Hc Hr Hn Hc2 Hq2 Hg2 Hd Hdec.
  destruct (NextSequence_spec _ _ _ _ Hn) as (_ & Hc1 & Hq1 & Hg1). unfold same_bucket in *.
  assert (Hc2' : HasChild t2 root LeaseBucket = true) by congruence. split.
  - intros r. rewrite !tx_contents_child by done. cbn. split; [by rewrite Hq2, Hq1|]. split.
    + intros Hne. by rewrite Hg2, Hg1 by tauto.
    + intros ->. rewrite Hd. destruct data as [d|]; [by rewrite Hdec|done].
  - intros _ k d. destruct (decide (k = tx_resource tx)) as [->|Hne].
    + rewrite Hd. intros ->. rewrite Hdec. by eexists.
    + rewrite Hg2, Hg1 by tauto. by apply Hr.
Qed.

Lemma commit_tx_spec root tx t t' :
  tx_readable root t -> leases_keep (tx_leases tx) -> commit_tx root tx t = Ok t' ->
  tx_revision tx = (tx_contents root t (tx_resource tx)).1
  /\ tx_stored root tx t t' /\ tx_readable root t'.
Proof.
  intros Hr Hkeep. unfold commit_tx. cbn zeta.
  destruct (CreateBucketIfNotExists root t) as [t1|] eqn:H1; cbn; [|done].
  destruct (CreateChildIfNotExists root LeaseBucket t1) as [t2|] eqn:H2; cbn; [|done].
  destruct (create_buckets _ _ _ _ H1 H2) as (Hc & Hsame & Hread). specialize (Hread Hr).
  case_decide as Hrev; [done|].
  destruct (NextSequence (root, LeaseBucket) t2) as [t3|] eqn:H3; cbn; [|done].
  intros Hfin. rewrite <- Hsame, (tx_contents_child _ t2) by done. split; [done|].
  assert (Hst : tx_stored root tx t2 t' /\ tx_readable root t').
  { case_decide as Hlen.
    - destruct (Delete_spec _ _ _ _ _ Hfin) as (_ & D1 & D2 & D3 & D4).
      by apply (store_value root tx t2 t3 t' None), nil_length_inv.
    - destruct (leases_Marshal (tx_leases tx)) as [v|] eqn:Hm; cbn in Hfin; [|done].
      destruct (Put_spec _ _ _ _ _ _ Hfin) as (_ & D1 & D2 & D3 & D4).
      apply (store_value root tx t2 t3 t' (Some v)); try done. by apply leases_roundtrip. }
  destruct Hst as [Hst Hread']. split; [|done]. intros r. rewrite <- !Hsame. apply Hst.
Qed.

Lemma commit_tx_conflict root tx t :
  tx_revision tx <> (tx_contents root t (tx_resource tx)).1 -> ~ is_Ok (commit_tx root tx t).
Proof.
  intros Hrev [t' Hok]. revert Hok. unfold commit_tx. cbn zeta.
  destruct (CreateBucketIfNotExists root t) as [t1|] eqn:H1; cbn; [|done].
  destruct (CreateChildIfNotExists root LeaseBucket t1) as [t2|] eqn:H2; cbn; [|done].
  destruct (create_buckets _ _ _ _ H1 H2) as (Hc & Hsame & _).
  rewrite decide_True; [done|]. intros Heq. apply Hrev. by rewrite <- Hsame, tx_contents_child.
Qed.

Lemma BoltProv_commit_spec tx p :
  bolt_valid p -> leases_keep (tx_leases tx) ->
  let '(err, p') := BoltProv_LeaseCommit tx p in
  bolt_valid p' /\ bolt_root p' = bolt_root p
  /\ match err with
     | Some _ => forall r, bolt_contents p' r = bolt_contents p r
     | None =>
         if decide (tx_ops tx = []) then forall r, bolt_contents p' r = bolt_contents p r
         else tx_revision tx = (bolt_contents p (tx_resource tx)).1
              /\ tx_stored (bolt_root p) tx (db_contents (bolt_db p)) (db_contents (bolt_db p'))
     end.
Proof.
  intros Hv Hkeep. unfold BoltProv_LeaseCommit. destruct (tx_ops tx) as [|op ops]; cbn [length]; [done|].
  rewrite decide_False by done. destruct (db_Update (bolt_db p) (commit_tx (bolt_root p) tx)) as [err db] eqn:Hu.
  pose proof (db_Update_spec (bolt_db p) (commit_tx (bolt_root p) tx)) as H. rewrite Hu in H.
  unfold bolt_valid, bolt_contents in *. cbn [bolt_db bolt_root]. destruct err as [e|].
  - by rewrite H.
  - destruct (commit_tx_spec _ _ _ _ Hv Hkeep H) as (Hrev & Hst & Hr). split; [done|]. split; [done|].
    rewrite decide_False by done. done.
Qed.
End Facts.

(** ** The properties *)

(** C13. Commits to a database.  A commit fails and changes nothing when the
    revision is not the current one, which all resources share.  A successful
    commit stores the leases of the transaction under its resource, advances
    the revision of every resource, and changes no other leases. *)
Theorem boltprov_commit_correct `{BT : Bolt, LT : LeaseText, BS : !BoltSpec BT, LS : !LeaseTextSpec LT}
    tx p :
  bolt_valid p -> leases_keep (tx_leases tx) -> tx_ops tx <> [] ->
  let '(err, p') := BoltProv_LeaseCommit tx p in
  bolt_valid p'
  /\ (tx_revision tx <> (bolt_contents p (tx_resource tx)).1 -> err <> None)
  /\ (err <> None -> forall r, bolt_contents p' r = bolt_contents p r)
  /\ (err = None -> forall r,
        (bolt_contents p' r).1 = wrapu64 ((bolt_contents p r).1 + 1)
        /\ (bolt_contents p' r).2
           = if decide (r = tx_resource tx) then tx_leases tx else (bolt_contents p r).2).
Proof.
  intros Hv Hkeep Hops. pose proof (BoltProv_commit_spec tx p Hv Hkeep) as H.
  destruct (BoltProv_LeaseCommit tx p) as [err p'] eqn:Hc. destruct H as (Hv' & Hroot & H).
  split; [done|]. destruct err as [e|]; [by split_and!|].
  rewrite decide_False in H by done. destruct H as [Hrev Hst]. split_and!; [congruence|done|].
  intros _ r. unfold bolt_contents. rewrite Hroot. destruct (Hst r) as (H1 & H2 & H3).
  split; [done|]. case_decide; auto.
Qed.

(** Where the codec keeps every lease set, the provider keeps the contract that
    the server is proved against. *)
Section Contract.
Context `{BT : Bolt, LT : LeaseText, BS : !BoltSpec BT, LS : !LeaseTextSpec LT}.
Context (keeps_all : forall s, leases_keep s).

Lemma BoltProv_view_spec r p :
  bolt_valid p -> forall v, (BoltProv_LeaseView r p).1 = Ok v -> v = bolt_contents p r.
Proof.
  intros Hv v. unfold BoltProv_LeaseView. cbn [fst].
  destruct (db_View_spec _ (bolt_db p) (view_tx (bolt_root p) r)) as [->|[e ->]]; [|done].
  unfold bolt_contents, tx_contents. by intros ->.
Qed.

Lemma BoltProv_spec : LeaseProviderSpec BoltProvider.
Proof.
  refine {| provider_valid := bolt_valid; contents := bolt_contents |}.
  - intros r p Hv. pose proof (BoltProv_view_spec r p Hv) as H. cbn in *.
    split_and!; [done..|]. destruct (db_View _ _ _); [by apply H|done].
  - intros tx p Hv. pose proof (BoltProv_commit_spec tx p Hv (keeps_all _)) as H. cbn.
    destruct (BoltProv_LeaseCommit tx p) as [err p']. destruct H as (Hv' & Hroot & H).
    split; [done|]. destruct err as [e|]; [done|]. case_decide; [done|]. destruct H as [Hrev Hst].
    split; [done|]. intros [_ Hsorted]. unfold committed, bolt_contents in *. rewrite Hroot.
    split.
    + exists (tx_leases tx). destruct (Hst (tx_resource tx)) as (H1 & _ & H3). split; [|done].
      apply injective_projections; [exact H1|by apply H3].
    + intros r Hne. destruct (Hst r) as (H1 & H2 & _). split; [by apply H2|by right].
Qed.
End Contract.

(** ** Witness: a database in memory *)

Abbreviation bucket := (N * gmap string bytes)%type (only parsing).
Abbreviation mem_tx := (gmap string (gmap string bucket)) (only parsing).

Definition mem_child (t : mem_tx) (r c : string) : option bucket := m ← t !! r; m !! c.

Definition mem_update (rc : string * string) (f : bucket -> bucket) (t : mem_tx) : result mem_tx :=
  match t !! rc.1 with
  | None => Err "bucket not found"
  | Some m =>
      match m !! rc.2 with
      | None => Err "bucket not found"
      | Some b => Ok (<[rc.1 := <[rc.2 := f b]> m]> t)
      end
  end.

#[local] Instance mem_bolt : Bolt := {|
  BoltDB := mem_tx;
  BoltTx := mem_tx;
  db_View := fun A db f => f db;
  db_Update db f := match f db with Ok db' => (None, db') | Err e => (Some e, db) end;
  db_Close db := (None, db);
  HasBucket t r := bool_decide (is_Some (t !! r));
  HasChild t r c := bool_decide (is_Some (mem_child t r c));
  CreateBucketIfNotExists r t := Ok (match t !! r with Some _ => t | None => <[r := ∅]> t end);
  CreateChildIfNotExists r c t :=
    match t !! r with
    | None => Err "bucket not found"
    | Some m => Ok (match m !! c with Some _ => t | None => <[r := <[c := (0%N, ∅)]> m]> t end)
    end;
  Sequence t rc := default 0%N (fst <$> mem_child t rc.1 rc.2);
  NextSequence rc := mem_update rc (fun b => (wrapu64 (b.1 + 1), b.2));
  Get t rc k := b ← mem_child t rc.1 rc.2; b.2 !! k;
  Put rc k v := mem_update rc (fun b => (b.1, <[k := v]> b.2));
  Delete rc k := mem_update rc (fun b => (b.1, delete k b.2));
  Cursor t rc := match mem_child t rc.1 rc.2 with
                 | Some b => (fun kv => (kv.1, Some kv.2)) <$> map_to_list b.2
                 | None => []
                 end;
|}.

Lemma mem_update_spec r c f t t' :
  mem_update (r, c) f t = Ok t' ->
  is_Some (t !! r) /\ is_Some (t' !! r)
  /\ exists b, mem_child t r c = Some b /\ mem_child t' r c = Some (f b).
Proof.
  unfold mem_update, mem_child. cbn. destruct (t !! r) as [m|] eqn:Hm; [|done]. cbn.
  destruct (m !! c) as [b|] eqn:Hb; [|done]. intros [= <-]. rewrite lookup_insert_eq. cbn.
  split; [done|]. split; [done|]. exists b. by rewrite lookup_insert_eq.
Qed.

#[local] Instance mem_bolt_spec : BoltSpec mem_bolt.
Proof.
  refine {| db_contents := (fun db => db) : @BoltDB mem_bolt -> @BoltTx mem_bolt |};
    unfold same_bucket; cbn.
  - by left.
  - intros db f. by destruct (f db).
  - intros t r c. rewrite !bool_decide_eq_true. unfold mem_child. intros [b Hb].
    destruct (t !! r); [done|]. done.
  - intros r t t' [= <-]. unfold mem_child. destruct (t !! r) as [m|] eqn:Hm.
    + rewrite Hm. done.
    + rewrite lookup_insert_eq. cbn. split; [done|]. intros c. rewrite lookup_empty. done.
  - intros r c t t'. destruct (t !! r) as [m|] eqn:Hm; [|done]. intros [= <-]. unfold mem_child.
    rewrite Hm. cbn. destruct (m !! c) as [b|] eqn:Hb.
    + rewrite Hm. cbn. rewrite Hb. done.
    + rewrite lookup_insert_eq. cbn. rewrite lookup_insert_eq. done.
  - intros r c t t' H. apply mem_update_spec in H as (H1 & H2 & b & Hb & Hb').
    rewrite Hb, Hb'. rewrite !bool_decide_true by done. done.
  - intros r c k v t t' H. apply mem_update_spec in H as (H1 & H2 & b & Hb & Hb').
    rewrite Hb, Hb'. rewrite !bool_decide_true by done. cbn. rewrite lookup_insert_eq. split_and!; try done.
    intros k' Hk. rewrite lookup_insert_ne by congruence. done.
  - intros r c k t t' H. apply mem_update_spec in H as (H1 & H2 & b & Hb & Hb').
    rewrite Hb, Hb'. rewrite !bool_decide_true by done. cbn. rewrite lookup_delete_eq. split_and!; try done.
    intros k' Hk. rewrite lookup_delete_ne by congruence. done.
Defined.

Definition bolt_lease : Lease := set_Status Active zero_lease.

(** A codec for one lease set. *)
#[local] Instance one_set_text : LeaseText := {|
  leases_Marshal s := if decide (s = [bolt_lease]) then Ok [] else Err "unsupported";
  leases_Unmarshal b := if decide (b = []) then Ok [bolt_lease] else Err "malformed";
|}.
#[local] Instance one_set_text_spec : LeaseTextSpec one_set_text.
Proof.
  refine {| leases_keep := fun _ => True |}. intros s b _. cbn. case_decide; [|done].
  intros [= <-]. by subst.
Defined.

Definition bolt_tx : Tx := Tx_Create bolt_lease (NewTx "res" 0 []).

Lemma boltprov_commit_correct_witness :
  let '(err, p') := BoltProv_LeaseCommit bolt_tx (BoltProv_New (∅ : @BoltDB mem_bolt)) in
  err = None /\ bolt_contents p' "res" = (1%N, [bolt_lease]).
Proof.
  pose proof (boltprov_commit_correct bolt_tx (BoltProv_New (∅ : @BoltDB mem_bolt))) as H.
  assert (He : (BoltProv_LeaseCommit bolt_tx (BoltProv_New (∅ : @BoltDB mem_bolt))).1 = None)
    by (vm_compute; reflexivity).
  destruct (BoltProv_LeaseCommit bolt_tx (BoltProv_New (∅ : @BoltDB mem_bolt))) as [err p'].
  cbn in He. subst err. destruct H as (_ & _ & _ & H).
  - intros Hc. discriminate Hc.
  - exact I.
  - intros Hc. discriminate Hc.
  - split; [reflexivity|]. destruct (H eq_refl "res") as [H1 H2].
    apply injective_projections; [rewrite H1|rewrite H2]; vm_compute; reflexivity.
Defined.
