(* ===== verification/LogProv.v ===== *)
(** * The transaction-logging lease provider (package [logprov])

    The provider wraps another one and keeps a transaction log: a line for each
    effect that changes the consumption and, on a schedule, a checkpoint of all
    the leases (provider.go).  Schedules and their syntax are schedule.go and
    parse.go, the operation counter is counter/counter.go.

    Each operation runs under the provider's lock and is one state-passing
    step; the goroutines it starts are recorded in [log_spawned].  The clock is
    an argument. *)

From Stdlib Require Ascii.
From stdpp Require Import pretty.
From S2P Require Import Prelude GoStrings GoTime GoDuration Lease LeaseSet Tx Refresh Provider.

(** ** counter/counter.go *)

Definition Counter := N.
Definition Counter_Add (c : Counter) (delta : N) : N * Counter :=
  let value := wrapu64 (c + delta) in (value, value).
Definition Counter_Value (c : Counter) : N := c.

(** ** logprov/schedule.go *)

Definition MinimumDuration : Duration := Second.

Inductive scheduleType := opsSchedule | durationSchedule.

#[export] Instance scheduleType_eq_dec : EqDecision scheduleType.
Proof. solve_decision. Defined.

Record Schedule := mkSchedule {
  sch_t : scheduleType;
  sch_ops : N;
  sch_duration : Duration;
}.

Definition OpsSchedule (ops : N) : Schedule := mkSchedule opsSchedule ops 0%Z.
Definition DurationSchedule (d : Duration) : Schedule := mkSchedule durationSchedule 0 d.

(** ** logprov/parse.go *)

Definition OpsSuffix : string := "ops".

Definition digit_value (c : Ascii.ascii) : option N :=
  let n := Ascii.N_of_ascii c in
  if (48 <=? n)%N && (n <=? 57)%N then Some (n - 48)%N else None.

(** [strconv.ParseUint(value, 10, 64)], without the text of its errors. *)
Fixpoint parse_digits (n : N) (s : string) : option N :=
  match s with
  | EmptyString => Some n
  | String c s =>
      match digit_value c with
      | None => None
      | Some d =>
          let n := (n * 10 + d)%N in
          if (n <? 2 ^ 64)%N then parse_digits n s else None
      end
  end.
Definition ParseUint (s : string) : option N :=
  match s with EmptyString => None | _ => parse_digits 0 s end.

Definition invalid_interval (item reason : string) : error :=
  "invalid checkpoint interval " +:+ quoted item +:+ ": " +:+ reason.

(** One turn of the loop over the items. *)
Definition parse_item (item : string) : result Schedule :=
  if HasSuffix item OpsSuffix then
    let value := TrimSuffix item OpsSuffix in
    match ParseUint value with
    | None => Err (invalid_interval item ("unable to parse " +:+ quoted value +:+ " as an integer"))
    | Some ops =>
        if decide (ops = 0%N) then Err (invalid_interval item "ops must be greater than zero")
        else Ok (OpsSchedule ops)
    end
  else
    match ParseDuration item with
    | Err _ => Err (invalid_interval item "unable to parse value as a duration of time")
    | Ok duration =>
        if decide (duration < MinimumDuration)%Z then
          Err (invalid_interval item
                 ("duration must not be less than " +:+ Duration_text MinimumDuration))
        else Ok (DurationSchedule duration)
    end.

Fixpoint parse_items (items : list string) (schedule : list Schedule) : result (list Schedule) :=
  match items with
  | [] => Ok schedule
  | item :: items => s ← parse_item item; parse_items items (schedule ++ [s])
  end.

Definition ParseSchedule (s : string) : result (list Schedule) :=
  if decide (s = "") then Ok [] else parse_items (strings_Split s) [].

(** ** logprov/provider.go *)

Record timestamp := mkTimestamp {
  ts_ops : N;
  ts_when : Time;
}.

Record LogProvider (St : Type) := mkLog {
  log_source : St;
  log_log : list string;
  log_schedule : list Schedule;
  log_ops : Counter;
  log_last : timestamp;
  (** [closed == nil] *)
  log_closed : bool;
  (** The [opsCheckpoint] goroutines started and not yet run. *)
  log_spawned : list N;
}.
Arguments mkLog {St}.
Arguments log_source {St}.
Arguments log_log {St}.
Arguments log_schedule {St}.
Arguments log_ops {St}.
Arguments log_last {St}.
Arguments log_closed {St}.
Arguments log_spawned {St}.

(** The loops of [opsSchedule] and [durationSchedule]: the least valid entry. *)
Fixpoint opsSchedule_loop (schedule : list Schedule) (acc : option N) : option N :=
  match schedule with
  | [] => acc
  | s :: schedule =>
      if decide (sch_t s <> opsSchedule) then opsSchedule_loop schedule acc
      else if decide (sch_ops s = 0%N) then opsSchedule_loop schedule acc
      else match acc with
           | None => opsSchedule_loop schedule (Some (sch_ops s))
           | Some ops => if decide (sch_ops s < ops)%N then opsSchedule_loop schedule (Some (sch_ops s))
                         else opsSchedule_loop schedule acc
           end
  end.

Fixpoint durationSchedule_loop (schedule : list Schedule) (acc : option Duration) : option Duration :=
  match schedule with
  | [] => acc
  | s :: schedule =>
      if decide (sch_t s <> durationSchedule) then durationSchedule_loop schedule acc
      else if decide (sch_duration s < MinimumDuration)%Z then durationSchedule_loop schedule acc
      else match acc with
           | None => durationSchedule_loop schedule (Some (sch_duration s))
           | Some d => if decide (sch_duration s < d)%Z then durationSchedule_loop schedule (Some (sch_duration s))
                       else durationSchedule_loop schedule acc
           end
  end.

Definition nextCheckpoint (now last : Time) (interval : Duration) : Duration :=
  if Time_IsZero last then 0%Z
  else if Time_Before now last then 0%Z
  else
    let elapsed := Time_Sub now last in
    if decide (interval <= elapsed)%Z then 0%Z
    else Duration_sub interval elapsed.

(** [at.UnixNano()]: nanoseconds since January 1, 1970, as an [int64]. *)
Definition unix_epoch : Time := (62135596800 * Second)%Z.
Definition UnixNano (t : Time) : Z := wrap64 (t - unix_epoch).

Section Provider.
Context {St : Type} `{LP : LeaseProvider St}.

Definition log_Printf (line : string) (p : LogProvider St) : LogProvider St :=
  mkLog (log_source p) (log_log p ++ [line]) (log_schedule p) (log_ops p) (log_last p)
    (log_closed p) (log_spawned p).
Definition set_source (src : St) (p : LogProvider St) : LogProvider St :=
  mkLog src (log_log p) (log_schedule p) (log_ops p) (log_last p) (log_closed p) (log_spawned p).

Definition LogProv_New (source : St) (schedule : list Schedule) : LogProvider St :=
  mkLog source [] schedule 0%N (mkTimestamp 0 zero_time) false [].

Definition LogProv_opsSchedule (p : LogProvider St) : option N :=
  opsSchedule_loop (log_schedule p) None.
Definition LogProv_durationSchedule (p : LogProvider St) : option Duration :=
  durationSchedule_loop (log_schedule p) None.

Definition LogProv_LeaseResources (p : LogProvider St) : result (list string) :=
  LeaseResources (log_source p).

Definition LogProv_LeaseView (resource : string) (p : LogProvider St)
  : result (N * LeaseSet) * LogProvider St :=
  let '(v, src) := LeaseView resource (log_source p) in (v, set_source src p).

(** [add]: a checkpoint goroutine starts when enough operations have passed. *)
Definition LogProv_add (ops : N) (p : LogProvider St) : LogProvider St :=
  if decide (ops = 0%N) then p
  else
    let '(current, c) := Counter_Add (log_ops p) ops in
    let count := subu64 current (ts_ops (log_last p)) in
    let p := mkLog (log_source p) (log_log p) (log_schedule p) c (log_last p) (log_closed p)
               (log_spawned p) in
    match LogProv_opsSchedule p with
    | Some ops => if decide (ops <= count)%N
                  then mkLog (log_source p) (log_log p) (log_schedule p) (log_ops p) (log_last p)
                         (log_closed p) (log_spawned p ++ [ops])
                  else p
    | None => p
    end.

Fixpoint record_effects (effects : list Effect) (ops : N) (p : LogProvider St) : N * LogProvider St :=
  match effects with
  | [] => (ops, p)
  | effect :: effects =>
      if negb (Lease_Consumptive (eff_Lease effect)) then record_effects effects ops p
      else record_effects effects (wrapu64 (ops + 1)) (log_Printf ("TX " +:+ Effect_String effect) p)
  end.

Fixpoint record_ops (tx_ops : list Op) (ops : N) (p : LogProvider St) : N * LogProvider St :=
  match tx_ops with
  | [] => (ops, p)
  | op :: tx_ops =>
      if decide (op_Type op = OpUpdate /\ Op_UpdateType op = Renew) then record_ops tx_ops ops p
      else let '(ops, p) := record_effects (Op_Effects op) ops p in record_ops tx_ops ops p
  end.

Definition LogProv_record (tx : Tx) (p : LogProvider St) : LogProvider St :=
  let '(ops, p) := record_ops (tx_ops tx) 0 p in LogProv_add ops p.

Definition LogProv_LeaseCommit (tx : Tx) (p : LogProvider St) : option error * LogProvider St :=
  let '(err, src) := LeaseCommit tx (log_source p) in
  let p := set_source src p in
  match err with
  | None => (None, LogProv_record tx p)
  | Some e => (Some e, p)
  end.

(** The lines of one resource; the message on a failed view prints [err], which
    is nil there, and not [viewErr]. *)
Definition checkpoint_resource (nano : Z) (resource : string) (p : LogProvider St) : LogProvider St :=
  let '(v, p) := LogProv_LeaseView resource p in
  match v with
  | Err viewErr =>
      log_Printf ("CP " +:+ pretty nano +:+ " RESOURCE " +:+ resource +:+ " ERR <nil>") p
  | Ok (_, leases) =>
      foldl (fun p ls =>
        if Lease_Consumptive ls
        then log_Printf ("CP " +:+ pretty nano +:+ " LEASE " +:+ Subject_String (ls_Subject ls)
                         +:+ " " +:+ ToUpper (ls_Status ls)) p
        else p) p leases
  end.

Definition LogProv_checkpoint (at_ : Time) (p : LogProvider St) : option error * LogProvider St :=
  let nano := UnixNano at_ in
  match LogProv_LeaseResources p with
  | Err e => (Some e, p)
  | Ok resources =>
      let p := log_Printf ("CP " +:+ pretty nano +:+ " START") p in
      let p := foldl (fun p r => checkpoint_resource nano r p) p resources in
      let p := log_Printf ("CP " +:+ pretty nano +:+ " END") p in
      (None, mkLog (log_source p) (log_log p) (log_schedule p) (log_ops p)
               (mkTimestamp (Counter_Value (log_ops p)) at_) (log_closed p) (log_spawned p))
  end.

Definition LogProv_Checkpoint := LogProv_checkpoint.

Definition LogProv_opsCheckpoint (ops : N) (at_ : Time) (p : LogProvider St) : LogProvider St :=
  if decide (subu64 (Counter_Value (log_ops p)) (ts_ops (log_last p)) < ops)%N then p
  else snd (LogProv_checkpoint at_ p).

(** One turn of [durationCheckpoint]: the lock is taken, the goroutine ends
    when the provider is closed -- with the lock still held -- and otherwise
    releases the lock and waits.  [now1] and [now2] are the two readings of the
    clock, [at_] that of the checkpoint. *)
Inductive turn := Stopped_locked | Waits (next : Duration).

Definition durationCheckpoint_turn (interval : Duration) (now1 at_ now2 : Time) (p : LogProvider St)
  : turn * LogProvider St :=
  if log_closed p then (Stopped_locked, p)
  else
    let next := nextCheckpoint now1 (ts_when (log_last p)) interval in
    let '(next, p) :=
      if decide (next <= 0)%Z then
        let p := snd (LogProv_checkpoint at_ p) in
        (nextCheckpoint now2 (ts_when (log_last p)) interval, p)
      else (next, p) in
    let next := if decide (next < MinimumDuration)%Z then MinimumDuration else next in
    (Waits next, p).

Definition LogProv_Close (p : LogProvider St) : LogProvider St :=
  mkLog (log_source p) (log_log p) (log_schedule p) (log_ops p) (log_last p) true (log_spawned p).

#[export] Instance LogProv_provider : LeaseProvider (LogProvider St) := {|
  LeaseResources := LogProv_LeaseResources;
  LeaseView := LogProv_LeaseView;
  LeaseCommit := LogProv_LeaseCommit;
|}.
End Provider.

(** ** Lemmas: what is recorded *)

(** The effects that a transaction leaves in the log. *)
Definition recorded (op : Op) : list Effect :=
  if decide (op_Type op = OpUpdate /\ Op_UpdateType op = Renew) then []
  else filter (fun e => Lease_Consumptive (eff_Lease e)) (Op_Effects op).

Definition effect_line (e : Effect) : string := "TX " +:+ Effect_String e.

Definition add_lines {St} (lines : list string) (p : LogProvider St) : LogProvider St :=
  mkLog (log_source p) (log_log p ++ lines) (log_schedule p) (log_ops p) (log_last p)
    (log_closed p) (log_spawned p).

Lemma add_lines_nil {St} (p : LogProvider St) : add_lines [] p = p.
Proof. destruct p. unfold add_lines. cbn. by rewrite app_nil_r. Qed.

Lemma add_lines_app {St} l1 l2 (p : LogProvider St) :
  add_lines l2 (add_lines l1 p) = add_lines (l1 ++ l2) p.
Proof. unfold add_lines. cbn. by rewrite <- (assoc_L (++)). Qed.

Lemma wrapu64_add_l a b : wrapu64 (wrapu64 a + b) = wrapu64 (a + b).
Proof. unfold wrapu64. apply N.Div0.add_mod_idemp_l. Qed.

Lemma wrapu64_idem a : wrapu64 (wrapu64 a) = wrapu64 a.
Proof. unfold wrapu64. by apply N.Div0.mod_mod. Qed.

Section Facts.
Context {St : Type}.

Lemma record_effects_spec effects ops (p : LogProvider St) :
  let es := filter (fun e => Lease_Consumptive (eff_Lease e)) effects in
  exists n, record_effects effects ops p = (n, add_lines (effect_line <$> es) p)
    /\ wrapu64 n = wrapu64 (ops + N.of_nat (length es)).
Proof.
  cbn zeta. revert ops p. induction effects as [|e effects IH]; intros ops p; cbn [record_effects].
  - exists ops. split; [by rewrite add_lines_nil|f_equal; cbn; lia].
  - rewrite filter_cons. destruct (Lease_Consumptive (eff_Lease e)) eqn:He; cbn [negb].
    + rewrite decide_True by done.
      destruct (IH (wrapu64 (ops + 1)) (add_lines [effect_line e] p)) as (n & Hrun & Hn).
      exists n. split; [by rewrite add_lines_app in Hrun|].
      rewrite Hn, wrapu64_add_l. f_equal. cbn [length]. lia.
    + rewrite decide_False by (by intros []). apply IH.
Qed.

Lemma record_ops_spec ops_ n0 (p : LogProvider St) :
  let es := ops_ ≫= recorded in
  exists n, record_ops ops_ n0 p = (n, add_lines (effect_line <$> es) p)
    /\ wrapu64 n = wrapu64 (n0 + N.of_nat (length es)).
Proof.
  cbn zeta. revert n0 p. induction ops_ as [|op ops_ IH]; intros n0 p; cbn [record_ops].
  - exists n0. split; [by rewrite add_lines_nil|f_equal; cbn; lia].
  - cbn [mbind list_bind]. fold (mbind (M := list) recorded ops_). unfold recorded at 1 3.
    destruct (decide _) as [Hr|Hr]; [apply IH|].
    destruct (record_effects_spec (Op_Effects op) n0 p) as (n1 & -> & Hn1).
    set (es := filter _ (Op_Effects op)) in *.
    destruct (IH n1 (add_lines (effect_line <$> es) p)) as (n & -> & Hn).
    exists n. rewrite add_lines_app, fmap_app. split; [done|].
    rewrite Hn, <- wrapu64_add_l, Hn1, wrapu64_add_l. f_equal. rewrite length_app. lia.
Qed.

Lemma add_source ops (p : LogProvider St) :
  log_source (LogProv_add ops p) = log_source p /\ log_log (LogProv_add ops p) = log_log p
  /\ log_last (LogProv_add ops p) = log_last p
  /\ wrapu64 (log_ops (LogProv_add ops p)) = wrapu64 (log_ops p + ops).
Proof.
  unfold LogProv_add. case_decide as H0.
  - subst. rewrite N.add_0_r. done.
  - cbn [Counter_Add]. cbn zeta. repeat case_match; cbn; split_and!; try done;
      apply wrapu64_idem.
Qed.
End Facts.

(** ** The wrapper is transparent *)

Section Transparent.
Context {St : Type} `{LP : LeaseProvider St, LPS : !LeaseProviderSpec St}.

Lemma LogProv_commit_source tx (p : LogProvider St) :
  let '(err, p') := LogProv_LeaseCommit tx p in
  (err, log_source p') = LeaseCommit tx (log_source p).
Proof.
  unfold LogProv_LeaseCommit. destruct (LeaseCommit tx (log_source p)) as [[e|] src]; cbn; [done|].
  unfold LogProv_record. destruct (record_ops_spec (tx_ops tx) 0 (set_source src p)) as (n & -> & _).
  by destruct (add_source n (add_lines (effect_line <$> (tx_ops tx ≫= recorded)) (set_source src p)))
    as (-> & _).
Qed.

#[export] Instance LogProv_spec : LeaseProviderSpec (LogProvider St).
Proof.
  refine {| provider_valid := fun p => provider_valid (log_source p);
            contents := fun p => contents (log_source p) |}.
  - intros r p Hv. cbn. unfold LogProv_LeaseView.
    pose proof (LeaseView_spec r (log_source p) Hv) as H.
    by destruct (LeaseView r (log_source p)) as [v src].
  - intros tx p Hv. cbn. pose proof (LogProv_commit_source tx p) as Hc.
    pose proof (LeaseCommit_spec tx (log_source p) Hv) as H.
    destruct (LogProv_LeaseCommit tx p) as [err p'], (LeaseCommit tx (log_source p)) as [err' src'].
    by injection Hc as -> ->.
Defined.
End Transparent.
