(* ===== verification/LogProps.v ===== *)
(** * What the transaction log and its schedules guarantee *)

From stdpp Require Import pretty.
From S2P Require Import Prelude GoStrings GoTime GoDuration Lease LeaseSet Tx LeaseUtil Refresh Provider MemProv LogProv RefreshProps.

(** ** Lemmas: schedules *)

(** The usable entries of a schedule, and the least of them. *)
Definition ops_entries (s : list Schedule) : list N :=
  sch_ops <$> filter (fun x => sch_t x = opsSchedule /\ sch_ops x <> 0%N) s.
Definition duration_entries (s : list Schedule) : list Duration :=
  sch_duration <$> filter (fun x => sch_t x = durationSchedule
                                    /\ (MinimumDuration <= sch_duration x)%Z) s.

Lemma opsSchedule_loop_spec s acc :
  opsSchedule_loop s acc
  = match acc, ops_entries s with
    | None, [] => None
    | None, n :: ns => Some (foldl N.min n ns)
    | Some n, ns => Some (foldl N.min n ns)
    end.
Proof.
  revert acc. induction s as [|x s IH]; intros acc; cbn [opsSchedule_loop].
  - by destruct acc.
  - unfold ops_entries. rewrite filter_cons. fold (ops_entries s).
    case_decide as Ht; [|case_decide as Hz].
    + rewrite decide_False by tauto. apply IH.
    + rewrite decide_False by tauto. apply IH.
    + assert (sch_t x = opsSchedule) by (destruct (sch_t x); congruence).
      rewrite decide_True by tauto. rewrite fmap_cons. fold (ops_entries s).
      destruct acc as [n|]; [|by rewrite IH]. cbn [foldl].
      case_decide; rewrite IH; do 2 f_equal; lia.
Qed.

Lemma durationSchedule_loop_spec s acc :
  durationSchedule_loop s acc
  = match acc, duration_entries s with
    | None, [] => None
    | None, n :: ns => Some (foldl Z.min n ns)
    | Some n, ns => Some (foldl Z.min n ns)
    end.
Proof.
  revert acc. induction s as [|x s IH]; intros acc; cbn [durationSchedule_loop].
  - by destruct acc.
  - unfold duration_entries. rewrite filter_cons. fold (duration_entries s).
    case_decide as Ht; [|case_decide as Hz].
    + rewrite decide_False by tauto. apply IH.
    + rewrite decide_False by lia. apply IH.
    + assert (sch_t x = durationSchedule) by (destruct (sch_t x); congruence).
      rewrite decide_True by (split; [done|lia]). rewrite fmap_cons. fold (duration_entries s).
      destruct acc as [n|]; [|by rewrite IH]. cbn [foldl].
      case_decide; rewrite IH; do 2 f_equal; lia.
Qed.

Definition valid_schedule (s : Schedule) : Prop :=
  (sch_t s = opsSchedule /\ (0 < sch_ops s < 2 ^ 64)%N)
  \/ (sch_t s = durationSchedule /\ (MinimumDuration <= sch_duration s)%Z).

Lemma parse_digits_bound n s m :
  (n < 2 ^ 64)%N -> parse_digits n s = Some m -> (m < 2 ^ 64)%N.
Proof.
  revert n. induction s as [|c s IH]; intros n Hn; cbn; [by intros [= <-]|].
  destruct (digit_value c); [|done]. destruct (N.ltb_spec (n * 10 + n0) (2 ^ 64)); [|done].
  by apply IH.
Qed.

Lemma ParseUint_bound s n : ParseUint s = Some n -> (n < 2 ^ 64)%N.
Proof. destruct s; [done|]. by apply parse_digits_bound. Qed.

Lemma parse_item_valid item s : parse_item item = Ok s -> valid_schedule s.
Proof.
  unfold parse_item, valid_schedule. destruct (HasSuffix item OpsSuffix).
  - destruct (ParseUint _) as [n|] eqn:Hn; [|done]. case_decide; [done|].
    intros [= <-]. left. cbn. apply ParseUint_bound in Hn. split; [done|lia].
  - destruct (ParseDuration item) as [d|]; [|done]. case_decide; [done|]. intros [= <-]. right. cbn. split; [done|lia].
Qed.

Lemma parse_items_valid items s0 s :
  parse_items items s0 = Ok s ->
  Forall valid_schedule s0 -> Forall valid_schedule s /\ length s = length s0 + length items.
Proof.
  revert s0. induction items as [|i items IH]; intros s0; cbn.
  - intros [= <-] H. split; [done|lia].
  - destruct (parse_item i) as [x|e] eqn:Hx; cbn; [|done].
    intros Hs H0. apply IH in Hs as [Hs Hl].
    + split; [done|]. rewrite Hl, length_app. cbn. lia.
    + apply Forall_app. split; [done|]. apply Forall_singleton. by eapply parse_item_valid.
Qed.

(** ** Lemmas: printing and parsing numbers *)

Lemma digit_value_pretty d : (d < 10)%N -> digit_value (pretty_N_char d) = Some d.
Proof.
  intros H. assert (d = 0 \/ d = 1 \/ d = 2 \/ d = 3 \/ d = 4 \/ d = 5 \/ d = 6 \/ d = 7 \/ d = 8 \/ d = 9)%N
    as Hd by lia. by destruct_or! Hd; subst.
Qed.

Lemma parse_pretty_go x s :
  (x < 2 ^ 64)%N -> parse_digits 0 (pretty_N_go x s) = parse_digits x s.
Proof.
  revert s. induction (N.lt_wf_0 x) as [x _ IH]; intros s Hx.
  destruct (decide (x = 0%N)) as [->|Hne]; [by rewrite pretty_N_go_0|].
  rewrite pretty_N_go_step by lia.
  pose proof (N.mod_lt x 10 ltac:(lia)). pose proof (N.div_mod x 10 ltac:(lia)).
  assert (x / 10 < x)%N by (apply N.div_lt; lia).
  rewrite IH by lia. cbn [parse_digits]. rewrite digit_value_pretty by done.
  replace (x / 10 * 10 + x mod 10)%N with x by lia.
  destruct (N.ltb_spec x (2 ^ 64)); [done|lia].
Qed.

Lemma ParseUint_pretty n : (n < 2 ^ 64)%N -> ParseUint (pretty n) = Some n.
Proof.
  intros Hn. unfold pretty, pretty_N. case_decide as H0; [by subst|].
  pose proof (parse_pretty_go n "" Hn) as Hp. cbn [parse_digits] in Hp.
  destruct (pretty_N_go n "") eqn:He; [|exact Hp].
  cbn in Hp. congruence.
Qed.

(** ** Lemmas: checkpoints *)

Lemma subu64_self a b : wrapu64 a = wrapu64 b -> subu64 a b = 0%N.
Proof.
  unfold wrapu64, subu64. intros H. rewrite <- H.
  pose proof (N.mod_lt a (2 ^ 64) ltac:(lia)). pose proof (N.div_mod a (2 ^ 64) ltac:(lia)).
  replace (a + 2 ^ 64 - a mod 2 ^ 64)%N with ((a / 2 ^ 64 + 1) * 2 ^ 64)%N by lia.
  apply N.Div0.mod_mul.
Qed.

Lemma foldl_keeps {A B} (Q : A -> Prop) (f : A -> B -> A) a l :
  Q a -> (forall a b, Q a -> Q (f a b)) -> Q (foldl f a l).
Proof. intros Ha Hf. revert a Ha. induction l as [|b l IH]; cbn; eauto. Qed.

(** Everything but the source and the log. *)
Definition same_counters {St} (p p' : LogProvider St) : Prop :=
  log_schedule p' = log_schedule p /\ log_ops p' = log_ops p /\ log_last p' = log_last p
  /\ log_closed p' = log_closed p /\ log_spawned p' = log_spawned p.

Lemma checkpoint_resource_keeps `{LP : LeaseProvider St} nano r (p : LogProvider St) :
  same_counters p (checkpoint_resource nano r p).
Proof.
  unfold checkpoint_resource, LogProv_LeaseView.
  destruct (LeaseView r (log_source p)) as [[[rev leases]|e] src]; [|done].
  apply (foldl_keeps (same_counters p)); [done|]. intros q l Hq. by destruct (Lease_Consumptive l).
Qed.

Lemma checkpoint_counters `{LP : LeaseProvider St} at_ (p : LogProvider St) :
  let '(err, p') := LogProv_checkpoint at_ p in
  log_schedule p' = log_schedule p /\ log_ops p' = log_ops p
  /\ log_last p' = match err with None => mkTimestamp (log_ops p) at_ | Some _ => log_last p end.
Proof.
  unfold LogProv_checkpoint. destruct (LogProv_LeaseResources p) as [rs|e]; [|done]. cbn.
  pose proof (foldl_keeps (same_counters p) (fun p r => checkpoint_resource (UnixNano at_) r p)
    (log_Printf ("CP " +:+ pretty (UnixNano at_) +:+ " START") p) rs) as (H1 & H2 & H3 & _); [done| |].
  - intros q r (? & ? & ? & ? & ?). pose proof (checkpoint_resource_keeps (UnixNano at_) r q) as (? & ? & ? & ? & ?).
    split_and!; congruence.
  - split; [exact H1|]. split; [exact H2|]. unfold Counter_Value. by rewrite H2.
Qed.

Lemma nextCheckpoint_spec now last interval :
  in_int64 interval -> (0 <= interval)%Z ->
  let n := nextCheckpoint now last interval in
  (0 <= n <= interval)%Z
  /\ (n = 0%Z <-> last = zero_time \/ (now < last)%Z \/ (last + interval <= now)%Z)
  /\ ((0 < n)%Z -> (now + n = last + interval)%Z).
Proof.
  intros Hi H0. cbn zeta. unfold nextCheckpoint, Time_IsZero.
  case_bool_decide as Hz; [split; [lia|]; split; [tauto|lia]|].
  destruct (Time_Before now last) eqn:Hb;
    [apply Time_Before_true in Hb; split; [lia|]; split; [tauto|lia]|].
  apply Time_Before_false in Hb. unfold in_int64, Time_Sub, int64_min, int64_max in *. cbn zeta.
  case_decide as Hel.
  - split; [lia|]. split; [split; [intros _; right; right; lia|done]|lia].
  - unfold Duration_sub. rewrite wrap64_id by (unfold in_int64, int64_min, int64_max; lia).
    split; [lia|]. split; [|lia]. split; [lia|]. intros [?|[?|?]]; [done|lia|lia].
Qed.

Section Properties.
Context {St : Type} `{LP : LeaseProvider St}.

(** The transaction log.  A commit through the logging provider has the
    result and the effect on the source that the source gives it, and exactly
    when it succeeds it logs, in order, one line for each effect that changes
    the consumption, renewals excepted; the operation counter advances by as
    many (modulo 2^64). *)
Lemma logprov_commit_records tx (p : LogProvider St) :
  let '(err, p') := LogProv_LeaseCommit tx p in
  let es := match err with None => tx_ops tx ≫= recorded | Some _ => [] end in
  (err, log_source p') = LeaseCommit tx (log_source p)
  /\ log_log p' = log_log p ++ (effect_line <$> es)
  /\ wrapu64 (log_ops p') = wrapu64 (log_ops p + N.of_nat (length es)).
Proof.
  unfold LogProv_LeaseCommit.
  destruct (LeaseCommit tx (log_source p)) as [[e|] src]; cbn [fst snd].
  - cbn. by rewrite app_nil_r, N.add_0_r.
  - unfold LogProv_record.
    destruct (record_ops_spec (tx_ops tx) 0 (set_source src p)) as (n & -> & Hn).
    destruct (add_source n (add_lines (effect_line <$> (tx_ops tx ≫= recorded)) (set_source src p)))
      as (-> & -> & _ & ->).
    split_and!; [done..|]. cbn. rewrite N.add_comm, <- wrapu64_add_l, Hn, wrapu64_add_l.
    f_equal. lia.
Qed.

(** Timed checkpoints.  A turn of the checkpoint timer of an open provider
    waits at least a second and at most the interval; a checkpoint happens when
    there was none yet, the clock went back or the interval has elapsed, and
    otherwise the next turn is due exactly when it elapses, or a second later. *)
Lemma logprov_timer interval now1 at_ now2 (p : LogProvider St) :
  in_int64 interval -> (MinimumDuration <= interval)%Z -> log_closed p = false ->
  let last := ts_when (log_last p) in
  let due := last = zero_time \/ (now1 < last)%Z \/ (last + interval <= now1)%Z in
  exists next p', durationCheckpoint_turn interval now1 at_ now2 p = (Waits next, p')
    /\ (MinimumDuration <= next <= interval)%Z
    /\ (due -> p' = snd (LogProv_checkpoint at_ p))
    /\ (~ due -> p' = p /\ (now1 + next = Z.max (last + interval) (now1 + MinimumDuration))%Z).
Proof.
  intros Hi Hmin Hc. cbn zeta. unfold durationCheckpoint_turn. rewrite Hc.
  assert (H0 : (0 <= interval)%Z) by (unfold MinimumDuration, Second in Hmin; lia).
  assert (Hpos : (0 < MinimumDuration)%Z) by (unfold MinimumDuration, Second; lia).
  destruct (nextCheckpoint_spec now1 (ts_when (log_last p)) interval Hi H0) as (Hb & Hz & Hn).
  case_decide as Hdue.
  - set (p1 := snd (LogProv_checkpoint at_ p)).
    destruct (nextCheckpoint_spec now2 (ts_when (log_last p1)) interval Hi H0) as (Hb2 & _ & _).
    do 2 eexists. split; [done|]. split; [case_decide; lia|]. split; [done|].
    intros Hnd. exfalso. apply Hnd, Hz. lia.
  - do 2 eexists. split; [done|]. split; [case_decide; lia|]. split.
    + intros Hd. apply Hz in Hd. lia.
    + intros _. split; [done|]. specialize (Hn ltac:(lia)). case_decide; lia.
Qed.

(** Counted checkpoints.  When a checkpoint goroutine has run and the
    source could list its resources, fewer operations than its schedule asks
    for have passed since the last checkpoint. *)
Lemma logprov_ops_checkpoint ops at_ (p : LogProvider St) rs :
  (0 < ops)%N -> LogProv_LeaseResources p = Ok rs ->
  let p' := LogProv_opsCheckpoint ops at_ p in
  (subu64 (log_ops p') (ts_ops (log_last p')) < ops)%N.
Proof.
  intros Hops Hrs. cbn zeta. unfold LogProv_opsCheckpoint, Counter_Value.
  case_decide as Hlt; [done|]. pose proof (checkpoint_counters at_ p) as H.
  destruct (LogProv_checkpoint at_ p) as [err p'] eqn:Hcp. destruct H as (_ & Ho & Hl).
  assert (err = None) as ->.
  { unfold LogProv_checkpoint in Hcp. rewrite Hrs in Hcp. by injection Hcp. }
  cbn. rewrite Hl, Ho. cbn. rewrite subu64_self by done. lia.
Qed.
End Properties.

(** C40. Schedules.  A parsed schedule has one entry per item, each a positive
    operation count or a duration of at least a second; an operation count is
    read back as it is printed, and so is every duration that is allowed. *)
Theorem parse_schedule_valid s schedule n d :
  ParseSchedule s = Ok schedule -> (0 < n < 2 ^ 64)%N -> in_int64 d -> (MinimumDuration <= d)%Z ->
  Forall valid_schedule schedule
  /\ length schedule = (if decide (s = "") then 0 else length (strings_Split s))
  /\ parse_item (pretty n +:+ OpsSuffix) = Ok (OpsSchedule n)
  /\ parse_item (Duration_text d) = Ok (DurationSchedule d).
Proof.
  intros Hs Hn Hd Hmin. unfold ParseSchedule in Hs.
  assert (Hp : parse_item (pretty n +:+ OpsSuffix) = Ok (OpsSchedule n)).
  { unfold parse_item. destruct (HasSuffix_app (pretty n) OpsSuffix) as [-> ->].
    rewrite ParseUint_pretty by lia. rewrite decide_False by lia. done. }
  assert (Ht : parse_item (Duration_text d) = Ok (DurationSchedule d)).
  { unfold parse_item. rewrite (avoids_suffix letter_p _ OpsSuffix) by (done || apply Duration_text_avoids).
    rewrite ParseDuration_text by done. by rewrite decide_False by lia. }
  case_decide.
  - injection Hs as <-. done.
  - destruct (parse_items_valid _ _ _ Hs (Forall_nil_2 _)) as [Hv Hl]. done.
Qed.

(** ** Witnesses *)

Definition sample_log : LogProvider MemProvider :=
  LogProv_New MemProv_New [OpsSchedule 10; OpsSchedule 4; DurationSchedule Minute].

Lemma logprov_timer_witness :
  exists next p', durationCheckpoint_turn Minute (100 * Second)%Z (100 * Second)%Z (101 * Second)%Z sample_log
    = (Waits next, p') /\ (MinimumDuration <= next <= Minute)%Z
    /\ p' = snd (LogProv_checkpoint (100 * Second)%Z sample_log).
Proof.
  destruct (logprov_timer Minute (100 * Second)%Z (100 * Second)%Z (101 * Second)%Z sample_log)
    as (next & p' & H1 & H2 & H3 & _).
  - unfold in_int64, int64_min, int64_max, Minute, Second. lia.
  - unfold MinimumDuration, Minute, Second. lia.
  - reflexivity.
  - exists next, p'. split; [exact H1|]. split; [exact H2|]. apply H3. left. reflexivity.
Defined.

Lemma logprov_ops_checkpoint_witness :
  let p' := LogProv_opsCheckpoint 4 (100 * Second)%Z sample_log in
  (subu64 (log_ops p') (ts_ops (log_last p')) < 4)%N.
Proof.
  apply (logprov_ops_checkpoint 4 (100 * Second)%Z sample_log []); [lia|reflexivity].
Defined.

Lemma parse_schedule_valid_witness :
  Forall valid_schedule [OpsSchedule 100; DurationSchedule (90 * Second)%Z]
  /\ parse_item (pretty 250%N +:+ OpsSuffix) = Ok (OpsSchedule 250)
  /\ parse_item "1h0m1.5s" = Ok (DurationSchedule 3601500000000%Z).
Proof.
  destruct (parse_schedule_valid "100ops,1m30s" [OpsSchedule 100; DurationSchedule (90 * Second)%Z] 250
    3601500000000%Z) as (H1 & _ & H2 & H3).
  - vm_compute. reflexivity.
  - lia.
  - unfold in_int64, int64_min, int64_max. lia.
  - unfold MinimumDuration, Second. lia.
  - split; [exact H1|]. split; [exact H2|]. exact H3.
Defined.
