(* ===== verification/Program.v ===== *)
(** * Programs of the guardian server

    The server's handlers run in goroutines that share nothing but the
    providers; between two provider calls of one handler, other handlers run.
    [prog] makes those calls explicit: a handler is a tree of the calls it
    makes, each with the continuation that receives the answer.  [run] executes
    a program alone; [Concurrency.v] interleaves the calls of many.

    Provider calls, clock readings and published updates are nodes; log output
    is left out.  A Go panic is [Crash]: it ends the handler. *)

From S2P Require Import Prelude GoTime Lease LeaseSet Tx Policy Provider.

Inductive prog (A : Type) : Type :=
| Done (a : A)
| Crash (msg : string)
| Policies_ (k : result PolicySet -> prog A)
| LeaseResources_ (k : result (list string) -> prog A)
| LeaseView_ (resource : string) (k : result (N * LeaseSet) -> prog A)
| LeaseCommit_ (tx : Tx) (k : option error -> prog A)
| Now_ (k : Time -> prog A)
| Publish_ (snapshot : Snapshot) (k : prog A).
Arguments Done {A}.
Arguments Crash {A}.
Arguments Policies_ {A}.
Arguments LeaseResources_ {A}.
Arguments LeaseView_ {A}.
Arguments LeaseCommit_ {A}.
Arguments Now_ {A}.
Arguments Publish_ {A}.

Fixpoint prog_bind {A B} (f : A -> prog B) (p : prog A) : prog B :=
  match p with
  | Done a => f a
  | Crash msg => Crash msg
  | Policies_ k => Policies_ (fun x => prog_bind f (k x))
  | LeaseResources_ k => LeaseResources_ (fun x => prog_bind f (k x))
  | LeaseView_ r k => LeaseView_ r (fun x => prog_bind f (k x))
  | LeaseCommit_ tx k => LeaseCommit_ tx (fun x => prog_bind f (k x))
  | Now_ k => Now_ (fun x => prog_bind f (k x))
  | Publish_ s k => Publish_ s (prog_bind f k)
  end.

#[export] Instance prog_mret : MRet prog := fun A a => Done a.
#[export] Instance prog_mbind : MBind prog := fun A B f p => prog_bind f p.

(** The calls. *)
Definition Policies : prog (result PolicySet) := Policies_ Done.
Definition Resources : prog (result (list string)) := LeaseResources_ Done.
Definition View (resource : string) : prog (result (N * LeaseSet)) := LeaseView_ resource Done.
Definition Commit (tx : Tx) : prog (option error) := LeaseCommit_ tx Done.
Definition Now : prog Time := Now_ Done.
Definition Publish (s : Snapshot) : prog () := Publish_ s (Done tt).

(** Code that makes no calls and may panic. *)
Definition lift {A} (o : outcome A) : prog A :=
  match o with
  | Ret a => Done a
  | Panic msg => Crash msg
  | Diverge => Crash "diverges"
  end.

(** [for _, x := range l] with an early return of an error. *)
Fixpoint for_each {X} (body : X -> prog (option error)) (l : list X) : prog (option error) :=
  match l with
  | [] => Done None
  | x :: l =>
      err ← body x;
      match err with
      | Some e => Done (Some e)
      | None => for_each body l
      end
  end.

Fixpoint collect {X A} (body : X -> prog (result A)) (l : list X) (acc : list A)
  : prog (result (list A)) :=
  match l with
  | [] => Done (Ok acc)
  | x :: l =>
      r ← body x;
      match r with
      | Err e => Done (Err e)
      | Ok a => collect body l (acc ++ [a])
      end
  end.

(** ** Running a program alone *)

Inductive answer (A : Type) : Type :=
| Answered (a : A)
| Crashed (msg : string).
Arguments Answered {A}.
Arguments Crashed {A}.

(** The world outside the server: the lease provider's state, the answers of
    the policy provider, the clock (its [n]-th reading is [clock n]) and what
    has been published. *)
Record World (St : Type) := mkWorld {
  w_provider : St;
  w_policies : result PolicySet;
  w_clock : nat -> Time;
  w_ticks : nat;
  w_published : list Snapshot;
}.
Arguments mkWorld {St}.
Arguments w_provider {St}.
Arguments w_policies {St}.
Arguments w_clock {St}.
Arguments w_ticks {St}.
Arguments w_published {St}.

Definition set_provider {St} (p : St) (w : World St) : World St :=
  mkWorld p (w_policies w) (w_clock w) (w_ticks w) (w_published w).
Definition tick {St} (w : World St) : World St :=
  mkWorld (w_provider w) (w_policies w) (w_clock w) (S (w_ticks w)) (w_published w).
Definition publish {St} (s : Snapshot) (w : World St) : World St :=
  mkWorld (w_provider w) (w_policies w) (w_clock w) (w_ticks w) (w_published w ++ [s]).

Fixpoint run `{LP : LeaseProvider St} {A} (p : prog A) (w : World St) : answer A * World St :=
  match p with
  | Done a => (Answered a, w)
  | Crash msg => (Crashed msg, w)
  | Policies_ k => run (k (w_policies w)) w
  | LeaseResources_ k => run (k (LeaseResources (w_provider w))) w
  | LeaseView_ r k =>
      let '(v, p) := LeaseView r (w_provider w) in run (k v) (set_provider p w)
  | LeaseCommit_ tx k =>
      let '(e, p) := LeaseCommit tx (w_provider w) in run (k e) (set_provider p w)
  | Now_ k => run (k (w_clock w (w_ticks w))) (tick w)
  | Publish_ s k => run k (publish s w)
  end.

Lemma run_bind `{LP : LeaseProvider St} {A B} (f : A -> prog B) (p : prog A) (w : World St) :
  run (p ≫= f) w
  = match run p w with
    | (Answered a, w') => run (f a) w'
    | (Crashed msg, w') => (Crashed msg, w')
    end.
Proof.
  revert w. induction p as [a|msg|k IH|k IH|r k IH|tx k IH|k IH|s k IH]; intros w;
    cbn [mbind prog_mbind prog_bind run]; try done; try apply IH.
  - by destruct (LeaseView r (w_provider w)) as [v p].
  - by destruct (LeaseCommit tx (w_provider w)) as [v p].
Qed.
