(* ===== verification/Server.v ===== *)
(** * The guardian server (guardian/server.go, guardian/transport)

    Each handler of the server is a [prog]: a function of the source with its
    provider calls, its loops of five attempts, its early returns and its
    panics.  Requests arrive as the parsed form of the HTTP request; responses
    are the status and the structured body, whose JSON text is left to
    [encoding/json].  Log output is left out, but not the statistics that the
    log lines compute, since these may panic. *)

From stdpp Require Import pretty.
From S2P Require Import Prelude GoTime Lease LeaseSet Tx LeaseUtil Policy Provider Program.

(** ** guardian/transport/transport.go *)

Record Request := mkRequest {
  req_Subject : Subject;
  req_Properties : Properties;
}.

Record HealthResponse := mkHealthResponse { health_OK : bool }.
Record PoliciesResponse := mkPoliciesResponse { pr_Policies : PolicySet }.
Record LeasesResponse := mkLeasesResponse { lr_Snapshots : list Snapshot }.
Record AcquireResponse := mkAcquireResponse {
  ar_Request : Request;
  ar_Lease : Lease;
  ar_Leases : LeaseSet;
  ar_Message : string;
}.
Record ReleaseResponse := mkReleaseResponse {
  rr_Request : Request;
  rr_Success : bool;
  rr_Message : string;
}.

(** What a handler writes. *)
Inductive Reply :=
| ErrorReply (code : N) (msg : string)
| NoContentReply
| HealthReply (r : HealthResponse)
| PoliciesReply (r : PoliciesResponse)
| LeasesReply (r : LeasesResponse)
| AcquireReply (r : AcquireResponse)
| ReleaseReply (r : ReleaseResponse).

Definition StatusBadRequest : N := 400.
Definition StatusInternalServerError : N := 500.

(** ** Requests *)

(** [r.ParseForm]: its error, or the form in the order the map is ranged over. *)
Abbreviation HTTPForm := (result (list (string * list string))) (only parsing).

Definition set_req_Resource (v : string) (req : Request) : Request :=
  mkRequest (mkSubject v (sub_Instance (req_Subject req))) (req_Properties req).
Definition set_req_Instance (i : LeaseInstance) (req : Request) : Request :=
  mkRequest (mkSubject (sub_Resource (req_Subject req)) i) (req_Properties req).

Definition zero_request : Request := mkRequest zero_subject ∅.

(** One turn of the loop of [parseRequest]. *)
Definition parse_entry (req : Request) (kv : string * list string) : Request :=
  let '(k, values) := kv in
  match values with
  | [] => req
  | value :: _ =>
      let i := sub_Instance (req_Subject req) in
      if decide (k = "resource") then set_req_Resource value req
      else if decide (k = "host") then set_req_Instance (mkInstance value (inst_User i) (inst_ID i)) req
      else if decide (k = "user") then set_req_Instance (mkInstance (inst_Host i) value (inst_ID i)) req
      else if decide (k = "instance") then set_req_Instance (mkInstance (inst_Host i) (inst_User i) value) req
      else mkRequest (req_Subject req) (<[k := value]> (req_Properties req))
  end.

Definition parseRequest (form : HTTPForm) : result Request :=
  form ← form; Ok (foldl parse_entry zero_request form).

Definition initRequest `{GoText} (form : HTTPForm) : prog (result (Request * PolicySet)) :=
  match parseRequest form with
  | Err e => Done (Err ("unable to parse request: " +:+ e))
  | Ok req =>
      if decide (Subject_HostUser (req_Subject req) = "") then
        Done (Err "consumer not specified or determinable")
      else
        policies ← Policies;
        match policies with
        | Err e => Done (Err ("unable to retrieve policies: " +:+ e))
        | Ok policies => Done (Ok (req, PolicySet_Match policies (req_Properties req)))
        end
  end.

(** ** Statistics *)

Definition statsSummary (limit : N) (stats : Stats) (strat : Strategy) : outcome string :=
  consumed ← Stats_Consumed stats strat;
  active ← Stats_Active stats strat;
  released ← Stats_Released stats strat;
  queued ← Stats_Queued stats strat;
  let limitStr := if decide (limit = DefaultLimit) then "∞" else pretty limit in
  Ret ("alloc: " +:+ pretty consumed +:+ "/" +:+ limitStr +:+ ", active: " +:+ pretty active
       +:+ ", released: " +:+ pretty released +:+ ", queued: " +:+ pretty queued).

Definition snapshot_of (resource : string) (revision : N) (leases : LeaseSet) : Snapshot :=
  mkSnapshot resource revision leases (Set_Stats leases).
Definition zero_snapshot : Snapshot := mkSnapshot "" 0 [] zero_stats.

Section Server.
Context `{SO : Sorter, GT : GoText}.

(** ** Acquisition *)

(** The lease offered in one attempt, before its status is decided. *)
Definition new_lease (subject : Subject) (props : Properties) (policies : PolicySet) (now : Time)
  : Lease :=
  let duration := PolicySet_Duration policies in
  let refresh := PolicySet_Refresh policies in
  let active := ref_Active refresh in
  let active := if decide (active <> 0%Z) then if decide (duration <= active)%Z then 0%Z else active
                else active in
  let queued := ref_Queued refresh in
  let queued := if decide (queued <> 0%Z) then if decide (duration <= queued)%Z then 0%Z else queued
                else queued in
  mkLease subject props "" now now zero_time (PolicySet_Strategy policies) (PolicySet_Limit policies)
    duration (PolicySet_Decay policies) (mkRefresh active queued).

(** The transaction of one attempt. *)
Definition acquire_tx (subject : Subject) (policies : PolicySet) (ls : Lease) (now : Time) (tx : Tx)
  : outcome (Lease * Tx) :=
  let strat := PolicySet_Strategy policies in
  let limit := PolicySet_Limit policies in
  '(acc, tx) ← Refresh tx now;
  let consumed := Accumulator_Total acc strat in
  let released := Accumulator_Released acc (Subject_HostUser subject) in
  match Tx_Instance tx (sub_Instance subject) with
  | Some existing =>
      if decide (ls_Status existing = Released) then
        let ls := set_Status (if decide (consumed <= limit)%N then Active else Queued) ls in
        tx ← Tx_Update (ls_Instance existing) ls tx;
        Ret (ls, tx)
      else
        let ls := set_Status (ls_Status existing) ls in
        let ls := set_Started (ls_Started existing) ls in
        tx ← Tx_Update (ls_Instance existing) ls tx;
        Ret (ls, tx)
  | None =>
      if decide (0 < released /\ consumed <= limit)%N then
        let i := sub_Instance subject in
        let replaceable := Set_Status (Tx_HostUser tx (inst_Host i) (inst_User i)) Released in
        if decide (N.of_nat (length replaceable) <> released) then
          Panic "server: acquireHandler: accumulator returned a different count for relased leases than the transaction"
        else
          match replaceable !! N.to_nat (released - 1) with
          | None => Panic "index out of range"
          | Some replaced =>
              let ls := set_Status Active ls in
              tx ← Tx_Update (ls_Instance replaced) ls tx;
              Ret (ls, tx)
          end
      else
        let ls := set_Status
          (if CanActivate strat (Accumulator_Active acc (Subject_HostUser subject)) consumed limit
           then Active else Queued) ls in
        Ret (ls, Tx_Create ls tx)
  end.

(** The five attempts.  The variables are those declared before the loop. *)
Fixpoint acquire_loop (attempts : nat) (subject : Subject) (props : Properties) (policies : PolicySet)
  (ls : Lease) (snapshot : Snapshot) (err : option error)
  : prog (Lease * Snapshot * option error) :=
  match attempts with
  | O => Done (ls, snapshot, err)
  | S attempts =>
      view ← View (sub_Resource subject);
      match view with
      | Err e => acquire_loop attempts subject props policies ls snapshot (Some e)
      | Ok (revision, leases) =>
          now ← Now;
          let ls := new_lease subject props policies now in
          let tx := NewTx (sub_Resource subject) revision leases in
          '(ls, tx) ← lift (acquire_tx subject policies ls now tx);
          let snapshot := snapshot_of (tx_resource tx) (tx_revision tx) (tx_leases tx) in
          if Tx_Empty tx then Done (ls, snapshot, None)
          else
            err ← Commit tx;
            match err with
            | None => Done (ls, snapshot, None)
            | Some e => acquire_loop attempts subject props policies ls snapshot (Some e)
            end
      end
  end.

Definition acquire (subject : Subject) (props : Properties) (policies : PolicySet)
  : prog (result (Lease * Snapshot)) :=
  '(ls, snapshot, err) ← acquire_loop 5 subject props policies zero_lease zero_snapshot None;
  match err with
  | Some e => Done (Err e)
  | None =>
      _ ← lift (statsSummary (PolicySet_Limit policies) (snap_Stats snapshot)
                  (PolicySet_Strategy policies));
      _ ← Publish snapshot;
      Done (Ok (ls, snapshot))
  end.

(** ** Release *)

(** The transaction of one attempt; the lease found is only logged. *)
Definition release_tx (subject : Subject) (now : Time) (tx : Tx) : outcome Tx :=
  '(_, tx) ← Refresh tx now;
  let _ := Tx_Instance tx (sub_Instance subject) in
  tx ← Tx_Release (sub_Instance subject) now tx;
  '(_, tx) ← Refresh tx now;
  Ret tx.

Fixpoint release_loop (attempts : nat) (subject : Subject) (snapshot : Snapshot) (err : option error)
  : prog (Snapshot * option error) :=
  match attempts with
  | O => Done (snapshot, err)
  | S attempts =>
      view ← View (sub_Resource subject);
      match view with
      | Err e => release_loop attempts subject snapshot (Some e)
      | Ok (revision, leases) =>
          now ← Now;
          tx ← lift (release_tx subject now (NewTx (sub_Resource subject) revision leases));
          let snapshot := snapshot_of (tx_resource tx) (tx_revision tx) (tx_leases tx) in
          if Tx_Empty tx then Done (snapshot, None)
          else
            err ← Commit tx;
            match err with
            | None => Done (snapshot, None)
            | Some e => release_loop attempts subject snapshot (Some e)
            end
      end
  end.

Definition release (subject : Subject) (policies : PolicySet) : prog (option error) :=
  '(snapshot, err) ← release_loop 5 subject zero_snapshot None;
  match err with
  | Some e => Done (Some e)
  | None =>
      _ ← lift (statsSummary (PolicySet_Limit policies) (snap_Stats snapshot)
                  (PolicySet_Strategy policies));
      _ ← Publish snapshot;
      Done None
  end.

(** ** Purging and refreshing *)

Fixpoint purge_loop (attempts : nat) (resource : string) (err : option error) : prog (option error) :=
  match attempts with
  | O => Done err
  | S attempts =>
      view ← View resource;
      match view with
      | Err e => purge_loop attempts resource (Some e)
      | Ok (revision, leases) =>
          now ← Now;
          '(_, tx) ← lift (Refresh (NewTx resource revision leases) now);
          if decide (length (tx_ops tx) = 0) then Done None
          else
            err ← Commit tx;
            match err with
            | None => Done None
            | Some e => purge_loop attempts resource (Some e)
            end
      end
  end.

Definition Purge : prog (option error) :=
  resources ← Resources;
  match resources with
  | Err e => Done (Some e)
  | Ok resources => for_each (fun resource => purge_loop 5 resource None) resources
  end.

(** The map [seen] is never written, here as in the policy set. *)
Definition collect_names (seen : gmap string bool) (names : list string) : list string :=
  filter (fun r => r <> "" /\ default false (seen !! r) = false) names.

Definition collectResources : prog (result (list string)) :=
  policies ← Policies;
  match policies with
  | Err e => Done (Err ("policy retrieval failed: " +:+ e))
  | Ok policies =>
      leaseResources ← Resources;
      match leaseResources with
      | Err e => Done (Err ("resource list retrieval failed: " +:+ e))
      | Ok leaseResources =>
          Done (Ok (collect_names ∅ (pol_Resource <$> policies) ++ collect_names ∅ leaseResources))
      end
  end.

Definition collectSnapshot (resource : string) : prog (result Snapshot) :=
  view ← View resource;
  match view with
  | Err e => Done (Err e)
  | Ok (revision, leases) =>
      now ← Now;
      '(_, tx) ← lift (Refresh (NewTx resource revision leases) now);
      _ ← (if negb (Tx_Empty tx) then Commit tx else Done None);
      Done (Ok (snapshot_of resource revision (tx_leases tx)))
  end.

Definition collectSnapshots (resources : list string) : prog (result (list Snapshot)) :=
  resources ← (if decide (length resources = 0) then collectResources else Done (Ok resources));
  match resources with
  | Err e => Done (Err e)
  | Ok resources => collect collectSnapshot resources []
  end.

(** One turn of the loop of [refreshLeases]; it never ends the loop. *)
Definition refresh_resource (resource : string) : prog (option error) :=
  view ← View resource;
  match view with
  | Err _ => Done None
  | Ok (revision, leases) =>
      now ← Now;
      '(_, tx) ← lift (Refresh (NewTx resource revision leases) now);
      if Tx_Empty tx then Done None
      else
        _ ← Commit tx;
        _ ← Publish (snapshot_of resource revision (tx_leases tx));
        Done None
  end.

Definition refreshLeases : prog () :=
  resources ← collectResources;
  match resources with
  | Err _ => Done tt
  | Ok resources => _ ← for_each refresh_resource resources; Done tt
  end.

(** ** HTTP handlers *)

Definition healthHandler : prog Reply := Done (HealthReply (mkHealthResponse true)).

Definition policiesHandler : prog Reply :=
  policies ← Policies;
  match policies with
  | Err _ => Done (ErrorReply StatusInternalServerError "Unable to retrieve policies")
  | Ok policies => Done (PoliciesReply (mkPoliciesResponse policies))
  end.

Definition leasesHandler (form : HTTPForm) : prog Reply :=
  match parseRequest form with
  | Err e => Done (ErrorReply StatusBadRequest ("unable to parse request: " +:+ e))
  | Ok req =>
      resources ← (if decide (sub_Resource (req_Subject req) = "") then collectResources
                   else Done (Ok [sub_Resource (req_Subject req)]));
      match resources with
      | Err e => Done (ErrorReply StatusInternalServerError e)
      | Ok resources =>
          snapshots ← collectSnapshots resources;
          match snapshots with
          | Err e => Done (ErrorReply StatusInternalServerError e)
          | Ok snapshots => Done (LeasesReply (mkLeasesResponse snapshots))
          end
      end
  end.

Definition acquireHandler (form : HTTPForm) : prog Reply :=
  init ← initRequest form;
  match init with
  | Err e => Done (ErrorReply StatusBadRequest e)
  | Ok (req, policies) =>
      let resource := PolicySet_Resource policies in
      let held := sub_Resource (req_Subject req) in
      err ← (if decide (resource <> held /\ held <> "")
             then release (req_Subject req) policies else Done None);
      match err with
      | Some e => Done (ErrorReply StatusBadRequest e)
      | None =>
          let req := if decide (resource <> held) then set_req_Resource resource req else req in
          if decide (sub_Resource (req_Subject req) = "") then Done NoContentReply
          else
            let props := MergeProperties [req_Properties req; PolicySet_Properties policies] in
            r ← acquire (req_Subject req) props policies;
            match r with
            | Err e => Done (ErrorReply StatusBadRequest e)
            | Ok (ls, snapshot) =>
                Done (AcquireReply (mkAcquireResponse req ls (snap_Leases snapshot) ""))
            end
      end
  end.

Definition releaseHandler (form : HTTPForm) : prog Reply :=
  init ← initRequest form;
  match init with
  | Err e => Done (ErrorReply StatusBadRequest e)
  | Ok (req, policies) =>
      err ← release (req_Subject req) policies;
      match err with
      | Some e => Done (ErrorReply StatusBadRequest e)
      | None => Done (ReleaseReply (mkReleaseResponse req true ""))
      end
  end.

(** What [streamHandler] sends to a new client: the policies and the leases,
    each if they can be had. *)
Definition stream_start : prog (option PolicySet * list Snapshot) :=
  policies ← Policies;
  snapshots ← collectSnapshots [];
  Done (match policies with Ok p => Some p | Err _ => None end,
        match snapshots with Ok s => s | Err _ => [] end).
End Server.
