(* ===== verification/Client.v ===== *)
(** * The guardian client (guardian/endpoint.go, endpointset.go, client.go)

    Endpoints are service addresses; a set of endpoints selects the first
    healthy one, and a client keeps a selected endpoint and fails over to
    another one when a request fails.  The network, the resolver, the clock and
    the context of a call are the environment, the class [Net]; each operation
    is a function of its state.  A client's mutexes make [Resolve] and
    [failover] atomic with respect to each other. *)

From stdpp Require Import pretty.
From S2P Require Import Prelude GoStrings GoTime Lease LeaseSet Policy Program Server.

(** ** Errors *)

Inductive api_error :=
| ErrContext (e : error)
| ErrEmptyEndpoint
| ErrLeaseNotRequired
| errSelectionInterval
| errResolverInterval
| ErrText (e : error).

#[export] Instance api_error_eq_dec : EqDecision api_error.
Proof. solve_decision. Defined.

Definition error_text (e : api_error) : error :=
  match e with
  | ErrContext e => e
  | ErrEmptyEndpoint => "empty endpoint"
  | ErrLeaseNotRequired => "lease not required"
  | errSelectionInterval => "the selection interval has not been reached"
  | errResolverInterval => "the resolver interval has not been reached"
  | ErrText e => e
  end.

Definition isContextErr (err : api_error) : bool :=
  match err with ErrContext _ => true | _ => false end.

Inductive reply (A : Type) :=
| Got (a : A)
| Failed (e : api_error).
Arguments Got {A} a.
Arguments Failed {A} e.

(** ** The environment *)

Definition Endpoint := string.
Abbreviation EndpointSet := (list Endpoint) (only parsing).

(** [url.Values]. *)
Abbreviation Values := (gmap string (list string)) (only parsing).

Record HTTPRequest := mkHTTPRequest {
  hr_Method : string;
  hr_Addr : string;
  hr_Form : option Values;
}.

Record HTTPResponse := mkHTTPResponse {
  resp_StatusCode : N;
  resp_Status : string;
  resp_Body : bytes;
}.

Class Net (Env : Type) := {
  ctx_Err : Env -> option error;
  http_NewRequest : string -> option error;
  http_Do : HTTPRequest -> Env -> result HTTPResponse * Env;
  resolver_Resolve : Env -> result EndpointSet * Env;
  time_Now : Env -> Time * Env;
  decode_Health : bytes -> result HealthResponse;
  decode_Policies : bytes -> result PoliciesResponse;
  decode_Acquire : bytes -> result AcquireResponse;
  decode_Release : bytes -> result ReleaseResponse;
}.

(** ** guardian/endpoint.go *)

Definition prefix (e : Endpoint) : string :=
  let u := e in
  let u := if negb (Contains u "://") then "http://" +:+ u else u in
  if negb (HasSuffix u "/") then u +:+ "/" else u.

Definition set_if (key value : string) (v : Values) : Values :=
  if decide (value <> "") then <[key := [value]]> v else v.

Definition urlValues (subject : Subject) (props : Properties) : Values :=
  let i := sub_Instance subject in
  let v : Values := ∅ in
  let v := set_if "resource" (sub_Resource subject) v in
  let v := set_if "host" (inst_Host i) v in
  let v := set_if "user" (inst_User i) v in
  let v := set_if "instance" (inst_ID i) v in
  map_fold (fun key value v => <[key := [value]]> v) v props.

Definition StatusOK : N := 200.
Definition StatusNoContent : N := 204.

Section Client.
Context {Env : Type} `{NE : Net Env}.

Definition decoded {A} (decode : bytes -> result A) (body : bytes) : reply A :=
  match decode body with Ok a => Got a | Err e => Failed (ErrText e) end.

Definition endpoint_get {A} (decode : bytes -> result A) (e : Endpoint) (path : string) (env : Env)
  : reply A * Env :=
  if decide (e = "") then (Failed ErrEmptyEndpoint, env)
  else match ctx_Err env with
  | Some err => (Failed (ErrContext err), env)
  | None =>
      let addr := prefix e +:+ path in
      match http_NewRequest addr with
      | Some err => (Failed (ErrText err), env)
      | None =>
          let '(resp, env) := http_Do (mkHTTPRequest "GET" addr None) env in
          match resp with
          | Err err => (Failed (ErrText err), env)
          | Ok resp =>
              if decide (resp_StatusCode resp <> StatusOK)
              then (Failed (ErrText ("http status: " +:+ resp_Status resp)), env)
              else (decoded decode (resp_Body resp), env)
          end
      end
  end.

Definition endpoint_post {A} (decode : bytes -> result A) (e : Endpoint) (path : string)
  (subject : Subject) (props : Properties) (env : Env) : reply A * Env :=
  if decide (e = "") then (Failed ErrEmptyEndpoint, env)
  else match ctx_Err env with
  | Some err => (Failed (ErrContext err), env)
  | None =>
      let addr := prefix e +:+ path in
      let body := urlValues subject props in
      match http_NewRequest addr with
      | Some err => (Failed (ErrText err), env)
      | None =>
          let '(resp, env) := http_Do (mkHTTPRequest "POST" addr (Some body)) env in
          match resp with
          | Err err => (Failed (ErrText err), env)
          | Ok resp =>
              if decide (resp_StatusCode resp = StatusNoContent) then (Failed ErrLeaseNotRequired, env)
              else if decide (resp_StatusCode resp = StatusOK)
              then (decoded decode (resp_Body resp), env)
              else (Failed (ErrText ("http status: " +:+ resp_Status resp)), env)
          end
      end
  end.

Definition Endpoint_Health (e : Endpoint) := endpoint_get decode_Health e "health".
Definition Endpoint_Policies (e : Endpoint) := endpoint_get decode_Policies e "policies".
(** The resource is not used. *)
Definition Endpoint_Leases (e : Endpoint) (resource : string) := endpoint_get decode_Policies e "leases".
Definition Endpoint_Acquire (e : Endpoint) (subject : Subject) (props : Properties) :=
  endpoint_post decode_Acquire e "acquire" subject props.
Definition Endpoint_Release (e : Endpoint) (subject : Subject) :=
  endpoint_post decode_Release e "release" subject ∅.

(** ** guardian/endpointset.go *)

Fixpoint select_round (s : EndpointSet) (failed : list api_error) (env : Env)
  : (option Endpoint * list api_error) * Env :=
  match s with
  | [] => ((None, failed), env)
  | endpoint :: s =>
      let '(health, env) := Endpoint_Health endpoint env in
      match health with
      | Failed err => select_round s (failed ++ [err]) env
      | Got health =>
          if negb (health_OK health) then select_round s failed env
          else ((Some endpoint, failed), env)
      end
  end.

Fixpoint select_rounds (rounds : nat) (s : EndpointSet) (failed : list api_error) (env : Env)
  : (option Endpoint * list api_error) * Env :=
  match rounds with
  | O => ((None, failed), env)
  | S rounds =>
      let '((endpoint, failed), env) := select_round s failed env in
      match endpoint with
      | Some endpoint => ((Some endpoint, failed), env)
      | None => select_rounds rounds s failed env
      end
  end.

Definition rounds : nat := 2.

Definition select_error (s : EndpointSet) (failed : list api_error) : error :=
  match failed with
  | [] => "endpoint selection failed: no servers available"
  | [e] => "endpoint selection failed: " +:+ error_text e
  | e :: _ => "endpoint selection failed: " +:+ pretty (length failed) +:+ " attempts to connect to "
              +:+ pretty (length s) +:+ " servers failed: " +:+ error_text e
  end.

Definition Select (s : EndpointSet) (env : Env) : reply Endpoint * Env :=
  match ctx_Err env with
  | Some err => (Failed (ErrContext err), env)
  | None =>
      let '((endpoint, failed), env) := select_rounds rounds s [] env in
      match endpoint with
      | Some endpoint => (Got endpoint, env)
      | None => (Failed (ErrText (select_error s failed)), env)
      end
  end.

(** ** guardian/client.go *)

Record Client := mkClient {
  c_endpoints : EndpointSet;
  c_endpoint : Endpoint;
  c_resolved : Time;
  c_selected : Time;
}.

Definition NewClient : Client := mkClient [] "" zero_time zero_time.

Definition Client_Resolve (c : Client) (env : Env) : option api_error * Client * Env :=
  match ctx_Err env with
  | Some err => (Some (ErrContext err), c, env)
  | None =>
      let '(endpoints, env) := resolver_Resolve env in
      match endpoints with
      | Err e => (Some (ErrText e), c, env)
      | Ok endpoints =>
          let '(endpoint, env) := Select endpoints env in
          match endpoint with
          | Failed e => (Some e, c, env)
          | Got endpoint =>
              let '(now, env) := time_Now env in
              (None, mkClient endpoints endpoint now now, env)
          end
      end
  end.

Definition failover (essential : bool) (c : Client) (env : Env) : reply Endpoint * Client * Env :=
  match ctx_Err env with
  | Some err => (Failed (ErrContext err), c, env)
  | None =>
      let '(now, env) := time_Now env in
      if negb essential && negb (Time_IsZero (c_selected c))
         && bool_decide (Time_Sub now (c_selected c) < 2 * Second)%Z
      then (Failed errSelectionInterval, c, env)
      else
        let '(endpoint, env) := Select (c_endpoints c) env in
        match endpoint with
        | Got endpoint =>
            (Got endpoint, mkClient (c_endpoints c) endpoint (c_resolved c) (c_selected c), env)
        | Failed _ =>
            if negb essential && negb (Time_IsZero (c_resolved c))
               && bool_decide (Time_Sub now (c_resolved c) < 10 * Second)%Z
            then (Failed errResolverInterval, c, env)
            else
              let '(endpoints, env) := resolver_Resolve env in
              match endpoints with
              | Err e => (Failed (ErrText e), c, env)
              | Ok endpoints =>
                  let '(endpoint, env) := Select endpoints env in
                  match endpoint with
                  | Failed e => (Failed e, c, env)
                  | Got endpoint =>
                      let '(resolved, env) := time_Now env in
                      (Got endpoint, mkClient endpoints endpoint resolved (c_selected c), env)
                  end
              end
        end
  end.

(** The three calls of the client differ in the request and in whether it is
    essential. *)
Definition with_failover {A} (essential : bool) (call : Endpoint -> Env -> reply A * Env)
  (c : Client) (env : Env) : reply A * Client * Env :=
  let '(response, env) := call (c_endpoint c) env in
  match response with
  | Got a => (Got a, c, env)
  | Failed err =>
      if isContextErr err then (Failed err, c, env)
      else
        let '(endpoint, c, env) := failover essential c env in
        match endpoint with
        | Failed _ => (Failed err, c, env)
        | Got endpoint => let '(response, env) := call endpoint env in (response, c, env)
        end
  end.

Definition Client_Policies := with_failover false Endpoint_Policies.
Definition Client_Acquire (subject : Subject) (props : Properties) :=
  with_failover false (fun e => Endpoint_Acquire e subject props).
Definition Client_Release (subject : Subject) :=
  with_failover true (fun e => Endpoint_Release e subject).
End Client.
