(* ===== verification/ClientProps.v ===== *)
(** * What the guardian client guarantees *)

From S2P Require Import Prelude GoStrings GoTime Lease LeaseSet Policy Program Server Client.

(** ** Lemmas: the form of a request *)

Definition reserved : list string := ["resource"; "host"; "user"; "instance"].

(** The first value of a key, in a form that lists each key once. *)
Definition pick (l : list (string * list string)) (k d : string) : string :=
  match (list_to_map l : gmap string (list string)) !! k with
  | Some (v :: _) => v
  | _ => d
  end.

Lemma pick_cons k vs l k' d :
  pick ((k, vs) :: l) k' d
  = if decide (k = k') then match vs with v :: _ => v | [] => d end else pick l k' d.
Proof.
  unfold pick. rewrite list_to_map_cons, lookup_insert.
  case_decide; [|done]. by destruct vs.
Qed.

Lemma pick_notin l k d : k ∉ l.*1 -> pick l k d = d.
Proof. intros H. unfold pick. by rewrite (not_elem_of_list_to_map_1 _ _ H). Qed.

Definition prop_of (l : list (string * list string)) (old : Properties) (k : string) : option string :=
  if decide (k ∈ reserved) then old !! k
  else match (list_to_map l : gmap string (list string)) !! k with
       | Some (v :: _) => Some v
       | _ => old !! k
       end.

Lemma parse_entries_spec l req :
  NoDup l.*1 ->
  let i := sub_Instance (req_Subject req) in
  let req' := foldl parse_entry req l in
  req_Subject req' = mkSubject (pick l "resource" (sub_Resource (req_Subject req)))
    (mkInstance (pick l "host" (inst_Host i)) (pick l "user" (inst_User i)) (pick l "instance" (inst_ID i)))
  /\ forall k, req_Properties req' !! k = prop_of l (req_Properties req) k.
Proof.
  revert req. induction l as [|[k vs] l IH]; intros req; cbn zeta.
  - intros _. destruct req as [[r [h u d]] p]. split; [done|]. intros k. unfold prop_of. by case_decide.
  - cbn [fmap list_fmap fst]. intros [Hk Hnd]%NoDup_cons. cbn [foldl].
    destruct (IH (parse_entry req (k, vs)) Hnd) as [Hs Hp]. cbn zeta in *. rewrite Hs. clear Hs.
    assert (Hpk : forall d, pick l k d = d) by (intros; by apply pick_notin).
    rewrite !pick_cons. unfold prop_of in *. split; [|intros k'; rewrite Hp; clear Hp].
    + destruct vs as [|v vs]; cbn [parse_entry].
      { repeat (case_decide; [subst; rewrite ?Hpk|]); done. }
      repeat (case_decide; [subst; cbn; rewrite ?Hpk; done|]); done.
    + destruct (decide (k' ∈ reserved)) as [Hin|Hin].
      * destruct vs as [|v vs]; cbn [parse_entry]; [done|].
        repeat (case_decide; [done|]). cbn. rewrite lookup_insert_ne; [done|].
        intros <-. unfold reserved in Hin. set_solver.
      * rewrite list_to_map_cons, lookup_insert. case_decide as He.
        -- subst k'. rewrite (not_elem_of_list_to_map_1 l k Hk). destruct vs as [|v vs]; cbn [parse_entry]; [done|].
           unfold reserved in Hin. rewrite !decide_False by set_solver. cbn. apply lookup_insert_eq.
        -- assert (Hold : req_Properties (parse_entry req (k, vs)) !! k' = req_Properties req !! k').
           { destruct vs as [|v vs]; cbn [parse_entry]; [done|]. repeat (case_decide; [done|]). cbn.
             by apply lookup_insert_ne. }
           by rewrite Hold.
Qed.

Lemma map_fold_values (p : Properties) (v : gmap string (list string)) :
  map_fold (fun key value v => <[key := [value]]> v) v p = ((fun x => [x]) <$> p) ∪ v.
Proof.
  revert p. apply (map_fold_weak_ind (fun r p => r = ((fun x => [x]) <$> p) ∪ v)).
  - by rewrite fmap_empty, (left_id_L ∅ (∪)).
  - intros k x p r Hk ->. by rewrite fmap_insert, insert_union_l.
Qed.

Lemma set_if_lookup key value v k :
  set_if key value v !! k
  = if decide (k = key) then if decide (value <> "") then Some [value] else v !! k else v !! k.
Proof.
  unfold set_if. repeat case_decide; subst; try done; [apply lookup_insert_eq|].
  by apply lookup_insert_ne.
Qed.

Definition reserved_free (props : Properties) : Prop := forall k, k ∈ reserved -> props !! k = None.

(** A key of the form, as the server reads it. *)
Lemma pick_form l subject props k d :
  l ≡ₚ map_to_list (urlValues subject props) ->
  pick l k d = match urlValues subject props !! k with Some (v :: _) => v | _ => d end.
Proof.
  intros Hl. unfold pick. rewrite (list_to_map_proper l _) with (2 := Hl).
  - by rewrite list_to_map_to_list.
  - rewrite Hl. apply NoDup_fst_map_to_list.
Qed.

Lemma urlValues_reserved subject props k :
  reserved_free props -> k ∈ reserved ->
  urlValues subject props !! k
  = let i := sub_Instance subject in
    let v := if decide (k = "instance") then inst_ID i else if decide (k = "user") then inst_User i
             else if decide (k = "host") then inst_Host i else sub_Resource subject in
    if decide (v <> "") then Some [v] else None.
Proof.
  intros Hfree Hk. unfold urlValues. rewrite map_fold_values.
  rewrite lookup_union_r by (rewrite lookup_fmap, Hfree; done).
  unfold reserved in Hk. rewrite !set_if_lookup, lookup_empty.
  repeat (apply elem_of_cons in Hk as [->|Hk]; [reflexivity|]). by apply not_elem_of_nil in Hk.
Qed.

Lemma urlValues_property subject props k :
  k ∉ reserved -> urlValues subject props !! k = (fun x => [x]) <$> props !! k.
Proof.
  intros Hk. unfold urlValues. rewrite map_fold_values. unfold reserved in Hk. rewrite !not_elem_of_cons in Hk.
  assert (Hnone : forall v, set_if "instance" (inst_ID (sub_Instance subject))
    (set_if "user" (inst_User (sub_Instance subject)) (set_if "host" (inst_Host (sub_Instance subject))
      (set_if "resource" (sub_Resource subject) v))) !! k = v !! k).
  { intros v. rewrite !set_if_lookup, !decide_False by tauto. done. }
  destruct (props !! k) as [x|] eqn:Hx; cbn.
  - apply lookup_union_Some_l. by rewrite lookup_fmap, Hx.
  - rewrite lookup_union_r by (by rewrite lookup_fmap, Hx). rewrite Hnone. apply lookup_empty.
Qed.

Lemma pick_reserved l subject props k :
  reserved_free props -> k ∈ reserved -> l ≡ₚ map_to_list (urlValues subject props) ->
  pick l k ""
  = let i := sub_Instance subject in
    if decide (k = "instance") then inst_ID i else if decide (k = "user") then inst_User i
    else if decide (k = "host") then inst_Host i else sub_Resource subject.
Proof.
  intros Hfree Hk Hl. rewrite (pick_form l subject props), urlValues_reserved by done. cbn zeta.
  set (v := if decide (k = "instance") then _ else _).
  destruct (decide (v <> "")) as [Hv|Hv]; [done|]. symmetry. by apply dec_stable.
Qed.

(** Requests arrive as they were made.  The form that a client posts,
    read in any order, is parsed by the server into the subject and the
    properties that the client was given, unless a property bears the name of a
    reserved field. *)
Lemma request_roundtrip subject props l :
  reserved_free props -> l ≡ₚ map_to_list (urlValues subject props) ->
  parseRequest (Ok l) = Ok (mkRequest subject props).
Proof.
  intros Hfree Hl. cbn. f_equal.
  assert (Hnd : NoDup l.*1) by (rewrite Hl; apply NoDup_fst_map_to_list).
  destruct (parse_entries_spec l zero_request Hnd) as [Hs Hp]. cbn zeta in *.
  destruct (foldl parse_entry zero_request l) as [s p]. cbn [req_Subject req_Properties] in *. f_equal.
  - rewrite Hs. unfold zero_request. cbn [req_Subject sub_Resource sub_Instance zero_subject zero_instance inst_Host inst_User inst_ID].
    rewrite !(pick_reserved l subject props) by (done || unfold reserved; set_solver).
    by destruct subject as [r [h u d]].
  - apply map_eq. intros k. rewrite Hp. unfold prop_of. case_decide as Hk.
    + by rewrite (Hfree k Hk).
    + assert (Hm : (list_to_map l : gmap string (list string)) = urlValues subject props).
      { rewrite (list_to_map_proper l _) with (2 := Hl); [by rewrite list_to_map_to_list|done]. }
      rewrite Hm, urlValues_property by done. by destruct (props !! k).
Qed.

(** ** Lemmas: selecting an endpoint *)

Section Selection.
Context {Env : Type} `{NE : Net Env}.

Definition healthy : reply HealthResponse := Got (mkHealthResponse true).

(** The endpoints, asked one after the other, of which none is healthy. *)
Inductive unhealthy : list Endpoint -> Env -> Env -> Prop :=
| unhealthy_nil env : unhealthy [] env env
| unhealthy_cons e l env h env1 env2 :
    Endpoint_Health e env = (h, env1) -> h <> healthy -> unhealthy l env1 env2 ->
    unhealthy (e :: l) env env2.

Lemma unhealthy_app l1 l2 env env1 env2 :
  unhealthy l1 env env1 -> unhealthy l2 env1 env2 -> unhealthy (l1 ++ l2) env env2.
Proof. induction 1; [done|]. intros. cbn. econstructor; eauto. Qed.

(** The first healthy endpoint of [s], and what was asked before. *)
Definition selected (s : list Endpoint) (env : Env) (ep : Endpoint) (env' : Env) : Prop :=
  exists pre post env1, s = pre ++ ep :: post /\ unhealthy pre env env1
    /\ Endpoint_Health ep env1 = (healthy, env').

Lemma select_round_spec s failed env :
  match select_round s failed env with
  | ((Some ep, _), env') => selected s env ep env'
  | ((None, _), env') => unhealthy s env env'
  end.
Proof.
  revert failed env. induction s as [|e s IH]; intros failed env; cbn [select_round]; [constructor|].
  destruct (Endpoint_Health e env) as [[[[|]]|err] env1] eqn:Hh; cbn.
  - exists [], s, env. split; [done|]. split; [constructor|done].
  - specialize (IH failed env1). destruct (select_round s failed env1) as [[[ep|] f] env2].
    + destruct IH as (pre & post & env3 & -> & Hu & Hep). exists (e :: pre), post, env3.
      split; [done|]. split; [|done]. by econstructor.
    + by econstructor.
  - specialize (IH (failed ++ [err]) env1). destruct (select_round s _ env1) as [[[ep|] f] env2].
    + destruct IH as (pre & post & env3 & -> & Hu & Hep). exists (e :: pre), post, env3.
      split; [done|]. split; [|done]. by econstructor.
    + by econstructor.
Qed.

Lemma select_rounds_spec n s failed env :
  match select_rounds n s failed env with
  | ((Some ep, _), env') => exists k env1, k < n /\ unhealthy (mjoin (replicate k s)) env env1
      /\ selected s env1 ep env'
  | ((None, _), env') => unhealthy (mjoin (replicate n s)) env env'
  end.
Proof.
  revert failed env. induction n as [|n IH]; intros failed env; cbn [select_rounds]; [constructor|].
  pose proof (select_round_spec s failed env) as Hr.
  destruct (select_round s failed env) as [[[ep|] f] env1].
  - exists 0, env. split; [lia|]. split; [constructor|done].
  - specialize (IH f env1). destruct (select_rounds n s f env1) as [[[ep|] f'] env2].
    + destruct IH as (k & env3 & Hk & Hu & Hs). exists (S k), env3. split; [lia|]. split; [|done].
      cbn. by eapply unhealthy_app.
    + cbn. by eapply unhealthy_app.
Qed.

Lemma Select_got s env ep env' :
  Select s env = (Got ep, env') ->
  ep ∈ s /\ exists env1, Endpoint_Health ep env1 = (healthy, env').
Proof.
  unfold Select. destruct (ctx_Err env); [done|]. pose proof (select_rounds_spec rounds s [] env) as H.
  destruct (select_rounds rounds s [] env) as [[[e|] f] env1]; [|done]. intros [= <- <-].
  destruct H as (k & env2 & _ & _ & pre & post & env3 & -> & _ & Hep). split; [set_solver|]. by exists env3.
Qed.

(** Selection.  [Select] asks the endpoints in order, through two rounds,
    and returns the first one that answers that it is healthy; it fails only
    when the context is done, before asking anybody, or when every endpoint has
    failed to say so twice. *)
Lemma select_first_healthy s env :
  let '(r, env') := Select s env in
  match r with
  | Got ep => ctx_Err env = None
      /\ exists k env1, k < 2 /\ unhealthy (mjoin (replicate k s)) env env1 /\ selected s env1 ep env'
  | Failed _ => (ctx_Err env <> None /\ env' = env) \/ unhealthy (s ++ s) env env'
  end.
Proof.
  unfold Select. destruct (ctx_Err env) as [e|]; [by left|].
  pose proof (select_rounds_spec rounds s [] env) as H.
  destruct (select_rounds rounds s [] env) as [[[ep|] f] env1]; [done|]. right.
  cbn in H. by rewrite app_nil_r in H.
Qed.

(** C39. Failover.  A failing failover leaves the client as it was.  A
    successful one selects a member of the client's endpoint set that has just
    answered that it is healthy; the set is only resolved anew when the call is
    essential or the last resolution is ten seconds old. *)
Theorem failover_selects_healthy essential c env :
  let '(r, c', _) := failover essential c env in
  match r with
  | Failed _ => c' = c
  | Got ep => c_endpoint c' = ep /\ ep ∈ c_endpoints c'
      /\ (exists env1 env2, Endpoint_Health ep env1 = (healthy, env2))
      /\ (c_endpoints c' = c_endpoints c /\ c_resolved c' = c_resolved c
          \/ essential = true \/ c_resolved c = zero_time
          \/ (10 * Second <= Time_Sub (time_Now env).1 (c_resolved c))%Z)
  end.
Proof.
  unfold failover. destruct (ctx_Err env); [done|].
  destruct (time_Now env) as [now env1]. cbn [fst].
  destruct (_ && bool_decide (_ < 2 * Second)%Z); [done|].
  destruct (Select (c_endpoints c) env1) as [[ep|e] env2] eqn:Hs.
  - apply Select_got in Hs as [Hin Hh]. cbn. split_and!; [done|done|naive_solver|by left].
  - destruct (_ && bool_decide (_ < 10 * Second)%Z) eqn:Hlim; [done|].
    destruct (resolver_Resolve env2) as [[eps|e'] env3]; [|done].
    destruct (Select eps env3) as [[ep|e'] env4] eqn:Hs'; [|done].
    destruct (time_Now env4) as [t env5]. apply Select_got in Hs' as [Hin Hh]. cbn.
    split_and!; [done|done|naive_solver|right].
    apply andb_false_iff in Hlim as [Hlim|Hlim%bool_decide_eq_false]; [|right; right; lia].
    apply andb_false_iff in Hlim as [Hlim%negb_false_iff|Hlim%negb_false_iff]; [by left|].
    right. left. by apply bool_decide_eq_true in Hlim.
Qed.

(** ** Lemmas: a network that does not change *)

(** No context is done, the endpoints in [up] are healthy and the others not,
    and the resolver knows a healthy one. *)
Record stable_net (up : Endpoint -> Prop) : Prop := {
  sn_ctx env : ctx_Err env = None;
  sn_health ep env : (Endpoint_Health ep env).1 = healthy <-> up ep;
  sn_resolver env : exists eps, (resolver_Resolve env).1 = Ok eps /\ Exists up eps;
}.

Lemma stable_Select up s env :
  stable_net up -> Exists up s -> exists ep env', Select s env = (Got ep, env') /\ up ep.
Proof.
  intros [Hctx Hup _] Hs. unfold Select. rewrite Hctx.
  pose proof (select_rounds_spec rounds s [] env) as H.
  destruct (select_rounds rounds s [] env) as [[[ep|] f] env1].
  - exists ep, env1. split; [done|]. destruct H as (k & env2 & _ & _ & pre & post & env3 & _ & _ & Hep).
    apply (Hup ep env3). by rewrite Hep.
  - exfalso. assert (Hall : forall l env env', unhealthy l env env' -> Forall (fun e => ~ up e) l).
    { induction 1 as [|e l env0 h env2 env3 Hh Hne _ IH]; constructor; [|done].
      intros Hu. apply Hne. apply (Hup e env0) in Hu. by rewrite Hh in Hu. }
    apply Hall in H. unfold rounds in H. cbn in H. apply Forall_app in H as [H _].
    apply Exists_exists in Hs as (e & Hin & Hu). rewrite Forall_forall in H. by apply (H e Hin).
Qed.

Lemma stable_failover up c env :
  stable_net up -> exists ep c' env', failover true c env = (Got ep, c', env') /\ up ep.
Proof.
  intros Hst. unfold failover. rewrite (sn_ctx _ Hst). destruct (time_Now env) as [now env1]. cbn [negb andb].
  destruct (Select (c_endpoints c) env1) as [[ep|e] env2] eqn:Hs.
  - do 3 eexists. split; [done|]. apply Select_got in Hs as [_ (env3 & Hh)].
    apply (sn_health _ Hst ep env3). by rewrite Hh.
  - destruct (sn_resolver _ Hst env2) as (eps & Heps & Hup).
    destruct (resolver_Resolve env2) as [r env3]. cbn in Heps. subst r.
    destruct (stable_Select up eps env3 Hst Hup) as (ep & env4 & -> & Hu).
    destruct (time_Now env4) as [t env5]. by do 3 eexists.
Qed.

(** Without a done context, no request fails with a context error. *)
Lemma endpoint_post_ctx {A} (decode : bytes -> result A) e path subject props env :
  (forall env, ctx_Err env = None) ->
  forall err, (endpoint_post decode e path subject props env).1 = Failed err -> isContextErr err = false.
Proof.
  intros Hctx err. unfold endpoint_post, decoded. rewrite Hctx. repeat case_match; cbn; intros [= <-]; done.
Qed.

Lemma Client_Release_stable up subject c env :
  stable_net up ->
  (forall ep env, up ep -> exists a, (Endpoint_Release ep subject env).1 = Got a) ->
  exists a c' env', Client_Release subject c env = (Got a, c', env').
Proof.
  intros Hst Hrel. unfold Client_Release, with_failover.
  destruct (Endpoint_Release (c_endpoint c) subject env) as [[a|err] env1] eqn:Hr; [by do 3 eexists|].
  rewrite (endpoint_post_ctx decode_Release (c_endpoint c) "release" subject ∅ env (sn_ctx _ Hst) err)
    by (unfold Endpoint_Release in Hr; by rewrite Hr).
  destruct (stable_failover up c env1 Hst) as (ep & c' & env2 & -> & Hu).
  destruct (Hrel ep env2 Hu) as [a Ha]. destruct (Endpoint_Release ep subject env2) as [r env3].
  cbn in Ha. subst r. by do 3 eexists.
Qed.

(** ** Rules for calls with failover *)

Section Rules.
(** What every operation of the environment keeps. *)
Context (I : Env -> Prop).
Context (I_resolver : forall env, I env -> I (resolver_Resolve env).2).
Context (I_now : forall env, I env -> I (time_Now env).2).
Context (I_health : forall ep env, I env -> I (Endpoint_Health ep env).2).

Lemma select_rounds_keeps n s failed env : I env -> I (select_rounds n s failed env).2.
Proof.
  assert (Hr : forall s failed env, I env -> I (select_round s failed env).2).
  { clear s failed env. induction s as [|ep s IH]; intros failed env HI; cbn [select_round]; [done|].
    pose proof (I_health ep env HI) as H. destruct (Endpoint_Health ep env) as [[h|e] env1]; cbn in H.
    - case_match; [by apply IH|done].
    - by apply IH. }
  revert failed env. induction n as [|n IH]; intros failed env HI; cbn [select_rounds]; [done|].
  pose proof (Hr s failed env HI) as H. destruct (select_round s failed env) as [[[ep|] f] env1]; cbn in H;
    [done|by apply IH].
Qed.

Lemma Select_keeps s env : I env -> I (Select s env).2.
Proof.
  intros HI. unfold Select. destruct (ctx_Err env); [done|].
  pose proof (select_rounds_keeps rounds s [] env HI) as H.
  by destruct (select_rounds rounds s [] env) as [[[ep|] f] env1].
Qed.

Lemma failover_keeps essential c env : I env -> I (failover essential c env).2.
Proof.
  intros HI. unfold failover. destruct (ctx_Err env); [done|].
  pose proof (I_now env HI) as H. destruct (time_Now env) as [now env1]. cbn in H.
  case_match; [done|]. apply (Select_keeps (c_endpoints c)) in H.
  destruct (Select (c_endpoints c) env1) as [[ep|e] env2]; cbn in H; [done|].
  case_match; [done|]. apply I_resolver in H.
  destruct (resolver_Resolve env2) as [[eps|e'] env3]; cbn in H; [|done].
  apply (Select_keeps eps) in H. destruct (Select eps env3) as [[ep|e'] env4]; cbn in H; [|done].
  apply I_now in H. by destruct (time_Now env4) as [t env5].
Qed.

(** A call with failover ends as one of its calls does. *)
Lemma with_failover_rule {A} (G : A -> Env -> Prop) (F : api_error -> Prop) essential
  (call : Endpoint -> Env -> reply A * Env) c env :
  (forall ep env, I env -> let '(r, env') := call ep env in
     I env' /\ match r with Got a => G a env' | Failed e => F e end) ->
  I env ->
  let '(r, _, env') := with_failover essential call c env in
  I env' /\ match r with Got a => G a env' | Failed e => F e end.
Proof.
  intros Hcall HI. unfold with_failover. pose proof (Hcall (c_endpoint c) env HI) as H.
  destruct (call (c_endpoint c) env) as [[a|err] env1]; [done|]. destruct H as [HI1 HF].
  destruct (isContextErr err); [done|]. pose proof (failover_keeps essential c env1 HI1) as H2.
  destruct (failover essential c env1) as [[[ep|e] c'] env2]; cbn in H2; [|done].
  pose proof (Hcall ep env2 H2) as H3. by destruct (call ep env2) as [r env3].
Qed.
End Rules.
End Selection.

(** ** Witnesses *)

Definition ann : Subject := mkSubject "res" (mkInstance "pc" "ann" "1").

Lemma request_roundtrip_witness :
  parseRequest (Ok (map_to_list (urlValues ann {[ "app" := "cad" ]}))) = Ok (mkRequest ann {[ "app" := "cad" ]}).
Proof.
  apply (request_roundtrip ann {[ "app" := "cad" ]}); [|reflexivity].
  intros k Hk. unfold reserved in Hk. apply lookup_singleton_None. intros <-.
  rewrite !elem_of_cons in Hk. destruct Hk as [H|[H|[H|[H|H]]]]; try discriminate H.
  by apply not_elem_of_nil in H.
Defined.

Definition ann_lease (status : Status) (renewed : Time) : Lease :=
  mkLease ann ∅ status renewed renewed zero_time Strategy_Instance 1 Minute 0%Z (mkRefresh 0%Z 0%Z).

(** One server, at [b]; nobody answers elsewhere. *)
#[export] Instance one_server : Net unit := {|
  ctx_Err _ := None;
  http_NewRequest _ := None;
  http_Do req env :=
    (if decide (hr_Addr req = "http://b/health" \/ hr_Addr req = "http://b/acquire" \/ hr_Addr req = "http://b/release")
     then Ok (mkHTTPResponse 200 "200 OK" []) else Err "refused", env);
  resolver_Resolve env := (Ok ["a"; "b"], env);
  time_Now env := (0%Z, env);
  decode_Health _ := Ok (mkHealthResponse true);
  decode_Policies _ := Err "unused";
  decode_Acquire _ := Ok (mkAcquireResponse (mkRequest ann ∅) (ann_lease Active 0%Z) [ann_lease Active 0%Z] "");
  decode_Release _ := Ok (mkReleaseResponse (mkRequest ann ∅) true "");
|}.

Definition at_b (ep : Endpoint) : Prop := ep <> "" /\ prefix ep = "http://b/".

Lemma append_suffix_inj a b s : a +:+ s = b +:+ s -> a = b.
Proof.
  intros H. apply (f_equal (fun x => TrimSuffix x s)) in H. by rewrite !(proj2 (HasSuffix_app _ _)) in H.
Qed.

Lemma one_server_stable : stable_net at_b.
Proof.
  split; [done| |].
  - intros ep []. unfold Endpoint_Health, endpoint_get, at_b. case_decide as He; [by split; [|intros []]|].
    cbn. split.
    + case_decide as Ha; [|done]. intros _. split; [done|]. destruct Ha as [Ha|Ha].
      * by apply (append_suffix_inj _ "http://b/" "health").
      * exfalso. destruct Ha as [Ha|Ha]; apply (f_equal (fun x => HasSuffix x "health")) in Ha;
          rewrite (proj1 (HasSuffix_app _ _)) in Ha; by vm_compute in Ha.
    + intros [_ ->]. reflexivity.
  - intros []. exists ["a"; "b"]. split; [done|]. right. left. split; [done|reflexivity].
Qed.

Lemma one_server_releases subject ep env :
  at_b ep -> exists a, (Endpoint_Release ep subject env).1 = Got a.
Proof.
  intros [He Hp]. unfold Endpoint_Release, endpoint_post. rewrite decide_False by done.
  cbn. rewrite Hp. eexists. reflexivity.
Qed.
