(* ===== verification/Wire.v ===== *)
(** * The server behind the network (guardian/server.go)

    What a request of the client meets: the routes that [Server.Run] registers,
    the replies that the handlers write, and a network that delivers requests
    to servers, refuses them or loses their responses.  The JSON codec is a
    class; handlers write its text through [fmt.Fprintf] ([GoFmt.v]).  The
    network makes the environment of the client ([Client.Net]) out of the world
    of the server ([Program.World]). *)

From stdpp Require Import pretty.
From S2P Require Import Prelude GoStrings GoFmt GoTime Lease LeaseSet Policy Program Provider Server Client.

(** ** Responses *)

Class JSON := {
  json_Health : HealthResponse -> result bytes;
  json_Policies : PoliciesResponse -> result bytes;
  json_Leases : LeasesResponse -> result bytes;
  json_Acquire : AcquireResponse -> result bytes;
  json_Release : ReleaseResponse -> result bytes;
  unjson_Health : bytes -> result HealthResponse;
  unjson_Policies : bytes -> result PoliciesResponse;
  unjson_Acquire : bytes -> result AcquireResponse;
  unjson_Release : bytes -> result ReleaseResponse;
}.

Definition StatusText (code : N) : string :=
  if decide (code = 200%N) then "OK" else if decide (code = 204%N) then "No Content"
  else if decide (code = 400%N) then "Bad Request"
  else if decide (code = 500%N) then "Internal Server Error" else "".

Definition http_response (code : N) (body : bytes) : HTTPResponse :=
  mkHTTPResponse code (pretty code +:+ " " +:+ StatusText code) body.

(** [http.Error]. *)
Definition http_Error (msg : string) (code : N) : HTTPResponse :=
  http_response code (str msg ++ [Ascii.ascii_of_nat 10]).

Definition write_json (code : N) (failure : string) (data : result bytes) : HTTPResponse :=
  match data with
  | Err _ => http_Error failure code
  | Ok data => http_response StatusOK (Fprintf data)
  end.

Section Wire.
Context `{SO : Sorter, GT : GoText, JS : JSON}.

(** The end of each handler; clients ask for JSON. *)
Definition respond (reply : Reply) : HTTPResponse :=
  match reply with
  | ErrorReply code msg => http_Error msg code
  | NoContentReply => http_response StatusNoContent []
  | HealthReply r => write_json StatusBadRequest "Unable to marshal health response" (json_Health r)
  | PoliciesReply r => write_json StatusInternalServerError "Unable to marshal policies" (json_Policies r)
  | LeasesReply r => write_json StatusBadRequest "Unable to marshal health response" (json_Leases r)
  | AcquireReply r => write_json StatusBadRequest "Failed to marshal response" (json_Acquire r)
  | ReleaseReply r => write_json StatusBadRequest "Failed to marshal response" (json_Release r)
  end.

(** The handlers of [mux] that end. *)
Definition route (path : string) (form : HTTPForm) : option (prog Reply) :=
  if decide (path = "health") then Some healthHandler
  else if decide (path = "policies") then Some policiesHandler
  else if decide (path = "leases") then Some (leasesHandler form)
  else if decide (path = "acquire") then Some (acquireHandler form)
  else if decide (path = "release") then Some (releaseHandler form)
  else None.

(** ** The network *)

(** An address up to and including its last slash, and the rest. *)
Fixpoint split_last_slash (s : string) : option (string * string) :=
  match s with
  | EmptyString => None
  | String c s =>
      match split_last_slash s with
      | Some (a, b) => Some (String c a, b)
      | None => if decide (c = Ascii.ascii_of_nat 47) then Some (String c EmptyString, s) else None
      end
  end.

(** What becomes of a request. *)
Inductive Delivery :=
| Delivered
| Refused (e : error)
| Lost (e : error).

(** The requests of others that are handled before one of ours. *)
Record Fate := mkFate {
  f_before : list (prog ());
  f_delivery : Delivery;
}.

Context {St : Type} `{LP : LeaseProvider St}.

Record Cluster := mkCluster {
  cl_world : World St;
  cl_hosts : list string;
  cl_plan : list Fate;
  cl_resolver : result EndpointSet;
  cl_ctx : nat -> option error;
  cl_clock : nat -> Time;
  cl_events : nat;
}.

Definition set_cl_world (w : World St) (env : Cluster) : Cluster :=
  mkCluster w (cl_hosts env) (cl_plan env) (cl_resolver env) (cl_ctx env) (cl_clock env) (cl_events env).
Definition cl_event (plan : list Fate) (env : Cluster) : Cluster :=
  mkCluster (cl_world env) (cl_hosts env) plan (cl_resolver env) (cl_ctx env) (cl_clock env) (S (cl_events env)).

Definition run_all (ps : list (prog ())) (w : World St) : World St := foldl (fun w p => (run p w).2) w ps.

(** The order in which the parsed form is ranged over, the answers of other
    handlers and the addresses that are not URLs. *)
Context (form_range : gmap string (list string) -> list (string * list string)).
Context (other : HTTPRequest -> HTTPResponse) (bad_url : string -> option error).

Definition request_form (req : HTTPRequest) : HTTPForm :=
  Ok (match hr_Form req with Some v => form_range v | None => [] end).

(** A handler that panics ends the connection without a response. *)
Definition serve (path : string) (req : HTTPRequest) (w : World St) : result HTTPResponse * World St :=
  match route path (request_form req) with
  | None => (Ok (other req), w)
  | Some p =>
      let '(a, w) := run p w in
      match a with
      | Answered reply => (Ok (respond reply), w)
      | Crashed _ => (Err "EOF", w)
      end
  end.

Definition cluster_Do (req : HTTPRequest) (env : Cluster) : result HTTPResponse * Cluster :=
  let fate := match cl_plan env with f :: _ => f | [] => mkFate [] Delivered end in
  let env := cl_event (tail (cl_plan env)) env in
  let w := run_all (f_before fate) (cl_world env) in
  match f_delivery fate with
  | Refused e => (Err e, set_cl_world w env)
  | d =>
      match split_last_slash (hr_Addr req) with
      | None => (Err "no such host", set_cl_world w env)
      | Some (host, path) =>
          if decide (host ∈ cl_hosts env) then
            let '(resp, w) := serve path req w in
            (match d with Lost e => Err e | _ => resp end, set_cl_world w env)
          else (Err "no such host", set_cl_world w env)
      end
  end.

Definition cluster_net : Net Cluster := {|
  ctx_Err env := cl_ctx env (cl_events env);
  http_NewRequest := bad_url;
  http_Do := cluster_Do;
  resolver_Resolve env := (cl_resolver env, env);
  time_Now env := (cl_clock env (cl_events env), cl_event (cl_plan env) env);
  decode_Health := unjson_Health;
  decode_Policies := unjson_Policies;
  decode_Acquire := unjson_Acquire;
  decode_Release := unjson_Release;
|}.
End Wire.
Arguments Cluster : clear implicits.

(** ** Lemmas: addresses *)

Lemma split_no_slash s : Contains s "/" = false -> split_last_slash s = None.
Proof.
  induction s as [|c s IH]; [done|]. cbn [Contains HasPrefix split_last_slash].
  intros [Hc Hs]%orb_false_iff. rewrite (IH Hs), decide_False; [done|]. intros ->. by destruct s.
Qed.

Lemma split_app a b :
  Contains b "/" = false -> HasSuffix a "/" = true -> split_last_slash (a +:+ b) = Some (a, b).
Proof.
  intros Hb. induction a as [|c a IH]; [done|]. intros Ha. rewrite String_app. cbn [split_last_slash].
  destruct a as [|d a].
  - change ("" +:+ b) with b. rewrite (split_no_slash b Hb).
    destruct (decide (c = Ascii.ascii_of_nat 47)) as [->|Hc]; [done|]. exfalso.
    unfold HasSuffix in Ha. cbn in Ha. apply bool_decide_eq_true in Ha. by injection Ha.
  - rewrite IH; [done|]. unfold HasSuffix in *. cbn [String.length] in *.
    rewrite andb_true_iff, !bool_decide_eq_true in Ha. rewrite andb_true_iff, !bool_decide_eq_true.
    destruct Ha as [_ Ha]. split; [lia|]. revert Ha. cbn [String.length]. rewrite !Nat.sub_succ, !Nat.sub_0_r. done.
Qed.

Lemma prefix_slash e : HasSuffix (prefix e) "/" = true.
Proof.
  unfold prefix. destruct (HasSuffix (if negb (Contains e "://") then "http://" +:+ e else e) "/") eqn:H;
    cbn [negb]; [done|]. apply HasSuffix_app.
Qed.

Lemma split_address e path : Contains path "/" = false -> split_last_slash (prefix e +:+ path) = Some (prefix e, path).
Proof. intros Hp. apply split_app; [done|apply prefix_slash]. Qed.

(** ** Lemmas: requests *)

Section Serve.
Context `{SO : Sorter, GT : GoText, JS : JSON} {St : Type} `{LP : LeaseProvider St}.
Context (form_range : gmap string (list string) -> list (string * list string)).
Context (other : HTTPRequest -> HTTPResponse).

Lemma serve_health req (w : World St) :
  serve form_range other "health" req w = (Ok (respond (HealthReply (mkHealthResponse true))), w).
Proof. reflexivity. Qed.

Lemma serve_acquire req (w : World St) :
  serve form_range other "acquire" req w
  = match run (acquireHandler (request_form form_range req)) w with
    | (Answered reply, w) => (Ok (respond reply), w)
    | (Crashed _, w) => (Err "EOF", w)
    end.
Proof.
  change (serve form_range other "acquire" req w) with
    (let '(a, w) := run (acquireHandler (request_form form_range req)) w in
     match a with Answered reply => (Ok (respond reply), w) | Crashed _ => (Err "EOF" : result HTTPResponse, w) end).
  by destruct (run _ w) as [[reply|msg] w'].
Qed.

Lemma write_json_ok code failure data b :
  data = Ok b -> ~ (percent ∈ b) -> write_json code failure data = http_response StatusOK b.
Proof. intros -> Hb. cbn. by rewrite Fprintf_plain. Qed.
End Serve.
