(* ===== verification/Maintainer.v ===== *)
(** * The lease maintainer (guardian/maintainer.go)

    Once started, a goroutine acquires the lease again and again, waiting for
    [interval] in between, until it is told to stop, and releases the lease if
    it is told to.  [opMutex] admits one of [Acquire], [Release], [Stop] and
    [Close] at a time; the goroutine's acquisitions may still happen while one
    of the latter waits for it.  [stateMutex] is held by the goroutine from an
    acquisition until every listener has been sent its result, and by the
    goroutine of [Listen] until the new listener has been sent the state.

    A listener is a channel with the buffer its caller asked for: a send waits
    for room in it, or for a receiver.  What is done by the calls
    ([call_step]), by the maintainer's own goroutines ([lm_step]) and by the
    receivers ([receiver_step]) is told apart.  The client's calls are those of
    Client.v, in the environment [Env]. *)

From S2P Require Import Prelude GoStrings GoTime Lease LeaseSet Policy Program Server Client.

(** ** The data *)

(** A channel of states, with what has been received from it. *)
Record Listener := mkListener {
  listener_cap : nat;
  listener_buffer : list State;
  listener_taken : list State;
  listener_closed : bool;
}.

(** Not started, running, or told to stop and release or not. *)
Inductive Phase := Stopped | Running | Stopping (release : bool).

#[export] Instance Phase_eq_dec : EqDecision Phase.
Proof. solve_decision. Defined.

(** Where the goroutine of [run] is: in its select, before [stateMutex] in
    [acquire], sending to the listener [k] with [stateMutex] held, before
    [stateMutex] in [release], or at its end. *)
Inductive Goroutine := Idle | Locking | Broadcasting (k : nat) | Releasing | Gone.

#[export] Instance Goroutine_eq_dec : EqDecision Goroutine.
Proof. solve_decision. Defined.

(** The goroutine of [Listen], which holds [stateMutex]: its listener, and the
    state once it has been read. *)
Record Greeter := mkGreeter {
  greeter_listener : nat;
  greeter_state : option State;
}.

Record LeaseMaintainer := mkMaintainer {
  lm_client : Client;
  lm_instance : LeaseInstance;
  lm_retry : Duration;
  lm_phase : Phase;
  lm_run : Goroutine;
  lm_state : State;
  lm_props : Properties;
  lm_listeners : list Listener;
  lm_greeter : option Greeter;
  lm_wait : Duration;
}.

Definition NewLeaseMaintainer (client : Client) (instance : LeaseInstance) (props : Properties)
  (retry : Duration) : LeaseMaintainer :=
  mkMaintainer client instance retry Stopped Gone zero_state props [] None 0%Z.

Definition with_phase (ph : Phase) (lm : LeaseMaintainer) : LeaseMaintainer :=
  mkMaintainer (lm_client lm) (lm_instance lm) (lm_retry lm) ph (lm_run lm) (lm_state lm) (lm_props lm)
    (lm_listeners lm) (lm_greeter lm) (lm_wait lm).
Definition with_run (g : Goroutine) (lm : LeaseMaintainer) : LeaseMaintainer :=
  mkMaintainer (lm_client lm) (lm_instance lm) (lm_retry lm) (lm_phase lm) g (lm_state lm) (lm_props lm)
    (lm_listeners lm) (lm_greeter lm) (lm_wait lm).
Definition with_state (c : Client) (s : State) (lm : LeaseMaintainer) : LeaseMaintainer :=
  mkMaintainer c (lm_instance lm) (lm_retry lm) (lm_phase lm) (lm_run lm) s (lm_props lm)
    (lm_listeners lm) (lm_greeter lm) (lm_wait lm).
Definition with_listeners (l : list Listener) (lm : LeaseMaintainer) : LeaseMaintainer :=
  mkMaintainer (lm_client lm) (lm_instance lm) (lm_retry lm) (lm_phase lm) (lm_run lm) (lm_state lm) (lm_props lm)
    l (lm_greeter lm) (lm_wait lm).
Definition with_greeter (g : option Greeter) (lm : LeaseMaintainer) : LeaseMaintainer :=
  mkMaintainer (lm_client lm) (lm_instance lm) (lm_retry lm) (lm_phase lm) (lm_run lm) (lm_state lm) (lm_props lm)
    (lm_listeners lm) g (lm_wait lm).
Definition with_wait (d : Duration) (lm : LeaseMaintainer) : LeaseMaintainer :=
  mkMaintainer (lm_client lm) (lm_instance lm) (lm_retry lm) (lm_phase lm) (lm_run lm) (lm_state lm) (lm_props lm)
    (lm_listeners lm) (lm_greeter lm) d.

Definition set_online (online : bool) (s : State) : State :=
  mkState online (state_LeaseNotRequired s) (state_Acquired s) (state_Lease s) (state_Leases s)
    (state_Retry s) (state_Err s).

Definition ErrStarted : error := "the lease maintainer has already been started".
Definition ErrClosed : error := "already closed".

(** ** Channels *)

(** Whether [listener <- state] goes on: there is room, or it panics. *)
Definition send_ready (l : Listener) : bool :=
  listener_closed l || bool_decide (length (listener_buffer l) < listener_cap l).

Definition send (s : State) (l : Listener) : outcome Listener :=
  if listener_closed l then Panic "send on closed channel"
  else Ret (mkListener (listener_cap l) (listener_buffer l ++ [s]) (listener_taken l) false).

(** Receiving: the first state of the buffer, or that of a sender which waits. *)
Definition receive (sender : option State) (l : Listener) : option (Listener * bool) :=
  match listener_buffer l, sender with
  | s :: rest, _ => Some (mkListener (listener_cap l) rest (listener_taken l ++ [s]) (listener_closed l), false)
  | [], Some s =>
      if listener_closed l then None
      else Some (mkListener (listener_cap l) [] (listener_taken l ++ [s]) false, true)
  | [], None => None
  end.

Definition close (l : Listener) : outcome Listener :=
  if listener_closed l then Panic "close of closed channel"
  else Ret (mkListener (listener_cap l) (listener_buffer l) (listener_taken l) true).

Fixpoint close_all (ls : list Listener) : outcome (list Listener) :=
  match ls with
  | [] => Ret []
  | l :: ls => l ← close l; ls ← close_all ls; Ret (l :: ls)
  end.

(** ** The interval *)

Definition transportTime : Duration := (Millisecond * 800)%Z.

(** [now] is the clock's reading, where the source takes one.  The deferred
    function raises every result to the minimum. *)
Definition interval (retry : Duration) (state : State) (now : Time) : Duration :=
  let interval :=
    if negb (state_Acquired state) then retry
    else
      let interval := Lease_EffectiveRefresh (state_Lease state) in
      let interval := if negb (state_Online state) && bool_decide (retry < interval)%Z then retry
                      else interval in
      let interval :=
        if decide (ls_Status (state_Lease state) = Active) then
          let exp := Lease_ExpirationTime (state_Lease state) in
          if Time_After exp now then
            let remaining := Time_Sub exp now in
            let remaining := if decide (transportTime < remaining)%Z
                             then Duration_sub remaining transportTime else 0%Z in
            if decide (remaining < interval)%Z then remaining else interval
          else 0%Z
        else if decide (ls_Status (state_Lease state) = Queued) then
          let decay := Set_DecayDuration (state_Leases state) now in
          if decide (0 < decay /\ decay < interval)%Z then decay else interval
        else interval in
      if decide (interval < MinimumRefresh)%Z then MinimumRefresh else interval in
  if decide (interval < MinimumRefresh)%Z then MinimumRefresh else interval.

Section Maintainer.
Context {Env : Type} `{NE : Net Env}.

(** ** The goroutine *)

(** The state after the client's answer. *)
Definition acquired_state (state : State) (response : reply AcquireResponse) : State :=
  match response with
  | Got response =>
      mkState true false true (ar_Lease response) (ar_Leases response) (state_Retry state) None
  | Failed ErrLeaseNotRequired => mkState true true false zero_lease [] (state_Retry state) None
  | Failed err =>
      mkState false false (state_Acquired state) (state_Lease state) (state_Leases state)
        (state_Retry state) (Some (error_text err))
  end.

Definition lm_subject (lm : LeaseMaintainer) : Subject :=
  if state_Acquired (lm_state lm) then ls_Subject (state_Lease (lm_state lm))
  else mkSubject "" (lm_instance lm).

(** [acquire] with [stateMutex] held, up to its sends. *)
Definition lm_acquire (lm : LeaseMaintainer) (env : Env) : LeaseMaintainer * Env :=
  let '(response, client, env) := Client_Acquire (lm_subject lm) (lm_props lm) (lm_client lm) env in
  let state := acquired_state (lm_state lm) response in
  (with_run (Broadcasting 0) (with_state client state lm), env).

(** The end of [acquire], and the timer. *)
Definition run_acquired (lm : LeaseMaintainer) (now : Time) : LeaseMaintainer :=
  with_run Idle (with_wait (interval (lm_retry lm) (lm_state lm) now) lm).

Definition released_state (state : State) (err : option api_error) : State :=
  match err with
  | None => mkState false (state_LeaseNotRequired state) false (state_Lease state) (state_Leases state)
              (state_Retry state) None
  | Some err => mkState (state_Online state) (state_LeaseNotRequired state) (state_Acquired state)
              (state_Lease state) (state_Leases state) (state_Retry state) (Some (error_text err))
  end.

Definition lm_release (lm : LeaseMaintainer) (env : Env) : LeaseMaintainer * Env :=
  if state_Acquired (lm_state lm) then
    let '(response, client, env) :=
      Client_Release (ls_Subject (state_Lease (lm_state lm))) (lm_client lm) env in
    let err := match response with Got _ => None | Failed err => Some err end in
    (with_state client (released_state (lm_state lm) err) lm, env)
  else (with_state (lm_client lm) (released_state (lm_state lm) None) lm, env).

(** [run] receives from [shutdown]. *)
Definition run_shutdown (release : bool) (lm : LeaseMaintainer) : LeaseMaintainer :=
  with_run (if release then Releasing else Gone) lm.

(** Its end, once the lease has been released. *)
Definition run_release (lm : LeaseMaintainer) (env : Env) : LeaseMaintainer :=
  with_run Gone (lm_release lm env).1.

(** ** The calls *)

Definition lm_Acquire (lm : LeaseMaintainer) : option error * LeaseMaintainer :=
  if decide (lm_phase lm <> Stopped) then (Some ErrStarted, lm)
  else (None, with_wait 0%Z (with_run Idle (with_phase Running lm))).

(** [stop] up to the point where it waits for the goroutine. *)
Definition lm_stop (release : bool) (lm : LeaseMaintainer) : option error * LeaseMaintainer :=
  if decide (lm_phase lm = Stopped) then (Some ErrClosed, lm)
  else (None, with_phase (Stopping release) lm).

(** The rest of [stop], after the goroutine has ended. *)
Definition lm_stopped (lm : LeaseMaintainer) : LeaseMaintainer :=
  with_phase Stopped (with_state (lm_client lm) (set_online false (lm_state lm)) lm).

Definition lm_Release := lm_stop true.
Definition lm_Stop := lm_stop false.

(** [Close], after its [stop]. *)
Definition lm_Close (lm : LeaseMaintainer) : outcome LeaseMaintainer :=
  _ ← close_all (lm_listeners lm);
  Ret (with_listeners [] lm).

Definition lm_Update (props : Properties) (lm : LeaseMaintainer) : LeaseMaintainer :=
  mkMaintainer (lm_client lm) (lm_instance lm) (lm_retry lm) (lm_phase lm) (lm_run lm) (lm_state lm) props
    (lm_listeners lm) (lm_greeter lm) (lm_wait lm).

(** The listener that is returned, and the maintainer; a state that is not zero
    is sent by a goroutine which holds [stateMutex]. *)
Definition lm_Listen (bufferSize : nat) (lm : LeaseMaintainer) : outcome (Listener * LeaseMaintainer) :=
  let listener := mkListener bufferSize [] [] false in
  if decide (lm_phase lm = Stopped) then
    listener ← close listener; Ret (listener, lm)
  else
    let k := length (lm_listeners lm) in
    let lm := with_listeners (lm_listeners lm ++ [listener]) lm in
    if State_IsZero (lm_state lm) then Ret (listener, lm)
    else Ret (listener, with_greeter (Some (mkGreeter k None)) lm).

(** ** Interleavings *)

(** Whether nobody holds [stateMutex]. *)
Definition state_free (lm : LeaseMaintainer) : bool :=
  match lm_run lm, lm_greeter lm with
  | Broadcasting _, _ => false
  | _, Some _ => false
  | _, None => true
  end.

(** The state that the holder of [stateMutex] is sending to the listener [k],
    and what it does once that has been sent. *)
Definition sending (k : nat) (lm : LeaseMaintainer) : option State :=
  match lm_run lm, lm_greeter lm with
  | Broadcasting j, _ => if decide (j = k) then Some (lm_state lm) else None
  | _, Some (mkGreeter j s) => if decide (j = k) then s else None
  | _, None => None
  end.

Definition after_send (lm : LeaseMaintainer) : LeaseMaintainer :=
  match lm_run lm with
  | Broadcasting j => with_run (Broadcasting (S j)) lm
  | _ => with_greeter None lm
  end.

Definition set_listener (k : nat) (l : Listener) (lm : LeaseMaintainer) : LeaseMaintainer :=
  with_listeners (<[k := l]> (lm_listeners lm)) lm.

(** A call waits while another one is stopping the goroutine, and for
    [stateMutex] where it needs that. *)
Inductive call_step : LeaseMaintainer -> outcome LeaseMaintainer -> Prop :=
| step_Acquire lm : lm_phase lm = Stopped -> call_step lm (Ret (lm_Acquire lm).2)
| step_Stop lm release : lm_phase lm = Running -> call_step lm (Ret (lm_stop release lm).2)
| step_Close lm : lm_phase lm = Stopped -> state_free lm = true -> call_step lm (lm_Close lm)
| step_Listen lm bufferSize : (forall r, lm_phase lm <> Stopping r) -> state_free lm = true ->
    call_step lm ('(_, lm) ← lm_Listen bufferSize lm; Ret lm)
| step_Update lm props : state_free lm = true -> call_step lm (Ret (lm_Update props lm)).

Inductive lm_step : LeaseMaintainer -> outcome LeaseMaintainer -> Prop :=
| step_tick lm : lm_run lm = Idle -> lm_step lm (Ret (with_run Locking lm))
| step_acquire lm env : lm_run lm = Locking -> state_free lm = true -> lm_step lm (Ret (lm_acquire lm env).1)
| step_send lm k s l : sending k lm = Some s -> lm_listeners lm !! k = Some l -> send_ready l = true ->
    lm_step lm (l ← send s l; Ret (set_listener k l (after_send lm)))
| step_acquired lm now : lm_run lm = Broadcasting (length (lm_listeners lm)) -> lm_step lm (Ret (run_acquired lm now))
| step_shutdown lm release : lm_run lm = Idle -> lm_phase lm = Stopping release ->
    lm_step lm (Ret (run_shutdown release lm))
| step_release lm env : lm_run lm = Releasing -> state_free lm = true -> lm_step lm (Ret (run_release lm env))
| step_stopped lm release : lm_run lm = Gone -> lm_phase lm = Stopping release -> lm_step lm (Ret (lm_stopped lm))
| step_greet lm k : lm_greeter lm = Some (mkGreeter k None) ->
    lm_step lm (Ret (with_greeter (Some (mkGreeter k (Some (lm_state lm)))) lm)).

Inductive receiver_step : LeaseMaintainer -> outcome LeaseMaintainer -> Prop :=
| step_receive lm k l l' handed : lm_listeners lm !! k = Some l -> receive (sending k lm) l = Some (l', handed) ->
    receiver_step lm (Ret (set_listener k l' (if handed then after_send lm else lm))).

Definition maint_step (lm : LeaseMaintainer) (o : outcome LeaseMaintainer) : Prop :=
  call_step lm o \/ lm_step lm o \/ receiver_step lm o.

Inductive maint_reachable (lm0 : LeaseMaintainer) : outcome LeaseMaintainer -> Prop :=
| reach_init : maint_reachable lm0 (Ret lm0)
| reach_step lm o : maint_reachable lm0 (Ret lm) -> maint_step lm o -> maint_reachable lm0 o.

(** What can happen until a call that stops the goroutine returns; what happens
    without any other call; and what happens without receivers. *)
Definition until_stopped (lm lm' : LeaseMaintainer) : Prop := lm_phase lm <> Stopped /\ maint_step lm (Ret lm').
Definition goes_on (lm lm' : LeaseMaintainer) : Prop := lm_step lm (Ret lm') \/ receiver_step lm (Ret lm').
Definition unheard (lm lm' : LeaseMaintainer) : Prop := call_step lm (Ret lm') \/ lm_step lm (Ret lm').
End Maintainer.
