(* ===== verification/MaintainerProps.v ===== *)
(** * What the lease maintainer guarantees *)

From S2P Require Import Prelude GoStrings GoTime Lease LeaseSet Policy Program Server Client ClientProps Maintainer.

(** ** Lemmas: listeners *)

Definition open (l : Listener) : Prop := listener_closed l = false.

Lemma close_all_open ls : Forall open ls -> exists ls', close_all ls = Ret ls'.
Proof.
  induction 1 as [|l ls Hl _ (ls' & IH)]; cbn; [eauto|]. unfold close. rewrite Hl. cbn. rewrite IH. eauto.
Qed.

(** ** The interval *)

Lemma raise_minimum (d : Duration) :
  (if decide (d < MinimumRefresh)%Z then MinimumRefresh else d) = Z.max MinimumRefresh d.
Proof. case_decide; lia. Qed.

Lemma remaining_bound exp now :
  (now < exp)%Z ->
  let remaining := Time_Sub exp now in
  let r := if decide (transportTime < remaining)%Z then Duration_sub remaining transportTime else 0%Z in
  (0 <= r)%Z /\ (r = 0 \/ now + r + transportTime <= exp)%Z.
Proof.
  intros Hlt. cbn zeta. pose proof (Time_Sub_in exp now) as Hin. pose proof (Time_Sub_le exp now ltac:(lia)).
  case_decide as Ht; [|split; [lia|by left]]. unfold Duration_sub.
  rewrite wrap64_id; [split; [lia|right; lia]|].
  unfold in_int64, int64_min, int64_max, transportTime, Millisecond in *. lia.
Qed.

Lemma decay_bound s now :
  (now < Set_DecayTime s)%Z ->
  (0 < Set_DecayDuration s now /\ now + Set_DecayDuration s now <= Set_DecayTime s)%Z.
Proof.
  intros Hlt. unfold Set_DecayDuration. rewrite (proj2 (Time_After_true _ _) Hlt).
  pose proof (Time_Sub_pos _ _ Hlt). pose proof (Time_Sub_le (Set_DecayTime s) now ltac:(lia)). lia.
Qed.

(** C14. Renewal in time.  The maintainer waits for at least the minimum
    refresh interval, and for no longer than the lease's own interval, or than
    the retry interval when it holds no lease or is offline.  An active lease
    that is good for the minimum and the transport time is renewed, transport
    included, before it expires; a queued one is renewed when the next lease of
    its resource decays. *)
Theorem maintainer_renews_in_time retry state now :
  let d := interval retry state now in
  (MinimumRefresh <= d)%Z
  /\ (state_Acquired state = false -> d = Z.max MinimumRefresh retry)
  /\ (state_Acquired state = true ->
      let l := state_Lease state in
      (d <= Z.max MinimumRefresh (Lease_EffectiveRefresh l))%Z
      /\ (state_Online state = false -> d <= Z.max MinimumRefresh retry)%Z
      /\ (ls_Status l = Active -> (now + MinimumRefresh + transportTime <= Lease_ExpirationTime l)%Z ->
          (now + d + transportTime <= Lease_ExpirationTime l)%Z)
      /\ (ls_Status l = Queued -> (now < Set_DecayTime (state_Leases state))%Z ->
          (now + d <= Z.max (now + MinimumRefresh) (Set_DecayTime (state_Leases state)))%Z)).
Proof.
  assert (HM : (0 < MinimumRefresh)%Z) by done.
  cbn zeta. unfold interval. rewrite !raise_minimum.
  destruct (state_Acquired state) eqn:Ha; cbn [negb]; [|split_and!; [lia|done|done]].
  rewrite Z.max_assoc, Z.max_id. split; [lia|]. split; [done|]. intros _.
  set (eff := Lease_EffectiveRefresh (state_Lease state)).
  set (base := if negb (state_Online state) && bool_decide (retry < eff)%Z then retry else eff).
  assert (Hbase : (base <= eff)%Z /\ (state_Online state = false -> base <= retry)%Z).
  { unfold base. destruct (state_Online state); cbn; [split; [lia|done]|]. case_bool_decide; split; lia. }
  destruct Hbase as [Hb1 Hb2]. clearbody base.
  destruct (decide (ls_Status (state_Lease state) = Active)) as [Hact|Hact].
  - assert (Hq : ls_Status (state_Lease state) <> Queued) by (rewrite Hact; done).
    destruct (Time_After (Lease_ExpirationTime (state_Lease state)) now) eqn:Hexp.
    + apply Time_After_true in Hexp. pose proof (remaining_bound _ _ Hexp) as [Hr0 Hr]. cbn zeta in Hr0, Hr.
      set (r := if decide (transportTime < _)%Z then _ else _) in *. clearbody r.
      case_decide as Hlt; split_and!; try (intros; tauto || lia).
      all: intros; destruct Hr; lia || (specialize (Hb2 H); lia) || idtac.
    + apply Time_After_false in Hexp. unfold transportTime, Millisecond, MinimumRefresh, Second in *.
      split_and!; intros; lia || tauto || idtac.
  - destruct (decide (ls_Status (state_Lease state) = Queued)) as [Hqu|Hqu].
    + pose proof (decay_bound (state_Leases state) now) as Hd.
      set (decay := Set_DecayDuration (state_Leases state) now) in *. clearbody decay.
      split_and!; [case_decide; lia|intros Hoff%Hb2; case_decide; lia|tauto|].
      intros _ [Hd0 Hd1]%Hd. case_decide; lia.
    + split_and!; [lia|intros Hoff%Hb2; lia|tauto|tauto].
Qed.

(** A retry interval of zero does not turn retrying off: it means every second. *)
Lemma maintainer_zero_retry state now :
  state_Acquired state = false -> interval 0%Z state now = MinimumRefresh.
Proof. intros Ha. unfold interval. rewrite Ha. reflexivity. Qed.

(** ** The invariant *)

Section Maintainer.
Context {Env : Type} `{NE : Net Env}.

Record state_consistent (s : State) : Prop := {
  sc_online : state_Online s = true -> state_Err s = None
                /\ state_Acquired s = negb (state_LeaseNotRequired s);
  sc_required : state_LeaseNotRequired s = true -> state_Acquired s = false;
}.

(** [mi_phase]: the goroutine has ended when the maintainer is stopped, and goes
    on until it is told to stop; it releases only when it is told so.
    [mi_mutex]: the goroutine of [Listen] sends to a listener, alone.  A failed
    release leaves its error in a state that is online until [stop] returns
    ([failed_release_online]); [mi_ended] is about that moment. *)
Record maintainer_inv (lm : LeaseMaintainer) : Prop := {
  mi_state : lm_run lm <> Gone \/ lm_phase lm = Stopped -> state_consistent (lm_state lm);
  mi_ended : state_consistent (set_online false (lm_state lm));
  mi_stopped : lm_phase lm = Stopped -> state_Online (lm_state lm) = false;
  mi_listeners : Forall open (lm_listeners lm);
  mi_phase : match lm_phase lm with
             | Stopped => lm_run lm = Gone
             | Running => lm_run lm <> Gone /\ lm_run lm <> Releasing
             | Stopping r => r = false -> lm_run lm <> Releasing
             end;
  mi_mutex : forall g, lm_greeter lm = Some g ->
    greeter_listener g < length (lm_listeners lm) /\ forall k, lm_run lm <> Broadcasting k;
  mi_range : forall k, lm_run lm = Broadcasting k -> k <= length (lm_listeners lm);
}.

Lemma acquired_consistent s r : state_consistent (acquired_state s r).
Proof. destruct r as [a|[]]; split; cbn; done. Qed.

Lemma state_free_greeter lm : state_free lm = true -> lm_greeter lm = None.
Proof. unfold state_free. by destruct (lm_run lm), (lm_greeter lm). Qed.

Lemma state_free_run lm k : state_free lm = true -> lm_run lm <> Broadcasting k.
Proof. unfold state_free. intros H Hk. by rewrite Hk in H. Qed.

(** Sending is the part of one who holds the mutex. *)
Lemma sending_inv k s lm :
  sending k lm = Some s ->
  (lm_run lm = Broadcasting k /\ s = lm_state lm /\ after_send lm = with_run (Broadcasting (S k)) lm)
  \/ (lm_greeter lm = Some (mkGreeter k (Some s)) /\ (forall j, lm_run lm <> Broadcasting j)
       /\ after_send lm = with_greeter None lm).
Proof.
  unfold sending, after_send. intros H.
  destruct (lm_run lm) as [| |j| |]; [..|by case_decide; naive_solver| |];
    destruct (lm_greeter lm) as [[j s']|]; try done; case_decide as Hj; try done;
    subst; right; split_and!; try done; intros ? [=].
Qed.

Lemma set_listener_inv k l lm :
  open l -> maintainer_inv lm -> maintainer_inv (set_listener k l lm).
Proof.
  intros Ho [H1 H0 H2 H3 H4 H5 H6]. split; try done.
  - cbn. by apply Forall_insert.
  - cbn. rewrite length_insert. done.
  - cbn. rewrite length_insert. done.
Qed.

Lemma after_send_inv k s l lm :
  sending k lm = Some s -> lm_listeners lm !! k = Some l -> maintainer_inv lm -> maintainer_inv (after_send lm).
Proof.
  intros [(Hr & _ & ->)|(Hg & Hr & ->)]%sending_inv Hl%lookup_lt_Some [H1 H0 H2 H3 H4 H5 H6]; split; cbn; try done.
  - intros _. apply H1. left. by rewrite Hr.
  - rewrite Hr in H4. destruct (lm_phase lm); [done|by split|done].
  - intros g Hg. destruct (H5 g Hg) as [_ H]. by destruct (H k).
  - intros j [= <-]. lia.
Qed.

Lemma call_step_inv lm o :
  call_step lm o -> maintainer_inv lm -> exists lm', o = Ret lm' /\ maintainer_inv lm'.
Proof.
  intros Hstep [Hs He Hst Ho Hp Hm Hk].
  destruct Hstep as [lm Hph|lm release Hph|lm Hph Hf|lm n Hph Hf|lm props Hf].
  - eexists. split; [done|]. unfold lm_Acquire. rewrite Hph. cbn. split; cbn; try done; [by intros _; apply Hs; right|].
    intros g Hg. split; [by apply Hm|done].
  - eexists. split; [done|]. unfold lm_stop. rewrite Hph. cbn. rewrite Hph in Hp. split; cbn; try done.
    + intros [Hg|Hg]; [by apply Hs; left|done].
    + intros _. apply Hp.
  - unfold lm_Close. destruct (close_all_open _ Ho) as [ls ->]. cbn. eexists. split; [done|].
    split; cbn; try done; [by rewrite (state_free_greeter lm Hf)|].
    by intros k ?%(state_free_run lm k Hf).
  - unfold lm_Listen. destruct (decide (lm_phase lm = Stopped)) as [Hsd|Hsd]; cbn; [by exists lm|].
    assert (Hlen : forall l : Listener, length (lm_listeners lm) < length (lm_listeners lm ++ [l]))
      by (intros l; rewrite length_app; cbn; lia).
    pose proof (fun k => state_free_run lm k Hf) as Hr.
    destruct (State_IsZero (lm_state lm)); cbn; (eexists; split; [done|]); split; cbn; try done;
      try (apply Forall_app; split; [done|]; by apply Forall_singleton); try (intros k Hb; by destruct (Hr k)).
    + rewrite (state_free_greeter lm Hf). done.
    + intros g [= <-]. cbn. split; [apply Hlen|done].
  - eexists. split; [done|]. by split.
Qed.

Lemma lm_acquire_spec lm env :
  let '(r, c, env') := Client_Acquire (lm_subject lm) (lm_props lm) (lm_client lm) env in
  lm_acquire lm env = (with_run (Broadcasting 0) (with_state c (acquired_state (lm_state lm) r) lm), env').
Proof. unfold lm_acquire. by destruct (Client_Acquire _ _ _ _) as [[r c] env']. Qed.

Lemma lm_release_spec lm env :
  exists c err, (lm_release lm env).1 = with_state c (released_state (lm_state lm) err) lm.
Proof.
  unfold lm_release. destruct (state_Acquired (lm_state lm)); [|by eexists _, None].
  destruct (Client_Release _ _ _) as [[r c] env']. by eexists _, _.
Qed.

Lemma released_consistent s err : state_consistent s -> state_consistent (set_online false (released_state s err)).
Proof. intros [H1 H2]. destruct err; split; cbn; done. Qed.

Lemma offline_consistent s : state_consistent s -> state_consistent (set_online false s).
Proof. intros [H1 H2]. by split. Qed.

Lemma lm_step_inv lm o :
  lm_step lm o -> maintainer_inv lm -> exists lm', o = Ret lm' /\ maintainer_inv lm'.
Proof.
  intros Hstep Hinv. pose proof Hinv as [Hs He Hst Ho Hp Hm Hk].
  destruct Hstep as [lm Hr|lm env Hr Hf|lm k s l Hsend Hl Hready|lm now Hr|lm rel Hr Hph|lm env Hr Hf|lm rel Hr Hph|lm k Hg].
  - eexists. split; [done|]. rewrite Hr in Hp. split; cbn; try done.
    + intros _. apply Hs. left. by rewrite Hr.
    + by destruct (lm_phase lm).
    + intros g Hg. split; [by apply Hm|done].
  - eexists. split; [done|]. pose proof (lm_acquire_spec lm env) as Ha.
    destruct (Client_Acquire _ _ _ _) as [[r c] env']. rewrite Ha. rewrite Hr in Hp. cbn.
    pose proof (acquired_consistent (lm_state lm) r) as Hc.
    split; cbn; [done|by apply offline_consistent|by intros Hph; rewrite Hph in Hp|done|by destruct (lm_phase lm)| |].
    + rewrite (state_free_greeter lm Hf). done.
    + intros k [= <-]. lia.
  - pose proof (proj1 (Forall_lookup _ _) Ho k l Hl) as Hopen. unfold send. rewrite Hopen. cbn.
    eexists. split; [done|]. apply set_listener_inv; [done|]. by eapply (after_send_inv k).
  - eexists. split; [done|]. rewrite Hr in Hp. split; cbn; try done.
    + intros _. apply Hs. left. by rewrite Hr.
    + by destruct (lm_phase lm).
    + intros g Hg. split; [by apply Hm|done].
  - eexists. split; [done|]. unfold run_shutdown. split; cbn; try done.
    + intros _. apply Hs. left. by rewrite Hr.
    + rewrite Hph. by destruct rel.
    + intros g Hg. split; [by apply Hm|by destruct rel].
    + by destruct rel.
  - eexists. split; [done|]. unfold run_release. destruct (lm_release_spec lm env) as (c & err & ->).
    assert (Hns : lm_phase lm <> Stopped) by (intros Hph; rewrite Hph, Hr in Hp; done).
    rewrite Hr in Hp. split; cbn; try done.
    + by intros [?|?].
    + apply released_consistent, Hs. left. by rewrite Hr.
    + destruct (lm_phase lm) as [| |[]]; naive_solver.
    + rewrite (state_free_greeter lm Hf). done.
  - eexists. split; [done|]. unfold lm_stopped. split; cbn; try done.
  - eexists. split; [done|]. split; cbn; try done. intros g [= <-]. cbn.
    apply (Hm _ Hg).
Qed.

Lemma receiver_step_inv lm o :
  receiver_step lm o -> maintainer_inv lm -> exists lm', o = Ret lm' /\ maintainer_inv lm'.
Proof.
  intros Hstep Hinv. destruct Hstep as [lm k l l' handed Hl Hrec]. eexists. split; [done|].
  pose proof (proj1 (Forall_lookup _ _) (mi_listeners _ Hinv) k l Hl) as Hopen.
  unfold receive in Hrec. destruct (listener_buffer l) as [|s rest].
  - destruct (sending k lm) as [s|] eqn:Hs; [|done]. rewrite Hopen in Hrec. injection Hrec as <- <-.
    apply set_listener_inv; [done|]. by eapply (after_send_inv k).
  - injection Hrec as <- <-. by apply set_listener_inv.
Qed.

Lemma maint_step_inv lm o :
  maint_step lm o -> maintainer_inv lm -> exists lm', o = Ret lm' /\ maintainer_inv lm'.
Proof. intros [H|[H|H]]; [by apply call_step_inv|by apply lm_step_inv|by apply receiver_step_inv]. Qed.

Lemma new_maintainer_inv client instance props retry :
  maintainer_inv (NewLeaseMaintainer client instance props retry).
Proof. split; cbn; by try split. Qed.

Lemma maint_reachable_inv client instance props retry o :
  maint_reachable (NewLeaseMaintainer client instance props retry) o ->
  exists lm, o = Ret lm /\ maintainer_inv lm.
Proof.
  induction 1 as [|lm o _ (lm' & [= <-] & Hinv) Hstep].
  - eexists. split; [done|]. apply new_maintainer_inv.
  - by eapply maint_step_inv.
Qed.

(** C15. A consistent state.  However calls, acquisitions, sends and receptions
    interleave, no listener is sent to or closed after it was closed; the state
    is online only while the maintainer is started and, until its goroutine
    ends, without error, and then it either holds a lease or needs none. *)
Theorem maintainer_consistent client instance props retry o :
  maint_reachable (NewLeaseMaintainer client instance props retry) o ->
  exists lm, o = Ret lm /\ maintainer_inv lm.
Proof. apply maint_reachable_inv. Qed.

(** The state in between: online, with the error of the release. *)
Lemma failed_release_online lm env c env' err :
  state_Acquired (lm_state lm) = true -> state_Online (lm_state lm) = true ->
  Client_Release (ls_Subject (state_Lease (lm_state lm))) (lm_client lm) env = (Failed err, c, env') ->
  state_Online (lm_state (run_release lm env)) = true
  /\ state_Err (lm_state (run_release lm env)) = Some (error_text err).
Proof. intros Ha Ho Hc. unfold run_release, lm_release. rewrite Ha, Hc. by split. Qed.

(** ** Sending and receiving *)

Lemma step_on lm lm' : goes_on lm lm' -> maint_step lm (Ret lm').
Proof. intros [H|H]; right; auto. Qed.

Lemma goes_on_inv lm lm' : rtc goes_on lm lm' -> maintainer_inv lm -> maintainer_inv lm'.
Proof.
  induction 1 as [lm|l1 l2 l3 H%step_on _ IH]; [done|]. intros Hi.
  destruct (maint_step_inv _ _ H Hi) as (lm' & [= <-] & Hi'). auto.
Qed.

Lemma after_send_keeps lm :
  lm_phase (after_send lm) = lm_phase lm /\ lm_state (after_send lm) = lm_state lm
  /\ lm_listeners (after_send lm) = lm_listeners lm /\ (lm_run (after_send lm) = Gone <-> lm_run lm = Gone).
Proof. unfold after_send. destruct (lm_run lm) eqn:Hr; cbn; by rewrite ?Hr. Qed.

(** The buffer of a listener is read to its end. *)
Lemma drained k l lm :
  lm_listeners lm !! k = Some l ->
  exists l', rtc goes_on lm (set_listener k l' lm) /\ listener_buffer l' = [] /\ listener_closed l' = listener_closed l.
Proof.
  remember (listener_buffer l) as b eqn:Hb. revert l lm Hb.
  induction b as [|s b IH]; intros l lm Hb Hl.
  - exists l. split; [|by rewrite <- Hb]. unfold set_listener. rewrite list_insert_id by done. by destruct lm.
  - set (l1 := mkListener (listener_cap l) b (listener_taken l ++ [s]) (listener_closed l)).
    destruct (IH l1 (set_listener k l1 lm) eq_refl) as (l' & Hr & He & Hc).
    { cbn. apply list_lookup_insert_eq. by eapply lookup_lt_Some. }
    exists l'. split; [|done]. eapply rtc_l.
    + right. apply (step_receive lm k l l1 false Hl). unfold receive. by rewrite <- Hb.
    + unfold set_listener in Hr |- *. cbn in Hr. by rewrite list_insert_insert_eq in Hr.
Qed.

(** A receiver that drains its listener lets the sender go on. *)
Lemma heard k s lm :
  sending k lm = Some s -> k < length (lm_listeners lm) -> maintainer_inv lm ->
  exists l', rtc goes_on lm (set_listener k l' (after_send lm)).
Proof.
  intros Hs [l Hl]%lookup_lt_is_Some_2 Hinv.
  pose proof (proj1 (Forall_lookup _ _) (mi_listeners _ Hinv) k l Hl) as Hopen.
  destruct (drained k l lm Hl) as (l1 & Hd & Hb & Hc). rewrite Hopen in Hc.
  set (l2 := mkListener (listener_cap l1) [] (listener_taken l1 ++ [s]) false). exists l2.
  eapply rtc_r; [exact Hd|]. right.
  assert (Hl1 : lm_listeners (set_listener k l1 lm) !! k = Some l1).
  { cbn. apply list_lookup_insert_eq. by eapply lookup_lt_Some. }
  assert (Hsend : sending k (set_listener k l1 lm) = Some s) by exact Hs.
  pose proof (step_receive (set_listener k l1 lm) k l1 l2 true Hl1) as H.
  replace (set_listener k l2 (after_send lm)) with (set_listener k l2 (after_send (set_listener k l1 lm))).
  - apply H. unfold receive. by rewrite Hb, Hsend, Hc.
  - unfold set_listener, after_send. cbn. by destruct (lm_run lm); cbn; rewrite list_insert_insert_eq.
Qed.

(** The goroutine of [Listen] lets go of the mutex. *)
Lemma greeted lm :
  maintainer_inv lm -> exists lm', rtc goes_on lm lm' /\ lm_greeter lm' = None
    /\ lm_phase lm' = lm_phase lm /\ lm_run lm' = lm_run lm.
Proof.
  intros Hinv. destruct (lm_greeter lm) as [[k s]|] eqn:Hg; [|by exists lm].
  assert (Hread : exists lm1 s1, rtc goes_on lm lm1 /\ lm_greeter lm1 = Some (mkGreeter k (Some s1))
    /\ lm_phase lm1 = lm_phase lm /\ lm_run lm1 = lm_run lm).
  { destruct s as [s|]; [by exists lm, s|]. eexists _, _. split; [apply rtc_once; left; by eapply step_greet|done]. }
  destruct Hread as (lm1 & s1 & Hr & Hg1 & Hp1 & Hr1). pose proof (goes_on_inv _ _ Hr Hinv) as Hinv1.
  destruct (mi_mutex _ Hinv1 _ Hg1) as [Hk Hnb]. cbn in Hk.
  assert (Hs : sending k lm1 = Some s1 /\ after_send lm1 = with_greeter None lm1).
  { unfold sending, after_send. rewrite Hg1, decide_True by done.
    destruct (lm_run lm1) as [| |j| |] eqn:Hrun; try done. by destruct (Hnb j). }
  destruct Hs as [Hs Ha]. destruct (heard k s1 lm1 Hs Hk Hinv1) as [l' Hh]. rewrite Ha in Hh.
  eexists. split; [by etrans|]. done.
Qed.

(** The goroutine sends its state to all listeners. *)
Lemma broadcast n lm k :
  n = length (lm_listeners lm) - k -> lm_run lm = Broadcasting k -> maintainer_inv lm ->
  exists lm', rtc goes_on lm lm' /\ lm_run lm' = Idle /\ lm_phase lm' = lm_phase lm.
Proof.
  revert lm k. induction n as [|n IH]; intros lm k Hn Hr Hinv.
  - pose proof (mi_range _ Hinv k Hr). eexists. split; [apply rtc_once; left; apply (step_acquired lm 0%Z)|done].
    rewrite Hr. f_equal. lia.
  - assert (Hs : sending k lm = Some (lm_state lm)) by (unfold sending; rewrite Hr; by rewrite decide_True).
    destruct (heard k _ lm Hs ltac:(lia) Hinv) as [l' Hh].
    assert (Ha : after_send lm = with_run (Broadcasting (S k)) lm) by (unfold after_send; by rewrite Hr).
    rewrite Ha in Hh.
    destruct (IH (set_listener k l' (with_run (Broadcasting (S k)) lm)) (S k)) as (lm' & Hp & Hi & Hph).
    + cbn. rewrite length_insert. lia.
    + done.
    + by eapply goes_on_inv.
    + exists lm'. split; [by etrans|done].
Qed.

(** Told to release, the goroutine can get to its end. *)
Lemma releasing_stops (env : Env) lm :
  maintainer_inv lm -> lm_phase lm = Stopping true ->
  exists lm', rtc goes_on lm lm' /\ lm_phase lm' = Stopped.
Proof.
  intros Hinv Hph.
  assert (Hgone : forall l, lm_phase l = Stopping true -> lm_run l = Gone -> exists lm', rtc goes_on l lm' /\ lm_phase lm' = Stopped).
  { intros l Hp Hr. eexists. split; [apply rtc_once; left; by apply (step_stopped l true)|done]. }
  assert (Hrel : forall l, maintainer_inv l -> lm_phase l = Stopping true -> lm_run l = Releasing ->
    exists lm', rtc goes_on l lm' /\ lm_phase lm' = Stopped).
  { intros l Hi Hp Hr. destruct (greeted l Hi) as (l1 & Hl & Hg & Hp1 & Hr1).
    assert (Hs : goes_on l1 (run_release l1 env)).
    { left. apply step_release; [by rewrite Hr1|]. unfold state_free. by rewrite Hr1, Hr, Hg. }
    destruct (Hgone (run_release l1 env)) as (l' & Hl' & He); [|done|].
    - unfold run_release. destruct (lm_release_spec l1 env) as (? & ? & ->). cbn. by rewrite Hp1.
    - exists l'. split; [etrans; [exact Hl|]; by eapply rtc_l|done]. }
  assert (Hidle : forall l, maintainer_inv l -> lm_phase l = Stopping true -> lm_run l = Idle ->
    exists lm', rtc goes_on l lm' /\ lm_phase lm' = Stopped).
  { intros l Hi Hp Hr. assert (Hs : goes_on l (run_shutdown true l)) by (left; by apply step_shutdown).
    destruct (Hrel (run_shutdown true l)) as (l' & Hl' & He); [|done..|].
    - by apply (goes_on_inv l); [apply rtc_once|].
    - exists l'. split; [by eapply rtc_l|done]. }
  assert (Hsend : forall l k, maintainer_inv l -> lm_phase l = Stopping true -> lm_run l = Broadcasting k ->
    exists lm', rtc goes_on l lm' /\ lm_phase lm' = Stopped).
  { intros l k Hi Hp Hr. destruct (broadcast _ l k eq_refl Hr Hi) as (l1 & Hl & Hr1 & Hp1).
    destruct (Hidle l1) as (l' & Hl' & He); [by eapply goes_on_inv|by rewrite Hp1|done|].
    exists l'. split; [by etrans|done]. }
  destruct (lm_run lm) as [| |k| |] eqn:Hr; eauto.
  destruct (greeted lm Hinv) as (l1 & Hl & Hg & Hp1 & Hr1).
  assert (Hs : goes_on l1 (lm_acquire l1 env).1).
  { left. apply step_acquire; [by rewrite Hr1|]. unfold state_free. by rewrite Hr1, Hr, Hg. }
  assert (Hl2 : rtc goes_on lm (lm_acquire l1 env).1) by (by eapply rtc_r).
  destruct (Hsend (lm_acquire l1 env).1 0) as (l' & Hl' & He); [by eapply goes_on_inv| | |].
  - pose proof (lm_acquire_spec l1 env) as Ha. destruct (Client_Acquire _ _ _ _) as [[r c] env'].
    rewrite Ha. cbn. by rewrite Hp1.
  - pose proof (lm_acquire_spec l1 env) as Ha. destruct (Client_Acquire _ _ _ _) as [[r c] env']. by rewrite Ha.
  - exists l'. split; [by etrans|done].
Qed.

(** ** Releasing *)

Section Releasing.
Context (up : Endpoint -> Prop) (Hst : stable_net up).
Context (Hrel : forall subject ep env, up ep -> exists a, (Endpoint_Release ep subject env).1 = Got a).

(** The release at a server of the lease that is held. *)
Definition released_at (lm : LeaseMaintainer) (env : Env) : Prop :=
  state_Acquired (lm_state lm) = true ->
  exists a c env', Client_Release (ls_Subject (state_Lease (lm_state lm))) (lm_client lm) env = (Got a, c, env').

Lemma lm_release_stable lm env :
  released_at lm env /\ lm_phase (run_release lm env) = lm_phase lm
  /\ let s := lm_state (run_release lm env) in
     state_Acquired s = false /\ state_Online s = false /\ state_Err s = None.
Proof.
  unfold released_at, run_release, lm_release. destruct (state_Acquired (lm_state lm)) eqn:Ha; [|by cbn].
  destruct (Client_Release_stable up (ls_Subject (state_Lease (lm_state lm))) (lm_client lm) env Hst
    (fun ep env => Hrel _ ep env)) as (a & c & env' & He).
  rewrite He. cbn. split; [|done]. intros _. by exists a, c, env'.
Qed.

(** From the call of [Release] in [lm1] on, the goroutine has yet to end, or it
    has released the lease. *)
Definition release_under_way (lm1 lm2 : LeaseMaintainer) : Prop :=
  (lm_phase lm2 = Stopping true /\ lm_run lm2 <> Gone)
  \/ (lm_run lm2 = Gone /\ (lm_phase lm2 = Stopping true \/ lm_phase lm2 = Stopped)
      /\ state_Acquired (lm_state lm2) = false /\ state_Online (lm_state lm2) = false
      /\ state_Err (lm_state lm2) = None
      /\ exists lm env, rtc until_stopped lm1 lm /\ lm_run lm = Releasing /\ state_free lm = true
           /\ released_at lm env /\ rtc until_stopped (run_release lm env) lm2).

Lemma call_step_stopping lm lm' r :
  call_step lm (Ret lm') -> lm_phase lm = Stopping r -> exists props, lm' = lm_Update props lm.
Proof.
  intros Hs Hp. inversion Hs as [l Hph|l rel Hph|l Hph Hf Heq|l n Hph Hf Heq|l props Hf]; subst; try congruence.
  by exists props.
Qed.

Lemma release_goes_on lm1 lm2 lm3 :
  rtc until_stopped lm1 lm2 -> release_under_way lm1 lm2 -> until_stopped lm2 lm3 -> release_under_way lm1 lm3.
Proof.
  intros Hp [(Hph & Hr)|(Hg & Hph & Ha & Ho & He & lm & env & Hlm & Hl & Hf & Hat & Hp2)] Hs.
  - destruct (Hs) as [_ [Hc|[Hm|Hc]]].
    + destruct (call_step_stopping _ _ _ Hc Hph) as [props ->]. by left.
    + remember (Ret lm3) as o eqn:Heq.
      destruct Hm as [lm2 Hrun|lm2 env Hrun Hf|lm2 k s l' Hsend Hl Hready|lm2 now Hrun|lm2 rel Hrun Hph'
        |lm2 env Hrun Hf|lm2 rel Hrun Hph'|lm2 k Hgr]; try injection Heq as <-.
      * left. by split.
      * left. pose proof (lm_acquire_spec lm2 env) as Hac.
        destruct (Client_Acquire _ _ _ _) as [[r c] env']. by rewrite Hac.
      * unfold send in Heq. destruct (listener_closed l'); [done|]. injection Heq as <-.
        destruct (after_send_keeps lm2) as (H1 & _ & _ & H4). left. cbn. by rewrite H1, H4.
      * left. by split.
      * assert (rel = true) as -> by congruence. left. by split.
      * destruct (lm_release_stable lm2 env) as (Hat & Hp' & H1 & H2 & H3). right. split_and!; try done.
        -- left. by rewrite Hp'.
        -- by exists lm2, env.
      * done.
      * left. by split.
    + inversion Hc as [l0 k l1 l2 handed Hl Hrec]; subst. left.
      destruct (after_send_keeps lm2) as (H1 & _ & _ & H4). destruct handed; cbn; [by rewrite H1, H4|by split].
  - assert (Hph' : lm_phase lm2 = Stopping true) by (destruct Hs as [Hns _]; by destruct Hph).
    assert (Hkeep : lm_run lm3 = Gone /\ (lm_phase lm3 = Stopping true \/ lm_phase lm3 = Stopped)
      /\ state_Acquired (lm_state lm3) = false /\ state_Online (lm_state lm3) = false /\ state_Err (lm_state lm3) = None).
    { destruct (after_send_keeps lm2) as (H1 & H2 & _ & H4). destruct (Hs) as [_ [Hc|[Hm|Hc]]].
      - destruct (call_step_stopping _ _ _ Hc Hph') as [props ->]. cbn. by split_and!; [|left|..].
      - remember (Ret lm3) as o eqn:Heq.
        destruct Hm as [lm2 Hrun|lm2 env0 Hrun Hf0|lm2 k s l' Hsend Hl' Hready|lm2 now Hrun|lm2 rel Hrun Hp'
          |lm2 env0 Hrun Hf0|lm2 rel Hrun Hp'|lm2 k Hgr]; try injection Heq as <-; try congruence.
        + unfold send in Heq. destruct (listener_closed l'); [done|]. injection Heq as <-. cbn.
          rewrite H1, H2, H4. by split_and!; [|left|..].
        + cbn. by split_and!; [|right|..].
        + cbn. by split_and!; [|left|..].
      - inversion Hc as [l0 k l1 l2 handed Hl' Hrec]; subst. destruct handed; cbn; [rewrite H1, H2, H4|];
          by split_and!; [|left|..]. }
    right. destruct Hkeep as (K1 & K2 & K3 & K4 & K5). split_and!; try done.
    exists lm, env. split_and!; try done. by eapply rtc_r.
Qed.

Lemma release_reaches lm1 lm2 :
  lm_phase lm1 = Stopping true -> lm_run lm1 <> Gone -> rtc until_stopped lm1 lm2 -> release_under_way lm1 lm2.
Proof.
  intros Hph Hr. revert lm2. apply rtc_ind_r; [by left|].
  intros lm2 lm3 Hp Hs IH. by eapply release_goes_on.
Qed.
End Releasing.

Lemma until_stopped_inv lm lm' : rtc until_stopped lm lm' -> maintainer_inv lm -> maintainer_inv lm'.
Proof.
  induction 1 as [lm|l1 l2 l3 [_ H] _ IH]; [done|]. intros Hi.
  destruct (maint_step_inv _ _ H Hi) as (lm' & [= <-] & Hi'). auto.
Qed.

(** C16. Releasing.  Suppose that nothing cancels a release, that the resolver
    knows a healthy server, and that healthy servers answer releases.  Call
    [Release] on a maintainer that runs, whatever it is doing.  Then, whatever
    else happens until the call returns:
    - the goroutine, the sends under way and the receivers can always go on
      until it does return: as long as listeners are drained, nothing is waited
      for in vain ([undrained_listener_blocks] shows the need for it);
    - when it returns, no lease is held, and the lease that was held last, as
      the goroutine came to release it after the call, has been released at a
      server. *)
Theorem maintainer_releases up client instance props retry (lm : LeaseMaintainer) (env : Env) :
  stable_net up ->
  (forall subject ep env, up ep -> exists a, (Endpoint_Release ep subject env).1 = Got a) ->
  maint_reachable (NewLeaseMaintainer client instance props retry) (Ret lm) -> lm_phase lm = Running ->
  exists lm1, lm_Release lm = (None, lm1)
    /\ forall lm2, rtc until_stopped lm1 lm2 ->
       (exists lm3, rtc goes_on lm2 lm3 /\ lm_phase lm3 = Stopped)
       /\ (lm_phase lm2 = Stopped ->
            state_Acquired (lm_state lm2) = false /\ state_Online (lm_state lm2) = false
            /\ state_Err (lm_state lm2) = None
            /\ exists lm' env', rtc until_stopped lm1 lm' /\ lm_run lm' = Releasing
                 /\ released_at lm' env' /\ rtc until_stopped (run_release lm' env') lm2).
Proof.
  intros Hst Hrel Hreach Hph.
  destruct (maint_reachable_inv _ _ _ _ _ Hreach) as (lm' & [= <-] & Hinv).
  unfold lm_Release, lm_stop. rewrite Hph. cbn. eexists. split; [done|]. intros lm2 Hp.
  assert (Hinv1 : maintainer_inv (with_phase (Stopping true) lm)).
  { destruct (call_step_inv _ _ (step_Stop lm true Hph) Hinv) as (lm' & [= <-] & H).
    unfold lm_stop in H. by rewrite Hph in H. }
  assert (Hr : lm_run (with_phase (Stopping true) lm) <> Gone).
  { pose proof (mi_phase _ Hinv) as H. rewrite Hph in H. apply H. }
  pose proof (release_reaches up Hst Hrel (with_phase (Stopping true) lm) lm2 eq_refl Hr Hp) as Hu. split.
  - assert (Hc : lm_phase lm2 = Stopping true \/ lm_phase lm2 = Stopped) by (destruct Hu as [[? ?]|(_ & ? & _)]; auto).
    destruct Hc as [Hc|Hc]; [|by exists lm2].
    apply (releasing_stops env); [|done]. by eapply until_stopped_inv.
  - intros Hs. destruct Hu as [[? ?]|(_ & _ & Ha & Ho & He & lm' & env' & H1 & H2 & _ & H3 & H4)]; [congruence|].
    split_and!; try done. by exists lm', env'.
Qed.

(** A state that is sent to a full channel which nobody reads from: whatever
    else happens, the goroutine waits, and no [Release] or [Stop] returns. *)
Lemma undrained_listener_blocks lm lm' k l :
  maintainer_inv lm -> lm_run lm = Broadcasting k -> lm_listeners lm !! k = Some l ->
  listener_cap l <= length (listener_buffer l) -> rtc unheard lm lm' ->
  lm_run lm' = Broadcasting k /\ lm_phase lm' <> Stopped.
Proof.
  intros Hinv Hr Hl Hfull Hp. revert Hinv Hr Hl. induction Hp as [lm|lm lm1 lm2 Hs _ IH]; intros Hinv Hr Hl.
  - split; [done|]. intros Hph. pose proof (mi_phase _ Hinv) as H. rewrite Hph in H. congruence.
  - assert (Hinv1 : maintainer_inv lm1).
    { assert (Hm : maint_step lm (Ret lm1)) by (destruct Hs as [H|H]; [by left|by right; left]).
      by destruct (maint_step_inv _ _ Hm Hinv) as (? & [= <-] & ?). }
    pose proof (mi_phase _ Hinv) as Hphase. rewrite Hr in Hphase.
    pose proof (proj1 (Forall_lookup _ _) (mi_listeners _ Hinv) k l Hl) as Hopen.
    assert (Hnf : state_free lm = false) by (unfold state_free; by rewrite Hr).
    assert (Hk : lm_run lm1 = Broadcasting k /\ lm_listeners lm1 !! k = Some l); [|by destruct Hk; apply IH].
    destruct Hs as [Hs|Hs]; remember (Ret lm1) as o eqn:Heq.
    + destruct Hs as [lm Hph|lm rel Hph|lm Hph Hf|lm n Hph Hf|lm props Hf]; try congruence.
      * by rewrite Hph in Hphase.
      * injection Heq as <-. unfold lm_stop. by rewrite Hph.
    + destruct Hs as [lm Hrun|lm env0 Hrun Hf0|lm j s l' Hsend Hl' Hready|lm now Hrun|lm rel Hrun Hp'
        |lm env0 Hrun Hf0|lm rel Hrun Hp'|lm j Hgr]; try congruence.
      * apply sending_inv in Hsend as [(Hj & _)|(Hg & Hnb & _)]; [|by destruct (Hnb k)].
        assert (j = k) as -> by congruence. assert (l' = l) as -> by congruence.
        unfold send_ready in Hready. rewrite Hopen, bool_decide_false in Hready by lia. done.
      * apply lookup_lt_Some in Hl. assert (k = length (lm_listeners lm)) by congruence. lia.
      * by injection Heq as <-.
Qed.
End Maintainer.

(** ** Witnesses *)

Definition ann_state (status : Status) : State :=
  mkState true false true (ann_lease status 0%Z) [] (5 * Second)%Z None.

(** A lease of a minute is renewed after half of it. *)
Lemma maintainer_renews_in_time_witness :
  interval (5 * Second)%Z (ann_state Active) 0%Z = (30 * Second)%Z
  /\ (0 + interval (5 * Second) (ann_state Active) 0 + transportTime
      <= Lease_ExpirationTime (ann_lease Active 0))%Z.
Proof.
  split; [vm_compute; reflexivity|].
  destruct (maintainer_renews_in_time (5 * Second)%Z (ann_state Active) 0%Z) as (_ & _ & H).
  destruct (H eq_refl) as (_ & _ & Ha & _). apply Ha; [reflexivity|vm_compute; discriminate].
Defined.

Lemma maintainer_consistent_witness :
  exists lm, (lm_Acquire (NewLeaseMaintainer NewClient (sub_Instance ann) ∅ 0%Z)).2 = lm
    /\ lm_phase lm = Running /\ maintainer_inv lm.
Proof.
  eexists. split; [reflexivity|]. split; [reflexivity|].
  destruct (maintainer_consistent NewClient (sub_Instance ann) ∅ 0%Z
    (Ret (lm_Acquire (NewLeaseMaintainer NewClient (sub_Instance ann) ∅ 0%Z)).2)) as (lm & [= <-] & H).
  - eapply reach_step; [apply reach_init|]. left. by apply step_Acquire.
  - exact H.
Defined.


(** A maintainer that has acquired a lease and is about to send it to a listener
    without a buffer. *)
Definition ann_maintainer : LeaseMaintainer :=
  let lm := (lm_Acquire (NewLeaseMaintainer NewClient (sub_Instance ann) ∅ (5 * Second)%Z)).2 in
  let lm := with_listeners [mkListener 0 [] [] false] lm in
  (lm_acquire (with_run Locking lm) tt).1.

Lemma ann_maintainer_reachable :
  maint_reachable (NewLeaseMaintainer NewClient (sub_Instance ann) ∅ (5 * Second)%Z) (Ret ann_maintainer).
Proof.
  set (lm0 := NewLeaseMaintainer NewClient (sub_Instance ann) ∅ (5 * Second)%Z).
  set (lm1 := (lm_Acquire lm0).2).
  assert (H1 : maint_reachable lm0 (Ret lm1)).
  { eapply reach_step; [apply reach_init|]. left. by apply step_Acquire. }
  assert (H2 : maint_reachable lm0 (Ret (with_listeners [mkListener 0 [] [] false] lm1))).
  { eapply reach_step; [exact H1|]. left. by apply (step_Listen lm1 0). }
  assert (H3 : maint_reachable lm0 (Ret (with_run Locking (with_listeners [mkListener 0 [] [] false] lm1)))).
  { eapply reach_step; [exact H2|]. right. left. by apply step_tick. }
  eapply reach_step; [exact H3|]. right. left. by apply (step_acquire _ tt).
Qed.

Lemma maintainer_releases_witness :
  state_Acquired (lm_state ann_maintainer) = true
  /\ exists lm1, lm_Release ann_maintainer = (None, lm1)
    /\ exists lm3, rtc goes_on lm1 lm3 /\ lm_phase lm3 = Stopped.
Proof.
  split; [vm_compute; reflexivity|].
  destruct (maintainer_releases at_b NewClient (sub_Instance ann) ∅ (5 * Second)%Z ann_maintainer tt) as (lm1 & H1 & H).
  - apply one_server_stable.
  - intros subject ep env. apply one_server_releases.
  - apply ann_maintainer_reachable.
  - vm_compute. reflexivity.
  - exists lm1. split; [exact H1|]. exact (proj1 (H lm1 (rtc_refl _ lm1))).
Defined.
