(* ===== verification/LeaseWatch.v ===== *)
(** * A maintainer and the one that it keeps informed, in time

    The maintainer of guardian/maintainer.go asks for the lease again and again,
    and a keeper handles every state that it broadcasts: the runner, or an
    invocation of the enforcer, which are instances of [Keeper].  With bounds on
    the time that an attempt takes and on the delays of the goroutines, a
    keeper that obeys [KeeperSpec] stops its program soon after the lease has
    expired, whatever the server and the network do. *)

From S2P Require Import Prelude GoTime Lease Program Server Client Maintainer MaintainerProps.

(** ** The interface *)

(** A state that justifies a running program: a failure before the lease has
    expired, an active lease, or none being required. *)
Definition justifies (s : State) (now : Time) : Prop :=
  (state_Err s <> None /\ Lease_Expired (state_Lease s) now = false)
  \/ (state_Err s = None /\ (state_LeaseNotRequired s = true \/ ls_Status (state_Lease s) = Active)).

(** A state that is the result of an answer. *)
Definition answered (s : State) : Prop :=
  if decide (state_Err s <> None) then state_Online s = false /\ state_LeaseNotRequired s = false
  else if state_LeaseNotRequired s then state_Acquired s = false else state_Acquired s = true.

(** What handles the states: how it starts, handles one, and what else it does;
    and whether its program is at large: it may run and nothing has been done
    to stop it. *)
Class Keeper (C : Type) := {
  kp_start : C -> Prop;
  kp_handle : State -> Time -> C -> C -> Prop;
  kp_other : Time -> C -> C -> Prop;
  kp_large : C -> Prop;
}.

(** A keeper can handle every state; it lets its program go on only if the state
    justifies it; and nothing else sets the program at large. *)
Class KeeperSpec (C : Type) `{K : Keeper C} := {
  kp_inv : C -> Prop;
  kp_inv_start c : kp_start c -> kp_inv c;
  kp_inv_handle s now c c' : kp_inv c -> kp_handle s now c c' -> kp_inv c';
  kp_inv_other now c c' : kp_inv c -> kp_other now c c' -> kp_inv c';
  kp_total s now c : kp_inv c -> exists c', kp_handle s now c c';
  kp_handled s now c c' : kp_inv c -> answered s -> kp_handle s now c c' -> kp_large c' -> justifies s now;
  kp_others now c c' : kp_inv c -> kp_other now c c' -> kp_large c' -> kp_large c;
}.

Section Timed.
(** The retry interval; the time that an attempt takes at most, with the start
    of its timer (the source gives up after ten seconds); and the time after
    which the maintainer has reset its timer and the runner has handled a state. *)
Context (retry attempt delay : Duration).
Context {C : Type} `{K : Keeper C}.

(** ** The state *)

(** [wt_state] is the maintainer's state, [wt_answered] the time of the answer
    that made it, [wt_due] the time by which the next one has come, and
    [wt_handled] whether it has been handled.  Histories: the time of the start,
    and the last state that was handled with the time of its answer. *)
Record Watch := mkWatch {
  wt_now : Time;
  wt_state : State;
  wt_answered : Time;
  wt_due : Time;
  wt_keeper : C;
  wt_handled : bool;
  wt_started : Time;
  wt_last : option (State * Time);
}.

(** The maintainer has been started, with a timer that fires at once. *)
Definition wt_init (now : Time) (c : C) : Watch :=
  mkWatch now zero_state now (now + attempt)%Z c true now None.

(** The time at which something must have happened. *)
Definition latest (w : Watch) : Time :=
  if wt_handled w then wt_due w else (wt_answered w + delay)%Z.

Definition wt_tick (t : Time) (w : Watch) : Watch :=
  mkWatch t (wt_state w) (wt_answered w) (wt_due w) (wt_keeper w) (wt_handled w) (wt_started w) (wt_last w).

(** An answer, or the failure to get one; [n] is when the timer is reset. *)
Definition wt_answer (response : reply AcquireResponse) (n : Time) (w : Watch) : Watch :=
  let state := acquired_state (wt_state w) response in
  mkWatch (wt_now w) state (wt_now w) (n + interval retry state n + attempt)%Z (wt_keeper w) false
    (wt_started w) (wt_last w).

Definition wt_handle (c : C) (w : Watch) : Watch :=
  mkWatch (wt_now w) (wt_state w) (wt_answered w) (wt_due w) c true (wt_started w) (Some (wt_state w, wt_answered w)).

Definition set_wt_keeper (c : C) (w : Watch) : Watch :=
  mkWatch (wt_now w) (wt_state w) (wt_answered w) (wt_due w) c (wt_handled w) (wt_started w) (wt_last w).

(** ** What can happen *)

Inductive watch_step : Watch -> Watch -> Prop :=
| ws_tick t w : (wt_now w <= t <= latest w)%Z -> watch_step w (wt_tick t w)
| ws_answer response n w :
    wt_handled w = true -> (wt_now w <= n <= wt_now w + delay)%Z -> watch_step w (wt_answer response n w)
| ws_handle c w :
    wt_handled w = false -> kp_handle (wt_state w) (wt_now w) (wt_keeper w) c -> watch_step w (wt_handle c w)
| ws_other c w : kp_other (wt_now w) (wt_keeper w) c -> watch_step w (set_wt_keeper c w).

Definition watch_reachable (w : Watch) : Prop := exists now c, kp_start c /\ rtc watch_step (wt_init now c) w.

(** By when a program is stopped: when its lease has expired, or at least the
    interval of the next attempt has passed, and the delays. *)
Definition grace_end (last : State) (last_at : Time) : Time :=
  let e := Lease_ExpirationTime (state_Lease last) in
  if decide (state_Err last <> None) then (e + Z.max MinimumRefresh retry)%Z
  else Z.max e (last_at + MinimumRefresh)%Z.
Definition grace (started : Time) (last : option (State * Time)) : Time :=
  (match last with
   | None => started
   | Some (last, last_at) => grace_end last last_at
   end + attempt + 2 * delay)%Z.

(** No lease is required, as far as is known. *)
Definition unlimited (last : option (State * Time)) : Prop :=
  match last with
  | None => False
  | Some (last, _) => state_LeaseNotRequired last = true
  end.

(** ** Lemmas: the interval *)

Lemma interval_offline state now :
  state_Online state = false -> (interval retry state now <= Z.max MinimumRefresh retry)%Z.
Proof.
  intros Hoff. unfold interval. rewrite !raise_minimum. rewrite Hoff. cbn [negb andb].
  destruct (state_Acquired state); cbn [negb]; [|lia].
  set (eff := Lease_EffectiveRefresh _).
  assert (Hb : ((if bool_decide (retry < eff) then retry else eff) <= retry)%Z) by (case_bool_decide; lia).
  set (base := if bool_decide _ then _ else _) in *. clearbody base.
  repeat (case_decide || case_match); unfold MinimumRefresh, Second in *; lia.
Qed.

Lemma interval_minimum state now : (MinimumRefresh <= interval retry state now)%Z.
Proof. unfold interval. rewrite !raise_minimum. lia. Qed.

Lemma interval_active state now :
  state_Acquired state = true -> ls_Status (state_Lease state) = Active ->
  (now + interval retry state now <= Z.max (Lease_ExpirationTime (state_Lease state)) (now + MinimumRefresh))%Z.
Proof.
  intros Ha Hs. unfold interval. rewrite !raise_minimum, Ha. cbn [negb]. rewrite decide_True by done.
  set (base := if negb (state_Online state) && _ then _ else _). clearbody base.
  destruct (Time_After (Lease_ExpirationTime (state_Lease state)) now) eqn:He; [|unfold MinimumRefresh, Second; lia].
  apply Time_After_true in He. pose proof (remaining_bound _ _ He) as [Hr0 Hr]. cbn zeta in Hr0, Hr.
  set (r := if decide (transportTime < _)%Z then _ else _) in *. clearbody r.
  unfold transportTime, Millisecond, MinimumRefresh, Second in *. case_decide; lia.
Qed.

(** ** The invariant *)

Lemma acquired_answered state response : answered (acquired_state state response).
Proof. unfold answered. destruct response as [a|[]]; cbn; case_decide; auto; congruence. Qed.

(** The next attempt comes in time. *)
Lemma grace_bound s now at_ n due started :
  (0 <= attempt)%Z -> answered s -> justifies s now -> state_LeaseNotRequired s = false ->
  (at_ <= now)%Z -> (at_ <= n <= at_ + delay)%Z -> due = (n + interval retry s n + attempt)%Z ->
  (due + delay <= grace started (Some (s, at_)))%Z.
Proof.
  intros Ha Hans Hj Hreq Hat Hn ->. unfold grace, grace_end, answered in *.
  destruct Hj as [[He Hx]|[He Hact]].
  - rewrite decide_True in Hans by done. rewrite decide_True by done.
    pose proof (interval_offline s n (proj1 Hans)) as Hi.
    assert (Hle : (now <= Lease_ExpirationTime (state_Lease s))%Z) by (by apply Time_After_false in Hx). lia.
  - rewrite decide_False in Hans by auto. rewrite decide_False by auto. rewrite Hreq in Hans.
    destruct Hact as [?|Hact]; [congruence|]. pose proof (interval_active s n Hans Hact) as Hi. lia.
Qed.

Context `{KS : !KeeperSpec C}.

Record watch_inv (w : Watch) : Prop := {
  wi_keeper : kp_inv (wt_keeper w);
  wi_now : (wt_now w <= latest w)%Z;
  wi_since : (wt_answered w <= wt_now w)%Z;
  wi_state : wt_handled w = false -> answered (wt_state w);
  wi_due : wt_handled w = false -> exists n, (wt_answered w <= n <= wt_answered w + delay)%Z
    /\ wt_due w = (n + interval retry (wt_state w) n + attempt)%Z;
  wi_last : kp_large (wt_keeper w) -> forall s at_, wt_last w = Some (s, at_) ->
    state_LeaseNotRequired s = true \/ state_Err s <> None \/ ls_Status (state_Lease s) = Active;
  wi_grace : kp_large (wt_keeper w) -> unlimited (wt_last w)
    \/ ((if wt_handled w then wt_due w + delay else wt_answered w + delay) <= grace (wt_started w) (wt_last w))%Z;
}.

(** The next answer is not due before this one has been handled. *)
Lemma due_later w : (0 <= attempt)%Z -> (delay <= MinimumRefresh)%Z -> watch_inv w -> wt_handled w = false ->
  (wt_now w <= wt_due w)%Z.
Proof.
  intros Ha Hd [_ H2 _ _ H5 _ _] Hh. destruct (H5 Hh) as (n & Hn & ->). unfold latest in H2. rewrite Hh in H2.
  pose proof (interval_minimum (wt_state w) n). lia.
Qed.

Lemma justifies_last s now :
  justifies s now -> state_LeaseNotRequired s = true \/ state_Err s <> None \/ ls_Status (state_Lease s) = Active.
Proof. intros [[He _]|[_ [Hn|Ha]]]; auto. Qed.

Lemma watch_step_inv w w' :
  (0 <= attempt)%Z -> (0 <= delay <= MinimumRefresh)%Z -> watch_step w w' -> watch_inv w -> watch_inv w'.
Proof.
  intros Ha [Hd0 Hd1] Hs Hinv. pose proof Hinv as [H1 H2 H3 H4 H5 H6 H7].
  destruct Hs as [t w Ht|resp n w Hh Hn|c w Hh Hc|c w Hc].
  - split; cbn; try done; [apply Ht|lia].
  - unfold latest in H2. rewrite Hh in *. split; cbn; try done; try lia.
    + intros _. apply acquired_answered.
    + intros _. exists n. split; [done|lia].
    + intros Hl. destruct (H7 Hl) as [?|?]; [by left|right; lia].
  - destruct (H5 Hh) as (n & Hn & Hdue). unfold latest in H2. rewrite Hh in H2.
    pose proof (kp_handled (wt_state w) (wt_now w) _ c H1 (H4 Hh) Hc) as Hjust.
    split; cbn; try done.
    + by eapply kp_inv_handle.
    + unfold latest. cbn. by apply due_later.
    + intros Hl s at_ [= <- <-]. by eapply justifies_last, Hjust.
    + intros Hl. destruct (state_LeaseNotRequired (wt_state w)) eqn:Hq; [by left|right].
      eapply grace_bound; eauto.
  - pose proof (kp_others _ _ _ H1 Hc) as Hl. split; cbn; try done; [by eapply kp_inv_other|..]; intros Hx%Hl; [exact (H6 Hx)|exact (H7 Hx)].
Qed.

Lemma watch_reachable_inv w :
  (0 <= attempt)%Z -> (0 <= delay <= MinimumRefresh)%Z -> watch_reachable w -> watch_inv w.
Proof.
  intros Ha Hd (now & c & Hc & Hr). assert (Hi : watch_inv (wt_init now c)).
  { split; unfold latest; cbn; try done; try lia; [by apply kp_inv_start|]. intros _. right. unfold grace. lia. }
  clear Hc. induction Hr as [|w1 w2 w3 H12 _ IH]; [done|]. apply IH. by eapply watch_step_inv.
Qed.

(** A state is handled at once. *)
Lemma handles w : watch_inv w ->
  exists w', rtc watch_step w w' /\ wt_handled w' = true /\ wt_now w' = wt_now w /\ wt_due w' = wt_due w.
Proof.
  intros Hi. destruct (wt_handled w) eqn:Hf; [by exists w|].
  destruct (kp_total (wt_state w) (wt_now w) _ (wi_keeper _ Hi)) as (c & Hc).
  eexists. by split; [apply rtc_once, ws_handle|].
Qed.

Lemma watch_steps_inv w w' :
  (0 <= attempt)%Z -> (0 <= delay <= MinimumRefresh)%Z -> rtc watch_step w w' -> watch_inv w -> watch_inv w'.
Proof. intros Ha Hd. induction 1; [done|]. intros Hi. by eapply IHrtc, watch_step_inv. Qed.

(** Time goes on: whatever has happened, a second later can be reached. *)
Lemma watch_advances w :
  (0 <= attempt)%Z -> (0 <= delay <= MinimumRefresh)%Z -> watch_inv w ->
  exists w', rtc watch_step w w' /\ (wt_now w + MinimumRefresh <= wt_now w')%Z.
Proof.
  intros Ha Hd Hinv. destruct (handles w Hinv) as (w1 & Hr1 & Hf1 & Hn1 & _).
  pose proof (watch_steps_inv _ _ Ha Hd Hr1 Hinv) as Hi1.
  set (w2 := wt_answer (Failed ErrEmptyEndpoint) (wt_now w1) w1).
  assert (H2 : watch_step w1 w2) by (apply ws_answer; [done|lia]).
  destruct (handles w2 (watch_step_inv _ _ Ha Hd H2 Hi1)) as (w3 & Hr3 & Hf3 & Hn3 & Hd3).
  pose proof (interval_minimum (acquired_state (wt_state w1) (Failed ErrEmptyEndpoint)) (wt_now w1)) as Hmin.
  cbn in Hn3, Hd3, Hmin. unfold MinimumRefresh, Second in *.
  exists (wt_tick (wt_due w3) w3). split; [|cbn; rewrite Hd3; lia].
  etrans; [exact Hr1|]. eapply rtc_l; [exact H2|]. etrans; [exact Hr3|].
  apply rtc_once, ws_tick. unfold latest. rewrite Hf3. lia.
Qed.

(** ** A program does not outlive its lease *)

(** While a program is at large, the last state that was handled, unless it was
    that no lease is required, is an active lease or a failure; and the time is
    before the lease expires, or at most the bound above later. *)
Lemma watch_in_time w :
  (0 <= attempt)%Z -> (0 <= delay <= MinimumRefresh)%Z -> watch_reachable w -> kp_large (wt_keeper w) ->
  match wt_last w with
  | None => (wt_now w <= wt_started w + attempt + 2 * delay)%Z
  | Some (last, last_at) =>
      state_LeaseNotRequired last = false ->
      let expiration := Lease_ExpirationTime (state_Lease last) in
      (state_Err last <> None -> (wt_now w <= expiration + Z.max MinimumRefresh retry + attempt + 2 * delay)%Z)
      /\ (state_Err last = None -> ls_Status (state_Lease last) = Active
           /\ (wt_now w <= Z.max expiration (last_at + MinimumRefresh) + attempt + 2 * delay)%Z)
  end.
Proof.
  intros Ha Hd Hr Hl. pose proof (watch_reachable_inv w Ha Hd Hr) as Hinv.
  pose proof (wi_last _ Hinv Hl) as Hj. pose proof (wi_grace _ Hinv Hl) as Hg. pose proof (wi_now _ Hinv) as Hn.
  assert (Hng : unlimited (wt_last w) \/ (wt_now w <= grace (wt_started w) (wt_last w))%Z).
  { destruct Hg as [?|Hg]; [by left|right]. unfold latest in Hn. destruct (wt_handled w); lia. }
  clear Hg Hn. unfold grace in Hng. destruct (wt_last w) as [[last last_at]|]; [|by destruct Hng].
  intros Hq. destruct Hng as [Hu|Hng]; [cbn in Hu; congruence|]. cbn zeta. unfold grace_end in Hng.
  split; intros He.
  - by rewrite decide_True in Hng.
  - rewrite decide_False in Hng by auto. split; [|done]. by destruct (Hj last last_at eq_refl) as [?|[?|?]]; try congruence.
Qed.
End Timed.
Arguments Watch C : clear implicits.
