(* ===== verification/LeaseUI.v ===== *)
(** * The lease user interface manager (lease/leaseui/manager.go)

    The manager hands directives to the goroutine that shows the dialogs, over
    an unbuffered channel and under its mutex: a send is one step in which the
    goroutine receives.  The dialogs themselves belong to a third-party toolkit;
    [ui_loop] is what becomes of the loop of [Run] when a dialog has ended. *)

From S2P Require Import Prelude GoTime Lease.

(** ** type.go, result.go, callback.go, directive.go *)

Inductive UIType := UINone | Startup | UIQueued | Connected | Disconnected.

#[export] Instance UIType_eq_dec : EqDecision UIType.
Proof. solve_decision. Defined.

Definition UIType_String (t : UIType) : string :=
  match t with
  | UINone => "none"
  | Startup => "startup"
  | UIQueued => "queued"
  | Connected => "connected"
  | Disconnected => "disconnected"
  end.

Inductive UIResult := Failure | Success | UserClosed | UserCancelled | ContextCancelled.

(** The callbacks that the runner registers, [None] for [nil]. *)
Inductive Callback := StartupCallback | QueuedCallback | DisconnectedCallback | ConnectedCallback.

Record Directive := mkDirective {
  dir_Type : UIType;
  dir_Callback : option Callback;
}.

Definition zero_directive : Directive := mkDirective UINone None.

(** ** manager.go *)

(** [ui_sent] are the directives sent so far; [ui_open] holds until the channel
    is closed and set to nil. *)
Record Manager := mkManager {
  ui_running : bool;
  ui_primed : bool;
  ui_current : UIType;
  ui_open : bool;
  ui_state : State;
  ui_sent : list Directive;
}.

Definition ui_New : Manager := mkManager false false UINone true zero_state [].

Definition ui_send (d : Directive) (m : Manager) : Manager :=
  mkManager (ui_running m) (ui_primed m) (dir_Type d) (ui_open m) (ui_state m) (ui_sent m ++ [d]).

Definition ui_Change (t : UIType) (callback : option Callback) (m : Manager) : Manager :=
  if negb (ui_open m) then m
  else if decide (ui_current m <> t) then ui_send (mkDirective t callback) m
  else m.

Definition ui_CompareAndChange (from to : UIType) (callback : option Callback) (m : Manager) : Manager :=
  if decide (from = to) then m
  else if negb (ui_open m) then m
  else if decide (ui_current m = from) then ui_send (mkDirective to callback) m
  else m.

Definition ui_Update (state : State) (m : Manager) : Manager :=
  mkManager (ui_running m) true (ui_current m) (ui_open m) state (ui_sent m).

Definition ui_start (m : Manager) : outcome Manager :=
  if ui_running m then Panic "The lease user interface manager is already running"
  else Ret (mkManager true (ui_primed m) (ui_current m) (ui_open m) (ui_state m) (ui_sent m)).

Definition ui_stop (m : Manager) : outcome Manager :=
  if negb (ui_open m) then Panic "The lease user interface manager has already been stopped"
  else Ret (mkManager (ui_running m) true (ui_current m) false (ui_state m) (ui_sent m)).

(** How the wait of one turn of the loop of [Run] ends: the dialog ended by
    itself, a directive was received, or the channel was closed. *)
Inductive UIEvent :=
| DialogEnded
| DirectiveReceived (d : Directive)
| ChannelClosed.

(** The directive of the next turn, [None] when [Run] returns. *)
Definition ui_loop (err : option error) (e : UIEvent) : option error * option Directive :=
  match err with
  | Some err => (Some err, None)
  | None =>
      match e with
      | DialogEnded => (None, Some zero_directive)
      | DirectiveReceived d => (None, Some d)
      | ChannelClosed => (None, None)
      end
  end.

(** ** Reachable managers *)

Inductive ui_step : Manager -> outcome Manager -> Prop :=
| ui_step_start m : ui_running m = false -> ui_step m (ui_start m)
| ui_step_stop m : ui_running m = true -> ui_open m = true -> ui_step m (ui_stop m)
| ui_step_Change m t cb : ui_step m (Ret (ui_Change t cb m))
| ui_step_CompareAndChange m from to cb : ui_step m (Ret (ui_CompareAndChange from to cb m))
| ui_step_Update m s : ui_step m (Ret (ui_Update s m)).

Inductive ui_reachable : outcome Manager -> Prop :=
| ui_reach_New : ui_reachable (Ret ui_New)
| ui_reach_step m o : ui_reachable (Ret m) -> ui_step m o -> ui_reachable o.

(** ** The invariant *)

(** Each directive changes the type of the interface. *)
Fixpoint changes (t : UIType) (l : list Directive) : Prop :=
  match l with
  | [] => True
  | d :: l => dir_Type d <> t /\ changes (dir_Type d) l
  end.

Definition last_type (l : list Directive) : UIType :=
  from_option dir_Type UINone (last l).

Record ui_inv (m : Manager) : Prop := {
  ui_inv_current : ui_current m = last_type (ui_sent m);
  ui_inv_changes : changes UINone (ui_sent m);
}.

Lemma changes_snoc t l d :
  changes t l -> dir_Type d <> from_option dir_Type t (last l) -> changes t (l ++ [d]).
Proof.
  revert t. induction l as [|x l IH]; intros t; [done|].
  rewrite last_cons. cbn [changes app]. intros [Hx Hl] Hd. split; [done|]. apply IH; [done|]. by destruct (last l).
Qed.

Lemma ui_send_inv d m : ui_inv m -> dir_Type d <> ui_current m -> ui_inv (ui_send d m).
Proof.
  intros [Hc Hch] Hd. split; cbn.
  - unfold last_type. by rewrite last_snoc.
  - apply changes_snoc; [done|]. rewrite Hc in Hd. exact Hd.
Qed.

Lemma ui_step_inv m o : ui_step m o -> ui_inv m -> exists m', o = Ret m' /\ ui_inv m'.
Proof.
  intros Hs Hinv. pose proof Hinv as [Hc Hch].
  destruct Hs as [m Hr|m Hr Ho|m t cb|m from to cb|m s].
  - unfold ui_start. rewrite Hr. eexists. split; [done|]. by split.
  - unfold ui_stop. rewrite Ho. eexists. split; [done|]. by split.
  - eexists. split; [done|]. unfold ui_Change. destruct (ui_open m); [|done]. cbn.
    case_decide; [|done]. by apply ui_send_inv.
  - eexists. split; [done|]. unfold ui_CompareAndChange. case_decide as Hne; [done|].
    destruct (ui_open m); [|done]. cbn. case_decide as Hf; [|done]. apply ui_send_inv; [done|]. cbn. congruence.
  - eexists. split; [done|]. by split.
Qed.

(** What each operation sends, given where the manager is. *)
Lemma ui_Change_current t cb m : ui_open m = true -> ui_current (ui_Change t cb m) = t.
Proof. intros Ho. unfold ui_Change. rewrite Ho. cbn. by case_decide. Qed.

(** ** The property *)

(** Directives.  The manager never panics when [Run] is called once; its
    current type is that of the last directive it sent, every directive changes
    the type, and a stopped manager sends nothing. *)
Lemma ui_directives o :
  ui_reachable o ->
  exists m, o = Ret m
    /\ ui_current m = last_type (ui_sent m)
    /\ changes UINone (ui_sent m)
    /\ (ui_open m = false -> forall m', ui_step m (Ret m') -> ui_sent m' = ui_sent m)
    /\ (ui_open m = true -> forall t cb, ui_current (ui_Change t cb m) = t).
Proof.
  intros Hr. assert (H : exists m, o = Ret m /\ ui_inv m).
  { induction Hr as [|m o _ (m0 & [= <-] & Hinv) Hs]; [by exists ui_New|by eapply ui_step_inv]. }
  destruct H as (m & -> & [Hc Hch]). exists m. split_and!; try done.
  - intros Ho m' Hs. inversion Hs as [? Hrun|? ? Hop|? t cb|? from to cb|? s]; subst; cbn in *.
    + match goal with H : ui_start _ = _ |- _ => revert H end. unfold ui_start. destruct (ui_running m); [done|].
      by intros [= <-].
    + congruence.
    + unfold ui_Change. by rewrite Ho.
    + unfold ui_CompareAndChange. rewrite Ho. cbn. by case_decide.
    + done.
  - intros Ho t cb. by apply ui_Change_current.
Qed.

Lemma ui_directives_witness :
  exists m, ui_CompareAndChange Startup UINone None (ui_Change Startup (Some StartupCallback) ui_New) = m
    /\ ui_current m = last_type (ui_sent m) /\ length (ui_sent m) = 2.
Proof.
  eexists. split; [reflexivity|].
  destruct (ui_directives (Ret (ui_CompareAndChange Startup UINone None
    (ui_Change Startup (Some StartupCallback) ui_New)))) as (m & [= <-] & Hc & _).
  - eapply ui_reach_step; [eapply ui_reach_step; [apply ui_reach_New|apply ui_step_Change]|].
    apply ui_step_CompareAndChange.
  - split; [exact Hc|reflexivity].
Defined.
