(* ===== verification/LeaseUIRun.v ===== *)
(** * The goroutines of the lease user interface

    [Manager.Run] of lease/leaseui/manager.go with the goroutine that receives
    one directive per turn, the callers of [Change] and [CompareAndChange], who
    hold the mutex while they wait for their directive to be received, and
    [stop].  A directive is never lost, repeated or overtaken; but one turn
    receives only one, and the dialogs lock the mutex, so that a second change
    in the same turn can leave all of them waiting for each other. *)

From S2P Require Import Prelude LeaseUI.

(** ** The state *)

(** Where [Run] is: in the select of [run], about to lock the mutex for the
    model of its dialog, creating the dialog, showing it (or waiting, without
    one), calling the callback, sending in the callback, waiting for the receiver after the
    turn, or returned. *)
Inductive UIPhase :=
| Selecting (d : Directive)
| Locking (d : Directive)
| Creating (d : Directive)
| Showing (d : Directive)
| Calling (d : Directive) (r : UIResult)
| CallbackSends (d : Directive)
| TurnEnds (err : option error)
| RunReturned (err : option error).

(** The goroutine that receives: it waits, has received a directive, has found
    the channel closed, or was cancelled. *)
Inductive UIReceiver :=
| Receiving
| ReceivedNext (d : Directive)
| ReceivedClosed
| ReceivedDefault.

(** [run_lock] is the directive of the caller that holds the mutex and sends,
    [run_uidone] whether the context of the turn is cancelled, and [run_ctxdone]
    that of [Run].  Histories, which the source does not keep: the directives
    sent and received, and those of the turns so far, [None] for the default. *)
Record UIRun := mkUIRun {
  run_primed : bool;
  run_current : UIType;
  run_open : bool;
  run_lock : option Directive;
  run_phase : UIPhase;
  run_recv : UIReceiver;
  run_uidone : bool;
  run_ctxdone : bool;
  run_sent : list Directive;
  run_taken : list Directive;
  run_turns : list (option Directive);
}.

Definition set_run_phase (p : UIPhase) (s : UIRun) : UIRun :=
  mkUIRun (run_primed s) (run_current s) (run_open s) (run_lock s) p (run_recv s) (run_uidone s)
    (run_ctxdone s) (run_sent s) (run_taken s) (run_turns s).
Definition set_run_recv (r : UIReceiver) (done : bool) (s : UIRun) : UIRun :=
  mkUIRun (run_primed s) (run_current s) (run_open s) (run_lock s) (run_phase s) r done
    (run_ctxdone s) (run_sent s) (run_taken s) (run_turns s).
Definition set_run_ctxdone (s : UIRun) : UIRun :=
  mkUIRun (run_primed s) (run_current s) (run_open s) (run_lock s) (run_phase s) (run_recv s) (run_uidone s)
    true (run_sent s) (run_taken s) (run_turns s).
Definition set_run_primed (s : UIRun) : UIRun :=
  mkUIRun true (run_current s) (run_open s) (run_lock s) (run_phase s) (run_recv s) (run_uidone s)
    (run_ctxdone s) (run_sent s) (run_taken s) (run_turns s).

(** The state when [Run] has called [start]. *)
Definition run_init (primed : bool) : UIRun :=
  mkUIRun primed UINone true None (Selecting zero_directive) Receiving false false [] [] [None].

(** ** Operations *)

(** The mutex is locked and the directive is about to be sent. *)
Definition begin_send (d : Directive) (s : UIRun) : UIRun :=
  mkUIRun (run_primed s) (dir_Type d) (run_open s) (Some d) (run_phase s) (run_recv s) (run_uidone s)
    (run_ctxdone s) (run_sent s ++ [d]) (run_taken s) (run_turns s).

(** [Change] and [CompareAndChange], up to the send, by a caller that has
    locked the mutex. *)
Definition run_Change (t : UIType) (cb : option Callback) (s : UIRun) : UIRun :=
  if negb (run_open s) then s
  else if decide (run_current s <> t) then begin_send (mkDirective t cb) s else s.

Definition run_CompareAndChange (from to : UIType) (cb : option Callback) (s : UIRun) : UIRun :=
  if decide (from = to) then s
  else if negb (run_open s) then s
  else if decide (run_current s = from) then begin_send (mkDirective to cb) s else s.

(** The send and the receive, the return of the sender, which unlocks, and the
    cancellation of the turn by the receiver. *)
Definition hand_over (d : Directive) (s : UIRun) : UIRun :=
  mkUIRun (run_primed s) (run_current s) (run_open s) None
    (match run_phase s with CallbackSends _ => TurnEnds None | p => p end)
    (ReceivedNext d) true (run_ctxdone s) (run_sent s) (run_taken s ++ [d]) (run_turns s).

(** [stop] closes the channel and primes the manager. *)
Definition run_stop (s : UIRun) : UIRun :=
  mkUIRun true (run_current s) false (run_lock s) (run_phase s) (run_recv s) (run_uidone s)
    (run_ctxdone s) (run_sent s) (run_taken s) (run_turns s).

(** The end of a turn cancels its context. *)
Definition end_turn (err : option error) (s : UIRun) : UIRun :=
  set_run_recv (run_recv s) true (set_run_phase (TurnEnds err) s).

(** The next turn, with a new context and a new receiver. *)
Definition next_turn (d : option Directive) (s : UIRun) : UIRun :=
  mkUIRun (run_primed s) (run_current s) (run_open s) (run_lock s)
    (Selecting (default zero_directive d)) Receiving false
    (run_ctxdone s) (run_sent s) (run_taken s) (run_turns s ++ [d]).

(** The send that a callback makes, if any, and what follows when it makes none. *)
Definition callback_changes (cb : Callback) (s : UIRun) : UIRun :=
  match cb with
  | StartupCallback | QueuedCallback => s
  | DisconnectedCallback => run_CompareAndChange Disconnected UINone None s
  | ConnectedCallback => run_CompareAndChange Connected UINone None s
  end.

Definition run_callback (d : Directive) (s : UIRun) : UIRun :=
  match dir_Callback d with
  | None | Some StartupCallback | Some QueuedCallback => end_turn None s
  | Some cb =>
      let s := callback_changes cb s in
      match run_lock s with
      | Some _ => set_run_phase (CallbackSends d) s
      | None => end_turn None s
      end
  end.

(** Whether the callback of the directive locks the mutex. *)
Definition callback_locks (d : Directive) : bool :=
  match dir_Callback d with
  | Some DisconnectedCallback | Some ConnectedCallback => true
  | _ => false
  end.

(** ** What can happen *)

(** The steps of the goroutines of [Run] that call nothing. *)
Inductive run_own : UIRun -> UIRun -> Prop :=
(* the goroutine that stops the manager *)
| rs_stop s : run_ctxdone s = true -> run_open s = true -> run_lock s = None -> run_own s (run_stop s)
(* the receiver *)
| rs_hand d s : run_lock s = Some d -> run_recv s = Receiving -> run_own s (hand_over d s)
| rs_closed s : run_open s = false -> run_recv s = Receiving -> run_own s (set_run_recv ReceivedClosed true s)
| rs_default s : run_uidone s = true -> run_recv s = Receiving -> run_own s (set_run_recv ReceivedDefault true s)
(* Run *)
| rs_select_done d s : run_phase s = Selecting d -> run_uidone s = true -> run_own s (end_turn None s)
| rs_select_ready d s : run_phase s = Selecting d -> run_primed s = true -> run_own s (set_run_phase (Locking d) s)
| rs_lock d s : run_phase s = Locking d -> run_lock s = None -> run_own s (set_run_phase (Creating d) s)
| rs_create d err s :
    run_phase s = Creating d -> dir_Type d <> UINone -> run_own s (end_turn (Some err) s)
| rs_show d s : run_phase s = Creating d -> run_own s (set_run_phase (Showing d) s)
| rs_wait d s :
    run_phase s = Showing d -> dir_Type d = UINone -> run_uidone s = true ->
    run_own s (set_run_phase (Calling d Success) s)
| rs_dialog d r s :
    run_phase s = Showing d -> dir_Type d <> UINone -> r = UserCancelled \/ r = UserClosed \/ r = Success ->
    run_own s (set_run_phase (Calling d r) s)
| rs_dialog_done d s :
    run_phase s = Showing d -> dir_Type d <> UINone -> run_uidone s = true ->
    run_own s (set_run_phase (Calling d ContextCancelled) s)
| rs_call_none d r s :
    run_phase s = Calling d r -> dir_Callback d = None -> run_own s (end_turn None s)
| rs_end_error err s :
    run_phase s = TurnEnds (Some err) -> run_recv s <> Receiving ->
    run_own s (set_run_phase (RunReturned (Some err)) s)
| rs_end_closed s :
    run_phase s = TurnEnds None -> run_recv s = ReceivedClosed ->
    run_own s (set_run_phase (RunReturned None) s)
| rs_end_next d s :
    run_phase s = TurnEnds None -> run_recv s = ReceivedNext d -> run_own s (next_turn (Some d) s)
| rs_end_default s :
    run_phase s = TurnEnds None -> run_recv s = ReceivedDefault -> run_own s (next_turn None s).

(** Their steps with the calls of callbacks. *)
Inductive run_move : UIRun -> UIRun -> Prop :=
| rm_own s s' : run_own s s' -> run_move s s'
| rm_call d cb r s :
    run_phase s = Calling d r -> dir_Callback d = Some cb -> (callback_locks d = true -> run_lock s = None) ->
    run_move s (run_callback d s).

(** All of them with the callers. *)
Inductive run_step : UIRun -> UIRun -> Prop :=
| rs_Change t cb s : run_lock s = None -> run_step s (run_Change t cb s)
| rs_CompareAndChange from to cb s : run_lock s = None -> run_step s (run_CompareAndChange from to cb s)
| rs_Update s : run_lock s = None -> run_step s (set_run_primed s)
| rs_cancel s : run_step s (set_run_ctxdone s)
| rs_move s s' : run_move s s' -> run_step s s'.

Definition run_reachable (s : UIRun) : Prop := exists primed, rtc run_step (run_init primed) s.

(** ** The invariant *)

Definition in_hand (r : UIReceiver) : list Directive :=
  match r with ReceivedNext d => [d] | _ => [] end.

Record run_inv (s : UIRun) : Prop := {
  ri_sent : run_sent s = run_taken s ++ option_list (run_lock s);
  ri_taken : run_taken s = omap id (run_turns s) ++ in_hand (run_recv s);
  ri_changes : changes UINone (run_sent s) /\ run_current s = last_type (run_sent s);
  ri_received : run_recv s <> Receiving -> run_uidone s = true;
  ri_closed : run_recv s = ReceivedClosed -> run_open s = false;
  ri_locked : is_Some (run_lock s) -> run_open s = true;
  ri_stopped : run_open s = false -> run_primed s = true;
  ri_sends d : run_phase s = CallbackSends d -> is_Some (run_lock s);
}.

Lemma run_inv_init primed : run_inv (run_init primed).
Proof. by split. Qed.

Lemma begin_send_inv d s :
  run_inv s -> run_lock s = None -> run_open s = true -> run_current s <> dir_Type d -> run_inv (begin_send d s).
Proof.
  intros [H1 H2 [H3 H3'] H4 H5 H6 H7 H8] Hl Ho Hd. rewrite Hl, app_nil_r in H1. split; cbn; try done.
  - by rewrite H1.
  - split; [|unfold last_type; by rewrite last_snoc]. apply changes_snoc; [done|].
    rewrite H3' in Hd. unfold last_type in Hd. congruence.
Qed.

Lemma run_CompareAndChange_inv from to cb s :
  run_inv s -> run_lock s = None -> run_inv (run_CompareAndChange from to cb s).
Proof.
  intros Hinv Hl. unfold run_CompareAndChange. case_decide; [done|].
  destruct (run_open s) eqn:Ho; [|done]. cbn. case_decide; [|done].
  apply begin_send_inv; try done. cbn. congruence.
Qed.

Lemma set_phase_inv p s :
  run_inv s -> (forall d, p = CallbackSends d -> is_Some (run_lock s)) -> run_inv (set_run_phase p s).
Proof. intros [] Hp. by split. Qed.

Lemma end_turn_inv err s : run_inv s -> run_inv (end_turn err s).
Proof. intros []. by split. Qed.

Lemma callback_changes_inv cb s :
  run_inv s -> (callback_locks (mkDirective UINone (Some cb)) = true -> run_lock s = None) ->
  run_inv (callback_changes cb s).
Proof. intros Hinv Hl. destruct cb; cbn in *; try done; by apply run_CompareAndChange_inv, Hl. Qed.

Lemma next_turn_inv d s :
  run_inv s -> in_hand (run_recv s) = option_list d -> run_inv (next_turn d s).
Proof.
  intros [H1 H2 H3 H4 H5 H6 H7 H8] Hd. split; cbn; try done.
  rewrite H2, Hd, omap_app, app_nil_r. by destruct d.
Qed.

Lemma run_own_inv s s' : run_own s s' -> run_inv s -> run_inv s'.
Proof.
  intros Hs Hinv. pose proof Hinv as [H1 H2 H3 H4 H5 H6 H7 H8].
  destruct Hs as [s Hc Ho Hl|d s Hl Hr|s Ho Hr|s Hd Hr|d s Hp Hd|d s Hp Hpr|d s Hp Hl
    |d err s Hp Ht|d s Hp|d s Hp Ht Hd|d r s Hp Ht Hr|d s Hp Ht Hd|d r s Hp Hc|err s Hp Hr|s Hp Hr|d s Hp Hr|s Hp Hr];
    try (apply set_phase_inv; [done|by intros]); try (by apply end_turn_inv).
  - split; cbn; try done. rewrite Hl. by intros [].
  - rewrite Hl in H1. split; cbn; try done.
    + by rewrite app_nil_r.
    + by rewrite H2, Hr, app_nil_r.
    + intros d' He. by destruct (run_phase s).
  - split; cbn; try done. by rewrite H2, Hr.
  - split; cbn; try done. by rewrite H2, Hr.
  - apply next_turn_inv; [done|by rewrite Hr].
  - apply next_turn_inv; [done|by rewrite Hr].
Qed.

Lemma run_callback_inv d s :
  run_inv s -> (callback_locks d = true -> run_lock s = None) -> run_inv (run_callback d s).
Proof.
  intros Hinv Hl.
  assert (Hcb : forall cb, run_lock s = None -> run_inv (match run_lock (callback_changes cb s) with
    | Some _ => set_run_phase (CallbackSends d) (callback_changes cb s)
    | None => end_turn None (callback_changes cb s) end)).
  { intros cb Hlk. assert (Hi : run_inv (callback_changes cb s)) by (by apply callback_changes_inv).
    destruct (run_lock (callback_changes cb s)) eqn:Hl'; [|by apply end_turn_inv].
    apply set_phase_inv; [done|]. intros _ _. by rewrite Hl'. }
  unfold run_callback, callback_locks in *.
  destruct (dir_Callback d) as [[]|]; try (by apply end_turn_inv); by apply Hcb, Hl.
Qed.

Lemma run_move_inv s s' : run_move s s' -> run_inv s -> run_inv s'.
Proof. destruct 1 as [s s' Hs|d cb r s Hp Hc Hl]; [by apply run_own_inv|]. intros Hinv. by apply run_callback_inv. Qed.

Lemma run_step_inv s s' : run_step s s' -> run_inv s -> run_inv s'.
Proof.
  intros Hs Hinv. pose proof Hinv as [H1 H2 H3 H4 H5 H6 H7 H8].
  destruct Hs as [t cb s Hl|from to cb s Hl|s Hl|s|s s' Hm].
  - unfold run_Change. destruct (run_open s) eqn:Ho; [|done]. cbn. case_decide; [|done].
    by apply begin_send_inv.
  - by apply run_CompareAndChange_inv.
  - by split.
  - by split.
  - by eapply run_move_inv.
Qed.

Lemma run_reachable_inv s : run_reachable s -> run_inv s.
Proof.
  intros [primed Hr]. pose proof (run_inv_init primed) as Hi. induction Hr as [|s1 s2 s3 H12 _ IH]; [done|].
  apply IH. by eapply run_step_inv.
Qed.

(** ** Deadlocks *)

(** [Run] needs the mutex, which a caller holds until its directive is received,
    and the receiver of the turn has already received one. *)
Definition needs_lock (p : UIPhase) : Prop :=
  match p with
  | Locking _ | CallbackSends _ => True
  | Creating d => dir_Type d = UINone /\ callback_locks d = true
  | Showing d | Calling d _ => callback_locks d = true
  | _ => False
  end.

Definition deadlocked (s : UIRun) : Prop :=
  is_Some (run_lock s) /\ run_recv s <> Receiving /\ needs_lock (run_phase s).

#[export] Instance needs_lock_dec p : Decision (needs_lock p).
Proof. destruct p; cbn; apply _. Defined.
#[export] Instance receiving_dec r : Decision (r = Receiving).
Proof. destruct r; [by left|right; discriminate..]. Defined.
#[export] Instance deadlocked_dec s : Decision (deadlocked s).
Proof. unfold deadlocked. apply _. Defined.

Lemma deadlocked_own s s' : run_own s s' -> deadlocked s -> deadlocked s'.
Proof.
  intros Hs ([d0 Hl0] & Hr0 & Hn).
  destruct Hs as [s Hc Ho Hl|d s Hl Hr|s Ho Hr|s Hd Hr|d s Hp Hd|d s Hp Hpr|d s Hp Hl
    |d err s Hp Ht|d s Hp|d s Hp Ht Hd|d r s Hp Ht Hr|d s Hp Ht Hd|d r s Hp Hc|err s Hp Hr|s Hp Hr|d s Hp Hr|s Hp Hr];
    try congruence; try (rewrite Hp in Hn; try done); try (by split_and!; [eexists| |]).
  - by destruct Hn.
  - split_and!; [by eexists|done|by destruct Hn].
  - exfalso. cbn in Hn. unfold callback_locks in Hn. by rewrite Hc in Hn.
Qed.

Lemma deadlocked_step s s' : run_step s s' -> deadlocked s -> deadlocked s'.
Proof.
  intros Hs Hd. pose proof Hd as ([d0 Hl0] & Hr0 & Hn).
  destruct Hs as [t cb s Hl|from to cb s Hl|s Hl|s|s s' [s1 s2 Hm|d cb r s1 Hp Hc Hl]]; try congruence;
    try (by split_and!; [eexists| |]).
  - by eapply deadlocked_own.
  - rewrite Hp in Hn. cbn in Hn. by rewrite Hl in Hl0.
Qed.

Lemma deadlocked_forever s s' : rtc run_step s s' -> deadlocked s -> deadlocked s'.
Proof. induction 1 as [|s1 s2 s3 H12 _ IH]; [done|]. intros Hd. by eapply IH, deadlocked_step. Qed.

Lemma deadlocked_not_returned s err : deadlocked s -> run_phase s <> RunReturned err.
Proof. intros (_ & _ & Hn) He. by rewrite He in Hn. Qed.

(** ** Progress *)

(** [Run] can return by steps of [R]. *)
Definition ends_by (R : UIRun -> UIRun -> Prop) (s : UIRun) : Prop :=
  exists s' err, rtc R s s' /\ run_phase s' = RunReturned err.
Definition returns : UIRun -> Prop := ends_by run_step.
Definition moves_return : UIRun -> Prop := ends_by run_move.

Lemma ends_by_step (R : UIRun -> UIRun -> Prop) s s' : R s s' -> ends_by R s' -> ends_by R s.
Proof. intros Hs (s'' & err & Hr & Hp). exists s'', err. split; [by eapply rtc_l|done]. Qed.

Lemma ends_by_done (R : UIRun -> UIRun -> Prop) s err : run_phase s = RunReturned err -> ends_by R s.
Proof. intros Hp. exists s, err. by split. Qed.

Lemma ends_by_mono (R R' : UIRun -> UIRun -> Prop) s :
  (forall s s', R s s' -> R' s s') -> ends_by R s -> ends_by R' s.
Proof. intros HR (s' & err & Hr & Hp). exists s', err. split; [|done]. by eapply rtc_subrel. Qed.

Lemma own_returns s s' : run_own s s' -> moves_return s' -> moves_return s.
Proof. intros Hs. by apply ends_by_step, rm_own. Qed.
Lemma own_step_returns s s' : run_own s s' -> returns s' -> returns s.
Proof. intros Hs. by apply ends_by_step, rs_move, rm_own. Qed.

(** The call of a callback, or of none. *)
Lemma call_move d r s :
  run_phase s = Calling d r -> (callback_locks d = true -> run_lock s = None) -> run_move s (run_callback d s).
Proof.
  intros Hp Hl. destruct (dir_Callback d) as [cb|] eqn:Hc; [by eapply rm_call|].
  assert (Hs : run_callback d s = end_turn None s) by (unfold run_callback; by rewrite Hc).
  rewrite Hs. apply rm_own. by eapply rs_call_none.
Qed.
Lemma call_returns d r s :
  run_phase s = Calling d r -> (callback_locks d = true -> run_lock s = None) ->
  moves_return (run_callback d s) -> moves_return s.
Proof. intros Hp Hl. by eapply ends_by_step, call_move. Qed.

(** The manager has been stopped and nobody holds the mutex. *)
Definition stopped (s : UIRun) : Prop := run_open s = false /\ run_lock s = None /\ run_primed s = true.

Lemma stopped_selecting_returns d s :
  stopped s -> run_phase s = Selecting d -> run_recv s = Receiving -> moves_return s.
Proof.
  intros (Ho & Hl & Hpr) Hp Hr. eapply own_returns; [by apply rs_closed|].
  eapply own_returns; [by eapply rs_select_done|].
  eapply own_returns; [by apply rs_end_closed|]. by eapply ends_by_done.
Qed.

Lemma stopped_ends_returns err s : stopped s -> run_phase s = TurnEnds err -> moves_return s.
Proof.
  intros (Ho & Hl & Hpr) Hp.
  assert (Hdone : forall s, run_phase s = TurnEnds err -> run_recv s = ReceivedClosed -> moves_return s).
  { intros s0 Hp0 Hr0. destruct err as [err|].
    - eapply own_returns; [apply (rs_end_error err); [done|by rewrite Hr0]|]. by eapply ends_by_done.
    - eapply own_returns; [by apply rs_end_closed|]. by eapply ends_by_done. }
  destruct (run_recv s) as [|d| |] eqn:Hr.
  - eapply own_returns; [by apply rs_closed|]. by apply Hdone.
  - destruct err as [err|].
    + eapply own_returns; [apply (rs_end_error err); [done|by rewrite Hr]|]. by eapply ends_by_done.
    + eapply own_returns; [by eapply rs_end_next|]. by eapply (stopped_selecting_returns d).
  - by apply Hdone.
  - destruct err as [err|].
    + eapply own_returns; [apply (rs_end_error err); [done|by rewrite Hr]|]. by eapply ends_by_done.
    + eapply own_returns; [by eapply rs_end_default|]. by eapply (stopped_selecting_returns zero_directive).
Qed.

(** A callback sends nothing once the channel is closed. *)
Lemma stopped_callback d s : stopped s -> run_callback d s = end_turn None s.
Proof.
  intros (Ho & Hl & _). unfold run_callback, callback_changes, run_CompareAndChange.
  destruct (dir_Callback d) as [[]|]; try done; by rewrite decide_False, Ho; cbn; rewrite ?Hl.
Qed.

Lemma stopped_calling_returns d r s : stopped s -> run_phase s = Calling d r -> moves_return s.
Proof.
  intros Hst Hp. pose proof Hst as (Ho & Hl & _). apply (call_returns d r s Hp); [done|].
  rewrite (stopped_callback d s Hst). by eapply stopped_ends_returns.
Qed.

Lemma stopped_showing_returns d s :
  stopped s -> run_phase s = Showing d -> (run_recv s <> Receiving -> run_uidone s = true) -> moves_return s.
Proof.
  intros Hst Hp Hd. destruct (decide (dir_Type d = UINone)) as [Ht|Ht].
  - assert (Hdone : forall s, stopped s -> run_phase s = Showing d -> run_uidone s = true -> moves_return s).
    { intros s0 Hst0 Hp0 Hd0. eapply own_returns; [by eapply rs_wait|]. by eapply stopped_calling_returns. }
    destruct (run_recv s) eqn:Hr; try (by apply Hdone, Hd).
    pose proof Hst as (Ho & _ & _). eapply own_returns; [by apply rs_closed|]. by apply Hdone.
  - eapply own_returns; [apply (rs_dialog d Success); auto|]. by eapply stopped_calling_returns.
Qed.

Lemma stopped_returns s : run_inv s -> stopped s -> moves_return s.
Proof.
  intros Hinv Hst. pose proof Hst as (Ho & Hl & Hpr). pose proof (ri_received _ Hinv) as Hdone.
  destruct (run_phase s) as [d|d|d|d|d r|d|err|err] eqn:Hp.
  - destruct (run_recv s) eqn:Hr; [by eapply stopped_selecting_returns|..];
      (eapply own_returns; [by eapply rs_select_done; [|apply Hdone]|]); by eapply stopped_ends_returns.
  - eapply own_returns; [by eapply rs_lock|]. eapply own_returns; [by eapply rs_show|].
    by eapply stopped_showing_returns.
  - eapply own_returns; [by eapply rs_show|]. by eapply stopped_showing_returns.
  - by eapply stopped_showing_returns.
  - by eapply stopped_calling_returns.
  - destruct (ri_sends _ Hinv d Hp) as [? H]. congruence.
  - by eapply stopped_ends_returns.
  - by eapply ends_by_done.
Qed.

Lemma stopped_step_returns s : run_inv s -> stopped s -> returns s.
Proof. intros Hinv Hst. eapply ends_by_mono; [apply rs_move|]. by apply stopped_returns. Qed.

(** As soon as the mutex is free, the manager can be stopped. *)
Lemma unlocked_returns s : run_inv s -> run_lock s = None -> returns s.
Proof.
  intros Hinv Hl. pose proof (rs_cancel s) as Hc. pose proof (run_step_inv _ _ Hc Hinv) as Hinv1.
  eapply ends_by_step; [exact Hc|]. destruct (run_open s) eqn:Ho.
  - assert (Hs : run_own (set_run_ctxdone s) (run_stop (set_run_ctxdone s))) by (by apply rs_stop).
    eapply own_step_returns; [exact Hs|]. apply stopped_step_returns; [by eapply run_own_inv|done].
  - apply stopped_step_returns; [done|]. split; [done|]. split; [done|]. by apply (ri_stopped _ Hinv).
Qed.

Lemma receiving_returns s : run_inv s -> run_recv s = Receiving -> returns s.
Proof.
  intros Hinv Hr. destruct (run_lock s) as [d|] eqn:Hl; [|by apply unlocked_returns].
  assert (Hs : run_own s (hand_over d s)) by (by apply rs_hand). eapply own_step_returns; [exact Hs|].
  apply unlocked_returns; [by eapply run_own_inv|done].
Qed.

Lemma ends_returns err s : run_inv s -> run_phase s = TurnEnds err -> returns s.
Proof.
  intros Hinv Hp. destruct (run_recv s) as [|d| |] eqn:Hr; [by apply receiving_returns|..].
  all: destruct err as [err|];
    [eapply own_step_returns; [apply (rs_end_error err); [done|by rewrite Hr]|]; by eapply ends_by_done|].
  - assert (Hs : run_own s (next_turn (Some d) s)) by (by apply rs_end_next). eapply own_step_returns; [exact Hs|].
    apply receiving_returns; [by eapply run_own_inv|done].
  - eapply own_step_returns; [by apply rs_end_closed|]. by eapply ends_by_done.
  - assert (Hs : run_own s (next_turn None s)) by (by apply rs_end_default). eapply own_step_returns; [exact Hs|].
    apply receiving_returns; [by eapply run_own_inv|done].
Qed.

Lemma quiet_calling_returns d r s :
  run_inv s -> run_phase s = Calling d r -> callback_locks d = false -> returns s.
Proof.
  intros Hinv Hp Hc. assert (Hs : run_move s (run_callback d s)) by (eapply call_move; [done|by rewrite Hc]).
  eapply ends_by_step; [exact (rs_move _ _ Hs)|]. assert (He : run_callback d s = end_turn None s).
  { unfold run_callback, callback_locks in *. by destruct (dir_Callback d) as [[]|]. }
  apply (ends_returns None); [by eapply run_move_inv|by rewrite He].
Qed.

Lemma quiet_showing_returns d s :
  run_inv s -> run_phase s = Showing d -> run_uidone s = true -> callback_locks d = false -> returns s.
Proof.
  intros Hinv Hp Hd Hc. destruct (decide (dir_Type d = UINone)) as [Ht|Ht].
  - assert (Hs : run_own s (set_run_phase (Calling d Success) s)) by (by apply rs_wait).
    eapply own_step_returns; [exact Hs|]. eapply (quiet_calling_returns d); [by eapply run_own_inv|done|done].
  - assert (Hs : run_own s (set_run_phase (Calling d ContextCancelled) s)) by (by apply rs_dialog_done).
    eapply own_step_returns; [exact Hs|]. eapply (quiet_calling_returns d); [by eapply run_own_inv|done|done].
Qed.

(** Unless it is in a deadlock, the manager can return. *)
Lemma live_returns s : run_inv s -> ~ deadlocked s -> returns s.
Proof.
  intros Hinv Hn. destruct (run_lock s) as [d0|] eqn:Hl; [|by apply unlocked_returns].
  destruct (decide (run_recv s = Receiving)) as [Hr|Hr]; [by apply receiving_returns|].
  pose proof (ri_received _ Hinv Hr) as Hdone.
  assert (Hno : ~ needs_lock (run_phase s)) by (intros H; by apply Hn; split_and!; [rewrite Hl; eexists|..]).
  assert (Hstep : forall s1, run_own s s1 -> (run_inv s1 -> returns s1) -> returns s).
  { intros s1 Hs H. eapply own_step_returns; [exact Hs|]. apply H. by eapply run_own_inv. }
  destruct (run_phase s) as [d|d|d|d|d r|d|err|err] eqn:Hp; cbn in Hno.
  - apply (Hstep (end_turn None s)); [by eapply rs_select_done|]. intros Hi. by apply (ends_returns None).
  - done.
  - destruct (decide (dir_Type d = UINone)) as [Ht|Ht].
    + apply (Hstep (set_run_phase (Showing d) s)); [by apply rs_show|]. intros Hi.
      apply (quiet_showing_returns d); try done. apply not_true_iff_false. tauto.
    + apply (Hstep (end_turn (Some "") s)); [by eapply rs_create|]. intros Hi. by apply (ends_returns (Some "")).
  - apply (quiet_showing_returns d); try done. by apply not_true_iff_false.
  - apply (quiet_calling_returns d r); try done. by apply not_true_iff_false.
  - done.
  - by eapply ends_returns.
  - by eapply ends_by_done.
Qed.

(** ** The properties *)

(** C31. Directives and deadlocks.  In every reachable state of the goroutines
    of the manager, the directives sent are those of the turns, in order, with at
    most one that has been received for the next turn and one that a caller is
    sending; each changes the type of the interface.  And either [Run] can still
    return, or it is in a deadlock: it needs the mutex that a caller holds until
    its directive is received, in a turn that has received one already -- and it
    stays there. *)
Theorem ui_run_follows s :
  run_reachable s ->
  run_sent s = omap id (run_turns s) ++ in_hand (run_recv s) ++ option_list (run_lock s)
  /\ changes UINone (run_sent s) /\ run_current s = last_type (run_sent s)
  /\ (returns s
      \/ deadlocked s /\ forall s', rtc run_step s s' -> deadlocked s' /\ forall err, run_phase s' <> RunReturned err).
Proof.
  intros Hr. pose proof (run_reachable_inv _ Hr) as Hinv.
  split; [rewrite (ri_sent _ Hinv), (ri_taken _ Hinv); by rewrite (assoc_L (++))|].
  split; [apply Hinv|]. split; [apply Hinv|].
  destruct (decide (deadlocked s)) as [Hd|Hd]; [right|left; by apply live_returns]. split; [done|].
  intros s' Hs. pose proof (deadlocked_forever _ _ Hs Hd). split; [done|]. intros err. by apply deadlocked_not_returned.
Qed.

(** Two changes in the first turn of a manager that has been updated: the first
    is received while [Run] is about to lock the mutex, which the second holds. *)
Lemma ui_run_deadlocks : exists s, run_reachable s /\ deadlocked s.
Proof.
  eexists. split.
  - exists true. eapply rtc_l; [by apply (rs_Change Startup (Some StartupCallback))|].
    eapply rtc_l; [by eapply rs_move, rm_own, rs_hand|]. eapply rtc_l; [by eapply rs_move, rm_own, rs_select_ready|].
    eapply rtc_l; [by apply (rs_Change UIQueued (Some QueuedCallback))|]. apply rtc_refl.
  - cbn. by split_and!; [eexists| |].
Qed.

Lemma ui_run_follows_witness :
  let s := run_Change UIQueued (Some QueuedCallback) (hand_over (mkDirective Startup (Some StartupCallback))
             (run_Change Startup (Some StartupCallback) (run_init true))) in
  length (run_sent s) = 2
  /\ run_sent s = omap id (run_turns s) ++ in_hand (run_recv s) ++ option_list (run_lock s).
Proof.
  split; [reflexivity|]. refine (proj1 (ui_run_follows _ _)). exists true.
  eapply rtc_l; [by apply (rs_Change Startup (Some StartupCallback))|].
  eapply rtc_l; [by eapply rs_move, rm_own, rs_hand|]. eapply rtc_l; [by apply (rs_Change UIQueued (Some QueuedCallback))|].
  apply rtc_refl.
Defined.
