(* ===== verification/LeaseViews.v ===== *)
(** * The view models of the dialogs (lease/leaseui/queuedmodel_windows.go and
      connectionmodel_windows.go)

    What the dialogs show of the state of a lease.  Cells hold values whose
    text is left to the toolkit, and so are the events that the models publish,
    of which only the number is kept. *)

From S2P Require Import Prelude GoTime Lease LeaseSet Tx Refresh Policy Maintainer.

(** [Time.Round] to the second; instants before year 1 do not occur. *)
Definition Time_Round (t : Time) : Time :=
  let r := Z.modulo t Second in
  if decide (r + r < Second)%Z then (t - r)%Z else (t + (Second - r))%Z.

Record Config := mkConfig {
  cfg_Program : string;
  cfg_Instance : LeaseInstance;
}.

(** ** The queued dialog *)

(** A notification of the table: all rows, or one of them. *)
Inductive Publication := RowsReset | RowChanged (row : nat).

Record QueuedModel := mkQueuedModel {
  qm_config : Config;
  qm_state : State;
  qm_closed : bool;
  qm_published : list Publication;
}.

Definition qm_publish (l : list Publication) (m : QueuedModel) : QueuedModel :=
  mkQueuedModel (qm_config m) (qm_state m) (qm_closed m) (qm_published m ++ l).

Definition NewQueuedModel (config : Config) (state : State) : QueuedModel :=
  qm_publish [RowsReset] (mkQueuedModel config state false []).

Definition Consumed (m : QueuedModel) : outcome N :=
  let strat := ls_Strategy (state_Lease (qm_state m)) in
  let strat := if decide (Strategy_Valid strat = false \/ strat = Strategy_Empty) then DefaultStrategy else strat in
  Stats_Consumed (Set_Stats (state_Leases (qm_state m))) strat.

Definition shown_name (config : Config) (state : State) : string :=
  let name := Lease_ResourceName (state_Lease state) in
  if decide (name <> "") then name else cfg_Program config.

Definition QueuedModel_ResourceName (m : QueuedModel) : string := shown_name (qm_config m) (qm_state m).

Definition QueuedModel_Update (state : State) (m : QueuedModel) : QueuedModel :=
  let m := mkQueuedModel (qm_config m) state (qm_closed m) (qm_published m) in
  if qm_closed m then m else qm_publish [RowsReset] m.

Definition RowCount (m : QueuedModel) : nat := length (state_Leases (qm_state m)).

Definition QueuedModel_Refresh (m : QueuedModel) : QueuedModel :=
  if qm_closed m then m else qm_publish (RowChanged <$> seq 0 (RowCount m)) m.

Definition QueuedModel_Close (m : QueuedModel) : QueuedModel :=
  mkQueuedModel (qm_config m) (qm_state m) true (qm_published m).

(** A cell: nil, a status, a text or a duration. *)
Inductive Cell :=
| CellNil
| CellStatus (s : Status)
| CellText (s : string)
| CellDuration (d : Duration).

Definition property (key : string) (ls : Lease) : string := default "" (ls_Properties ls !! key).

Definition Value (now : Time) (row col : nat) (m : QueuedModel) : outcome Cell :=
  match state_Leases (qm_state m) !! row with
  | None => Panic "index out of range"
  | Some ls =>
      Ret match col with
          | 0 => CellStatus (ls_Status ls)
          | 1 => CellText (property "user.name" ls)
          | 2 => CellText (property "host.name" ls)
          | 3 =>
              if decide (ls_Status ls = Released) then CellText ""
              else CellDuration (Time_Sub (Time_Round now) (Time_Round (ls_Started ls)))
          | 4 =>
              let own := cfg_Instance (qm_config m) in
              if decide (ls_Decay ls = 0%Z) then CellText ""
              else if decide (inst_Host (ls_Instance ls) = inst_Host own
                              /\ inst_User (ls_Instance ls) = inst_User own) then CellText ""
              else if decide (ls_Status ls = Active) then CellDuration (ls_Decay ls)
              else if decide (ls_Status ls = Released) then
                let available := Time_Round (Lease_DecayTime ls) in
                let now := Time_Round now in
                if Time_Before now available then CellDuration (Time_Sub available now) else CellText "now"
              else CellText ""
          | _ => CellNil
          end
  end.

(** ** The connection dialogs *)

Record ConnectionModel := mkConnectionModel {
  cm_config : Config;
  cm_state : State;
  cm_updates : nat;
  cm_refreshes : nat;
}.

Definition NewConnectionModel (config : Config) (state : State) : ConnectionModel :=
  mkConnectionModel config state 0 0.
Definition ConnectionModel_ResourceName (m : ConnectionModel) : string := shown_name (cm_config m) (cm_state m).
Definition ConnectionModel_Update (state : State) (m : ConnectionModel) : ConnectionModel :=
  mkConnectionModel (cm_config m) state (S (cm_updates m)) (cm_refreshes m).
Definition ConnectionModel_Refresh (m : ConnectionModel) : ConnectionModel :=
  mkConnectionModel (cm_config m) (cm_state m) (cm_updates m) (S (cm_refreshes m)).

Definition TimeRemaining (now : Time) (m : ConnectionModel) : Duration :=
  let now := Time_Round now in
  let expiration := Time_Round (Lease_ExpirationTime (state_Lease (cm_state m))) in
  if Time_After now expiration then 0%Z else Time_Sub expiration now.

(** ** The refresh of the models (sleep.go, manager.go) *)

(** [sleepRound]; the sum that rounds up is discarded, and a negative time is
    not slept. *)
Definition sleepRound (now : Time) : Duration :=
  let start := Time_Round now in
  Time_Sub start now.

(** [Model] is an interface; the manager has none while no dialog is shown. *)
Inductive Model := QueuedView (m : QueuedModel) | ConnectionView (m : ConnectionModel).

Definition Model_Update (state : State) (m : Model) : Model :=
  match m with
  | QueuedView m => QueuedView (QueuedModel_Update state m)
  | ConnectionView m => ConnectionView (ConnectionModel_Update state m)
  end.

Definition Model_Refresh (m : Model) : Model :=
  match m with
  | QueuedView m => QueuedView (QueuedModel_Refresh m)
  | ConnectionView m => ConnectionView (ConnectionModel_Refresh m)
  end.

Definition Model_state (m : Model) : State :=
  match m with QueuedView m => qm_state m | ConnectionView m => cm_state m end.

(** The loop of [refresh]: a tick of its timer, an update of the manager, or the
    end of the context, after which it returns. *)
Inductive RefreshEvent := RefreshTick | RefreshUpdate (state : State) | RefreshDone.

Fixpoint refresh_loop (events : list RefreshEvent) (model : option Model) : option Model :=
  match events with
  | [] | RefreshDone :: _ => model
  | RefreshTick :: events => refresh_loop events (Model_Refresh <$> model)
  | RefreshUpdate state :: events => refresh_loop events (Model_Update state <$> model)
  end.

(** The events up to the end of the context. *)
Fixpoint until_done (events : list RefreshEvent) : list RefreshEvent :=
  match events with
  | [] | RefreshDone :: _ => []
  | e :: events => e :: until_done events
  end.

Definition updates (events : list RefreshEvent) : list State :=
  omap (fun e => match e with RefreshUpdate s => Some s | _ => None end) (until_done events).

(** ** Lemmas *)

Lemma Time_Round_near t : (2 * t - Second <= 2 * Time_Round t <= 2 * t + Second)%Z.
Proof.
  unfold Time_Round. pose proof (Z.mod_pos_bound t Second ltac:(unfold Second; lia)) as H.
  unfold Second in *. case_decide; lia.
Qed.

Lemma Time_Round_mono t u : (t <= u)%Z -> (Time_Round t <= Time_Round u)%Z.
Proof.
  intros Hle. unfold Time_Round, Second.
  pose proof (Z.div_mod t (10 ^ 9) ltac:(lia)) as Ht. pose proof (Z.div_mod u (10 ^ 9) ltac:(lia)) as Hu.
  pose proof (Z.mod_pos_bound t (10 ^ 9) ltac:(lia)). pose proof (Z.mod_pos_bound u (10 ^ 9) ltac:(lia)).
  pose proof (Z.div_le_mono t u (10 ^ 9) ltac:(lia) Hle) as Hd.
  destruct (decide (t / 10 ^ 9 = u / 10 ^ 9)%Z) as [He|He]; repeat case_decide; lia.
Qed.

(** The count in the title of the dialog is the consumption of the leases, which
    the server sends sorted, under a strategy that is known. *)
Lemma Consumed_counts m :
  sorted_set (state_Leases (qm_state m)) ->
  exists strat, Consumed m = Ret (consumption strat (state_Leases (qm_state m)))
    /\ (Strategy_Valid (ls_Strategy (state_Lease (qm_state m))) = true ->
        ls_Strategy (state_Lease (qm_state m)) <> Strategy_Empty -> strat = ls_Strategy (state_Lease (qm_state m))).
Proof.
  intros Hs. unfold Consumed. set (strat := ls_Strategy _). case_decide as Hd.
  - exists DefaultStrategy. split; [apply consumption_stats; [by left|done]|]. intros Hv He. exfalso. destruct Hd; congruence.
  - exists strat. split; [|done]. apply consumption_stats; [|done].
    destruct (Strategy_Valid strat) eqn:Hv; [|by destruct Hd; left].
    unfold Strategy_Valid in Hv. rewrite !orb_true_iff, !bool_decide_eq_true in Hv. naive_solver.
Qed.

(** Every row that the model announces can be shown, in every column. *)
Lemma Value_in_range now row col m : row < RowCount m -> is_Ret (Value now row col m).
Proof.
  unfold RowCount, Value. intros Hr. destruct (lookup_lt_is_Some_2 _ _ Hr) as [ls ->]. by eexists.
Qed.

Lemma Refresh_in_range m row :
  RowChanged row ∈ qm_published (QueuedModel_Refresh m) ->
  RowChanged row ∈ qm_published m \/ row < RowCount m.
Proof.
  unfold QueuedModel_Refresh. destruct (qm_closed m); [by left|]. cbn. rewrite elem_of_app.
  intros [H|H]; [by left|right]. apply list_elem_of_fmap in H as (r & [= <-] & H). apply elem_of_seq in H. lia.
Qed.

(** A closed model publishes nothing more. *)
Lemma closed_publishes_nothing m state :
  qm_closed m = true ->
  qm_published (QueuedModel_Refresh m) = qm_published m
  /\ qm_published (QueuedModel_Update state m) = qm_published m.
Proof. unfold QueuedModel_Refresh, QueuedModel_Update. cbn. by intros ->. Qed.

(** The remaining time is never negative, is zero for an expired lease, and is
    right to the second otherwise. *)
Lemma TimeRemaining_bounds now m :
  let expiration := Lease_ExpirationTime (state_Lease (cm_state m)) in
  in_int64 (expiration - now + Second) ->
  (0 <= TimeRemaining now m)%Z
  /\ ((expiration <= now)%Z -> TimeRemaining now m = 0%Z)
  /\ ((now <= expiration)%Z -> (expiration - now - Second <= TimeRemaining now m <= expiration - now + Second)%Z).
Proof.
  cbn zeta. set (e := Lease_ExpirationTime _). intros He. unfold TimeRemaining. fold e.
  pose proof (Time_Round_near now) as Hn. pose proof (Time_Round_near e) as Hx.
  unfold in_int64, int64_min, int64_max, Second in *.
  destruct (Time_After (Time_Round now) (Time_Round e)) eqn:Ha.
  - rewrite Time_After_true in Ha. split; [lia|]. split; [done|]. intros Hle.
    pose proof (Time_Round_mono now e Hle). lia.
  - rewrite Time_After_false in Ha. unfold Time_Sub, int64_min, int64_max. split; [lia|]. split.
    + intros Hle. pose proof (Time_Round_mono e now Hle). lia.
    + intros Hle. lia.
Qed.

(** The wait ends at a full second in the second half of one, and not at all in
    the first, where nothing is slept. *)
Lemma sleepRound_misses now :
  ((0 < now mod Second)%Z -> (2 * (now mod Second) < Second)%Z -> (sleepRound now < 0)%Z)
  /\ ((Second <= 2 * (now mod Second))%Z -> (0 < sleepRound now)%Z /\ ((now + sleepRound now) mod Second = 0)%Z).
Proof.
  unfold sleepRound, Time_Round. pose proof (Z.mod_pos_bound now Second ltac:(done)) as Hm.
  rewrite Time_Sub_exact; [|unfold in_int64, int64_min, int64_max, Second in *; case_decide; lia].
  split.
  - intros Hp Hh. rewrite decide_True by lia. lia.
  - intros Hh. rewrite decide_False by lia. split; [lia|].
    replace (now + (now + (Second - now mod Second) - now))%Z with ((now / Second + 1) * Second)%Z;
      [by apply Z_mod_mult|]. pose proof (Z.div_mod now Second ltac:(done)). lia.
Qed.

(** A refresh publishes what is shown, and does not change it: that is the last
    update, or the state at the start. *)
Lemma refresh_loop_shows events model :
  Model_state <$> refresh_loop events (Some model) = Some (default (Model_state model) (last (updates events))).
Proof.
  unfold updates. revert model. induction events as [|[|s|] events IH]; intros model; cbn [refresh_loop until_done omap]; try done.
  - cbn [fmap option_fmap option_map]. rewrite IH. by destruct model as [[]|]; cbn; unfold QueuedModel_Refresh; try case_match.
  - cbn [fmap option_fmap option_map]. rewrite IH. cbn. rewrite last_cons.
    destruct (last _); [done|]. destruct model; cbn; unfold QueuedModel_Update; by try case_match.
Qed.
