(* ===== verification/Dialogs.v ===== *)
(** * The dialogs (lease/leaseui/ startupdialog, queueddialog, connecteddialog,
      disconnecteddialog, run and manager for Windows)

    The content of the dialogs: their widgets without the layout, with the
    texts, and the codes with which they close; what the manager makes of these
    codes; and the updates of a dialog that is shown.  Widgets and the codes are
    those of a third-party toolkit. *)

From stdpp Require Import pretty.
From S2P Require Import Prelude GoStrings GoTime GoDuration Lease LeaseSet Maintainer LeaseUI LeaseViews.

Section Dialogs.
(** The codes with which a dialog ends. *)
Context (DlgCmdNone DlgCmdAbort DlgCmdCancel : Z).

(** ** Results (manager_windows.go) *)

Definition call_result (r : Z) : UIResult :=
  if decide (r = DlgCmdAbort) then UserCancelled
  else if decide (r = DlgCmdNone) then UserClosed
  else if decide (r = DlgCmdCancel) then ContextCancelled
  else Success.

(** The call of the callback, if there is one. *)
Definition call (callback : option Callback) (t : UIType) (r : Z) : option (Callback * UIType * UIResult) :=
  match callback with
  | None => None
  | Some cb => Some (cb, t, call_result r)
  end.

(** How the window of a dialog ends: a button closes it with its code, the user
    closes it, for which the toolkit returns [DlgCmdNone], or the context is
    cancelled and the goroutine of [runDialog] closes it. *)
Inductive FormEnd :=
| ButtonCloses (r : Z)
| UserCloses
| ContextCloses.

Definition runDialog (cancelled : bool) (e : FormEnd) : Z :=
  if cancelled then DlgCmdCancel
  else match e with
       | ButtonCloses r => r
       | UserCloses => DlgCmdNone
       | ContextCloses => DlgCmdCancel
       end.

(** ** Widgets *)

Inductive Widget :=
| Label (text : string)
| TextEdit (text : string)
| TableView (columns : list string)
| PushButton (text : string) (closes : Z).

Record DialogWindow := mkDialogWindow {
  win_Title : string;
  win_Children : list Widget;
}.

(** *** The startup dialog *)

Definition startup_title (m : ConnectionModel) : string := "Unable to launch " +:+ cfg_Program (cm_config m).
Definition startup_situation (m : ConnectionModel) : string :=
  ConnectionModel_ResourceName m +:+ " could not be started because an active lease could not be acquired.".
Definition startup_cause : string := "This is probably due to a network or server failure.".
Definition startup_outcome : string :=
  "It will be started automatically once the server can be contacted and a lease has been acquired.".
Definition startup_details (m : ConnectionModel) : string :=
  match state_Err (cm_state m) with Some err => err | None => "" end.

Definition NewStartupDialog (m : ConnectionModel) : DialogWindow :=
  mkDialogWindow (startup_title m)
    [Label (startup_situation m); Label startup_cause; Label startup_outcome;
     Label "Error Details:"; TextEdit (startup_details m); PushButton "Close" DlgCmdAbort].

(** The handler of the update event: the box of details alone is set. *)
Definition set_text_edit (text : string) (w : Widget) : Widget :=
  match w with TextEdit _ => TextEdit text | w => w end.
Definition startup_updated (m : ConnectionModel) (w : DialogWindow) : DialogWindow :=
  mkDialogWindow (win_Title w) (set_text_edit (startup_details m) <$> win_Children w).

(** *** The queued dialog *)

Definition queued_title (m : QueuedModel) : string := "Unable to launch " +:+ cfg_Program (qm_config m).
Definition queued_description (m : QueuedModel) : outcome string :=
  consumed ← Consumed m;
  Ret (QueuedModel_ResourceName m +:+ " could not be started because " +:+ pretty consumed +:+ " of "
       +:+ pretty (ls_Limit (state_Lease (qm_state m))) +:+ " license(s) are in use.").
Definition queued_tableCaption : string :=
  "Here's a list of everyone that's using or waiting for a license right now:".

Definition NewQueuedDialog (m : QueuedModel) : outcome DialogWindow :=
  description ← queued_description m;
  Ret (mkDialogWindow (queued_title m)
    [Label description; Label queued_tableCaption;
     TableView ["Status"; "User"; "Computer"; "Time"; "Earliest Availability"];
     PushButton "Cancel" DlgCmdAbort]).

(** *** The connected dialog *)

Definition NewConnectedDialog : DialogWindow :=
  mkDialogWindow "Connection Restored"
    [Label "The connection to the server has been restored."; Label "Your work is no longer at risk.";
     PushButton "OK" DlgCmdAbort].

(** *** The disconnected dialog *)

Definition disconnected_title (now : Time) (m : ConnectionModel) : string :=
  Duration_text (TimeRemaining now m) +:+ " until lease for " +:+ ConnectionModel_ResourceName m +:+ " expires".
Definition disconnected_description (m : ConnectionModel) : string :=
  "The lease for " +:+ ConnectionModel_ResourceName m
    +:+ " could not be renewed. This is probably due to a network or server failure.".
Definition disconnected_remaining (now : Time) (m : ConnectionModel) : string :=
  cfg_Program (cm_config m) +:+ " will forcibly be shut down in " +:+ Duration_text (TimeRemaining now m)
    +:+ ", when its lease expires.".
Definition disconnected_warning (m : ConnectionModel) : string :=
  "Please save your work and close " +:+ cfg_Program (cm_config m)
    +:+ " before then, or you may lose your work.".

Definition NewDisconnectedDialog (now : Time) (m : ConnectionModel) : DialogWindow :=
  mkDialogWindow (disconnected_title now m)
    [Label (disconnected_description m); Label (disconnected_remaining now m); Label (disconnected_warning m);
     PushButton "Ignore" DlgCmdAbort].

(** The handler of the refresh event: the title and the second label are set. *)
Definition disconnected_refreshed (now : Time) (m : ConnectionModel) (w : DialogWindow) : DialogWindow :=
  mkDialogWindow (disconnected_title now m) (<[1 := Label (disconnected_remaining now m)]> (win_Children w)).

(** ** The models of the manager (manager_windows.go) *)

Definition connectionModel (cfg : Config) (state : State) : ConnectionModel :=
  ConnectionModel_Update state (NewConnectionModel cfg state).
Definition queuedModel (cfg : Config) (state : State) : QueuedModel :=
  QueuedModel_Update state (NewQueuedModel cfg state).

(** The window that the manager shows for a type, [None] for none. *)
Definition dialog_of (cfg : Config) (state : State) (now : Time) (t : UIType) : outcome (option DialogWindow) :=
  match t with
  | UINone => Ret None
  | Startup => Ret (Some (NewStartupDialog (connectionModel cfg state)))
  | UIQueued => w ← NewQueuedDialog (queuedModel cfg state); Ret (Some w)
  | Connected => Ret (Some NewConnectedDialog)
  | Disconnected => Ret (Some (NewDisconnectedDialog now (connectionModel cfg state)))
  end.

(** The codes of the buttons of a window. *)
Definition buttons (w : DialogWindow) : list Z :=
  omap (fun c => match c with PushButton _ r => Some r | _ => None end) (win_Children w).

(** ** Lemmas *)

Section Codes.
Context (codes_apart : DlgCmdAbort <> DlgCmdNone /\ DlgCmdAbort <> DlgCmdCancel /\ DlgCmdNone <> DlgCmdCancel).

(** Every dialog has one button.  What the callback is told: a button cancels,
    closing the window is closing, and a cancelled context is told as such even
    when it is cancelled before the dialog is shown. *)
Lemma dialog_results cfg state now t w :
  dialog_of cfg state now t = Ret (Some w) ->
  exists b, buttons w = [b]
    /\ call_result (runDialog false (ButtonCloses b)) = UserCancelled
    /\ call_result (runDialog false UserCloses) = UserClosed
    /\ call_result (runDialog false ContextCloses) = ContextCancelled
    /\ forall e, call_result (runDialog true e) = ContextCancelled.
Proof.
  destruct codes_apart as (H1 & H2 & H3). intros Hw. exists DlgCmdAbort.
  split.
  { destruct t; unfold dialog_of in Hw; [discriminate|by inversion Hw| |by inversion Hw..].
    unfold NewQueuedDialog, queued_description in Hw.
    destruct (Consumed (queuedModel cfg state)); by inversion Hw. }
  unfold call_result, runDialog. split_and!; intros; repeat case_decide; congruence.
Qed.
End Codes.

(** A dialog can be shown for every state whose leases are sorted, as those of
    the server are. *)
Lemma dialog_of_total cfg state now t :
  sorted_set (state_Leases state) -> is_Ret (dialog_of cfg state now t).
Proof.
  intros Hs. destruct t; unfold dialog_of; [by eexists|by eexists| |by eexists..].
  destruct (Consumed_counts (queuedModel cfg state) Hs) as (strat & Hc & _).
  unfold NewQueuedDialog, queued_description. rewrite Hc. by eexists.
Qed.

(** After an update the startup dialog is the one that would be created anew,
    unless the resource has another name. *)
Lemma startup_updated_new m state :
  ConnectionModel_ResourceName (ConnectionModel_Update state m) = ConnectionModel_ResourceName m ->
  startup_updated (ConnectionModel_Update state m) (NewStartupDialog m)
  = NewStartupDialog (ConnectionModel_Update state m).
Proof. intros Hn. unfold startup_updated, NewStartupDialog, startup_situation. cbn. by rewrite Hn. Qed.

(** And so is the disconnected dialog at every refresh. *)
Lemma disconnected_refreshed_new now now' m state :
  ConnectionModel_ResourceName (ConnectionModel_Update state m) = ConnectionModel_ResourceName m ->
  disconnected_refreshed now' (ConnectionModel_Update state m) (NewDisconnectedDialog now m)
  = NewDisconnectedDialog now' (ConnectionModel_Update state m).
Proof.
  intros Hn. unfold disconnected_refreshed, NewDisconnectedDialog, disconnected_description. cbn. by rewrite Hn.
Qed.
End Dialogs.
