(* ===== verification/Runner.v ===== *)
(** * The runner (runner/runner.go)

    The runner starts a program when a lease becomes active, and shuts it down
    when it loses the lease.  A handler of a lease state and a callback of the
    user interface are atomic under the runner's mutex; [runner_step] is what
    can happen to it.  Cancelling the context kills the program, and a program
    is not started under a cancelled context (os/exec). *)

From S2P Require Import Prelude GoTime Lease LeaseUI.

(** ** The data *)

(** [run_shutdown_] holds once the context is cancelled, [run_ended] once the
    loop of [run] has returned, with its error.  [run_executed] are the states
    on which the program was started; the source does not keep them. *)
Record Runner := mkRunner {
  r_running : bool;
  r_failed : bool;
  r_warned : bool;
  r_restored : bool;
  r_dismissal : Time;
  r_ui : Manager;
  r_shutdown : bool;
  r_ended : bool;
  r_executed : list State;
}.

Definition Runner_New : Runner :=
  mkRunner false false false false zero_time ui_New false false [].

Definition set_ui (m : Manager) (r : Runner) : Runner :=
  mkRunner (r_running r) (r_failed r) (r_warned r) (r_restored r) (r_dismissal r) m
    (r_shutdown r) (r_ended r) (r_executed r).
Definition set_failed (b : bool) (r : Runner) : Runner :=
  mkRunner (r_running r) b (r_warned r) (r_restored r) (r_dismissal r) (r_ui r)
    (r_shutdown r) (r_ended r) (r_executed r).
Definition set_warned (b : bool) (r : Runner) : Runner :=
  mkRunner (r_running r) (r_failed r) b (r_restored r) (r_dismissal r) (r_ui r)
    (r_shutdown r) (r_ended r) (r_executed r).
Definition set_restored (b : bool) (r : Runner) : Runner :=
  mkRunner (r_running r) (r_failed r) (r_warned r) b (r_dismissal r) (r_ui r)
    (r_shutdown r) (r_ended r) (r_executed r).
Definition set_dismissal (t : Time) (r : Runner) : Runner :=
  mkRunner (r_running r) (r_failed r) (r_warned r) (r_restored r) t (r_ui r)
    (r_shutdown r) (r_ended r) (r_executed r).
Definition shutdown (r : Runner) : Runner :=
  mkRunner (r_running r) (r_failed r) (r_warned r) (r_restored r) (r_dismissal r) (r_ui r)
    true (r_ended r) (r_executed r).
(** [run] returns: its deferred call cancels the context. *)
Definition return_ (r : Runner) : Runner :=
  mkRunner (r_running r) (r_failed r) (r_warned r) (r_restored r) (r_dismissal r) (r_ui r)
    true true (r_executed r).

Definition change_ui (t : UIType) (cb : option Callback) (r : Runner) : Runner :=
  set_ui (ui_Change t cb (r_ui r)) r.

(** ** Warnings *)

(** [last] is the time of the last dismissal. *)
Definition shouldWarn (ls : Lease) (at_ last : Time) : bool :=
  let expiration := Lease_ExpirationTime ls in
  if Time_Before expiration at_ then true
  else
    let remaining := Time_Sub expiration at_ in
    if decide (remaining < Minute)%Z then true
    else
      let oneThird := Duration_div (ls_Duration ls) 3 in
      let oneQuarter := Duration_div (ls_Duration ls) 4 in
      let tail :=
        if decide (remaining < oneThird)%Z then true
        else
          let refresh := Lease_EffectiveRefresh ls in
          let missed := Time_Add (ls_Renewed ls) refresh in
          if Time_After at_ (Time_Add missed oneQuarter) then true else false in
      if negb (Time_IsZero last) then
        if Time_Before at_ last then true
        else if decide (Time_Sub at_ last < oneQuarter)%Z then false
        else tail
      else tail.

(** ** Handlers *)

(** [execute]; [start] is the error of starting the program, if any. *)
Definition execute (state : State) (start : option error) (r : Runner) : outcome (option error * Runner) :=
  if r_running r then Panic "Command is already running"
  else if r_shutdown r then Ret (Some "context canceled", r)
  else match start with
  | Some err => Ret (Some err, r)
  | None =>
      Ret (None, mkRunner true (r_failed r) (r_warned r) (r_restored r) (r_dismissal r) (r_ui r)
                   (r_shutdown r) (r_ended r) (r_executed r ++ [state]))
  end.

Definition handleError (state : State) (now : Time) (r : Runner) : option error * Runner :=
  let r := set_failed true r in
  if negb (r_running r) then (None, change_ui Startup (Some StartupCallback) r)
  else if Lease_Expired (state_Lease state) now then (None, shutdown r)
  else if shouldWarn (state_Lease state) now (r_dismissal r) then
    (None, change_ui Disconnected (Some DisconnectedCallback) (set_warned true r))
  else (None, r).

Definition handleQueued (r : Runner) : option error * Runner :=
  if r_running r then
    let r := if r_failed r then set_failed false r else r in
    (None, shutdown r)
  else (None, change_ui UIQueued (Some QueuedCallback) r).

(** The user interface part of the two handlers that follow. *)
Definition acknowledge (r : Runner) : Runner :=
  if r_warned r then change_ui Connected (Some ConnectedCallback) (set_restored true r)
  else if r_restored r then r
  else change_ui UINone None r.

Definition handleActive (state : State) (start : option error) (r : Runner) : outcome (option error * Runner) :=
  let r := acknowledge r in
  let r := set_failed false (set_warned false r) in
  if negb (r_running r) then execute state start r else Ret (None, r).

Definition handleLeaseNotRequired (state : State) (start : option error) (r : Runner)
  : outcome (option error * Runner) :=
  let r := acknowledge r in
  let r := set_failed false (set_warned false r) in
  if negb (r_running r) then execute state start r else Ret (None, r).

(** One turn of the loop of [run], for a state that was received. *)
Definition handle_state (state : State) (now : Time) (start : option error) (r : Runner)
  : outcome (option error * Runner) :=
  let r := set_ui (ui_Update state (r_ui r)) r in
  if decide (state_Err state <> None) then Ret (handleError state now r)
  else if state_LeaseNotRequired state then handleLeaseNotRequired state start r
  else if decide (ls_Status (state_Lease state) = Queued) then Ret (handleQueued r)
  else if decide (ls_Status (state_Lease state) = Active) then handleActive state start r
  else Ret (Some ("unexpected lease status: " +:+ ls_Status (state_Lease state)), r).

(** The turn, with the return of [run] when there is an error. *)
Definition run_turn (state : State) (now : Time) (start : option error) (r : Runner) : outcome Runner :=
  '(err, r) ← handle_state state now start r;
  match err with
  | Some _ => Ret (return_ r)
  | None => Ret r
  end.

(** ** Callbacks *)

Definition user_stopped (result : UIResult) : bool :=
  match result with UserCancelled | UserClosed => true | _ => false end.

Definition call_back (cb : Callback) (result : UIResult) (now : Time) (r : Runner) : Runner :=
  match cb with
  | StartupCallback | QueuedCallback => if user_stopped result then shutdown r else r
  | DisconnectedCallback =>
      let r := if user_stopped result then set_dismissal now r else r in
      set_ui (ui_CompareAndChange Disconnected UINone None (r_ui r)) r
  | ConnectedCallback =>
      let r := set_restored false r in
      set_ui (ui_CompareAndChange Connected UINone None (r_ui r)) r
  end.

(** ** What can happen *)

Inductive runner_step : Runner -> outcome Runner -> Prop :=
| runner_state r state now start :
    r_ended r = false -> runner_step r (run_turn state now start r)
| runner_closed r : r_ended r = false -> runner_step r (Ret (return_ r))
| runner_callback r cb result now : runner_step r (Ret (call_back cb result now r))
| runner_exit r : r_running r = true -> runner_step r (Ret (shutdown r))
(* the context given to [Run] is cancelled *)
| runner_cancel r : runner_step r (Ret (shutdown r)).

Inductive runner_reachable : outcome Runner -> Prop :=
| runner_reach_New : runner_reachable (Ret Runner_New)
| runner_reach_step r o : runner_reachable (Ret r) -> runner_step r o -> runner_reachable o.
