(* ===== verification/RunnerProps.v ===== *)
(** * What the runner guarantees *)

From S2P Require Import Prelude GoTime Lease LeaseWatch LeaseUI Runner.

(** ** The invariant *)

(** A state that entitles the runner to start the program. *)
Definition entitles (s : State) : Prop :=
  state_Err s = None /\ (state_LeaseNotRequired s = true \/ ls_Status (state_Lease s) = Active).

Record runner_inv (r : Runner) : Prop := {
  ri_executed : Forall entitles (r_executed r);
  ri_once : length (r_executed r) = if r_running r then 1 else 0;
  ri_ended : r_ended r = true -> r_shutdown r = true;
}.

(** Two runners that differ in what the user is shown and told. *)
Definition same_program (r r' : Runner) : Prop :=
  r_running r' = r_running r /\ r_executed r' = r_executed r /\ r_ended r' = r_ended r
  /\ (r_shutdown r = true -> r_shutdown r' = true).

Lemma same_program_inv r r' : same_program r r' -> runner_inv r -> runner_inv r'.
Proof.
  intros (H1 & H2 & H3 & H4) [A B C]. split; rewrite ?H1, ?H2, ?H3; auto.
Qed.

Lemma acknowledge_same r : same_program r (acknowledge r).
Proof. unfold acknowledge. destruct (r_warned r); [done|]. by destruct (r_restored r). Qed.

Lemma call_back_same cb result now r : same_program r (call_back cb result now r).
Proof. destruct cb; cbn; destruct (user_stopped result); done. Qed.

Lemma handleError_same s now r : same_program r (handleError s now r).2.
Proof.
  unfold handleError. cbn. destruct (r_running r); [|done]. cbn.
  destruct (Lease_Expired _ _); [done|]. by destruct (shouldWarn _ _ _).
Qed.

Lemma handleQueued_same r : same_program r (handleQueued r).2.
Proof.
  unfold handleQueued. destruct (r_running r) eqn:Hr; [|done]. cbn.
  by destruct (r_failed r).
Qed.

(** The handlers that may start the program. *)
Lemma execute_inv s start r :
  entitles s -> runner_inv r -> r_running r = false ->
  exists err r', execute s start r = Ret (err, r') /\ runner_inv r'
    /\ (r_running r' = true -> err = None) /\ (r_shutdown r = true -> r_running r' = false).
Proof.
  intros Hs Hinv Hr. pose proof Hinv as [A B C]. unfold execute. rewrite Hr.
  destruct (r_shutdown r) eqn:Hd; [do 2 eexists; split_and!; [done|done|by rewrite Hr|done]|].
  destruct start as [e|]; do 2 eexists; (split; [done|]); split_and!; try done; [by rewrite Hr|].
  split; cbn; [|by rewrite length_app, B, Hr|exact C].
  apply Forall_app. split; [done|]. by apply Forall_singleton.
Qed.

Lemma proceed_inv s start r :
  entitles s -> runner_inv r ->
  exists err r',
    (let r := set_failed false (set_warned false (acknowledge r)) in
     if negb (r_running r) then execute s start r else Ret (None, r)) = Ret (err, r')
    /\ runner_inv r'.
Proof.
  intros Hs Hinv. cbn zeta. set (r1 := set_failed false (set_warned false (acknowledge r))).
  assert (Hs1 : same_program r r1) by (pose proof (acknowledge_same r); done).
  pose proof (same_program_inv _ _ Hs1 Hinv) as Hinv1. clearbody r1.
  destruct (r_running r1) eqn:Hr; cbn [negb]; [by do 2 eexists|].
  destruct (execute_inv s start r1 Hs Hinv1 Hr) as (err & r' & -> & H & _). by do 2 eexists.
Qed.

Lemma handle_state_inv s now start r :
  runner_inv r -> exists err r', handle_state s now start r = Ret (err, r') /\ runner_inv r'.
Proof.
  intros Hinv. unfold handle_state. set (r1 := set_ui _ r).
  assert (Hinv1 : runner_inv r1) by (by apply (same_program_inv r)). clearbody r1.
  case_decide as Herr.
  { pose proof (handleError_same s now r1) as H. destruct (handleError s now r1) as [err r2].
    do 2 eexists. split; [done|]. by apply (same_program_inv r1). }
  destruct (state_LeaseNotRequired s) eqn:Hreq; [by apply proceed_inv; [split; [|left]|]|].
  case_decide as Hq.
  { pose proof (handleQueued_same r1) as H. destruct (handleQueued r1) as [err r2].
    do 2 eexists. split; [done|]. by apply (same_program_inv r1). }
  case_decide as Ha; [by apply proceed_inv; [split; [|right]|]|]. by do 2 eexists.
Qed.

Lemma return_inv r : runner_inv r -> runner_inv (return_ r).
Proof. intros [A B C]. by split. Qed.

Lemma runner_step_inv r o :
  runner_step r o -> runner_inv r -> exists r', o = Ret r' /\ runner_inv r'.
Proof.
  intros Hs Hinv. destruct Hs as [r s now start He|r He|r cb result now|r Hr|r].
  - unfold run_turn. destruct (handle_state_inv s now start r Hinv) as ([e|] & r' & -> & Hinv'); cbn;
      eexists; (split; [done|]); [by apply return_inv|done].
  - eexists. split; [done|]. by apply return_inv.
  - eexists. split; [done|]. by apply (same_program_inv r), Hinv; apply call_back_same.
  - eexists. split; [done|]. by apply (same_program_inv r).
  - eexists. split; [done|]. by apply (same_program_inv r).
Qed.

Lemma runner_reachable_inv o : runner_reachable o -> exists r, o = Ret r /\ runner_inv r.
Proof.
  induction 1 as [|r o _ (r0 & [= <-] & Hinv) Hs]; [|by eapply runner_step_inv].
  exists Runner_New. split; [done|]. by split; cbn.
Qed.

(** ** After a turn *)

Lemma run_turn_justified s now start r r' :
  run_turn s now start r = Ret r' -> r_running r' = true -> r_shutdown r' = true \/ justifies s now.
Proof.
  unfold run_turn, handle_state, justifies. case_decide as Herr.
  - unfold handleError. cbn. destruct (r_running r) eqn:Hr; cbn.
    + destruct (Lease_Expired (state_Lease s) now) eqn:He; [intros [= <-]; by left|]. intros _ _. right. by left.
    + intros [= <-]. cbn. congruence.
  - destruct (state_LeaseNotRequired s); [intros _ _; right; right; by split; [|left]|].
    case_decide as Hq.
    + unfold handleQueued. cbn. destruct (r_running r) eqn:Hr; cbn; [intros [= <-]; by left|].
      intros [= <-]. cbn. congruence.
    + case_decide as Ha; [intros _ _; right; right; by split; [|right]|].
      cbn. intros [= <-]. by left.
Qed.

(** ** The properties *)

(** C20. The program runs under a lease.  However states, callbacks and the end
    of the program interleave, the runner does not panic and starts the program
    at most once, on an answer that grants an active lease or requires none;
    and after every state that it handles, a program that runs has been told to
    shut down unless that state justifies it: the lease is active or not
    required, or the server is away and the lease has not expired. *)
Theorem runner_enforces_lease o :
  runner_reachable o ->
  exists r, o = Ret r
    /\ length (r_executed r) = (if r_running r then 1 else 0)
    /\ Forall entitles (r_executed r)
    /\ forall s now start, exists r', run_turn s now start r = Ret r'
         /\ (r_running r' = true -> r_shutdown r' = true \/ justifies s now).
Proof.
  intros Hr. destruct (runner_reachable_inv _ Hr) as (r & -> & Hinv). exists r. split; [done|].
  split; [apply Hinv|]. split; [apply Hinv|]. intros s now start.
  destruct (handle_state_inv s now start r Hinv) as (err & r' & He & _).
  assert (exists r2, run_turn s now start r = Ret r2) as [r2 H2]
    by (unfold run_turn; rewrite He; cbn; destruct err; eauto).
  exists r2. split; [done|]. by apply (run_turn_justified s now start r).
Qed.

(** Warnings.  The user is always warned in the last minute of a lease.
    No warning means that at least a minute remains, and that either the last
    one was dismissed less than a quarter of the duration ago, or a third of
    the duration remains and the renewal is less than a quarter overdue. *)
Lemma runner_warns ls at_ last :
  in_int64 (ls_Duration ls) -> (0 <= ls_Duration ls)%Z ->
  in_int64 (Lease_ExpirationTime ls - at_) -> in_int64 (at_ - last) ->
  shouldWarn ls at_ last = false <->
  (at_ + Minute <= Lease_ExpirationTime ls)%Z
  /\ ((last <> zero_time /\ last <= at_ /\ at_ < last + Z.quot (ls_Duration ls) 4)%Z
      \/ ((last = zero_time \/ last <= at_)%Z
          /\ (at_ + Z.quot (ls_Duration ls) 3 <= Lease_ExpirationTime ls)%Z
          /\ (at_ <= ls_Renewed ls + Lease_EffectiveRefresh ls + Z.quot (ls_Duration ls) 4)%Z)).
Proof.
  intros Hd Hpos He Hl. unfold shouldWarn. rewrite (Time_Sub_exact _ _ He), (Time_Sub_exact _ _ Hl).
  assert (Hq : forall k, (0 < k)%Z -> Duration_div (ls_Duration ls) k = Z.quot (ls_Duration ls) k).
  { intros k Hk. unfold Duration_div. apply wrap64_id.
    pose proof (Z.quot_pos (ls_Duration ls) k Hpos Hk).
    pose proof (Z.quot_le_upper_bound (ls_Duration ls) k (ls_Duration ls) Hk).
    unfold in_int64, int64_min, int64_max in *. nia. }
  rewrite !Hq by lia. unfold Time_Add, Time_IsZero.
  assert (HM : (0 < Minute)%Z) by done.
  destruct (Time_Before (Lease_ExpirationTime ls) at_) eqn:Hb.
  { apply Time_Before_true in Hb. split; [done|]. intros [? _]. lia. }
  apply Time_Before_false in Hb.
  case_decide as Hm; [split; [done|]; intros [? _]; lia|].
  assert (Htail : (if decide (Lease_ExpirationTime ls - at_ < Z.quot (ls_Duration ls) 3)%Z then true
      else if Time_After at_ (ls_Renewed ls + Lease_EffectiveRefresh ls + Z.quot (ls_Duration ls) 4)%Z then true else false)
      = false <-> (at_ + Z.quot (ls_Duration ls) 3 <= Lease_ExpirationTime ls)%Z
        /\ (at_ <= ls_Renewed ls + Lease_EffectiveRefresh ls + Z.quot (ls_Duration ls) 4)%Z).
  { case_decide; [split; [done|lia]|].
    destruct (Time_After _ _) eqn:Ht; [apply Time_After_true in Ht|apply Time_After_false in Ht].
    - split; [done|lia].
    - split; [split; [lia|done]|done]. }
  cbn zeta. set (tail := if decide _ then true else if Time_After _ _ then true else false) in *. clearbody tail.
  case_bool_decide as Hz; cbn [negb].
  - rewrite Htail. split; [|intros [_ [[? _]|[_ ?]]]; done].
    intros ?. split; [lia|]. right. split; [by left|done].
  - destruct (Time_Before at_ last) eqn:Hbl.
    { apply Time_Before_true in Hbl. split; [done|]. intros [_ [(_ & ? & _)|([?|?] & _)]]; [lia|done|lia]. }
    apply Time_Before_false in Hbl. case_decide as Hs.
    { split; [|done]. intros _. split; [lia|]. left. split; [done|]. lia. }
    rewrite Htail. split; [|intros [_ [(_ & _ & ?)|[_ ?]]]; [lia|done]].
    intros ?. split; [lia|]. right. split; [by right|done].
Qed.

(** ** Witnesses *)

Definition granted (status : Status) : State :=
  mkState true false true
    (mkLease (mkSubject "res" (mkInstance "pc" "ann" "1")) ∅ status 0%Z 0%Z zero_time Strategy_Instance 1
       (10 * Minute)%Z 0%Z (mkRefresh 0%Z 0%Z)) [] 0%Z None.

(** The program is started on an active lease; a queued one stops it. *)
Lemma runner_enforces_lease_witness :
  exists r, run_turn (granted Active) 0%Z None Runner_New = Ret r /\ r_running r = true
    /\ exists r', run_turn (granted Queued) 0%Z None r = Ret r' /\ (r_running r' = true -> r_shutdown r' = true).
Proof.
  eexists. split; [reflexivity|]. split; [reflexivity|].
  destruct (runner_enforces_lease (run_turn (granted Active) 0%Z None Runner_New)) as (r & [= <-] & _ & _ & H).
  - eapply runner_reach_step; [apply runner_reach_New|]. by apply runner_state.
  - destruct (H (granted Queued) 0%Z None) as (r' & Hr' & Hj). exists r'. split; [exact Hr'|].
    intros Hrun. destruct (Hj Hrun) as [Hs|[[He _]|[_ [Hn|Ha]]]].
    + exact Hs.
    + exfalso. apply He. reflexivity.
    + discriminate Hn.
    + discriminate Ha.
Defined.

Lemma runner_warns_witness :
  shouldWarn (state_Lease (granted Active)) (4 * Minute)%Z zero_time = false
  /\ (4 * Minute + Minute <= Lease_ExpirationTime (state_Lease (granted Active)))%Z.
Proof.
  assert (Hf : shouldWarn (state_Lease (granted Active)) (4 * Minute)%Z zero_time = false)
    by (vm_compute; reflexivity).
  split; [exact Hf|]. revert Hf. intros Hf%runner_warns.
  - apply Hf.
  - split; vm_compute; discriminate.
  - vm_compute. discriminate.
  - split; vm_compute; discriminate.
  - split; vm_compute; discriminate.
Defined.
