(* ===== verification/RunnerRun.v ===== *)
(** * The goroutines of the runner

    [Runner.Run] of runner/runner.go with the goroutine of [run], the one that
    closes the lease maintainer, and those of the user interface, whose
    callbacks and directives they share two mutexes for.  Each turn of [run] is
    one step of [Runner.v]; the mutexes make it so.  [Run] returns once it is
    told to, unless a change of the interface is being sent that nobody will
    receive. *)

From S2P Require Import Prelude GoTime Lease LeaseUI LeaseUIRun Runner RunnerProps.

(** ** The change that a handler makes *)

(** The one call of [Change] by a handler, if any: the type and the callback. *)
Definition acknowledge_change (r : Runner) : option (UIType * option Callback) :=
  if r_warned r then Some (Connected, Some ConnectedCallback)
  else if r_restored r then None
  else Some (UINone, None).

Definition handler_change (state : State) (now : Time) (r : Runner) : option (UIType * option Callback) :=
  if decide (state_Err state <> None) then
    if negb (r_running r) then Some (Startup, Some StartupCallback)
    else if Lease_Expired (state_Lease state) now then None
    else if shouldWarn (state_Lease state) now (r_dismissal r) then Some (Disconnected, Some DisconnectedCallback)
    else None
  else if state_LeaseNotRequired state then acknowledge_change r
  else if decide (ls_Status (state_Lease state) = Queued) then
    if r_running r then None else Some (UIQueued, Some QueuedCallback)
  else if decide (ls_Status (state_Lease state) = Active) then acknowledge_change r
  else None.

Definition apply_change (c : option (UIType * option Callback)) (m : Manager) : Manager :=
  match c with
  | Some (t, cb) => ui_Change t cb m
  | None => m
  end.

Lemma acknowledge_ui r : r_ui (acknowledge r) = apply_change (acknowledge_change r) (r_ui r).
Proof. unfold acknowledge, acknowledge_change. destruct (r_warned r); [done|]. by destruct (r_restored r). Qed.

Lemma proceed_ui s start r err r' :
  (if negb (r_running r) then execute s start r else Ret (None, r)) = Ret (err, r') -> r_ui r' = r_ui r.
Proof.
  unfold execute. destruct (r_running r); cbn; [by intros [= _ <-]|].
  destruct (r_shutdown r); [by intros [= _ <-]|]. destruct start; by intros [= _ <-].
Qed.

(** The handlers of [Runner.v] update the interface, and make that change. *)
Lemma handle_state_ui s now start r err r' :
  handle_state s now start r = Ret (err, r') ->
  r_ui r' = apply_change (handler_change s now r) (ui_Update s (r_ui r)).
Proof.
  unfold handle_state, handler_change. case_decide.
  - unfold handleError. cbn. destruct (r_running r); cbn; [|by intros [= _ <-]].
    destruct (Lease_Expired _ _); [by intros [= _ <-]|]. destruct (shouldWarn _ _ _); by intros [= _ <-].
  - destruct (state_LeaseNotRequired s).
    + intros ->%proceed_ui. cbn. by rewrite acknowledge_ui.
    + case_decide.
      * unfold handleQueued. cbn. destruct (r_running r); [|by intros [= _ <-]].
        destruct (r_failed r); by intros [= _ <-].
      * case_decide; [|by intros [= _ <-]]. intros ->%proceed_ui. cbn. by rewrite acknowledge_ui.
Qed.

(** ** The state *)

(** Where [run] is: about to start the maintainer, about to listen to it, at
    the receive, holding a state, holding the mutex of the runner too, about to
    change the interface, in that change, about to finish the turn, or returned. *)
Inductive TurnPhase :=
| Acquiring
| Listening
| Waits
| HasState (s : State)
| Holding (s : State)
| Changing (s : State) (now : Time)
| Sending (s : State) (now : Time)
| Finishing (s : State) (now : Time)
| Returned (err : option error).

(** The maintainer, and the goroutine that closes it. *)
Inductive Maintained := MaintFresh | MaintStarted | MaintStopped.
Inductive Closer := CloserWaits | CloserReleased | CloserDone.

(** [rx_started] holds once the user interface has called [start], [rx_cb]
    while a callback holds the mutex of the runner, and [rx_closed] when the
    channel of states is closed.  The manager is [rx_ui]; [r_ui] of the runner is
    what the turns and the callbacks have made of it so far. *)
Record RunnerRun := mkRunnerRun {
  rx_ui : UIRun;
  rx_started : bool;
  rx_runner : Runner;
  rx_phase : TurnPhase;
  rx_cb : bool;
  rx_maint : Maintained;
  rx_closer : Closer;
  rx_closed : bool;
}.

Definition rx_init : RunnerRun :=
  mkRunnerRun (run_init false) false Runner_New Acquiring false MaintFresh CloserWaits false.

Definition set_rx_ui (u : UIRun) (x : RunnerRun) : RunnerRun :=
  mkRunnerRun u (rx_started x) (rx_runner x) (rx_phase x) (rx_cb x) (rx_maint x) (rx_closer x) (rx_closed x).
Definition set_rx_runner (r : Runner) (x : RunnerRun) : RunnerRun :=
  mkRunnerRun (rx_ui x) (rx_started x) r (rx_phase x) (rx_cb x) (rx_maint x) (rx_closer x) (rx_closed x).
Definition set_rx_phase (p : TurnPhase) (x : RunnerRun) : RunnerRun :=
  mkRunnerRun (rx_ui x) (rx_started x) (rx_runner x) p (rx_cb x) (rx_maint x) (rx_closer x) (rx_closed x).
Definition set_rx_cb (b : bool) (x : RunnerRun) : RunnerRun :=
  mkRunnerRun (rx_ui x) (rx_started x) (rx_runner x) (rx_phase x) b (rx_maint x) (rx_closer x) (rx_closed x).
Definition set_rx_started (x : RunnerRun) : RunnerRun :=
  mkRunnerRun (rx_ui x) true (rx_runner x) (rx_phase x) (rx_cb x) (rx_maint x) (rx_closer x) (rx_closed x).
Definition set_rx_maint (m : Maintained) (c : Closer) (closed : bool) (x : RunnerRun) : RunnerRun :=
  mkRunnerRun (rx_ui x) (rx_started x) (rx_runner x) (rx_phase x) (rx_cb x) m c closed.

(** ** Operations *)

(** The context of [Run], and with it those of [run] and of the interface, is
    cancelled. *)
Definition rx_cancel (x : RunnerRun) : RunnerRun :=
  set_rx_ui (set_run_ctxdone (rx_ui x)) (set_rx_runner (shutdown (rx_runner x)) x).

(** [Acquire] and [Listen], which returns a closed channel unless the maintainer
    has been started. *)
Definition rx_acquire (x : RunnerRun) : RunnerRun :=
  set_rx_phase Listening (set_rx_maint MaintStarted (rx_closer x) (rx_closed x) x).
Definition rx_listen (x : RunnerRun) : RunnerRun :=
  set_rx_phase Waits
    (set_rx_maint (rx_maint x) (rx_closer x) (match rx_maint x with MaintStarted => false | _ => true end) x).

(** [Release] and [Close]: neither does anything to a maintainer that has not
    been started; the listeners are those that are registered by then. *)
Definition stop_maint (m : Maintained) : Maintained :=
  match m with MaintFresh => MaintFresh | _ => MaintStopped end.
Definition rx_release (x : RunnerRun) : RunnerRun :=
  set_rx_maint (stop_maint (rx_maint x)) CloserReleased (rx_closed x) x.
Definition rx_close (x : RunnerRun) : RunnerRun :=
  set_rx_maint (stop_maint (rx_maint x)) CloserDone
    (match rx_phase x with Acquiring | Listening => rx_closed x | _ => true end) x.

(** The change of a handler: it returns at once, or sends. *)
Definition rx_change (s : State) (now : Time) (x : RunnerRun) : RunnerRun :=
  match handler_change s now (rx_runner x) with
  | None => set_rx_phase (Finishing s now) x
  | Some (t, cb) =>
      let u := run_Change t cb (rx_ui x) in
      set_rx_phase (match run_lock u with Some _ => Sending s now | None => Finishing s now end) (set_rx_ui u x)
  end.

(** The end of a turn, with the return of [run] when there is an error. *)
Definition rx_finish (err : option error) (r : Runner) (x : RunnerRun) : RunnerRun :=
  match err with
  | Some _ => set_rx_phase (Returned err) (set_rx_runner (return_ r) x)
  | None => set_rx_phase Waits (set_rx_runner r x)
  end.

(** A callback holds the mutex while it is called and while it sends. *)
Definition callback_runs (p : UIPhase) : bool :=
  match p with Calling _ _ | CallbackSends _ => true | _ => false end.
Definition callback_sends (p : UIPhase) : bool :=
  match p with CallbackSends _ => true | _ => false end.

(** [run] holds the mutex of the runner. *)
Definition critical (p : TurnPhase) : bool :=
  match p with Holding _ | Changing _ _ | Sending _ _ | Finishing _ _ => true | _ => false end.

(** ** What can happen *)

(** The steps of the goroutines. *)
Inductive rx_move : RunnerRun -> RunnerRun -> Prop :=
(* run *)
| rx_Acquire x : rx_phase x = Acquiring -> rx_move x (rx_acquire x)
| rx_Listen x : rx_phase x = Listening -> rx_move x (rx_listen x)
| rx_receive s x : rx_phase x = Waits -> rx_maint x <> MaintFresh -> rx_move x (set_rx_phase (HasState s) x)
| rx_receive_closed x :
    rx_phase x = Waits -> rx_closed x = true ->
    rx_move x (set_rx_phase (Returned None) (set_rx_runner (return_ (rx_runner x)) x))
| rx_lock s x :
    rx_phase x = HasState s -> rx_cb x = false -> rx_move x (set_rx_phase (Holding s) x)
| rx_Update s now x :
    rx_phase x = Holding s -> run_lock (rx_ui x) = None ->
    rx_move x (set_rx_phase (Changing s now) (set_rx_ui (set_run_primed (rx_ui x)) x))
| rx_Change s now x :
    rx_phase x = Changing s now -> run_lock (rx_ui x) = None -> rx_move x (rx_change s now x)
| rx_sent s now x :
    rx_phase x = Sending s now -> run_lock (rx_ui x) = None -> rx_move x (set_rx_phase (Finishing s now) x)
| rx_Finish s now start err r x :
    rx_phase x = Finishing s now -> handle_state s now start (rx_runner x) = Ret (err, r) ->
    rx_move x (rx_finish err r x)
(* done, which run and the user interface call when they return *)
| rx_done_run err x : rx_phase x = Returned err -> rx_move x (rx_cancel x)
| rx_done_ui err x : run_phase (rx_ui x) = RunReturned err -> rx_move x (rx_cancel x)
(* the goroutine that closes the maintainer *)
| rx_Release x : r_shutdown (rx_runner x) = true -> rx_closer x = CloserWaits -> rx_move x (rx_release x)
| rx_Close x : rx_closer x = CloserReleased -> rx_move x (rx_close x)
(* the program has ended *)
| rx_exit x : r_running (rx_runner x) = true -> rx_move x (set_rx_runner (shutdown (rx_runner x)) x)
(* the user interface, and the callbacks, which lock the mutex of the runner *)
| rx_start x : rx_started x = false -> run_lock (rx_ui x) = None -> rx_move x (set_rx_started x)
| rx_own u x :
    rx_started x = true -> run_own (rx_ui x) u ->
    rx_move x (set_rx_ui u (set_rx_cb (rx_cb x && callback_runs (run_phase u)) x))
| rx_cb_lock d cb result now x :
    run_phase (rx_ui x) = Calling d result -> dir_Callback d = Some cb -> rx_cb x = false ->
    critical (rx_phase x) = false ->
    rx_move x (set_rx_runner (call_back cb result now (rx_runner x)) (set_rx_cb true x))
| rx_cb_call d cb result x :
    run_phase (rx_ui x) = Calling d result -> dir_Callback d = Some cb -> rx_cb x = true ->
    (callback_locks d = true -> run_lock (rx_ui x) = None) ->
    rx_move x (set_rx_ui (run_callback d (rx_ui x))
                 (set_rx_cb (callback_sends (run_phase (run_callback d (rx_ui x)))) x)).

(** With the caller of [Run], who can cancel its context. *)
Inductive rx_step : RunnerRun -> RunnerRun -> Prop :=
| rx_moves x x' : rx_move x x' -> rx_step x x'
| rx_cancels x : rx_step x (rx_cancel x).

Definition rx_reachable (x : RunnerRun) : Prop := rtc rx_step rx_init x.

(** Both goroutines that [Run] waits for have returned. *)
Definition rx_returned (x : RunnerRun) : Prop :=
  (exists err, rx_phase x = Returned err) /\ (exists err, run_phase (rx_ui x) = RunReturned err).

(** A change is being sent that nobody will receive: the interface has not been
    started, for which it needs the lock of the sender, or its turn has received
    a directive already and cannot end before a mutex is unlocked, or fails. *)
Definition turn_blocked (p : UIPhase) : Prop :=
  match p with
  | Locking _ | TurnEnds (Some _) | RunReturned _ => True
  | Creating d | Showing d | Calling d _ => dir_Callback d <> None
  | _ => False
  end.

Definition is_sending (p : TurnPhase) : bool := match p with Sending _ _ => true | _ => false end.

Definition rx_hung (x : RunnerRun) : Prop :=
  is_sending (rx_phase x) = true /\ rx_cb x = false /\ is_Some (run_lock (rx_ui x))
  /\ (rx_started x = false \/ (run_recv (rx_ui x) <> Receiving /\ turn_blocked (run_phase (rx_ui x)))).

#[export] Instance turn_blocked_dec p : Decision (turn_blocked p).
Proof. destruct p as [| | | | | |[]|]; cbn; apply _. Defined.
#[export] Instance rx_hung_dec x : Decision (rx_hung x).
Proof. unfold rx_hung. apply _. Defined.

(** ** The invariant of the turns

    A callback sends only if the turn has received nothing yet: the next
    directive changes the type that the callback compares with. *)

(** The runner registers a callback for the type of dialog that it is for. *)
Definition proper (d : Directive) : Prop :=
  match dir_Callback d with
  | Some DisconnectedCallback => dir_Type d = Disconnected
  | Some ConnectedCallback => dir_Type d = Connected
  | _ => True
  end.

Definition phase_directive (p : UIPhase) : option Directive :=
  match p with
  | Selecting d | Locking d | Creating d | Showing d | Calling d _ | CallbackSends d => Some d
  | _ => None
  end.

Record turn_inv (s : UIRun) : Prop := {
  ti_directive d : phase_directive (run_phase s) = Some d -> d = zero_directive \/ last (run_turns s) = Some (Some d);
  ti_proper : Forall proper (run_sent s);
  ti_done : run_uidone s = true -> run_recv s = Receiving -> phase_directive (run_phase s) = None;
  ti_default : run_recv s = ReceivedDefault -> phase_directive (run_phase s) = None;
  ti_sends : callback_sends (run_phase s) = true -> run_recv s = Receiving;
}.

Lemma turn_inv_init : turn_inv (run_init false).
Proof. split; cbn; try done. intros d [= <-]. by left. Qed.

Lemma proper_zero d : d = zero_directive -> proper d.
Proof. by intros ->. Qed.

(** Directives that follow each other differ in their type. *)
Lemma changes_app_r t l1 d l2 : changes t (l1 ++ d :: l2) -> changes (dir_Type d) l2.
Proof. revert t. induction l1 as [|x l1 IH]; cbn; intros t [? ?]; eauto. Qed.

Lemma omap_id_last {A} (l : list (option A)) a : last l = Some (Some a) -> exists l', omap id l = l' ++ [a].
Proof.
  intros (l' & ->)%last_Some. exists (omap id l'). by rewrite omap_app.
Qed.

(** In a turn that has received a directive, the type is no longer its own. *)
Lemma received_differs s d d' :
  run_inv s -> turn_inv s -> run_lock s = None -> phase_directive (run_phase s) = Some d ->
  run_recv s = ReceivedNext d' -> d = zero_directive \/ run_current s <> dir_Type d.
Proof.
  intros Hinv [Hd _ _ _ _] Hl Hp Hr. destruct (Hd _ Hp) as [->|Hlast]; [by left|right].
  destruct (omap_id_last _ _ Hlast) as [l Hom]. destruct (ri_changes _ Hinv) as [Hch ->].
  rewrite (ri_sent _ Hinv), (ri_taken _ Hinv), Hl, Hr, Hom, app_nil_r, <-(assoc_L (++)) in *. cbn in *.
  apply changes_app_r in Hch. unfold last_type.
  change (l ++ [d; d']) with (l ++ [d] ++ [d']). rewrite (assoc_L (++)), last_snoc. cbn. apply Hch.
Qed.

Lemma CompareAndChange_other from to cb s : run_current s <> from -> run_CompareAndChange from to cb s = s.
Proof.
  intros Hne. unfold run_CompareAndChange. case_decide; [done|]. destruct (negb _); [done|].
  by rewrite decide_False.
Qed.

Lemma CompareAndChange_closed from to cb s : run_open s = false -> run_CompareAndChange from to cb s = s.
Proof. intros Ho. unfold run_CompareAndChange. case_decide; [done|]. by rewrite Ho. Qed.

(** The callback of a turn that has received something makes no change. *)
Lemma received_callback s d cb r :
  run_inv s -> turn_inv s -> proper d -> run_phase s = Calling d r -> dir_Callback d = Some cb ->
  (callback_locks d = true -> run_lock s = None) ->
  run_recv s <> Receiving -> run_callback d s = end_turn None s.
Proof.
  intros Hinv Hti Hpr Hp Hc Hlk Hr. unfold run_callback, callback_locks, proper in *. rewrite Hc in *.
  assert (Hno : forall t, dir_Type d = t -> t <> UINone -> run_lock s = None -> run_CompareAndChange t UINone None s = s).
  { intros t Ht Hn Hl. destruct (run_recv s) as [|d'| |] eqn:Hrv; [done| | |].
    - apply CompareAndChange_other. rewrite <-Ht.
      destruct (received_differs s d d' Hinv Hti Hl) as [->|?]; [by rewrite Hp|done| |done]. by rewrite <-Ht in Hn.
    - by apply CompareAndChange_closed, (ri_closed _ Hinv).
    - pose proof (ti_default _ Hti Hrv) as He. by rewrite Hp in He. }
  destruct cb; try done; cbn; rewrite (Hno _ Hpr) by auto; by rewrite Hlk.
Qed.

Lemma set_phase_turn p s :
  turn_inv s -> phase_directive p = phase_directive (run_phase s) \/ phase_directive p = None ->
  callback_sends p = false -> turn_inv (set_run_phase p s).
Proof. intros [H1 H2 H3 H3' H4] [Hp|Hp] Hc; split; cbn; rewrite ?Hp, ?Hc; done. Qed.

Lemma end_turn_turn err s : turn_inv s -> turn_inv (end_turn err s).
Proof. intros []. by split. Qed.

Lemma next_turn_turn d s : turn_inv s -> turn_inv (next_turn d s).
Proof.
  intros []. split; cbn; try done. intros d0 [= <-]. destruct d; cbn; [right; by rewrite last_snoc|by left].
Qed.

Lemma begin_send_turn d s : turn_inv s -> proper d -> turn_inv (begin_send d s).
Proof. intros [] Hd. split; cbn; try done. apply Forall_app. by split; [|constructor]. Qed.

Lemma run_Change_turn t cb s : turn_inv s -> proper (mkDirective t cb) -> turn_inv (run_Change t cb s).
Proof.
  intros Hti Hp. unfold run_Change. destruct (negb _); [done|]. case_decide; [|done]. by apply begin_send_turn.
Qed.

Lemma CompareAndChange_turn from to cb s :
  turn_inv s -> proper (mkDirective to cb) -> turn_inv (run_CompareAndChange from to cb s).
Proof.
  intros Hti Hp. unfold run_CompareAndChange. case_decide; [done|]. destruct (negb _); [done|].
  case_decide; [|done]. by apply begin_send_turn.
Qed.

Lemma run_own_turn s s' : run_own s s' -> run_inv s -> turn_inv s -> turn_inv s'.
Proof.
  intros Hs Hinv Hti. pose proof Hti as [H1 H2 H3 H3' H4].
  destruct Hs as [s Hc Ho Hl|d s Hl Hr|s Ho Hr|s Hd Hr|d s Hp Hd|d s Hp Hpr|d s Hp Hl
    |d err s Hp Ht|d s Hp|d s Hp Ht Hd|d r s Hp Ht Hr|d s Hp Ht Hd|d r s Hp Hc|err s Hp Hr|s Hp Hr|d s Hp Hr|s Hp Hr];
    try (by apply end_turn_turn); try (by apply next_turn_turn);
    try (by apply set_phase_turn; [done|rewrite ?Hp; cbn; auto|]).
  - by split.
  - split; cbn; try done.
    + intros d' Hd'. apply H1. by destruct (run_phase s).
    + by destruct (run_phase s).
  - split; cbn; try done. intros Hc. destruct (run_phase s) as [| | | | |d| |] eqn:Hp; try done.
    pose proof (ri_locked _ Hinv (ri_sends _ Hinv d Hp)). congruence.
  - split; cbn; try done.
    + intros _. by apply H3.
    + intros Hc. pose proof (H3 Hd Hr). by destruct (run_phase s).
Qed.

Lemma callback_changes_turn cb s : turn_inv s -> turn_inv (callback_changes cb s).
Proof. intros Hti. destruct cb; cbn; try done; by apply CompareAndChange_turn. Qed.

(** A callback that does not send ends the turn, and one that sends changes
    neither what was received nor the turn. *)
Lemma callback_changes_same cb s :
  run_recv (callback_changes cb s) = run_recv s /\ run_turns (callback_changes cb s) = run_turns s
  /\ run_uidone (callback_changes cb s) = run_uidone s.
Proof. destruct cb; cbn; try done; unfold run_CompareAndChange; repeat case_match; done. Qed.

Lemma run_callback_turn d s r :
  run_inv s -> turn_inv s -> run_phase s = Calling d r -> (callback_locks d = true -> run_lock s = None) ->
  turn_inv (run_callback d s).
Proof.
  intros Hinv Hti Hp Hl. destruct (dir_Callback d) as [cb|] eqn:Hc;
    [|unfold run_callback; rewrite Hc; by apply end_turn_turn].
  destruct (decide (run_recv s = Receiving)) as [Hr|Hr].
  - assert (Hcase : run_callback d s = end_turn None s
        \/ run_callback d s = set_run_phase (CallbackSends d) (callback_changes cb s)
        \/ run_callback d s = end_turn None (callback_changes cb s)).
    { unfold run_callback. rewrite Hc. cbv zeta.
      destruct cb; try (by left); destruct (run_lock (callback_changes _ s)); auto. }
    pose proof (callback_changes_turn cb s Hti) as Hti'. pose proof (callback_changes_same cb s) as (Er & Et & Ed).
    destruct Hcase as [->|[->| ->]]; [by apply end_turn_turn| |by apply end_turn_turn].
    destruct Hti' as [H1 H2 H3 H3' H4], Hti as [J1 J2 J3 J3' J4].
    split; cbn; rewrite ?Er, ?Et, ?Ed; try done.
    + intros d' [= <-]. apply J1. by rewrite Hp.
    + intros Hd. specialize (J3 Hd Hr). by rewrite Hp in J3.
    + by rewrite Hr.
  - rewrite (received_callback s d cb r); try done; [by apply end_turn_turn|].
    destruct (ti_directive _ Hti d) as [->|Hlast]; [by rewrite Hp|done|].
    destruct (omap_id_last _ _ Hlast) as [l Hom]. pose proof (ti_proper _ Hti) as Hpr.
    rewrite (ri_sent _ Hinv), (ri_taken _ Hinv), Hom in Hpr. rewrite !Forall_app, Forall_singleton in Hpr. apply Hpr.
Qed.

(** ** The invariant of the mutexes *)

Definition in_callback (p : UIPhase) : Prop :=
  match p with
  | Calling d _ => dir_Callback d <> None
  | CallbackSends _ => True
  | _ => False
  end.

Record locks_inv (x : RunnerRun) : Prop := {
  li_ui : run_inv (rx_ui x);
  li_turn : turn_inv (rx_ui x);
  li_critical : critical (rx_phase x) = true -> rx_cb x = false;
  li_lock : is_Some (run_lock (rx_ui x)) ->
    is_sending (rx_phase x) = true \/ callback_sends (run_phase (rx_ui x)) = true;
  li_cb : rx_cb x = true -> in_callback (run_phase (rx_ui x));
  li_sends : callback_sends (run_phase (rx_ui x)) = true -> rx_cb x = true;
  li_start : rx_started x = false ->
    run_phase (rx_ui x) = Selecting zero_directive /\ run_recv (rx_ui x) = Receiving;
}.

Lemma locks_inv_init : locks_inv rx_init.
Proof. split; try apply run_inv_init; try apply turn_inv_init; cbn; done. Qed.

Lemma handler_change_proper s now r t cb : handler_change s now r = Some (t, cb) -> proper (mkDirective t cb).
Proof.
  unfold handler_change, acknowledge_change. repeat case_match; intros; simplify_eq; done.
Qed.

(** What a move of the interface keeps. *)
Lemma run_own_lock s s' : run_own s s' -> is_Some (run_lock s') -> run_lock s' = run_lock s.
Proof. intros [] [d0 Hd0]; cbn in *; congruence. Qed.

Lemma run_own_sends s s' : run_own s s' -> callback_sends (run_phase s') = true -> callback_sends (run_phase s) = true.
Proof. intros Hs. destruct Hs; cbn in *; try done. by destruct (run_phase s). Qed.

Lemma run_own_callback s s' : run_own s s' -> in_callback (run_phase s) -> callback_runs (run_phase s') = true ->
  in_callback (run_phase s').
Proof.
  intros Hs Hc. destruct Hs; cbn in *; try done; destruct (run_phase s); try done; congruence.
Qed.

Lemma run_own_sending s s' :
  run_own s s' -> callback_sends (run_phase s) = true -> is_Some (run_lock s') -> callback_sends (run_phase s') = true.
Proof.
  intros Hs Hc Hl. destruct Hs; cbn in *; try done; by rewrite H in Hc.
Qed.

Lemma run_Change_lock t cb s :
  run_phase (run_Change t cb s) = run_phase s /\ run_recv (run_Change t cb s) = run_recv s.
Proof. unfold run_Change. by repeat case_match. Qed.

Lemma locks_own x u : locks_inv x -> run_own (rx_ui x) u -> rx_started x = true ->
  locks_inv (set_rx_ui u (set_rx_cb (rx_cb x && callback_runs (run_phase u)) x)).
Proof.
  intros [H1 H2 H3 H4 H5 H6 H7] Hs Hst. split; cbn.
  - by eapply run_own_inv.
  - by eapply run_own_turn.
  - intros Hc. by rewrite (H3 Hc).
  - intros Hl. pose proof (run_own_lock _ _ Hs Hl) as He. rewrite He in Hl.
    destruct (H4 Hl) as [?|Hc]; [by left|right]. eapply run_own_sending; [done|done|by rewrite He].
  - intros [Hc Hr]%andb_true_iff. eapply run_own_callback; [done|by apply H5|done].
  - intros Hc. rewrite (H6 (run_own_sends _ _ Hs Hc)). by destruct (run_phase u).
  - congruence.
Qed.

Lemma locks_phase p x :
  locks_inv x -> (critical p = true -> rx_cb x = false) ->
  (is_sending (rx_phase x) = true -> is_sending p = true \/ run_lock (rx_ui x) = None) ->
  locks_inv (set_rx_phase p x).
Proof.
  intros [H1 H2 H3 H4 H5 H6 H7] Hc Hl. split; cbn; try done.
  intros [d Hd]. destruct H4 as [H4|H4]; [by eexists| |by right]. destruct (Hl H4); [by left|congruence].
Qed.

Lemma locks_change s now x :
  locks_inv x -> rx_phase x = Changing s now -> run_lock (rx_ui x) = None -> locks_inv (rx_change s now x).
Proof.
  intros Hinv Hp Hl. unfold rx_change. destruct (handler_change _ _ _) as [[t cb]|] eqn:Hc.
  - pose proof Hinv as [H1 H2 H3 H4 H5 H6 H7]. rewrite Hp in H3.
    pose proof (run_Change_lock t cb (rx_ui x)) as (Ep & Er). split; cbn; rewrite ?Ep, ?Er; try done.
    + eapply run_step_inv; [|done]. by apply rs_Change.
    + apply run_Change_turn; [done|]. by eapply handler_change_proper.
    + intros _. by apply H3.
    + intros [d Hd]. rewrite Hd. by left.
  - apply locks_phase; [done| |by rewrite Hp]. intros _. apply (li_critical _ Hinv). by rewrite Hp.
Qed.

Lemma locks_callback d cb r x :
  locks_inv x -> run_phase (rx_ui x) = Calling d r -> dir_Callback d = Some cb -> rx_cb x = true ->
  (callback_locks d = true -> run_lock (rx_ui x) = None) ->
  locks_inv (set_rx_ui (run_callback d (rx_ui x))
    (set_rx_cb (callback_sends (run_phase (run_callback d (rx_ui x)))) x)).
Proof.
  intros [H1 H2 H3 H4 H5 H6 H7] Hp Hc Hx Hl.
  assert (Hno : critical (rx_phase x) = false) by (destruct (critical _); [by rewrite H3 in Hx|done]).
  assert (Hlock : run_lock (rx_ui x) = None).
  { destruct (run_lock (rx_ui x)); [|done]. destruct H4 as [H4|H4]; [by eexists| |by rewrite Hp in H4].
    by destruct (rx_phase x). }
  split; cbn; try done.
  - by eapply run_callback_inv.
  - by eapply run_callback_turn.
  - by rewrite Hno.
  - intros Hs. right. revert Hs. unfold run_callback. rewrite Hc. cbn zeta.
    destruct cb; cbn; rewrite ?Hlock; try (by intros []);
      destruct (run_lock (run_CompareAndChange _ _ _ _)) eqn:He; cbn; rewrite ?He; try done; by intros [].
  - intros Hs. by destruct (run_phase (run_callback d (rx_ui x))).
  - intros Hs. destruct (H7 Hs) as [He _]. rewrite Hp in He. discriminate.
Qed.

(** What the locks do not depend on. *)
Lemma locks_runner r x : locks_inv x -> locks_inv (set_rx_runner r x).
Proof. intros []. by split. Qed.
Lemma locks_maint m c b x : locks_inv x -> locks_inv (set_rx_maint m c b x).
Proof. intros []. by split. Qed.
Lemma locks_cancel x : locks_inv x -> locks_inv (rx_cancel x).
Proof.
  intros [H1 H2 H3 H4 H5 H6 H7]. split; cbn; try done.
  - eapply run_step_inv; [|done]. apply rs_cancel.
  - destruct H2. by split.
Qed.

Lemma locks_primed x : locks_inv x -> run_lock (rx_ui x) = None ->
  locks_inv (set_rx_ui (set_run_primed (rx_ui x)) x).
Proof.
  intros [H1 H2 H3 H4 H5 H6 H7] Hl. split; cbn; try done.
  - eapply run_step_inv; [|done]. by apply rs_Update.
  - destruct H2. by split.
Qed.

Lemma locks_move x x' : rx_move x x' -> locks_inv x -> locks_inv x'.
Proof.
  intros Hm Hinv.
  destruct Hm as [x Hp|x Hp|s x Hp Hm|x Hp Hc|s x Hp Hc|s now x Hp Hl|s now x Hp Hl|s now x Hp Hl
    |s now start err r x Hp Hh|err x Hp|err x Hp|x Hd Hc|x Hc|x Hr|x Hs Hl|u x Hs Hu|d cb res now x Hp Hc Hcb Hcr
    |d cb res x Hp Hc Hcb Hl];
    try (by apply locks_own); try (by eapply locks_callback); try (by apply locks_change);
    try (by apply locks_cancel); try (by apply locks_maint); try (by apply locks_runner);
    try (apply locks_phase; cbn; rewrite ?Hp; try done; try apply locks_maint; try apply locks_runner; done).
  - apply locks_phase; [by apply locks_primed|cbn|cbn; by rewrite Hp].
    intros _. apply (li_critical _ Hinv). by rewrite Hp.
  - apply locks_phase; [done| |by right]. intros _. apply (li_critical _ Hinv). by rewrite Hp.
  - unfold rx_finish. destruct err; apply locks_phase; cbn; rewrite ?Hp; try done; by apply locks_runner.
  - destruct Hinv as [H1 H2 H3 H4 H5 H6 H7]. split; cbn; try done.
  - apply locks_runner. destruct Hinv as [H1 H2 H3 H4 H5 H6 H7]. split; cbn; try done.
    + by rewrite Hcr.
    + intros _. rewrite Hp. cbn. by rewrite Hc.
Qed.

(** ** The invariant of the runner and of the maintainer *)

Definition has_returned (p : TurnPhase) : bool := match p with Returned _ => true | _ => false end.
Definition listens (p : TurnPhase) : bool := match p with Acquiring | Listening => false | _ => true end.

(** A maintainer that is closed has stopped and has closed the channel, unless
    it was started later; then the program never runs. *)
Record turns_inv (x : RunnerRun) : Prop := {
  ki_reachable : runner_reachable (Ret (rx_runner x));
  ki_ended : r_ended (rx_runner x) = has_returned (rx_phase x);
  ki_idle : listens (rx_phase x) = false -> r_running (rx_runner x) = false;
  ki_fresh : rx_maint x = MaintFresh <-> rx_phase x = Acquiring;
  ki_shutdown : rx_closer x <> CloserWaits -> r_shutdown (rx_runner x) = true;
  ki_orphan : rx_closer x = CloserDone -> rx_maint x = MaintStarted -> r_running (rx_runner x) = false;
  ki_done : rx_closer x = CloserDone -> rx_maint x = MaintStopped -> listens (rx_phase x) = true -> rx_closed x = true;
  ki_closed : listens (rx_phase x) = true -> rx_closed x = true -> rx_maint x = MaintStopped;
  ki_returned : rx_phase x = Returned None -> rx_closed x = true;
}.

Lemma turns_inv_init : turns_inv rx_init.
Proof. split; cbn; try done. apply runner_reach_New. Qed.

Definition keeps_down (r r' : Runner) : Prop :=
  (r_shutdown r = true -> r_shutdown r' = true)
  /\ (r_shutdown r = true -> r_running r = false -> r_running r' = false).

Lemma proceed_down s start r err r' :
  (if negb (r_running r) then execute s start r else Ret (None, r)) = Ret (err, r') ->
  keeps_down r r' /\ r_ended r' = r_ended r.
Proof.
  unfold execute, keeps_down. destruct (r_running r) eqn:Hr; cbn; [by intros [= _ <-]|].
  destruct (r_shutdown r) eqn:Hd; [by intros [= _ <-]|]. by destruct start; intros [= _ <-].
Qed.

Lemma same_down r r' : same_program r r' -> keeps_down r r' /\ r_ended r' = r_ended r.
Proof. intros (H1 & _ & H3 & H4). unfold keeps_down. by rewrite H1. Qed.

Lemma handle_state_down s now start r err r' :
  handle_state s now start r = Ret (err, r') -> keeps_down r r' /\ r_ended r' = r_ended r.
Proof.
  unfold handle_state. set (r0 := set_ui _ r). assert (E : keeps_down r r' /\ r_ended r' = r_ended r
    <-> keeps_down r0 r' /\ r_ended r' = r_ended r0) by done.
  rewrite E. clearbody r0. clear E r.
  assert (Hp : (let r := set_failed false (set_warned false (acknowledge r0)) in
     if negb (r_running r) then execute s start r else Ret (None, r)) = Ret (err, r') ->
     keeps_down r0 r' /\ r_ended r' = r_ended r0).
  { cbn zeta. intros (H & He)%proceed_down. destruct (acknowledge_same r0) as (H1 & _ & H3 & H4).
    rewrite He. cbn. split; [|done]. unfold keeps_down in *. cbn in *. rewrite <-H1. intuition. }
  case_decide.
  - intros [= E]. apply same_down. change r' with (err, r').2. rewrite <-E. apply handleError_same.
  - destruct (state_LeaseNotRequired s); [exact Hp|]. case_decide; [|case_decide; [exact Hp|by intros [= _ <-]]].
    intros [= E]. apply same_down. change r' with (err, r').2. rewrite <-E. apply handleQueued_same.
Qed.

Lemma call_back_down cb res now r :
  keeps_down r (call_back cb res now r) /\ r_ended (call_back cb res now r) = r_ended r.
Proof. apply same_down, call_back_same. Qed.

Lemma turns_ui u x : turns_inv x -> turns_inv (set_rx_ui u x).
Proof. intros []. by split. Qed.
Lemma turns_cb b x : turns_inv x -> turns_inv (set_rx_cb b x).
Proof. intros []. by split. Qed.

(** A change of the runner outside of its turns. *)
Lemma turns_runner r x :
  turns_inv x -> runner_step (rx_runner x) (Ret r) -> keeps_down (rx_runner x) r ->
  r_running r = r_running (rx_runner x) -> r_ended r = r_ended (rx_runner x) -> turns_inv (set_rx_runner r x).
Proof.
  intros [] Hs [Hd _] Hr He. split; cbn; rewrite ?Hr, ?He; try done; [by eapply runner_reach_step|by auto].
Qed.

Lemma turns_cancel x : turns_inv x -> turns_inv (rx_cancel x).
Proof. intros H. apply turns_ui, turns_runner; try done. apply runner_cancel. Qed.

(** A step of [run] between its turns. *)
Lemma turns_phase p x :
  turns_inv x -> listens (rx_phase x) = true -> has_returned (rx_phase x) = false ->
  listens p = true -> has_returned p = false -> turns_inv (set_rx_phase p x).
Proof.
  intros [] Hl Hn Hl' Hn'. rewrite Hn, Hl in *. split; cbn; rewrite ?Hl', ?Hn'; try done.
  - rewrite ki_fresh0. split; [by intros E; rewrite E in Hl|by intros ->].
  - by intros ->.
Qed.

Lemma turns_acquire x : turns_inv x -> rx_phase x = Acquiring -> turns_inv (rx_acquire x).
Proof.
  intros [] Hp. rewrite Hp in *. split; cbn; try done; by auto.
Qed.

Lemma turns_listen x : turns_inv x -> rx_phase x = Listening -> turns_inv (rx_listen x).
Proof.
  intros [] Hp. rewrite Hp in *. split; cbn; try done; try auto.
  - rewrite ki_fresh0. by split.
  - intros _ -> _. done.
  - intros _. destruct (rx_maint x) eqn:Hm; try done. by destruct ki_fresh0 as [H _]; specialize (H eq_refl).
Qed.

Lemma turns_closed x : turns_inv x -> rx_phase x = Waits -> rx_closed x = true ->
  turns_inv (set_rx_phase (Returned None) (set_rx_runner (return_ (rx_runner x)) x)).
Proof.
  intros [] Hp Hc. rewrite Hp in *. split; cbn; try done; try auto.
  - eapply runner_reach_step; [done|]. by apply runner_closed.
  - rewrite ki_fresh0. by split.
Qed.

Lemma turns_finish s now start err r x :
  turns_inv x -> rx_phase x = Finishing s now -> handle_state s now start (rx_runner x) = Ret (err, r) ->
  turns_inv (rx_finish err r x).
Proof.
  intros [] Hp Hh. rewrite Hp in *. cbn in *.
  pose proof (runner_state (rx_runner x) s now start ki_ended0) as Hs. unfold run_turn in Hs. rewrite Hh in Hs. cbn in Hs.
  pose proof (handle_state_down _ _ _ _ _ _ Hh) as [[Hd Hr] He].
  assert (Hsh : rx_closer x <> CloserWaits -> r_shutdown r = true) by auto.
  assert (Hor : rx_closer x = CloserDone -> rx_maint x = MaintStarted -> r_running r = false).
  { intros Hc Hm. apply Hr; [apply ki_shutdown0; congruence|by apply ki_orphan0]. }
  unfold rx_finish. destruct err as [e|]; split; cbn; try done; try (by eapply runner_reach_step);
    try (rewrite ki_fresh0; by split).
  by rewrite He.
Qed.

Lemma turns_release x :
  turns_inv x -> r_shutdown (rx_runner x) = true -> rx_closer x = CloserWaits -> turns_inv (rx_release x).
Proof.
  intros [] Hd Hc. split; cbn; try done; try auto.
  - rewrite <-ki_fresh0. by destruct (rx_maint x).
  - intros Hl Hcl. by rewrite (ki_closed0 Hl Hcl).
Qed.

Lemma turns_close x : turns_inv x -> rx_closer x = CloserReleased -> turns_inv (rx_close x).
Proof.
  intros [] Hc. assert (Hd : r_shutdown (rx_runner x) = true) by (apply ki_shutdown0; by rewrite Hc).
  split; cbn; try done; try auto.
  - rewrite <-ki_fresh0. by destruct (rx_maint x).
  - intros _ Hm. by destruct (rx_maint x).
  - intros _ _ Hl. by destruct (rx_phase x).
  - intros Hl _. destruct (rx_maint x) eqn:Hm; try done. destruct ki_fresh0 as [H _]. by rewrite (H eq_refl) in Hl.
  - intros ->. done.
Qed.

Lemma turns_move x x' : rx_move x x' -> turns_inv x -> turns_inv x'.
Proof.
  intros Hm Hinv.
  destruct Hm as [x Hp|x Hp|s x Hp Hm|x Hp Hc|s x Hp Hc|s now x Hp Hl|s now x Hp Hl|s now x Hp Hl
    |s now start err r x Hp Hh|err x Hp|err x Hp|x Hd Hc|x Hc|x Hr|x Hs Hl|u x Hs Hu|d cb res now x Hp Hc Hcb Hcr
    |d cb res x Hp Hc Hcb Hl];
    try (by apply turns_acquire); try (by apply turns_listen); try (by apply turns_closed);
    try (by eapply turns_finish); try (by apply turns_release); try (by apply turns_close);
    try (by apply turns_cancel); try (by apply turns_ui, turns_cb, Hinv);
    try (apply turns_phase; cbn; rewrite ?Hp; try done; by apply turns_ui).
  - unfold rx_change. destruct (handler_change _ _ _) as [[t cb]|];
      apply turns_phase; cbn; rewrite ?Hp; try done; try (by apply turns_ui); by case_match.
  - apply turns_runner; try done. by apply runner_exit.
  - by destruct Hinv.
  - pose proof (call_back_same cb res now (rx_runner x)) as (Hr & _ & He & _).
    apply turns_runner; try done; [by apply turns_cb|apply runner_callback|apply call_back_down].
Qed.

Lemma rx_reachable_inv x : rx_reachable x -> locks_inv x /\ turns_inv x.
Proof.
  intros Hr. assert (H : locks_inv rx_init /\ turns_inv rx_init) by (split; [apply locks_inv_init|apply turns_inv_init]).
  induction Hr as [|x1 x2 x3 H12 _ IH]; [done|]. apply IH. destruct H as [Hl Ht], H12 as [x1 x2 Hm|x1].
  - split; [by eapply locks_move|by eapply turns_move].
  - split; [by apply locks_cancel|by apply turns_cancel].
Qed.
