(* ===== verification/RunnerRunProps.v ===== *)
(** * What the goroutines of the runner guarantee, and where they hang *)

From S2P Require Import Prelude GoTime Lease LeaseUI LeaseUIRun Runner RunnerProps RunnerRun.

(** ** A hung runner stays hung *)

Lemma hung_own u x : run_own (rx_ui x) u -> rx_started x = true -> rx_hung x ->
  rx_hung (set_rx_ui u (set_rx_cb (rx_cb x && callback_runs (run_phase u)) x)).
Proof.
  intros Hs Hst (Hp & Hc & [d0 Hl] & [He|[Hr Hb]]); [congruence|].
  unfold rx_hung. cbn. rewrite Hc. split; [done|]. split; [done|].
  destruct x as [s st r p c m cl cd]. cbn in *.
  assert (is_Some (run_lock u) /\ run_recv u <> Receiving /\ turn_blocked (run_phase u)); [|tauto].
  destruct Hs as [s Hd Ho Hl'|d s Hl' Hr'|s Ho Hr'|s Hd Hr'|d s Hph Hd|d s Hph Hpr|d s Hph Hl'
    |d err s Hph Ht|d s Hph|d s Hph Ht Hd|d res s Hph Ht Hr'|d s Hph Ht Hd|d res s Hph Hcb|err s Hph Hr'|s Hph Hr'
    |d s Hph Hr'|s Hph Hr']; try congruence; try (rewrite Hph in Hb; cbn in *; done);
    rewrite ?Hph in Hb; split; try (by eexists); done.
Qed.

Lemma hung_move x x' : rx_move x x' -> rx_hung x -> rx_hung x'.
Proof.
  intros Hm Hh. pose proof Hh as (Hp & Hc & [d0 Hl] & Hb).
  destruct Hm as [x Hx|x Hx|s x Hx Hm|x Hx Hcl|s x Hx Hcb|s now x Hx Hl'|s now x Hx Hl'|s now x Hx Hl'
    |s now start err r x Hx Hh'|err x Hx|err x Hx|x Hd Hcl|x Hcl|x Hr|x Hs Hl'|u x Hs Hu|d cb res now x Hx Hd Hcb Hcr
    |d cb res x Hx Hd Hcb Hl']; try (rewrite Hx in Hp; done); try congruence; try (by apply hung_own);
    try (by destruct (rx_phase x)); by split_and!; [| |by eexists|].
Qed.

Lemma hung_step x x' : rx_step x x' -> rx_hung x -> rx_hung x'.
Proof. intros [x1 x2 Hm|x1] Hh; [by eapply hung_move|done]. Qed.

Lemma hung_forever x x' : rtc rx_step x x' -> rx_hung x -> rx_hung x'.
Proof. induction 1 as [|x1 x2 x3 H12 _ IH]; [done|]. intros Hh. by eapply IH, hung_step. Qed.

Lemma hung_not_returned x : rx_hung x -> ~ rx_returned x.
Proof. intros (Hp & _) [[err He] _]. by rewrite He in Hp. Qed.

(** ** Progress *)

Definition rx_ends (x : RunnerRun) : Prop := exists x', rtc rx_move x x' /\ rx_returned x'.

Lemma rx_ends_step x x' : rx_move x x' -> rx_ends x' -> rx_ends x.
Proof. intros Hs (x'' & Hr & He). exists x''. split; [by eapply rtc_l|done]. Qed.
Lemma rx_ends_steps x x' : rtc rx_move x x' -> rx_ends x' -> rx_ends x.
Proof. intros Hs (x'' & Hr & He). exists x''. split; [by etrans|done]. Qed.

(** *** Once [run] has returned *)

(** A callback that runs is sending: none is about to be called. *)
Definition only_sends (x : RunnerRun) : Prop :=
  rx_cb x = true -> callback_sends (run_phase (rx_ui x)) = true.

Lemma own_only_sends s s' :
  run_own s s' -> callback_sends (run_phase s) = true -> callback_runs (run_phase s') = true ->
  callback_sends (run_phase s') = true.
Proof. intros Hs Hc Hr. destruct Hs; cbn in *; try done; by destruct (run_phase s). Qed.

Lemma lift_move u x :
  run_move (rx_ui x) u -> rx_started x = true -> critical (rx_phase x) = false -> only_sends x ->
  exists x', rtc rx_move x x' /\ rx_ui x' = u /\ rx_phase x' = rx_phase x /\ rx_started x' = true /\ only_sends x'.
Proof.
  intros Hm Hst Hcr Ho. remember (rx_ui x) as s eqn:Hs. destruct Hm as [s u Hu|d cb r s Hp Hc Hl]; subst s.
  - eexists. split; [apply rtc_once; by eapply rx_own|]. split_and!; try done.
    intros [Hcb Hr]%andb_true_iff. cbn in *. eapply own_only_sends; [done|by apply Ho|done].
  - assert (Hcb : rx_cb x = false).
    { destruct (rx_cb x) eqn:Hcb; [|done]. specialize (Ho Hcb). by rewrite Hp in Ho. }
    eexists. split; [eapply rtc_l; [by eapply (rx_cb_lock d cb r zero_time)|]; apply rtc_once; by eapply rx_cb_call|].
    split_and!; try done. by unfold only_sends.
Qed.

Lemma lift_moves u x :
  rtc run_move (rx_ui x) u -> rx_started x = true -> critical (rx_phase x) = false -> only_sends x ->
  exists x', rtc rx_move x x' /\ rx_ui x' = u /\ rx_phase x' = rx_phase x.
Proof.
  intros Hr. remember (rx_ui x) as s eqn:Hs. revert x Hs.
  induction Hr as [s|s1 s2 s3 H12 _ IH]; intros x -> Hst Hcr Ho; [by exists x|].
  destruct (lift_move _ _ H12 Hst Hcr Ho) as (x1 & Hr1 & Hu1 & Hp1 & Hst1 & Ho1).
  destruct (IH x1) as (x' & Hr' & Hu' & Hp'); try done; [by rewrite Hp1|].
  exists x'. split; [by etrans|]. split; [done|by rewrite Hp'].
Qed.

Lemma returned_ends err x :
  locks_inv x -> stopped (rx_ui x) -> rx_started x = true -> rx_cb x = false -> rx_phase x = Returned err -> rx_ends x.
Proof.
  intros Hinv Hst Hs Hc Hp. destruct (stopped_returns _ (li_ui _ Hinv) Hst) as (u & e & Hr & He).
  destruct (lift_moves u x) as (x' & Hr' & Hu & Hp'); try done; [by rewrite Hp|unfold only_sends; by rewrite Hc|].
  exists x'. split; [done|]. split; [rewrite Hp'|rewrite Hu]; by eexists.
Qed.

(** *** Once the user interface has been stopped *)

(** The context is cancelled, and no one but [run] needs a mutex. *)
Record ready (x : RunnerRun) : Prop := {
  rd_locks : locks_inv x;
  rd_turns : turns_inv x;
  rd_stopped : stopped (rx_ui x);
  rd_started : rx_started x = true;
  rd_cb : rx_cb x = false;
  rd_down : r_shutdown (rx_runner x) = true;
}.

Lemma ready_move x x' :
  ready x -> rx_move x x' -> stopped (rx_ui x') -> rx_started x' = true -> rx_cb x' = false ->
  r_shutdown (rx_runner x') = true -> ready x'.
Proof. intros [] Hm. split; try done; [by eapply locks_move|by eapply turns_move]. Qed.

(** A change is ignored. *)
Lemma stopped_change s now x : stopped (rx_ui x) -> rx_change s now x = set_rx_phase (Finishing s now) (set_rx_ui (rx_ui x) x).
Proof.
  intros (Ho & Hl & _). unfold rx_change, run_Change. destruct (handler_change _ _ _) as [[t cb]|]; [|by destruct x].
  by rewrite Ho; cbn; rewrite Hl.
Qed.

(** [run] reaches the end of its turn, with the runner as it was. *)
Definition finishes (s : State) (x : RunnerRun) : Prop :=
  exists x' now, rtc rx_move x x' /\ ready x' /\ rx_phase x' = Finishing s now /\ rx_runner x' = rx_runner x
    /\ rx_closer x' = rx_closer x /\ rx_maint x' = rx_maint x.

Lemma changing_finishes s now x : ready x -> rx_phase x = Changing s now -> finishes s x.
Proof.
  intros Hrd Hp. pose proof Hrd as [H1 H2 H3 H4 H5 H6]. pose proof H3 as (Ho & Hl & Hpr).
  pose proof (rx_Change s now x Hp Hl) as Hm. rewrite (stopped_change s now x H3) in Hm.
  eexists _, now. split; [by apply rtc_once|]. split; [|done]. by eapply ready_move.
Qed.

Lemma holding_finishes s x : ready x -> rx_phase x = Holding s -> finishes s x.
Proof.
  intros Hrd Hp. pose proof Hrd as [H1 H2 (Ho & Hl & Hpr) H4 H5 H6].
  pose proof (rx_Update s zero_time x Hp Hl) as Hm.
  destruct (changing_finishes s zero_time _ (ready_move _ _ Hrd Hm ltac:(done) H4 H5 H6) eq_refl)
    as (x' & now & Hr & Hx'). exists x', now. split; [by eapply rtc_l|done].
Qed.

Lemma has_state_finishes s x : ready x -> rx_phase x = HasState s -> finishes s x.
Proof.
  intros Hrd Hp. pose proof Hrd as [H1 H2 H3 H4 H5 H6]. pose proof (rx_lock s x Hp H5) as Hm.
  destruct (holding_finishes s _ (ready_move _ _ Hrd Hm H3 H4 H5 H6) eq_refl) as (x' & now & Hr & Hx').
  exists x', now. split; [by eapply rtc_l|done].
Qed.

(** The program cannot be started any more. *)
Lemma granted_fails now r :
  r_running r = false -> r_shutdown r = true ->
  exists err r', handle_state (granted Active) now None r = Ret (Some err, r').
Proof.
  intros Hr Hd. unfold handle_state. rewrite decide_False by (cbn; auto). cbn.
  unfold handleActive, execute, acknowledge. cbn. destruct (r_warned r); cbn; rewrite ?Hr, ?Hd; cbn; [by do 2 eexists|].
  destruct (r_restored r); cbn; rewrite ?Hr, ?Hd; cbn; by do 2 eexists.
Qed.

Lemma waits_closed_ends x : ready x -> rx_phase x = Waits -> rx_closed x = true -> rx_ends x.
Proof.
  intros Hrd Hp Hc. pose proof Hrd as [H1 H2 H3 H4 H5 H6]. pose proof (rx_receive_closed x Hp Hc) as Hm.
  eapply rx_ends_step; [exact Hm|]. eapply (returned_ends None); try done. by eapply locks_move.
Qed.

Lemma waits_released_ends x : ready x -> rx_phase x = Waits -> rx_closer x = CloserReleased -> rx_ends x.
Proof.
  intros Hrd Hp Hc. pose proof Hrd as [H1 H2 H3 H4 H5 H6]. pose proof (rx_Close x Hc) as Hm.
  eapply rx_ends_step; [exact Hm|]. apply waits_closed_ends; [by eapply ready_move|done|cbn; by rewrite Hp].
Qed.

(** The maintainer was started after it had been closed. *)
Lemma orphan_ends x : ready x -> rx_phase x = Waits -> rx_maint x = MaintStarted ->
  r_running (rx_runner x) = false -> rx_ends x.
Proof.
  intros Hrd Hp Hmt Hrun. pose proof Hrd as [H1 H2 H3 H4 H5 H6].
  pose proof (rx_receive (granted Active) x Hp ltac:(by rewrite Hmt)) as Hm. eapply rx_ends_step; [exact Hm|].
  destruct (has_state_finishes (granted Active) _ (ready_move _ _ Hrd Hm H3 H4 H5 H6) eq_refl)
    as (x' & now & Hr & Hrd' & Hp' & He & _).
  eapply rx_ends_steps; [exact Hr|].
  destruct (granted_fails now (rx_runner x') ltac:(by rewrite He) (rd_down _ Hrd')) as (e & r' & Hh).
  pose proof (rx_Finish _ _ _ _ _ _ Hp' Hh) as Hm'. eapply rx_ends_step; [exact Hm'|].
  pose proof Hrd' as [J1 J2 J3 J4 J5 J6]. eapply (returned_ends (Some e)); try done. by eapply locks_move.
Qed.

Lemma waits_ends x : ready x -> rx_phase x = Waits -> rx_ends x.
Proof.
  intros Hrd Hp. pose proof Hrd as [H1 H2 H3 H4 H5 H6].
  destruct (rx_closer x) eqn:Hc; [|by apply waits_released_ends|].
  - pose proof (rx_Release x H6 Hc) as Hm. eapply rx_ends_step; [exact Hm|].
    apply waits_released_ends; [by eapply ready_move|done|done].
  - destruct (rx_maint x) eqn:Hmt.
    + apply (ki_fresh _ H2) in Hmt. congruence.
    + apply orphan_ends; try done. by apply (ki_orphan _ H2).
    + apply waits_closed_ends; try done. apply (ki_done _ H2); try done. by rewrite Hp.
Qed.

Lemma finishing_ends s now x : ready x -> rx_phase x = Finishing s now -> rx_ends x.
Proof.
  intros Hrd Hp. pose proof Hrd as [H1 H2 H3 H4 H5 H6].
  destruct (runner_reachable_inv _ (ki_reachable _ H2)) as (r0 & [= <-] & Hinv).
  destruct (handle_state_inv s now None _ Hinv) as (err & r & Hh & _).
  pose proof (rx_Finish _ _ _ _ _ _ Hp Hh) as Hm. eapply rx_ends_step; [exact Hm|].
  pose proof (handle_state_down _ _ _ _ _ _ Hh) as [[Hd _] _].
  destruct err as [e|]; [eapply (returned_ends (Some e)); try done; by eapply locks_move|].
  apply waits_ends; [|done]. eapply ready_move; try done. by apply Hd.
Qed.

Lemma finishes_ends s x : finishes s x -> rx_ends x.
Proof. intros (x' & now & Hr & Hrd & Hp & _). eapply rx_ends_steps; [exact Hr|]. by eapply finishing_ends. Qed.

Lemma ready_ends x : ready x -> rx_ends x.
Proof.
  intros Hrd. pose proof Hrd as [H1 H2 H3 H4 H5 H6].
  assert (Hlis : forall x, ready x -> rx_phase x = Listening -> rx_ends x).
  { clear. intros x Hrd Hp. pose proof Hrd as [H1 H2 H3 H4 H5 H6]. pose proof (rx_Listen x Hp) as Hm.
    eapply rx_ends_step; [exact Hm|]. apply waits_ends; [by eapply ready_move|done]. }
  destruct (rx_phase x) as [| | |s|s|s now|s now|s now|err] eqn:Hp.
  - pose proof (rx_Acquire x Hp) as Hm. eapply rx_ends_step; [exact Hm|]. apply Hlis; [by eapply ready_move|done].
  - by apply Hlis.
  - by apply waits_ends.
  - by eapply finishes_ends, has_state_finishes.
  - by eapply finishes_ends, holding_finishes.
  - by eapply finishes_ends, changing_finishes.
  - destruct H3 as (Ho & Hl & Hpr). pose proof (rx_sent s now x Hp Hl) as Hm. eapply rx_ends_step; [exact Hm|].
    eapply finishing_ends; [by eapply ready_move|done].
  - by eapply finishing_ends.
  - by eapply returned_ends.
Qed.

(** *** Once the context has been cancelled *)

Record cancelled (x : RunnerRun) : Prop := {
  cd_locks : locks_inv x;
  cd_turns : turns_inv x;
  cd_ctx : run_ctxdone (rx_ui x) = true;
  cd_down : r_shutdown (rx_runner x) = true;
}.

Lemma cancelled_move x x' :
  cancelled x -> rx_move x x' -> run_ctxdone (rx_ui x') = true -> r_shutdown (rx_runner x') = true -> cancelled x'.
Proof. intros [] Hm. split; try done; [by eapply locks_move|by eapply turns_move]. Qed.

Lemma run_own_ctxdone s s' : run_own s s' -> run_ctxdone s' = run_ctxdone s.
Proof. by intros []. Qed.

(** A move of the interface. *)
Lemma own_ends x u :
  cancelled x -> rx_started x = true -> run_own (rx_ui x) u ->
  (forall x', cancelled x' -> rx_started x' = true -> rx_ui x' = u -> rx_phase x' = rx_phase x ->
     (rx_cb x = false -> rx_cb x' = false) -> rx_ends x') ->
  rx_ends x.
Proof.
  intros Hc Hst Hu H. pose proof (rx_own u x Hst Hu) as Hm. eapply rx_ends_step; [exact Hm|]. apply H; try done.
  - pose proof Hc as [_ _ H3 H4]. eapply cancelled_move; try done. cbn. by rewrite (run_own_ctxdone _ _ Hu).
  - cbn. by intros ->.
Qed.

(** The callback that holds the mutex of the runner returns. *)
Lemma stopped_ends x : cancelled x -> rx_started x = true -> stopped (rx_ui x) -> rx_ends x.
Proof.
  intros Hc Hst Hstop. pose proof Hc as [H1 H2 H3 H4]. destruct (rx_cb x) eqn:Hcb; [|by apply ready_ends].
  pose proof (li_cb _ H1 Hcb) as Hin. pose proof Hstop as (Ho & Hl & Hpr).
  destruct (run_phase (rx_ui x)) as [| | | |d r|d| |] eqn:Hp; try done.
  - destruct (dir_Callback d) as [cb|] eqn:Hd; [|by cbn in Hin; rewrite Hd in Hin].
    pose proof (rx_cb_call d cb r x Hp Hd Hcb (fun _ => Hl)) as Hm. eapply rx_ends_step; [exact Hm|].
    apply ready_ends. rewrite (stopped_callback d _ Hstop) in *. split; try done; [by eapply locks_move|by eapply turns_move].
  - destruct (ri_sends _ (li_ui _ H1) d Hp) as [? Hs]. congruence.
Qed.

Lemma unlocked_ends x : cancelled x -> rx_started x = true -> run_lock (rx_ui x) = None -> rx_ends x.
Proof.
  intros Hc Hst Hl. pose proof Hc as [H1 H2 H3 H4]. destruct (run_open (rx_ui x)) eqn:Ho.
  - eapply (own_ends x (run_stop (rx_ui x))); try done; [by apply rs_stop|]. intros x' Hc' Hst' Hu _ _.
    apply stopped_ends; try done. by rewrite Hu.
  - apply stopped_ends; try done. split_and!; try done. by apply (ri_stopped _ (li_ui _ H1)).
Qed.

Lemma free_ends x : cancelled x -> run_lock (rx_ui x) = None -> rx_ends x.
Proof.
  intros Hc Hl. destruct (rx_started x) eqn:Hst; [by apply unlocked_ends|].
  pose proof (rx_start x Hst Hl) as Hm. eapply rx_ends_step; [exact Hm|]. apply unlocked_ends; try done.
  pose proof Hc as [_ _ H3 H4]. by eapply cancelled_move.
Qed.

Lemma receiving_ends x : cancelled x -> rx_started x = true -> run_recv (rx_ui x) = Receiving -> rx_ends x.
Proof.
  intros Hc Hst Hr. destruct (run_lock (rx_ui x)) as [d|] eqn:Hl; [|by apply free_ends].
  eapply (own_ends x (hand_over d (rx_ui x))); try done; [by apply rs_hand|]. intros x' Hc' Hst' Hu _ _.
  apply free_ends; [done|by rewrite Hu].
Qed.

(** A turn whose directive has no callback can end. *)
Lemma turn_ends_ends x : cancelled x -> rx_started x = true -> run_phase (rx_ui x) = TurnEnds None ->
  is_Some (run_lock (rx_ui x)) -> rx_ends x.
Proof.
  intros Hc Hst Hp Hl. destruct (run_recv (rx_ui x)) as [|d| |] eqn:Hr; [by apply receiving_ends|..].
  - eapply (own_ends x (next_turn (Some d) (rx_ui x))); try done; [by apply rs_end_next|].
    intros x' Hc' Hst' Hu _ _. apply receiving_ends; try done. by rewrite Hu.
  - pose proof (ri_closed _ (li_ui _ (cd_locks _ Hc)) Hr) as Ho.
    pose proof (ri_locked _ (li_ui _ (cd_locks _ Hc)) Hl). congruence.
  - eapply (own_ends x (next_turn None (rx_ui x))); try done; [by apply rs_end_default|].
    intros x' Hc' Hst' Hu _ _. apply receiving_ends; try done. by rewrite Hu.
Qed.

Lemma calling_ends d r x : cancelled x -> rx_started x = true -> run_phase (rx_ui x) = Calling d r ->
  dir_Callback d = None -> is_Some (run_lock (rx_ui x)) -> rx_ends x.
Proof.
  intros Hc Hst Hp Hd Hl. eapply (own_ends x (end_turn None (rx_ui x))); try done; [by eapply rs_call_none|].
  intros x' Hc' Hst' Hu _ _. apply turn_ends_ends; try done; by rewrite Hu.
Qed.

Lemma showing_ends d x : cancelled x -> rx_started x = true -> run_phase (rx_ui x) = Showing d ->
  run_uidone (rx_ui x) = true -> dir_Callback d = None -> is_Some (run_lock (rx_ui x)) -> rx_ends x.
Proof.
  intros Hc Hst Hp Hdone Hd Hl.
  assert (Hm : exists r, run_own (rx_ui x) (set_run_phase (Calling d r) (rx_ui x))).
  { destruct (decide (dir_Type d = UINone)); eexists; [by apply rs_wait|by apply rs_dialog_done]. }
  destruct Hm as [r Hm]. eapply (own_ends x _); try done. intros x' Hc' Hst' Hu _ _.
  eapply (calling_ends d r); try done; by rewrite Hu.
Qed.

Lemma unblocked_ends x : cancelled x -> rx_started x = true -> is_Some (run_lock (rx_ui x)) ->
  run_recv (rx_ui x) <> Receiving -> callback_sends (run_phase (rx_ui x)) = false ->
  ~ turn_blocked (run_phase (rx_ui x)) -> rx_ends x.
Proof.
  intros Hc Hst Hl Hr Hs Hb. pose proof (ri_received _ (li_ui _ (cd_locks _ Hc)) Hr) as Hdone.
  assert (Hcb : forall d : Directive, ~ (dir_Callback d <> None) -> dir_Callback d = None)
    by (intros d; destruct (dir_Callback d); [by intros []|done]).
  destruct (run_phase (rx_ui x)) as [d|d|d|d|d r|d|err|err] eqn:Hp; cbn in Hb; try done; try tauto.
  - eapply (own_ends x (end_turn None (rx_ui x))); try done; [by eapply rs_select_done|].
    intros x' Hc' Hst' Hu _ _. apply turn_ends_ends; try done; by rewrite Hu.
  - eapply (own_ends x (set_run_phase (Showing d) (rx_ui x))); try done; [by apply rs_show|].
    intros x' Hc' Hst' Hu _ _. apply (showing_ends d); try done; try (by apply Hcb); by rewrite Hu.
  - apply (showing_ends d); try done. by apply Hcb.
  - apply (calling_ends d r); try done. by apply Hcb.
  - destruct err; [done|]. by apply turn_ends_ends.
Qed.

(** Unless it hangs, the runner returns. *)
Lemma cancellation_ends x : cancelled x -> ~ rx_hung x -> rx_ends x.
Proof.
  intros Hc Hn. destruct (run_lock (rx_ui x)) as [d0|] eqn:Hl; [|by apply free_ends].
  assert (Hsome : is_Some (run_lock (rx_ui x))) by (rewrite Hl; by eexists).
  pose proof (cd_locks _ Hc) as H1. pose proof (li_lock _ H1 Hsome) as Hwho.
  assert (Hhung : is_sending (rx_phase x) = true -> rx_started x = false
      \/ (run_recv (rx_ui x) <> Receiving /\ turn_blocked (run_phase (rx_ui x))) -> False).
  { intros Hs Hw. apply Hn. split_and!; try done. apply (li_critical _ H1). by destruct (rx_phase x). }
  destruct (rx_started x) eqn:Hst.
  - destruct (decide (run_recv (rx_ui x) = Receiving)) as [Hr|Hr]; [by apply receiving_ends|].
    destruct (callback_sends (run_phase (rx_ui x))) eqn:Hcs; [by pose proof (ti_sends _ (li_turn _ H1) Hcs)|].
    destruct Hwho as [Hs|Hs]; [|done]. apply unblocked_ends; try done. intros Hb. apply (Hhung Hs). by right.
  - exfalso. destruct Hwho as [Hs|Hs]; [apply (Hhung Hs); by left|].
    destruct (li_start _ H1 Hst) as [Hp _]. by rewrite Hp in Hs.
Qed.

(** ** The properties *)

(** C22. The runner and its goroutines.  In every reachable state, the runner is
    in a state of the atomic turns and callbacks of [Runner.v], whose guarantees
    it therefore has; if [run] has returned, the program has been told to shut
    down, and if it has returned without an error, the maintainer has stopped.
    And once the context is cancelled, either [Run] can return by moves of its
    own goroutines, or the runner hangs, and does so for ever: a change of the
    interface is being sent, under both mutexes, that nobody will receive. *)
Theorem runner_run_returns x :
  rx_reachable x ->
  runner_reachable (Ret (rx_runner x))
  /\ (forall err, rx_phase x = Returned err -> r_shutdown (rx_runner x) = true
        /\ (err = None -> rx_maint x = MaintStopped))
  /\ ((exists x', rtc rx_move (rx_cancel x) x' /\ rx_returned x')
      \/ rx_hung x /\ forall x', rtc rx_step x x' -> rx_hung x' /\ ~ rx_returned x').
Proof.
  intros Hx. destruct (rx_reachable_inv _ Hx) as [Hl Ht].
  split; [apply Ht|]. split.
  - intros err Hp. destruct (runner_reachable_inv _ (ki_reachable _ Ht)) as (r & [= <-] & [_ _ Hd]).
    pose proof (ki_ended _ Ht) as He. rewrite Hp in He. split; [by apply Hd|]. intros ->.
    apply (ki_closed _ Ht); [by rewrite Hp|by apply (ki_returned _ Ht)].
  - destruct (decide (rx_hung x)) as [Hh|Hh].
    + right. split; [done|]. intros x' Hr. pose proof (hung_forever _ _ Hr Hh). split; [done|by apply hung_not_returned].
    + left. apply cancellation_ends; [|done]. split; [by apply locks_cancel|by apply turns_cancel|done|done].
Qed.

(** ** What goes wrong *)

Ltac rx_eval :=
  match goal with |- rtc _ ?x _ => let y := eval vm_compute in x in change x with y end.
Ltac rx_side := first [vm_compute; reflexivity | vm_compute; discriminate].
Ltac rx_go c := eapply rtc_l; [apply rx_moves; eapply c; rx_side|rx_eval].
Ltac rx_ui c := eapply rtc_l; [apply rx_moves; eapply rx_own; [reflexivity|eapply c; rx_side]|rx_eval].
(** A turn of [run] whose change of the interface is received. *)
Ltac rx_turn s :=
  rx_go (rx_receive s); rx_go rx_lock; rx_go (rx_Update s zero_time); rx_go rx_Change; rx_ui rs_hand; rx_go rx_sent;
  rx_go (rx_Finish s zero_time None).

Definition unanswered : State :=
  mkState false false false zero_lease [] 0%Z (Some "no server").

(** The server is away, then queues the lease, then grants it: the third change
    is sent while the dialog that the first one asked for has been shown, and the
    second received; its callback waits for the mutex of the sender. *)
Lemma runner_hangs : exists x, rx_reachable x /\ rx_started x = true /\ rx_hung x.
Proof.
  eexists. split.
  - rx_go rx_start. rx_go rx_Acquire. rx_go rx_Listen. rx_turn unanswered.
    rx_ui rs_select_done. rx_ui rs_end_next. rx_ui rs_select_ready. rx_ui rs_lock. rx_ui rs_show.
    rx_turn (granted Queued).
    rx_go (rx_receive (granted Active)). rx_go rx_lock. rx_go (rx_Update (granted Active) zero_time). rx_go rx_Change.
    apply rtc_refl.
  - split; [reflexivity|]. split_and!; try reflexivity; [by eexists|right]. by split.
Qed.

(** The first change is sent before the interface has been started. *)
Lemma runner_hangs_early : exists x, rx_reachable x /\ rx_started x = false /\ rx_hung x.
Proof.
  eexists. split.
  - rx_go rx_Acquire. rx_go rx_Listen. rx_go (rx_receive unanswered). rx_go rx_lock.
    rx_go (rx_Update unanswered zero_time). rx_go rx_Change. apply rtc_refl.
  - split; [reflexivity|]. split_and!; try reflexivity; [by eexists|by left].
Qed.

Ltac rx_cancel_ := eapply rtc_l; [apply rx_cancels|rx_eval].
(** The interface is stopped and returns. *)
Ltac rx_ui_returns :=
  rx_ui rs_stop; rx_ui rs_closed; rx_ui rs_select_done; rx_ui rs_end_closed.
(** The program cannot be started. *)
Ltac rx_start_fails err :=
  rx_go (rx_receive (granted Active)); rx_go rx_lock; rx_go (rx_Update (granted Active) zero_time); rx_go rx_Change;
  rx_go (rx_Finish (granted Active) zero_time err).

(** The context is cancelled before the maintainer is started, which is then
    never stopped: it keeps the lease after [Run] has returned. *)
Lemma runner_orphans : exists x,
  rx_reachable x /\ rx_returned x /\ rx_closer x = CloserDone /\ rx_maint x = MaintStarted.
Proof.
  eexists. split.
  - rx_cancel_. rx_go rx_Release. rx_go rx_Close. rx_go rx_start. rx_go rx_Acquire. rx_go rx_Listen.
    rx_start_fails (@None error). rx_ui_returns. apply rtc_refl.
  - split; [|done]. split; by eexists.
Qed.

(** [Run] does not wait for the release of the lease when [run] fails. *)
Lemma runner_returns_early : exists x,
  rx_reachable x /\ rx_returned x /\ rx_closer x = CloserWaits /\ rx_maint x = MaintStarted.
Proof.
  eexists. split.
  - rx_go rx_start. rx_go rx_Acquire. rx_go rx_Listen. rx_start_fails (Some "file not found").
    rx_go rx_done_run. rx_ui_returns. apply rtc_refl.
  - split; [|done]. split; by eexists.
Qed.

(** The context of a new runner is cancelled before anything else happens. *)
Lemma runner_run_returns_witness :
  rx_reachable (rx_cancel rx_init) /\ r_shutdown (rx_runner (rx_cancel rx_init)) = true
  /\ exists x', rtc rx_move (rx_cancel (rx_cancel rx_init)) x' /\ rx_returned x'.
Proof.
  assert (Hr : rx_reachable (rx_cancel rx_init)) by (eapply rtc_l; [apply rx_cancels|apply rtc_refl]).
  split; [exact Hr|]. split; [reflexivity|].
  destruct (runner_run_returns _ Hr) as (_ & _ & [H|[(Hs & _) _]]); [exact H|discriminate Hs].
Defined.
