(* ===== verification/RunnerTimed.v ===== *)
(** * The runner in time

    The runner as a keeper: it handles the states of its maintainer one after
    the other, and a program that it has started is told to shut down soon after
    its lease has expired. *)

From S2P Require Import Prelude GoTime Lease Program Server Client Maintainer MaintainerProps LeaseWatch LeaseUI Runner RunnerProps.

(** States are handled by the turns of [run], until it has returned; callbacks,
    the end of the program, the cancellation of the context and the return of
    [run] happen in between. *)
#[export] Instance runner_keeper : Keeper Runner := {|
  kp_start r := r = Runner_New;
  kp_handle s now r r' := if r_ended r then r' = r else exists start, run_turn s now start r = Ret r';
  kp_other now r r' :=
    (exists cb result, r' = call_back cb result now r) \/ r' = shutdown r \/ r' = return_ r;
  kp_large r := r_running r = true /\ r_shutdown r = false;
|}.

Lemma run_turn_total s now start r :
  runner_inv r -> exists r', run_turn s now start r = Ret r' /\ runner_inv r'.
Proof.
  intros Hinv. unfold run_turn. destruct (handle_state_inv s now start r Hinv) as ([e|] & r' & -> & H); cbn;
    eexists; (split; [done|]); [by apply return_inv|done].
Qed.

Lemma at_large_same r r' : same_program r r' -> kp_large r' -> kp_large r.
Proof.
  intros (H1 & _ & _ & H4) [Hr Hd]. split; [congruence|]. destruct (r_shutdown r); [|done]. by rewrite H4 in Hd.
Qed.

#[export] Instance runner_keeper_spec : KeeperSpec Runner.
Proof.
  apply (Build_KeeperSpec _ _ runner_inv).
  - intros r ->. by split; cbn.
  - cbn. intros s now r r' Hinv. destruct (r_ended r); [by intros ->|]. intros [start Hs].
    destruct (run_turn_total s now start r Hinv) as (r2 & Hr2 & H2). congruence.
  - intros now r r' Hinv [(cb & res & ->)|[->| ->]].
    + eapply same_program_inv; [apply call_back_same|done].
    + by apply (same_program_inv r).
    + by apply return_inv.
  - cbn. intros s now r Hinv. destruct (r_ended r); [by eexists|].
    destruct (run_turn_total s now None r Hinv) as (r2 & Hr2 & _). by exists r2, None.
  - cbn. intros s now r r' Hinv _. destruct (r_ended r) eqn:He.
    + intros -> [_ Hd]. by rewrite (ri_ended _ Hinv He) in Hd.
    + intros [start Hs] [Hr Hd]. destruct (run_turn_justified _ _ _ _ _ Hs Hr); [congruence|done].
  - intros now r r' _ [(cb & res & ->)|[->| ->]]; [apply at_large_same, call_back_same|by intros [_ ?]..].
Defined.

(** C21. A program does not outlive its lease.  While a program that the runner
    has started has not been told to shut down, the last state that the runner
    has handled is that no lease is required, an active lease, or the failure to
    renew it.  Unless no lease is required, the time is then before the lease
    expires, or later by no more than: the interval between attempts, which is
    a second or, after a failure, the retry interval, the duration of an
    attempt, and two delays.  And time is never stopped by these bounds. *)
Theorem runner_stops_in_time (retry attempt delay : Duration) (w : Watch Runner) :
  (0 <= attempt)%Z -> (0 <= delay <= MinimumRefresh)%Z -> watch_reachable retry attempt delay w ->
  (forall last last_at,
     r_running (wt_keeper w) = true -> r_shutdown (wt_keeper w) = false ->
     wt_last w = Some (last, last_at) -> state_LeaseNotRequired last = false ->
     let expiration := Lease_ExpirationTime (state_Lease last) in
     (state_Err last <> None -> (wt_now w <= expiration + Z.max MinimumRefresh retry + attempt + 2 * delay)%Z)
     /\ (state_Err last = None -> ls_Status (state_Lease last) = Active
          /\ (wt_now w <= Z.max expiration (last_at + MinimumRefresh) + attempt + 2 * delay)%Z))
  /\ exists w', rtc (watch_step retry attempt delay) w w' /\ (wt_now w + MinimumRefresh <= wt_now w')%Z.
Proof.
  intros Ha Hd Hr. split;
    [|exact (watch_advances retry attempt delay w Ha Hd (watch_reachable_inv retry attempt delay w Ha Hd Hr))].
  intros last last_at Hrun Hsd Hlast. pose proof (watch_in_time retry attempt delay w Ha Hd Hr (conj Hrun Hsd)) as H.
  by rewrite Hlast in H.
Qed.

(** A program that needs no lease is shut down by the first failure to ask for
    one: the state then holds the zero lease, which has expired. *)
Lemma not_required_outage s err now start r r' :
  (0 < now)%Z -> err <> ErrLeaseNotRequired -> r_running r = true ->
  run_turn (acquired_state (acquired_state s (Failed ErrLeaseNotRequired)) (Failed err)) now start r = Ret r' ->
  r_shutdown r' = true.
Proof.
  intros Hn He Hr. unfold run_turn, handle_state. set (s2 := acquired_state _ (Failed err)).
  assert (Hs : state_Err s2 <> None /\ state_Lease s2 = zero_lease) by (by destruct err).
  clearbody s2. rewrite decide_True by apply Hs. unfold handleError. cbn. rewrite Hr. cbn. rewrite (proj2 Hs).
  assert (Hx : Lease_Expired zero_lease now = true) by (by apply Time_After_true). rewrite Hx. cbn. by intros [= <-].
Qed.

(** A run whose client retries every five seconds: the first answer grants a
    lease of ten minutes, and the program runs. *)
Lemma runner_stops_in_time_witness :
  exists w, watch_reachable (5 * Second)%Z (10 * Second)%Z 0%Z w
    /\ r_running (wt_keeper w) = true /\ r_shutdown (wt_keeper w) = false
    /\ (wt_now w <= Z.max (10 * Minute) MinimumRefresh + 10 * Second + 2 * 0)%Z.
Proof.
  set (resp := Got (mkAcquireResponse (mkRequest (ls_Subject (state_Lease (granted Active))) ∅)
                      (state_Lease (granted Active)) [] "")).
  set (w1 := wt_answer (5 * Second)%Z (10 * Second)%Z resp 0%Z (wt_init (10 * Second)%Z 0%Z Runner_New)).
  set (r := match run_turn (wt_state w1) 0%Z None Runner_New with Ret r => r | _ => Runner_New end).
  assert (Hr : watch_reachable (5 * Second)%Z (10 * Second)%Z 0%Z (wt_handle r w1)).
  { exists 0%Z, Runner_New. split; [done|]. eapply rtc_l; [by apply (ws_answer _ _ _ resp 0%Z)|].
    eapply rtc_l; [apply (ws_handle _ _ _ r); [done|by exists None]|]. apply rtc_refl. }
  exists (wt_handle r w1). split; [exact Hr|]. split; [reflexivity|]. split; [reflexivity|].
  destruct (runner_stops_in_time (5 * Second)%Z (10 * Second)%Z 0%Z _ ltac:(done) ltac:(done) Hr) as [H _].
  destruct (H (wt_state w1) 0%Z eq_refl eq_refl eq_refl eq_refl) as [_ Hact]. destruct (Hact eq_refl) as [_ Hb]. exact Hb.
Defined.
