(* ===== verification/Detect.v ===== *)
(** * The environment of a run (runner/detect.go and runner/properties.go)

    The instance and the properties of the lease that a run asks for.  The
    random source, the host name, the current user and the search for programs
    belong to the operating system and the standard library: they are arguments. *)

From S2P Require Import Prelude GoStrings GoTime Lease.

(** ** Random identifiers *)

Definition letterBytes : string := "abcdefghijklmnopqrstuvwxyzABCDEFGHIJKLMNOPQRSTUVWXYZ".
Definition letters : bytes := Eval vm_compute in String.list_ascii_of_string letterBytes.
Definition letterIdxBits : Z := 6.
Definition letterIdxMask : Z := (Z.shiftl 1 letterIdxBits - 1)%Z.
Definition letterIdxMax : nat := Eval vm_compute in Z.to_nat (63 / letterIdxBits).

Definition letter (idx : Z) : Ascii.ascii := nth (Z.to_nat idx) letters Ascii.zero.

Section Random.
(** The [k]-th value of the source. *)
Context (Int63 : nat -> Z).

(** The loop of [randomID]: [left] bytes are left to be filled, the ones after
    them are [b]; [k] values of the source have been used. *)
Fixpoint randomID_loop (fuel left : nat) (cache : Z) (remain k : nat) (b : bytes) : option bytes :=
  match left with
  | 0 => Some b
  | S left' =>
      match fuel with
      | 0 => None
      | S fuel =>
          let '(cache, remain, k) :=
            match remain with 0 => (Int63 k, letterIdxMax, S k) | _ => (cache, remain, k) end in
          let idx := Z.land cache letterIdxMask in
          if decide (idx < Z.of_nat (String.length letterBytes))%Z then
            randomID_loop fuel left' (Z.shiftr cache letterIdxBits) (remain - 1) k (letter idx :: b)
          else randomID_loop fuel left (Z.shiftr cache letterIdxBits) (remain - 1) k b
      end
  end.

Definition randomID (fuel n : nat) : option string :=
  option_map String.string_of_list_ascii (randomID_loop fuel n (Int63 0) letterIdxMax 1 []).

(** ** The reference: the chunks of six bits, in their order

    The [j]-th chunk is one of the ten low chunks of a value of the source. *)

Definition chunk (j : nat) : Z :=
  Z.land (Z.shiftr (Int63 (j / letterIdxMax)) (letterIdxBits * Z.of_nat (j mod letterIdxMax))) letterIdxMask.

(** The letters among the chunks from [j], [m] of them. *)
Definition letters_from (j m : nat) : bytes :=
  letter <$> filter (fun idx => (idx < 52)%Z) (chunk <$> seq j m).

Lemma letters_from_S j m :
  letters_from j (S m) = (if decide (chunk j < 52)%Z then [letter (chunk j)] else []) ++ letters_from (S j) m.
Proof.
  unfold letters_from. cbn [seq fmap list_fmap]. rewrite filter_cons. by case_decide.
Qed.

(** The state of the loop at the chunk [j]. *)
Definition at_chunk (j : nat) (cache : Z) (remain k : nat) : Prop :=
  exists q d, d <= letterIdxMax /\ j = q * letterIdxMax + d /\ remain = letterIdxMax - d /\ k = S q
    /\ cache = Z.shiftr (Int63 q) (letterIdxBits * Z.of_nat d).

Lemma at_chunk_start : at_chunk 0 (Int63 0) letterIdxMax 1.
Proof. exists 0, 0. unfold letterIdxMax. split_and!; try lia. by rewrite Z.mul_0_r, Z.shiftr_0_r. Qed.

(** The refill keeps the place, and the low bits are then the chunk. *)
Lemma at_chunk_refill j cache remain k :
  at_chunk j cache remain k ->
  let '(cache', remain', k') :=
    match remain with 0 => (Int63 k, letterIdxMax, S k) | _ => (cache, remain, k) end in
  Z.land cache' letterIdxMask = chunk j
  /\ at_chunk (S j) (Z.shiftr cache' letterIdxBits) (remain' - 1) k'.
Proof.
  intros (q & d & Hd & -> & -> & -> & ->). unfold letterIdxMax in *.
  destruct (decide (d = 10)) as [->|Hne].
  - cbn [Nat.sub]. replace (q * 10 + 10) with (S q * 10) by lia. split.
    + unfold chunk, letterIdxMax. rewrite Nat.div_mul, Nat.Div0.mod_mul by done.
      by rewrite Z.mul_0_r, Z.shiftr_0_r.
    + exists (S q), 1. unfold letterIdxMax. split_and!; try lia. by rewrite Z.mul_1_r.
  - destruct (10 - d) as [|r] eqn:Hr; [lia|]. split.
    + unfold chunk, letterIdxMax. rewrite Nat.div_add_l by done. rewrite (Nat.div_small d), Nat.add_0_r by lia.
      rewrite Nat.add_comm, Nat.Div0.mod_add, (Nat.mod_small d) by lia. done.
    + exists q, (S d). unfold letterIdxMax. split_and!; try lia.
      rewrite Z.shiftr_shiftr by (unfold letterIdxBits; lia). f_equal. unfold letterIdxBits. lia.
Qed.

Lemma randomID_loop_spec fuel left j cache remain k b :
  at_chunk j cache remain k ->
  randomID_loop fuel left cache remain k b
  = if decide (left <= length (letters_from j fuel)) then Some (rev (take left (letters_from j fuel)) ++ b) else None.
Proof.
  revert left j cache remain k b. induction fuel as [|fuel IH]; intros left j cache remain k b Hat; destruct left as [|left].
  - done.
  - cbn [randomID_loop]. by rewrite decide_False by (cbn; lia).
  - cbn [randomID_loop]. by rewrite decide_True by lia.
  - cbn [randomID_loop]. pose proof (at_chunk_refill j cache remain k Hat) as Hr.
    destruct (match remain with 0 => _ | _ => _ end) as [[cache' remain'] k']. destruct Hr as [-> Hat'].
    change (Z.of_nat (String.length letterBytes)) with 52%Z. rewrite letters_from_S.
    destruct (decide (chunk j < 52)%Z) as [Hc|Hc]; rewrite (IH _ (S j)) by done; cbn [app length].
    + destruct (decide (left <= _)), (decide (S left <= _)); try lia; [|done].
      cbn [take rev]. by rewrite <- (assoc_L (++)).
    + done.
Qed.

Lemma letters_from_letters j m : Forall (fun c => c ∈ letters) (letters_from j m).
Proof.
  unfold letters_from. apply Forall_fmap, Forall_forall. intros idx Hin.
  apply list_elem_of_filter in Hin as [Hidx Hin]. apply list_elem_of_fmap in Hin as (i & -> & _).
  apply list_elem_of_In, nth_In. change (length letters) with 52.
  assert (0 <= chunk i)%Z by (apply Z.land_nonneg; right; done). lia.
Qed.
End Random.

(** ** The properties of a run *)

(** [strings.SplitN(s, sep, 2)]: what is before and after the first separator. *)
Fixpoint cut (sep : Ascii.ascii) (s : string) : option (string * string) :=
  match s with
  | EmptyString => None
  | String c s =>
      if Ascii.eqb c sep then Some ("", s)
      else match cut sep s with
           | Some (a, b) => Some (String c a, b)
           | None => None
           end
  end.

Definition backslash : Ascii.ascii := Ascii.ascii_of_nat 92.

Record User := mkUser { user_Uid : string; user_Username : string }.

Section Environment.
(** [exec.LookPath] and [filepath.Base]. *)
Context (LookPath : string -> result string) (Base : string -> string).

Definition run_Properties (program host : string) (u : User) : Properties :=
  let '(program, path) := match LookPath program with
                          | Ok abs => (Base abs, abs)
                          | Err _ => (program, program)
                          end in
  let props : Properties := <["program.name" := program]> (<["program.path" := path]>
    (<["host.name" := host]> (<["user.id" := user_Uid u]> ∅))) in
  match cut backslash (user_Username u) with
  | Some (domain, account) => <["user.account" := account]> (<["user.domain" := domain]> props)
  | None => <["user.account" := user_Username u]> props
  end.

(** The identifier is made of twelve letters; [Int63] is the seeded source. *)
Definition DetectEnvironment (Int63 : nat -> Z) (fuel : nat) (program : string) (hostname : result string)
  (current : result User) : option (result (LeaseInstance * Properties)) :=
  match hostname with
  | Err err => Some (Err ("unable to query hostname: " +:+ err))
  | Ok host =>
      match current with
      | Err err => Some (Err ("unable to determine current user: " +:+ err))
      | Ok u =>
          id ← randomID Int63 fuel 12;
          Some (Ok (mkInstance host (user_Username u) id, run_Properties program host u))
      end
  end.
End Environment.

Lemma cut_join sep s a b : cut sep s = Some (a, b) -> s = a +:+ String sep b.
Proof.
  revert a. induction s as [|c s IH]; intros a; cbn; [done|]. destruct (Ascii.eqb_spec c sep) as [->|Hne].
  - intros [= <- <-]. done.
  - destruct (cut sep s) as [[a' b']|]; [|done]. intros [= <- <-]. by rewrite (IH a').
Qed.

(** ** The property *)

(** Random identifiers.  Whatever the source, [randomID] takes the first
    letters among its chunks of six bits, last letter first: with enough fuel
    for the source to have yielded them it returns that identifier, which has
    the length that was asked for and consists of letters, and with less it
    does not return. *)
Lemma randomID_takes_letters (Int63 : nat -> Z) fuel n :
  (length (letters_from Int63 0 fuel) < n -> randomID Int63 fuel n = None)
  /\ (n <= length (letters_from Int63 0 fuel) ->
        exists id, randomID Int63 fuel n = Some id
          /\ id = String.string_of_list_ascii (rev (take n (letters_from Int63 0 fuel)))
          /\ String.length id = n
          /\ Forall (fun c => c ∈ letters) (String.list_ascii_of_string id)).
Proof.
  unfold randomID. rewrite (randomID_loop_spec _ _ _ 0) by apply at_chunk_start. rewrite app_nil_r. split.
  - intros H. by rewrite decide_False by lia.
  - intros H. rewrite decide_True by done. eexists. split; [done|]. split; [done|].
    split.
    + set (l := rev _).
      assert (Hl : forall l, String.length (String.string_of_list_ascii l) = length l)
        by (clear; intros l; induction l as [|c l IH]; cbn; [done|by rewrite IH]).
      rewrite Hl. unfold l. rewrite length_rev, length_take. lia.
    + rewrite String.list_ascii_of_string_of_list_ascii. apply Forall_rev, Forall_take, letters_from_letters.
Qed.

Lemma randomID_takes_letters_witness :
  exists id, randomID (fun k => (2 ^ 62 + 12345678901234567 * Z.of_nat k)%Z) 40 12 = Some id /\ String.length id = 12.
Proof.
  destruct (proj2 (randomID_takes_letters (fun k => (2 ^ 62 + 12345678901234567 * Z.of_nat k)%Z) 40 12)) as (id & H1 & _ & H2 & _).
  - apply (bool_decide_unpack _). vm_compute. exact I.
  - exists id. split; [exact H1|exact H2].
Defined.
