(* ===== verification/EnforcerScan.v ===== *)
(** * Processes, and which of them policies apply to (package [enforcer])

    The properties and the identity of a process (properties_windows.go,
    instance_windows.go, hashwriter.go), the filters that select processes
    (filter_windows.go, regex.go, scan_windows.go), the blocklist
    (blocklist_windows.go) and references to processes (process_windows.go,
    rights_windows.go).

    Process data and the operating system belong to third-party packages: they
    are the classes [WinProcess] and [WinSystem]. *)

From stdpp Require Import pretty.
From S2P Require Import Prelude GoStrings GoTime Lease LeaseSet Policy PolicyProps PolicyCodec.

(** ** What is known of a process *)

Class WinProcess := {
  ProcessData : Type;
  UniqueID : Type;
  UniqueID_eq_dec :: EqDecision UniqueID;
  UniqueID_countable :: Countable UniqueID;
  p_UniqueID : ProcessData -> UniqueID;
  uid_Bytes : UniqueID -> bytes;
  p_ID : ProcessData -> N;
  p_Name : ProcessData -> string;
  p_Path : ProcessData -> string;
  p_SID : ProcessData -> string;
  p_Account : ProcessData -> string;
  p_Domain : ProcessData -> string;
  (** The text of the user, the process ID and the creation time. *)
  p_User_String : ProcessData -> string;
  p_ID_String : ProcessData -> string;
  p_Creation_String : ProcessData -> string;
  p_Creation : ProcessData -> Time;
  p_Protected : ProcessData -> bool;
  p_CommandLine : ProcessData -> string;
  p_SessionID : ProcessData -> N;
}.

(** ** properties_windows.go *)

Section Process.
Context `{WP : WinProcess, GT : GoText}.

Definition process_Properties (p : ProcessData) (environment : Properties) : Properties :=
  let props := map_fold (fun k v (props : Properties) => <[k := v]> props) ∅ environment in
  let props := <["program.name" := p_Name p]> props in
  let props := <["program.path" := p_Path p]> props in
  let props := <["process.id" := p_ID_String p]> props in
  let props := <["process.creation" := p_Creation_String p]> props in
  let props := <["user.id" := p_SID p]> props in
  let props := <["user.account" := p_Account p]> props in
  <["user.domain" := p_Domain p]> props.

(** ** hashwriter.go and instance_windows.go *)

Definition enforcer_WriteInt (w : bytes) (v : Z) : bytes := w ++ PutUint64 v.
Definition enforcer_WriteString (w : bytes) (s : string) : bytes :=
  enforcer_WriteInt w (Z.of_nat (String.length s)) ++ String.list_ascii_of_string s.

Definition process_Instance (host : string) (p : ProcessData) (id : string) : LeaseInstance :=
  mkInstance host (p_User_String p) id.

Definition instance_input (p : ProcessData) : bytes :=
  let w := uid_Bytes (p_UniqueID p) in
  let w := enforcer_WriteString w (p_SID p) in
  enforcer_WriteString w (p_Name p).

Definition NewInstanceID (sum224 : bytes -> bytes) (p : ProcessData) : string :=
  base64_encode (sum224 (instance_input p)).

(** ** regex.go and filter_windows.go *)

Definition insensitive_flag : string := "(?i)".

(** [None] is a nil expression. *)
Definition compileRegex (re : string) : result (option (string -> bool)) :=
  if decide (re = "") then Ok None
  else
    let re := if negb (HasPrefix re insensitive_flag) then insensitive_flag +:+ re else re in
    match regexp_Compile re with
    | Some f => Ok (Some f)
    | None => Err "error parsing regexp"
    end.

Context (EqualFold : string -> string -> bool).

Definition makeMatcher (comparison value : string) : result (string -> bool) :=
  if decide (comparison = ComparisonExact) then Ok (fun fieldValue => bool_decide (fieldValue = value))
  else if decide (comparison = ComparisonIgnoreCase) then Ok (fun fieldValue => EqualFold fieldValue value)
  else if decide (comparison = ComparisonRegex) then
    re ← compileRegex value;
    match re with
    | None => Err "empty regular expression"
    | Some f => Ok f
    end
  else Err ("policy criteria contains unrecognized comparison type: " +:+ comparison).

Definition makePropertyFilter (key : string) (matcher : string -> bool) (p : Properties) : bool :=
  matcher (Properties_get p key).

Definition makeCriterionFilter (c : Criterion) : result (Properties -> bool) :=
  matcher ← makeMatcher (crit_Comparison c) (crit_Value c);
  Ok (makePropertyFilter (crit_Key c) matcher).

Fixpoint Filter_loop (criteria : Criteria) (filters : list (Properties -> bool))
  : result (list (Properties -> bool)) :=
  match criteria with
  | [] => Ok filters
  | c :: criteria => f ← makeCriterionFilter c; Filter_loop criteria (filters ++ [f])
  end.

(** [None] is a nil filter. *)
Definition Filter (criteria : Criteria) (environment : Properties)
  : result (option (ProcessData -> bool)) :=
  filters ← Filter_loop criteria [];
  if decide (length filters = 0) then Ok None
  else Ok (Some (fun p =>
    let props := process_Properties p environment in
    forallb (fun filter => filter props) filters)).

(** ** scan_windows.go *)

Fixpoint Scan_filters (policies : PolicySet) (environment : Properties)
  (filters : list (ProcessData -> bool)) : list (ProcessData -> bool) :=
  match policies with
  | [] => filters
  | pol :: policies =>
      match Filter (pol_Criteria pol) environment with
      | Err _ => Scan_filters policies environment filters
      | Ok None => Scan_filters policies environment filters
      | Ok (Some filter) => Scan_filters policies environment (filters ++ [filter])
      end
  end.

(** [winproc_List] lists the processes that pass a filter, with all their data. *)
Definition Scan (winproc_List : (ProcessData -> bool) -> result (list ProcessData))
  (policies : PolicySet) (environment : Properties) : result (list ProcessData) :=
  let filters := Scan_filters policies environment [] in
  if decide (length filters = 0) then Ok []
  else winproc_List (fun p => existsb (fun filter => filter p) filters).

(** ** blocklist_windows.go *)

Definition blocklist : list string :=
  ["applicationframehost"; "backgroundtaskhost"; "chrome"; "cmd"; "csrss"; "conhost"; "ctfmon";
   "dllhost"; "dwm"; "explorer"; "fontdrvhost"; "launchtm"; "lockapp"; "lsass"; "mmc"; "regedit";
   "registry"; "resourceful"; "runtimebroker"; "rtkauduservice64"; "searchindexer";
   "searchfilterhost"; "searchprotocolhost"; "searchui"; "securityhealthsystray"; "services";
   "shellexperiencehost"; "sihost"; "smartscreen"; "svchost"; "systemsettings";
   "systemsettingsbroker"; "startmenuexperiencehost"; "taskhostw"; "taskmgr"; "thunderbolt";
   "wininit"; "winlogon"; "wireguard"; "wudfhost";
   "windowsinternal.composableshell.experiences.textinput.inputapp"].

Definition Blocklisted (p : ProcessData) : bool :=
  if p_Protected p then true
  else
    let name := ToLower (p_Name p) in
    let name := TrimSuffix name ".exe" in
    bool_decide (name ∈ blocklist).
End Process.

(** ** process_windows.go *)

(** Rights with which a process can be opened, and the operating system. *)
Inductive Rights := ActiveRights | FullPassiveRights | QueryRights.

Class WinSystem `{WP : WinProcess} (OS : Type) := {
  winproc_Open : N -> Rights -> OS -> option error;
  (** The unique ID of an open reference. *)
  ref_UniqueID : N -> OS -> result UniqueID;
  ref_Terminate : N -> Rights -> N -> OS -> option error * OS;
}.

Section References.
Context {OS : Type} `{WS : WinSystem OS}.

Definition activeRights : list Rights := [ActiveRights].
Definition passiveRights : list Rights := [FullPassiveRights; QueryRights].

Fixpoint open_first (id : N) (rights : list Rights) (last : error) (os : OS) : result Rights :=
  match rights with
  | [] => Err last
  | r :: rights =>
      match winproc_Open id r os with
      | None => Ok r
      | Some e => open_first id rights e os
      end
  end.

(** The rights of the reference. *)
Definition openProcess (id : N) (passive : bool) (os : OS) : result Rights :=
  open_first id ((if negb passive then activeRights else []) ++ passiveRights) "" os.

Definition process_terminated : error := "the process to be managed has terminated".

(** [Process.open], which [NewProcess] repeats. *)
Definition process_open (data : ProcessData) (passive : bool) (os : OS) : result Rights :=
  ref ← openProcess (p_ID data) passive os;
  match ref_UniqueID (p_ID data) os with
  | Err err => Err ("unable to retrieve unique ID for process: " +:+ err)
  | Ok uid =>
      if decide (p_UniqueID data <> uid) then Err process_terminated else Ok ref
  end.

Record Process := mkProcess {
  process_data : ProcessData;
  process_passive : bool;
}.

Definition NewProcess (data : ProcessData) (passive : bool) (os : OS) : result Process :=
  _ ← process_open data passive os; Ok (mkProcess data passive).

Definition Process_Running (p : Process) (os : OS) : bool :=
  match process_open (process_data p) true os with Err _ => false | Ok _ => true end.

Definition Process_Terminate (p : Process) (os : OS) : option error * OS :=
  match process_open (process_data p) (process_passive p) os with
  | Err _ => (None, os)
  | Ok ref => ref_Terminate (p_ID (process_data p)) ref 5877 os
  end.
End References.

(** ** Lemmas: scanning *)

Section ScanFacts.
Context `{WP : WinProcess, GT : GoText} (EqualFold : string -> string -> bool).

(** A criterion that the filters read as policies do: folding case accepts
    what lower-casing makes equal, and so does ignoring case in an expression,
    which must not be empty. *)
Definition scannable (c : Criterion) (value : string) : Prop :=
  (crit_Comparison c = ComparisonIgnoreCase ->
     ToLower (crit_Value c) = ToLower value -> EqualFold value (crit_Value c) = true)
  /\ (crit_Comparison c = ComparisonRegex ->
     crit_Value c <> "" /\ forall f, regexp_Compile (crit_Value c) = Some f -> f value = true ->
       exists g, compileRegex (crit_Value c) = Ok (Some g) /\ g value = true).

Lemma makeCriterionFilter_match c props props' :
  Criterion_Match c props = true -> scannable c (Properties_get props (crit_Key c)) ->
  Properties_get props' (crit_Key c) = Properties_get props (crit_Key c) ->
  exists f, makeCriterionFilter EqualFold c = Ok f /\ f props' = true.
Proof.
  unfold Criterion_Match, makeCriterionFilter, makeMatcher. intros Hm [Hi Hr] Hp.
  case_decide as H1.
  - apply bool_decide_eq_true in Hm. cbn. eexists. split; [done|]. unfold makePropertyFilter.
    rewrite Hp. by apply bool_decide_eq_true.
  - case_decide as H2.
    + apply bool_decide_eq_true in Hm. cbn. eexists. split; [done|]. unfold makePropertyFilter.
      rewrite Hp. by apply Hi.
    + case_decide as H3; [|done]. destruct (regexp_Compile (crit_Value c)) as [f|] eqn:Hc; [|done].
      destruct (Hr H3) as [_ Hg]. destruct (Hg f eq_refl Hm) as (g & Hg1 & Hg2). rewrite Hg1. cbn.
      eexists. split; [done|]. unfold makePropertyFilter. by rewrite Hp.
Qed.

Lemma Filter_loop_match criteria fs props :
  Forall (fun c => exists f, makeCriterionFilter EqualFold c = Ok f /\ f props = true) criteria ->
  forallb (fun f => f props) fs = true ->
  exists fs', Filter_loop EqualFold criteria fs = Ok fs' /\ forallb (fun f => f props) fs' = true
    /\ length fs' = length fs + length criteria.
Proof.
  intros Hc. revert fs. induction Hc as [|c criteria (f & Hf & Hp) _ IH]; intros fs Hfs; cbn.
  - exists fs. split_and!; [done|done|lia].
  - rewrite Hf. cbn. destruct (IH (fs ++ [f])) as (fs' & -> & Hall & Hlen).
    { rewrite forallb_app, Hfs. cbn. by rewrite Hp. }
    exists fs'. split_and!; [done|done|]. rewrite Hlen, length_app. cbn. lia.
Qed.

Lemma Scan_filters_mono policies env fs f :
  f ∈ fs -> f ∈ Scan_filters EqualFold policies env fs.
Proof.
  revert fs. induction policies as [|pol policies IH]; intros fs; cbn; [done|]. intros Hf.
  destruct (Filter EqualFold (pol_Criteria pol) env) as [[g|]|]; apply IH; [|done..].
  apply elem_of_app. by left.
Qed.

Lemma Scan_filters_elem policies env fs pol f :
  pol ∈ policies -> Filter EqualFold (pol_Criteria pol) env = Ok (Some f) ->
  f ∈ Scan_filters EqualFold policies env fs.
Proof.
  revert fs. induction policies as [|q policies IH]; intros fs; [by intros ?%not_elem_of_nil|].
  intros [->|Hin]%elem_of_cons Hf; cbn.
  - rewrite Hf. apply Scan_filters_mono, elem_of_app. right. by left.
  - destruct (Filter EqualFold (pol_Criteria q) env) as [[g|]|]; by apply IH.
Qed.

Lemma Filter_match pol p view env :
  Policy_Match pol (process_Properties p env) = true ->
  Forall (fun c => scannable c (Properties_get (process_Properties p env) (crit_Key c))
    /\ Properties_get (process_Properties view env) (crit_Key c)
       = Properties_get (process_Properties p env) (crit_Key c)) (pol_Criteria pol) ->
  exists f, Filter EqualFold (pol_Criteria pol) env = Ok (Some f) /\ f view = true.
Proof.
  intros Hm Hc. unfold Policy_Match, Criteria_Match in Hm. case_decide as Hlen; [done|].
  apply Criteria_loop_true in Hm. destruct (Filter_loop_match (pol_Criteria pol) []
    (process_Properties view env)) as (fs & Hfs & Hall & Hl); [|done|].
  - rewrite Forall_forall in *. intros c Hin. destruct (Hc c Hin) as [H1 H2].
    by apply (makeCriterionFilter_match c (process_Properties p env)); [apply Hm| |].
  - unfold Filter. rewrite Hfs. cbn. rewrite decide_False by (cbn in Hl; lia). eexists. by split.
Qed.
End ScanFacts.

(** Scanning misses no process.  A filter may be applied before all the
    data of a process is known: [view p] is what is known then.  A process that
    runs and that a policy applies to is listed by [Scan], if the criteria of
    the policy only use properties that are known, if they are [scannable]
    and if the operating system can list the processes at all. *)
Lemma scan_complete `{WP : WinProcess, GT : GoText} (EqualFold : string -> string -> bool)
    (winproc_List : (ProcessData -> bool) -> result (list ProcessData))
    (runs : ProcessData -> Prop) (view : ProcessData -> ProcessData) policies env pol p l :
  (forall f l, winproc_List f = Ok l -> forall q, q ∈ l <-> runs q /\ f (view q) = true) ->
  pol ∈ policies -> runs p -> Policy_Match pol (process_Properties p env) = true ->
  Forall (fun c => scannable EqualFold c (Properties_get (process_Properties p env) (crit_Key c))
    /\ Properties_get (process_Properties (view p) env) (crit_Key c)
       = Properties_get (process_Properties p env) (crit_Key c)) (pol_Criteria pol) ->
  Scan EqualFold winproc_List policies env = Ok l -> p ∈ l.
Proof.
  intros Hlist Hpol Hrun Hm Hc. unfold Scan.
  destruct (Filter_match EqualFold pol p (view p) env Hm Hc) as (f & Hf & Hfv).
  pose proof (Scan_filters_elem EqualFold policies env [] pol f Hpol Hf) as Hin.
  rewrite decide_False by (intros H0%nil_length_inv; rewrite H0 in Hin; by apply not_elem_of_nil in Hin).
  intros Hl. apply (Hlist _ _ Hl). split; [done|]. apply existsb_exists. exists f. split; [|done].
  by apply list_elem_of_In.
Qed.

(** A policy whose criterion is an empty expression applies to every process,
    yet no filter is made from it. *)
Lemma empty_regex_not_scanned `{WP : WinProcess, GT : GoText} EqualFold key env :
  Filter EqualFold [mkCriterion key ComparisonRegex ""] env = Err "empty regular expression".
Proof. reflexivity. Qed.

(** A process that cannot be opened is reported as terminated. *)
Lemma terminate_reports_success `{WS : WinSystem OS} (p : Process) (os : OS) e :
  process_open (process_data p) (process_passive p) os = Err e -> Process_Terminate p os = (None, os).
Proof. unfold Process_Terminate. by intros ->. Qed.

(** ** An instance *)

(** Processes that are known by their names. *)
#[export] Instance named_process : WinProcess := {|
  ProcessData := string;
  UniqueID := string;
  p_UniqueID := fun p => p;
  uid_Bytes := String.list_ascii_of_string;
  p_ID := fun p => N.of_nat (String.length p);
  p_Name := fun p => p;
  p_Path := fun p => p;
  p_SID := fun _ => "";
  p_Account := fun _ => "";
  p_Domain := fun _ => "";
  p_User_String := fun _ => "ann";
  p_ID_String := fun p => p;
  p_Creation_String := fun _ => "";
  p_Creation := fun _ => 0%Z;
  p_Protected := fun _ => false;
  p_CommandLine := fun p => p;
  p_SessionID := fun _ => 1%N;
|}.

Definition ascii_fold (a b : string) : bool :=
  bool_decide (ToLower (GoText := ascii_text) a = ToLower (GoText := ascii_text) b).

Definition cad_policy : Policy :=
  mkPolicy "cad" [mkCriterion "program.name" ComparisonIgnoreCase "CAD.exe"] Strategy_Instance 1
    Minute 0%Z (mkRefresh 0%Z 0%Z) ∅.

Definition list_two (f : string -> bool) : result (list string) :=
  Ok (filter (fun p => f p = true) ["cad.exe"; "notes.exe"]).
