(* ===== verification/ProcessManager.v ===== *)
(** * The process manager (enforcer/processmanager_windows.go)

    One call of [Enforce] brings the books of the manager up to date with the
    running processes and begins to manage those that policies apply to.  It
    runs under the manager's mutex.  Invocations are known by their instances;
    whether one is [Done], what the clock says and whether a process can be
    opened is up to the environment.  The order in which Go ranges over the
    maps is an argument.

    The invocations that are stopped and created are recorded in
    [pm_stopped] and [pm_created]. *)

From S2P Require Import Prelude GoStrings GoTime Lease LeaseSet Policy PolicyProps PolicyCodec EnforcerScan.

#[local] Set Default Proof Using "Type".

Section Manager.
Context `{WP : WinProcess, GT : GoText}.

Record ProcessManager := mkPM {
  pm_managed : gmap UniqueID LeaseInstance;
  pm_skipped : gset UniqueID;
  pm_unmanageable : gmap UniqueID Time;
  pm_invocations : gset LeaseInstance;
  pm_stopped : list LeaseInstance;
  pm_created : list LeaseInstance;
}.

Definition NewProcessManager : ProcessManager := mkPM ∅ ∅ ∅ ∅ [] [].

Definition set_managed (m : gmap UniqueID LeaseInstance) (pm : ProcessManager) : ProcessManager :=
  mkPM m (pm_skipped pm) (pm_unmanageable pm) (pm_invocations pm) (pm_stopped pm) (pm_created pm).
Definition set_skipped (s : gset UniqueID) (pm : ProcessManager) : ProcessManager :=
  mkPM (pm_managed pm) s (pm_unmanageable pm) (pm_invocations pm) (pm_stopped pm) (pm_created pm).
Definition set_unmanageable (u : gmap UniqueID Time) (pm : ProcessManager) : ProcessManager :=
  mkPM (pm_managed pm) (pm_skipped pm) u (pm_invocations pm) (pm_stopped pm) (pm_created pm).

(** [inv.Stop()] and the deletion of the invocation. *)
Definition stop_invocation (instance : LeaseInstance) (pm : ProcessManager) : ProcessManager :=
  mkPM (pm_managed pm) (pm_skipped pm) (pm_unmanageable pm) (pm_invocations pm ∖ {[ instance ]})
    (pm_stopped pm ++ [instance]) (pm_created pm).

Definition stop_if_present (instance : LeaseInstance) (pm : ProcessManager) : ProcessManager :=
  if decide (instance ∈ pm_invocations pm) then stop_invocation instance pm else pm.

Definition create_invocation (id : UniqueID) (instance : LeaseInstance) (pm : ProcessManager)
  : ProcessManager :=
  mkPM (<[id := instance]> (pm_managed pm)) (pm_skipped pm) (pm_unmanageable pm)
    ({[ instance ]} ∪ pm_invocations pm) (pm_stopped pm) (pm_created pm ++ [instance]).

Context (environment : Properties).

(** One turn of the loop over the scanned processes. *)
Definition scan_turn (policies : PolicySet) (acc : ProcessManager * list ProcessData)
  (proc : ProcessData) : ProcessManager * list ProcessData :=
  let '(pm, pending) := acc in
  let id := p_UniqueID proc in
  if Blocklisted proc then
    match pm_managed pm !! id with
    | Some instance =>
        let pm := stop_if_present instance pm in
        let pm := set_managed (delete id (pm_managed pm)) pm in
        (set_skipped ({[ id ]} ∪ pm_skipped pm) pm, pending)
    | None =>
        if decide (id ∈ pm_skipped pm) then (pm, pending)
        else (set_skipped ({[ id ]} ∪ pm_skipped pm) pm, pending)
    end
  else
    let pm := set_skipped (pm_skipped pm ∖ {[ id ]}) pm in
    if decide (is_Some (pm_managed pm !! id)) then (pm, pending)
    else
      let matches := PolicySet_Match policies (process_Properties proc environment) in
      if decide (0 < length matches) then (pm, pending ++ [proc]) else (pm, pending).

(** The bookkeeping of the managed processes that no longer run. *)
Definition dead_turn (scanned : gset UniqueID) (pm : ProcessManager) (e : UniqueID * LeaseInstance)
  : ProcessManager :=
  let '(id, instance) := e in
  if decide (id ∈ scanned) then pm
  else
    let pm := stop_if_present instance pm in
    set_managed (delete id (pm_managed pm)) pm.

Definition done_turn (done : LeaseInstance -> bool) (pm : ProcessManager) (instance : LeaseInstance)
  : ProcessManager :=
  if negb (done instance) then pm else stop_invocation instance pm.

Context (sum224 : bytes -> bytes) (now failed_at : ProcessData -> Time) (open : ProcessData -> result unit).

Definition new_instance (proc : ProcessData) : LeaseInstance :=
  process_Instance (Properties_get environment "host.name") proc (NewInstanceID sum224 proc).

(** One turn of the loop over the pending processes. *)
Definition manage_turn (pm : ProcessManager) (proc : ProcessData) : ProcessManager :=
  let id := p_UniqueID proc in
  let recently := match pm_unmanageable pm !! id with
                  | Some when_ => bool_decide (Time_Sub (now proc) when_ < Minute)%Z
                  | None => false
                  end in
  if (recently : bool) then pm
  else
    match open proc with
    | Err _ => set_unmanageable (<[id := failed_at proc]> (pm_unmanageable pm)) pm
    | Ok _ =>
        let pm := set_unmanageable (delete id (pm_unmanageable pm)) pm in
        create_invocation id (new_instance proc) pm
    end.

Context (range_managed : gmap UniqueID LeaseInstance -> list (UniqueID * LeaseInstance)).
Context (range_invocations : gset LeaseInstance -> list LeaseInstance).

(** The maintenance of the books between the two loops. *)
Definition bookkeeping (done : LeaseInstance -> bool) (scanned : gset UniqueID) (pm : ProcessManager)
  : ProcessManager :=
  let pm := foldl (dead_turn scanned) pm (range_managed (pm_managed pm)) in
  let pm := set_skipped (filter (fun id => id ∈ scanned) (pm_skipped pm)) pm in
  let pm := set_unmanageable (filter (fun e => e.1 ∈ scanned) (pm_unmanageable pm)) pm in
  foldl (done_turn done) pm (range_invocations (pm_invocations pm)).

Definition Enforce (scan : result (list ProcessData)) (done : LeaseInstance -> bool)
  (policies : PolicySet) (pm : ProcessManager) : option error * ProcessManager :=
  match scan with
  | Err err => (Some err, pm)
  | Ok procs =>
      let scanned : gset UniqueID := list_to_set (p_UniqueID <$> procs) in
      let '(pm, pending) := foldl (scan_turn policies) (pm, []) procs in
      let pm := bookkeeping done scanned pm in
      if decide (length pending = 0) then (None, pm)
      else (None, foldl manage_turn pm pending)
  end.

Definition PM_Stop (pm : ProcessManager) : ProcessManager :=
  let pm := foldl (fun pm instance => stop_invocation instance pm) pm
              (range_invocations (pm_invocations pm)) in
  set_managed ∅ pm.

End Manager.

(** ** Lemmas: the first loop *)

Section Loops.
Context `{WP : WinProcess, GT : GoText} (environment : Properties).









(** ** Lemmas: the bookkeeping *)









Context (range_managed : gmap UniqueID LeaseInstance -> list (UniqueID * LeaseInstance)).
Context (range_invocations : gset LeaseInstance -> list LeaseInstance).
Context (range_managed_perm : forall m, range_managed m ≡ₚ map_to_list m).


Context (range_invocations_perm : forall m, range_invocations m ≡ₚ elements m).


End Loops.

(** ** Lemmas: the second loop *)

Section SecondLoop.
Context `{WP : WinProcess} (environment : Properties) (sum224 : bytes -> bytes).
Context (now failed_at : ProcessData -> Time) (open : ProcessData -> result unit).

(** No attempt at opening the process has failed within the last minute. *)
Definition due (pm : ProcessManager) (proc : ProcessData) : Prop :=
  forall when_, pm_unmanageable pm !! p_UniqueID proc = Some when_ ->
    (Minute <= Time_Sub (now proc) when_)%Z.

#[export] Instance due_dec pm proc : Decision (due pm proc).
Proof.
  unfold due. destruct (pm_unmanageable pm !! p_UniqueID proc) as [w|].
  - destruct (decide (Minute <= Time_Sub (now proc) w)%Z) as [H|H]; [left|right]; [by intros ? [= <-]|].
    intros Hall. by apply H, Hall.
  - by left.
Defined.

(** Whether the turn of a process creates an invocation. *)
Definition opened (pm : ProcessManager) (proc : ProcessData) : Prop :=
  due pm proc /\ exists u, open proc = Ok u.
#[export] Instance opened_dec pm proc : Decision (opened pm proc).
Proof.
  unfold opened. destruct (decide (due pm proc)) as [H|H]; [|by right; intros []].
  destruct (open proc) as [u|e]; [left; eauto|right]. by intros [_ [? [=]]].
Defined.








End SecondLoop.

(** ** Lemmas: no invocation is lost *)

Section Accounted.
Context `{WP : WinProcess, GT : GoText} (environment : Properties) (sum224 : bytes -> bytes).
Context (now failed_at : ProcessData -> Time) (open : ProcessData -> result unit).
Context (range_managed : gmap UniqueID LeaseInstance -> list (UniqueID * LeaseInstance)).
Context (range_invocations : gset LeaseInstance -> list LeaseInstance).

(** Every invocation is still there or has been stopped. *)
Definition accounted (pm pm' : ProcessManager) : Prop :=
  forall i, i ∈ pm_invocations pm \/ i ∈ pm_stopped pm -> i ∈ pm_invocations pm' \/ i ∈ pm_stopped pm'.

#[local] Instance accounted_preorder : PreOrder accounted.
Proof. split; [by intros pm i|]. intros x y z H1 H2 i Hi. by apply H2, H1. Qed.







End Accounted.

(** ** The property *)


(** ** A process that lost its invocation *)

Definition ranges (m : gmap string LeaseInstance) : list (string * LeaseInstance) := map_to_list m.

Definition enforce_cad (done : LeaseInstance -> bool) (pm : ProcessManager (WP := named_process))
  : ProcessManager (WP := named_process) :=
  snd (Enforce (WP := named_process) (GT := ascii_text) ∅ (fun b => b) (fun _ => 100%Z) (fun _ => 100%Z)
    (fun _ => Ok ()) ranges elements (Ok ["cad.exe"; "explorer.exe"]) done [cad_policy] pm).

Definition cad_instance : LeaseInstance :=
  new_instance (WP := named_process) ∅ (fun b => b) "cad.exe".

(** The bookkeeping forgets an invocation that is [Done], but not that the
    process is managed: while the process runs, as it does when its lease is
    found not to be required, it never gets another invocation. *)
Lemma lost_invocation_not_replaced :
  let pm1 := enforce_cad (fun _ => false) NewProcessManager in
  let pm2 := enforce_cad (fun _ => true) pm1 in
  let pm3 := enforce_cad (fun _ => false) pm2 in
  pm_invocations pm1 = {[ cad_instance ]} /\ pm_managed pm1 !! "cad.exe" = Some cad_instance
  /\ pm_invocations pm2 = ∅ /\ pm_managed pm2 !! "cad.exe" = Some cad_instance
  /\ pm_invocations pm3 = ∅ /\ pm_managed pm3 !! "cad.exe" = Some cad_instance.
Proof. cbn zeta. apply (bool_decide_unpack _). vm_compute. exact I. Qed.

(** ** Witness *)

