(* ===== verification/WinUser.v ===== *)
(** * Acting as the user of a session (enforcer/token_windows.go)

    Tokens, accounts and the start of programs belong to the operating system:
    they are the operations of the class [WinLaunch]. *)

From S2P Require Import Prelude.

Class WinLaunch (OS : Type) := {
  Token : Type;
  (** wtsapi.QueryUserToken *)
  QueryUserToken : N -> OS -> result Token;
  (** The SID of the user of a token. *)
  GetTokenUser : Token -> OS -> result string;
  (** The account of a SID: its name and domain, and whether it is of type [SidTypeUser]. *)
  LookupAccount : string -> OS -> result (string * string * bool);
  (** The start of a program with a path and a command line: its process ID. *)
  StartProgram : string -> string -> Token -> OS -> result N * OS;
}.

Section Tokens.
Context {OS : Type} `{WL : WinLaunch OS}.

Definition validateTokenForUser (token : Token) (expectedUsername expectedDomain : string) (os : OS)
  : option error :=
  match GetTokenUser token os with
  | Err err => Some ("unable to get user: " +:+ err)
  | Ok sid =>
      match LookupAccount sid os with
      | Err err => Some ("unable to look up account: " +:+ err)
      | Ok (username, domain, isUser) =>
          if negb isUser then Some "token is not for a standard user"
          else if decide (username <> expectedUsername \/ domain <> expectedDomain)
          then Some "token does not match expected user"
          else None
      end
  end.

(** The token belongs to a standard user of that name. *)
Definition token_of (token : Token) (username domain : string) (os : OS) : Prop :=
  exists sid, GetTokenUser token os = Ok sid /\ LookupAccount sid os = Ok (username, domain, true).

Lemma validateTokenForUser_None token username domain os :
  validateTokenForUser token username domain os = None <-> token_of token username domain os.
Proof.
  unfold validateTokenForUser, token_of. split.
  - destruct (GetTokenUser token os) as [sid|e]; [|done].
    destruct (LookupAccount sid os) as [[[u d] [|]]|e] eqn:Hl; [|done..]. cbn.
    case_decide as Hne; [done|]. intros _. exists sid. split; [done|]. rewrite Hl.
    destruct (decide (u = username)) as [->|]; [|tauto]. destruct (decide (d = domain)) as [->|]; [done|tauto].
  - intros (sid & -> & ->). cbn. rewrite decide_False by tauto. done.
Qed.
End Tokens.
