(* ===== verification/Invocation.v ===== *)
(** * Invocations (enforcer/invocation_windows.go)

    An invocation manages one process.  Its goroutine holds a lease maintainer
    and terminates the process when the maintainer reports that there is no
    active lease; [Stop], [Done] and [Absorb] are called by the process manager
    under the mutex of the invocation.

    [inv_step] is one step of the goroutine, of a caller or of the operating
    system.  A call that blocks is two steps, and holds the mutex in between
    ([inv_holder]).  The goroutine that releases the lease and closes the
    maintainer, until which the states are drained, is the step to [Stopped].
    The respawn of programs is in the model, though the program never gets
    there ([ii_phase]). *)

From S2P Require Import Prelude GoTime Lease LeaseSet Policy EnforcerScan WinUser.

(** ** The log *)

Inductive LogEntry :=
| LogCeasing | LogExited | LogMaintainerClosed
| LogOnline | LogOffline | LogExpired | LogNotRequired | LogAcquisitionFailed
| LogLease (status : Status) (resource : string) (remaining : option Duration) (duration : Duration)
| LogTerminating (id : N) | LogTerminated (id : N) | LogTerminationFailed (id : N) (err : error)
| LogStarting | LogTokenFailed (err : error) | LogTokenInvalid (err : error)
| LogStartFailed (err : error) | LogStarted (id : N)
| LogAbsorbing (id : N) | LogNotAbsorbed (id : N).

Definition online_log (old state : State) : list LogEntry :=
  if decide (state_Online state <> state_Online old) then
    if state_Online state then [LogOnline] else [LogOffline]
  else [].

(** What [recordState] logs; the title case of the status is left out. *)
Definition recordState_log (old state : State) (now : Time) : list LogEntry :=
  let lease := state_Lease state in
  let tail :=
    let remaining := Time_Sub (Lease_ExpirationTime lease) now in
    let diff := Duration_sub (ls_Duration lease) remaining in
    if decide (diff < Second)%Z then [LogLease (ls_Status lease) (ls_Resource lease) None (ls_Duration lease)]
    else [LogLease (ls_Status lease) (ls_Resource lease) (Some (Duration_Round remaining Second)) (ls_Duration lease)] in
  online_log old state ++
  if state_Acquired state then
    if Lease_Expired lease now then [LogExpired] else tail
  else if state_LeaseNotRequired state then [LogNotRequired]
  else if negb (state_Online state) then [LogAcquisitionFailed]
  else tail.

(** ** The data *)

(** Where the goroutine is: in [maintain], with its [termPending], in
    [waitForAquisition] or [waitForAbsorption], blocked for ever in the deferred
    receive from a timer that has already been received from, draining the
    states of the maintainer, or at its end. *)
Inductive Phase :=
| Maintaining (termPending : bool)
| Acquiring
| Absorbing (pid : N)
| Hung
| Draining
| Stopped.

(** Who holds the mutex. *)
Inductive Holder := NoHolder | Absorber | Stopper.

#[export] Instance Holder_eq_dec : EqDecision Holder.
Proof. solve_decision. Defined.

Section Invocation.
Context {OS : Type} `{WP : WinProcess, WS : !WinSystem OS, WL : !WinLaunch OS}.

(** [inv_stop] holds while [stop] and [stopped] are not nil; [inv_absorption]
    is [None] for nil, and otherwise the buffer, of capacity one, of the
    channel; [inv_reply] is the buffer of the result of the pending request.
    [inv_kills], [inv_terminated], [inv_notices] and [inv_answers] record the
    calls of [Terminate] with what they were made for, those that succeeded,
    the messages to the session, and the answers to requests. *)
Record Invocation := mkInvocation {
  inv_instance : LeaseInstance;
  inv_process : Process;
  inv_session : bool;
  inv_pols : PolicySet;
  inv_phase : Phase;
  inv_cancelled : bool;
  inv_stop : bool;
  inv_absorption : option (option Process);
  inv_reply : option bool;
  inv_holder : Holder;
  inv_state : State;
  inv_log : list LogEntry;
  inv_kills : list (State * Time);
  inv_terminated : list Process;
  inv_notices : list string;
  inv_answers : list bool;
}.

Definition set_process (v : Process) (inv : Invocation) : Invocation :=
  mkInvocation (inv_instance inv) v (inv_session inv) (inv_pols inv) (inv_phase inv)
    (inv_cancelled inv) (inv_stop inv) (inv_absorption inv) (inv_reply inv) (inv_holder inv)
    (inv_state inv) (inv_log inv) (inv_kills inv) (inv_terminated inv) (inv_notices inv)
    (inv_answers inv).

Definition set_pols (v : PolicySet) (inv : Invocation) : Invocation :=
  mkInvocation (inv_instance inv) (inv_process inv) (inv_session inv) v (inv_phase inv)
    (inv_cancelled inv) (inv_stop inv) (inv_absorption inv) (inv_reply inv) (inv_holder inv)
    (inv_state inv) (inv_log inv) (inv_kills inv) (inv_terminated inv) (inv_notices inv)
    (inv_answers inv).

Definition set_phase (v : Phase) (inv : Invocation) : Invocation :=
  mkInvocation (inv_instance inv) (inv_process inv) (inv_session inv) (inv_pols inv) v
    (inv_cancelled inv) (inv_stop inv) (inv_absorption inv) (inv_reply inv) (inv_holder inv)
    (inv_state inv) (inv_log inv) (inv_kills inv) (inv_terminated inv) (inv_notices inv)
    (inv_answers inv).

Definition set_cancelled (v : bool) (inv : Invocation) : Invocation :=
  mkInvocation (inv_instance inv) (inv_process inv) (inv_session inv) (inv_pols inv) (inv_phase inv)
    v (inv_stop inv) (inv_absorption inv) (inv_reply inv) (inv_holder inv) (inv_state inv)
    (inv_log inv) (inv_kills inv) (inv_terminated inv) (inv_notices inv) (inv_answers inv).

Definition set_stop (v : bool) (inv : Invocation) : Invocation :=
  mkInvocation (inv_instance inv) (inv_process inv) (inv_session inv) (inv_pols inv) (inv_phase inv)
    (inv_cancelled inv) v (inv_absorption inv) (inv_reply inv) (inv_holder inv) (inv_state inv)
    (inv_log inv) (inv_kills inv) (inv_terminated inv) (inv_notices inv) (inv_answers inv).

Definition set_absorption (v : option (option Process)) (inv : Invocation) : Invocation :=
  mkInvocation (inv_instance inv) (inv_process inv) (inv_session inv) (inv_pols inv) (inv_phase inv)
    (inv_cancelled inv) (inv_stop inv) v (inv_reply inv) (inv_holder inv) (inv_state inv)
    (inv_log inv) (inv_kills inv) (inv_terminated inv) (inv_notices inv) (inv_answers inv).

Definition set_reply (v : option bool) (inv : Invocation) : Invocation :=
  mkInvocation (inv_instance inv) (inv_process inv) (inv_session inv) (inv_pols inv) (inv_phase inv)
    (inv_cancelled inv) (inv_stop inv) (inv_absorption inv) v (inv_holder inv) (inv_state inv)
    (inv_log inv) (inv_kills inv) (inv_terminated inv) (inv_notices inv) (inv_answers inv).

Definition set_holder (v : Holder) (inv : Invocation) : Invocation :=
  mkInvocation (inv_instance inv) (inv_process inv) (inv_session inv) (inv_pols inv) (inv_phase inv)
    (inv_cancelled inv) (inv_stop inv) (inv_absorption inv) (inv_reply inv) v (inv_state inv)
    (inv_log inv) (inv_kills inv) (inv_terminated inv) (inv_notices inv) (inv_answers inv).

Definition set_state (v : State) (inv : Invocation) : Invocation :=
  mkInvocation (inv_instance inv) (inv_process inv) (inv_session inv) (inv_pols inv) (inv_phase inv)
    (inv_cancelled inv) (inv_stop inv) (inv_absorption inv) (inv_reply inv) (inv_holder inv) v
    (inv_log inv) (inv_kills inv) (inv_terminated inv) (inv_notices inv) (inv_answers inv).

Definition add_log (v : list LogEntry) (inv : Invocation) : Invocation :=
  mkInvocation (inv_instance inv) (inv_process inv) (inv_session inv) (inv_pols inv) (inv_phase inv)
    (inv_cancelled inv) (inv_stop inv) (inv_absorption inv) (inv_reply inv) (inv_holder inv)
    (inv_state inv) (inv_log inv ++ v) (inv_kills inv) (inv_terminated inv) (inv_notices inv)
    (inv_answers inv).

Definition add_kill (v : State * Time) (inv : Invocation) : Invocation :=
  mkInvocation (inv_instance inv) (inv_process inv) (inv_session inv) (inv_pols inv) (inv_phase inv)
    (inv_cancelled inv) (inv_stop inv) (inv_absorption inv) (inv_reply inv) (inv_holder inv)
    (inv_state inv) (inv_log inv) (inv_kills inv ++ [v]) (inv_terminated inv) (inv_notices inv)
    (inv_answers inv).

Definition add_terminated (v : Process) (inv : Invocation) : Invocation :=
  mkInvocation (inv_instance inv) (inv_process inv) (inv_session inv) (inv_pols inv) (inv_phase inv)
    (inv_cancelled inv) (inv_stop inv) (inv_absorption inv) (inv_reply inv) (inv_holder inv)
    (inv_state inv) (inv_log inv) (inv_kills inv) (inv_terminated inv ++ [v]) (inv_notices inv)
    (inv_answers inv).

Definition add_notice (v : string) (inv : Invocation) : Invocation :=
  mkInvocation (inv_instance inv) (inv_process inv) (inv_session inv) (inv_pols inv) (inv_phase inv)
    (inv_cancelled inv) (inv_stop inv) (inv_absorption inv) (inv_reply inv) (inv_holder inv)
    (inv_state inv) (inv_log inv) (inv_kills inv) (inv_terminated inv) (inv_notices inv ++ [v])
    (inv_answers inv).

Definition add_answer (v : bool) (inv : Invocation) : Invocation :=
  mkInvocation (inv_instance inv) (inv_process inv) (inv_session inv) (inv_pols inv) (inv_phase inv)
    (inv_cancelled inv) (inv_stop inv) (inv_absorption inv) (inv_reply inv) (inv_holder inv)
    (inv_state inv) (inv_log inv) (inv_kills inv) (inv_terminated inv) (inv_notices inv)
    (inv_answers inv ++ [v]).

(** The state that [NewInvocation] leaves; its goroutine has begun. *)
Definition NewInvocation (instance : LeaseInstance) (process : Process) (session : bool) : Invocation :=
  mkInvocation instance process session [] (Maintaining false) false true (Some None) None NoHolder
    zero_state [] [] [] [] [].

Definition inv_data (inv : Invocation) : ProcessData := process_data (inv_process inv).

Definition recordState (state : State) (now : Time) (inv : Invocation) : Invocation :=
  add_log (recordState_log (inv_state inv) state now) (set_state state inv).

(** The answer to the pending request. *)
Definition answer (b : bool) (inv : Invocation) : Invocation :=
  add_answer b (set_reply (Some b) (set_absorption (Some None) inv)).

(** ** The goroutine: maintain *)

(** [maintain] returns. *)
Definition maintained (ok : bool) (inv : Invocation) : Invocation :=
  set_phase (if ok then Acquiring else Draining) inv.

Definition maintain_cancelled (termPending : bool) (os : OS) (inv : Invocation) : Invocation :=
  if Process_Running (inv_process inv) os then maintained false (add_log [LogCeasing] inv)
  else if termPending then maintained false inv
  else maintained false (add_log [LogExited] inv).

(** What a state of the lease demands of [maintain]. *)
Inductive Verdict := Keep | Kill | Unmanage.

#[export] Instance Verdict_eq_dec : EqDecision Verdict.
Proof. solve_decision. Defined.

Definition verdict (state : State) (now : Time) : Verdict :=
  if state_Acquired state then
    if decide (ls_Status (state_Lease state) <> Active) then Kill
    else if Lease_Expired (state_Lease state) now then Kill else Keep
  else if state_LeaseNotRequired state then Unmanage
  else if negb (state_Online state) then Kill
  else Keep.

(** [session.SendProcessTermination], if there is a session. *)
Definition notify (inv : Invocation) : Invocation :=
  if inv_session inv then add_notice (p_Name (inv_data inv)) inv else inv.

Definition terminate (state : State) (now : Time) (inv : Invocation) (os : OS) : Invocation * OS :=
  let id := p_ID (inv_data inv) in
  let inv := add_kill (state, now) (add_log [LogTerminating id] inv) in
  let '(err, os) := Process_Terminate (inv_process inv) os in
  match err with
  | Some err => (add_log [LogTerminationFailed id err] inv, os)
  | None =>
      let inv := set_phase (Maintaining true) inv in
      (notify (add_log [LogTerminated id] (add_terminated (inv_process inv) inv)), os)
  end.

Definition maintain_state (termPending : bool) (state : State) (now : Time) (inv : Invocation) (os : OS)
  : Invocation * OS :=
  let inv := recordState state now inv in
  match verdict state now with
  | Unmanage => (maintained false inv, os)
  | Keep => (inv, os)
  | Kill => if termPending then (inv, os) else terminate state now inv os
  end.

(** ** The goroutine: waiting for a lease and for a process *)

Definition may_start (state : State) (now : Time) : bool :=
  if state_Acquired state then
    negb (Lease_Expired (state_Lease state) now) && bool_decide (ls_Status (state_Lease state) = Active)
  else state_LeaseNotRequired state.

(** The path and user are those of the first process of the invocation. *)
Definition spawn (first : ProcessData) (inv : Invocation) (os : OS) : option N * Invocation * OS :=
  let inv := add_log [LogStarting] inv in
  match QueryUserToken (p_SessionID first) os with
  | Err err => (None, add_log [LogTokenFailed err] inv, os)
  | Ok token =>
      match validateTokenForUser token (p_Account first) (p_Domain first) os with
      | Some err => (None, add_log [LogTokenInvalid err] inv, os)
      | None =>
          match StartProgram (p_Path first) (p_CommandLine first) token os with
          | (Err err, os) => (None, add_log [LogStartFailed err] inv, os)
          | (Ok pid, os) => (Some pid, add_log [LogStarted pid] inv, os)
          end
      end
  end.

Definition acquire_state (first : ProcessData) (state : State) (now : Time) (inv : Invocation) (os : OS)
  : Invocation * OS :=
  let inv := recordState state now inv in
  if may_start state now then
    let '(pid, inv, os) := spawn first inv os in
    match pid with
    | Some pid => (set_phase (Absorbing pid) inv, os)
    | None => (set_phase Draining inv, os)
    end
  else (inv, os).

Definition absorb_request (pid : N) (process : Process) (inv : Invocation) : Invocation :=
  if decide (p_ID (process_data process) <> pid) then answer false inv
  else set_phase (Maintaining false) (set_process process (answer true (add_log [LogAbsorbing pid] inv))).

(** ** Calls *)

(** [Absorb] up to its wait, and its return. *)
Definition Absorb (process : Process) (inv : Invocation) : Invocation :=
  match inv_absorption inv with
  | None => inv
  | Some _ => set_holder Absorber (set_absorption (Some (Some process)) inv)
  end.
Definition Absorb_return (inv : Invocation) : Invocation := set_holder NoHolder (set_reply None inv).

(** [Stop] up to its wait, if there is one, and from there on. *)
Definition Stop_rest (inv : Invocation) : Invocation := set_holder NoHolder (set_absorption None inv).
Definition Stop (inv : Invocation) : Invocation :=
  if inv_stop inv then set_holder Stopper (set_cancelled true inv) else Stop_rest inv.
Definition Stop_return (inv : Invocation) : Invocation := Stop_rest (set_stop false inv).

Definition Done (inv : Invocation) : bool :=
  if negb (inv_stop inv) then true else match inv_phase inv with Stopped => true | _ => false end.

Definition UpdatePolicies (pols : PolicySet) (inv : Invocation) : Invocation := set_pols pols inv.

(** ** Steps *)

(** [first] is the process of [NewInvocation]. *)
Context (first : ProcessData).

Inductive goroutine_step : Invocation * OS -> Invocation * OS -> Prop :=
| g_maintain_request tp p inv os :
    inv_phase inv = Maintaining tp -> inv_absorption inv = Some (Some p) ->
    goroutine_step (inv, os) (answer false inv, os)
| g_maintain_cancelled tp inv os :
    inv_phase inv = Maintaining tp -> inv_cancelled inv = true ->
    goroutine_step (inv, os) (maintain_cancelled tp os inv, os)
| g_maintain_state tp state now inv os :
    inv_phase inv = Maintaining tp ->
    goroutine_step (inv, os) (maintain_state tp state now inv os)
| g_maintain_closed tp inv os :
    inv_phase inv = Maintaining tp ->
    goroutine_step (inv, os) (maintained false (add_log [LogMaintainerClosed] inv), os)
| g_acquire_cancelled inv os :
    inv_phase inv = Acquiring -> inv_cancelled inv = true ->
    goroutine_step (inv, os) (set_phase Draining (add_log [LogCeasing] inv), os)
| g_acquire_request p inv os :
    inv_phase inv = Acquiring -> inv_absorption inv = Some (Some p) ->
    goroutine_step (inv, os) (answer false inv, os)
| g_acquire_state state now inv os :
    inv_phase inv = Acquiring -> goroutine_step (inv, os) (acquire_state first state now inv os)
| g_acquire_closed inv os :
    inv_phase inv = Acquiring ->
    goroutine_step (inv, os) (set_phase Draining (add_log [LogMaintainerClosed] inv), os)
| g_absorb_cancelled pid inv os :
    inv_phase inv = Absorbing pid -> inv_cancelled inv = true ->
    goroutine_step (inv, os) (set_phase Draining (add_log [LogCeasing] inv), os)
| g_absorb_request pid p inv os :
    inv_phase inv = Absorbing pid -> inv_absorption inv = Some (Some p) ->
    goroutine_step (inv, os) (absorb_request pid p inv, os)
| g_absorb_timeout pid inv os :
    inv_phase inv = Absorbing pid ->
    goroutine_step (inv, os) (set_phase Hung (add_log [LogNotAbsorbed pid] inv), os)
| g_drained inv os :
    inv_phase inv = Draining -> goroutine_step (inv, os) (set_phase Stopped inv, os).

Inductive caller_step : Invocation -> Invocation -> Prop :=
| c_Absorb p inv : inv_holder inv = NoHolder -> caller_step inv (Absorb p inv)
| c_Absorb_return b inv :
    inv_holder inv = Absorber -> inv_reply inv = Some b -> caller_step inv (Absorb_return inv)
| c_Stop inv : inv_holder inv = NoHolder -> caller_step inv (Stop inv)
| c_Stop_return inv :
    inv_holder inv = Stopper -> inv_phase inv = Stopped -> caller_step inv (Stop_return inv)
| c_UpdatePolicies pols inv : inv_holder inv = NoHolder -> caller_step inv (UpdatePolicies pols inv).

Inductive inv_step : Invocation * OS -> Invocation * OS -> Prop :=
| is_goroutine c c' : goroutine_step c c' -> inv_step c c'
| is_caller inv inv' os : caller_step inv inv' -> inv_step (inv, os) (inv', os)
| is_system inv os os' : inv_step (inv, os) (inv, os').
End Invocation.
