(* ===== verification/Events.v ===== *)
(** * What is logged (enforcer/events.go, cmd/resourceful/logger_windows.go)

    The events of the enforcer, what its parts make of the messages that they
    log (the functions [log] and [debug] of service_windows.go,
    sessionmanager_windows.go, processmanager_windows.go,
    policymanager_windows.go, session_windows.go, invocation_windows.go and
    process_windows.go), what the loggers do with them, and the messages of an
    invocation and of the policy manager.

    A logger may be missing; what is logged is the list of the events that it
    is given.  The text of a process ID and the title case of a word belong to
    third-party packages. *)

From stdpp Require Import pretty.
From S2P Require Import Prelude GoStrings GoTime GoDuration GoQuote Lease LeaseSet Policy PolicyText EnforcerScan WinUser Invocation.

(** ** enforcer/events.go *)

Definition ServiceEventID : N := 100.
Definition SessionEventID : N := 200.
Definition InvocationEventID : N := 300.
Definition ProcessEventID : N := 400.

Record ServiceEvent := mkServiceEvent { sve_Msg : string; sve_Debug : bool }.
Definition ServiceEvent_ID (e : ServiceEvent) : N := ServiceEventID.
Definition ServiceEvent_IsDebug (e : ServiceEvent) : bool := sve_Debug e.
Definition ServiceEvent_String (e : ServiceEvent) : string := "[SERVICE] " +:+ sve_Msg e.

Record SessionEvent := mkSessionEvent {
  sne_SessionID : N;
  sne_WindowStation : string;
  sne_SessionUser : string;
  sne_Msg : string;
  sne_Debug : bool;
}.
Definition SessionEvent_ID (e : SessionEvent) : N := SessionEventID.
Definition SessionEvent_IsDebug (e : SessionEvent) : bool := sne_Debug e.
Definition SessionEvent_String (e : SessionEvent) : string :=
  if decide (sne_SessionUser e = "") then
    "[SESSION] " +:+ sne_WindowStation e +:+ " (session " +:+ pretty (sne_SessionID e) +:+ "): " +:+ sne_Msg e
  else "[SESSION] " +:+ sne_WindowStation e +:+ " (session " +:+ pretty (sne_SessionID e) +:+ ", "
         +:+ sne_SessionUser e +:+ "): " +:+ sne_Msg e.

Record InvocationEvent := mkInvocationEvent {
  ine_Instance : LeaseInstance;
  ine_ProcessName : string;
  ine_Msg : string;
  ine_Debug : bool;
}.
Definition InvocationEvent_ID (e : InvocationEvent) : N := ProcessEventID.
Definition InvocationEvent_IsDebug (e : InvocationEvent) : bool := ine_Debug e.
Definition InvocationEvent_String (e : InvocationEvent) : string :=
  "[INVOCATION] " +:+ inst_ID (ine_Instance e) +:+ " (" +:+ ine_ProcessName e +:+ "): " +:+ ine_Msg e.

(** The text that a format makes of a process ID, and of a word in title
    case. *)
Class LogText := {
  PID_String : N -> string;
  Title : string -> string;
}.

Record ProcessEvent := mkProcessEvent {
  pre_ProcessID : N;
  pre_ProcessName : string;
  pre_Msg : string;
  pre_Debug : bool;
}.
Definition ProcessEvent_ID (e : ProcessEvent) : N := ProcessEventID.
Definition ProcessEvent_IsDebug (e : ProcessEvent) : bool := pre_Debug e.
Definition ProcessEvent_String `{LogText} (e : ProcessEvent) : string :=
  "[PROCESS] " +:+ PID_String (pre_ProcessID e) +:+ " (" +:+ pre_ProcessName e +:+ "): " +:+ pre_Msg e.

(** The interface, whose methods are those of the event inside. *)
Inductive Event :=
| EService (e : ServiceEvent)
| ESession (e : SessionEvent)
| EInvocation (e : InvocationEvent)
| EProcess (e : ProcessEvent).

Definition Event_ID (e : Event) : N :=
  match e with
  | EService e => ServiceEvent_ID e
  | ESession e => SessionEvent_ID e
  | EInvocation e => InvocationEvent_ID e
  | EProcess e => ProcessEvent_ID e
  end.
Definition Event_IsDebug (e : Event) : bool :=
  match e with
  | EService e => ServiceEvent_IsDebug e
  | ESession e => SessionEvent_IsDebug e
  | EInvocation e => InvocationEvent_IsDebug e
  | EProcess e => ProcessEvent_IsDebug e
  end.
Definition Event_String `{LogText} (e : Event) : string :=
  match e with
  | EService e => ServiceEvent_String e
  | ESession e => SessionEvent_String e
  | EInvocation e => InvocationEvent_String e
  | EProcess e => ProcessEvent_String e
  end.

(** ** The functions [log] and [debug]

    [logger]: there is one. *)

Definition service_log (logger : bool) (msg : string) : list Event :=
  if negb logger then [] else [EService (mkServiceEvent msg false)].
Definition service_debug (logger : bool) (msg : string) : list Event :=
  if negb logger then [] else [EService (mkServiceEvent msg true)].

Definition policies_log (logger : bool) (msg : string) : list Event :=
  if negb logger then [] else [EService (mkServiceEvent msg false)].
Definition policies_debug (logger : bool) (msg : string) : list Event :=
  if negb logger then [] else [EService (mkServiceEvent msg true)].

Definition processes_log (logger : bool) (msg : string) : list Event :=
  if negb logger then [] else [EService (mkServiceEvent msg false)].
Definition processes_debug (logger : bool) (msg : string) : list Event :=
  if negb logger then [] else [EService (mkServiceEvent msg true)].

Definition sessions_log (logger : bool) (msg : string) : list Event :=
  if negb logger then [] else [EService (mkServiceEvent msg false)].
Definition sessions_debug (logger : bool) (msg : string) : list Event :=
  if negb logger then [] else [EService (mkServiceEvent msg true)].

(** [id], [station] and [user] are those of the data of the session. *)
Definition session_log (id : N) (station user : string) (logger : bool) (msg : string) : list Event :=
  if logger then [ESession (mkSessionEvent id station user msg false)] else [].
Definition session_debug (id : N) (station user : string) (logger : bool) (msg : string) : list Event :=
  if logger then [ESession (mkSessionEvent id station user msg true)] else [].

(** What the goroutine that receives from the process logs: the lines until the
    end, or until an error. *)
Definition session_received (id : N) (station user : string) (logger : bool) (lines : list string) (err : option error)
  : list Event :=
  mjoin ((fun line => session_debug id station user logger ("Received: " +:+ line)) <$> lines)
  ++ session_debug id station user logger
       ("Receive: " +:+ match err with Some err => err | None => "EOF" end).

(** The handler of the service, of cmd/resourceful/handler_windows.go. *)
Definition handler_log (logger : bool) (msg : string) : list Event :=
  if negb logger then [] else [EService (mkServiceEvent msg false)].
Definition handler_debug (logger : bool) (msg : string) : list Event :=
  if negb logger then [] else [EService (mkServiceEvent msg true)].

Definition invocation_log (instance : LeaseInstance) (name : string) (logger : bool) (msg : string) : list Event :=
  if negb logger then [] else [EInvocation (mkInvocationEvent instance name msg false)].
Definition invocation_debug (instance : LeaseInstance) (name : string) (logger : bool) (msg : string) : list Event :=
  if negb logger then [] else [EInvocation (mkInvocationEvent instance name msg true)].

Definition process_log `{WinProcess} (p : ProcessData) (logger : bool) (msg : string) : list Event :=
  if negb logger then [] else [EProcess (mkProcessEvent (p_ID p) (p_Name p) msg false)].
Definition process_debug `{WinProcess} (p : ProcessData) (logger : bool) (msg : string) : list Event :=
  if negb logger then [] else [EProcess (mkProcessEvent (p_ID p) (p_Name p) msg true)].

(** ** cmd/resourceful/logger_windows.go *)

(** What the logger of the command line prints. *)
Definition cliLogger_Log `{LogText} (debug : bool) (e : Event) : option string :=
  if Event_IsDebug e && negb debug then None
  else
    let s := Event_String e in
    Some (if decide (String.length s = 0 \/ String.get (String.length s - 1) s <> Some (Ascii.ascii_of_nat 10))
          then s +:+ newline else s).

(** What the logger of the service writes to the event log: debugging events
    as well. *)
Definition svcLogger_Log `{LogText} (e : Event) : N * string := (Event_ID e, Event_String e).

(** ** enforcer/invocation_windows.go: the messages *)

Definition LogEntry_msg `{LogText} (entry : LogEntry) : string :=
  match entry with
  | LogCeasing => "Ceasing management"
  | LogExited => "Exited"
  | LogMaintainerClosed => "Lease maintainer closed"
  | LogOnline => "Online"
  | LogOffline => "Offline"
  | LogExpired => "Lease Expired"
  | LogNotRequired => "Lease Not Required"
  | LogAcquisitionFailed => "Lease Acquisition Failed"
  | LogLease status resource None duration =>
      Title status +:+ " (" +:+ resource +:+ ", " +:+ Duration_text duration +:+ ")"
  | LogLease status resource (Some remaining) duration =>
      Title status +:+ " (" +:+ resource +:+ ", " +:+ Duration_text remaining +:+ " / "
        +:+ Duration_text duration +:+ ")"
  | LogTerminating id => "Terminating process " +:+ pretty id
  | LogTerminated id => "Terminated process " +:+ pretty id
  | LogTerminationFailed id err => "Termination of process " +:+ pretty id +:+ " failed: " +:+ err
  | LogStarting => "Starting new process"
  | LogTokenFailed err => "Failed to acquire token: " +:+ err
  | LogTokenInvalid err => "Failed to validate token: " +:+ err
  | LogStartFailed err => "Failed to start: " +:+ err
  | LogStarted id => "Started process " +:+ pretty id
  | LogAbsorbing id => "Absorbing process " +:+ pretty id
  | LogNotAbsorbed id => "Failed to absorb process " +:+ pretty id
  end.

(** What an invocation has logged, as the events that its logger was given;
    its name is that of the process it was made for. *)
Definition invocation_events `{LogText, WinProcess} (logger : bool) (name : string) (inv : Invocation) : list Event :=
  mjoin ((fun entry => invocation_log (inv_instance inv) name logger (LogEntry_msg entry)) <$> inv_log inv).

(** ** enforcer/policymanager_windows.go: the messages

    [hash] is the text of the hash of a policy. *)

Definition additions_text `{Printable} (hash : Policy -> string) (additions deletions : list Policy) : list string :=
  ((fun pol => "POL: ADD " +:+ hash pol +:+ ": " +:+ Policy_String pol) <$> additions)
  ++ ((fun pol => "POL: REM " +:+ hash pol +:+ ": " +:+ Policy_String pol) <$> deletions).
Definition Load_text (n : nat) : string :=
  match n with
  | 0 => "POL: No policies found in the local policy cache"
  | 1 => "POL: Loading 1 policy from local policy cache"
  | d => "POL: Loading " +:+ pretty d +:+ " policies from local policy cache"
  end.
Definition Update_text (n : nat) : string :=
  match n with
  | 1 => "POL: Received 1 policy from policy server"
  | d => "POL: Received " +:+ pretty d +:+ " policies from policy server"
  end.

(** ** Lemmas *)

(** Invocation events carry the ID of process events, not their own. *)
Lemma invocation_event_id e :
  InvocationEvent_ID e = ProcessEventID /\ InvocationEvent_ID e <> InvocationEventID.
Proof. by split. Qed.

(** The logger of the command line keeps debugging events to itself unless it
    is asked for them; whatever it prints is a line. *)
Lemma String_get_app s c : String.get (String.length s) (s +:+ String c "") = Some c.
Proof. induction s as [|d s IH]; [done|]. by rewrite String_app. Qed.

Lemma cliLogger_prints `{LogText} debug e :
  (cliLogger_Log debug e = None <-> Event_IsDebug e = true /\ debug = false)
  /\ (forall text, cliLogger_Log debug e = Some text ->
        String.length text <> 0
        /\ String.get (String.length text - 1) text = Some (Ascii.ascii_of_nat 10)).
Proof.
  unfold cliLogger_Log. destruct (Event_IsDebug e), debug; cbn [andb negb];
    (split; [naive_solver|]); try done; intros text Ht; simplify_eq; case_decide as Hs;
    try (apply Decidable.not_or in Hs as [? Hs]; split; [done|];
         by destruct (decide (String.get (String.length (Event_String e) - 1) (Event_String e) = Some (Ascii.ascii_of_nat 10))));
    unfold newline; rewrite string_app_length; cbn; rewrite Nat.add_sub;
    (split; [lia|apply String_get_app]).
Qed.

(** What is received is only logged for debugging, a line at a time. *)
Lemma session_received_debug id station user lines err :
  session_received id station user false lines err = []
  /\ length (session_received id station user true lines err) = S (length lines)
  /\ Forall (fun e => Event_IsDebug e = true) (session_received id station user true lines err).
Proof.
  unfold session_received. split; [cbn; rewrite app_nil_r; by induction lines|].
  assert (Hj : mjoin ((fun line => session_debug id station user true ("Received: " +:+ line)) <$> lines)
    = (fun line => ESession (mkSessionEvent id station user ("Received: " +:+ line) true)) <$> lines)
    by (induction lines as [|l lines IH]; cbn in *; [done|by f_equal]).
  rewrite Hj. split; [rewrite length_app, length_fmap; cbn; lia|].
  apply Forall_app. split; [|by constructor]. apply Forall_fmap, Forall_forall. done.
Qed.

(** Without a logger an invocation logs nothing; with one, every entry is one
    event, of its instance and in order, none of them for debugging. *)
Lemma invocation_events_order `{LogText, WinProcess} name inv :
  invocation_events false name inv = []
  /\ length (invocation_events true name inv) = length (inv_log inv)
  /\ Forall (fun e => exists entry, entry ∈ inv_log inv
       /\ e = EInvocation (mkInvocationEvent (inv_instance inv) name (LogEntry_msg entry) false))
       (invocation_events true name inv).
Proof.
  unfold invocation_events. generalize (inv_log inv) as l. intros l. split; [|split].
  - by induction l.
  - induction l as [|x l IH]; cbn; [done|]. by rewrite <-IH.
  - apply Forall_forall. intros e (es & He & (entry & -> & Hl)%list_elem_of_fmap)%list_elem_of_join.
    cbn in He. apply list_elem_of_singleton in He as ->. by exists entry.
Qed.
