(* ===== verification/InvocationProps.v ===== *)
(** * What an invocation guarantees *)

From stdpp Require Import relations.
From S2P Require Import Prelude GoTime Lease LeaseSet Policy EnforcerScan Server Client Maintainer WinUser Invocation.

Section Facts.
Context {OS : Type} `{WP : WinProcess, WS : !WinSystem OS, WL : !WinLaunch OS}.

(** ** The invariant *)

(** A state on which the program may not run. *)
Definition violation (e : State * Time) : Prop :=
  let '(state, now) := e in
  if state_Acquired state then ls_Status (state_Lease state) <> Active \/ Lease_Expired (state_Lease state) now = true
  else state_LeaseNotRequired state = false /\ state_Online state = false.

Lemma verdict_violation state now : verdict state now = Kill <-> violation (state, now).
Proof.
  unfold verdict, violation. destruct (state_Acquired state).
  - case_decide as Hs; [by split; [left|]|]. destruct (Lease_Expired _ _); split; try done; [by right|].
    intros [?|?]; [|done]. tauto.
  - destruct (state_LeaseNotRequired state), (state_Online state); cbn; split; try done; by intros [? ?].
Qed.

Definition managing (ph : Phase) : Prop :=
  match ph with Maintaining _ | Draining | Stopped => True | _ => False end.

Record invocation_inv (p : Process) (inv : Invocation) : Prop := {
  ii_process : inv_process inv = p;
  ii_kills : Forall violation (inv_kills inv);
  ii_phase : managing (inv_phase inv);
  ii_pending : forall tp, inv_phase inv = Maintaining tp -> inv_terminated inv = if tp then [p] else [];
  ii_once : inv_terminated inv = [] \/ inv_terminated inv = [p];
  ii_answers : Forall (eq false) (inv_answers inv);
  ii_reply : inv_reply inv <> Some true;
  ii_stopper : inv_holder inv = Stopper -> inv_cancelled inv = true /\ inv_stop inv = true;
  ii_absorber : inv_holder inv = Absorber -> exists b, inv_absorption inv = Some b;
  ii_stopped : inv_stop inv = false -> inv_phase inv = Stopped;
}.

Lemma NewInvocation_inv instance p session : invocation_inv p (NewInvocation instance p session).
Proof.
  split; cbn; try done.
  - by intros tp [= <-].
  - by left.
Qed.

(** Two invocations that agree on all but what is logged and recorded of the state. *)
Lemma recorded_inv p state now inv :
  invocation_inv p inv -> invocation_inv p (recordState state now inv).
Proof. intros []. by split. Qed.

Lemma logged_inv p l inv : invocation_inv p inv -> invocation_inv p (add_log l inv).
Proof. intros []. by split. Qed.

Lemma draining_inv p inv :
  inv_phase inv <> Stopped -> invocation_inv p inv -> invocation_inv p (set_phase Draining inv).
Proof. intros Hph []. split; cbn; try done. intros H. by rewrite (ii_stopped0 H) in Hph. Qed.

Lemma answer_inv p inv :
  inv_phase inv <> Stopped -> invocation_inv p inv -> invocation_inv p (answer false inv).
Proof.
  intros Hph []. split; cbn; try done.
  - apply Forall_app. split; [done|]. by apply Forall_singleton.
  - by eexists.
Qed.

Lemma maintain_cancelled_inv p tp os inv :
  inv_phase inv = Maintaining tp -> invocation_inv p inv -> invocation_inv p (maintain_cancelled tp os inv).
Proof.
  intros Hph Hi. unfold maintain_cancelled, maintained. destruct (Process_Running _ _); [|destruct tp];
    (apply draining_inv; [cbn; congruence|]); by try apply logged_inv.
Qed.

Lemma terminate_inv p state now inv os :
  inv_phase inv = Maintaining false -> violation (state, now) -> invocation_inv p inv ->
  invocation_inv p (terminate state now inv os).1.
Proof.
  intros Hph Hv Hi. unfold terminate. cbn zeta.
  assert (Hk : invocation_inv p (add_kill (state, now) (add_log [LogTerminating (p_ID (inv_data inv))] inv))).
  { destruct Hi. split; cbn; try done. apply Forall_app. split; [done|]. by apply Forall_singleton. }
  set (inv1 := add_kill _ _) in *. assert (Hph1 : inv_phase inv1 = Maintaining false) by done.
  destruct (Process_Terminate _ _) as [[e|] os']; cbn [fst]; [by apply logged_inv|].
  pose proof (ii_pending _ _ Hk false Hph1) as Hnil. clearbody inv1. destruct Hk.
  unfold notify. cbn [inv_session add_log add_terminated set_phase].
  destruct (inv_session inv1); (split; cbn; try done; rewrite ?Hnil, ?ii_process0; cbn).
  all: try by intros tp [= <-].
  all: try by right.
  all: intros H; rewrite (ii_stopped0 H) in Hph1; done.
Qed.

Lemma maintain_state_inv p tp state now inv os :
  inv_phase inv = Maintaining tp -> invocation_inv p inv ->
  invocation_inv p (maintain_state tp state now inv os).1.
Proof.
  intros Hph Hi. unfold maintain_state. cbn zeta. apply (recorded_inv p state now) in Hi.
  set (inv1 := recordState state now inv) in *. assert (Hph1 : inv_phase inv1 = Maintaining tp) by done.
  clearbody inv1. destruct (verdict state now) eqn:Hv; [done| |].
  - destruct tp; [done|]. apply terminate_inv; [done| |done]. by apply verdict_violation.
  - apply draining_inv; [congruence|done].
Qed.

Lemma goroutine_step_inv first p c c' :
  goroutine_step first c c' -> invocation_inv p c.1 -> invocation_inv p c'.1.
Proof.
  intros Hs Hi. destruct Hs; cbn [fst] in *;
    match goal with H : inv_phase _ = ?ph |- _ =>
      assert (inv_phase inv <> Stopped) by congruence; pose proof (ii_phase _ _ Hi) as Hm; rewrite H in Hm end;
    try done.
  - by apply answer_inv.
  - by apply maintain_cancelled_inv.
  - by apply maintain_state_inv.
  - by apply draining_inv, logged_inv.
  - destruct Hi. by split.
Qed.

Lemma caller_step_inv p inv inv' :
  caller_step inv inv' -> invocation_inv p inv -> invocation_inv p inv'.
Proof.
  intros Hs [P K Ph Pe On An Re St Ab Sd]. destruct Hs as [q inv Hh|b inv Hh Hr|inv Hh|inv Hh Hp|pols inv Hh].
  - unfold Absorb. destruct (inv_absorption inv) as [b|] eqn:Ha; split; cbn; try done; by try (by eexists); rewrite ?Hh.
  - split; cbn; done.
  - unfold Stop. destruct (inv_stop inv) eqn:Hst; split; cbn; try done; by rewrite ?Hst.
  - split; cbn; done.
  - split; cbn; done.
Qed.

Lemma inv_step_inv first p c c' : inv_step first c c' -> invocation_inv p c.1 -> invocation_inv p c'.1.
Proof.
  intros [c1 c2 H|inv inv' os H|inv os os']; [by eapply goroutine_step_inv|by eapply caller_step_inv|done].
Qed.

Lemma reachable_inv first instance p session os c :
  rtc (inv_step first) (NewInvocation instance p session, os) c -> invocation_inv p c.1.
Proof.
  apply (rtc_ind_r (fun c => invocation_inv p c.1)); [apply NewInvocation_inv|].
  intros c1 c2 _ Hs Hi. by eapply inv_step_inv.
Qed.
(** ** Ending *)

Lemma goroutine_ends first p inv os :
  invocation_inv p inv -> inv_cancelled inv = true ->
  exists inv', rtc (inv_step first) (inv, os) (inv', os) /\ inv_phase inv' = Stopped
    /\ inv_kills inv' = inv_kills inv /\ inv_holder inv' = inv_holder inv
    /\ inv_stop inv' = inv_stop inv.
Proof.
  intros Hi Hc. assert (Hdrain : forall inv, inv_phase inv = Draining ->
    rtc (inv_step first) (inv, os) (set_phase Stopped inv, os)).
  { intros i Hd. apply rtc_once, is_goroutine. by apply g_drained. }
  pose proof (ii_phase _ _ Hi) as Hm. destruct (inv_phase inv) as [tp| | | | |] eqn:Hph; try done.
  - assert (Hd : inv_phase (maintain_cancelled tp os inv) = Draining
      /\ inv_kills (maintain_cancelled tp os inv) = inv_kills inv
      /\ inv_holder (maintain_cancelled tp os inv) = inv_holder inv
      /\ inv_stop (maintain_cancelled tp os inv) = inv_stop inv)
      by (unfold maintain_cancelled; destruct (Process_Running _ _); [done|]; by destruct tp).
    destruct Hd as (H1 & H2 & H3 & H4). eexists. split.
    + eapply rtc_l; [by apply is_goroutine, (g_maintain_cancelled _ tp)|]. by apply Hdrain.
    + by rewrite <- H2, <- H3, <- H4.
  - exists (set_phase Stopped inv). split; [by apply Hdrain|done].
  - exists inv. by split.
Qed.

(** A request that the goroutine has not answered when it leaves its loops is
    never answered: the caller keeps the mutex for ever. *)
Lemma absorb_deadlocks first c c' :
  rtc (inv_step first) c c' -> inv_holder c.1 = Absorber -> inv_reply c.1 = None ->
  (inv_phase c.1 = Draining \/ inv_phase c.1 = Stopped) -> inv_holder c'.1 = Absorber.
Proof.
  induction 1 as [c|c1 c2 c3 Hs _ IH]; [done|]. intros Hh Hr Hp.
  assert (H : inv_holder c2.1 = Absorber /\ inv_reply c2.1 = None
    /\ (inv_phase c2.1 = Draining \/ inv_phase c2.1 = Stopped)); [|destruct H as (? & ? & ?); by apply IH].
  destruct Hs as [c1 c2 Hg|inv inv' os Hc|inv os os']; [| |done].
  - destruct Hg; cbn [fst] in *; destruct Hp as [Hp|Hp]; try congruence. by split_and!; [..|right].
  - cbn [fst] in *. destruct Hc; congruence.
Qed.
End Facts.

(** ** The properties *)

(** What lets a program run: an active lease, or none being needed. *)
Definition authorized (e : State * Time) : Prop :=
  let '(state, now) := e in
  (state_Acquired state = true /\ ls_Status (state_Lease state) = Active
   /\ Lease_Expired (state_Lease state) now = false)
  \/ (state_Acquired state = false /\ state_LeaseNotRequired state = true).

Lemma authorized_iff state now :
  (state_Acquired state || state_LeaseNotRequired state || negb (state_Online state)) = true ->
  authorized (state, now) <-> ~ violation (state, now).
Proof.
  unfold authorized, violation. destruct (state_Acquired state); cbn.
  - intros _. destruct (Lease_Expired _ _); [split; [by intros [(_ & _ & ?)|[? _]]|]; intros H; destruct H; by right|].
    split; [intros [(_ & Hs & _)|[? _]]; [|done]; by intros [?|?]|]. intros H. left. split; [done|]. split; [|done].
    destruct (decide (ls_Status (state_Lease state) = Active)); [done|]. destruct H. by left.
  - destruct (state_LeaseNotRequired state).
    + intros _. split; [by intros _ [? _]|by right].
    + destruct (state_Online state); [done|]. intros _. split; [by intros [(? & _)|[_ ?]]|].
      intros H. by destruct H.
Qed.

(** C17. Enforcement of a lease.  However the calls and the system interleave
    with its goroutine, an invocation calls for the termination of its process
    only on states that forbid it to run, and at most one such call succeeds;
    it never starts a program nor takes over another process.  While it
    maintains the lease, a state that forbids the program to run finds it
    terminated or has the termination fail, and on any other state the process
    is left alone.  A state that the lease maintainer reports after an
    acquisition either authorizes the program or forbids it. *)
Theorem invocation_enforces {OS : Type} `{WP : WinProcess, WS : !WinSystem OS, WL : !WinLaunch OS}
    first instance p session os0 inv os :
  rtc (inv_step first) (NewInvocation instance p session, os0) (inv, os) ->
  Forall violation (inv_kills inv)
  /\ (inv_terminated inv = [] \/ inv_terminated inv = [p])
  /\ managing (inv_phase inv) /\ Forall (eq false) (inv_answers inv)
  /\ (forall tp state now, inv_phase inv = Maintaining tp -> violation (state, now) ->
        let '(inv', os') := maintain_state tp state now inv os in
        (exists tp', inv_phase inv' = Maintaining tp')
        /\ (p ∈ inv_terminated inv' \/ exists e, Process_Terminate p os = (Some e, os')))
  /\ (forall tp state now, ~ violation (state, now) ->
        let '(inv', os') := maintain_state tp state now inv os in
        os' = os /\ inv_kills inv' = inv_kills inv)
  /\ (forall prev response now, let state := acquired_state prev response in
        authorized (state, now) <-> ~ violation (state, now)).
Proof.
  intros Hr. apply (reachable_inv first) in Hr as Hi. cbn in Hi. split_and!; try apply Hi.
  - intros tp state now Hph Hv. apply verdict_violation in Hv. unfold maintain_state. rewrite Hv.
    pose proof (ii_pending _ _ Hi tp Hph) as Ht. destruct tp.
    + split; [by exists true|]. left. cbn. rewrite Ht. by left.
    + unfold terminate. cbn zeta. cbn [inv_process add_kill add_log recordState set_state].
      rewrite (ii_process _ _ Hi). destruct (Process_Terminate p os) as [[e|] os'].
      * split; [by exists false|]. right. by exists e.
      * unfold notify. cbn [inv_session add_log add_terminated set_phase]. destruct (inv_session _);
          (split; [by exists true|]); left; cbn; rewrite Ht, (ii_process _ _ Hi); by left.
  - intros tp state now Hv. rewrite <- verdict_violation in Hv. unfold maintain_state.
    by destruct (verdict state now).
  - intros prev response now. apply authorized_iff. by destruct response as [r|[]]; cbn; destruct (state_Acquired prev).
Qed.

(** Stopping.  Stopping an invocation that no request for absorption holds
    up can always be completed: from any state that is reached there is a run
    to one in which the invocation is done, without another termination. *)
Lemma invocation_stops {OS : Type} `{WP : WinProcess, WS : !WinSystem OS, WL : !WinLaunch OS}
    first instance p session os0 inv os :
  rtc (inv_step first) (NewInvocation instance p session, os0) (inv, os) ->
  inv_holder inv <> Absorber ->
  exists inv', rtc (inv_step first) (inv, os) (inv', os)
    /\ Done inv' = true /\ inv_holder inv' = NoHolder /\ inv_phase inv' = Stopped
    /\ inv_absorption inv' = None /\ inv_kills inv' = inv_kills inv.
Proof.
  intros Hr Hh. apply (reachable_inv first) in Hr as Hi. cbn in Hi.
  destruct (inv_stop inv) eqn:Hst.
  - (* cancelled by now, or by the first step *)
    assert (H1 : exists inv1, rtc (inv_step first) (inv, os) (inv1, os) /\ invocation_inv p inv1
      /\ inv_cancelled inv1 = true /\ inv_holder inv1 = Stopper /\ inv_kills inv1 = inv_kills inv).
    { destruct (inv_holder inv) eqn:Hhold; [|done|].
      - assert (Hs : caller_step inv (Stop inv)) by (by apply c_Stop). exists (Stop inv).
        split; [by apply rtc_once, is_caller|]. split; [by eapply caller_step_inv|].
        unfold Stop. by rewrite Hst.
      - exists inv. destruct (ii_stopper _ _ Hi Hhold) as [Hc _]. by split. }
    destruct H1 as (inv1 & R1 & Hi1 & Hc1 & Hh1 & Hk1).
    destruct (goroutine_ends first p inv1 os Hi1 Hc1) as (inv2 & R2 & Hp2 & Hk2 & Hh2 & _).
    exists (Stop_return inv2). split.
    + etrans; [exact R1|]. etrans; [exact R2|]. apply rtc_once, is_caller. apply c_Stop_return; congruence.
    + split_and!; try done. cbn. congruence.
  - assert (Hno : inv_holder inv = NoHolder).
    { destruct (inv_holder inv) eqn:Hhold; [done|done|]. destruct (ii_stopper _ _ Hi Hhold). congruence. }
    exists (Stop inv). split; [apply rtc_once, is_caller; by apply c_Stop|]. unfold Stop. rewrite Hst.
    split_and!; try done; cbn; [unfold Done; cbn; by rewrite Hst|by apply (ii_stopped _ _ Hi)].
Qed.

(** ** Witnesses *)

(** A system with one process, whose state says whether the process runs. *)
#[export] Instance one_system : WinSystem (WP := named_process) bool := {|
  winproc_Open := fun _ _ (os : bool) => if os then None else Some "gone";
  ref_UniqueID := fun _ _ => Ok "cad.exe";
  ref_Terminate := fun _ r _ os => match r with ActiveRights => (None, false) | _ => (Some "denied", os) end;
|}.

#[export] Instance one_launch : WinLaunch bool := {|
  Token := unit;
  QueryUserToken := fun _ _ => Ok tt;
  GetTokenUser := fun _ _ => Ok "S-1";
  LookupAccount := fun _ _ => Ok ("ann", "corp", true);
  StartProgram := fun _ _ _ _ => (Ok 7%N, true);
|}.

Definition cad_process : Process (WP := named_process) := mkProcess (WP := named_process) "cad.exe" false.

Definition cad_invocation : Invocation (WP := named_process) :=
  NewInvocation (WP := named_process) (mkInstance "host" "ann" "1") cad_process true.

(** A state in which the lease is queued. *)
Definition queued_state : State :=
  mkState true false true (set_Status Queued zero_lease) [] 0%Z None.

Definition cad_killed : Invocation (WP := named_process) * bool :=
  maintain_state (WS := one_system) false queued_state (100 * Second)%Z cad_invocation true.

Lemma cad_reachable :
  rtc (inv_step (WP := named_process) (WS := one_system) "cad.exe") (cad_invocation, true) cad_killed.
Proof. apply rtc_once, is_goroutine. apply (g_maintain_state _ false). reflexivity. Defined.

Lemma invocation_enforces_witness :
  cad_killed.2 = false /\ inv_terminated cad_killed.1 = [cad_process]
  /\ inv_notices cad_killed.1 = ["cad.exe"] /\ Forall violation (inv_kills cad_killed.1).
Proof.
  split; [vm_compute; reflexivity|]. split; [vm_compute; reflexivity|]. split; [vm_compute; reflexivity|].
  exact (proj1 (invocation_enforces (WS := one_system) "cad.exe" (mkInstance "host" "ann" "1") cad_process true true
    cad_killed.1 cad_killed.2 cad_reachable)).
Defined.

Lemma invocation_stops_witness :
  exists inv', rtc (inv_step (WP := named_process) (WS := one_system) "cad.exe") (cad_killed.1, false) (inv', false)
    /\ Done (WP := named_process) inv' = true /\ inv_kills inv' = inv_kills cad_killed.1.
Proof.
  destruct (invocation_stops (WS := one_system) "cad.exe" (mkInstance "host" "ann" "1") cad_process true true
    cad_killed.1 cad_killed.2 cad_reachable) as (inv' & H1 & H2 & _ & _ & _ & H6).
  - vm_compute. discriminate.
  - exists inv'. split; [exact H1|]. split; [exact H2|exact H6].
Defined.
