(* ===== verification/InvocationTimed.v ===== *)
(** * An invocation in time

    An invocation of the enforcer as a keeper: a process is terminated soon
    after its lease has expired, or after the server could not be asked. *)

From S2P Require Import Prelude GoTime Lease Program Server Client Maintainer MaintainerProps LeaseWatch Policy EnforcerScan WinUser Invocation InvocationProps.

Section Keeper.
Context {OS : Type} `{WP : WinProcess, WS : !WinSystem OS, WL : !WinLaunch OS}.
Context (first : ProcessData) (instance : LeaseInstance) (p : Process) (session : bool).

(** The process is managed, and no termination has been attempted. *)
Definition process_at_large (c : Invocation * OS) : Prop :=
  inv_phase c.1 = Maintaining false /\ inv_kills c.1 = [].

(** The states are handled by [maintain], and drained once it has returned;
    anything else that an invocation and its callers can do happens in between. *)
#[local] Instance invocation_keeper : Keeper (Invocation * OS) := {|
  kp_start c := c.1 = NewInvocation instance p session;
  kp_handle s now c c' :=
    match inv_phase c.1 with
    | Maintaining tp => c' = maintain_state tp s now c.1 c.2
    | Acquiring => c' = acquire_state first s now c.1 c.2
    | _ => c' = c
    end;
  kp_other _ := inv_step first;
  kp_large := process_at_large;
|}.

Lemma terminate_kills state now inv os : inv_kills (terminate state now inv os).1 <> [].
Proof.
  unfold terminate. cbn zeta. destruct (Process_Terminate _ _) as [[e|] os']; cbn.
  - by destruct (inv_kills inv).
  - unfold notify. destruct (inv_session _); cbn; by destruct (inv_kills inv).
Qed.

Lemma maintain_state_large tp state now inv os :
  process_at_large (maintain_state tp state now inv os) ->
  inv_phase inv = Maintaining tp -> verdict state now = Keep /\ process_at_large (inv, os).
Proof.
  unfold process_at_large, maintain_state. cbn zeta. intros [Hp Hk] Hph. destruct (verdict state now); cbn in *.
  - by rewrite Hph in *.
  - destruct tp; cbn in *; [congruence|]. by destruct (terminate_kills state now (recordState state now inv) os).
  - done.
Qed.

(** Whatever is kept is justified. *)
Lemma keep_justified s now : answered s -> verdict s now = Keep -> justifies s now.
Proof.
  unfold answered, verdict, justifies. case_decide as He.
  - intros [Ho Hq]. rewrite Ho, Hq. cbn. destruct (state_Acquired s); [|done].
    case_decide; [done|]. destruct (Lease_Expired _ _); [done|]. by left.
  - intros Ha. assert (Hn : state_Err s = None) by (by destruct (state_Err s); [destruct He|]).
    destruct (state_LeaseNotRequired s); rewrite Ha; [done|]. case_decide as Hs; [done|].
    intros _. right. split; [done|]. right. by destruct (decide (ls_Status (state_Lease s) = Active)).
Qed.

(** A step that leaves the process at large finds it so. *)
Lemma inv_step_large c c' : invocation_inv p c.1 -> inv_step first c c' -> process_at_large c' -> process_at_large c.
Proof.
  intros Hi Hs. destruct Hs as [c c' Hg|inv inv' os Hc|inv os os']; [|by destruct Hc; unfold process_at_large;
    cbn; try done; unfold Absorb, Stop; repeat case_match|done].
  pose proof (ii_phase _ _ Hi) as Hm.
  destruct Hg; cbn [fst] in *; try (by rewrite H in Hm); try (unfold process_at_large; cbn; by rewrite ?H).
  - unfold process_at_large, maintain_cancelled. destruct (Process_Running _ _); [by intros [? _]|]. by destruct tp; intros [? _].
  - intros Hl. by eapply maintain_state_large.
  - by intros [? _].
  - by intros [? _].
Qed.

#[local] Instance invocation_keeper_spec : KeeperSpec (Invocation * OS).
Proof.
  apply (Build_KeeperSpec _ _ (fun c => invocation_inv p c.1)).
  - intros [inv os] Hs. cbn in *. subst inv. apply NewInvocation_inv.
  - intros s now c c' Hi Hh. cbn in Hh. pose proof (ii_phase _ _ Hi) as Hm.
    destruct (inv_phase c.1) eqn:Hp; try done; subst c'; try done. by apply maintain_state_inv.
  - intros now c c' Hi Hs. exact (inv_step_inv first p c c' Hs Hi).
  - intros s now c _. cbn. destruct (inv_phase c.1); by eexists.
  - intros s now c c' Hi Ha Hh Hl. cbn in Hh. pose proof (ii_phase _ _ Hi) as Hm.
    destruct (inv_phase c.1) eqn:Hp; try done; subst c'.
    + apply keep_justified; [done|]. apply (maintain_state_large _ _ _ _ _ Hl Hp).
    + destruct Hl as [Hl _]. congruence.
    + destruct Hl as [Hl _]. congruence.
  - intros now c c' Hi Hs. exact (inv_step_large c c' Hi Hs).
Defined.

(** C18. A process does not outlive its lease.  While an invocation manages its
    process and no termination has been attempted, the maintainer has either
    not answered yet, for no longer than an attempt and two delays; or its last
    state that was handled is an active lease or the failure to renew it, and
    the time is before the lease expires, or later by no more than the interval
    between attempts, an attempt and two delays; or it is that no lease is
    required.  And time is never stopped by these bounds. *)
Theorem invocation_stops_in_time (retry attempt delay : Duration) (w : Watch (Invocation * OS)) :
  (0 <= attempt)%Z -> (0 <= delay <= MinimumRefresh)%Z -> watch_reachable retry attempt delay w ->
  (inv_phase (wt_keeper w).1 = Maintaining false -> inv_kills (wt_keeper w).1 = [] ->
   match wt_last w with
   | None => (wt_now w <= wt_started w + attempt + 2 * delay)%Z
   | Some (last, last_at) =>
       state_LeaseNotRequired last = false ->
       let expiration := Lease_ExpirationTime (state_Lease last) in
       (state_Err last <> None -> (wt_now w <= expiration + Z.max MinimumRefresh retry + attempt + 2 * delay)%Z)
       /\ (state_Err last = None -> ls_Status (state_Lease last) = Active
            /\ (wt_now w <= Z.max expiration (last_at + MinimumRefresh) + attempt + 2 * delay)%Z)
   end)
  /\ exists w', rtc (watch_step retry attempt delay) w w' /\ (wt_now w + MinimumRefresh <= wt_now w')%Z.
Proof.
  intros Ha Hd Hr. split;
    [|exact (watch_advances retry attempt delay w Ha Hd (watch_reachable_inv retry attempt delay w Ha Hd Hr))].
  intros Hp Hk. exact (watch_in_time retry attempt delay w Ha Hd Hr (conj Hp Hk)).
Qed.
End Keeper.

(** ** Witness *)

(** A process that is managed before the first answer. *)
Lemma invocation_stops_in_time_witness :
  let c := (cad_invocation, true) in
  let w := wt_tick (3 * Second)%Z (wt_init (10 * Second)%Z 0%Z c) in
  inv_phase (WP := named_process) (wt_keeper w).1 = Maintaining false
  /\ (wt_now w <= wt_started w + 10 * Second + 2 * 0)%Z.
Proof.
  split; [reflexivity|].
  set (w := wt_tick (3 * Second)%Z (wt_init (10 * Second)%Z 0%Z (cad_invocation, true))).
  assert (Hr : watch_reachable (K := invocation_keeper (WS := one_system) "cad.exe" (mkInstance "host" "ann" "1") cad_process true)
    (5 * Second)%Z (10 * Second)%Z 0%Z w).
  { exists 0%Z, (cad_invocation, true). split; [done|]. apply rtc_once, ws_tick. unfold latest. cbn. split; done. }
  exact (proj1 (invocation_stops_in_time (WS := one_system) "cad.exe" (mkInstance "host" "ann" "1") cad_process true
    (5 * Second)%Z (10 * Second)%Z 0%Z w ltac:(done) ltac:(done) Hr) eq_refl eq_refl).
Defined.
