(* ===== verification/EnforcerUI.v ===== *)
(** * The enforcement user interface (package [enforcerui])

    The messages that the service sends to the process that it runs in each
    session (message.go, reader.go, writer.go), what the interface makes of
    them (ui.go, state.go), and the queues and the menu of the tray (tray.go).
    The widgets of the tray belong to a third-party toolkit, and the JSON text
    of messages is that of the class [MessageText]. *)

From stdpp Require Import pretty.
From S2P Require Import Prelude GoStrings GoTime Lease LeaseSet Policy.

(** ** message.go *)

Definition TypePolicyUpdate : string := "policy.update".
Definition TypeLeaseUpdate : string := "lease.update".
Definition TypeEnforcementUpdate : string := "enforcement.update".
Definition TypeProcessTermination : string := "process.termination".

Record Update (A : Type) := mkUpdate { upd_Old : A; upd_New : A }.
Arguments mkUpdate {A}.
Arguments upd_Old {A}.
Arguments upd_New {A}.

Definition PolicyUpdate : Type := Update PolicySet.
Definition LeaseUpdate : Type := Update LeaseSet.

Record EnforcementUpdate := mkEnforcementUpdate {
  enf_Running : list Properties;
  enf_Waiting : list Properties;
}.

Record Message := mkMessage {
  msg_Type : string;
  msg_Policies : PolicyUpdate;
  msg_Leases : LeaseUpdate;
  msg_Enforcement : EnforcementUpdate;
  msg_ProcTerm : string;
}.

Definition no_enforcement : EnforcementUpdate := mkEnforcementUpdate [] [].

Definition policy_message (pols : PolicySet) : Message :=
  mkMessage TypePolicyUpdate (mkUpdate [] pols) (mkUpdate [] []) no_enforcement "".
Definition lease_message (leases : LeaseSet) : Message :=
  mkMessage TypeLeaseUpdate (mkUpdate [] []) (mkUpdate [] leases) no_enforcement "".
Definition termination_message (name : string) : Message :=
  mkMessage TypeProcessTermination (mkUpdate [] []) (mkUpdate [] []) no_enforcement name.

(** ** reader.go and writer.go *)

(** The text of a message, and what a decoder makes of the rest of a stream:
    a message with what follows it. *)
Class MessageText := {
  message_Encode : Message -> result bytes;
  message_Decode : bytes -> result (Message * bytes);
}.

Class MessageTextSpec (MT : MessageText) := {
  messages_text : Message -> Prop;
  message_Decode_Encode msg b rest :
    messages_text msg -> message_Encode msg = Ok b -> message_Decode (b ++ rest) = Ok (msg, rest);
  message_Encode_nonempty msg b : message_Encode msg = Ok b -> b <> [];
}.

Section Streams.
Context `{MT : MessageText}.

(** [Writer.Write] to a stream. *)
Definition Writer_Write (msg : Message) (stream : bytes) : option error * bytes :=
  match message_Encode msg with
  | Ok b => (None, stream ++ b)
  | Err err => (Some err, stream)
  end.

Definition Reader_Read (stream : bytes) : result (Message * bytes) := message_Decode stream.

(** Messages written one after the other; the errors are ignored. *)
Definition write_all (msgs : list Message) (stream : bytes) : bytes :=
  foldl (fun stream msg => (Writer_Write msg stream).2) stream msgs.

(** The messages read until there is nothing left; [fuel] bounds their number. *)
Fixpoint read_all (fuel : nat) (stream : bytes) : list Message :=
  match fuel with
  | 0 => []
  | S fuel =>
      match stream with
      | [] => []
      | _ => match Reader_Read stream with
             | Ok (msg, rest) => msg :: read_all fuel rest
             | Err _ => []
             end
      end
  end.

Lemma read_write_all `{!MessageTextSpec MT} msgs fuel :
  Forall (fun msg => messages_text msg /\ is_Ok (message_Encode msg)) msgs ->
  length msgs <= fuel -> read_all fuel (write_all msgs []) = msgs.
Proof.
  assert (Hw : forall msgs pre, write_all msgs pre = pre ++ write_all msgs []).
  { clear. induction msgs as [|m msgs IH]; intros pre; cbn; [by rewrite app_nil_r|].
    unfold write_all in *. cbn. rewrite IH, (IH (Writer_Write m []).2).
    unfold Writer_Write. destruct (message_Encode m); cbn; [by rewrite (assoc_L (++))|done]. }
  intros Hall. revert fuel. induction Hall as [|m msgs [Ht [b Hb]] _ IH]; intros [|fuel] Hlen;
    cbn in Hlen; try lia; [done|done|].
  assert (Hs : write_all (m :: msgs) [] = b ++ write_all msgs []).
  { transitivity (write_all msgs (Writer_Write m []).2); [done|]. rewrite Hw. unfold Writer_Write.
    by rewrite Hb. }
  rewrite Hs. cbn [read_all]. unfold Reader_Read.
  rewrite (message_Decode_Encode m b (write_all msgs [])) by done.
  pose proof (message_Encode_nonempty _ _ Hb) as Hne. destruct b; [done|]. cbn [app].
  f_equal. apply IH. lia.
Qed.
End Streams.

(** ** state.go *)

Record UIState := mkUIState {
  uis_Policies : PolicySet;
  uis_Leases : LeaseSet;
  uis_Running : list Properties;
}.

Definition zero_uistate : UIState := mkUIState [] [] [].

Definition Summary (s : UIState) : string :=
  let summary := match length (uis_Policies s) with
                 | 1 => "Enforcing 1 policy"
                 | count => "Enforcing " +:+ pretty count +:+ " policies"
                 end in
  match length (uis_Running s) with
  | 0 => summary
  | 1 => summary +:+ "on 1 process"
  | count => summary +:+ "on " +:+ pretty count +:+ " processes"
  end.

(** ** tray.go *)

Record Notice := mkNotice { notice_Title : string; notice_Message : string }.

(** [tray_queues] are the channels of states and notices, [None] while the tray
    does not run. *)
Record Tray := mkTray {
  tray_name : string;
  tray_version : string;
  tray_queues : option (list UIState * list Notice);
  tray_stopping : bool;
}.

Definition tray_capacity : nat := 128.

Definition NewTray (name version : string) : Tray := mkTray name version None false.

(** [create] is the error of creating the objects of the tray, if any. *)
Definition Tray_Start (create : option error) (t : Tray) : option error * Tray :=
  match tray_queues t with
  | Some _ => (Some "the tray instance is already running", t)
  | None =>
      match create with
      | Some err => (Some err, t)
      | None => (None, mkTray (tray_name t) (tray_version t) (Some ([], [])) false)
      end
  end.

(** [Stop] up to its wait. *)
Definition Tray_Stop (t : Tray) : option error * Tray :=
  match tray_queues t with
  | None => (Some "the tray instance is not running", t)
  | Some q => (None, mkTray (tray_name t) (tray_version t) (Some q) true)
  end.

(** A send that is dropped when the channel is full. *)
Definition offer {A} (x : A) (q : list A) : list A :=
  if decide (length q < tray_capacity) then q ++ [x] else q.

Definition Tray_Update (state : UIState) (t : Tray) : Tray :=
  match tray_queues t with
  | Some (states, notices) =>
      mkTray (tray_name t) (tray_version t) (Some (offer state states, notices)) (tray_stopping t)
  | None => t
  end.

Definition Tray_Notify (notice : Notice) (t : Tray) : Tray :=
  match tray_queues t with
  | Some (states, notices) =>
      mkTray (tray_name t) (tray_version t) (Some (states, offer notice notices)) (tray_stopping t)
  | None => t
  end.

(** The window has closed: the channels are closed and set to nil. *)
Definition Tray_closed (t : Tray) : Tray := mkTray (tray_name t) (tray_version t) None false.

(** The texts of the menu, [None] for a separator. *)
Definition tray_policy_items (leases : LeaseSet) (pol : Policy) : list (option string) :=
  let name := Properties_get (pol_Properties pol) "resource.name" in
  let desc := if decide (name <> "") then name else pol_Resource pol in
  let desc := if decide (pol_Limit pol <> DefaultLimit) then desc +:+ ": " +:+ pretty (pol_Limit pol) else desc in
  Some desc :: ((fun lease => Some ("  " +:+ ls_HostUser lease)) <$> Set_Resource leases (pol_Resource pol)).

Definition tray_menu (t : Tray) (state : UIState) : list (option string) :=
  Some (tray_name t +:+ " " +:+ tray_version t)
  :: (if decide (0 < length (uis_Policies state)) then
        None :: (uis_Policies state ≫= tray_policy_items (uis_Leases state))
      else []).

(** ** ui.go *)

Record UI := mkUI {
  ui_uistate : UIState;
  ui_tray : option Tray;
}.

Definition UI_New (name version : string) (create : option error) : result UI :=
  match Tray_Start create (NewTray name version) with
  | (Some err, _) => Err err
  | (None, tray) => Ok (mkUI zero_uistate (Some tray))
  end.

Definition UI_Close (u : UI) : option error * UI :=
  match ui_tray u with
  | None => (None, u)
  | Some tray => ((Tray_Stop tray).1, mkUI (ui_uistate u) None)
  end.

Definition set_policies (pols : PolicySet) (s : UIState) : UIState :=
  mkUIState pols (uis_Leases s) (uis_Running s).
Definition set_uileases (leases : LeaseSet) (s : UIState) : UIState :=
  mkUIState (uis_Policies s) leases (uis_Running s).

Definition termination_notice (name : string) : Notice :=
  mkNotice "No licenses available"
    ("The " +:+ name +:+ " process has been terminated because no licenses are available.").

Definition Handle (msg : Message) (u : UI) : UI :=
  match ui_tray u with
  | None => u
  | Some tray =>
      if decide (msg_Type msg = TypePolicyUpdate) then
        let s := set_policies (upd_New (msg_Policies msg)) (ui_uistate u) in
        mkUI s (Some (Tray_Update s tray))
      else if decide (msg_Type msg = TypeLeaseUpdate) then
        let s := set_uileases (upd_New (msg_Leases msg)) (ui_uistate u) in
        mkUI s (Some (Tray_Update s tray))
      else if decide (msg_Type msg = TypeProcessTermination) then
        mkUI (ui_uistate u) (Some (Tray_Notify (termination_notice (msg_ProcTerm msg)) tray))
      else u
  end.

(** ** What the interface shows *)

(** The policies and leases of the last updates among the messages. *)
Definition last_policies (msgs : list Message) (pols : PolicySet) : PolicySet :=
  foldl (fun pols msg => if decide (msg_Type msg = TypePolicyUpdate) then upd_New (msg_Policies msg) else pols)
    pols msgs.
Definition last_leases (msgs : list Message) (leases : LeaseSet) : LeaseSet :=
  foldl (fun leases msg => if decide (msg_Type msg = TypeLeaseUpdate) then upd_New (msg_Leases msg) else leases)
    leases msgs.

Lemma Handle_one msg u :
  is_Some (ui_tray u) ->
  is_Some (ui_tray (Handle msg u))
  /\ uis_Policies (ui_uistate (Handle msg u)) = last_policies [msg] (uis_Policies (ui_uistate u))
  /\ uis_Leases (ui_uistate (Handle msg u)) = last_leases [msg] (uis_Leases (ui_uistate u)).
Proof.
  intros [tray Ht]. unfold Handle, last_policies, last_leases. rewrite Ht. cbn [foldl].
  destruct (decide (msg_Type msg = TypePolicyUpdate)) as [->|H1]; [by split_and!; [eexists|..]|].
  destruct (decide (msg_Type msg = TypeLeaseUpdate)) as [_|H2]; [by split_and!; [eexists|..]|].
  destruct (decide (msg_Type msg = TypeProcessTermination)); by split_and!; [eexists|..].
Qed.

Lemma Handle_all msgs u :
  is_Some (ui_tray u) ->
  let u' := foldl (fun u msg => Handle msg u) u msgs in
  uis_Policies (ui_uistate u') = last_policies msgs (uis_Policies (ui_uistate u))
  /\ uis_Leases (ui_uistate u') = last_leases msgs (uis_Leases (ui_uistate u)).
Proof.
  cbn zeta. revert u. induction msgs as [|m msgs IH]; intros u Hu; [done|]. cbn [foldl].
  destruct (Handle_one m u Hu) as (Hu' & H1 & H2). destruct (IH _ Hu') as [-> ->].
  rewrite H1, H2. done.
Qed.

(** The line that describes one policy and one process lacks a space. *)
Lemma summary_lacks_space p q :
  Summary (mkUIState [p] [] [q]) = "Enforcing 1 policyon 1 process".
Proof. reflexivity. Qed.
