(* ===== verification/TrayRun.v ===== *)
(** * The goroutines of the tray (enforcerui/tray.go)

    A tray that is started, as [New] of ui.go does, once: the thread of its
    window, the goroutine that manages it, and the callers of [Stop], [Update]
    and [Notify].  What the toolkit is asked to do on the thread of the window
    is posted to it.  The fields and queues of the tray, with the operations of
    its callers, are those of [EnforcerUI.v]. *)

From S2P Require Import Prelude Lease LeaseSet Policy EnforcerUI.

(** ** The state *)

(** The goroutine [run]: not started; its creation of the tray has failed; in
    the message loop; the loop has ended; sending the completion; returned.  A
    panic of the goroutine ends the program. *)
Inductive WindowPhase :=
| WindowIdle
| WindowFailed
| WindowRuns
| WindowEnded
| WindowCompletes
| WindowGone
| WindowPanics.

(** The goroutine [manage]: not started, in its loop, waiting for the
    completion after it has asked the window to close, returned. *)
Inductive ManagePhase := ManageIdle | ManageLoop | ManageCloses | ManageDone.

(** What is posted to the thread of the window. *)
Inductive Posted :=
| ShowState (s : UIState)
| ShowNotice (n : Notice)
| CloseWindow.

(** [ty_left] are the buffers of the closed channels, [ty_ctxdone] holds when
    the context of [manage] is cancelled.  Histories, which the source does not
    keep: what was queued, and what the window has executed. *)
Record TraySys := mkTraySys {
  ty_tray : Tray;
  ty_left : list UIState * list Notice;
  ty_window : WindowPhase;
  ty_manage : ManagePhase;
  ty_ctxdone : bool;
  ty_posted : list Posted;
  ty_shown : list Posted;
  ty_queued : list UIState;
  ty_taken : list UIState;
}.

Definition tray_init (name version : string) : TraySys :=
  mkTraySys (NewTray name version) ([], []) WindowIdle ManageIdle false [] [] [] [].

Definition set_ty_window (w : WindowPhase) (s : TraySys) : TraySys :=
  mkTraySys (ty_tray s) (ty_left s) w (ty_manage s) (ty_ctxdone s) (ty_posted s) (ty_shown s)
    (ty_queued s) (ty_taken s).
Definition ty_post (p : Posted) (s : TraySys) : TraySys :=
  mkTraySys (ty_tray s) (ty_left s) (ty_window s) (ty_manage s) (ty_ctxdone s) (ty_posted s ++ [p]) (ty_shown s)
    (ty_queued s) (ty_taken s).
Definition set_ty_manage (m : ManagePhase) (s : TraySys) : TraySys :=
  mkTraySys (ty_tray s) (ty_left s) (ty_window s) m (ty_ctxdone s) (ty_posted s) (ty_shown s)
    (ty_queued s) (ty_taken s).

(** ** The creation of the tray

    The answers of the toolkit, each an error or none: what is opened and
    disposed of, in order, and the error reported. *)
Inductive TrayAct := OpenWindow | OpenIcon | DisposeIcon | DisposeWindow.

Definition createNotifyIcon (create icon visible : option error) : option error * list TrayAct :=
  match create with
  | Some err => (Some ("creation failed: " +:+ err), [])
  | None =>
      match icon with
      | Some err => (Some ("unable to set icon: " +:+ err), [OpenIcon; DisposeIcon])
      | None =>
          match visible with
          | Some err => (Some ("unable to make the system tray visible: " +:+ err), [OpenIcon; DisposeIcon])
          | None => (None, [OpenIcon])
          end
      end
  end.

Definition createSystemTray (window create icon visible : option error) : option error * list TrayAct :=
  match window with
  | Some err => (Some ("failed to create window: " +:+ err), [])
  | None =>
      let '(err, acts) := createNotifyIcon create icon visible in
      match err with
      | Some err => (Some ("failed to create system tray: " +:+ err), OpenWindow :: acts ++ [DisposeWindow])
      | None => (None, OpenWindow :: acts)
      end
  end.

(** ** Operations *)

(** [Start]: the error is that of the first value on the channel [startup];
    the goroutine goes on after it has sent one. *)
Definition ty_Start (create : option error) (s : TraySys) : TraySys :=
  let '(err, t) := Tray_Start create (ty_tray s) in
  mkTraySys t (ty_left s)
    (match err with Some _ => WindowFailed | None => WindowRuns end)
    (match err with Some _ => ty_manage s | None => ManageLoop end)
    (ty_ctxdone s) (ty_posted s) (ty_shown s) (ty_queued s) (ty_taken s).

(** [Stop], up to its wait: an error leaves the context alone. *)
Definition ty_Stop (s : TraySys) : TraySys :=
  let '(err, t) := Tray_Stop (ty_tray s) in
  mkTraySys t (ty_left s) (ty_window s) (ty_manage s)
    (match err with Some _ => ty_ctxdone s | None => true end)
    (ty_posted s) (ty_shown s) (ty_queued s) (ty_taken s).

Definition states_queue (t : Tray) : list UIState :=
  match tray_queues t with Some (states, _) => states | None => [] end.

(** [Update], with what it has added to the queue. *)
Definition ty_Update (state : UIState) (s : TraySys) : TraySys :=
  let t := Tray_Update state (ty_tray s) in
  mkTraySys t (ty_left s) (ty_window s) (ty_manage s) (ty_ctxdone s) (ty_posted s) (ty_shown s)
    (ty_queued s ++ drop (length (states_queue (ty_tray s))) (states_queue t)) (ty_taken s).

Definition ty_Notify (notice : Notice) (s : TraySys) : TraySys :=
  mkTraySys (Tray_Notify notice (ty_tray s)) (ty_left s) (ty_window s) (ty_manage s) (ty_ctxdone s)
    (ty_posted s) (ty_shown s) (ty_queued s) (ty_taken s).

(** The message loop has ended: under the mutex, the fields are cleared and the
    channels closed; their buffers can still be received. *)
Definition ty_clear (s : TraySys) : TraySys :=
  mkTraySys (Tray_closed (ty_tray s)) (default ([], []) (tray_queues (ty_tray s))) WindowCompletes (ty_manage s)
    (ty_ctxdone s) (ty_posted s) (ty_shown s) (ty_queued s) (ty_taken s).

(** The window executes what was posted first. *)
Definition ty_execute (p : Posted) (rest : list Posted) (s : TraySys) : TraySys :=
  mkTraySys (ty_tray s) (ty_left s)
    (match p with CloseWindow => WindowEnded | _ => ty_window s end) (ty_manage s) (ty_ctxdone s)
    rest (ty_shown s ++ [p]) (ty_queued s) (ty_taken s).

(** A state received from the channel is posted; a closed channel whose buffer
    is empty yields the zero state. *)
Definition ty_receive (s : TraySys) : option TraySys :=
  let taken x := ty_taken s ++ [x] in
  match tray_queues (ty_tray s) with
  | Some (x :: states, notices) =>
      let t := mkTray (tray_name (ty_tray s)) (tray_version (ty_tray s)) (Some (states, notices))
                 (tray_stopping (ty_tray s)) in
      Some (mkTraySys t (ty_left s) (ty_window s) (ty_manage s) (ty_ctxdone s) (ty_posted s ++ [ShowState x])
              (ty_shown s) (ty_queued s) (taken x))
  | Some ([], _) => None
  | None =>
      match (ty_left s).1 with
      | x :: states =>
          Some (mkTraySys (ty_tray s) (states, (ty_left s).2) (ty_window s) (ty_manage s) (ty_ctxdone s)
                  (ty_posted s ++ [ShowState x]) (ty_shown s) (ty_queued s) (taken x))
      | [] => Some (ty_post (ShowState zero_uistate) s)
      end
  end.

Definition ty_receive_notice (s : TraySys) : option TraySys :=
  match tray_queues (ty_tray s) with
  | Some (states, n :: notices) =>
      let t := mkTray (tray_name (ty_tray s)) (tray_version (ty_tray s)) (Some (states, notices))
                 (tray_stopping (ty_tray s)) in
      Some (mkTraySys t (ty_left s) (ty_window s) (ty_manage s) (ty_ctxdone s) (ty_posted s ++ [ShowNotice n])
              (ty_shown s) (ty_queued s) (ty_taken s))
  | Some (_, []) => None
  | None =>
      match (ty_left s).2 with
      | n :: notices =>
          Some (mkTraySys (ty_tray s) ((ty_left s).1, notices) (ty_window s) (ty_manage s) (ty_ctxdone s)
                  (ty_posted s ++ [ShowNotice n]) (ty_shown s) (ty_queued s) (ty_taken s))
      | [] => Some (ty_post (ShowNotice (mkNotice "" "")) s)
      end
  end.

(** ** What can happen *)

Inductive tray_step : TraySys -> TraySys -> Prop :=
(* callers *)
| ty_step_Start create s : ty_window s = WindowIdle -> tray_step s (ty_Start create s)
| ty_step_Stop s : tray_step s (ty_Stop s)
| ty_step_Update state s : tray_step s (ty_Update state s)
| ty_step_Notify notice s : tray_step s (ty_Notify notice s)
(* run: a second value on the channel that was closed after the error *)
| ty_step_panic s : ty_window s = WindowFailed -> tray_step s (set_ty_window WindowPanics s)
| ty_step_execute p rest s :
    ty_window s = WindowRuns -> ty_posted s = p :: rest -> tray_step s (ty_execute p rest s)
| ty_step_quit s : ty_window s = WindowRuns -> tray_step s (set_ty_window WindowEnded s)
| ty_step_clear s : ty_window s = WindowEnded -> tray_step s (ty_clear s)
(* manage *)
| ty_step_state s s' : ty_manage s = ManageLoop -> ty_receive s = Some s' -> tray_step s s'
| ty_step_notice s s' : ty_manage s = ManageLoop -> ty_receive_notice s = Some s' -> tray_step s s'
| ty_step_done s :
    ty_manage s = ManageLoop -> ty_ctxdone s = true ->
    tray_step s (set_ty_manage ManageCloses (ty_post CloseWindow s))
(* the completion *)
| ty_step_completion s :
    ty_window s = WindowCompletes -> ty_manage s = ManageLoop \/ ty_manage s = ManageCloses ->
    tray_step s (set_ty_manage ManageDone (set_ty_window WindowGone s)).

Definition tray_reachable (s : TraySys) : Prop :=
  exists name version, rtc tray_step (tray_init name version) s.

(** ** The invariant *)

Definition states_of (l : list Posted) : list UIState :=
  omap (fun p => match p with ShowState s => Some s | _ => None end) l.

(** The goroutines go through their phases together. *)
Definition phases_agree (s : TraySys) : Prop :=
  match ty_window s, ty_manage s with
  | WindowIdle, ManageIdle | WindowFailed, ManageIdle | WindowPanics, ManageIdle => tray_queues (ty_tray s) = None
  | WindowRuns, (ManageLoop | ManageCloses) | WindowEnded, (ManageLoop | ManageCloses) =>
      is_Some (tray_queues (ty_tray s))
  | WindowCompletes, (ManageLoop | ManageCloses) | WindowGone, ManageDone => tray_queues (ty_tray s) = None
  | _, _ => False
  end.

(** The window will be asked to close, or has been. *)
Definition closing (s : TraySys) : Prop :=
  ty_manage s = ManageCloses -> ty_window s = WindowRuns -> CloseWindow ∈ ty_posted s.

Record tray_inv (s : TraySys) : Prop := {
  yi_phases : phases_agree s;
  yi_closing : closing s;
  yi_queued : ty_queued s = ty_taken s ++ match tray_queues (ty_tray s) with Some q => q.1 | None => (ty_left s).1 end;
  yi_shown : exists k, states_of (ty_shown s ++ ty_posted s) = ty_taken s ++ replicate k zero_uistate
               /\ (k <> 0 -> tray_queues (ty_tray s) = None /\ (ty_left s).1 = []);
  yi_open : is_Some (tray_queues (ty_tray s)) -> (ty_left s).1 = [];
  yi_idle : ty_window s = WindowIdle -> (ty_left s).1 = [] /\ ty_posted s = [] /\ ty_shown s = [];
}.

Lemma tray_init_inv name version : tray_inv (tray_init name version).
Proof. split; try done. exists 0. by split. Qed.

Lemma states_of_app l1 l2 : states_of (l1 ++ l2) = states_of l1 ++ states_of l2.
Proof. apply omap_app. Qed.

(** An update of the queues of an open tray. *)
Lemma Tray_Update_queues state t :
  match tray_queues t with
  | Some (states, notices) => tray_queues (Tray_Update state t) = Some (offer state states, notices)
  | None => Tray_Update state t = t
  end.
Proof. unfold Tray_Update. by destruct (tray_queues t) as [[states notices]|]. Qed.

Lemma Tray_Notify_queues notice t :
  match tray_queues t with
  | Some (states, notices) => tray_queues (Tray_Notify notice t) = Some (states, offer notice notices)
  | None => Tray_Notify notice t = t
  end.
Proof. unfold Tray_Notify. by destruct (tray_queues t) as [[states notices]|]. Qed.

Lemma offer_drop {A} (x : A) q : offer x q = q ++ drop (length q) (offer x q).
Proof. unfold offer. case_decide; [by rewrite drop_app_length|by rewrite drop_all, app_nil_r]. Qed.

Lemma ty_Update_inv state s : tray_inv s -> tray_inv (ty_Update state s).
Proof.
  intros [Hp Hc Hq (k & Hk & Hk0) Ho Hi]. pose proof (Tray_Update_queues state (ty_tray s)) as Hu.
  unfold ty_Update, states_queue. destruct (tray_queues (ty_tray s)) as [[states notices]|] eqn:Ht.
  - split; cbn; rewrite ?Hu.
    + unfold phases_agree in *. cbn. rewrite Hu, Ht in *. by destruct (ty_window s), (ty_manage s).
    + exact Hc.
    + rewrite Hq, <- (assoc_L (++)). by rewrite <- offer_drop.
    + exists k. split; [done|]. intros Hn. by destruct (Hk0 Hn).
    + intros _. by apply Ho.
    + exact Hi.
  - rewrite Hu, Ht. cbn. rewrite app_nil_r. split; cbn; rewrite ?Ht; try done; by exists k.
Qed.

Lemma ty_Notify_inv notice s : tray_inv s -> tray_inv (ty_Notify notice s).
Proof.
  intros [Hp Hc Hq (k & Hk & Hk0) Ho Hi]. pose proof (Tray_Notify_queues notice (ty_tray s)) as Hu.
  unfold ty_Notify. destruct (tray_queues (ty_tray s)) as [[states notices]|] eqn:Ht.
  - split; cbn; rewrite ?Hu.
    + unfold phases_agree in *. cbn. rewrite Hu, Ht in *. by destruct (ty_window s), (ty_manage s).
    + exact Hc.
    + exact Hq.
    + exists k. split; [done|]. intros Hn. by destruct (Hk0 Hn).
    + intros _. by apply Ho.
    + exact Hi.
  - rewrite Hu. split; cbn; rewrite ?Ht; try done; by exists k.
Qed.

Lemma ty_Stop_inv s : tray_inv s -> tray_inv (ty_Stop s).
Proof.
  intros [Hp Hc Hq (k & Hk & Hk0) Ho Hi]. unfold ty_Stop, Tray_Stop.
  destruct (tray_queues (ty_tray s)) as [[states notices]|] eqn:Ht;
    split; cbn; rewrite ?Ht; try done; try (by exists k); unfold phases_agree in *; cbn; by rewrite Ht in *.
Qed.

(** Something is posted besides a state that was taken. *)
Lemma ty_post_inv p s :
  tray_inv s -> ty_window s <> WindowIdle -> (forall x, p = ShowState x -> x = zero_uistate /\ tray_queues (ty_tray s) = None /\ (ty_left s).1 = []) ->
  tray_inv (ty_post p s).
Proof.
  intros [Hp Hc Hq (k & Hk & Hk0) Ho Hi] Hw0 Hx. split; try done.
  - intros Hm Hw. cbn. apply elem_of_app. left. by apply Hc.
  - cbn [ty_post ty_shown ty_posted ty_taken ty_tray ty_left]. rewrite (assoc_L (++)), states_of_app, Hk.
    destruct p as [x|n|]; [|exists k; by rewrite app_nil_r..].
    destruct (Hx x eq_refl) as (-> & Hn & Hl). exists (S k). split; [|done]. cbn.
    rewrite <- (assoc_L (++)). f_equal. by rewrite <- replicate_cons_app.
Qed.

(** A state that was taken is posted. *)
Lemma ty_take_inv s t x left :
  tray_inv s -> ty_manage s = ManageLoop -> tray_name t = tray_name (ty_tray s) ->
  (is_Some (tray_queues t) <-> is_Some (tray_queues (ty_tray s))) -> (is_Some (tray_queues t) -> left.1 = []) ->
  match tray_queues (ty_tray s) with Some q => q.1 | None => (ty_left s).1 end
    = x :: match tray_queues t with Some q => q.1 | None => left.1 end ->
  tray_inv (mkTraySys t left (ty_window s) (ty_manage s) (ty_ctxdone s) (ty_posted s ++ [ShowState x])
              (ty_shown s) (ty_queued s) (ty_taken s ++ [x])).
Proof.
  intros [Hp Hc Hq (k & Hk & Hk0) Ho Hi] Hm _ Ht Hl Hx. split; cbn.
  - unfold phases_agree in *. cbn. destruct (ty_window s), (ty_manage s); try done;
      destruct (tray_queues t), (tray_queues (ty_tray s)); try done; by apply Ht || (exfalso; eapply is_Some_None, Ht).
  - unfold closing. cbn. by rewrite Hm.
  - by rewrite Hq, Hx, <- (assoc_L (++)).
  - exists 0. split; [|done]. rewrite app_nil_r, (assoc_L (++)), states_of_app, Hk. destruct k; [by rewrite app_nil_r|].
    destruct Hk0 as [Hn Hl0]; [done|]. rewrite Hn, Hl0 in Hx. done.
  - done.
  - intros Hw. unfold phases_agree in Hp. by rewrite Hw, Hm in Hp.
Qed.

Lemma loop_not_idle s : tray_inv s -> ty_manage s = ManageLoop -> ty_window s <> WindowIdle.
Proof. intros Hinv Hm Hw. pose proof (yi_phases _ Hinv) as Hp. unfold phases_agree in Hp. by rewrite Hw, Hm in Hp. Qed.

(** A change of phases that leaves the queues alone. *)
Lemma ty_phase_inv s w m :
  tray_inv s -> w <> WindowIdle -> phases_agree (set_ty_manage m (set_ty_window w s)) ->
  closing (set_ty_manage m (set_ty_window w s)) -> tray_inv (set_ty_manage m (set_ty_window w s)).
Proof.
  intros [Hp Hc Hq Hk Ho Hi] Hw Hp' Hc'. by split.
Qed.

Lemma ty_Start_inv create s : ty_window s = WindowIdle -> tray_inv s -> tray_inv (ty_Start create s).
Proof.
  intros Hw [Hp Hc Hq (k & Hk & Hk0) Ho Hi]. unfold phases_agree in Hp. rewrite Hw in Hp.
  unfold ty_Start, Tray_Start. destruct (ty_manage s) eqn:Hm; try done. rewrite Hp in *.
  destruct (Hi Hw) as (Hl & Hpo & Hsh). rewrite Hl in *. rewrite Hpo, Hsh in *.
  destruct create; split; cbn; rewrite ?Hp, ?Hl, ?Hpo, ?Hsh; try done; try (by exists k).
  exists 0. by destruct (ty_taken s).
Qed.

Lemma ty_execute_inv p rest s :
  ty_window s = WindowRuns -> ty_posted s = p :: rest -> tray_inv s -> tray_inv (ty_execute p rest s).
Proof.
  intros Hw Hpo [Hp Hc Hq (k & Hk & Hk0) Ho Hi]. split; cbn; try done.
  - unfold phases_agree in *. cbn. rewrite Hw in Hp. rewrite ?Hw. by destruct p, (ty_manage s).
  - intros Hm Hw'. specialize (Hc Hm Hw). rewrite Hpo in Hc. cbn in *. apply elem_of_cons in Hc as [<-|Hc]; [done|exact Hc].
  - exists k. split; [|done]. by rewrite <- Hk, Hpo, <- (assoc_L (++)).
  - rewrite Hw. by destruct p.
Qed.

Lemma ty_clear_inv s : ty_window s = WindowEnded -> tray_inv s -> tray_inv (ty_clear s).
Proof.
  intros Hw [Hp Hc Hq (k & Hk & Hk0) Ho Hi]. unfold phases_agree in Hp. rewrite Hw in Hp.
  destruct (tray_queues (ty_tray s)) as [q|] eqn:Ht; [|by destruct (ty_manage s), Hp].
  split; cbn.
  - unfold phases_agree. cbn. by destruct (ty_manage s).
  - done.
  - by rewrite Ht.
  - exists k. split; [done|]. intros Hn. by destruct (Hk0 Hn).
  - by intros [].
  - done.
Qed.

Lemma ty_receive_inv s s' : ty_manage s = ManageLoop -> ty_receive s = Some s' -> tray_inv s -> tray_inv s'.
Proof.
  intros Hm Hr Hinv. unfold ty_receive in Hr.
  destruct (tray_queues (ty_tray s)) as [[[|x states] notices]|] eqn:Ht; [done|injection Hr as <-|].
  - apply ty_take_inv; try done; rewrite ?Ht; try done. intros _. apply (yi_open _ Hinv). by rewrite Ht.
  - destruct (ty_left s).1 as [|x states] eqn:Hl; injection Hr as <-.
    + apply ty_post_inv; [done|by apply loop_not_idle|]. by intros x [= <-].
    + apply ty_take_inv; try done; rewrite ?Ht; try done.
Qed.

Lemma ty_receive_notice_inv s s' :
  ty_manage s = ManageLoop -> ty_receive_notice s = Some s' -> tray_inv s -> tray_inv s'.
Proof.
  intros Hm Hr Hinv. unfold ty_receive_notice in Hr.
  destruct (tray_queues (ty_tray s)) as [[states [|n notices]]|] eqn:Ht; [done|injection Hr as <-|].
  - pose proof (ty_post_inv (ShowNotice n) s Hinv (loop_not_idle _ Hinv Hm) ltac:(done)) as [Hp Hc Hq (k & Hk & Hk0) Ho Hi].
    cbn in *. rewrite Ht in *. split; cbn; try done.
    + unfold phases_agree in *. cbn in *. rewrite Ht in Hp. by destruct (ty_window s), (ty_manage s).
    + exists k. split; [done|]. intros Hn. by destruct (Hk0 Hn).
    + intros _. by apply Ho.
  - destruct (ty_left s).2 as [|n notices] eqn:Hl; injection Hr as <-; [by apply ty_post_inv; [|apply loop_not_idle|]|].
    pose proof (ty_post_inv (ShowNotice n) s Hinv (loop_not_idle _ Hinv Hm) ltac:(done)) as [Hp Hc Hq (k & Hk & Hk0) Ho Hi].
    by split; [| | |exists k| |].
Qed.

Lemma tray_step_inv s s' : tray_step s s' -> tray_inv s -> tray_inv s'.
Proof.
  intros Hs Hinv. pose proof (yi_phases _ Hinv) as Hp. unfold phases_agree in Hp.
  destruct Hs as [create s Hw|s|state s|notice s|s Hw|p rest s Hw Hpo|s Hw|s Hw|s s' Hm Hr|s s' Hm Hr|s Hm Hd|s Hw Hm].
  - by apply ty_Start_inv.
  - by apply ty_Stop_inv.
  - by apply ty_Update_inv.
  - by apply ty_Notify_inv.
  - apply (ty_phase_inv s WindowPanics (ty_manage s)); [done|done| |done].
    unfold phases_agree. cbn. rewrite Hw in Hp. by destruct (ty_manage s).
  - by apply ty_execute_inv.
  - apply (ty_phase_inv s WindowEnded (ty_manage s)); [done|done| |done].
    unfold phases_agree. cbn. rewrite Hw in Hp. by destruct (ty_manage s).
  - by apply ty_clear_inv.
  - by eapply ty_receive_inv.
  - by eapply ty_receive_notice_inv.
  - apply (ty_phase_inv (ty_post CloseWindow s) (ty_window s) ManageCloses);
      [apply ty_post_inv; [done|by apply loop_not_idle|done]|by apply loop_not_idle| |].
    + unfold phases_agree. cbn. rewrite Hm in Hp. by destruct (ty_window s).
    + intros _ _. cbn. apply elem_of_app. right. by apply list_elem_of_singleton.
  - apply (ty_phase_inv s WindowGone ManageDone); [done|done| |done].
    unfold phases_agree. cbn. rewrite Hw in Hp. by destruct (ty_manage s).
Qed.

Lemma tray_reachable_inv s : tray_reachable s -> tray_inv s.
Proof.
  intros (name & version & Hr). pose proof (tray_init_inv name version) as Hi.
  induction Hr as [|s1 s2 s3 H12 _ IH]; [done|]. apply IH. by eapply tray_step_inv.
Qed.

(** ** Closing *)

Definition tray_ends (s : TraySys) : Prop :=
  exists s', rtc tray_step s s' /\ ty_manage s' = ManageDone /\ ty_window s' = WindowGone.

Lemma tray_ends_step s s' : tray_step s s' -> tray_ends s' -> tray_ends s.
Proof. intros Hs (s'' & Hr & Hm). exists s''. split; [by eapply rtc_l|done]. Qed.

Lemma completes_ends s :
  ty_window s = WindowCompletes -> ty_manage s = ManageLoop \/ ty_manage s = ManageCloses -> tray_ends s.
Proof. intros Hw Hm. eapply tray_ends_step; [by apply ty_step_completion|]. by eexists. Qed.

Lemma ended_ends s :
  ty_window s = WindowEnded -> ty_manage s = ManageLoop \/ ty_manage s = ManageCloses -> tray_ends s.
Proof. intros Hw Hm. eapply tray_ends_step; [by apply ty_step_clear|]. by apply completes_ends. Qed.

(** The window executes what is posted, up to the request to close. *)
Lemma posted_close_ends s :
  ty_window s = WindowRuns -> ty_manage s = ManageCloses -> CloseWindow ∈ ty_posted s -> tray_ends s.
Proof.
  remember (ty_posted s) as l eqn:Hl. revert s Hl. induction l as [|p l IH]; intros s Hl Hw Hm Hin.
  { by apply not_elem_of_nil in Hin. }
  eapply tray_ends_step; [by apply (ty_step_execute p l)|].
  destruct p as [x|n|]; [..|apply ended_ends; auto].
  all: apply IH; [done|done|done|]; apply elem_of_cons in Hin as [|Hin]; [done|exact Hin].
Qed.

(** Stopping: when the context is cancelled, the window is asked to close. *)
Lemma cancelled_ends s : tray_inv s -> ty_window s = WindowRuns -> ty_ctxdone s = true -> tray_ends s.
Proof.
  intros Hinv Hw Hd. pose proof (yi_phases _ Hinv) as Hp. unfold phases_agree in Hp. rewrite Hw in Hp.
  destruct (ty_manage s) eqn:Hm; try done.
  - eapply tray_ends_step; [by apply ty_step_done|]. apply posted_close_ends; [done|done|].
    cbn. apply elem_of_app. right. by apply list_elem_of_singleton.
  - apply posted_close_ends; [done|done|]. by apply (yi_closing _ Hinv).
Qed.

(** C32. The tray.  In every reachable state of a tray whose window could be
    created, no goroutine has panicked; the states shown, or posted to the
    window, are those that [Update] has queued, in order, except for zero states
    once the channels are closed and drained; a running tray can be stopped; and
    once its context is cancelled, the window is closed and [Stop] can return. *)
Theorem tray_life s :
  tray_reachable s -> ty_window s <> WindowFailed -> ty_window s <> WindowPanics ->
  (exists k rest, ty_queued s = ty_taken s ++ rest
     /\ states_of (ty_shown s ++ ty_posted s) = ty_taken s ++ replicate k zero_uistate
     /\ (k <> 0 -> tray_queues (ty_tray s) = None /\ rest = []))
  /\ (is_Some (tray_queues (ty_tray s)) -> ty_ctxdone (ty_Stop s) = true)
  /\ (ty_window s <> WindowIdle -> ty_ctxdone s = true -> tray_ends s).
Proof.
  intros Hr Hnf Hnp. pose proof (tray_reachable_inv _ Hr) as Hinv. split; [|split].
  - destruct (yi_shown _ Hinv) as (k & Hk & Hk0). eexists k, _. split; [apply (yi_queued _ Hinv)|]. split; [done|].
    intros Hn. destruct (Hk0 Hn) as [Ht Hl]. by rewrite Ht.
  - intros [q Hq]. unfold ty_Stop, Tray_Stop. by rewrite Hq.
  - intros Hni Hd. pose proof (yi_phases _ Hinv) as Hp. unfold phases_agree in Hp.
    destruct (ty_window s) eqn:Hw; try done.
    + by apply cancelled_ends.
    + apply ended_ends; [done|]. destruct (ty_manage s); try done; auto.
    + apply completes_ends; [done|]. destruct (ty_manage s); try done; auto.
    + destruct (ty_manage s) eqn:Hm; try done. by exists s.
Qed.

(** A creation that fails disposes of everything it has opened, in reverse. *)
Lemma createSystemTray_disposes window create icon visible :
  match createSystemTray window create icon visible with
  | (None, acts) => acts = [OpenWindow; OpenIcon]
  | (Some _, acts) => acts = [] \/ acts = [OpenWindow; DisposeWindow]
                      \/ acts = [OpenWindow; OpenIcon; DisposeIcon; DisposeWindow]
  end.
Proof. unfold createSystemTray, createNotifyIcon. destruct window, create, icon, visible; cbn; tauto. Qed.

(** When the window cannot be created, all that is left for the program is to
    panic, although [Start] returns the error. *)
Lemma tray_creation_panics name version err :
  let s := ty_Start (Some err) (tray_init name version) in
  (Tray_Start (Some err) (ty_tray (tray_init name version))).1 = Some err
  /\ ty_window s = WindowFailed
  /\ rtc tray_step (tray_init name version) (set_ty_window WindowPanics s).
Proof.
  cbn zeta. split; [done|]. split; [done|].
  eapply rtc_l; [by apply (ty_step_Start (Some err))|]. eapply rtc_l; [by apply ty_step_panic|]. apply rtc_refl.
Qed.

Lemma tray_life_witness :
  let s := ty_Stop (ty_Update zero_uistate (ty_Start None (tray_init "resourceful" "1.0"))) in
  ty_queued s = [zero_uistate] /\ tray_ends s.
Proof.
  split; [reflexivity|].
  refine (proj2 (proj2 (tray_life _ _ _ _)) _ _); [|discriminate|discriminate|discriminate|reflexivity].
  exists "resourceful", "1.0". eapply rtc_l; [by apply (ty_step_Start None)|].
  eapply rtc_l; [apply (ty_step_Update zero_uistate)|]. eapply rtc_l; [apply ty_step_Stop|]. apply rtc_refl.
Defined.
