(* ===== verification/Session.v ===== *)
(** * Sessions (enforcer/session_windows.go)

    A session runs the user interface as its user, in a process that it writes
    messages to.  The messages wait in a buffered channel; a send to a full one
    is refused.  Each connection starts a process and a goroutine that takes
    messages from the channel and writes them to the standard input of that
    process; the errors of writing are ignored.  [session_step] is a call, or a
    step of the goroutines that write to the processes and wait for them.  What
    the creation of the pipes, the start of a process and a write to its pipe
    answer is up to the environment. *)

From stdpp Require Import relations.
From S2P Require Import Prelude GoStrings GoTime Lease LeaseSet Policy WinUser EnforcerUI.

Create HintDb session.

(** What is open on behalf of a session. *)
Inductive Handle_ := HToken | HStdin | HStdout.

#[export] Instance Handle_eq_dec : EqDecision Handle_.
Proof. solve_decision. Defined.

Record SessionData := mkSessionData {
  sd_ID : N;
  sd_UserName : string;
  sd_UserDomain : string;
}.

(** A connection: whether the context of its process is cancelled, whether its
    goroutine still writes, whether a write has failed -- an encoder of
    [encoding/json] keeps the error of its writer and refuses to write again --
    and what the pipe has taken. *)
Record Conn := mkConn {
  cn_killed : bool;
  cn_sending : bool;
  cn_broken : bool;
  cn_stdin : bytes;
}.

(** [s_connected] holds while [stopped] and [kill] are not nil; they belong to the
    last of [s_conns].  [s_handles], [s_accepted] and [s_taken] record what is
    open, the messages that were accepted and those that were taken from the
    channel: by which connection, and whether they were written. *)
Record Session := mkSession {
  s_data : SessionData;
  s_bufSize : nat;
  s_connected : bool;
  s_conns : list Conn;
  s_outbound : list Message;
  s_handles : list Handle_;
  s_accepted : list Message;
  s_taken : list (nat * Message * bool);
}.

Definition NewSession (data : SessionData) (bufSize : nat) : Session :=
  mkSession data bufSize false [] [] [] [] [].

Definition set_handles (h : list Handle_) (s : Session) : Session :=
  mkSession (s_data s) (s_bufSize s) (s_connected s) (s_conns s) (s_outbound s) h (s_accepted s) (s_taken s).
Definition open_handle (h : Handle_) (s : Session) : Session := set_handles (h :: s_handles s) s.
Definition close_handle (h : Handle_) (s : Session) : Session :=
  set_handles (filter (fun h' => h' <> h) (s_handles s)) s.

(** ** Sending *)

Definition Send (msg : Message) (s : Session) : bool * Session :=
  if decide (length (s_outbound s) < s_bufSize s) then
    (true, mkSession (s_data s) (s_bufSize s) (s_connected s) (s_conns s)
             (s_outbound s ++ [msg]) (s_handles s) (s_accepted s ++ [msg]) (s_taken s))
  else (false, s).

Definition SendPolicies (pols : PolicySet) : Session -> bool * Session := Send (policy_message pols).
Definition SendLeases (leases : LeaseSet) : Session -> bool * Session := Send (lease_message leases).
Definition SendProcessTermination (name : string) : Session -> bool * Session :=
  Send (termination_message name).

(** ** Connecting *)

Section Connect.
Context {OS : Type} `{WL : WinLaunch OS}.

(** The process runs, and its goroutines. *)
Definition connected_session (s : Session) : Session :=
  mkSession (s_data s) (s_bufSize s) true (s_conns s ++ [mkConn false true false []]) (s_outbound s)
    (s_handles s) (s_accepted s) (s_taken s).

(** [stdin], [stdout] and [start] are the errors of creating the pipes and of
    starting the process, if any. *)
Definition Connect (stdin stdout start : option error) (os : OS) (s : Session) : option error * Session :=
  if s_connected s then (Some "a connection has already been established", s)
  else
    match QueryUserToken (sd_ID (s_data s)) os with
    | Err err => (Some err, s)
    | Ok token =>
        let s := open_handle HToken s in
        match validateTokenForUser token (sd_UserName (s_data s)) (sd_UserDomain (s_data s)) os with
        | Some err => (Some err, close_handle HToken s)
        | None =>
            match stdin with
            | Some err => (Some err, close_handle HToken s)
            | None =>
                let s := open_handle HStdin s in
                match stdout with
                | Some err => (Some err, close_handle HStdin (close_handle HToken s))
                | None =>
                    let s := open_handle HStdout s in
                    match start with
                    | Some err =>
                        (Some err, close_handle HStdout (close_handle HStdin (close_handle HToken s)))
                    | None => (None, connected_session s)
                    end
                end
            end
        end
    end.
End Connect.

Definition Connected (s : Session) : bool := s_connected s.

(** The context of the last process is cancelled. *)
Definition kill_last (conns : list Conn) : list Conn :=
  alter (fun c => mkConn true (cn_sending c) (cn_broken c) (cn_stdin c)) (length conns - 1) conns.

(** [Disconnect] up to its wait for the process to end. *)
Definition Disconnect (s : Session) : option error * Session :=
  if negb (s_connected s) then (Some "a connection to the session has not been established", s)
  else (None, mkSession (s_data s) (s_bufSize s) true (kill_last (s_conns s)) (s_outbound s) (s_handles s)
                (s_accepted s) (s_taken s)).

(** The process has ended: [Wait] closes the pipes, the goroutine the token. *)
Definition session_exited (s : Session) : Session :=
  close_handle HStdout (close_handle HStdin (close_handle HToken
    (mkSession (s_data s) (s_bufSize s) false (kill_last (s_conns s)) (s_outbound s) (s_handles s)
       (s_accepted s) (s_taken s)))).

(** *** The goroutines that write *)

Section Write.
Context `{MT : MessageText}.

(** The pipe of a connection is open until its process has been waited for. *)
Definition pipe_open (i : nat) (s : Session) : bool :=
  s_connected s && bool_decide (S i = length (s_conns s)).

(** One [writer.Write]: a message that cannot be encoded is lost; so is one that
    the pipe does not take, of which a part may have been written.  [fails] is
    how much of it, if the write fails; the result says whether it was written. *)
Definition conn_write (is_open : bool) (fails : option nat) (msg : Message) (c : Conn) : bool * Conn :=
  if cn_broken c then (false, c)
  else
    match Writer_Write msg (cn_stdin c) with
    | (Some _, _) => (false, c)
    | (None, stdin) =>
        match (if is_open then fails else Some 0) with
        | None => (true, mkConn (cn_killed c) (cn_sending c) false stdin)
        | Some k => (false, mkConn (cn_killed c) (cn_sending c) true (take (length (cn_stdin c) + k) stdin))
        end
    end.

(** The goroutine of a connection takes a message from the channel and writes
    it; the error is ignored. *)
Definition session_write (i : nat) (fails : option nat) (s : Session) : Session :=
  match s_outbound s, s_conns s !! i with
  | msg :: rest, Some c =>
      let '(ok, c) := conn_write (pipe_open i s) fails msg c in
      mkSession (s_data s) (s_bufSize s) (s_connected s) (<[i := c]> (s_conns s)) rest (s_handles s)
        (s_accepted s) (s_taken s ++ [(i, msg, ok)])
  | _, _ => s
  end.
End Write.

(** The goroutine of a connection finds the context cancelled. *)
Definition sender_ended (i : nat) (s : Session) : Session :=
  mkSession (s_data s) (s_bufSize s) (s_connected s)
    (alter (fun c => mkConn (cn_killed c) false (cn_broken c) (cn_stdin c)) i (s_conns s)) (s_outbound s)
    (s_handles s) (s_accepted s) (s_taken s).

(** It looks at the context and the channel in no particular order. *)
Definition sending (i : nat) (s : Session) : Prop :=
  exists c, s_conns s !! i = Some c /\ cn_sending c = true.
Definition may_end (i : nat) (s : Session) : Prop :=
  exists c, s_conns s !! i = Some c /\ cn_sending c = true /\ cn_killed c = true.

Section Steps.
Context {OS : Type} `{WL : WinLaunch OS, MT : MessageText}.

Inductive session_step : Session -> Session -> Prop :=
| st_Send msg s : session_step s (Send msg s).2
| st_Connect stdin stdout start os s : session_step s (Connect stdin stdout start os s).2
| st_Disconnect s : session_step s (Disconnect s).2
| st_exited s : s_connected s = true -> session_step s (session_exited s)
| st_write i fails s : sending i s -> session_step s (session_write i fails s)
| st_sender_ended i s : may_end i s -> session_step s (sender_ended i s).
End Steps.

(** ** What has become of the messages *)

Definition taken_messages (s : Session) : list Message := (fun e => e.1.2) <$> s_taken s.

(** The messages that a connection has taken from the channel: those that were
    written, or those that were lost. *)
Definition taken_by (i : nat) (written : bool) (taken : list (nat * Message * bool)) : list Message :=
  (fun e => e.1.2) <$> filter (fun e => e.1.1 = i /\ e.2 = written) taken.
Definition written_to (i : nat) (s : Session) : list Message := taken_by i true (s_taken s).

Lemma taken_by_snoc i w taken j msg ok :
  taken_by i w (taken ++ [(j, msg, ok)])
  = taken_by i w taken ++ (if decide (j = i /\ ok = w) then [msg] else []).
Proof. unfold taken_by. rewrite filter_app, filter_cons, filter_nil, fmap_app. cbn. by case_decide. Qed.

(** ** The invariant *)

Section Invariant.
Context {OS : Type} `{WL : WinLaunch OS, MT : MessageText}.

(** What a pipe has taken are the messages written to it, and a part of another
    one only if a write has failed; no message is lost before that unless it
    cannot be encoded. *)
Definition stream_of (written lost : list Message) (c : Conn) : Prop :=
  Forall (fun msg => is_Ok (message_Encode msg)) written
  /\ (exists part, cn_stdin c = write_all written [] ++ part /\ (cn_broken c = false -> part = []))
  /\ (cn_broken c = false -> Forall (fun msg => ~ is_Ok (message_Encode msg)) lost).

Definition streams_ok (conns : list Conn) (taken : list (nat * Message * bool)) : Prop :=
  Forall (fun e => e.1.1 < length conns) taken
  /\ forall i c, conns !! i = Some c -> stream_of (taken_by i true taken) (taken_by i false taken) c.

Record session_ok (s : Session) : Prop := {
  so_bound : length (s_outbound s) <= s_bufSize s;
  so_order : s_accepted s = taken_messages s ++ s_outbound s;
  so_handles : s_handles s = if s_connected s then [HStdout; HStdin; HToken] else [];
  so_streams : streams_ok (s_conns s) (s_taken s);
}.

(** The streams only depend on what was written and whether a write failed. *)
Lemma streams_alter f i conns taken :
  (forall c, cn_broken (f c) = cn_broken c /\ cn_stdin (f c) = cn_stdin c) ->
  streams_ok conns taken -> streams_ok (alter f i conns) taken.
Proof.
  intros Hf [Hl Hs]. split; [by rewrite length_alter|]. intros j c Hj.
  destruct (decide (i = j)) as [->|Hne]; [|by rewrite list_lookup_alter_ne in Hj; auto].
  rewrite list_lookup_alter_eq in Hj. apply fmap_Some in Hj as (c0 & Hc & ->).
  destruct (Hf c0) as [Hb Hi]. specialize (Hs j c0 Hc). unfold stream_of in *. by rewrite Hb, Hi.
Qed.

Lemma streams_kill_last conns taken : streams_ok conns taken -> streams_ok (kill_last conns) taken.
Proof. by apply streams_alter. Qed.

Lemma streams_connect conns taken :
  streams_ok conns taken -> streams_ok (conns ++ [mkConn false true false []]) taken.
Proof.
  intros [Hl Hs]. split.
  - eapply Forall_impl; [exact Hl|]. intros e He. cbn in *. rewrite length_app. cbn. lia.
  - intros i c Hi. apply lookup_app_Some in Hi as [Hi|[Hi Hc]]; [by apply Hs|].
    apply list_lookup_singleton_Some in Hc as [Hi0 <-]. assert (Hn : forall w, taken_by i w taken = []).
    { intros w. unfold taken_by. clear Hs. induction Hl as [|e taken He _ IH]; [done|].
      rewrite filter_cons, decide_False by lia. exact IH. }
    unfold stream_of. rewrite !Hn. split; [constructor|]. split; [by exists []|constructor].
Qed.

Lemma write_all_snoc msgs msg : write_all (msgs ++ [msg]) [] = (Writer_Write msg (write_all msgs [])).2.
Proof. unfold write_all. by rewrite foldl_snoc. Qed.

Lemma conn_write_stream is_open fails msg c written lost ok c' :
  conn_write is_open fails msg c = (ok, c') -> stream_of written lost c ->
  stream_of (written ++ if (ok : bool) then [msg] else []) (lost ++ if (ok : bool) then [] else [msg]) c'.
Proof.
  unfold conn_write, stream_of. intros Hw (Hok & (part & Hstdin & Hpart) & Hlost).
  destruct (cn_broken c) eqn:Hb.
  - injection Hw as <- <-. rewrite app_nil_r, Hb. split; [done|]. split; [by exists part|done].
  - rewrite (Hpart eq_refl), app_nil_r in Hstdin. unfold Writer_Write in Hw.
    destruct (message_Encode msg) as [b|e] eqn:He.
    + destruct (if is_open then fails else Some 0) as [k|]; injection Hw as <- <-; cbn.
      * rewrite app_nil_r, Hstdin. split; [done|]. split; [|done]. exists (take k b). split; [|done].
        by rewrite take_app_add.
      * rewrite app_nil_r. split_and!; [|exists []|].
        -- apply Forall_app. split; [done|]. apply Forall_singleton. rewrite He. by eexists.
        -- rewrite app_nil_r, write_all_snoc. unfold Writer_Write. by rewrite He, Hstdin.
        -- intros _. by apply Hlost.
    + injection Hw as <- <-. rewrite app_nil_r, Hb. split; [done|]. split; [exists []; by rewrite app_nil_r|].
      intros _. apply Forall_app. split; [by apply Hlost|]. apply Forall_singleton. rewrite He. by intros [? [=]].
Qed.

Lemma NewSession_ok data n : session_ok (NewSession data n).
Proof. split; [cbn; lia|done|done|]. split; [constructor|]. by intros i c Hi. Qed.

Lemma Send_ok msg s : session_ok s -> session_ok (Send msg s).2.
Proof.
  intros [Hb Ho Hh Hs]. unfold Send. case_decide as Hlen; [|done].
  split; cbn; [rewrite length_app; cbn; lia| |done|done]. unfold taken_messages in *. cbn.
  by rewrite Ho, (assoc_L (++)).
Qed.

Lemma Disconnect_ok s : session_ok s -> session_ok (Disconnect s).2.
Proof.
  intros Hs. unfold Disconnect. destruct (s_connected s) eqn:Hc; [|done]. destruct Hs as [Hb Ho Hh Hst].
  rewrite Hc in Hh. split; [done|done|done|]. by apply streams_kill_last.
Qed.

Lemma session_exited_ok s : s_connected s = true -> session_ok s -> session_ok (session_exited s).
Proof.
  intros Hc [Hb Ho Hh Hs]. rewrite Hc in Hh. split; [done|done|cbn; by rewrite Hh|]. by apply streams_kill_last.
Qed.

Lemma session_write_ok i fails s : session_ok s -> session_ok (session_write i fails s).
Proof.
  intros Hs. unfold session_write. destruct (s_outbound s) as [|m r] eqn:Hout; [done|].
  destruct (s_conns s !! i) as [c|] eqn:Hi; [|done].
  destruct (conn_write (pipe_open i s) fails m c) as [ok c'] eqn:Hw. destruct Hs as [Hb Ho Hh [Hl Hst]].
  assert (Hlt : i < length (s_conns s)) by (by eapply lookup_lt_Some).
  rewrite Hout in Hb, Ho. split; cbn in *; [lia| |done|].
  - unfold taken_messages in *. cbn. by rewrite fmap_app, Ho, <- (assoc_L (++)).
  - split; [rewrite length_insert; apply Forall_app; split; [done|by apply Forall_singleton]|].
    intros j d Hj. rewrite !taken_by_snoc. destruct (decide (i = j)) as [<-|Hne].
    + rewrite list_lookup_insert_eq in Hj by done. injection Hj as <-.
      pose proof (conn_write_stream _ _ _ _ _ _ _ _ Hw (Hst i c Hi)) as H.
      destruct ok; [rewrite decide_True, (decide_False (P := i = i /\ true = false)) by (done || by intros [])
                   |rewrite decide_False, (decide_True (P := i = i /\ false = false)) by (done || by intros [])]; exact H.
    + rewrite list_lookup_insert_ne in Hj by done. rewrite !decide_False by (by intros []).
      rewrite !app_nil_r. by apply Hst.
Qed.

Lemma sender_ended_ok i s : session_ok s -> session_ok (sender_ended i s).
Proof. intros [Hb Ho Hh Hs]. split; [done..|]. by apply streams_alter. Qed.

Lemma closed_all s :
  s_handles s = [] ->
  close_handle HToken (open_handle HToken s) = s
  /\ close_handle HStdin (close_handle HToken (open_handle HStdin (open_handle HToken s))) = s
  /\ close_handle HStdout (close_handle HStdin (close_handle HToken
       (open_handle HStdout (open_handle HStdin (open_handle HToken s))))) = s.
Proof. destruct s as [d n c cs o h a w]. cbn. intros ->. by split_and!. Qed.

(** Whatever fails, nothing is left open. *)
Lemma Connect_ok stdin stdout start os s :
  session_ok s ->
  session_ok (Connect stdin stdout start os s).2
  /\ ((Connect stdin stdout start os s).1 = None ->
        s_connected s = false /\ s_connected (Connect stdin stdout start os s).2 = true
        /\ exists token, QueryUserToken (sd_ID (s_data s)) os = Ok token
             /\ token_of token (sd_UserName (s_data s)) (sd_UserDomain (s_data s)) os)
  /\ ((Connect stdin stdout start os s).1 <> None -> (Connect stdin stdout start os s).2 = s).
Proof.
  intros Hok. pose proof Hok as [Hb Ho Hh Hst]. unfold Connect.
  destruct (s_connected s) eqn:Hc; [by split; [|split]|].
  destruct (QueryUserToken (sd_ID (s_data s)) os) as [token|e] eqn:Hq; [|by split; [|split]].
  destruct (closed_all s Hh) as (H1 & H2 & H3). cbn zeta.
  destruct (validateTokenForUser token _ _ os) eqn:Hv;
    [|destruct stdin; [|destruct stdout; [|destruct start]]];
    rewrite ?H1, ?H2, ?H3; try by split; [|split].
  cbn [fst snd]. split; [split; cbn; rewrite ?Hh; [done..|by apply streams_connect]|]. split; [|done].
  intros _. split; [done|]. split; [done|]. exists token. split; [done|]. by apply validateTokenForUser_None.
Qed.

Lemma Connect_data stdin stdout start os s : s_data (Connect stdin stdout start os s).2 = s_data s.
Proof.
  unfold Connect. destruct (s_connected s); [done|]. destruct (QueryUserToken _ _); [|done]. cbn zeta.
  destruct (validateTokenForUser _ _ _ _); [done|]. destruct stdin; [done|]. destruct stdout; [done|].
  by destruct start.
Qed.

Lemma session_step_ok s s' : session_step s s' -> session_ok s -> session_ok s'.
Proof.
  intros [msg s1|stdin stdout start os s1|s1|s1 Hc|i fails s1 Hi|i s1 Hi] Hs.
  - by apply Send_ok.
  - by apply Connect_ok.
  - by apply Disconnect_ok.
  - by apply session_exited_ok.
  - by apply session_write_ok.
  - by apply sender_ended_ok.
Qed.

Lemma session_reachable_ok data n s : rtc session_step (NewSession data n) s -> session_ok s.
Proof.
  apply (rtc_ind_r session_ok); [apply NewSession_ok|]. intros s1 s2 _ H1 H2. by eapply session_step_ok.
Qed.
End Invariant.

#[export] Hint Resolve NewSession_ok Send_ok Disconnect_ok session_exited_ok session_write_ok sender_ended_ok : session.

(** A reader gets the messages that were written, whatever follows them. *)
Lemma read_written `{MT : MessageText, !MessageTextSpec MT} k written part :
  Forall messages_text written -> Forall (fun msg => is_Ok (message_Encode msg)) written ->
  k <= length written -> read_all k (write_all written [] ++ part) = take k written.
Proof.
  assert (Hw : forall msgs pre, write_all msgs pre = pre ++ write_all msgs []).
  { clear. induction msgs as [|m msgs IH]; intros pre; cbn; [by rewrite app_nil_r|].
    unfold write_all in *. cbn. rewrite IH, (IH (Writer_Write m []).2).
    unfold Writer_Write. destruct (message_Encode m); cbn; [by rewrite (assoc_L (++))|done]. }
  intros Ht. revert k. induction Ht as [|m msgs Hm _ IH]; intros k Hok Hk; [by destruct k; cbn in *; [|lia]|].
  apply Forall_cons in Hok as [[b Hb] Hok]. destruct k as [|k]; [done|]. cbn in Hk.
  assert (Hs : write_all (m :: msgs) [] = b ++ write_all msgs []).
  { transitivity (write_all msgs (Writer_Write m []).2); [done|]. rewrite Hw. unfold Writer_Write.
    by rewrite Hb. }
  rewrite Hs, <- (assoc_L (++)). cbn [read_all take]. unfold Reader_Read.
  rewrite (message_Decode_Encode m b) by done.
  pose proof (message_Encode_nonempty _ _ Hb) as Hne. destruct b; [done|]. cbn [app].
  f_equal. apply IH; [done|lia].
Qed.

(** Of all the messages, one connection has taken those that it has written and
    those that it has lost. *)
Lemma taken_by_one taken :
  Forall (fun e => e.1.1 = 0 /\ e.2 = true) taken ->
  taken_by 0 true taken = (fun e : nat * Message * bool => e.1.2) <$> taken.
Proof.
  induction 1 as [|e taken He _ IH]; [done|]. unfold taken_by in *. rewrite filter_cons, decide_True by done.
  by rewrite !fmap_cons, IH.
Qed.

(** ** The property *)

(** C25. Delivery.  However calls and goroutines interleave, whatever writes fail
    and however often a session is connected again:
    - the channel of a session never holds more messages than it has room for,
      and the accepted messages are, in their order, those that were taken from
      the channel, each by one connection, and those that still wait;
    - what the pipe of a connection has taken begins with the messages written to
      it, so that an interface that has read some of these messages has read
      the first of them and shows the policies and leases of the last update
      among them;
    - a message taken is lost only if it cannot be encoded or if a write to that
      connection has failed: while no write has failed, the messages that can be
      encoded are all written, and if there was one connection only and nothing
      waits, these are all that were accepted;
    - what a session opens is open only while it is connected, whatever step of
      connecting fails. *)
Theorem session_delivers {OS : Type} `{WL : WinLaunch OS, MT : MessageText, !MessageTextSpec MT} data n s :
  rtc session_step (NewSession data n) s ->
  length (s_outbound s) <= s_bufSize s
  /\ s_accepted s = taken_messages s ++ s_outbound s
  /\ (forall i c k u, s_conns s !! i = Some c -> Forall messages_text (written_to i s) ->
        k <= length (written_to i s) -> is_Some (ui_tray u) ->
        let read := read_all k (cn_stdin c) in
        let shown := ui_uistate (foldl (fun u msg => Handle msg u) u read) in
        read = take k (written_to i s)
        /\ uis_Policies shown = last_policies (take k (written_to i s)) (uis_Policies (ui_uistate u))
        /\ uis_Leases shown = last_leases (take k (written_to i s)) (uis_Leases (ui_uistate u)))
  /\ (forall i msg, (i, msg, false) ∈ s_taken s ->
        exists c, s_conns s !! i = Some c /\ (cn_broken c = true \/ ~ is_Ok (message_Encode msg)))
  /\ (forall c, s_conns s = [c] -> cn_broken c = false -> s_outbound s = [] ->
        Forall (fun msg => is_Ok (message_Encode msg)) (s_accepted s) -> written_to 0 s = s_accepted s)
  /\ s_handles s = (if s_connected s then [HStdout; HStdin; HToken] else []).
Proof.
  intros Hr. pose proof (session_reachable_ok data n s Hr) as [Hb Ho Hh [Hl Hs]].
  assert (Hlost : forall i msg, (i, msg, false) ∈ s_taken s ->
    exists c, s_conns s !! i = Some c /\ (cn_broken c = true \/ ~ is_Ok (message_Encode msg))).
  { intros i msg Hin. rewrite Forall_forall in Hl. pose proof (Hl _ Hin) as Hlt. cbn in Hlt.
    apply lookup_lt_is_Some in Hlt as [c Hc]. exists c. split; [done|]. destruct (cn_broken c) eqn:Hbr; [by left|right].
    destruct (Hs i c Hc) as (_ & _ & H). specialize (H Hbr). rewrite Forall_forall in H. apply H.
    unfold taken_by. apply list_elem_of_fmap. exists (i, msg, false). split; [done|]. by apply list_elem_of_filter. }
  split; [done|]. split; [done|]. split_and!; [|exact Hlost| |exact Hh].
  - intros i c k u Hc Ht Hk Hu read shown. destruct (Hs i c Hc) as (Hok & (part & Hstdin & _) & _).
    assert (Hread : read = take k (written_to i s)) by (unfold read; rewrite Hstdin; by apply read_written).
    unfold shown. rewrite Hread. split; [done|]. by apply Handle_all.
  - intros c Hc Hbr Hout Hall. rewrite Ho, Hout, app_nil_r in Hall |- *.
    apply taken_by_one. rewrite Forall_forall in Hl. rewrite Forall_forall in Hall. rewrite Forall_forall. intros [[i msg] ok] Hin.
    pose proof (Hl _ Hin) as Hi. rewrite Hc in Hi. cbn in Hi |- *. split; [lia|]. destruct ok; [done|].
    destruct (Hlost i msg Hin) as (c' & Hc' & [Hbr'|Henc]).
    + rewrite Hc in Hc'. apply list_lookup_singleton_Some in Hc' as [_ <-]. congruence.
    + destruct Henc. apply Hall. unfold taken_messages. by apply (list_elem_of_fmap_2 (fun e => e.1.2)) in Hin.
Qed.

(** ** Witness *)

Definition a_policy : Policy :=
  mkPolicy "cad" [] Strategy_Instance 1 Minute 0%Z (mkRefresh 0%Z 0%Z) ∅.

(** A codec for one message. *)
#[export] Instance one_message : MessageText := {|
  message_Encode msg := if decide (msg_Type msg = TypePolicyUpdate) then Ok [comma] else Err "unsupported";
  message_Decode b := match b with [] => Err "EOF" | _ :: rest => Ok (policy_message [a_policy], rest) end;
|}.
#[local] Instance one_message_spec : MessageTextSpec one_message.
Proof.
  refine {| messages_text := fun msg => msg = policy_message [a_policy] |}.
  - intros msg b rest ->. cbn. by intros [= <-].
  - intros msg b. cbn. case_decide; [by intros [= <-]|done].
Defined.

(** A system that lets every session start a process. *)
#[export] Instance willing : WinLaunch () := {|
  Token := unit;
  QueryUserToken := fun _ _ => Ok tt;
  GetTokenUser := fun _ _ => Ok "S-1";
  LookupAccount := fun _ _ => Ok ("ann", "corp", true);
  StartProgram := fun _ _ _ _ => (Ok 7%N, tt);
|}.

Definition ann_session : Session := NewSession (mkSessionData 1 "ann" "corp") 64.
Definition ann_connected : Session := (Connect None None None tt ann_session).2.
Definition ann_told : Session := session_write 0 None (SendPolicies [a_policy] ann_connected).2.
Definition ann_ui : UI := mkUI zero_uistate (Some (NewTray "tray" "1")).

(** A message that was accepted is lost when the process has ended before it is
    written: the goroutine that writes may take it before it finds the context
    cancelled, and [Send] has answered that it was sent. *)
Lemma accepted_message_lost :
  exists s, rtc session_step ann_session s
    /\ s_accepted s = [policy_message [a_policy]] /\ s_outbound s = [] /\ written_to 0 s = [].
Proof.
  exists (session_write 0 None (SendPolicies [a_policy] (session_exited ann_connected)).2).
  split; [|split_and!; reflexivity].
  eapply rtc_l; [apply (st_Connect None None None tt)|].
  eapply rtc_l; [apply st_exited; reflexivity|].
  eapply rtc_l; [apply (st_Send (policy_message [a_policy]))|].
  apply rtc_once. apply st_write. eexists. split; reflexivity.
Qed.

Lemma session_delivers_witness :
  rtc session_step ann_session ann_told
  /\ exists c, s_conns ann_told !! 0 = Some c
       /\ uis_Policies (ui_uistate (foldl (fun u msg => Handle msg u) ann_ui (read_all 1 (cn_stdin c)))) = [a_policy].
Proof.
  assert (Hr : rtc session_step ann_session ann_told).
  { eapply rtc_l; [apply (st_Connect None None None tt)|]. eapply rtc_l; [apply (st_Send (policy_message [a_policy]))|].
    apply rtc_once. apply st_write. eexists. split; reflexivity. }
  split; [exact Hr|]. eexists. split; [reflexivity|].
  destruct (session_delivers (mkSessionData 1 "ann" "corp") 64 ann_told Hr) as (_ & _ & H & _).
  refine (eq_trans (proj1 (proj2 (H 0 _ 1 ann_ui eq_refl _ _ _))) _).
  - apply Forall_singleton. reflexivity.
  - apply (bool_decide_unpack _). vm_compute. exact I.
  - eexists. reflexivity.
  - reflexivity.
Defined.
