(* ===== verification/SessionManager.v ===== *)
(** * The session manager (enforcer/sessionmanager_windows.go)

    The manager keeps a session for every session of the system that is active
    or disconnected, and tells them of policies and leases.  Sessions are
    shared between the manager, the invocations and goroutines: they live in
    [sm_heap], and are known by their index.  Under the mutex of the manager
    [Scan], the updates, [Stop] and the second half of a goroutine that
    connects a session are atomic; [sm_tasks] are the goroutines that were
    started, each with what it has left to do. *)

From stdpp Require Import relations.
From S2P Require Import Prelude GoStrings GoTime Lease LeaseSet Policy WinUser EnforcerUI Session.

(** ** Attempts *)

Record sessionAttempt := mkAttempt {
  att_Attempt : Time;
  att_Wait : Duration;
}.

Definition minWait : Duration := (30 * Second)%Z.
Definition maxWait : Duration := (5 * Minute)%Z.

Definition nextSessionAttempt (last : sessionAttempt) (now : Time) : sessionAttempt :=
  if Time_IsZero (att_Attempt last) then mkAttempt now minWait
  else
    let wait := Duration_mul (att_Wait last) 2 in
    let wait := if decide (maxWait < wait)%Z then maxWait else wait in
    mkAttempt now wait.

(** ** The manager *)

(** What a goroutine has left to do: connect a session; lock the manager and
    book the result; send it the policies and leases; send it the leases;
    disconnect it. *)
Inductive Task :=
| TConnect (id : N) (ref : nat)
| TConnected (id : N) (ref : nat) (now : Time) (err : option error)
| TGreet (ref : nat) (pols : PolicySet) (leases : LeaseSet)
| TGreetLeases (ref : nat) (leases : LeaseSet)
| TDisconnect (ref : nat).

Record SessionManager := mkSM {
  sm_heap : list Session;
  sm_managed : gmap N nat;
  sm_attempted : gmap N sessionAttempt;
  sm_pols : PolicySet;
  sm_leases : LeaseSet;
  sm_tasks : list Task;
}.

Definition NewSessionManager : SessionManager := mkSM [] ∅ ∅ [] [] [].

Definition with_heap (h : list Session) (m : SessionManager) : SessionManager :=
  mkSM h (sm_managed m) (sm_attempted m) (sm_pols m) (sm_leases m) (sm_tasks m).
Definition with_managed (g : gmap N nat) (m : SessionManager) : SessionManager :=
  mkSM (sm_heap m) g (sm_attempted m) (sm_pols m) (sm_leases m) (sm_tasks m).
Definition with_attempted (a : gmap N sessionAttempt) (m : SessionManager) : SessionManager :=
  mkSM (sm_heap m) (sm_managed m) a (sm_pols m) (sm_leases m) (sm_tasks m).
Definition with_tasks (t : list Task) (m : SessionManager) : SessionManager :=
  mkSM (sm_heap m) (sm_managed m) (sm_attempted m) (sm_pols m) (sm_leases m) t.

Definition on_session (ref : nat) (f : Session -> Session) (m : SessionManager) : SessionManager :=
  match sm_heap m !! ref with
  | Some s => with_heap (<[ref := f s]> (sm_heap m)) m
  | None => m
  end.

(** [SessionManager.Session]: the index of the session, if there is one. *)
Definition SM_Session (id : N) (m : SessionManager) : option nat := sm_managed m !! id.

(** ** Scan *)

(** Sessions that are managed, or that failed too recently, are left out. *)
Definition may_connect (now : Time) (m : SessionManager) (id : N) : bool :=
  match sm_managed m !! id with
  | Some _ => false
  | None =>
      match sm_attempted m !! id with
      | Some attempt => negb (bool_decide (Time_Sub now (att_Attempt attempt) < att_Wait attempt)%Z)
      | None => true
      end
  end.

(** The sessions to connect, of those that the system lists. *)
Definition scan_pending (now : Time) (m : SessionManager) (sessions : list SessionData) : list SessionData :=
  filter (fun data => may_connect now m (sd_ID data) = true) sessions.

Definition is_connected (ref : nat) (m : SessionManager) : bool :=
  match sm_heap m !! ref with Some s => Connected s | None => false end.

(** One turn of the loop over the managed sessions. *)
Definition scan_dead (scanned : gset N) (m : SessionManager) (e : N * nat) : SessionManager :=
  let '(id, ref) := e in
  if decide (id ∉ scanned \/ is_connected ref m = false) then
    with_tasks (sm_tasks m ++ [TDisconnect ref]) (with_managed (delete id (sm_managed m)) m)
  else m.

Definition session_bufSize : nat := 64.

(** One turn of the loop over the pending sessions. *)
Definition scan_start (m : SessionManager) (data : SessionData) : SessionManager :=
  let ref := length (sm_heap m) in
  let m := with_heap (sm_heap m ++ [NewSession data session_bufSize]) m in
  let m := with_managed (<[sd_ID data := ref]> (sm_managed m)) m in
  with_tasks (sm_tasks m ++ [TConnect (sd_ID data) ref]) m.

Section Manager.
Context (range_managed : gmap N nat -> list (N * nat)).

(** An error of the system is ignored. *)
Definition SM_Scan (list_sessions : result (list SessionData)) (now : Time) (m : SessionManager)
  : option error * SessionManager :=
  match list_sessions with
  | Err _ => (None, m)
  | Ok sessions =>
      let scanned : gset N := list_to_set (sd_ID <$> sessions) in
      let pending := scan_pending now m sessions in
      let m := foldl (scan_dead scanned) m (range_managed (sm_managed m)) in
      let m := with_attempted (filter (fun e => e.1 ∈ scanned) (sm_attempted m)) m in
      (None, foldl scan_start m pending)
  end.

(** ** Updates *)

Definition send_to_all (msg : Message) (m : SessionManager) : SessionManager :=
  foldl (fun m e => on_session e.2 (fun s => (Send msg s).2) m) m (range_managed (sm_managed m)).

Definition SM_UpdatePolicies (pols : PolicySet) (m : SessionManager) : SessionManager :=
  send_to_all (policy_message pols)
    (mkSM (sm_heap m) (sm_managed m) (sm_attempted m) pols (sm_leases m) (sm_tasks m)).
Definition SM_UpdateLeases (leases : LeaseSet) (m : SessionManager) : SessionManager :=
  send_to_all (lease_message leases)
    (mkSM (sm_heap m) (sm_managed m) (sm_attempted m) (sm_pols m) leases (sm_tasks m)).
Definition SM_Send (msg : Message) (m : SessionManager) : SessionManager := send_to_all msg m.

(** [Disconnect], with its wait for the process to end. *)
Definition disconnected (s : Session) : Session :=
  match Disconnect s with (None, s) => session_exited s | (Some _, s) => s end.

Definition SM_Stop (m : SessionManager) : SessionManager :=
  foldl (fun m e => with_managed (delete e.1 (sm_managed m)) (on_session e.2 disconnected m))
    m (range_managed (sm_managed m)).

(** ** The goroutines *)

Section Tasks.
Context {OS : Type} `{WL : WinLaunch OS}.

(** [Connect], without the lock of the manager; [now] is read before. *)
Definition task_connect (id : N) (ref : nat) (now : Time) (stdin stdout start : option error) (os : OS)
  (m : SessionManager) : option Task * SessionManager :=
  match sm_heap m !! ref with
  | None => (None, m)
  | Some s =>
      let '(err, s) := Connect stdin stdout start os s in
      (Some (TConnected id ref now err), with_heap (<[ref := s]> (sm_heap m)) m)
  end.
End Tasks.

Definition zero_attempt : sessionAttempt := mkAttempt zero_time 0%Z.

(** The part under the lock of the manager. *)
Definition task_connected (id : N) (ref : nat) (now : Time) (err : option error) (m : SessionManager)
  : option Task * SessionManager :=
  match err with
  | Some _ =>
      if decide (sm_managed m !! id = Some ref) then
        let m := with_managed (delete id (sm_managed m)) m in
        let last := default zero_attempt (sm_attempted m !! id) in
        (None, with_attempted (<[id := nextSessionAttempt last now]> (sm_attempted m)) m)
      else (None, m)
  | None => (Some (TGreet ref (sm_pols m) (sm_leases m)), with_attempted (delete id (sm_attempted m)) m)
  end.

Definition task_greet (ref : nat) (pols : PolicySet) (leases : LeaseSet) (m : SessionManager)
  : option Task * SessionManager :=
  (Some (TGreetLeases ref leases), on_session ref (fun s => (SendPolicies pols s).2) m).

Definition task_greet_leases (ref : nat) (leases : LeaseSet) (m : SessionManager)
  : option Task * SessionManager :=
  (None, on_session ref (fun s => (SendLeases leases s).2) m).

Definition task_disconnect (ref : nat) (m : SessionManager) : option Task * SessionManager :=
  (None, on_session ref (fun s => (Disconnect s).2) m).

(** ** Steps *)

Section Steps.
Context {OS : Type} `{WL : WinLaunch OS, MT : MessageText}.

Inductive task_step : Task -> SessionManager -> option Task * SessionManager -> Prop :=
| ts_connect id ref now stdin stdout start os m :
    task_step (TConnect id ref) m (task_connect id ref now stdin stdout start os m)
| ts_connected id ref now err m : task_step (TConnected id ref now err) m (task_connected id ref now err m)
| ts_greet ref pols leases m : task_step (TGreet ref pols leases) m (task_greet ref pols leases m)
| ts_greet_leases ref leases m : task_step (TGreetLeases ref leases) m (task_greet_leases ref leases m)
| ts_disconnect ref m : task_step (TDisconnect ref) m (task_disconnect ref m).

(** What happens to a session by itself or through an invocation. *)
Inductive session_event : Session -> Session -> Prop :=
| se_Send msg s : session_event s (Send msg s).2
| se_exited s : s_connected s = true -> session_event s (session_exited s)
| se_write i fails s : sending i s -> session_event s (session_write i fails s)
| se_sender_ended i s : may_end i s -> session_event s (sender_ended i s).

Inductive sm_step : SessionManager -> SessionManager -> Prop :=
| sm_step_Scan sessions now m : sm_step m (SM_Scan sessions now m).2
| sm_step_UpdatePolicies pols m : sm_step m (SM_UpdatePolicies pols m)
| sm_step_UpdateLeases leases m : sm_step m (SM_UpdateLeases leases m)
| sm_step_Send msg m : sm_step m (SM_Send msg m)
| sm_step_Stop m : sm_step m (SM_Stop m)
| sm_step_task t before after next m m' :
    sm_tasks m = before ++ t :: after ->
    task_step t (with_tasks (before ++ after) m) (next, m') ->
    sm_step m (with_tasks (before ++ option_list next ++ after) m')
| sm_step_session ref s s' m :
    sm_heap m !! ref = Some s -> session_event s s' -> sm_step m (with_heap (<[ref := s']> (sm_heap m)) m).
End Steps.
End Manager.
