(* ===== verification/SessionManagerProps.v ===== *)
(** * What the session manager guarantees *)

From stdpp Require Import relations.
From S2P Require Import Prelude GoStrings GoTime Lease LeaseSet Policy WinUser EnforcerUI Session SessionManager.

(** ** Attempts *)

Definition wait_ok (a : sessionAttempt) : Prop := (minWait <= att_Wait a <= maxWait)%Z.

Lemma nextSessionAttempt_ok last now :
  wait_ok last \/ att_Attempt last = zero_time -> wait_ok (nextSessionAttempt last now).
Proof.
  unfold wait_ok, nextSessionAttempt, Time_IsZero. intros H.
  case_bool_decide as Hz; cbn; [by vm_compute|]. destruct H as [H|]; [|done].
  assert (Hw : Duration_mul (att_Wait last) 2 = (att_Wait last * 2)%Z).
  { unfold Duration_mul. apply wrap64_id. revert H. unfold in_int64, int64_min, int64_max, minWait, maxWait, Minute, Second. lia. }
  rewrite Hw. assert (minWait <= maxWait)%Z by by vm_compute. assert (0 < minWait)%Z by by vm_compute.
  case_decide; lia.
Qed.

Lemma nextSessionAttempt_doubles last now :
  wait_ok last -> att_Attempt last <> zero_time ->
  att_Wait (nextSessionAttempt last now) = Z.min (2 * att_Wait last) maxWait.
Proof.
  unfold wait_ok, nextSessionAttempt, Time_IsZero. intros H Hz. rewrite bool_decide_false by done.
  assert (Hw : Duration_mul (att_Wait last) 2 = (att_Wait last * 2)%Z).
  { unfold Duration_mul. apply wrap64_id. revert H. unfold in_int64, int64_min, int64_max, minWait, maxWait, Minute, Second. lia. }
  rewrite Hw. cbn. case_decide; lia.
Qed.

(** The wait after a failed attempt: twice the last one, if there was one. *)
Definition next_wait (last : option sessionAttempt) : Duration :=
  match last with
  | Some a => if decide (att_Attempt a = zero_time) then minWait else Z.min (2 * att_Wait a) maxWait
  | None => minWait
  end.

Lemma nextSessionAttempt_next last now :
  (forall a, last = Some a -> wait_ok a) ->
  let a := nextSessionAttempt (default zero_attempt last) now in
  att_Attempt a = now /\ att_Wait a = next_wait last.
Proof.
  intros Hok a. split; [unfold a, nextSessionAttempt; by destruct (Time_IsZero _)|].
  destruct last as [l|]; [|done]. unfold a, next_wait. cbn [default from_option id].
  case_decide as Hz; [|by apply nextSessionAttempt_doubles; [apply Hok|]].
  unfold nextSessionAttempt, Time_IsZero. by rewrite bool_decide_true.
Qed.

(** ** The invariant *)

Section Sessions.
Context `{MT : MessageText}.

(** A session that was never connected. *)
Definition fresh (s : Session) : Prop := s_connected s = false /\ s_conns s = [].

Definition connect_ref (t : Task) : option nat :=
  match t with TConnect _ ref => Some ref | _ => None end.
Definition connecting (ts : list Task) : list nat := omap connect_ref ts.

Record sm_inv (m : SessionManager) : Prop := {
  si_heap : Forall session_ok (sm_heap m);
  si_managed : forall id ref, sm_managed m !! id = Some ref ->
    exists s, sm_heap m !! ref = Some s /\ sd_ID (s_data s) = id;
  si_attempted : map_Forall (fun _ => wait_ok) (sm_attempted m);
  si_connect : forall id ref, TConnect id ref ∈ sm_tasks m ->
    exists s, sm_heap m !! ref = Some s /\ fresh s /\ sd_ID (s_data s) = id;
  si_once : NoDup (connecting (sm_tasks m));
}.

(** A change that a session goes through without being connected. *)
Record tame (s s' : Session) : Prop := {
  tame_data : s_data s' = s_data s;
  tame_ok : session_ok s -> session_ok s';
  tame_fresh : fresh s -> fresh s';
}.

Lemma Send_tame msg s : tame s (Send msg s).2.
Proof. split; [|apply Send_ok|]; unfold Send; by case_decide. Qed.

Lemma Disconnect_tame s : tame s (Disconnect s).2.
Proof.
  split; [|auto with session|]; unfold Disconnect; destruct (s_connected s) eqn:Hc; try done.
  by intros [? _]; congruence.
Qed.

Lemma exited_tame s : s_connected s = true -> tame s (session_exited s).
Proof. intros Hc. split; [done|auto with session|]. intros [? _]; congruence. Qed.

Lemma event_tame s s' : session_event s s' -> tame s s'.
Proof.
  intros [msg s1|s1 Hc|i fails s1 (c & Hc & _)|i s1 (c & Hc & _)]; [apply Send_tame|by apply exited_tame| |].
  - split; [|by apply session_write_ok|intros [_ He]; by rewrite He in Hc].
    unfold session_write. destruct (s_outbound s1); [done|]. rewrite Hc. by destruct (conn_write _ _ _ _).
  - split; [done|by apply sender_ended_ok|]. intros [_ He]. by rewrite He in Hc.
Qed.

Lemma disconnected_tame s : tame s (disconnected s).
Proof.
  unfold disconnected. pose proof (Disconnect_tame s) as Hd. destruct (Disconnect s) as [[e|] s1] eqn:He; [done|].
  assert (Hc : s_connected s1 = true) by (unfold Disconnect in He; destruct (s_connected s); by inversion He).
  destruct (exited_tame s1 Hc) as [A B C]. cbn in Hd. destruct Hd as [A' B' C']. split; [congruence|auto|auto].
Qed.
(** ** Operations *)

Lemma heap_insert_inv ref s s' m :
  sm_heap m !! ref = Some s -> tame s s' -> sm_inv m -> sm_inv (with_heap (<[ref := s']> (sm_heap m)) m).
Proof.
  intros Hr [Hd Hok Hf] [A B C D E]. assert (Hlt : ref < length (sm_heap m)) by (by eapply lookup_lt_Some).
  split; cbn; [| |done| |done].
  - apply Forall_insert; [done|]. apply Hok. by eapply Forall_lookup_1.
  - intros id r H. destruct (B id r H) as (t & Ht & Hid). destruct (decide (r = ref)) as [->|Hne].
    + exists s'. rewrite list_lookup_insert_eq by done. split; [done|]. simplify_eq. congruence.
    + exists t. by rewrite list_lookup_insert_ne.
  - intros id r H. destruct (D id r H) as (t & Ht & Hfr & Hid). destruct (decide (r = ref)) as [->|Hne].
    + exists s'. rewrite list_lookup_insert_eq by done. split; [done|]. simplify_eq.
      split; [auto|congruence].
    + exists t. by rewrite list_lookup_insert_ne.
Qed.

Lemma on_session_inv ref f m : (forall s, tame s (f s)) -> sm_inv m -> sm_inv (on_session ref f m).
Proof.
  intros Hf Hi. unfold on_session. destruct (sm_heap m !! ref) as [s|] eqn:Hr; [|done].
  by apply (heap_insert_inv ref s).
Qed.

Lemma with_managed_inv g m :
  (forall id ref, g !! id = Some ref -> sm_managed m !! id = Some ref) -> sm_inv m -> sm_inv (with_managed g m).
Proof. intros Hg [A B C D E]. split; cbn; auto. Qed.

Lemma delete_managed_inv id m : sm_inv m -> sm_inv (with_managed (delete id (sm_managed m)) m).
Proof. apply with_managed_inv. intros i r [_ H]%lookup_delete_Some. done. Qed.

Lemma with_attempted_inv a m : map_Forall (fun _ => wait_ok) a -> sm_inv m -> sm_inv (with_attempted a m).
Proof. intros Ha [A B C D E]. by split. Qed.

(** A task that does not connect comes or goes. *)
Lemma connecting_app ts us : connecting (ts ++ us) = connecting ts ++ connecting us.
Proof. apply omap_app. Qed.

Lemma fewer_tasks_inv ts m :
  (forall id ref, TConnect id ref ∈ ts -> TConnect id ref ∈ sm_tasks m) -> NoDup (connecting ts) ->
  sm_inv m -> sm_inv (with_tasks ts m).
Proof. intros Ht Hn [A B C D E]. split; cbn; auto. Qed.

Lemma add_task_inv before t after m :
  connect_ref t = None -> sm_tasks m = before ++ after -> sm_inv m -> sm_inv (with_tasks (before ++ t :: after) m).
Proof.
  intros Ht Hts Hi. apply fewer_tasks_inv; [| |done].
  - intros id ref. rewrite Hts, !elem_of_app, elem_of_cons. intros [?|[<-|?]]; [by left|done|by right].
  - pose proof (si_once m Hi) as H. rewrite Hts in H. revert H. rewrite !connecting_app. cbn. by rewrite Ht.
Qed.

Lemma send_to_all_inv range msg m : sm_inv m -> sm_inv (send_to_all range msg m).
Proof.
  unfold send_to_all. generalize (range (sm_managed m)) as l. intros l. revert m.
  induction l as [|e l IH]; intros m Hi; [done|]. apply IH, on_session_inv; [|done]. intros s. apply Send_tame.
Qed.

Lemma scan_dead_inv scanned l m : sm_inv m -> sm_inv (foldl (scan_dead scanned) m l).
Proof.
  revert m. induction l as [|[id ref] l IH]; intros m Hi; [done|]. apply IH. unfold scan_dead.
  case_decide; [|done]. apply (add_task_inv (sm_tasks m) (TDisconnect ref) []); [done|by rewrite app_nil_r|].
  by apply delete_managed_inv.
Qed.

Lemma scan_start_inv data m : sm_inv m -> sm_inv (scan_start m data).
Proof.
  intros [A B C D E]. unfold scan_start. split; cbn; [| |done| |].
  - apply Forall_app. split; [done|]. apply Forall_singleton, NewSession_ok.
  - intros id ref. destruct (decide (id = sd_ID data)) as [->|Hne].
    + rewrite lookup_insert_eq. intros [= <-]. eexists. split; [by apply list_lookup_middle|done].
    + rewrite lookup_insert_ne by congruence. intros H. destruct (B id ref H) as (s & Hs & Hid).
      exists s. split; [by apply lookup_app_l_Some|done].
  - intros id ref. rewrite elem_of_app, list_elem_of_singleton. intros [H|[= -> ->]].
    + destruct (D id ref H) as (s & Hs & Hf). exists s. split; [by apply lookup_app_l_Some|done].
    + eexists. split; [by apply list_lookup_middle|]. by split.
  - rewrite connecting_app. apply NoDup_app. split; [done|]. split; [|apply NoDup_singleton].
    intros ref Href ->%list_elem_of_singleton. apply list_elem_of_omap in Href as (t & Ht & Hr).
    destruct t; try done. cbn in Hr. injection Hr as ->. destruct (D _ _ Ht) as (s & Hs & _).
    apply lookup_lt_Some in Hs. lia.
Qed.

Lemma SM_Scan_inv range sessions now m : sm_inv m -> sm_inv (SM_Scan range sessions now m).2.
Proof.
  intros Hi. unfold SM_Scan. destruct sessions as [sessions|]; [|done]. cbn zeta.
  apply (scan_dead_inv (list_to_set (sd_ID <$> sessions)) (range (sm_managed m))) in Hi.
  set (m1 := foldl _ m _) in *. clearbody m1.
  assert (Hi2 : sm_inv (with_attempted (filter (fun e => e.1 ∈ (list_to_set (sd_ID <$> sessions) : gset N)) (sm_attempted m1)) m1)).
  { apply with_attempted_inv; [|done]. intros id a [H _]%map_lookup_filter_Some. by eapply (si_attempted m1 Hi). }
  revert Hi2. generalize (with_attempted (filter (fun e => e.1 ∈ (list_to_set (sd_ID <$> sessions) : gset N)) (sm_attempted m1)) m1).
  cbn [snd]. induction (scan_pending now m sessions) as [|d l IH]; intros m2 H2; [done|]. cbn. by apply IH, scan_start_inv.
Qed.

Lemma SM_Stop_inv range m : sm_inv m -> sm_inv (SM_Stop range m).
Proof.
  unfold SM_Stop. generalize (range (sm_managed m)). intros l. revert m.
  induction l as [|e l IH]; intros m Hi; [done|]. apply IH.
  assert (H : sm_inv (on_session e.2 disconnected m)).
  { apply on_session_inv; [|done]. intros s. apply disconnected_tame. }
  apply with_managed_inv; [|done]. intros i r [_ Hd]%lookup_delete_Some.
  unfold on_session. by destruct (sm_heap m !! e.2).
Qed.

(** ** Goroutines *)

Lemma remove_task_inv before t after m :
  sm_tasks m = before ++ t :: after -> sm_inv m -> sm_inv (with_tasks (before ++ after) m).
Proof.
  intros Hts Hi. apply fewer_tasks_inv; [| |done].
  - intros id ref. rewrite Hts, !elem_of_app, elem_of_cons. tauto.
  - pose proof (si_once m Hi) as H. rewrite Hts in H. revert H. rewrite !connecting_app. cbn.
    destruct (connect_ref t) as [r|]; [|done]. rewrite !NoDup_app. intros (H1 & H2 & H3).
    apply NoDup_cons in H3 as [_ H3]. split; [done|]. split; [|done]. intros x Hx Hx'. apply (H2 x Hx). by right.
Qed.

End Sessions.

Section Steps.
Context {OS : Type} `{WL : WinLaunch OS, MT : MessageText} (range : gmap N nat -> list (N * nat)).

(** The next part of a goroutine is not the one that connects. *)
Lemma task_step_inv before t after m next m' :
  sm_tasks m = before ++ t :: after -> task_step t (with_tasks (before ++ after) m) (next, m') ->
  sm_inv m -> sm_inv m' /\ (forall t', next = Some t' -> connect_ref t' = None)
    /\ sm_tasks m' = before ++ after.
Proof.
  intros Hts Hs Hi. pose proof (remove_task_inv before t after m Hts Hi) as Hi1.
  set (m1 := with_tasks (before ++ after) m) in *.
  assert (Ht1 : sm_tasks m1 = before ++ after) by done.
  assert (Hon : forall ref f, sm_tasks (on_session ref f m1) = before ++ after)
    by (intros ref f; unfold on_session; by destruct (sm_heap m1 !! ref)).
  clearbody m1. remember (next, m') as r eqn:He. revert He.
  destruct Hs as [id ref now i o st os m1|id ref now err m1|ref pols leases m1|ref leases m1|ref m1].
  - unfold task_connect. destruct (sm_heap m1 !! ref) as [s|] eqn:Hr; [|by intros [= <- <-]].
    destruct (Connect i o st os s) as [err s'] eqn:Hc. intros [= <- <-]. split; [|split; [by intros ? [= <-]|done]].
    assert (Hnd : ref ∉ connecting (before ++ after)).
    { pose proof (si_once m Hi) as H. rewrite Hts in H. revert H. rewrite !connecting_app. cbn.
      rewrite NoDup_app. intros (_ & H2 & H3). apply NoDup_cons in H3 as [H3 _].
      rewrite elem_of_app. intros [H|H]; [|done]. apply (H2 ref H). by left. }
    destruct Hi1 as [A B C D E]. pose proof (Forall_lookup_1 _ _ _ _ A Hr) as Hok.
    destruct (Connect_ok i o st os s Hok) as (Hok' & _). rewrite Hc in Hok'. cbn in Hok'.
    assert (Hd : s_data s' = s_data s) by (pose proof (Connect_data i o st os s) as H; by rewrite Hc in H).
    assert (Hlt : ref < length (sm_heap m1)) by (by eapply lookup_lt_Some).
    split; cbn; [by apply Forall_insert| |done| |done].
    + intros i' r H. destruct (B i' r H) as (x & Hx & Hid). destruct (decide (r = ref)) as [->|Hne].
      * exists s'. rewrite list_lookup_insert_eq by done. split; [done|]. simplify_eq. by rewrite Hd.
      * exists x. by rewrite list_lookup_insert_ne.
    + intros i' r H. destruct (D i' r H) as (x & Hx & Hf). exists x. split; [|done].
      rewrite list_lookup_insert_ne; [done|]. intros He. apply Hnd, list_elem_of_omap. exists (TConnect i' r). rewrite <- Ht1.
      split; [done|]. cbn. by rewrite He.
  - unfold task_connected. destruct err as [e|]; [|intros [= <- <-]].
    + case_decide as Hm; [|by intros [= <- <-]]. intros [= <- <-]. split; [|done].
      apply (with_attempted_inv _ (with_managed (delete id (sm_managed m1)) m1)); [|by apply delete_managed_inv].
      apply map_Forall_insert_2; [|apply Hi1]. apply nextSessionAttempt_ok. cbn [sm_attempted with_managed].
      destruct (sm_attempted m1 !! id) as [a|] eqn:Ha; [left; by eapply (si_attempted m1 Hi1)|by right].
    + split; [|split; [by intros ? [= <-]|done]]. apply with_attempted_inv; [|done].
      apply map_Forall_delete, Hi1.
  - unfold task_greet. intros [= <- <-]. split; [|split; [by intros ? [= <-]|done]].
    apply on_session_inv; [|done]. intros s. apply Send_tame.
  - unfold task_greet_leases. intros [= <- <-]. split; [|done].
    apply on_session_inv; [|done]. intros s. apply Send_tame.
  - unfold task_disconnect. intros [= <- <-]. split; [|done].
    apply on_session_inv; [|done]. intros s. apply Disconnect_tame.
Qed.

Lemma sm_step_inv m m' : sm_step range m m' -> sm_inv m -> sm_inv m'.
Proof.
  intros [sessions now m1|pols m1|leases m1|msg m1|m1|t before after next m1 m2 Hts Hs|ref s s' m1 Hr He] Hi.
  - by apply SM_Scan_inv.
  - apply send_to_all_inv. by destruct Hi.
  - apply send_to_all_inv. by destruct Hi.
  - by apply send_to_all_inv.
  - by apply SM_Stop_inv.
  - destruct (task_step_inv before t after m1 next m2 Hts Hs Hi) as (Hi2 & Hnext & Ht2).
    destruct next as [t'|].
    + apply (add_task_inv before t' after m2); [by apply Hnext|done|done].
    + change (sm_inv (with_tasks (before ++ after) m2)). rewrite <- Ht2. by destruct m2.
  - apply (heap_insert_inv ref s); [done|by apply event_tame|done].
Qed.

Lemma sm_reachable_inv m : rtc (sm_step range) NewSessionManager m -> sm_inv m.
Proof.
  apply (rtc_ind_r sm_inv); [|intros m1 m2 _ H1 H2; by eapply sm_step_inv].
  split; cbn; [constructor|done|done|by intros id ref ?%not_elem_of_nil|constructor].
Qed.
End Steps.

(** ** What a scan starts *)

Lemma scan_dead_tasks scanned l m id ref :
  TConnect id ref ∈ sm_tasks (foldl (scan_dead scanned) m l) -> TConnect id ref ∈ sm_tasks m.
Proof.
  revert m. induction l as [|[i r] l IH]; intros m; [done|]. intros H%IH. revert H. unfold scan_dead.
  case_decide; [|done]. cbn. rewrite elem_of_app. intros [Hin|Hin]; [done|].
  apply list_elem_of_singleton in Hin. discriminate Hin.
Qed.

Lemma scan_start_tasks l m id ref :
  TConnect id ref ∈ sm_tasks (foldl scan_start m l) -> TConnect id ref ∈ sm_tasks m \/ id ∈ sd_ID <$> l.
Proof.
  revert m. induction l as [|d l IH]; intros m; [by left|]. cbn [foldl]. intros [H|H]%IH.
  - cbn in H. rewrite elem_of_app, list_elem_of_singleton in H. destruct H as [H|[= -> _]]; [by left|]. right. by left.
  - right. by right.
Qed.

Lemma scan_connects range sessions now m id ref :
  TConnect id ref ∈ sm_tasks (SM_Scan range sessions now m).2 ->
  TConnect id ref ∈ sm_tasks m
  \/ (sm_managed m !! id = None
      /\ forall a, sm_attempted m !! id = Some a -> (att_Wait a <= Time_Sub now (att_Attempt a))%Z).
Proof.
  unfold SM_Scan. destruct sessions as [sessions|]; [|by left]. cbn zeta. cbn [snd].
  intros [H|H]%scan_start_tasks; [left; by apply scan_dead_tasks in H|]. right.
  apply list_elem_of_fmap in H as (d & -> & Hd). unfold scan_pending in Hd. apply list_elem_of_filter in Hd as [Hd _].
  revert Hd. unfold may_connect. destruct (sm_managed m !! sd_ID d); [done|].
  destruct (sm_attempted m !! sd_ID d) as [a|]; [|done]. intros Hb. split; [done|]. intros a' [= <-].
  apply negb_true_iff, bool_decide_eq_false in Hb. lia.
Qed.

(** ** What becomes of the attempts *)

(** The result of a connection is booked. *)
Lemma booked {OS : Type} `{WL : WinLaunch OS} ts id ref now err next m m' :
  map_Forall (fun _ => wait_ok) (sm_attempted m) ->
  task_step (TConnected id ref now err) (with_tasks ts m) (next, m') ->
  match err with
  | Some _ => sm_managed m !! id = Some ref ->
      sm_managed m' !! id = None
      /\ exists a, sm_attempted m' !! id = Some a /\ att_Attempt a = now
           /\ att_Wait a = next_wait (sm_attempted m !! id)
  | None => sm_attempted m' !! id = None
  end.
Proof.
  intros C Hs. assert (He : (next, m') = task_connected id ref now err (with_tasks ts m)) by (by inversion Hs).
  revert He. unfold task_connected. destruct err as [e|]; cbn.
  - intros He Hm. rewrite decide_True in He by done. injection He as -> ->. cbn. split; [apply lookup_delete_eq|].
    eexists. rewrite lookup_insert_eq. split; [done|]. apply nextSessionAttempt_next. intros a Ha. by apply (C id).
  - intros [= -> ->]. cbn. apply lookup_delete_eq.
Qed.

Lemma send_to_all_attempted range msg m : sm_attempted (send_to_all range msg m) = sm_attempted m.
Proof.
  unfold send_to_all. generalize (range (sm_managed m)). intros l. revert m.
  induction l as [|e l IH]; intros m; [done|]. cbn [foldl]. rewrite IH. unfold on_session. by destruct (sm_heap m !! e.2).
Qed.

Lemma SM_Stop_attempted range m : sm_attempted (SM_Stop range m) = sm_attempted m.
Proof.
  unfold SM_Stop. generalize (range (sm_managed m)). intros l. revert m.
  induction l as [|e l IH]; intros m; [done|]. cbn [foldl]. rewrite IH. cbn. unfold on_session. by destruct (sm_heap m !! e.2).
Qed.

Lemma SM_Scan_attempted range sessions now m :
  sm_attempted (SM_Scan range (Ok sessions) now m).2
  = filter (fun e => e.1 ∈ (list_to_set (sd_ID <$> sessions) : gset N)) (sm_attempted m).
Proof.
  unfold SM_Scan. cbn zeta. cbn [snd].
  assert (Hs : forall l m, sm_attempted (foldl scan_start m l) = sm_attempted m).
  { intros l. induction l as [|d l IH]; intros m0; [done|]. cbn [foldl]. by rewrite IH. }
  assert (Hd : forall scanned l m, sm_attempted (foldl (scan_dead scanned) m l) = sm_attempted m).
  { intros scanned l. induction l as [|[i r] l IH]; intros m0; [done|]. cbn [foldl]. rewrite IH.
    unfold scan_dead. by case_decide. }
  by rewrite Hs; cbn; rewrite Hd.
Qed.

(** Only the result of a connection and a scan touch the record of a session. *)
Lemma attempt_stays {OS : Type} `{WL : WinLaunch OS, MT : MessageText} range m m' id a :
  sm_step range m m' -> sm_attempted m !! id = Some a ->
  sm_attempted m' !! id = Some a
  \/ (exists ref now err, TConnected id ref now err ∈ sm_tasks m)
  \/ (exists sessions now, m' = (SM_Scan range (Ok sessions) now m).2 /\ id ∉ sd_ID <$> sessions).
Proof.
  intros Hs Ha.
  destruct Hs as [sessions now m1|pols m1|leases m1|msg m1|m1|t before after next m1 m2 Hts Hs|ref s s' m1 Hr He].
  - destruct sessions as [sessions|e]; [|by left]. destruct (decide (id ∈ sd_ID <$> sessions)) as [Hin|Hin].
    + left. rewrite SM_Scan_attempted. apply map_lookup_filter_Some. split; [done|]. by apply elem_of_list_to_set.
    + right; right. by exists sessions, now.
  - left. unfold SM_UpdatePolicies. by rewrite send_to_all_attempted.
  - left. unfold SM_UpdateLeases. by rewrite send_to_all_attempted.
  - left. unfold SM_Send. by rewrite send_to_all_attempted.
  - left. by rewrite SM_Stop_attempted.
  - cbn. remember (with_tasks (before ++ after) m1) as m0 eqn:Hm0.
    assert (Ha0 : sm_attempted m0 !! id = Some a) by (by rewrite Hm0). clear Hm0.
    remember (next, m2) as r eqn:He. revert He.
    assert (Hon : forall ref f, sm_attempted (on_session ref f m0) = sm_attempted m0)
      by (intros ref f; unfold on_session; by destruct (sm_heap m0 !! ref)).
    destruct Hs as [i ref now i0 o st os m0|i ref now err m0|ref pols leases m0|ref leases m0|ref m0].
    + unfold task_connect. destruct (sm_heap m0 !! ref); [|intros [= _ <-]; by left].
      destruct (Connect _ _ _ _ _). intros [= _ <-]. by left.
    + destruct (decide (id = i)) as [->|Hne].
      { intros _. right; left. exists ref, now, err. rewrite Hts. apply elem_of_app. right. left. }
      unfold task_connected. destruct err; [case_decide|]; intros [= _ <-]; left; cbn; [|done|].
      * by rewrite lookup_insert_ne.
      * by rewrite lookup_delete_ne.
    + unfold task_greet. intros [= _ <-]. left. by rewrite Hon.
    + unfold task_greet_leases. intros [= _ <-]. left. by rewrite Hon.
    + unfold task_disconnect. intros [= _ <-]. left. by rewrite Hon.
  - by left.
Qed.

(** ** The property *)

(** C24. The session manager.  However scans, updates and goroutines
    interleave: a managed session is the session of the system it is kept for,
    and no two share one; a session is connected at most once.  When a managed
    session cannot be connected it is dropped, and the attempt is recorded with
    a wait of thirty seconds, or of twice the wait recorded before, five minutes
    at most; a connection clears the record.  A record stays until the next
    result of a connection to that session, or until a scan does not list the
    session; and a scan connects only sessions that are not managed and whose
    recorded wait is over. *)
Theorem session_manager_sound {OS : Type} `{WL : WinLaunch OS, MT : MessageText} range m :
  rtc (sm_step range) NewSessionManager m ->
  (forall id ref, sm_managed m !! id = Some ref ->
     exists s, sm_heap m !! ref = Some s /\ sd_ID (s_data s) = id /\ session_ok s)
  /\ (forall id id' ref, sm_managed m !! id = Some ref -> sm_managed m !! id' = Some ref -> id = id')
  /\ (forall id ref, TConnect id ref ∈ sm_tasks m ->
        exists s, sm_heap m !! ref = Some s /\ sd_ID (s_data s) = id /\ s_connected s = false)
  /\ NoDup (connecting (sm_tasks m))
  /\ (forall id a, sm_attempted m !! id = Some a -> wait_ok a)
  /\ (forall before after id ref now err next m',
        sm_tasks m = before ++ TConnected id ref now err :: after ->
        task_step (TConnected id ref now err) (with_tasks (before ++ after) m) (next, m') ->
        match err with
        | Some _ => sm_managed m !! id = Some ref ->
            sm_managed m' !! id = None
            /\ exists a, sm_attempted m' !! id = Some a /\ att_Attempt a = now
                 /\ att_Wait a = next_wait (sm_attempted m !! id)
        | None => sm_attempted m' !! id = None
        end)
  /\ (forall m' id a, sm_step range m m' -> sm_attempted m !! id = Some a ->
        sm_attempted m' !! id = Some a
        \/ (exists ref now err, TConnected id ref now err ∈ sm_tasks m)
        \/ (exists sessions now, m' = (SM_Scan range (Ok sessions) now m).2 /\ id ∉ sd_ID <$> sessions))
  /\ (forall sessions now id ref, TConnect id ref ∈ sm_tasks (SM_Scan range sessions now m).2 ->
        TConnect id ref ∈ sm_tasks m
        \/ (sm_managed m !! id = None
            /\ forall a, sm_attempted m !! id = Some a -> (att_Wait a <= Time_Sub now (att_Attempt a))%Z)).
Proof.
  intros Hr. apply sm_reachable_inv in Hr as [A B C D E].
  assert (Hm : forall id ref, sm_managed m !! id = Some ref ->
    exists s, sm_heap m !! ref = Some s /\ sd_ID (s_data s) = id /\ session_ok s).
  { intros id ref H. destruct (B id ref H) as (s & Hs & Hid). exists s. split_and!; [done|done|]. by apply (Forall_lookup_1 _ _ _ _ A Hs). }
  split; [exact Hm|]. split_and!.
  - intros id id' ref H1 H2. destruct (B _ _ H1) as (s & Hs & <-). destruct (B _ _ H2) as (s' & Hs' & <-). congruence.
  - intros id ref H. destruct (D id ref H) as (s & Hs & [Hc _] & Hid). by exists s.
  - exact E.
  - intros id a. apply C.
  - intros before after id ref now err next m' _ Hs. by apply (booked _ _ _ _ _ _ _ _ C Hs).
  - intros m' id a Hs Ha. by apply (attempt_stays range m m' id a).
  - intros sessions now id ref. apply scan_connects.
Qed.

(** ** Two races *)

Definition ranges : gmap N nat -> list (N * nat) := map_to_list.
Definition ann_data : SessionData := mkSessionData 1 "ann" "corp".
Definition ann_scan (m : SessionManager) : SessionManager := (SM_Scan ranges (Ok [ann_data]) (100 * Second)%Z m).2.

(** The first task runs on. *)
Lemma first_task t after next m m' :
  sm_tasks m = t :: after -> task_step t (with_tasks after m) (next, m') ->
  sm_step ranges m (with_tasks (option_list next ++ after) m').
Proof. intros Ht Hs. exact (sm_step_task ranges t [] after next m m' Ht Hs). Qed.

(** What is left of the first task, and the manager, for a process that starts. *)
Definition run_first (m : SessionManager) : SessionManager :=
  match sm_tasks m with
  | [] => m
  | t :: after =>
      let m1 := with_tasks after m in
      let '(next, m') := match t with
                         | TConnect id ref => task_connect id ref 0%Z None None None tt m1
                         | TConnected id ref now err => task_connected id ref now err m1
                         | TGreet ref pols leases => task_greet ref pols leases m1
                         | TGreetLeases ref leases => task_greet_leases ref leases m1
                         | TDisconnect ref => task_disconnect ref m1
                         end in
      with_tasks (option_list next ++ after) m'
  end.

Lemma run_first_steps m : rtc (sm_step ranges) m (run_first m).
Proof.
  unfold run_first. destruct (sm_tasks m) as [|t after] eqn:Ht; [done|]. cbn zeta.
  destruct (match t with TConnect _ _ => _ | _ => _ end) as [next m'] eqn:Hs. apply rtc_once.
  apply (first_task t after); [done|]. rewrite <- Hs. by destruct t; constructor.
Qed.

Lemma ann_scan_step m : sm_step ranges m (ann_scan m).
Proof. apply sm_step_Scan. Qed.

(** A scan takes a session that a goroutine has yet to connect for one that
    was disconnected: the goroutine then starts a process that the manager
    does not know of, and the next scan starts another. *)
Lemma unmanaged_connection :
  exists m s, rtc (sm_step ranges) NewSessionManager m
    /\ sm_heap m !! 0 = Some s /\ s_connected s = true
    /\ sm_managed m !! 1%N = None /\ sm_tasks m = []
    /\ sm_tasks (ann_scan m) = [TConnect 1 1].
Proof.
  set (m0 := ann_scan (ann_scan NewSessionManager)).
  set (m := run_first (run_first (run_first (run_first (run_first m0))))).
  exists m. eexists. split; [|split_and!; vm_compute; reflexivity].
  eapply rtc_l; [apply ann_scan_step|]. eapply rtc_l; [apply ann_scan_step|].
  do 4 (etrans; [apply run_first_steps|]). apply run_first_steps.
Qed.

(** A goroutine that connects a session reads the policies before it sends
    them: an update in between reaches the session first, and the outdated
    policies are the last that it is told. *)
Lemma outdated_policies_last :
  exists m s, rtc (sm_step ranges) NewSessionManager m /\ sm_tasks m = []
    /\ sm_managed m !! 1%N = Some 0 /\ sm_heap m !! 0 = Some s
    /\ length (sm_pols m) = 1 /\ last_policies (s_accepted s) [a_policy] = [].
Proof.
  set (m1 := run_first (run_first (ann_scan NewSessionManager))).
  set (m2 := SM_UpdatePolicies ranges [a_policy] m1).
  exists (run_first (run_first m2)). eexists. split; [|split_and!; vm_compute; reflexivity].
  eapply rtc_l; [apply ann_scan_step|]. do 2 (etrans; [apply run_first_steps|]).
  eapply rtc_l; [apply (sm_step_UpdatePolicies ranges [a_policy] m1)|].
  etrans; apply run_first_steps.
Qed.

(** ** Witness *)

Lemma session_manager_sound_witness :
  exists s, sm_heap (run_first (ann_scan NewSessionManager)) !! 0 = Some s /\ s_connected s = true
    /\ sd_ID (s_data s) = 1%N /\ session_ok s.
Proof.
  assert (Hr : rtc (sm_step ranges) NewSessionManager (run_first (ann_scan NewSessionManager))).
  { eapply rtc_l; [apply ann_scan_step|]. apply run_first_steps. }
  destruct (proj1 (session_manager_sound ranges _ Hr) 1%N 0) as (s & Hs & Hid & Hok); [vm_compute; reflexivity|].
  exists s. split; [exact Hs|]. split; [|split; [exact Hid|exact Hok]].
  assert (Hc : from_option s_connected false (sm_heap (run_first (ann_scan NewSessionManager)) !! 0) = true)
    by (vm_compute; reflexivity).
  rewrite Hs in Hc. exact Hc.
Defined.
