(* ===== verification/PolicyManager.v ===== *)
(** * The policy manager of the enforcer (enforcer/policymanager_windows.go)

    The manager keeps the policies that its client last retrieved and writes
    them to a cache, from which it loads at start.  The cache is an interface
    ([PolicyCache], policy/cache.go) with the law [PolicyCacheSpec]; the file
    system provider implements it.  A deadline of a request is up to the
    environment of the client. *)

From S2P Require Import Prelude GoStrings GoTime Lease LeaseSet Policy PolicyCodec FsProv Server Client.

(** ** policy/cache.go *)

Class PolicyCache (C : Type) := {
  cache_Policies_ : C -> PolicySet * option error;
  cache_SetPolicies : PolicySet -> C -> option error * C;
}.

(** A cache returns the policies of the set that it was given. *)
Class PolicyCacheSpec (C : Type) (PC : PolicyCache C) := {
  cache_keeps : PolicySet -> Prop;
  cache_Policies_SetPolicies s c c' :
    cache_keeps s -> cache_SetPolicies s c = (None, c') ->
    exists ps, cache_Policies_ c' = (ps, None) /\ forall p, p ∈ ps <-> p ∈ s;
}.

(** The file system provider is a cache (provider/fsprov). *)
Section FsCache.
Context `{FE : FileErrors, PT : PolicyText} (path : string) (sum224 : bytes -> bytes).
Context `{MO : MapOrder, FR : FileRange}.

Definition fs_cache : PolicyCache FileSystem := {|
  cache_Policies_ := FsProv_Policies path;
  cache_SetPolicies := FsProv_SetPolicies path sum224;
|}.

Definition fs_cache_spec `{PS : !PolicyTextSpec PT, MOS : !MapOrderSpec MO, HFR : !FileRangeSpec FR}
  (Hdir : ReadDir_error = None) (Hfiles : forall n, ReadFile_error n = None)
  : PolicyCacheSpec FileSystem fs_cache.
Proof.
  refine (Build_PolicyCacheSpec _ fs_cache (fun s => Forall storable_policy s /\ Forall plain_policy s
    /\ digest_separates sum224 s) _).
  intros s c c' (Hs & Hplain & Hsep) Hset. by apply (SetPolicies_Policies path sum224 s c c').
Defined.
End FsCache.

(** ** The manager *)

Section Manager.
Context {Env : Type} `{NE : Net Env} {C : Type} `{PC : PolicyCache C}.
Context (sum224 : bytes -> bytes) `{MO : MapOrder}.

(** [plm_policies] is [None] for the nil slice; [plm_log] are the policies that
    were reported as added and as deleted. *)
Record PolicyManager := mkPolicyManager {
  plm_client : Client;
  plm_policies : option PolicySet;
  plm_cache : option C;
  plm_log : list (PolicySet * PolicySet);
}.

Definition NewPolicyManager (client : Client) (cache : option C) : PolicyManager :=
  mkPolicyManager client None cache [].

Definition Policies (m : PolicyManager) : option PolicySet := plm_policies m.

(** The elements of a slice. *)
Definition elements_of (s : option PolicySet) : PolicySet := default [] s.

Definition Load (m : PolicyManager) : PolicyManager :=
  match plm_cache m with
  | None => m
  | Some cache =>
      match cache_Policies_ cache with
      | (_, Some err) => m
      | (updated, None) =>
          let previous := plm_policies m in
          let '(additions, deletions) := PolicySet_Diff sum224 previous (Some updated) in
          mkPolicyManager (plm_client m) (Some updated) (Some cache)
            (plm_log m ++ [(elements_of additions, elements_of deletions)])
      end
  end.

(** [changed] and [ok] of the source. *)
Definition PM_Update (m : PolicyManager) (env : Env) : bool * bool * PolicyManager * Env :=
  let '(response, client, env) := Client_Policies (plm_client m) env in
  match response with
  | Failed err => (false, false, mkPolicyManager client (plm_policies m) (plm_cache m) (plm_log m), env)
  | Got response =>
      let updated := pr_Policies response in
      let previous := plm_policies m in
      let cache := match plm_cache m with
                   | Some cache => Some (cache_SetPolicies updated cache).2
                   | None => None
                   end in
      let '(additions, deletions) := PolicySet_Diff sum224 previous (Some updated) in
      if decide (length (elements_of additions) = 0 /\ length (elements_of deletions) = 0)
      then (false, true, mkPolicyManager client (Some updated) cache (plm_log m), env)
      else (true, true, mkPolicyManager client (Some updated) cache
              (plm_log m ++ [(elements_of additions, elements_of deletions)]), env)
  end.
End Manager.
Arguments PolicyManager C : clear implicits.

(** ** Lemmas *)

Section Facts.
Context (sum224 : bytes -> bytes) `{MO : MapOrder, MOS : !MapOrderSpec MO}.

(** Nothing reported means that no policy came or went. *)
Lemma Diff_empty s next additions deletions :
  policies_ok (elements_of s ++ next) -> digest_separates sum224 (elements_of s ++ next) ->
  PolicySet_Diff sum224 s (Some next) = (additions, deletions) ->
  length (elements_of additions) = 0 -> length (elements_of deletions) = 0 ->
  forall p, p ∈ next <-> p ∈ elements_of s.
Proof.
  intros Hok Hsep Hd Ha%nil_length_inv He%nil_length_inv p. destruct s as [s|]; cbn in *.
  - injection Hd as <- <-. cbn in Ha, He. split; intros Hp.
    + destruct (decide (p ∈ s)) as [|Hn]; [done|]. exfalso. apply (not_elem_of_nil p). rewrite <- Ha.
      by apply missing_complete.
    + destruct (decide (p ∈ next)) as [|Hn]; [done|]. exfalso. apply (not_elem_of_nil p). rewrite <- He.
      assert (Hok' : policies_ok (next ++ s)) by (unfold policies_ok; rewrite Permutation_app_comm; done).
      apply missing_complete; [done|done| |done|done].
      intros x y l1 l2 Hx Hy. apply Hsep; rewrite elem_of_app in *; tauto.
  - injection Hd as <- <-. cbn in Ha. subst next. done.
Qed.

(** Something reported means that a policy came or went, or that the hash of
    one with several properties came out differently. *)
Lemma Diff_nonempty s next additions deletions :
  PolicySet_Diff sum224 s (Some next) = (additions, deletions) ->
  ~ (length (elements_of additions) = 0 /\ length (elements_of deletions) = 0) ->
  exists p, (p ∈ next /\ (p ∉ elements_of s \/ 1 < size (pol_Properties p)))
    \/ (p ∈ elements_of s /\ (p ∉ next \/ 1 < size (pol_Properties p))).
Proof.
  intros Hd Hne. destruct s as [s|]; cbn in *.
  - injection Hd as <- <-. cbn in Hne.
    destruct (missing_from (hash_map sum224 0 s ∅) _) as [|p l] eqn:Ha.
    + destruct (missing_from (hash_map sum224 (length s) next ∅) _) as [|p l] eqn:He; [by destruct Hne|].
      assert (Hp : p ∈ missing_from (hash_map sum224 (length s) next ∅) (range (hash_map sum224 0 s ∅)))
        by (rewrite He; by left).
      exists p. right. split; [by eapply missing_subset|].
      destruct (decide (size (pol_Properties p) <= 1)); [left; by eapply missing_sound|right; lia].
    + assert (Hp : p ∈ missing_from (hash_map sum224 0 s ∅) (range (hash_map sum224 (length s) next ∅)))
        by (rewrite Ha; by left).
      exists p. left. split; [by eapply missing_subset|].
      destruct (decide (size (pol_Properties p) <= 1)); [left; by eapply missing_sound|right; lia].
  - injection Hd as <- <-. destruct next as [|p next]; cbn in Hne; [tauto|]. exists p. left.
    split; [by left|]. left. apply not_elem_of_nil.
Qed.
End Facts.

(** ** The property *)

(** Policies are tracked.  An update that fails changes neither the
    policies nor the cache; one that succeeds adopts what was retrieved and
    reports no change only if no policy came or went, and a change only if one
    did or has several properties.  When the cache could be written, a manager
    that is started with it anew loads the policies of the last update. *)
Lemma policy_manager_tracks {Env : Type} `{NE : Net Env} {C : Type} `{PC : PolicyCache C, PCS : !PolicyCacheSpec C PC}
    (sum224 : bytes -> bytes) `{MO : MapOrder, MOS : !MapOrderSpec MO} (m : PolicyManager C) (env : Env) :
  let '(changed, ok, m', env') := PM_Update sum224 m env in
  match Client_Policies (plm_client m) env with
  | (Failed _, client, _) =>
      changed = false /\ ok = false /\ plm_policies m' = plm_policies m /\ plm_cache m' = plm_cache m
  | (Got response, client, _) =>
      let updated := pr_Policies response in
      let previous := elements_of (plm_policies m) in
      ok = true /\ Policies m' = Some updated
      /\ (policies_ok (previous ++ updated) -> digest_separates sum224 (previous ++ updated) ->
            changed = false -> forall p, p ∈ updated <-> p ∈ previous)
      /\ (changed = true -> exists p,
            (p ∈ updated /\ (p ∉ previous \/ 1 < size (pol_Properties p)))
            \/ (p ∈ previous /\ (p ∉ updated \/ 1 < size (pol_Properties p))))
      /\ (forall cache cache', plm_cache m = Some cache -> cache_keeps updated ->
            cache_SetPolicies updated cache = (None, cache') ->
            plm_cache m' = Some cache'
            /\ forall client', exists loaded,
                 Policies (Load sum224 (NewPolicyManager client' (plm_cache m'))) = Some loaded
                 /\ forall p, p ∈ loaded <-> p ∈ updated)
  end.
Proof.
  unfold PM_Update. destruct (Client_Policies (plm_client m) env) as [[[response|err] client] env'] eqn:Hc; [|done].
  cbn zeta. destruct (PolicySet_Diff sum224 (plm_policies m) (Some (pr_Policies response))) as [adds dels] eqn:Hd.
  assert (Hcache : forall cache cache', plm_cache m = Some cache -> cache_keeps (pr_Policies response) ->
    cache_SetPolicies (pr_Policies response) cache = (None, cache') ->
    match plm_cache m with Some cache => Some (cache_SetPolicies (pr_Policies response) cache).2 | None => None end = Some cache'
    /\ forall client', exists loaded,
         Policies (Load sum224 (NewPolicyManager client' (Some cache'))) = Some loaded
         /\ forall p, p ∈ loaded <-> p ∈ pr_Policies response).
  { intros cache cache' Hm Hk Hs. rewrite Hm, Hs. split; [done|]. intros client'.
    destruct (cache_Policies_SetPolicies _ _ _ Hk Hs) as (ps & Hps & Hin). exists ps. split; [|done].
    unfold Load, NewPolicyManager. cbn [plm_cache plm_policies]. rewrite Hps. done. }
  case_decide as He.
  - split_and!; [done|done| |done|].
    + intros Hok Hsep _. destruct He as [Ha Hb]. by eapply Diff_empty.
    + intros cache cache' Hm Hk Hs. cbn [plm_cache]. destruct (Hcache cache cache' Hm Hk Hs) as [-> H]. by split.
  - split_and!; [done|done|done| |].
    + intros _. by eapply Diff_nonempty.
    + intros cache cache' Hm Hk Hs. cbn [plm_cache]. destruct (Hcache cache cache' Hm Hk Hs) as [-> H]. by split.
Qed.

(** ** Witness *)

(** A cache in memory, and a server with one policy. *)
#[local] Instance memory_cache : PolicyCache PolicySet := {|
  cache_Policies_ := fun s => (s, None);
  cache_SetPolicies := fun s _ => (None, s);
|}.
#[local] Instance memory_cache_spec : PolicyCacheSpec PolicySet memory_cache.
Proof.
  refine (Build_PolicyCacheSpec _ memory_cache (fun _ => True) _).
  intros s c c' _ [= <-]. by exists s.
Defined.

Definition served_policy : Policy :=
  mkPolicy "cad" [] Strategy_Instance 1 Minute 0%Z (mkRefresh 0%Z 0%Z) ∅.

Definition policy_server : Net unit := {|
  ctx_Err _ := None;
  http_NewRequest _ := None;
  http_Do req env := (Ok (mkHTTPResponse 200 "200 OK" []), env);
  resolver_Resolve env := (Ok ["a"; "b"], env);
  time_Now env := (0%Z, env);
  decode_Health _ := Err "unused";
  decode_Policies _ := Ok (mkPoliciesResponse [served_policy]);
  decode_Acquire _ := Err "unused";
  decode_Release _ := Err "unused";
|}.

Definition a_client : Client := mkClient ["a"; "b"] "a" zero_time zero_time.
Definition a_manager : PolicyManager PolicySet := NewPolicyManager a_client (Some []).

Lemma policy_manager_tracks_witness :
  let '(changed, ok, m', _) :=
    PM_Update (NE := policy_server) (MO := one_order) (fun b => b) a_manager tt in
  changed = true /\ ok = true /\ Policies m' = Some [served_policy]
  /\ exists loaded, Policies (Load (MO := one_order) (fun b => b) (NewPolicyManager a_client (plm_cache m'))) = Some loaded
       /\ served_policy ∈ loaded.
Proof.
  pose proof (policy_manager_tracks (NE := policy_server) (MO := one_order) (MOS := one_order_spec)
    (fun b => b) a_manager tt) as H.
  assert (Hc : exists client env, Client_Policies (NE := policy_server) a_client tt
    = (Got (mkPoliciesResponse [served_policy]), client, env)) by (eexists; eexists; vm_compute; reflexivity).
  assert (Hch : (PM_Update (NE := policy_server) (MO := one_order) (fun b => b) a_manager tt).1.1.1 = true)
    by (vm_compute; reflexivity).
  destruct Hc as (client & env & Hc).
  destruct (PM_Update (NE := policy_server) (MO := one_order) (fun b => b) a_manager tt) as [[[changed ok] m'] env'].
  cbn in Hch. subst changed. cbn [plm_client a_manager NewPolicyManager] in H. rewrite Hc in H.
  destruct H as (H1 & H2 & _ & _ & H5). split; [reflexivity|]. split; [exact H1|]. split; [exact H2|].
  destruct (H5 [] [served_policy] eq_refl I eq_refl) as [_ Hload].
  destruct (Hload a_client) as (loaded & Hl & Hin). exists loaded. split; [exact Hl|]. apply Hin. left.
Defined.
