(* ===== verification/Service.v ===== *)
(** * The enforcement service (enforcer/service_windows.go)

    The service runs three loops, over its policies, its processes and its
    sessions, until it is stopped; then it stops all management.  [svc_step] is
    a call, a turn of one of the goroutines, or a step of the goroutines of the
    session manager. *)

From stdpp Require Import relations.
From S2P Require Import Prelude GoStrings GoTime Lease LeaseSet Policy PolicyProps PolicyCodec FsProv Server Client WinUser EnforcerUI EnforcerScan ProcessManager Session SessionManager PolicyManager.

(** The interval at which policies are first retrieved. *)
Definition startup : Duration := (5 * Second)%Z.

(** The next interval of the policy timer; [started] is whether the first
    retrieval succeeded. *)
Definition policy_timer (started ok : bool) (policyInterval : Duration) : Duration :=
  if negb ok && negb started then startup else policyInterval.

(** Where [run] is: it does not run, it retrieves the first policies, its four
    goroutines run (the one that cancels retrievals, and the three loops), or
    it has stopped all management. *)
Inductive SvcPhase :=
| SvcIdle
| SvcStarting
| SvcRunning (started cancel policies procs sessions : bool)
| SvcStopped.

Section Service.
Context {Env : Type} `{NE : Net Env} {C : Type} `{PC : PolicyCache C} `{WP : WinProcess, GT : GoText}.
Context {OS : Type} `{WL : WinLaunch OS, MT : MessageText}.
Context (sum224 : bytes -> bytes) `{MO : MapOrder} (environment : Properties).
Context (range_procs : gmap UniqueID LeaseInstance -> list (UniqueID * LeaseInstance)).
Context (range_invocations : gset LeaseInstance -> list LeaseInstance).
Context (range_sessions : gmap N nat -> list (N * nat)).

(** [svc_shutdown] holds while [shutdown] is not nil, [svc_closing] from when it
    is closed until [Stop] returns. *)
Record Service := mkService {
  svc_shutdown : bool;
  svc_closing : bool;
  svc_phase : SvcPhase;
  svc_policies : PolicyManager C;
  svc_procs : ProcessManager;
  svc_sessions : SessionManager;
}.

Definition NewService (client : Client) (cache : option C) : Service :=
  mkService false false SvcIdle (PolicyManager.NewPolicyManager client cache) NewProcessManager NewSessionManager.

Definition set_svc_phase (ph : SvcPhase) (s : Service) : Service :=
  mkService (svc_shutdown s) (svc_closing s) ph (svc_policies s) (svc_procs s) (svc_sessions s).
Definition set_svc_policies (p : PolicyManager C) (s : Service) : Service :=
  mkService (svc_shutdown s) (svc_closing s) (svc_phase s) p (svc_procs s) (svc_sessions s).
Definition set_svc_procs (p : ProcessManager) (s : Service) : Service :=
  mkService (svc_shutdown s) (svc_closing s) (svc_phase s) (svc_policies s) p (svc_sessions s).
Definition set_svc_sessions (m : SessionManager) (s : Service) : Service :=
  mkService (svc_shutdown s) (svc_closing s) (svc_phase s) (svc_policies s) (svc_procs s) m.

Definition current_policies (s : Service) : PolicySet :=
  elements_of (PolicyManager.Policies (svc_policies s)).

(** ** Calls *)

Definition Service_Start (s : Service) : option error * Service :=
  if svc_shutdown s then (Some "the policy enforcement service is already running", s)
  else (None, mkService true false SvcStarting (svc_policies s) (svc_procs s) (svc_sessions s)).

(** [Stop] up to its wait, and its return. *)
Definition Service_Stop (s : Service) : Service :=
  if negb (svc_shutdown s) then s
  else mkService false true (svc_phase s) (svc_policies s) (svc_procs s) (svc_sessions s).
Definition Service_Stop_return (s : Service) : Service :=
  mkService (svc_shutdown s) false SvcIdle (svc_policies s) (svc_procs s) (svc_sessions s).

(** ** The goroutines *)

(** The policies are loaded and retrieved before the loops begin. *)
Definition run_begin (env : Env) (s : Service) : Service :=
  let p := Load sum224 (svc_policies s) in
  let '(_, started, p, _) := PM_Update sum224 p env in
  set_svc_phase (SvcRunning started true true true true) (set_svc_policies p s).

Definition tick_policies (env : Env) (s : Service) : Service :=
  let '(changed, ok, p, _) := PM_Update sum224 (svc_policies s) env in
  let s := set_svc_policies p s in
  if (changed : bool) then set_svc_sessions (SM_UpdatePolicies range_sessions (current_policies s) (svc_sessions s)) s
  else s.

Definition tick_procs (now failed_at : ProcessData -> Time) (open : ProcessData -> result unit)
  (scan : result (list ProcessData)) (done : LeaseInstance -> bool) (s : Service) : Service :=
  set_svc_procs (Enforce environment sum224 now failed_at open range_procs range_invocations scan done
    (current_policies s) (svc_procs s)).2 s.

(** The first turn of the loop over the sessions primes the manager. *)
Definition begin_sessions (list_sessions : result (list SessionData)) (now : Time) (s : Service) : Service :=
  let m := SM_UpdatePolicies range_sessions (current_policies s) (svc_sessions s) in
  set_svc_sessions (SM_Scan range_sessions list_sessions now m).2 s.
Definition tick_sessions (list_sessions : result (list SessionData)) (now : Time) (s : Service) : Service :=
  set_svc_sessions (SM_Scan range_sessions list_sessions now (svc_sessions s)).2 s.

(** All goroutines have ended. *)
Definition run_end (s : Service) : Service :=
  let s := set_svc_procs (PM_Stop range_invocations (svc_procs s)) s in
  let s := set_svc_sessions (SM_Stop range_sessions (svc_sessions s)) s in
  set_svc_phase SvcStopped s.

(** ** Steps *)

(** What the goroutines of the session manager and its sessions do. *)
Inductive background : SessionManager -> SessionManager -> Prop :=
| bg_task t before after next m m' :
    sm_tasks m = before ++ t :: after ->
    task_step t (with_tasks (before ++ after) m) (next, m') ->
    background m (with_tasks (before ++ option_list next ++ after) m')
| bg_session ref s s' m :
    sm_heap m !! ref = Some s -> session_event s s' -> background m (with_heap (<[ref := s']> (sm_heap m)) m).

Inductive svc_step : Service -> Service -> Prop :=
| sv_Start s : svc_closing s = false -> svc_step s (Service_Start s).2
| sv_Stop s : svc_closing s = false -> svc_step s (Service_Stop s)
| sv_Stop_return s : svc_closing s = true -> svc_phase s = SvcStopped -> svc_step s (Service_Stop_return s)
| sv_begin env s : svc_phase s = SvcStarting -> svc_step s (run_begin env s)
| sv_policies st c pr se env s :
    svc_phase s = SvcRunning st c true pr se -> svc_step s (tick_policies env s)
| sv_procs st c po se now failed_at open scan done s :
    svc_phase s = SvcRunning st c po true se -> svc_step s (tick_procs now failed_at open scan done s)
| sv_begin_sessions st c po pr l now s :
    svc_phase s = SvcRunning st c po pr true -> svc_step s (begin_sessions l now s)
| sv_sessions st c po pr l now s :
    svc_phase s = SvcRunning st c po pr true -> svc_step s (tick_sessions l now s)
| sv_shutdown st c po pr se c' po' pr' se' s :
    svc_phase s = SvcRunning st c po pr se -> svc_closing s = true ->
    (c' = true -> c = true) -> (po' = true -> po = true) -> (pr' = true -> pr = true) -> (se' = true -> se = true) ->
    svc_step s (set_svc_phase (SvcRunning st c' po' pr' se') s)
| sv_end st s : svc_phase s = SvcRunning st false false false false -> svc_step s (run_end s)
| sv_background m s : background (svc_sessions s) m -> svc_step s (set_svc_sessions m s).

(** ** The invariant *)

Definition nothing_managed (s : Service) : Prop :=
  pm_invocations (svc_procs s) = ∅ /\ pm_managed (svc_procs s) = ∅ /\ sm_managed (svc_sessions s) = ∅.

Record svc_inv (s : Service) : Prop := {
  vi_phase : svc_phase s = SvcIdle <-> svc_shutdown s = false /\ svc_closing s = false;
  vi_excl : svc_closing s = true -> svc_shutdown s = false;
  vi_idle : svc_phase s = SvcIdle \/ svc_phase s = SvcStopped -> nothing_managed s;
}.

Context (range_invocations_perm : forall g, range_invocations g ≡ₚ elements g).
Context (range_sessions_perm : forall g, range_sessions g ≡ₚ map_to_list g).

Lemma stop_invocations l pm :
  pm_invocations (foldl (fun pm instance => stop_invocation instance pm) pm l) = pm_invocations pm ∖ list_to_set l.
Proof.
  revert pm. induction l as [|i l IH]; intros pm; cbn [foldl]; [cbn; set_solver|]. rewrite IH. cbn. set_solver.
Qed.

Lemma PM_Stop_empty pm :
  pm_invocations (PM_Stop range_invocations pm) = ∅ /\ pm_managed (PM_Stop range_invocations pm) = ∅.
Proof.
  unfold PM_Stop. split; [|done]. cbn. rewrite stop_invocations.
  apply set_eq. intros i. rewrite elem_of_difference, elem_of_list_to_set, range_invocations_perm, elem_of_elements.
  set_solver.
Qed.

Lemma SM_Stop_loop l m id :
  sm_managed (foldl (fun m e => with_managed (delete e.1 (sm_managed m)) (on_session e.2 disconnected m)) m l) !! id
  = if decide (id ∈ l.*1) then None else sm_managed m !! id.
Proof.
  revert m. induction l as [|[i r] l IH]; intros m; cbn [foldl].
  - rewrite decide_False; [done|]. apply not_elem_of_nil.
  - rewrite IH. cbn. pose proof (elem_of_cons l.*1 id i) as HE. destruct (decide (id ∈ l.*1)) as [H|H].
    + rewrite decide_True; [done|]. by right.
    + destruct (decide (id = i)) as [->|Hne].
      * rewrite lookup_delete_eq, decide_True; [done|]. by left.
      * rewrite lookup_delete_ne, decide_False; [|by rewrite HE; intros [?|?]|congruence].
        unfold on_session. by destruct (sm_heap m !! r).
Qed.

Lemma SM_Stop_empty m : sm_managed (SM_Stop range_sessions m) = ∅.
Proof.
  apply map_eq. intros id. unfold SM_Stop. rewrite SM_Stop_loop, lookup_empty.
  case_decide as H; [done|]. destruct (sm_managed m !! id) as [r|] eqn:Hr; [|done]. destruct H.
  apply list_elem_of_fmap. exists (id, r). split; [done|]. rewrite range_sessions_perm. by apply elem_of_map_to_list.
Qed.

Lemma background_managed m m' : background m m' -> sm_managed m = ∅ -> sm_managed m' = ∅.
Proof.
  intros [t before after next m1 m2 _ Hs|ref s s' m1 _ _] Hm; [|done]. cbn.
  remember (with_tasks (before ++ after) m1) as m0 eqn:Hm0. assert (H0 : sm_managed m0 = ∅) by by rewrite Hm0.
  clear Hm0 Hm. remember (next, m2) as r eqn:He. revert He.
  assert (Hon : forall ref f, sm_managed (on_session ref f m0) = ∅)
    by (intros ref f; unfold on_session; by destruct (sm_heap m0 !! ref)).
  destruct Hs as [id ref now i o st os m0|id ref now err m0|ref pols leases m0|ref leases m0|ref m0].
  - unfold task_connect. destruct (sm_heap m0 !! ref); [|by intros [= _ <-]].
    destruct (Connect _ _ _ _ _). by intros [= _ <-].
  - unfold task_connected. destruct err; [|by intros [= _ <-]]. case_decide; [|by intros [= _ <-]].
    intros [= _ <-]. cbn. by rewrite H0, delete_empty.
  - unfold task_greet. intros [= _ <-]. apply Hon.
  - unfold task_greet_leases. intros [= _ <-]. apply Hon.
  - unfold task_disconnect. intros [= _ <-]. apply Hon.
Qed.

Lemma tick_policies_same env s :
  svc_phase (tick_policies env s) = svc_phase s /\ svc_shutdown (tick_policies env s) = svc_shutdown s
  /\ svc_closing (tick_policies env s) = svc_closing s.
Proof. unfold tick_policies. destruct (PM_Update _ _ _) as [[[changed ok] p] e]. by destruct changed. Qed.

Lemma run_begin_same env s :
  (exists st, svc_phase (run_begin env s) = SvcRunning st true true true true)
  /\ svc_shutdown (run_begin env s) = svc_shutdown s /\ svc_closing (run_begin env s) = svc_closing s.
Proof. unfold run_begin. destruct (PM_Update _ _ _) as [[[changed ok] p] e]. split; [by eexists|done]. Qed.

(** A step within [run] keeps the invariant. *)
Lemma active_inv s s' :
  svc_phase s <> SvcIdle -> svc_phase s' <> SvcIdle -> svc_phase s' <> SvcStopped ->
  svc_shutdown s' = svc_shutdown s -> svc_closing s' = svc_closing s -> svc_inv s -> svc_inv s'.
Proof.
  intros H1 H2 H3 H4 H5 [A B D]. split.
  - rewrite H4, H5, <- A. by split.
  - by rewrite H4, H5.
  - by intros [?|?].
Qed.

Lemma svc_step_inv s s' : svc_step s s' -> svc_inv s -> svc_inv s'.
Proof.
  intros Hs Hi. pose proof Hi as [A B D].
  destruct Hs as [s Hc|s Hc|s Hc Hp|env s Hp|st c pr se env s Hp|st c po se now fa open scan done_ s Hp|st c po pr l now s Hp
    |st c po pr l now s Hp|st c po pr se c' po' pr' se' s Hp Hc|st s Hp|m s Hb].
  - unfold Service_Start. destruct (svc_shutdown s) eqn:Hsd; [done|]. split; cbn; [by split; [|intros []]|done|].
    by intros [?|?].
  - unfold Service_Stop. destruct (svc_shutdown s) eqn:Hsd; [|done]. cbn. split; cbn; [|done|exact D].
    split; [intros [? _]%A; congruence|by intros [_ ?]].
  - split; cbn; [split; [intros _; split; [by apply B|done]|done]|done|]. intros _. apply D. by right.
  - destruct (run_begin_same env s) as ([st Hp'] & H1 & H2). apply (active_inv s); rewrite ?Hp, ?Hp'; done.
  - destruct (tick_policies_same env s) as (H0 & H1 & H2). apply (active_inv s); rewrite ?H0, ?Hp; done.
  - apply (active_inv s); cbn; rewrite ?Hp; done.
  - apply (active_inv s); cbn; rewrite ?Hp; done.
  - apply (active_inv s); cbn; rewrite ?Hp; done.
  - apply (active_inv s); cbn; rewrite ?Hp; done.
  - destruct (PM_Stop_empty (svc_procs s)) as [H1 H2]. split; cbn; [|done|].
    + split; [done|]. intros H. apply A in H. congruence.
    + intros _. split; [exact H1|]. split; [exact H2|apply SM_Stop_empty].
  - split; cbn; [done|done|]. intros H. destruct (D H) as (H1 & H2 & H3). split; [done|]. split; [done|].
    by eapply background_managed.
Qed.

Lemma svc_reachable_inv client cache s : rtc svc_step (NewService client cache) s -> svc_inv s.
Proof.
  apply (rtc_ind_r svc_inv); [|intros s1 s2 _ H1 H2; by eapply svc_step_inv]. by split; cbn.
Qed.
End Service.
Arguments Service C {WP}.

(** ** The property *)

(** C26. The life of the service.  Whenever the service does not run, and so
    when [Stop] has returned, no process, invocation or session is managed; and
    once [Stop] has been called there always is a run in which it returns: the
    goroutines end, whatever they were doing.  A service that runs cannot be
    started again. *)
Theorem service_stops {Env : Type} `{NE : Net Env} {C : Type} `{PC : PolicyCache C} `{WP : WinProcess, GT : GoText}
    {OS : Type} `{WL : WinLaunch OS, MT : MessageText} (sum224 : bytes -> bytes) `{MO : MapOrder} environment
    range_procs range_invocations range_sessions client cache s :
  (forall g, range_invocations g ≡ₚ elements g) -> (forall g, range_sessions g ≡ₚ map_to_list g) ->
  let step := svc_step sum224 environment range_procs range_invocations range_sessions in
  rtc step (NewService client cache) s ->
  (svc_phase s = SvcIdle -> nothing_managed s)
  /\ (svc_shutdown s = true -> exists err, (Service_Start s).1 = Some err)
  /\ (svc_closing s = true -> forall env : Env, exists s',
        rtc step s s' /\ svc_phase s' = SvcIdle /\ svc_closing s' = false /\ svc_shutdown s' = false
        /\ nothing_managed s').
Proof.
  intros Hri Hrs step Hr. pose proof (svc_reachable_inv sum224 environment range_procs range_invocations
    range_sessions Hri Hrs client cache s Hr) as Hi. split; [|split].
  - intros Hp. apply Hi. by left.
  - intros Hsd. unfold Service_Start. rewrite Hsd. by eexists.
  - intros Hc env. pose proof Hi as [A B D]. pose proof (B Hc) as Hsd.
    assert (Hstep : forall s1 s2, step s1 s2 -> svc_inv s1 -> svc_inv s2)
      by (intros s1 s2 H1 H2; by eapply svc_step_inv).
    (* from the goroutines to the end *)
    assert (Hrun : forall s1 st c po pr se, svc_inv s1 -> svc_closing s1 = true ->
      svc_phase s1 = SvcRunning st c po pr se ->
      exists s2, rtc step s1 s2 /\ svc_phase s2 = SvcStopped /\ svc_closing s2 = true /\ svc_inv s2).
    { intros s1 st c po pr se Hi1 Hc1 Hp1.
      assert (S1 : step s1 (set_svc_phase (SvcRunning st false false false false) s1))
        by (by eapply sv_shutdown).
      eexists. split; [eapply rtc_l; [exact S1|]; apply rtc_once; by eapply sv_end|]. cbn.
      split; [done|]. split; [done|]. eapply Hstep; [by eapply (sv_end _ _ _ _ _ st)|]. by eapply Hstep. }
    assert (Hend : exists s2, rtc step s s2 /\ svc_phase s2 = SvcStopped /\ svc_closing s2 = true /\ svc_inv s2).
    { destruct (svc_phase s) as [| |st c po pr se|] eqn:Hp.
      - destruct A as [A _]. destruct (A eq_refl). congruence.
      - destruct (run_begin_same sum224 env s) as ([st Hp1] & _ & Hc1).
        assert (S0 : step s (run_begin sum224 env s)) by (by apply sv_begin).
        destruct (Hrun (run_begin sum224 env s) st true true true true) as (s2 & R2 & H2);
          [by eapply Hstep|congruence|done|]. exists s2. split; [by eapply rtc_l|done].
      - by eapply Hrun.
      - exists s. by split. }
    destruct Hend as (s2 & R2 & Hp2 & Hc2 & Hi2).
    assert (S2 : step s2 (Service_Stop_return s2)) by (by apply sv_Stop_return).
    exists (Service_Stop_return s2). split; [by eapply rtc_r|]. split; [done|]. split; [done|].
    split; [by apply (vi_excl _ Hi2)|]. apply (Hstep _ _ S2 Hi2). by left.
Qed.

(** Once the first retrieval has failed, every later failure is retried as if
    the service had just been started: [started] is never set. *)
Lemma started_never_set interval :
  policy_timer false true interval = interval /\ policy_timer false false interval = startup.
Proof. done. Qed.

(** ** Witness *)

#[local] Existing Instances policy_server memory_cache named_process ascii_text one_order.

Definition a_service : Service PolicySet := NewService a_client (Some []).

Lemma service_stops_witness :
  exists s', svc_phase s' = SvcIdle /\ nothing_managed s'
    /\ rtc (svc_step (NE := policy_server) (fun b => b) ∅ map_to_list elements map_to_list)
         (Service_Stop (Service_Start a_service).2) s'.
Proof.
  destruct (service_stops (NE := policy_server) (GT := ascii_text) (fun b => b) ∅ map_to_list elements map_to_list
    a_client (Some []) (Service_Stop (Service_Start a_service).2)) as (_ & _ & H).
  - intros g. reflexivity.
  - intros g. reflexivity.
  - eapply rtc_l; [apply (sv_Start _ _ _ _ _ a_service); reflexivity|].
    apply rtc_once. apply sv_Stop. reflexivity.
  - destruct (H eq_refl tt) as (s' & H1 & H2 & _ & _ & H3). exists s'. split; [exact H2|]. split; [exact H3|exact H1].
Defined.
