(* ===== verification/ServiceHandler.v ===== *)
(** * The Windows service (cmd/resourceful/handler_windows.go)

    [Handler.Execute] prepares an enforcement service, starts it, and obeys the
    requests of the operating system until it is told to stop.  Requests are a
    list; a run that has obeyed all of them waits for the next.  The service is
    an interface ([ServiceControl]) with what [Service.Start] and
    [Service.Stop] promise (enforcer/service_windows.go, [Service.v]). *)

From S2P Require Import Prelude GoStrings.

Class ServiceControl (Svc : Type) := {
  new_service : string -> option string -> bool -> Svc;
  service_Start : Svc -> option error * Svc;
  service_Stop : Svc -> Svc;
  service_running : Svc -> bool;
}.

Class ServiceControlSpec (Svc : Type) (SC : ServiceControl Svc) : Prop := {
  new_service_idle server cache passive : service_running (new_service server cache passive) = false;
  service_Start_running s :
    let '(err, s') := service_Start s in
    service_running s' = service_running s || bool_decide (err = None)
    /\ (service_running s = true -> err <> None);
  service_Stop_stopped s : service_running (service_Stop s) = false;
}.

(** [svc.Status] and [svc.ChangeRequest]. *)
Inductive SvcState := StartPending | Running | Paused | StopPending.

Record Status := mkStatus {
  st_State : SvcState;
  st_CheckPoint : N;
  st_Accepts : bool;
}.

Inductive Request :=
| Interrogate (current : Status)
| Stop
| Shutdown
| Pause
| Continue
| OtherRequest.

Record EnforceConfig := mkEnforceConfig { conf_Server : string; conf_Passive : bool }.

Record Handler := mkHandler {
  h_Name : string;
  h_Conf : EnforceConfig;
  h_ConfErr : option error;
}.

Definition pending (checkpoint : N) : Status := mkStatus StartPending checkpoint false.
Definition state (s : SvcState) : Status := mkStatus s 0 false.
Definition accepting (s : SvcState) : Status := mkStatus s 0 true.

Section Handler.
Context {Svc : Type} `{SC : ServiceControl Svc}.

(** The answers of the system, and the parser of the service's arguments. *)
Context (parse_args : list string -> result EnforceConfig).
Context (executable environment cacheDir : result string).

(** The main loop: [None] while it waits. *)
Fixpoint service_loop (requests : list Request) (svc : Svc) : option (bool * N) * list Status * Svc :=
  match requests with
  | [] => (None, [], svc)
  | req :: requests =>
      let go sent svc :=
        let '(ret, statuses, svc) := service_loop requests svc in (ret, sent ++ statuses, svc) in
      match req with
      | Interrogate current => go [current; current] svc
      | Stop | Shutdown => (Some (false, 0%N), [state StopPending], svc)
      | Pause => go [accepting Paused] (service_Stop svc)
      | Continue => go [accepting Running] (service_Start svc).2
      | OtherRequest => go [] svc
      end
  end.

(** The arguments of the service: its name comes first. *)
Definition service_args (h : Handler) (args : list string) : result Handler :=
  match args with
  | [] => Ok h
  | [name] => Ok (mkHandler name (h_Conf h) (h_ConfErr h))
  | name :: args =>
      match parse_args args with
      | Err e => Err e
      | Ok cmd =>
          Ok (mkHandler name
                (mkEnforceConfig
                  (if decide (conf_Server cmd <> "") then conf_Server cmd else conf_Server (h_Conf h))
                  (if conf_Passive cmd then true else conf_Passive (h_Conf h)))
                (h_ConfErr h))
      end
  end.

(** Up to the start of the service: the service or an error code, and the
    progress that was reported. *)
Definition prepare (h : Handler) (args : list string) : (Svc + N) * list Status :=
  match h_ConfErr h with
  | Some _ => (inr 1%N, [pending 0])
  | None =>
      match service_args h args with
      | Err _ => (inr 1%N, [pending 0])
      | Ok h =>
          match executable with
          | Err _ => (inr 1%N, [pending 0; pending 1])
          | Ok _ =>
              match environment with
              | Err _ => (inr 1%N, [pending 0; pending 1; pending 2])
              | Ok _ =>
                  let polDir := match cacheDir with Ok dir => dir | Err _ => "" end in
                  let cache := if decide (polDir <> "") then Some polDir else None in
                  let svc := new_service (conf_Server (h_Conf h)) cache (conf_Passive (h_Conf h)) in
                  (inl svc, pending <$> [0; 1; 2; 3; 4; 5]%N)
              end
          end
      end
  end.

(** [None] while the handler waits for a request.  The deferred calls stop the
    service and then report that it is stopping. *)
Definition Execute (h : Handler) (args : list string) (requests : list Request)
  : option (bool * N) * list Status * option Svc :=
  let '(prepared, progress) := prepare h args in
  match prepared with
  | inr errno => (Some (false, errno), progress ++ [state StopPending], None)
  | inl svc =>
      let '(err, svc) := service_Start svc in
      match err with
      | Some _ => (Some (false, 1%N), progress ++ [state StopPending], Some svc)
      | None =>
          let '(ret, statuses, svc) := service_loop requests svc in
          let statuses := progress ++ accepting Running :: statuses in
          match ret with
          | None => (None, statuses, Some svc)
          | Some ret => (Some ret, statuses ++ [state StopPending], Some (service_Stop svc))
          end
      end
  end.

(** ** Lemmas *)

Context `{SCS : !ServiceControlSpec Svc SC}.

(** The progress that is reported is numbered from zero. *)
Lemma prepare_progress h args :
  exists n, 0 < n <= 6 /\ (prepare h args).2 = pending <$> (N.of_nat <$> seq 0 n).
Proof.
  unfold prepare. destruct (h_ConfErr h); [by exists 1; split; [lia|]|].
  destruct (service_args h args) as [h'|]; [|by exists 1; split; [lia|]].
  destruct executable; [|by exists 2; split; [lia|]].
  destruct environment; [|by exists 3; split; [lia|]]. exists 6. by split; [lia|].
Qed.

Lemma prepare_idle h args svc : (prepare h args).1 = inl svc -> service_running svc = false.
Proof.
  unfold prepare. repeat ((case_match; [by intros [= <-]; (apply new_service_idle || done)|]) || (case_match; try done)).
  all: intros [= <-]; apply new_service_idle.
Qed.

(** What the last accepted pause or continuation leaves. *)
Lemma service_loop_running requests svc :
  service_running svc = true ->
  let '(ret, _, svc') := service_loop requests svc in
  ret = Some (false, 0%N) \/ ret = None.
Proof.
  intros _. revert svc. induction requests as [|req requests IH]; intros svc; cbn; [by right|].
  destruct req; try (by left); match goal with |- context [service_loop requests ?s] =>
    specialize (IH s); by destruct (service_loop requests s) as [[ret st] svc'] end.
Qed.

(** The life of the service as the system sees it: numbered progress; if it
    could be started, that it runs and the answers to requests; at last, once
    it has returned, that it stops, and then it does not run any more. *)
Lemma Execute_protocol h args requests :
  let '(ret, statuses, svc) := Execute h args requests in
  exists n, 0 < n <= 6 /\ exists rest,
    statuses = (pending <$> (N.of_nat <$> seq 0 n)) ++ rest
    /\ match ret with
       | None => head rest = Some (accepting Running) /\ svc <> None
       | Some (ssec, errno) =>
           ssec = false /\ last rest = Some (state StopPending)
           /\ (forall s, svc = Some s -> service_running s = false)
           /\ (errno = 0%N \/ errno = 1%N /\ rest = [state StopPending])
       end.
Proof.
  unfold Execute. destruct (prepare_progress h args) as (n & Hn & Hp).
  pose proof (prepare_idle h args) as Hidle.
  destruct (prepare h args) as [[svc|errno] progress] eqn:Hprep; cbn [snd fst] in *; subst progress.
  - specialize (Hidle svc eq_refl). pose proof (service_Start_running svc) as Hst.
    destruct (service_Start svc) as [[err|] svc1]; destruct Hst as [Hr _].
    + exists n. split; [done|]. eexists. split; [done|]. split; [done|]. split; [done|]. split; [|by right].
      intros s [= <-]. by rewrite Hr, Hidle.
    + assert (Hr1 : service_running svc1 = true) by (by rewrite Hr, Hidle).
      pose proof (service_loop_running requests svc1 Hr1) as Hl.
      destruct (service_loop requests svc1) as [[ret statuses] svc2].
      destruct ret as [[ssec errno]|].
      * destruct Hl as [[= -> ->]|]; [|done]. exists n. split; [done|].
        exists (accepting Running :: statuses ++ [state StopPending]). split; [by rewrite <- app_assoc|].
        split; [done|]. split; [by rewrite app_comm_cons, last_snoc|]. split; [|by left].
        intros s [= <-]. apply service_Stop_stopped.
      * exists n. split; [done|]. eexists. split; [done|]. done.
  - exists n. split; [done|]. eexists. split; [done|]. split; [done|]. split; [done|]. split; [done|].
    right. split; [|done]. revert Hprep. unfold prepare. repeat case_match; by intros [= <-].
Qed.
End Handler.

(** A continuation is reported as running whatever the start returns. *)
Lemma continue_hides_errors `{SC : ServiceControl Svc} (svc : Svc) :
  (service_loop [Continue] svc).1.2 = [accepting Running].
Proof. reflexivity. Qed.

(** A service that is a flag. *)
#[local] Instance flag_service : ServiceControl bool := {|
  new_service _ _ _ := false;
  service_Start s := (if s then Some "running" else None, true);
  service_Stop _ := false;
  service_running s := s;
|}.
#[local] Instance flag_service_spec : ServiceControlSpec bool flag_service.
Proof. by split; [|intros []|]. Qed.

Example Execute_stopped :
  Execute (fun _ => Err "") (Ok "r.exe") (Ok "") (Err "") (mkHandler "s" (mkEnforceConfig "" false) None) []
    [Pause; Continue; Stop]
  = (Some (false, 0%N), (pending <$> [0; 1; 2; 3; 4; 5]%N)
      ++ [accepting Running; accepting Paused; accepting Running; state StopPending; state StopPending], Some false).
Proof. reflexivity. Qed.
