(* ===== verification/Install.v ===== *)
(** * Installation (cmd/resourceful/registry_windows.go, install_windows.go, builder.go)

    The values that describe an installation in the Windows registry, a key of
    which is a map from names to values; the arguments of the installed
    service; and the version numbers of the executable.  File copies and the
    service manager are left out. *)

From S2P Require Import Prelude GoStrings.

Inductive RegValue :=
| RegString (s : string)
| RegDWord (n : N).

(** A registry key. *)
Abbreviation Key := (gmap string RegValue) (only parsing).

Record UninstallData := mkUninstallData {
  DisplayName : string;
  DisplayVersion : string;
  DisplayIcon : string;
  UninstallCommand : string;
  InstallLocation : string;
  InstallSource : string;
  Publisher : string;
  EstimatedSize : N;
}.

Definition ProgramName : string := "Resourceful".
Definition CompanyName : string := "SCJ Alliance".

Section Registry.
(** The errors of setting a value, and of a value that is missing or of
    another type. *)
Context (set_error : string -> option error) (missing : error).

(** [SetStringValue] and [SetDWordValue]; the errors of optional values are
    ignored. *)
Definition set_required (name value : string) (key : Key) : result (gmap string RegValue) :=
  match set_error name with Some e => Err e | None => Ok (<[name := RegString value]> key) end.
Definition set_optional (name : string) (value : RegValue) (key : Key) : gmap string RegValue :=
  match set_error name with Some _ => key | None => <[name := value]> key end.
Definition set_string_if (name value : string) (key : Key) : gmap string RegValue :=
  if decide (value <> "") then set_optional name (RegString value) key else key.

Definition set_size_if (n : N) (key : Key) : gmap string RegValue :=
  if decide (n <> 0%N) then set_optional "EstimatedSize" (RegDWord n) key else key.

Definition WriteValues (u : UninstallData) (key : Key) : result (gmap string RegValue) :=
  key ← set_required "DisplayName" (DisplayName u) key;
  key ← set_required "UninstallString" (UninstallCommand u) key;
  let key := set_string_if "DisplayVersion" (DisplayVersion u) key in
  let key := set_string_if "DisplayIcon" (DisplayIcon u) key in
  let key := set_string_if "InstallLocation" (InstallLocation u) key in
  let key := set_string_if "InstallSource" (InstallSource u) key in
  let key := set_string_if "Publisher" (Publisher u) key in
  Ok (set_size_if (EstimatedSize u) key).

(** [GetStringValue] and [GetIntegerValue], which return zero with an error. *)
Definition get_string (name : string) (key : Key) : result string :=
  match key !! name with Some (RegString s) => Ok s | _ => Err missing end.
Definition get_string_or_empty (name : string) (key : Key) : string :=
  match get_string name key with Ok s => s | Err _ => "" end.

(** The conversion to [uint32]. *)
Definition get_size (key : Key) : N :=
  match key !! "EstimatedSize" with Some (RegDWord n) => (n mod 2 ^ 32)%N | _ => 0%N end.

Definition ReadValues (key : Key) : result UninstallData :=
  name ← get_string "DisplayName" key;
  command ← get_string "UninstallString" key;
  Ok {| DisplayName := name; UninstallCommand := command;
        DisplayVersion := get_string_or_empty "DisplayVersion" key;
        DisplayIcon := get_string_or_empty "DisplayIcon" key;
        InstallLocation := get_string_or_empty "InstallLocation" key;
        InstallSource := get_string_or_empty "InstallSource" key;
        Publisher := get_string_or_empty "Publisher" key;
        EstimatedSize := get_size key |}.
End Registry.

Section Install.
(** [filepath.Join] of two parts and [syscall.EscapeArg]. *)
Context (Join : string -> string -> string) (EscapeArg : string -> string) (Version : string).

Definition uninstallCommand (dir executable : string) : string :=
  EscapeArg (Join dir executable) +:+ " uninstall".

(** The data of [addUninstallRegKeys]: the size in kilobytes is cut to 32 bits. *)
Definition uninstall_data (sourceDir destDir exe : string) (sizeInBytes : Z) : UninstallData :=
  {| DisplayName := ProgramName; DisplayVersion := Version; DisplayIcon := Join destDir exe;
     UninstallCommand := uninstallCommand destDir exe; InstallLocation := destDir;
     InstallSource := Join sourceDir exe; Publisher := CompanyName;
     EstimatedSize := Z.to_N (Z.quot sizeInBytes 1024 mod 2 ^ 32) |}.

Definition addUninstallRegKeys (set_error : string -> option error) (sourceDir destDir exe : string)
  (sizeInBytes : Z) (entry : Key) : result (gmap string RegValue) :=
  WriteValues set_error (uninstall_data sourceDir destDir exe sizeInBytes) entry.

(** The name of the executable and the arguments of the service. *)
Definition install_exe (exe : string) : string := if HasSuffix exe ".exe" then exe else exe +:+ ".exe".
Definition service_arguments (server : string) (passive : bool) : list string :=
  ["enforce"] ++ (if passive then ["-p"] else []) ++ (if decide (server <> "") then ["-s"; server] else []).
End Install.

(** ** The entry of the program *)

Definition UninstallKeyName : string := "Resourceful".

Section Entry.
(** The root of the entries is a map from names to keys; the errors of opening
    it, of opening or creating the entry, and of deleting it. *)
Context (set_error : string -> option error) (missing : error).
Context (open_root open_entry delete_entry : option error).

Abbreviation Root := (gmap string (gmap string RegValue)) (only parsing).

Definition getUninstallRegKeys (root : Root) : result UninstallData :=
  match open_root with
  | Some err => Err err
  | None =>
      match root !! UninstallKeyName, open_entry with
      | None, _ => Err missing
      | Some _, Some err => Err err
      | Some entry, None => ReadValues missing entry
      end
  end.

(** The entry, when a required value cannot be set. *)
Definition half_written (u : UninstallData) (entry : Key) : gmap string RegValue :=
  match set_required set_error "DisplayName" (DisplayName u) entry with
  | Ok entry => entry
  | Err _ => entry
  end.

(** [addUninstallRegKeys], which opens the entry or creates it. *)
Definition addUninstallEntry (u : UninstallData) (root : Root) : option error * gmap string (gmap string RegValue) :=
  match open_root, open_entry with
  | Some err, _ | None, Some err => (Some err, root)
  | None, None =>
      let entry := default ∅ (root !! UninstallKeyName) in
      match WriteValues set_error u entry with
      | Ok entry => (None, <[UninstallKeyName := entry]> root)
      | Err err => (Some err, <[UninstallKeyName := half_written u entry]> root)
      end
  end.

Definition delUninstallRegKeys (root : Root) : option error * gmap string (gmap string RegValue) :=
  match open_root with
  | Some err => (Some err, root)
  | None =>
      match root !! UninstallKeyName, delete_entry with
      | None, _ => (Some missing, root)
      | Some _, Some err => (Some err, root)
      | Some _, None => (None, delete UninstallKeyName root)
      end
  end.
End Entry.

(** ** Versions *)

Section Version.
(** [strings.Split] by dots, [strconv.Atoi] and the constant [Version]. *)
Context (split_dots : string -> list string) (Atoi : string -> option Z) (Version : string).

Definition number (parts : list string) (i : nat) : Z :=
  match parts !! i with Some s => default 0%Z (Atoi s) | None => 0%Z end.

(** [splitVersion], whose parameter is not used. *)
Definition splitVersion (version : string) : Z * Z * Z * Z :=
  let parts := split_dots Version in
  let n := length parts in
  let part i := if decide (i < n <= 4) then number parts i else 0%Z in
  (part 0, part 1, part 2, part 3).
End Version.

(** ** Lemmas *)

Section Facts.
Context (missing : error).

#[local] Abbreviation no_error := (fun _ : string => None).

Lemma get_string_ne name value key name' :
  name' <> name -> get_string missing name' (set_string_if no_error name value key) = get_string missing name' key.
Proof.
  intros Hn. unfold get_string, set_string_if, set_optional. case_decide; [by rewrite lookup_insert_ne|done].
Qed.

Lemma get_string_size name n key :
  name <> "EstimatedSize" -> get_string missing name (set_size_if no_error n key) = get_string missing name key.
Proof.
  intros Hn. unfold get_string, set_size_if, set_optional. case_decide; [by rewrite lookup_insert_ne|done].
Qed.

Lemma get_string_required name value key name' :
  get_string missing name' (<[name := RegString value]> key)
  = if decide (name' = name) then Ok value else get_string missing name' key.
Proof.
  unfold get_string. case_decide; subst; [by rewrite lookup_insert_eq|by rewrite lookup_insert_ne].
Qed.

Lemma get_string_written name value key :
  get_string missing name key = Err missing ->
  get_string_or_empty missing name (set_string_if no_error name value key) = value.
Proof.
  unfold get_string_or_empty. intros Hn. unfold set_string_if, set_optional. case_decide as Hv.
  - unfold get_string. by rewrite lookup_insert_eq.
  - rewrite Hn. congruence.
Qed.

Lemma get_or_empty_ne name value key name' :
  name' <> name ->
  get_string_or_empty missing name' (set_string_if no_error name value key) = get_string_or_empty missing name' key.
Proof. intros Hn. unfold get_string_or_empty. by rewrite get_string_ne. Qed.

Lemma get_size_string name value key :
  name <> "EstimatedSize" -> get_size (set_string_if no_error name value key) = get_size key.
Proof.
  intros Hn. unfold get_size, set_string_if, set_optional. case_decide; [by rewrite lookup_insert_ne|done].
Qed.

Lemma get_size_written n key :
  (n < 2 ^ 32)%N -> get_size key = 0%N -> get_size (set_size_if no_error n key) = n.
Proof.
  intros Hn Hk. unfold set_size_if, set_optional. case_decide as Hd; [|congruence].
  unfold get_size. rewrite lookup_insert_eq. by apply N.mod_small.
Qed.

(** What is written to a new key is read back. *)
Lemma registry_roundtrip u :
  (EstimatedSize u < 2 ^ 32)%N ->
  exists key, WriteValues no_error u ∅ = Ok key /\ ReadValues missing key = Ok u.
Proof.
  intros Hs. eexists. split; [reflexivity|]. destruct u as [n v i c l s p z]. cbn in Hs.
  cbn [DisplayName DisplayVersion DisplayIcon UninstallCommand InstallLocation InstallSource Publisher EstimatedSize].
  unfold ReadValues.
  rewrite (get_size_written z) by (done || by rewrite !get_size_string).
  unfold get_string_or_empty. rewrite !get_string_size by done.
  change (match get_string missing ?x ?k with Ok s => s | Err _ => "" end) with (get_string_or_empty missing x k).
  rewrite !(get_string_ne "Publisher"), !(get_string_ne "InstallSource"), !(get_string_ne "InstallLocation"),
    !(get_string_ne "DisplayIcon"), !(get_string_ne "DisplayVersion") by done.
  rewrite !get_string_required, !decide_True, !decide_False by done. rewrite decide_True by done.
  cbn [mbind result_bind]. f_equal. f_equal.
  all: repeat rewrite get_or_empty_ne by done.
  all: apply get_string_written; rewrite ?get_string_ne by done; reflexivity.
Qed.

(** An installation over an older one keeps the optional values that it does
    not write, here a size of zero. *)
Lemma stale_size :
  let old := mkUninstallData "p" "1" "i" "u" "l" "s" "c" 7 in
  let new := mkUninstallData "p" "2" "i" "u" "l" "s" "c" 0 in
  match (k ← WriteValues no_error old ∅; k ← WriteValues no_error new k; ReadValues missing k) with
  | Ok d => EstimatedSize d = 7%N
  | Err _ => False
  end.
Proof. vm_compute. reflexivity. Qed.
End Facts.

(** What an installation enters is what an uninstallation finds; when it has
    been removed, it is missing. *)
Lemma entry_life Join EscapeArg Version sourceDir destDir exe size root missing :
  root !! UninstallKeyName = None ->
  let u := uninstall_data Join EscapeArg Version sourceDir destDir exe size in
  exists root',
    addUninstallEntry (fun _ => None) None None u root = (None, root')
    /\ getUninstallRegKeys missing None None root' = Ok u
    /\ delUninstallRegKeys missing None None root' = (None, root)
    /\ getUninstallRegKeys missing None None root = Err missing.
Proof.
  intros Hroot u. assert (Hs : (EstimatedSize u < 2 ^ 32)%N).
  { cbn. pose proof (Z.mod_pos_bound (Z.quot size 1024) (2 ^ 32) ltac:(done)). lia. }
  destruct (registry_roundtrip missing u Hs) as (key & Hw & Hr).
  unfold addUninstallEntry, getUninstallRegKeys, delUninstallRegKeys. rewrite Hroot. cbn [default]. rewrite Hw.
  eexists. split; [done|]. rewrite lookup_insert_eq. split_and!; [done| |done].
  by rewrite delete_insert_id.
Qed.

(** Only the entry of the program is touched, whatever fails. *)
Lemma entry_frame set_error missing open_root open_entry delete_entry u root name :
  name <> UninstallKeyName ->
  (addUninstallEntry set_error open_root open_entry u root).2 !! name = root !! name
  /\ (delUninstallRegKeys missing open_root delete_entry root).2 !! name = root !! name.
Proof.
  intros Hn. unfold addUninstallEntry, delUninstallRegKeys. split.
  - destruct open_root, open_entry; try done. destruct (WriteValues _ _ _); cbn; by rewrite lookup_insert_ne.
  - destruct open_root; [done|]. destruct (root !! UninstallKeyName), delete_entry; try done. cbn.
    by rewrite lookup_delete_ne.
Qed.

(** The version passed to [splitVersion] does not matter. *)
Lemma splitVersion_ignores split_dots Atoi Version v1 v2 :
  splitVersion split_dots Atoi Version v1 = splitVersion split_dots Atoi Version v2.
Proof. reflexivity. Qed.
