(* ===== verification/Installer.v ===== *)
(** * The install and uninstall commands (cmd/resourceful/install_windows.go,
      uninstall_windows.go)

    The runs of the commands over the answers of the system: what they ask of
    it, in order, and how they end.  Log output is left out; the values written
    to the registry are those of [Install.v]. *)

From S2P Require Import Prelude GoStrings Install.

(** What a command asks the system to change. *)
Inductive InstallAct :=
| MakeDir (path : string)
| RunUninstaller (command : string)
| DeleteService
| CopyFile (source dest exe : string)
| WriteEntry (data : UninstallData)
| InstallService (path : string) (args : list string)
| RegisterEventLog
| StartService
| RemoveEventLog
| RemoveEntry.

(** How a run ends: [os.Exit(1)], or a return. *)
Inductive Ending := Exits | Returns.

Section Installer.
Context (Join : string -> string -> string) (EscapeArg : string -> string) (Version : string).
(** [filepath.Split] and [cmdlinewindows.SplitCommand]. *)
Context (Split : string -> string * string) (SplitCommand : string -> string * list string).

(** The answers of the system: those that are values, and the errors of calls
    that may fail. *)
Record Answers := mkAnswers {
  an_abs : result string;
  an_programfiles : string;
  an_programdata : string;
  an_open : option error;
  an_size : option Z;
  an_compare : option error;
  an_mkdir_dest : option error;
  an_mkdir_cache : option error;
  an_previous : result UninstallData;
  an_uninstaller : option error;
  an_exists : result bool;
  an_delete : option error;
  an_copy : option error;
  an_entry : option error;
  an_install : option error;
  an_eventlog : option error;
  an_start : option error;
}.

(** The errors of a context. *)
Context (context_error : error -> bool).

Record InstallCmd := mkInstallCmd {
  ic_Server : string;
  ic_Passive : bool;
}.

Definition installDir (a : Answers) : result string :=
  if decide (an_programfiles a = "") then Err "unable to determine ProgramFiles location"
  else Ok (Join (Join (Join (an_programfiles a) "SCJ") "resourceful") Version).
Definition cacheDir (a : Answers) : result string :=
  if decide (an_programdata a = "") then Err "unable to determine ProgramData location"
  else Ok (Join (Join (Join (an_programdata a) "SCJ") "resourceful") "policycache").

(** A call that ends the program when it fails; what has been asked before. *)
Definition or_exit (err : option error) (asked : list InstallAct) (k : Ending * list InstallAct)
  : Ending * list InstallAct :=
  match err with
  | Some _ => (Exits, asked)
  | None => (k.1, asked ++ k.2)
  end.

(** The previous installation is removed by its own command, if that can be
    read and split; its failure is only reported. *)
Definition remove_previous (a : Answers) : list InstallAct :=
  match an_previous a with
  | Err _ => []
  | Ok data => if decide ((SplitCommand (UninstallCommand data)).1 = "") then []
               else [RunUninstaller (UninstallCommand data)]
  end.

(** From the installation of the service on. *)
Definition install_service (cmd : InstallCmd) (a : Answers) (dest exe : string) : Ending * list InstallAct :=
  or_exit (an_install a) [InstallService (Join dest exe) (service_arguments (ic_Server cmd) (ic_Passive cmd))]
    (match an_start a with
     | Some e => if context_error e then (Exits, [RegisterEventLog; StartService])
                 else (Returns, [RegisterEventLog; StartService])
     | None => (Returns, [RegisterEventLog; StartService])
     end).

(** From the copy on; an error of the registry is only reported. *)
Definition install_files (cmd : InstallCmd) (a : Answers) (source dest exe : string) : Ending * list InstallAct :=
  let size := default 0%Z (an_size a) in
  or_exit (an_copy a) [CopyFile source dest exe]
    (let '(e, acts) := install_service cmd a dest exe in
     (e, WriteEntry (uninstall_data Join EscapeArg Version source dest exe size) :: acts)).

Definition replace_service (cmd : InstallCmd) (a : Answers) (source dest exe : string) : Ending * list InstallAct :=
  match an_exists a with
  | Err _ => (Exits, [])
  | Ok true => or_exit (an_delete a) [DeleteService] (install_files cmd a source dest exe)
  | Ok false => install_files cmd a source dest exe
  end.

Definition install_run (cmd : InstallCmd) (a : Answers) : Ending * list InstallAct :=
  match an_abs a with
  | Err _ => (Exits, [])
  | Ok sourcePath =>
      match installDir a with
      | Err _ => (Exits, [])
      | Ok dest =>
          match cacheDir a with
          | Err _ => (Exits, [])
          | Ok cache =>
              let '(source, exe) := Split sourcePath in
              let exe := install_exe exe in
              match an_open a with
              | Some _ => (Exits, [])
              | None =>
                  match an_compare a with
                  | Some _ => (Exits, [])
                  | None =>
                      or_exit (an_mkdir_dest a) [MakeDir dest]
                        (or_exit (an_mkdir_cache a) [MakeDir cache]
                          (let '(e, acts) := replace_service cmd a source dest exe in
                           (e, remove_previous a ++ acts)))
                  end
              end
          end
      end
  end.

(** ** Uninstalling *)

(** [marked]: the error of the deletion is that the service is already marked
    for deletion. *)
Definition uninstall_run (exists_ : result bool) (delete : option error) (marked : error -> bool)
  : Ending * list InstallAct :=
  match exists_ with
  | Err _ => (Exits, [])
  | Ok false => (Returns, [])
  | Ok true =>
      match delete with
      | Some e => if marked e then (Returns, [DeleteService; RemoveEventLog; RemoveEntry])
                  else (Exits, [DeleteService])
      | None => (Returns, [DeleteService; RemoveEventLog; RemoveEntry])
      end
  end.

(** ** Lemmas *)

(** The phases of an installation: an act has a place, and places go up. *)
Definition place (x : InstallAct) : nat :=
  match x with
  | MakeDir _ => 0
  | RunUninstaller _ => 1
  | DeleteService => 2
  | CopyFile _ _ _ => 3
  | WriteEntry _ => 4
  | InstallService _ _ => 5
  | RegisterEventLog => 6
  | StartService => 7
  | RemoveEventLog => 8
  | RemoveEntry => 9
  end.

Definition in_order (l : list InstallAct) : Prop := StronglySorted Nat.le (place <$> l).

(** Every installation of a service follows the copy of its program. *)
Definition installs_well (cmd : InstallCmd) (a : Answers) (acts : list InstallAct) : Prop :=
  Forall (fun x => match x with
    | InstallService path args =>
        args = service_arguments (ic_Server cmd) (ic_Passive cmd)
        /\ an_copy a = None /\ (an_exists a = Ok true -> an_delete a = None /\ DeleteService ∈ acts)
        /\ Exists (fun y => match y with CopyFile _ dest exe => path = Join dest exe | _ => False end) acts
    | _ => True
    end) acts.

Definition run_ok (cmd : InstallCmd) (a : Answers) (r : Ending * list InstallAct) : Prop :=
  in_order r.2 /\ installs_well cmd a r.2 /\ (r.1 = Returns -> an_install a = None /\ StartService ∈ r.2).

#[local] Ltac run_ok_tac :=
  split; [unfold in_order; cbn; repeat constructor; lia|];
  split; [unfold installs_well; repeat (apply Forall_cons; split); try apply Forall_nil; try done;
          split_and!; try done; intros; try congruence; repeat split; try done;
          repeat first [apply Exists_cons_hd; reflexivity|apply Exists_cons_tl
                       |apply list_elem_of_here|apply list_elem_of_further]
         |intros; split; try done; repeat first [apply list_elem_of_here|apply list_elem_of_further]].

(** An installation asks in the order of the places.  When it asks to install
    the service, its program has been copied and a service that existed before
    has been deleted; when it returns, the service is installed and was asked
    to start. *)
Lemma install_protocol cmd a : run_ok cmd a (install_run cmd a).
Proof.
  assert (Hnil : run_ok cmd a (Exits, [])) by (by split; [constructor|split; [constructor|]]).
  unfold install_run. destruct (an_abs a) as [path|]; [|done]. destruct (installDir a) as [dest|]; [|done].
  destruct (cacheDir a) as [cache|]; [|done]. destruct (Split path) as [source exe].
  destruct (an_open a); [done|]. destruct (an_compare a); [done|].
  unfold or_exit at 1. destruct (an_mkdir_dest a); [run_ok_tac|].
  unfold or_exit at 1. destruct (an_mkdir_cache a); [run_ok_tac|].
  assert (Hprev : remove_previous a = [] \/ exists c, remove_previous a = [RunUninstaller c]).
  { unfold remove_previous. destruct (an_previous a) as [data|]; [case_decide; eauto|auto]. }
  unfold replace_service, install_files, install_service, or_exit.
  destruct (an_exists a) as [[]|] eqn:He; [destruct (an_delete a) eqn:Hdel| |];
    try (destruct (an_copy a) eqn:Hcp; [|destruct (an_install a) eqn:Hin; [|destruct (an_start a) as [e|];
           [destruct (context_error e)|]]]);
    destruct Hprev as [->|[c ->]]; cbn; run_ok_tac.
Qed.

(** Uninstalling deletes the service before anything else. *)
Lemma uninstall_protocol exists_ delete marked :
  in_order (uninstall_run exists_ delete marked).2
  /\ (RemoveEntry ∈ (uninstall_run exists_ delete marked).2 ->
        exists_ = Ok true /\ (delete = None \/ exists e, delete = Some e /\ marked e = true)).
Proof.
  unfold uninstall_run. destruct exists_ as [[]|]; [|split; [constructor|by intros ?%not_elem_of_nil]..].
  destruct delete as [e|]; [destruct (marked e) eqn:Hm|]; (split; [unfold in_order; cbn; repeat constructor; lia|]); eauto.
  intros H. apply list_elem_of_singleton in H. done.
Qed.
End Installer.
