(* ===== verification/Commands.v ===== *)
(** * The wiring of the command line (package [main] of cmd/resourceful)

    main.go, environment.go, client.go, policies.go, resolver.go,
    list_windows.go, enforce_windows.go, enforce.go, service.go and
    ui_windows.go: each command as a run over the answers of the system, with
    what it prints or asks for and how it ends.

    The parser of arguments ([kong]), the resolver of service records
    ([serviceresolver]), the console and the event log are third-party or
    system calls: their answers are arguments. *)

From stdpp Require Import pretty.
From S2P Require Import Prelude GoStrings GoTime GoDuration GoFmt GoQuote Lease LeaseSet Policy PolicyProps PolicyCodec EnforcerScan WinUser Invocation Events EnforcerUI Server Client Installer ServiceHandler.

(** How a run ends, other than by its return: [os.Exit(code)]. *)
Inductive Exit := Exited (code : N) | Returned (err : option error) | Running.

(** ** environment.go, client.go, policies.go and resolver.go *)

Definition buildEnvironment (version : string) (hostname : result string) : result Properties :=
  match hostname with
  | Err err => Err ("failed to query local hostname: " +:+ err)
  | Ok hostname => Ok {[ "host.name" := hostname; "client.version" := version ]}
  end.

(** The resolver that a client is made with. *)
Inductive Resolver := StaticEndpoints (endpoints : EndpointSet) | DomainResolver.

Definition newClient (server : string) : Resolver :=
  if decide (server <> "") then StaticEndpoints [server] else DomainResolver.

Definition collectPolicies {Env} `{NE : Net Env} (c : Client) (env : Env) : result PolicySet * Client * Env :=
  let '(response, c, env) := Client_Policies c env in
  match response with
  | Failed err => (Err "failed to collect resourceful policies", c, env)
  | Got response => (Ok (pr_Policies response), c, env)
  end.

(** A service and its addresses, as targets and ports. *)
Definition Resolve (services : result (list (list (string * N)))) : result EndpointSet :=
  match services with
  | Err err => Err ("failed to locate resourceful endpoints: " +:+ err)
  | Ok services =>
      if decide (length services = 0) then Err "unable to detect host domain"
      else Ok (mjoin ((fun addrs =>
        (fun addr => "http://" +:+ TrimSuffix addr.1 "." +:+ ":" +:+ pretty addr.2) <$> addrs) <$> services))
  end.

(** ** list_windows.go *)

Section List.
Context `{WP : WinProcess, GT : GoText} (EqualFold : string -> string -> bool) (sum224 : bytes -> bytes).
(** The text of a process, and the order in which the [n]-th map is ranged
    over. *)
Context (p_String : ProcessData -> string) (orders : nat -> Properties -> list (string * string)).

(** The lines about a process; nothing about one that no policy applies to. *)
Definition list_process (policies : PolicySet) (environment : Properties) (n : nat) (process : ProcessData) : list string :=
  let instance := process_Instance (Properties_get environment "host.name") process (NewInstanceID sum224 process) in
  let props := process_Properties process environment in
  let matches := PolicySet_Match policies props in
  if decide (0 < length matches) then
    [p_String process;
     "  Resource: " +:+ PolicySet_Resource matches;
     "  Instance: " +:+ Instance_String instance;
     "  Limit: " +:+ pretty (PolicySet_Limit matches);
     "  Duration: " +:+ Duration_text (PolicySet_Duration matches)]
    ++ ((fun kv => "  " +:+ kv.1 +:+ ": " +:+ kv.2)
          <$> orders n (MergeProperties [props; PolicySet_Properties matches]))
  else [].

Definition list_run (environment : result Properties) (policies : result PolicySet)
  (winproc_List : (ProcessData -> bool) -> result (list ProcessData)) : list string * Exit :=
  match environment with
  | Err err => (["Failed to collect environment: " +:+ err], Exited 1)
  | Ok environment =>
      match policies with
      | Err err => (["Failed to collect resourceful policies: " +:+ err], Exited 1)
      | Ok policies =>
          match Scan EqualFold winproc_List policies environment with
          | Err err => (["Failed to collect processes: " +:+ err], Exited 1)
          | Ok procs =>
              if decide (length procs = 0) then (["No matching processes."], Exited 0)
              else ("Processes:" :: mjoin (imap (list_process policies environment) procs), Returned None)
          end
      end
  end.

(** A process is listed exactly when a policy applies to it. *)
Lemma matches_pos policies environment process pol :
  pol ∈ policies -> Policy_Match pol (process_Properties process environment) = true ->
  0 < length (PolicySet_Match policies (process_Properties process environment)).
Proof.
  intros Hpol Hm.
  assert (Hin : pol ∈ PolicySet_Match policies (process_Properties process environment)).
  { unfold PolicySet_Match. apply list_elem_of_filter. split; [|done]. by apply Is_true_true. }
  destruct (PolicySet_Match _ _); [by apply not_elem_of_nil in Hin|cbn; lia].
Qed.

Lemma list_process_matches policies environment n process :
  list_process policies environment n process <> [] ->
  exists pol, pol ∈ policies /\ Policy_Match pol (process_Properties process environment) = true.
Proof.
  unfold list_process. case_decide as Hl; [|done]. intros _.
  destruct (PolicySet_Match policies _) as [|pol l] eqn:Hm; [cbn in Hl; lia|].
  exists pol. assert (Hin : pol ∈ pol :: l) by (left).
  rewrite <-Hm in Hin. apply list_elem_of_filter in Hin as [Hp Hin]. split; [done|]. by apply Is_true_true.
Qed.

(** What is listed, when processes are found. *)
Lemma list_run_output environment policies winproc_List procs :
  Scan EqualFold winproc_List policies environment = Ok procs -> procs <> [] ->
  list_run (Ok environment) (Ok policies) winproc_List
  = ("Processes:" :: mjoin (imap (list_process policies environment) procs), Returned None).
Proof. intros Hs Hp. unfold list_run. rewrite Hs, decide_False; [done|]. by intros ?%nil_length_inv. Qed.

(** C34. The list command misses no process.  A filter may be applied before
    all the data of a process is known: [view p] is what is known then.  If a
    policy applies to a process that runs, if the criteria of the policy only
    use properties that are known by then and are read alike by filters and
    policies, and if the system can list its processes at all, the command
    returns without an error, and it prints the process together with the
    resource that the policies select for it, their limit and their duration;
    whatever process it prints, a policy applies to. *)
Theorem list_complete (winproc_List : (ProcessData -> bool) -> result (list ProcessData))
    (runs : ProcessData -> Prop) (view : ProcessData -> ProcessData) policies environment pol p procs :
  (forall f l, winproc_List f = Ok l -> forall q, q ∈ l <-> runs q /\ f (view q) = true) ->
  pol ∈ policies -> runs p -> Policy_Match pol (process_Properties p environment) = true ->
  Forall (fun c => scannable EqualFold c (Properties_get (process_Properties p environment) (crit_Key c))
    /\ Properties_get (process_Properties (view p) environment) (crit_Key c)
       = Properties_get (process_Properties p environment) (crit_Key c)) (pol_Criteria pol) ->
  Scan EqualFold winproc_List policies environment = Ok procs ->
  let matches q := PolicySet_Match policies (process_Properties q environment) in
  exists before after n,
    list_run (Ok environment) (Ok policies) winproc_List
    = (before ++ list_process policies environment n p ++ after, Returned None)
    /\ (exists rest, list_process policies environment n p
         = [p_String p; "  Resource: " +:+ PolicySet_Resource (matches p);
            "  Instance: " +:+ Instance_String (process_Instance (Properties_get environment "host.name") p
                                                 (NewInstanceID sum224 p));
            "  Limit: " +:+ pretty (PolicySet_Limit (matches p));
            "  Duration: " +:+ Duration_text (PolicySet_Duration (matches p))] ++ rest)
    /\ (forall m q, list_process policies environment m q <> [] ->
         exists pol', pol' ∈ policies /\ Policy_Match pol' (process_Properties q environment) = true).
Proof.
  intros Hlist Hpol Hrun Hm Hc Hs matches.
  assert (Hp : p ∈ procs) by (by apply (scan_complete EqualFold winproc_List runs view policies environment pol)).
  rewrite (list_run_output environment policies winproc_List procs Hs)
    by (intros ->; by apply not_elem_of_nil in Hp).
  apply list_elem_of_split in Hp as (before & after & ->).
  eexists ("Processes:" :: mjoin (imap (list_process policies environment) before)), _, (length before + 0).
  split; [|split].
  - rewrite imap_app, join_app. cbn [imap]. done.
  - unfold list_process. rewrite decide_True by (by apply (matches_pos policies environment p pol)).
    by eexists.
  - intros m q Hq. apply (list_process_matches policies environment m q Hq).
Qed.
End List.

(** ** list_unix.go

    The processes, by their names and IDs, are listed by a third-party
    package. *)

Definition unix_Properties (host : string) (p : string * Z) : Properties :=
  {[ "program.name" := p.1; "process.id" := pretty p.2; "host.name" := host ]}.

Definition list_unix_run `{GoText} (hostname : result string) (policies : result PolicySet)
  (procs : result (list (string * Z))) : list string * Exit :=
  match hostname with
  | Err err => (["Failed to query local hostname: " +:+ err], Exited 1)
  | Ok host =>
      match policies with
      | Err err => (["Failed to collect resourceful policies: " +:+ err], Exited 1)
      | Ok policies =>
          match procs with
          | Err err => (["Failed to retrieve process list: " +:+ err], Exited 2)
          | Ok procs =>
              if decide (length procs = 0) then (["No matching processes."], Exited 0)
              else ("Matching processes:"
                    :: ((fun p => "  " +:+ p.1)
                          <$> filter (fun p => 0 < length (PolicySet_Match policies (unix_Properties host p))) procs),
                    Returned None)
          end
      end
  end.

(** ** enforce.go, service.go and enforce_windows.go *)

Record EnforceCmd := mkEnforceCmd { ec_Server : string; ec_Passive : bool; ec_Debug : bool }.
Definition EnforceCmd_Config (cmd : EnforceCmd) : EnforceConfig := mkEnforceConfig (ec_Server cmd) (ec_Passive cmd).

(** [service.go] has a second type for the arguments of the service. *)
Record ServiceCmd := mkServiceCmd { sc_Server : string; sc_Passive : bool; sc_Debug : bool }.
Definition ServiceCmd_Config (cmd : ServiceCmd) : EnforceConfig := mkEnforceConfig (sc_Server cmd) (sc_Passive cmd).

(** What a run asks for: the making of an enforcement service with its
    arguments, its start and stop, and the end of the context. *)
Inductive EnforceAct :=
| OpenCache (dir : string)
| MakeService (client : Resolver) (enforcement policy : Duration) (ui : string * list string)
    (environment : Properties) (cache : option string) (passive : bool)
| StartIt | AwaitDone | StopIt | CloseCache.

Definition enforce_run (cmd : EnforceCmd) (executable : result string) (environment : result Properties)
  (polDir : result string) : list string * list EnforceAct * Exit :=
  let client := newClient (ec_Server cmd) in
  match executable with
  | Err err => (["Failed to query executable: " +:+ err], [], Exited 1)
  | Ok executable =>
      match environment with
      | Err err => (["Failed to collect environment: " +:+ err], [], Exited 1)
      | Ok environment =>
          match polDir with
          | Err err => (["Failed to locate cache directory: " +:+ err], [], Exited 1)
          | Ok polDir =>
              let cache := if decide (polDir <> "") then Some polDir else None in
              let opened := match cache with Some dir => [OpenCache dir] | None => [] end in
              let closed := match cache with Some _ => [CloseCache] | None => [] end in
              ([], opened ++ [MakeService client Second Minute (executable, ["ui"]) environment cache (ec_Passive cmd);
                              StartIt; AwaitDone; StopIt] ++ closed, Returned None)
          end
      end
  end.

(** The run of the program as a service: what it writes to the event log, as
    pairs of an ID and a text, and the handler that it runs; [None]: the event
    log cannot be opened. *)
Definition runServiceHandler (version : string) (parsed : result EnforceCmd) (zero : EnforceCmd) (elog : option error)
  (run : Handler -> option error) : option (list (N * string) * Handler) :=
  match elog with
  | Some _ => None
  | None =>
      let name := "Resourceful Enforcer" in
      let handler := mkHandler name
        (EnforceCmd_Config (match parsed with Ok cmd => cmd | Err _ => zero end))
        (match parsed with Ok _ => None | Err err => Some err end) in
      Some ([(ServiceEventID, "Starting " +:+ name +:+ " service version " +:+ version +:+ ".")]
            ++ (match run handler with
                | Some err => [(ServiceEventID, "Error running service: " +:+ err)]
                | None => []
                end)
            ++ [(ServiceEventID, "Stopped " +:+ name +:+ " service version " +:+ version +:+ ".")], handler)
  end.

(** ** ui_windows.go *)

(** What a read of standard input returns: a message, its end, or an error. *)
Inductive ReadResult := GotMessage (msg : Message) | ReadEOF | ReadError (err : error).

(** The loop over what is read, until now. *)
Fixpoint ui_reads (reads : list ReadResult) (ui : UI) : UI * Exit :=
  match reads with
  | [] => (ui, Running)
  | GotMessage msg :: reads => ui_reads reads (EnforcerUI.Handle msg ui)
  | ReadEOF :: _ => (ui, Returned None)
  | ReadError _ :: _ => (ui, Exited 3)
  end.

(** Only a return runs what was deferred, such as the closing of the
    interface. *)
Definition ui_run (name version : string) (icon create : option error) (reads : list ReadResult) : option UI * Exit :=
  match icon with
  | Some _ => (None, Exited 1)
  | None =>
      match UI_New name version create with
      | Err _ => (None, Exited 2)
      | Ok ui =>
          let '(ui, ending) := ui_reads reads ui in
          match ending with
          | Returned err => (Some (UI_Close ui).2, ending)
          | _ => (Some ui, ending)
          end
      end
  end.

(** ** main.go *)

(** The commands of the program. *)
Inductive Command := CmdList | CmdInstall | CmdUninstall | CmdEnforce | CmdGuardian | CmdUI.

(** Whether the program was started as a service decides first; [FatalIfErrorf]
    exits with code 1. *)
Definition main (isService : result bool) (parsed : result Command) (runs : Command -> Exit) : option Command * Exit :=
  match isService with
  | Err _ => (None, Exited 1)
  | Ok true => (None, Exited 0)
  | Ok false =>
      match parsed with
      | Err _ => (None, Exited 1)
      | Ok cmd =>
          (Some cmd, match runs cmd with
                     | Returned (Some _) => Exited 1
                     | Returned None => Returned None
                     | ending => ending
                     end)
      end
  end.

(** ** Lemmas *)

(** What a user interface agent shows when its input ends is what its messages
    say, and its tray is closed. *)
Lemma ui_reads_messages msgs ui :
  ui_reads (GotMessage <$> msgs) ui = (foldl (fun u msg => EnforcerUI.Handle msg u) ui msgs, Running)
  /\ ui_reads ((GotMessage <$> msgs) ++ [ReadEOF]) ui
     = (foldl (fun u msg => EnforcerUI.Handle msg u) ui msgs, Returned None).
Proof. revert ui. induction msgs as [|m msgs IH]; intros ui; cbn; [done|apply IH]. Qed.

Lemma ui_run_closes name version msgs :
  exists ui, ui_run name version None None ((GotMessage <$> msgs) ++ [ReadEOF]) = (Some ui, Returned None)
    /\ ui_tray ui = None.
Proof.
  unfold ui_run. destruct (UI_New name version None) as [ui|] eqn:Hn; [|by vm_compute in Hn].
  rewrite (proj2 (ui_reads_messages msgs ui)). eexists. split; [done|].
  unfold UI_Close. by case_match.
Qed.

(** Every run of the enforce command that starts the service stops it when its
    context ends, and closes the cache that it opened, last. *)
Lemma enforce_run_stops cmd executable environment polDir :
  let '(_, acts, ending) := enforce_run cmd executable environment polDir in
  (acts = [] /\ ending = Exited 1)
  \/ (ending = Returned None
      /\ exists before service after,
           acts = before ++ [service; StartIt; AwaitDone; StopIt] ++ after
           /\ (forall dir, OpenCache dir ∈ before -> after = [CloseCache])).
Proof.
  unfold enforce_run. destruct executable, environment, polDir; try (by left); right. split; [done|].
  case_decide.
  - eexists [_], _, [_]. split; [done|]. done.
  - eexists [], _, []. split; [done|]. by intros dir ?%not_elem_of_nil.
Qed.

(** An endpoint is resolved for every address of every service. *)
Lemma Resolve_length services eps :
  Resolve (Ok services) = Ok eps -> length eps = sum_list (length <$> services).
Proof.
  unfold Resolve. case_decide; [done|]. intros [= <-]. clear. induction services as [|a services IH]; cbn; [done|].
  rewrite length_app, length_fmap. f_equal. exact IH.
Qed.

Lemma resolves :
  Resolve (Ok [[("guardian.example.com.", 5877%N)]]) = Ok ["http://guardian.example.com:5877"].
Proof. reflexivity. Qed.

(** ** Witness *)

Lemma list_complete_witness :
  exists before after n,
    list_run (WP := named_process) (GT := ascii_text) ascii_fold (fun b => b) (fun p => p)
      (fun _ m => map_to_list m) (Ok ∅) (Ok [cad_policy]) list_two
    = (before ++ list_process (WP := named_process) (GT := ascii_text) (fun b => b) (fun p => p)
                   (fun _ m => map_to_list m) [cad_policy] ∅ n "cad.exe" ++ after, Returned None).
Proof.
  destruct (list_complete (WP := named_process) (GT := ascii_text) ascii_fold (fun b => b) (fun p => p)
    (fun _ m => map_to_list m) list_two (fun p => p ∈ ["cad.exe"; "notes.exe"])
    (fun p => p) [cad_policy] ∅ cad_policy "cad.exe" ["cad.exe"]) as (before & after & n & H & _).
  - unfold list_two. intros f l' [= <-] q. rewrite list_elem_of_filter. tauto.
  - left.
  - left.
  - vm_compute. reflexivity.
  - apply Forall_cons_2; [|apply Forall_nil_2]. split; [|reflexivity]. split.
    + intros _ _. vm_compute. reflexivity.
    + intros H. discriminate H.
  - reflexivity.
  - exists before, after, n. exact H.
Defined.
