(* ===== verification/Console.v ===== *)
(** * The console (console_windows.go, console.go), icons and other systems

    The standard handles and files of the process as the commands prepare them,
    over the answers of the system calls; the icons; and the commands as they
    are built for systems other than Windows. *)

From S2P Require Import Prelude GoTime Lease LeaseUI Commands.

(** ** System calls

    A call fails when it returns zero; the error that it reports is printed. *)
Definition attachConsole (call : result unit) : option error :=
  match call with Ok _ => None | Err e0 => Some ("could not attach console: " +:+ e0) end.
Definition allocConsole (call : result unit) : option error :=
  match call with Ok _ => None | Err e0 => Some ("could not allocate console: " +:+ e0) end.
Definition freeConsole (call : result unit) : option error :=
  match call with Ok _ => None | Err e0 => Some ("could not free console: " +:+ e0) end.

(** ** The standard files *)

Inductive StdHandle := StdInput | StdOutput | StdError.

(** [std_Logs] is where the log is written; the files are known by their
    handles.  [std_Printed] is what [fmt.Println] has written, with the file. *)
Record StdFiles := mkStdFiles {
  std_In : N;
  std_Out : N;
  std_Err : N;
  std_Logs : N;
  std_Printed : list (N * string);
}.

Definition print_line (text : string) (files : StdFiles) : StdFiles :=
  mkStdFiles (std_In files) (std_Out files) (std_Err files) (std_Logs files)
    (std_Printed files ++ [(std_Out files, text)]).

(** [bindOutput]: the files are replaced when all three handles are known. *)
Definition bindOutput (GetStdHandle : StdHandle -> result N) (files : StdFiles) : option error * StdFiles :=
  match GetStdHandle StdOutput with
  | Err err => (Some err, files)
  | Ok hout =>
      match GetStdHandle StdInput with
      | Err err => (Some err, files)
      | Ok hin =>
          match GetStdHandle StdError with
          | Err err => (Some err, files)
          | Ok herr => (None, mkStdFiles hin hout herr hout (std_Printed files))
          end
      end
  end.

(** The parameter of [prepareConsole] is not used, and the error of
    [bindOutput] is discarded. *)
Definition prepareConsole (attach : bool) (attach_call alloc_call : result unit)
  (GetStdHandle : StdHandle -> result N) (files : StdFiles) : option error * StdFiles :=
  match attachConsole attach_call with
  | None => (None, print_line "" (bindOutput GetStdHandle files).2)
  | Some _ =>
      match allocConsole alloc_call with
      | None => (None, (bindOutput GetStdHandle files).2)
      | Some err => (Some err, files)
      end
  end.

(** [console.go], for other systems. *)
Definition unix_prepareConsole (attach : bool) (files : StdFiles) : StdFiles := files.
Definition unix_freeConsole : option error := None.

(** ** Icons *)

Definition IconResourceID : N := 2.

Inductive Icon := ResourceIcon (id : N) | InformationIcon | PlaceholderIcon.
Definition DefaultIcon : Icon := InformationIcon.
Definition unix_DefaultIcon : Icon := PlaceholderIcon.

Definition programIcon (load : N -> option error) : Icon :=
  match load IconResourceID with
  | Some _ => DefaultIcon
  | None => ResourceIcon IconResourceID
  end.

(** [runner.Run] sees to the icon of its configuration. *)
Definition runner_icon (icon : option Icon) : Icon := default DefaultIcon icon.

(** ** The commands on other systems *)

Definition unix_command (cmd : Command) : option error :=
  match cmd with
  | CmdEnforce => Some "the resourceful policy enforcer can only be run on windows"
  | CmdInstall | CmdUninstall => Some "the resourceful enforcement service can only be installed on windows"
  | CmdUI => Some "the resourceful ui can only be run on windows"
  | CmdList | CmdGuardian => None
  end.

Definition unix_runServiceHandler : list string * Exit :=
  (["The resourceful policy enforcer can only be run on windows."], Exited 1).

(** ** The dialogs on other systems (lease/leaseui/manager_linux.go)

    The select of a turn finds that the turn has ended or that the manager has
    been updated; then the dialog waits for the end of the turn and calls the
    callback, which is a null pointer if there is none. *)
Definition unix_turn (d : Directive) (ended_first : bool) : outcome (option (Callback * UIType * UIResult)) :=
  if ended_first then Ret None
  else match dir_Callback d with
       | Some cb => Ret (Some (cb, dir_Type d, Success))
       | None => Panic "invalid memory address or nil pointer dereference"
       end.

(** The turns of a run, until one panics. *)
Fixpoint unix_turns (l : list (Directive * bool)) : outcome (list (option (Callback * UIType * UIResult))) :=
  match l with
  | [] => Ret []
  | (d, ended_first) :: l =>
      r ← unix_turn d ended_first;
      rs ← unix_turns l;
      Ret (r :: rs)
  end.

(** ** Lemmas *)

Lemma prepareConsole_ignores attach attach' ac al g files :
  prepareConsole attach ac al g files = prepareConsole attach' ac al g files.
Proof. reflexivity. Qed.

(** The standard files are those of a console just when there is one and the
    three handles are known; otherwise they are left alone, even if no error is
    returned. *)
Lemma prepareConsole_binds attach ac al g files hin hout herr :
  g StdInput = Ok hin -> g StdOutput = Ok hout -> g StdError = Ok herr ->
  let '(err, files') := prepareConsole attach ac al g files in
  (err = None <-> is_Ok ac \/ is_Ok al)
  /\ (err = None -> std_In files' = hin /\ std_Out files' = hout /\ std_Err files' = herr /\ std_Logs files' = hout)
  /\ (err <> None -> files' = files).
Proof.
  intros Hi Ho He. unfold prepareConsole, bindOutput. rewrite Hi, Ho, He.
  unfold is_Ok.
  destruct ac as [[]|e1]; cbn; [|destruct al as [[]|e2]; cbn]; (split; [|by split]); split; eauto; try done.
  by intros [[? ?]|[? ?]].
Qed.

Lemma prepareConsole_unbound attach ac al g files err :
  g StdOutput = Err err -> is_Ok ac \/ is_Ok al ->
  let '(e, files') := prepareConsole attach ac al g files in
  e = None /\ std_Out files' = std_Out files /\ std_Logs files' = std_Logs files.
Proof.
  intros Ho Hc. unfold prepareConsole, bindOutput. rewrite Ho. destruct ac, al; try done.
  by destruct Hc as [[? ?]|[? ?]].
Qed.

(** The first turn of a run has no callback: unless it has ended before the
    manager is updated, the run panics, and so it does when a lease has been
    acquired, which ends the dialogs. *)
Lemma unix_turns_panic l l' d :
  Forall (fun x : Directive * bool => x.2 = true) l -> dir_Callback d = None ->
  unix_turns (l ++ (d, false) :: l') = Panic "invalid memory address or nil pointer dereference".
Proof.
  intros Hl Hd. induction Hl as [|[d' e] l He _ IH]; cbn in *; [unfold unix_turn; by rewrite Hd|].
  subst e. cbn. by rewrite IH.
Qed.

(** Only the guardian and the list run on other systems. *)
Lemma unix_command_runs cmd : unix_command cmd = None <-> cmd = CmdList \/ cmd = CmdGuardian.
Proof. destruct cmd; cbn; naive_solver. Qed.
