(* ===== verification/Stats.v ===== *)
(** * Statistics (cmd/resourceful/stats.go and stathat.go)

    The manager collects the consumption of every resource and user and sends
    it to a recipient, an interface ([StatRecipient]) whose law says what the
    recipient shows last.  Collecting is a program over the providers, as the
    handlers of the server are.  Go ranges over maps in an order that is an
    argument here. *)

From stdpp Require Import pretty.
From S2P Require Import Prelude GoStrings GoTime Lease LeaseSet Tx LeaseUtil Refresh Policy Provider Program.

(** ** The data *)

Abbreviation UserStatsMap := (gmap string N) (only parsing).

Record ResourceStats := mkResourceStats {
  rs_Time : Time;
  rs_Consumed : N;
  rs_Limit : N;
  rs_Active : N;
  rs_Released : N;
  rs_Queued : N;
  rs_Users : UserStatsMap;
}.

Abbreviation ResourceStatsMap := (gmap string ResourceStats) (only parsing).

(** [UserStatsMap.Contains] *)
Definition UserStats_Contains (m : UserStatsMap) (user : string) : bool := bool_decide (is_Some (m !! user)).

Definition set_users (users : UserStatsMap) (s : ResourceStats) : ResourceStats :=
  mkResourceStats (rs_Time s) (rs_Consumed s) (rs_Limit s) (rs_Active s) (rs_Released s) (rs_Queued s) users.

(** [last] is nil until the first collection. *)
Record StatManager := mkStatManager { sm_last : ResourceStatsMap }.

Definition NewStatManager : StatManager := mkStatManager ∅.

Class StatRecipient (R : Type) := {
  SendResource : string -> ResourceStats -> R -> option error * R;
  SendUser : string -> string -> N -> Time -> R -> option error * R;
}.

(** ** collect *)

Section Collect.
Context `{SO : Sorter} (range_users : UserStatsMap -> list (string * N)).

(** The user accounts of the users; of two users with the same account the
    later one counts. *)
Definition account_turn (leases : LeaseSet) (users : UserStatsMap) (e : string * N) : UserStatsMap :=
  let '(user, count) := e in
  match Set_Property (Set_User leases user) ["user.account"] with
  | name :: _ => <[name := count]> users
  | [] => <[user := count]> users
  end.

(** The statistics of one resource. *)
Definition resource_stats (now : Time) (strat : Strategy) (limit : N) (leases : LeaseSet) : outcome ResourceStats :=
  let data := Set_Stats leases in
  by_user ← Stats_Users data strat;
  let users := foldl (account_turn leases) ∅ (range_users by_user) in
  consumed ← Stats_Consumed data strat;
  active ← Stats_Active data strat;
  released ← Stats_Released data strat;
  queued ← Stats_Queued data strat;
  Ret (mkResourceStats now consumed limit active released queued users).

Definition refreshed_leases (refresh : bool) (resource : string) (revision : N) (leases : LeaseSet) (now : Time)
  : outcome LeaseSet :=
  if refresh then
    '(_, tx) ← Refresh (NewTx resource revision leases) now;
    Ret (tx_leases tx)
  else Ret leases.

Fixpoint collect_loop (policies : PolicySet) (refresh : bool) (resources : list string)
  (stats : ResourceStatsMap) : prog (result ResourceStatsMap) :=
  match resources with
  | [] => Done (Ok stats)
  | resource :: resources =>
      let policies' := PolicySet_MatchResource policies resource in
      let strat := PolicySet_Strategy policies' in
      let limit := PolicySet_Limit policies' in
      now ← Now;
      view ← View resource;
      match view with
      | Err err => Done (Err err)
      | Ok (revision, leases) =>
          leases ← lift (refreshed_leases refresh resource revision leases now);
          s ← lift (resource_stats now strat limit leases);
          collect_loop policies refresh resources (<[resource := s]> stats)
      end
  end.

Definition collect (refresh : bool) : prog (result ResourceStatsMap) :=
  policies ← Policies;
  match policies with
  | Err err => Done (Err err)
  | Ok policies =>
      resources ← Resources;
      match resources with
      | Err err => Done (Err err)
      | Ok resources => collect_loop policies refresh resources ∅
      end
  end.

Definition Init (m : StatManager) : prog (option error * StatManager) :=
  stats ← collect false;
  match stats with
  | Err err => Done (Some err, m)
  | Ok stats => Done (None, mkStatManager stats)
  end.
End Collect.

(** ** CollectAndSend *)

Section Send.
Context {R : Type} `{SR : StatRecipient R}.
Context (range_stats : ResourceStatsMap -> list (string * ResourceStats)).
Context (range_users : UserStatsMap -> list (string * N)).

(** A resource that is no longer present, with all its users at zero. *)
Definition removal_of (last : ResourceStats) : ResourceStats :=
  mkResourceStats zero_time 0 (rs_Limit last) 0 0 0 ((fun _ => 0%N) <$> rs_Users last).

(** A user of the last statistics who is no longer active. *)
Definition zero_turn (users : UserStatsMap) (e : string * N) : UserStatsMap :=
  let '(user, count) := e in
  if decide (count = 0%N) then users
  else if decide (is_Some (users !! user)) then users
  else <[user := 0%N]> users.

Fixpoint expire_loop (l : list (string * ResourceStats)) (current : ResourceStatsMap) (r : R)
  : option error * ResourceStatsMap * R :=
  match l with
  | [] => (None, current, r)
  | (resource, last) :: l =>
      match current !! resource with
      | None =>
          match SendResource resource (removal_of last) r with
          | (Some err, r) => (Some ("failed to remove expired stats for " +:+ resource +:+ ": " +:+ err), current, r)
          | (None, r) => expire_loop l current r
          end
      | Some stats =>
          let users := foldl zero_turn (rs_Users stats) (range_users (rs_Users last)) in
          expire_loop l (<[resource := set_users users stats]> current) r
      end
  end.

(** A user who was absent gets a zero first; an error is ignored. *)
Definition appear_turn (last : ResourceStatsMap) (resource : string) (current : ResourceStats) (r : R)
  (e : string * N) : R :=
  let '(user, _) := e in
  let known := match last !! resource with
               | Some last => UserStats_Contains (rs_Users last) user
               | None => false
               end in
  if (known : bool) then r
  else (SendUser resource user 0 (Time_Add (rs_Time current) (- Minute)%Z) r).2.

Definition appear_loop (last : ResourceStatsMap) (l : list (string * ResourceStats)) (r : R) : R :=
  foldl (fun r '(resource, current) => foldl (appear_turn last resource current) r (range_users (rs_Users current))) r l.

Fixpoint send_loop (l : list (string * ResourceStats)) (r : R) : option error * R :=
  match l with
  | [] => (None, r)
  | (resource, stats) :: l =>
      match SendResource resource stats r with
      | (Some err, r) => (Some ("failed to send stats for " +:+ resource +:+ ": " +:+ err), r)
      | (None, r) => send_loop l r
      end
  end.

(** What follows the collection of the current values. *)
Definition send_stats (current : ResourceStatsMap) (m : StatManager) (r : R) : option error * StatManager * R :=
  let '(err, current, r) := expire_loop (range_stats (sm_last m)) current r in
  match err with
  | Some err => (Some err, m, r)
  | None =>
      let r := appear_loop (sm_last m) (range_stats current) r in
      match send_loop (range_stats current) r with
      | (Some err, r) => (Some err, m, r)
      | (None, r) => (None, mkStatManager current, r)
      end
  end.

Definition CollectAndSend `{SO : Sorter} (m : StatManager) (r : R) : prog (option error * StatManager * R) :=
  current ← collect range_users true;
  match current with
  | Err err => Done (Some err, m, r)
  | Ok current => Done (send_stats current m r)
  end.
End Send.

(** ** StatHat *)

Section StatHat.
(** The state of the service, and a post to it: a name, a value and a time. *)
Context {R : Type} (PostEZ : string -> N -> Time -> R -> option error * R) (name_prefix : string).

(** At most three attempts. *)
Fixpoint send_attempts (n : nat) (name : string) (value : N) (t : Time) (err : option error) (r : R)
  : option error * R :=
  match n with
  | 0 => (err, r)
  | S n =>
      match PostEZ name value t r with
      | (None, r) => (None, r)
      | (Some err, r) => send_attempts n name value t (Some err) r
      end
  end.

Definition stathat_send (resource name : string) (value : N) (t : Time) (r : R) : option error * R :=
  send_attempts 3 (name_prefix +:+ " " +:+ resource +:+ " " +:+ name) value t None r.

Definition stathat_SendUser (resource user : string) (count : N) (t : Time) (r : R) : option error * R :=
  stathat_send resource ("user " +:+ user) count t r.

Fixpoint stathat_values (resource : string) (l : list (string * N)) (t : Time) (r : R) : option error * R :=
  match l with
  | [] => (None, r)
  | (name, value) :: l =>
      match stathat_send resource name value t r with
      | (Some err, r) => (Some err, r)
      | (None, r) => stathat_values resource l t r
      end
  end.

Definition stathat_SendResource (range_users : UserStatsMap -> list (string * N)) (resource : string)
  (stats : ResourceStats) (r : R) : option error * R :=
  match stathat_values resource [("consumed", rs_Consumed stats); ("limit", rs_Limit stats); ("active", rs_Active stats);
          ("released", rs_Released stats); ("queued", rs_Queued stats)] (rs_Time stats) r with
  | (Some err, r) => (Some err, r)
  | (None, r) =>
      (None, foldl (fun r '(user, count) =>
               if decide (user <> "") then (stathat_SendUser resource user count (rs_Time stats) r).2 else r)
             r (range_users (rs_Users stats)))
  end.

(** [StatHatRecipient] *)
Definition stathat_recipient (range_users : UserStatsMap -> list (string * N)) : StatRecipient R := {|
  SendResource := stathat_SendResource range_users;
  SendUser := stathat_SendUser;
|}.
End StatHat.
