(* ===== verification/StatsProps.v ===== *)
(** * What the statistics show *)

From S2P Require Import Prelude GoStrings GoTime Lease LeaseSet Tx LeaseUtil Refresh Policy Provider Program Stats.

(** ** The recipient

    A recipient is told values of users; it reports whether a send has failed,
    though [SendResource] may succeed although it failed for some users.  The
    law is about the resources that the recipient tells apart and leaves the
    empty user open, whose values a recipient may ignore. *)

(** What has become of the values of a user: the value sent last, whether that
    send has failed, and the value that is recorded. *)
Record UserStatus := mkUserStatus { told : option N; failed : bool; shown : option N }.

(** The value was sent, and it is recorded unless that has failed. *)
Definition sent_value (c : N) (st : UserStatus) : Prop :=
  told st = Some c /\ (failed st = false -> shown st = Some c).

Definition updated (o : option N) (st st' : UserStatus) : Prop :=
  match o with Some c => sent_value c st' | None => st' = st end.

Class StatRecipientSpec (R : Type) (SR : StatRecipient R) := {
  tells_apart : string -> Prop;
  status : R -> string -> string -> UserStatus;
  SendUser_spec resource user count t r :
    tells_apart resource ->
    let '(err, r') := SendUser resource user count t r in
    sent_value count (status r' resource user)
    /\ failed (status r' resource user) = bool_decide (err <> None)
    /\ forall res u, tells_apart res -> (res, u) <> (resource, user) -> status r' res u = status r res u;
  SendResource_spec resource stats r :
    tells_apart resource ->
    let '(err, r') := SendResource resource stats r in
    forall res u, tells_apart res -> u <> "" ->
      let o := if decide (res = resource) then rs_Users stats !! u else None in
      updated o (status r res u) (status r' res u)
      \/ (err <> None /\ status r' res u = status r res u);
}.

Section Facts.
Context {R : Type} `{SR : StatRecipient R, SRS : !StatRecipientSpec R SR}.
Context (range_stats : ResourceStatsMap -> list (string * ResourceStats)).
Context (range_users : UserStatsMap -> list (string * N)).
Context (range_stats_perm : forall m, range_stats m ≡ₚ map_to_list m).
Context (range_users_perm : forall m, range_users m ≡ₚ map_to_list m).

(** The count of a user, zero for one who is absent. *)
Definition count_of (m : ResourceStatsMap) (resource user : string) : N :=
  match m !! resource with
  | Some s => default 0%N (rs_Users s !! user)
  | None => 0%N
  end.



Lemma updated_trans o1 o2 st1 st2 st3 :
  updated o1 st1 st2 -> updated o2 st2 st3 ->
  updated (match o2 with Some c => Some c | None => o1 end) st1 st3.
Proof. destruct o2; [done|]. cbn. by intros ? ->. Qed.


(** *** Expiration *)





(** *** Sending *)



End Facts.

(** ** The property *)


(** ** StatHat

    The recipient of the program keeps the law, whatever becomes of its posts:
    of the service it needs that a successful post records the value under the
    name and that a post changes no other name.  Next to the state of the
    service, the last post under each name and whether it failed is kept. *)

Class StatHatService {S : Type} (PostEZ : string -> N -> Time -> S -> option error * S) := {
  value_of : S -> string -> option N;
  PostEZ_spec name v t s :
    let '(err, s') := PostEZ name v t s in
    (err = None -> value_of s' name = Some v)
    /\ forall other, other <> name -> value_of s' other = value_of s other;
}.

Section StatHatRecipient.
Context {S : Type} (PostEZ : string -> N -> Time -> S -> option error * S) `{SH : !StatHatService PostEZ}.
Context (name_prefix : string) (range_users : UserStatsMap -> list (string * N)).
Context (range_users_perm : forall m, range_users m ≡ₚ map_to_list m).

Abbreviation Posted := (S * gmap string (N * bool))%type (only parsing).

Definition post (name : string) (v : N) (t : Time) (p : Posted) : option error * Posted :=
  let '(err, s) := PostEZ name v t p.1 in (err, (s, <[name := (v, bool_decide (err <> None))]> p.2)).

Definition name_status (p : Posted) (name : string) : UserStatus :=
  match p.2 !! name with
  | Some (v, f) => mkUserStatus (Some v) f (value_of p.1 name)
  | None => mkUserStatus None false (value_of p.1 name)
  end.

(** The name under which a value is posted. *)
Definition stat_name (resource name : string) : string := name_prefix +:+ " " +:+ resource +:+ " " +:+ name.
Definition user_name (resource user : string) : string := stat_name resource ("user " +:+ user).

Lemma stat_name_inj r1 n1 r2 n2 :
  no_space r1 -> no_space r2 -> stat_name r1 n1 = stat_name r2 n2 -> r1 = r2 /\ n1 = n2.
Proof.
  unfold no_space, stat_name. intros H1 H2 H.
  apply (f_equal String.list_ascii_of_string) in H. rewrite !list_ascii_app in H.
  apply app_inv_head, app_inv_head in H. cbn in H.
  apply split_at_space in H as [Hr Hn]; [|done..]. split; by apply Policy.list_ascii_inj.
Qed.

Lemma user_name_inj r1 u1 r2 u2 :
  no_space r1 -> no_space r2 -> user_name r1 u1 = user_name r2 u2 -> (r1, u1) = (r2, u2).
Proof.
  intros H1 H2 [-> H]%stat_name_inj; [|done..]. apply (f_equal String.list_ascii_of_string) in H.
  rewrite !list_ascii_app in H. apply app_inv_head, Policy.list_ascii_inj in H. by rewrite H.
Qed.

(** What a post, or several of them, make of the names. *)
Definition posted (name : string) (v : N) (err : option error) (p p' : Posted) : Prop :=
  sent_value v (name_status p' name)
  /\ failed (name_status p' name) = bool_decide (err <> None)
  /\ forall other, other <> name -> name_status p' other = name_status p other.

Lemma post_spec name v t p :
  let '(err, p') := post name v t p in posted name v err p p'.
Proof using Type.
  unfold post. pose proof (PostEZ_spec name v t p.1) as H.
  destruct (PostEZ name v t p.1) as [err s]. destruct H as [H1 H2]. unfold posted, sent_value, name_status. cbn.
  rewrite lookup_insert_eq. cbn. split_and!; [done| |done|].
  - intros Hf. apply H1. destruct err; [discriminate Hf|done].
  - intros other Hne. by rewrite lookup_insert_ne, H2 by congruence.
Qed.

(** All attempts of a send are posts of one value under one name. *)
Lemma send_attempts_spec n name v t err p :
  let '(err', p') := send_attempts post (1 + n) name v t err p in posted name v err' p p'.
Proof using Type.
  revert err p. induction n as [|n IH]; intros err p;
    change (send_attempts post (1 + ?k) name v t err p) with
      (match post name v t p with
       | (None, r) => (None, r)
       | (Some e, r) => send_attempts post k name v t (Some e) r
       end);
    pose proof (post_spec name v t p) as H; destruct (post name v t p) as [[e|] q]; try done.
  specialize (IH (Some e) q). destruct (send_attempts post _ _ _ _ _ _) as [err' p'] in IH |- *.
  destruct IH as (I1 & I2 & I3), H as (_ & _ & H3). split_and!; [done..|].
  intros other Hne. by rewrite I3, H3.
Qed.

Lemma stathat_send_spec resource name v t p :
  let '(err, p') := stathat_send post name_prefix resource name v t p in
  posted (stat_name resource name) v err p p'.
Proof using Type. apply (send_attempts_spec 2). Qed.

(** A recorded statistic of the resource itself is no user's. *)
Lemma user_name_other resource name res u :
  no_space resource -> no_space res -> name ∈ ["consumed"; "limit"; "active"; "released"; "queued"] ->
  user_name res u <> stat_name resource name.
Proof.
  intros H1 H2 Hin [-> H]%stat_name_inj; [|done..]. rewrite !elem_of_cons in Hin.
  destruct Hin as [->|[->|[->|[->|[->|?%not_elem_of_nil]]]]]; done.
Qed.

Lemma stathat_values_users resource l t p res u :
  no_space resource -> no_space res ->
  (forall e, e ∈ l -> e.1 ∈ ["consumed"; "limit"; "active"; "released"; "queued"]) ->
  name_status (stathat_values post name_prefix resource l t p).2 (user_name res u)
  = name_status p (user_name res u).
Proof using Type.
  intros H1 H2. revert p. induction l as [|[name v] l IH]; intros p Hl; cbn [stathat_values]; [done|].
  pose proof (stathat_send_spec resource name v t p) as H.
  destruct (stathat_send post name_prefix resource name v t p) as [err q]. destruct H as (_ & _ & H).
  assert (Hq : name_status q (user_name res u) = name_status p (user_name res u))
    by (apply H, user_name_other; [done..|apply (Hl (name, v)); left]).
  destruct err; [done|]. rewrite IH; [done|]. intros e He. apply Hl. by right.
Qed.

Definition user_turn (resource : string) (t : Time) (r : Posted) (e : string * N) : Posted :=
  let '(user, count) := e in
  if decide (user <> "") then (stathat_SendUser post name_prefix resource user count t r).2 else r.

Lemma user_turns_spec resource t l p res u :
  no_space resource -> no_space res -> NoDup l.*1 -> u <> "" ->
  updated (if decide (res = resource) then (list_to_map l : UserStatsMap) !! u else None)
    (name_status p (user_name res u)) (name_status (foldl (user_turn resource t) p l) (user_name res u)).
Proof using Type.
  intros H1 H2. revert p. induction l as [|[user c] l IH]; intros p; cbn [foldl fmap list_fmap].
  - intros _ _. cbn. rewrite lookup_empty. by case_decide.
  - intros [Hn Hnd]%NoDup_cons Hu. specialize (IH (user_turn resource t p (user, c)) Hnd Hu).
    assert (Hturn : updated (if decide ((res, u) = (resource, user)) then Some c else None)
      (name_status p (user_name res u)) (name_status (user_turn resource t p (user, c)) (user_name res u))).
    { unfold user_turn, stathat_SendUser.
      pose proof (stathat_send_spec resource ("user " +:+ user) c t p) as H.
      destruct (stathat_send post name_prefix resource _ c t p) as [err q]. destruct H as (S1 & _ & S3). cbn [snd].
      destruct (decide ((res, u) = (resource, user))) as [[= -> ->]|Hne].
      - rewrite decide_True by done. exact S1.
      - destruct (decide (user <> "")); [|exact eq_refl]. apply S3. intros He%user_name_inj; done. }
    pose proof (updated_trans _ _ _ _ _ Hturn IH) as H. cbn [list_to_map foldr].
    destruct (decide (res = resource)) as [->|Hne].
    + destruct (decide (u = user)) as [->|Hne'].
      * rewrite lookup_insert_eq. cbn in Hn. apply not_elem_of_list_to_map in Hn.
        rewrite Hn, decide_True in H by done. exact H.
      * rewrite lookup_insert_ne by done. rewrite decide_False in H by congruence.
        by destruct ((list_to_map l : UserStatsMap) !! u).
    + rewrite decide_False in H by congruence. exact H.
Qed.

Lemma stathat_SendUser_spec resource user count t p :
  no_space resource ->
  let '(err, p') := stathat_SendUser post name_prefix resource user count t p in
  sent_value count (name_status p' (user_name resource user))
  /\ failed (name_status p' (user_name resource user)) = bool_decide (err <> None)
  /\ forall res u, no_space res -> (res, u) <> (resource, user) ->
       name_status p' (user_name res u) = name_status p (user_name res u).
Proof using Type.
  intros Hr. pose proof (stathat_send_spec resource ("user " +:+ user) count t p) as H.
  unfold stathat_SendUser. destruct (stathat_send post name_prefix resource _ count t p) as [err p'].
  destruct H as (H1 & H2 & H3). split_and!; [done..|]. intros res u Hres Hne. apply H3.
  by intros ?%user_name_inj.
Qed.

Lemma stathat_SendResource_spec resource stats p :
  no_space resource ->
  let '(err, p') := stathat_SendResource post name_prefix range_users resource stats p in
  forall res u, no_space res -> u <> "" ->
    let o := if decide (res = resource) then rs_Users stats !! u else None in
    updated o (name_status p (user_name res u)) (name_status p' (user_name res u))
    \/ (err <> None /\ name_status p' (user_name res u) = name_status p (user_name res u)).
Proof using Type range_users_perm.
  intros Hr. unfold stathat_SendResource.
  set (values := [("consumed", _); _; _; _; _]).
  assert (Hv : forall e, e ∈ values -> e.1 ∈ ["consumed"; "limit"; "active"; "released"; "queued"]).
  { intros e He. by apply (list_elem_of_fmap_2 fst) in He. }
  pose proof (fun res u H => stathat_values_users resource values (rs_Time stats) p res u Hr H Hv) as Hvalues.
  destruct (stathat_values post name_prefix resource values (rs_Time stats) p) as [[e|] q]; cbn [snd] in Hvalues.
  - intros res u Hres _. right. split; [done|]. by apply Hvalues.
  - intros res u Hres Hu. left. rewrite <- Hvalues by done.
    pose proof (user_turns_spec resource (rs_Time stats) (range_users (rs_Users stats)) q res u Hr Hres) as H.
    assert (Hltm : (list_to_map (range_users (rs_Users stats)) : UserStatsMap) = rs_Users stats).
    { rewrite <- (list_to_map_to_list (rs_Users stats)) at 2. apply list_to_map_proper; [|apply range_users_perm].
      rewrite range_users_perm. apply NoDup_fst_map_to_list. }
    rewrite Hltm in H. apply H; [|done]. rewrite range_users_perm. apply NoDup_fst_map_to_list.
Qed.

(** The recipient of the program keeps the law of the interface. *)
Definition stathat_spec : StatRecipientSpec Posted (stathat_recipient post name_prefix range_users).
Proof using SH range_users_perm.
  refine (Build_StatRecipientSpec _ (stathat_recipient post name_prefix range_users) no_space
    (fun p res u => name_status p (user_name res u)) _ _).
  - intros resource user count t p Hr. exact (stathat_SendUser_spec resource user count t p Hr).
  - intros resource stats p Hr. exact (stathat_SendResource_spec resource stats p Hr).
Defined.
End StatHatRecipient.

(** ** A service to try it on

    A board keeps the values; posts under the names that are [down] fail. *)

Record Board := mkBoard { down : list string; board : gmap string N }.

Definition board_post (name : string) (v : N) (_ : Time) (b : Board) : option error * Board :=
  if decide (name ∈ down b) then (Some "unavailable", b)
  else (None, mkBoard (down b) (<[name := v]> (board b))).

#[export] Instance board_service : StatHatService board_post.
Proof.
  refine (Build_StatHatService _ board_post (fun b name => board b !! name) _).
  intros name v t b. unfold board_post. case_decide; cbn; [done|].
  split; [by rewrite lookup_insert_eq|]. intros other Hne. by rewrite lookup_insert_ne.
Defined.

Abbreviation Posts := (Board * gmap string (N * bool))%type (only parsing).

#[local] Instance hat : StatRecipient Posts := stathat_recipient (post board_post) "P" map_to_list.
#[local] Instance hat_spec : StatRecipientSpec Posts hat :=
  stathat_spec board_post "P" map_to_list (fun m => Permutation_refl _).

Definition down_now (names : list string) (p : Posts) : Posts := (mkBoard names (board p.1), p.2).
Definition no_posts (names : list string) : Posts := (mkBoard names ∅, ∅).

Definition a_count (user : string) (n : N) : ResourceStats :=
  mkResourceStats (100 * Second)%Z n 5 n 0 0 {[ user := n ]}.

Definition one_round (current : ResourceStatsMap) (m : StatManager) (p : Posts) : option error * StatManager * Posts :=
  send_stats map_to_list map_to_list current m p.

(** A round that fails may have sent values that the manager forgets: a user
    who then leaves is never set to zero. *)
Lemma stale_after_failure :
  let round1 := one_round {[ "a" := a_count "ann" 3; "b" := a_count "bob" 1 ]} NewStatManager
                  (no_posts ["P b consumed"]) in
  let round2 := one_round {[ "b" := a_count "bob" 1 ]} round1.1.2 (down_now [] round1.2) in
  bool_decide (round1.1.1 <> None) = true /\ round2.1.1 = None
  /\ shown (status round2.2 "a" "ann") = Some 3%N
  /\ count_of (sm_last round2.1.2) "a" "ann" = 0%N.
Proof. vm_compute. split_and!; reflexivity. Qed.

(** A user whose value cannot be sent keeps the old one, though the round
    succeeds, and the zero is not sent again. *)
Lemma dropped_user_error :
  let round1 := one_round {[ "a" := a_count "ann" 3 ]} NewStatManager (no_posts []) in
  let round2 := one_round ∅ round1.1.2 (down_now ["P a user ann"] round1.2) in
  let round3 := one_round ∅ round2.1.2 (down_now [] round2.2) in
  round2.1.1 = None /\ round3.1.1 = None
  /\ status round3.2 "a" "ann" = mkUserStatus (Some 0%N) true (Some 3%N).
Proof. vm_compute. split_and!; reflexivity. Qed.

(** The empty user is announced with a zero, but its count is never sent. *)
Lemma empty_user_not_counted :
  let round := one_round {[ "a" := a_count "" 3 ]} NewStatManager (no_posts []) in
  round.1.1 = None /\ status round.2 "a" "" = mkUserStatus (Some 0%N) false (Some 0%N).
Proof. vm_compute. split_and!; reflexivity. Qed.

(** Resources whose names contain spaces may share a name at the service. *)
Lemma names_collide : user_name "P" "a" "b user c" = user_name "P" "a user b" "c".
Proof. reflexivity. Qed.

Definition account_lease (user : string) : Lease :=
  mkLease (mkSubject "cad" (mkInstance "host" user user)) {[ "user.account" := "ann" ]} Active zero_time zero_time
    zero_time Strategy_Instance 5 Minute 0%Z (mkRefresh 0%Z 0%Z).

(** Of two users with the same account only one is counted. *)
Lemma account_collision :
  let leases := [account_lease "A\ann"; account_lease "B\ann"] in
  (s ← resource_stats map_to_list 0%Z Strategy_Instance 5 leases; Ret (rs_Consumed s, map_to_list (rs_Users s)))
  = Ret (2%N, [("ann", 1%N)]).
Proof. vm_compute. reflexivity. Qed.

(** ** Witness *)

