(* ===== verification/Concurrency.v ===== *)
(** * Handlers running concurrently

    A system is a lease provider and a pool of handlers; a step lets one
    handler make its next call, or a new request arrive.  The providers check
    the revision when a transaction is committed, so that a handler that only
    commits transactions built on what it has just viewed cannot undo the work
    of another.

    [wp] is a program logic for one handler: [wp V p Q] says that, when [V] is
    what the handler has seen so far -- the leases it has viewed last, the time
    it has read since, its last commit --, [p] commits only transactions that are
    built on this view and that respect the page invariant and the guarantee
    [G], and ends in [Q].  [system_safe] shows that handlers proved in it keep
    the page invariant together, as long as there have been fewer than 2^64
    commits (the revision is a [uint64]); [Exclusive.v] uses the guarantee and
    the commits. *)

From S2P Require Import Prelude GoTime Lease LeaseSet Tx Refresh Policy Provider Program.

(** What a handler has seen: the resource it has viewed last, with its revision
    and leases, unless it has committed since; the time it has read since; and
    the last transaction it has committed. *)
Record Seen := mkSeen {
  seen_view : option (string * N * LeaseSet);
  seen_time : option Time;
  seen_commit : option Tx;
}.

Definition unseen : Seen := mkSeen None None None.
Definition see_view (v : result (N * LeaseSet)) (r : string) (V : Seen) : Seen :=
  mkSeen (match v with Ok (rev, s) => Some (r, rev, s) | Err _ => None end) None (seen_commit V).
Definition see_time (t : Time) (V : Seen) : Seen := mkSeen (seen_view V) (Some t) (seen_commit V).
Definition see_commit (e : option error) (tx : Tx) (V : Seen) : Seen :=
  mkSeen None None (match e with None => Some tx | Some _ => seen_commit V end).

Section Logic.
(** The invariant of the leases stored under a resource, what is known of the
    policies, whether a handler may panic, and what its commits guarantee: a
    relation of the leases of a resource before and after, at a time. *)
Context (page_ok : string -> LeaseSet -> Prop).
Context (policies_ok : result PolicySet -> Prop).
Context (crash_ok : Prop).
Context (G : string -> Time -> LeaseSet -> LeaseSet -> Prop).

Definition may_commit (V : Seen) (tx : Tx) : Prop :=
  tx_ops tx <> []
  /\ exists s t, seen_view V = Some (tx_resource tx, tx_revision tx, s) /\ seen_time V = Some t
       /\ built_on tx s /\ page_ok (tx_resource tx) (tx_leases tx)
       /\ G (tx_resource tx) t s (tx_leases tx).

Fixpoint wp {A} (V : Seen) (p : prog A) (Q : Seen -> A -> Prop) : Prop :=
  match p with
  | Done a => Q V a
  | Crash _ => crash_ok
  | Policies_ k => forall ps, policies_ok ps -> wp V (k ps) Q
  | LeaseResources_ k => forall rs, wp V (k rs) Q
  | LeaseView_ r k =>
      (forall e, wp (see_view (Err e) r V) (k (Err e)) Q)
      /\ forall rev s, page_ok r s -> sorted_set s -> wp (see_view (Ok (rev, s)) r V) (k (Ok (rev, s))) Q
  | LeaseCommit_ tx k => may_commit V tx /\ forall e, wp (see_commit e tx V) (k e) Q
  | Now_ k => forall t, wp (see_time t V) (k t) Q
  | Publish_ s k => wp V k Q
  end.

Lemma wp_mono {A} V (p : prog A) (Q R : Seen -> A -> Prop) :
  (forall V a, Q V a -> R V a) -> wp V p Q -> wp V p R.
Proof.
  intros HQR. revert V. induction p as [a|msg|k IH|k IH|r k IH|tx k IH|k IH|s k IH]; intros V; cbn;
    naive_solver.
Qed.

Lemma wp_bind {A B} V (p : prog A) (f : A -> prog B) Q :
  wp V p (fun V a => wp V (f a) Q) -> wp V (p ≫= f) Q.
Proof.
  revert V. induction p as [a|msg|k IH|k IH|r k IH|tx k IH|k IH|s k IH]; intros V; cbn;
    naive_solver.
Qed.

(** ** The system *)

Section System.
Context {St : Type} `{LP : LeaseProvider St, LPS : !LeaseProviderSpec St}.

(** [sys_commits] counts the commits; the source does not have it. *)
Record system := mkSystem {
  sys_provider : St;
  sys_handlers : list (prog ());
  sys_commits : N;
}.

(** One call of a handler; [n] is 1 when it commits something. *)
Inductive call {A} : prog A -> St -> prog A -> St -> N -> Prop :=
| call_policies k ps st : policies_ok ps -> call (Policies_ k) st (k ps) st 0
| call_resources k st : call (LeaseResources_ k) st (k (LeaseResources st)) st 0
| call_view r k st v st' : LeaseView r st = (v, st') -> call (LeaseView_ r k) st (k v) st' 0
| call_commit tx k st e st' :
    LeaseCommit tx st = (e, st') -> call (LeaseCommit_ tx k) st (k e) st' 1
| call_now k t st : call (Now_ k) st (k t) st 0
| call_publish s k st : call (Publish_ s k) st k st 0.

Inductive step (arrives : prog () -> Prop) : system -> system -> Prop :=
| step_call i p p' st st' hs n c :
    hs !! i = Some p -> call p st p' st' n ->
    step arrives (mkSystem st hs c) (mkSystem st' (<[i := p']> hs) (c + n))
| step_arrive p st hs c :
    arrives p -> step arrives (mkSystem st hs c) (mkSystem st (hs ++ [p]) c).

Definition initial (st : St) : system := mkSystem st [] 0.

(** ** The invariant *)

(** The handler's last view, against the number [ver r] of commits there have
    been under each resource, counted from the revision [base r] on. *)
Definition view_valid (base ver : string -> N) (st : St) (V : option (string * N * LeaseSet)) : Prop :=
  match V with
  | None => True
  | Some (r, rev, s) =>
      exists v, (base r <= v <= ver r)%N /\ rev = wrapu64 v
        /\ (v = ver r -> s = (contents st r).2)
  end.

Record system_inv (base : string -> N) (sys : system) : Prop := {
  si_valid : provider_valid (sys_provider sys);
  si_pages : forall r, page_ok r (contents (sys_provider sys) r).2
                       /\ sorted_set (contents (sys_provider sys) r).2;
  si_views : exists ver,
    (forall r, (base r <= ver r <= base r + sys_commits sys)%N
       /\ (contents (sys_provider sys) r).1 = wrapu64 (ver r))
    /\ Forall (fun p => exists V, wp V p (fun _ _ => True)
                 /\ view_valid base ver (sys_provider sys) (seen_view V)) (sys_handlers sys);
}.

Lemma wrapu64_close a b :
  (a <= b)%N -> (b - a < 2 ^ 64)%N -> wrapu64 a = wrapu64 b -> a = b.
Proof.
  unfold wrapu64. intros Hle Hlt H.
  pose proof (N.div_mod a (2 ^ 64) ltac:(lia)). pose proof (N.div_mod b (2 ^ 64) ltac:(lia)). nia.
Qed.

Lemma wrapu64_succ a : wrapu64 (wrapu64 a + 1) = wrapu64 (a + 1).
Proof. unfold wrapu64. apply N.Div0.add_mod_idemp_l. Qed.

(** A view stays valid when contents only change by new revisions. *)
Lemma view_valid_mono base ver ver' st st' V :
  (forall r, (ver r <= ver' r)%N) ->
  (forall r, ver' r = ver r -> (contents st' r).2 = (contents st r).2) ->
  view_valid base ver st V -> view_valid base ver' st' V.
Proof.
  intros Hv Hc. destruct V as [[[r rev] s]|]; [|done]. cbn.
  intros (v & Hb & Hrev & Hs). specialize (Hv r). exists v. split_and!; [lia|lia|done|].
  intros ->. rewrite (Hc r) by lia. apply Hs. lia.
Qed.

(** What one call does to the provider, seen from the other handlers. *)
Definition evolves (base ver : string -> N) (st st' : St) (n : N) (ver' : string -> N) : Prop :=
  provider_valid st'
  /\ (forall r, (ver r <= ver' r <= ver r + n)%N /\ (contents st' r).1 = wrapu64 (ver' r))
  /\ (forall r, ver' r = ver r -> (contents st' r).2 = (contents st r).2)
  /\ forall r, page_ok r (contents st' r).2 /\ sorted_set (contents st' r).2.

Context (page_ok_perm : forall r, Proper ((≡ₚ) ==> iff) (page_ok r)).

Lemma evolves_same base ver st st' n :
  provider_valid st' -> (forall r, contents st' r = contents st r) ->
  (forall r, page_ok r (contents st r).2 /\ sorted_set (contents st r).2) ->
  (forall r, (contents st r).1 = wrapu64 (ver r)) ->
  evolves base ver st st' n ver.
Proof.
  intros Hv Hc Hp Hr. split; [done|]. split; [|split]; intros r; rewrite Hc; try done.
  split; [lia|done].
Qed.

Lemma view_current base ver st c r rev s :
  (base r <= ver r <= base r + c)%N -> (c < 2 ^ 64)%N ->
  (contents st r).1 = wrapu64 (ver r) ->
  view_valid base ver st (Some (r, rev, s)) -> rev = (contents st r).1 ->
  s = (contents st r).2.
Proof.
  intros Hb Hc Hr (v & Hv & Hrev & Hs) He. apply Hs.
  apply wrapu64_close; [lia|lia|]. by rewrite <- Hrev, He.
Qed.

(** What one call does to the leases, given what its handler has seen before
    and sees after it. *)
Definition committed (V V' : Seen) (st st' : St) : Prop :=
  exists tx rev t, seen_commit V' = Some tx
    /\ seen_view V = Some (tx_resource tx, rev, (contents st (tx_resource tx)).2) /\ seen_time V = Some t
    /\ G (tx_resource tx) t (contents st (tx_resource tx)).2 (tx_leases tx)
    /\ (contents st' (tx_resource tx)).2 ≡ₚ tx_leases tx
    /\ forall r, r <> tx_resource tx -> (contents st' r).2 = (contents st r).2.

Definition effect (V V' : Seen) (st st' : St) : Prop :=
  (seen_commit V' = seen_commit V /\ forall r, (contents st' r).2 = (contents st r).2)
  \/ committed V V' st st'.

(** What the handler sees by a call other than a reading of the clock. *)
Definition sees (st : St) (V V' : Seen) : Prop :=
  seen_view V' = seen_view V /\ seen_time V' = seen_time V
  \/ seen_time V' = None /\ forall r rev s, seen_view V' = Some (r, rev, s) -> s = (contents st r).2.

Lemma commit_evolves base ver st st' c V tx :
  provider_valid st -> (c < 2 ^ 64)%N ->
  (forall r, (base r <= ver r <= base r + c)%N /\ (contents st r).1 = wrapu64 (ver r)) ->
  (forall r, page_ok r (contents st r).2 /\ sorted_set (contents st r).2) ->
  view_valid base ver st (seen_view V) -> may_commit V tx ->
  forall e, LeaseCommit tx st = (e, st') ->
  (exists ver', evolves base ver st st' 1 ver') /\ effect V (see_commit e tx V) st st'.
Proof.
  intros Hvalid Hc Hver Hpages Hview [Hops (s & t & HV & Ht & Hbuilt & Hok & HG)] e Hcom.
  pose proof (LeaseCommit_spec tx st Hvalid) as H. rewrite Hcom in H. destruct H as [Hvalid' H].
  destruct e as [e|].
  { split; [|left; split; [done|intros r; by rewrite H]]. exists ver.
    apply evolves_same; try done. intros r. apply Hver. }
  rewrite decide_False in H by done.
  destruct H as [Hrev Hcommit]. rewrite HV in Hview.
  destruct (Hver (tx_resource tx)) as [Hb Hr].
  rewrite (view_current _ _ _ _ _ _ _ Hb Hc Hr Hview Hrev) in HV, Hbuilt, HG.
  destruct (Hcommit Hbuilt) as [(s' & Hs' & Hperm & Hsort) Hother]. split.
  2: { right. exists tx, (tx_revision tx), t. do 4 (split; [done|]). rewrite Hs'.
       split; [done|]. intros r Hne. by apply Hother. }
  exists (fun r => if decide (r = tx_resource tx) then (ver r + 1)%N
                   else if decide ((contents st' r).1 = (contents st r).1) then ver r
                   else (ver r + 1)%N).
  split; [done|]. split; [|split]; intros r; destruct (decide (r = tx_resource tx)) as [->|Hne].
  - split; [lia|]. rewrite Hs'. cbn. by rewrite Hr, wrapu64_succ.
  - destruct (Hother r Hne) as [_ Hrr]. case_decide as He; (split; [lia|]).
    + rewrite He. apply Hver.
    + destruct Hrr as [?|Hrr]; [done|]. destruct (Hver r) as [_ Hvr]. by rewrite Hrr, Hvr, wrapu64_succ.
  - lia.
  - intros _. destruct (Hother r Hne) as [Ho _]. exact Ho.
  - rewrite Hs'. cbn. split; [by rewrite Hperm|done].
  - destruct (Hother r Hne) as [Ho _]. rewrite Ho. apply Hpages.
Qed.

(** One call keeps the invariant of its handler. *)
Lemma call_wp {A} base ver st c (p : prog A) st' p' n V Q :
  provider_valid st -> (c < 2 ^ 64)%N ->
  (forall r, (base r <= ver r <= base r + c)%N /\ (contents st r).1 = wrapu64 (ver r)) ->
  (forall r, page_ok r (contents st r).2 /\ sorted_set (contents st r).2) ->
  wp V p Q -> view_valid base ver st (seen_view V) -> call p st p' st' n ->
  exists ver' V', evolves base ver st st' n ver' /\ wp V' p' Q
    /\ view_valid base ver' st' (seen_view V') /\ effect V V' st st'
    /\ (sees st V V' \/ exists k t, p = Now_ k /\ V' = see_time t V).
Proof.
  intros Hvalid Hc Hver Hpages Hwp HV Hcall.
  assert (Hkeep : forall m, evolves base ver st st m ver).
  { intros m. apply evolves_same; try done. intros r. apply Hver. }
  assert (Hquiet : effect V V st st) by (left; done).
  destruct Hcall as [k ps st Hps|k st|r k st v st' Hv|tx k st e st' He|k t st|s k st]; cbn in Hwp.
  - exists ver, V. split_and!; [done|by apply Hwp|done|done|by left; left].
  - exists ver, V. split_and!; [done|by apply Hwp|done|done|by left; left].
  - pose proof (LeaseView_spec r st Hvalid) as H. rewrite Hv in H. destruct H as (Hvalid' & Hcs & Hval).
    exists ver, (see_view v r V). split; [apply evolves_same; try done; intros; apply Hver|].
    destruct Hwp as [Herr Hok]. destruct v as [[rev s]|e].
    + assert ((contents st r).2 = s) as <- by (by rewrite <- Hval).
      split; [by apply Hok; apply Hpages|]. split; [|split].
      * cbn. exists (ver r). destruct (Hver r) as [Hb Hr]. rewrite <- Hval in Hr.
        split_and!; [lia|lia|done|]. intros _. by rewrite Hcs.
      * left. split; [done|]. intros r'. by rewrite Hcs.
      * left. right. split; [done|]. by intros ? ? ? [= <- <- <-].
    + split; [by apply Herr|]. split; [done|]. split; [|left; right; done].
      left. split; [done|]. intros r'. by rewrite Hcs.
  - destruct Hwp as [Hmay Hk].
    destruct (commit_evolves base ver st st' c V tx Hvalid Hc Hver Hpages HV Hmay e He) as [[ver' Hev] Heff].
    exists ver', (see_commit e tx V). split_and!; [done|apply Hk|done|done|left; right; done].
  - exists ver, (see_time t V). split_and!; [done|by apply Hwp|done|by left|right; by eexists _, _].
  - exists ver, V. split_and!; [done|by apply Hwp|done|done|by left; left].
Qed.

Lemma evolves_views base ver ver' st st' n V :
  evolves base ver st st' n ver' -> view_valid base ver st V -> view_valid base ver' st' V.
Proof.
  intros (_ & Hv & Hs & _). apply view_valid_mono; [intros r; apply Hv|exact Hs].
Qed.

(** Running a program alone is one way for a system to run. *)
Fixpoint run_commits {A} (p : prog A) (w : World St) : N :=
  match p with
  | Done _ | Crash _ => 0
  | Policies_ k => run_commits (k (w_policies w)) w
  | LeaseResources_ k => run_commits (k (LeaseResources (w_provider w))) w
  | LeaseView_ r k =>
      let '(v, p) := LeaseView r (w_provider w) in run_commits (k v) (set_provider p w)
  | LeaseCommit_ tx k =>
      let '(e, p) := LeaseCommit tx (w_provider w) in 1 + run_commits (k e) (set_provider p w)
  | Now_ k => run_commits (k (w_clock w (w_ticks w))) (tick w)
  | Publish_ s k => run_commits k (publish s w)
  end.

Definition ended {A} (a : answer A) : prog A :=
  match a with Answered x => Done x | Crashed msg => Crash msg end.

Lemma step_then arrives i p p' st st' hs n c sys :
  hs !! i = Some p -> call p st p' st' n ->
  rtc (step arrives) (mkSystem st' (<[i := p']> hs) (c + n)) sys ->
  rtc (step arrives) (mkSystem st hs c) sys.
Proof. intros Hi Hc Hr. eapply rtc_l; [|exact Hr]. by econstructor. Qed.

Lemma run_steps arrives p w hs i c :
  hs !! i = Some p -> policies_ok (w_policies w) ->
  rtc (step arrives) (mkSystem (w_provider w) hs c)
    (mkSystem (w_provider (run p w).2) (<[i := ended (run p w).1]> hs) (c + run_commits p w)).
Proof.
  revert w hs c. induction p as [a|msg|k IH|k IH|r k IH|tx k IH|k IH|s k IH]; intros w hs c Hi Hps;
    cbn [run run_commits].
  1,2: rewrite list_insert_id by done; rewrite N.add_0_r; apply rtc_refl.
  all: assert (Hlen : i < length hs) by (by eapply lookup_lt_Some).
  all: assert (Hlk : forall q : prog (), <[i := q]> hs !! i = Some q) by (intros; by apply list_lookup_insert_eq).
  - eapply step_then; [done|by constructor|]. rewrite N.add_0_r.
    pose proof (IH (w_policies w) w _ c (Hlk _) Hps) as H. by rewrite list_insert_insert_eq in H.
  - eapply step_then; [done|by constructor|]. rewrite N.add_0_r.
    pose proof (IH (LeaseResources (w_provider w)) w _ c (Hlk _) Hps) as H.
    by rewrite list_insert_insert_eq in H.
  - destruct (LeaseView r (w_provider w)) as [v st'] eqn:Hv.
    eapply step_then; [done|by constructor|]. rewrite N.add_0_r.
    pose proof (IH v (set_provider st' w) _ c (Hlk _) Hps) as H. by rewrite list_insert_insert_eq in H.
  - destruct (LeaseCommit tx (w_provider w)) as [e st'] eqn:He.
    eapply step_then; [done|by constructor|]. rewrite N.add_assoc.
    pose proof (IH e (set_provider st' w) _ (c + 1)%N (Hlk _) Hps) as H.
    by rewrite list_insert_insert_eq in H.
  - eapply step_then; [done|by apply (call_now k (w_clock w (w_ticks w)))|]. rewrite N.add_0_r.
    pose proof (IH (w_clock w (w_ticks w)) (tick w) _ c (Hlk _) Hps) as H.
    by rewrite list_insert_insert_eq in H.
  - eapply step_then; [done|by constructor|]. rewrite N.add_0_r.
    pose proof (IH (publish s w) _ c (Hlk _) Hps) as H. by rewrite list_insert_insert_eq in H.
Qed.

(** A program that runs alone: nothing is committed behind its back. *)
Record world_safe (w : World St) : Prop := {
  ws_valid : provider_valid (w_provider w);
  ws_pages : forall r, page_ok r (contents (w_provider w) r).2
                       /\ sorted_set (contents (w_provider w) r).2;
  ws_policies : policies_ok (w_policies w);
}.

(** What was viewed is still there, unless the revision tells. *)
Definition view_held (V : Seen) (w : World St) : Prop :=
  match seen_view V with
  | None => True
  | Some (r, rev, s) => rev = (contents (w_provider w) r).1 -> s = (contents (w_provider w) r).2
  end.

Lemma world_safe_provider w st :
  world_safe w -> provider_valid st -> (forall r, contents st r = contents (w_provider w) r) ->
  world_safe (set_provider st w).
Proof.
  intros [_ Hp Hps] Hv Hc. split; [done| |done]. intros r. cbn. rewrite Hc. apply Hp.
Qed.

(** What a commit of a transaction that was allowed leaves behind. *)
Lemma commit_alone V tx w e st :
  world_safe w -> view_held V w -> may_commit V tx -> LeaseCommit tx (w_provider w) = (e, st) ->
  world_safe (set_provider st w)
  /\ (e = None -> (contents st (tx_resource tx)).2 ≡ₚ tx_leases tx).
Proof.
  intros Hw HV Hmay Hcom. pose proof (LeaseCommit_spec tx _ (ws_valid _ Hw)) as H.
  rewrite Hcom in H. destruct H as [Hvalid H].
  destruct e as [e|]; [split; [by apply world_safe_provider|done]|].
  destruct Hmay as [Hops (s & t & HVs & _ & Hbuilt & Hok & _)]. rewrite decide_False in H by done.
  destruct H as [Hrev Hcommit]. unfold view_held in HV. rewrite HVs in HV. rewrite (HV Hrev) in Hbuilt.
  destruct (Hcommit Hbuilt) as [(s' & Hs' & Hperm & Hsort) Hother].
  split; [|intros _; by rewrite Hs']. split; [done| |apply Hw]. intros r. cbn.
  destruct (decide (r = tx_resource tx)) as [->|Hne].
  - rewrite Hs'. cbn. split; [by rewrite Hperm|done].
  - destruct (Hother r Hne) as [Ho _]. rewrite Ho. apply Hw.
Qed.

Lemma run_wp {A} V (p : prog A) Q w :
  wp V p Q -> world_safe w -> view_held V w ->
  let '(a, w') := run p w in
  world_safe w' /\ w_policies w' = w_policies w
  /\ match a with Answered _ => True | Crashed _ => crash_ok end.
Proof.
  revert V w. induction p as [a|msg|k IH|k IH|r k IH|tx k IH|k IH|s k IH]; intros V w; cbn [wp run];
    intros Hwp Hw HV; [done|done|..].
  - by apply (IH _ V); [apply Hwp, Hw|..].
  - by apply (IH _ V).
  - pose proof (LeaseView_spec r _ (ws_valid _ Hw)) as H.
    destruct (LeaseView r (w_provider w)) as [v st]. destruct H as (Hvalid & Hc & Hv).
    pose proof (world_safe_provider w st Hw Hvalid Hc) as Hw'. destruct Hwp as [Herr Hok].
    destruct v as [[rev s]|e]; [|by apply (IH _ (see_view (Err e) r V) (set_provider st w))].
    apply (IH _ (see_view (Ok (rev, s)) r V) (set_provider st w)); [|done|unfold view_held; cbn; intros _; by rewrite Hc, <- Hv].
    apply Hok; destruct (ws_pages _ Hw r) as [Hp Hs]; by rewrite <- Hv in Hp, Hs.
  - destruct Hwp as [Hmay Hk]. destruct (LeaseCommit tx (w_provider w)) as [e st] eqn:Hcom.
    destruct (commit_alone V tx w e st Hw HV Hmay Hcom) as [Hw' _].
    by apply (IH _ (see_commit e tx V) (set_provider st w)).
  - apply (IH _ (see_time (w_clock w (w_ticks w)) V) (tick w)); [apply Hwp|by destruct Hw|done].
  - apply (IH V (publish s w)); [done|by destruct Hw|done].
Qed.

Section Runs.
Context (arrives : prog () -> Prop).
Context (arrivals_safe : forall p, arrives p -> wp unseen p (fun _ _ => True)).

Lemma step_inv base sys sys' :
  step arrives sys sys' -> (sys_commits sys' < 2 ^ 64)%N ->
  system_inv base sys -> system_inv base sys'.
Proof.
  intros Hstep Hc [Hvalid Hpages (ver & Hver & Hall)].
  destruct Hstep as [i p p' st st' hs n c Hi Hcall|p st hs c Harr]; cbn in *.
  - pose proof (Forall_lookup_1 _ _ _ _ Hall Hi) as (V & Hwp & HV).
    destruct (call_wp base ver st c p st' p' n V _ Hvalid ltac:(lia) Hver Hpages Hwp HV Hcall)
      as (ver' & V' & Hev & Hwp' & HV' & _ & _).
    pose proof Hev as (Hvalid' & Hver' & Hsame & Hpages'). split; [done|done|].
    exists ver'. split.
    + intros r. cbn. specialize (Hver r). specialize (Hver' r). split; [lia|tauto].
    + apply Forall_insert; [|by exists V'].
      eapply Forall_impl; [exact Hall|]. intros q (W & Hq & HW). exists W.
      split; [done|]. by apply (evolves_views base ver ver' st st' n).
  - split; [done|done|]. exists ver. split; [done|].
    apply Forall_app. split; [done|]. apply Forall_singleton. exists unseen. split; [|done].
    by apply arrivals_safe.
Qed.

Lemma step_commits sys sys' : step arrives sys sys' -> (sys_commits sys <= sys_commits sys')%N.
Proof. destruct 1; cbn; lia. Qed.

Lemma steps_inv base sys sys' :
  rtc (step arrives) sys sys' -> (sys_commits sys' < 2 ^ 64)%N ->
  system_inv base sys -> system_inv base sys'.
Proof.
  induction 1 as [|s1 s2 s3 H12 H23 IH]; [done|]. intros Hc Hinv. apply IH; [done|].
  eapply step_inv; [done| |done].
  assert (sys_commits s2 <= sys_commits s3)%N; [|lia].
  clear -H23. induction H23 as [|a b d Hab Hbd IH]; [done|]. apply step_commits in Hab. lia.
Qed.

(** A fresh provider whose pages satisfy the invariant. *)
Lemma initial_inv st :
  provider_valid st ->
  (forall r, page_ok r (contents st r).2 /\ sorted_set (contents st r).2) ->
  (forall r, ((contents st r).1 < 2 ^ 64)%N) ->
  system_inv (fun r => (contents st r).1) (initial st).
Proof.
  intros Hv Hp Hr. split; [done|done|]. exists (fun r => (contents st r).1). split; [|constructor].
  intros r. cbn. split; [lia|]. by rewrite wrapu64_id.
Qed.

(** Handlers proved in the program logic keep the page invariant together. *)
Lemma system_safe st sys :
  provider_valid st ->
  (forall r, page_ok r (contents st r).2 /\ sorted_set (contents st r).2) ->
  (forall r, ((contents st r).1 < 2 ^ 64)%N) ->
  rtc (step arrives) (initial st) sys -> (sys_commits sys < 2 ^ 64)%N ->
  forall r, page_ok r (contents (sys_provider sys) r).2 /\ sorted_set (contents (sys_provider sys) r).2.
Proof.
  intros Hv Hp Hr Hsteps Hc. eapply si_pages, steps_inv; [done|done|]. by apply initial_inv.
Qed.

(** No handler of a reachable system has panicked, unless panics are allowed. *)
Lemma system_no_crash st sys :
  provider_valid st ->
  (forall r, page_ok r (contents st r).2 /\ sorted_set (contents st r).2) ->
  (forall r, ((contents st r).1 < 2 ^ 64)%N) ->
  rtc (step arrives) (initial st) sys -> (sys_commits sys < 2 ^ 64)%N ->
  forall msg, Crash msg ∈ sys_handlers sys -> crash_ok.
Proof.
  intros Hv Hp Hr Hsteps Hc msg Hin.
  pose proof (steps_inv _ _ _ Hsteps Hc (initial_inv st Hv Hp Hr)) as [_ _ (ver & _ & Hall)].
  rewrite Forall_forall in Hall. by destruct (Hall _ Hin) as (V & Hwp & _).
Qed.
(** From a reachable system on, a handler may run alone. *)
Lemma inv_world base sys ps clock :
  system_inv base sys -> (sys_commits sys < 2 ^ 64)%N -> policies_ok ps ->
  let w := mkWorld (sys_provider sys) ps clock 0 [] in
  world_safe w /\ forall p, p ∈ sys_handlers sys -> exists V, wp V p (fun _ _ => True) /\ view_held V w.
Proof.
  intros [Hv Hp (ver & Hver & Hall)] Hc Hps w. split; [by split|]. intros p Hin.
  rewrite Forall_forall in Hall. destruct (Hall p Hin) as (V & Hwp & HV). exists V. split; [done|].
  unfold view_held. destruct (seen_view V) as [[[r rev] s]|]; [|done]. intros Hrev.
  destruct (Hver r) as [Hb Hr]. by apply (view_current base ver (sys_provider sys) (sys_commits sys) r rev s).
Qed.
End Runs.
End System.
End Logic.
