(* ===== verification/TxProps.v ===== *)
(** * Transactions on sets with unique identities

    What [Tx.Update], [Tx.Release], [Tx.Delete] and [Tx.Create] do to a lease
    set in which a lease is determined by its resource and instance, together
    with the journal they record. *)

From S2P Require Import Prelude GoTime Lease LeaseSet Tx Refresh.

(** A processor that leaves alone the leases it does not match. *)
Definition selective (r : string) (i : LeaseInstance) (f : Lease -> Iter) : Prop :=
  forall l, Lease_MatchInstance l r i = false -> f l = mkIter OpNone l.

Lemma update_selective r i ls : selective r i (update_iter r i ls).
Proof. intros l Hl. unfold update_iter. by rewrite Hl. Qed.
Lemma release_selective r i t : selective r i (release_iter r i t).
Proof. intros l Hl. unfold release_iter. by rewrite Hl. Qed.
Lemma delete_selective r i : selective r i (delete_iter r i).
Proof. intros l Hl. unfold delete_iter. by rewrite Hl. Qed.

Lemma selective_none r i f s :
  selective r i f -> Forall (fun l => Lease_MatchInstance l r i = false) s ->
  (s ≫= fun l => iter_out l (f l)) = s /\ (s ≫= fun l => iter_ops l (f l)) = [].
Proof.
  intros Hf. induction 1 as [|l s Hl Hs [IH1 IH2]]; [done|]. cbn. rewrite (Hf l Hl). cbn.
  split; [f_equal; exact IH1|exact IH2].
Qed.

Lemma selective_one r i f s1 x s2 :
  selective r i f ->
  Forall (fun l => Lease_MatchInstance l r i = false) s1 ->
  Forall (fun l => Lease_MatchInstance l r i = false) s2 ->
  ((s1 ++ x :: s2) ≫= fun l => iter_out l (f l)) = s1 ++ iter_out x (f x) ++ s2
  /\ ((s1 ++ x :: s2) ≫= fun l => iter_ops l (f l)) = iter_ops x (f x).
Proof.
  intros Hf H1 H2. destruct (selective_none _ _ _ _ Hf H1) as [Ho1 Hp1].
  destruct (selective_none _ _ _ _ Hf H2) as [Ho2 Hp2].
  rewrite !bind_app, Ho1, Hp1, !bind_cons, Ho2, Hp2. by rewrite app_nil_r.
Qed.

Lemma unique_split s x r i :
  unique_ids s -> x ∈ s -> lease_id x = (r, i) ->
  exists s1 s2, s = s1 ++ x :: s2
    /\ Forall (fun l => Lease_MatchInstance l r i = false) s1
    /\ Forall (fun l => Lease_MatchInstance l r i = false) s2.
Proof.
  intros Hu (s1 & s2 & ->)%list_elem_of_split Hid. exists s1, s2. split; [done|].
  unfold unique_ids in Hu. rewrite fmap_app, fmap_cons in Hu.
  apply NoDup_app in Hu as (_ & Hd & [Hn _]%NoDup_cons).
  assert (Hm : forall l, lease_id l <> lease_id x -> Lease_MatchInstance l r i = false).
  { intros l Hne. apply not_true_iff_false. intros [Hr Hi]%MatchInstance_true. apply Hne.
    rewrite Hid. unfold lease_id. by rewrite Hr, Hi. }
  split; apply Forall_forall; intros l Hl; apply Hm; intros He.
  - apply (Hd (lease_id x)); [rewrite <- He; by apply list_elem_of_fmap_2|left].
  - apply Hn. rewrite <- He. by apply list_elem_of_fmap_2.
Qed.

Lemma no_match_iff s r i :
  Forall (fun l => Lease_MatchInstance l r i = false) s <-> (r, i) ∉ lease_id <$> s.
Proof.
  rewrite Forall_forall, list_elem_of_fmap. split.
  - intros H (l & He & Hl). specialize (H l Hl).
    rewrite (proj2 (MatchInstance_true l r i)) in H; [done|]. unfold lease_id in He. by injection He.
  - intros H l Hl. apply not_true_iff_false. intros [Hr Hi]%MatchInstance_true. apply H.
    exists l. unfold lease_id. by rewrite Hr, Hi.
Qed.

(** What a release makes of the leases. *)
Definition release_outcome (r : string) (i : LeaseInstance) (t : Time) (s s' : LeaseSet) : Prop :=
  (((r, i) ∉ (lease_id <$> s)) /\ s' ≡ₚ s)
  \/ (exists x rest, lease_id x = (r, i) /\ s ≡ₚ x :: rest
        /\ ((ls_Status x = Active /\ s' ≡ₚ set_Released t (set_Status Released x) :: rest)
            \/ (ls_Status x <> Active /\ s' ≡ₚ rest))).

Section Apply.
Context `{SO : Sorter, HSO : !SorterSpec SO}.

(** A transaction that has been extended by further operations. *)
Record extends (tx tx' : Tx) (ops : list Op) : Prop := {
  ext_resource : tx_resource tx' = tx_resource tx;
  ext_revision : tx_revision tx' = tx_revision tx;
  ext_ops : tx_ops tx' = tx_ops tx ++ ops;
  ext_journal : journal unique_ids ops (tx_leases tx) (tx_leases tx');
  ext_sorted : sorted_set (tx_leases tx');
}.

Lemma extends_trans tx1 tx2 tx3 ops1 ops2 :
  extends tx1 tx2 ops1 -> extends tx2 tx3 ops2 -> extends tx1 tx3 (ops1 ++ ops2).
Proof.
  intros [H1 H2 H3 H4 _] [K1 K2 K3 K4 K5].
  split; [congruence|congruence|by rewrite K3, H3, (assoc_L (++))| |done].
  eapply journal_app; [apply _|done|done].
Qed.

Lemma extends_unique tx tx' ops : extends tx tx' ops -> unique_ids (tx_leases tx').
Proof. intros [_ _ _ Hj _]. by apply (journal_end _ _ _ _ _ Hj). Qed.

Lemma extends_nonempty tx tx' op : extends tx tx' [op] -> tx_ops tx' <> [].
Proof. intros [_ _ -> _ _]. by destruct (tx_ops tx). Qed.

Lemma apply_one r i f tx x rest :
  selective r i f -> tx_leases tx ≡ₚ x :: rest -> lease_id x = (r, i) ->
  unique_ids (tx_leases tx) ->
  tx_leases (tx_apply_iters f tx) ≡ₚ iter_out x (f x) ++ rest
  /\ tx_ops (tx_apply_iters f tx) = tx_ops tx ++ iter_ops x (f x)
  /\ sorted_set (tx_leases (tx_apply_iters f tx)).
Proof.
  intros Hf Hp Hid Hu. destruct (unique_split (tx_leases tx) x r i Hu) as (s1 & s2 & Hs & H1 & H2);
    [rewrite Hp; left|done|].
  destruct (selective_one r i f s1 x s2 Hf H1 H2) as [Ho Hops].
  unfold tx_apply_iters. cbn [tx_leases tx_ops]. rewrite Hs, Ho, Hops.
  split; [|split; [done|apply Sort_sorted]]. rewrite Sort_perm.
  assert (Hr : s1 ++ s2 ≡ₚ rest).
  { apply (Permutation_cons_inv (a := x)). by rewrite Permutation_middle, <- Hs. }
  rewrite <- Hr. solve_Permutation.
Qed.

Lemma apply_none r i f tx :
  selective r i f -> (r, i) ∉ lease_id <$> tx_leases tx ->
  tx_leases (tx_apply_iters f tx) ≡ₚ tx_leases tx
  /\ tx_ops (tx_apply_iters f tx) = tx_ops tx
  /\ sorted_set (tx_leases (tx_apply_iters f tx)).
Proof.
  intros Hf Hn%no_match_iff. destruct (selective_none r i f _ Hf Hn) as [Ho Hops].
  unfold tx_apply_iters. cbn [tx_leases tx_ops]. rewrite Ho, Hops, app_nil_r.
  split; [apply Sort_perm|]. split; [done|apply Sort_sorted].
Qed.

(** Updating the lease [x] to [ls], whose identity nobody else has. *)
Lemma Tx_Update_extends tx x rest ls :
  tx_leases tx ≡ₚ x :: rest -> ls_Resource x = tx_resource tx ->
  unique_ids (tx_leases tx) -> unique_ids (ls :: rest) ->
  exists tx', Tx_Update (ls_Instance x) ls tx = Ret tx'
    /\ extends tx tx' [mkOp OpUpdate x ls] /\ tx_leases tx' ≡ₚ ls :: rest.
Proof.
  intros Hp Hr Hu Hu'. rewrite Tx_Update_spec. eexists. split; [done|].
  set (f := update_iter (tx_resource tx) (ls_Instance x) ls).
  destruct (apply_one (tx_resource tx) (ls_Instance x) f tx x rest) as (Hl & Ho & Hs);
    [apply update_selective|done|unfold lease_id; by rewrite Hr|done|].
  assert (Hf : f x = mkIter OpUpdate ls).
  { unfold f, update_iter. rewrite (proj2 (MatchInstance_true _ _ _)); done. }
  rewrite Hf in Hl, Ho. cbn in Hl, Ho. split; [|done].
  split; [done..| |done]. econstructor; [done| |].
  - exists rest. cbn. split; [done|]. reflexivity.
  - apply (journal_perm_r _ _ _ (ls :: rest)); [by constructor|]. by symmetry.
Qed.

Lemma Tx_Create_extends tx ls :
  unique_ids (tx_leases tx) -> unique_ids (ls :: tx_leases tx) ->
  extends tx (Tx_Create ls tx) [mkOp OpCreate zero_lease ls]
  /\ tx_leases (Tx_Create ls tx) ≡ₚ ls :: tx_leases tx.
Proof.
  intros Hu Hu'. unfold Tx_Create. cbn zeta.
  assert (Hp : Sort (tx_leases tx ++ [ls]) ≡ₚ ls :: tx_leases tx)
    by (by rewrite Sort_perm, <- Permutation_cons_append).
  split; [|exact Hp]. split; [done..| |apply Sort_sorted].
  econstructor; [done| |].
  - cbn. reflexivity.
  - constructor; [done|]. by symmetry.
Qed.

(** Releasing: an active lease becomes released, any other is removed. *)
Lemma Tx_Release_extends i t tx :
  unique_ids (tx_leases tx) ->
  exists tx' ops, Tx_Release i t tx = Ret tx' /\ extends tx tx' ops
    /\ release_outcome (tx_resource tx) i t (tx_leases tx) (tx_leases tx').
Proof.
  intros Hu. rewrite Tx_Release_spec. set (f := release_iter (tx_resource tx) i t).
  destruct (decide ((tx_resource tx, i) ∈ lease_id <$> tx_leases tx)) as [Hin|Hout].
  - apply list_elem_of_fmap in Hin as (x & Hid & Hx).
    apply elem_of_Permutation in Hx as [rest Hp].
    destruct (apply_one (tx_resource tx) i f tx x rest) as (Hl & Ho & Hs);
      [apply release_selective|done|done|done|].
    assert (Hu' : unique_ids (x :: rest)) by by rewrite <- Hp.
    assert (Hm : Lease_MatchInstance x (tx_resource tx) i = true).
    { apply MatchInstance_true. unfold lease_id in Hid. by injection Hid. }
    assert (Hf : f x = if decide (ls_Status x = Active)
      then mkIter OpUpdate (set_Released t (set_Status Released x)) else mkIter OpDelete x)
      by (unfold f, release_iter; by rewrite Hm).
    exists (tx_apply_iters f tx), (iter_ops x (f x)). split; [done|].
    rewrite Hf in *. case_decide as Ha; cbn in Hl, Ho |- *.
    + split; [|right; exists x, rest; auto]. split; [done..| |done].
      econstructor; [done|exists rest; cbn; split; [done|reflexivity]|].
      constructor; [done|by symmetry].
    + split; [|right; exists x, rest; auto]. split; [done..| |done].
      econstructor; [done|exists rest; cbn; split; [done|reflexivity]|].
      constructor; [|by symmetry]. by apply NoDup_cons in Hu' as [_ ?].
  - destruct (apply_none (tx_resource tx) i f tx) as (Hl & Ho & Hs);
      [apply release_selective|done|].
    exists (tx_apply_iters f tx), []. split; [done|]. split; [|by left].
    split; [done|done|by rewrite app_nil_r| |done]. constructor; [done|by symmetry].
Qed.
End Apply.
