(* ===== verification/ServerRun.v ===== *)
(** * The life of a server (guardian/server.go, [Server.Run])

    [Run] purges the leases, listens, starts the goroutines that serve requests
    and refresh leases, waits for one of them to fail or for its context, shuts
    down and purges again.  The goroutines are steps over the handlers of
    [Concurrency.v]: a purge or a refresh is one of them, for which its
    goroutine waits.  What the environment decides -- requests, the context of
    the caller, a failure of [Serve] -- is told from what the server does by
    itself ([own_move]); the time-out of the shutdown is the server's. *)

From S2P Require Import Prelude GoTime Lease LeaseSet Tx Policy Provider Program Server Concurrency.

(** How [Run] ends once it has purged the leases: it returns an error, or a
    panic goes on, which ends the process. *)
Inductive Exit :=
| ExitError (err : error)
| ExitPanic (msg : string).

(** Where [Run] is; [i] is the handler that it waits for. *)
Inductive RunPhase :=
| FirstPurge (i : nat)
| Listen
| Selecting
| ServeFailed (err : error)
| ContextDone
| ShuttingDown
| Draining
| AwaitingResult
| LastPurge (i : nat) (exit : Exit)
| Returned (err : error)
| Died (msg : string).

(** The goroutine of [srv.Serve]: it closes the listener when it ends, and sends
    its error once. *)
Inductive Serving :=
| NotServing
| Serves
| Served (err : error)
| ResultReceived.

(** The goroutine that refreshes leases. *)
Inductive Refresher :=
| NoRefresher
| AwaitsTick
| Refreshing (i : nat)
| RefresherEnded.

Definition ErrServerClosed : error := "http: Server closed".
Definition nil_logger : string := "invalid memory address or nil pointer dereference".

Section Run.
Context `{SO : Sorter, GT : GoText}.
Context {St : Type} `{LP : LeaseProvider St}.
Context (policies_ok : result PolicySet -> Prop).

(** The requests that may arrive. *)
Context (request : prog () -> Prop).

(** The configuration: whether the refresh interval is positive, whether there
    is a logger, and what the system answers to [net.Listen]. *)
Context (refreshes has_logger : bool) (listen_err : option error).

(** [lf_done] holds once the context is done, by the caller's cancellation or by
    [Run]'s; [lf_open] while there may be connections that send requests. *)
Record Life := mkLife {
  lf_phase : RunPhase;
  lf_done : bool;
  lf_serving : Serving;
  lf_open : bool;
  lf_refresher : Refresher;
  lf_sys : @system St;
}.

Definition set_phase (p : RunPhase) (l : Life) : Life :=
  mkLife p (lf_done l) (lf_serving l) (lf_open l) (lf_refresher l) (lf_sys l).
Definition set_done (l : Life) : Life :=
  mkLife (lf_phase l) true (lf_serving l) (lf_open l) (lf_refresher l) (lf_sys l).
Definition set_serving (s : Serving) (l : Life) : Life :=
  mkLife (lf_phase l) (lf_done l) s (lf_open l) (lf_refresher l) (lf_sys l).
Definition set_open (b : bool) (l : Life) : Life :=
  mkLife (lf_phase l) (lf_done l) (lf_serving l) b (lf_refresher l) (lf_sys l).
Definition set_refresher (r : Refresher) (l : Life) : Life :=
  mkLife (lf_phase l) (lf_done l) (lf_serving l) (lf_open l) r (lf_sys l).
Definition set_sys (s : system) (l : Life) : Life :=
  mkLife (lf_phase l) (lf_done l) (lf_serving l) (lf_open l) (lf_refresher l) s.

(** A goroutine of the server becomes one more handler. *)
Definition spawn (p : prog ()) (l : Life) : nat * Life :=
  let hs := sys_handlers (lf_sys l) in
  (length hs, set_sys (mkSystem (sys_provider (lf_sys l)) (hs ++ [p]) (sys_commits (lf_sys l))) l).

Definition purge : prog () := _ ← Purge; Done tt.

Definition run_start (st : St) : Life :=
  mkLife (FirstPurge 0) false NotServing false NoRefresher (mkSystem st [purge] 0).

(** The deferred calls: the context is cancelled, then the leases are purged. *)
Definition deferred (exit : Exit) (l : Life) : Life :=
  let l := set_done l in
  let '(i, l) := spawn purge l in set_phase (LastPurge i exit) l.

(** After them [Run] returns, or its panic ends the process. *)
Definition exited (exit : Exit) : RunPhase :=
  match exit with ExitError err => Returned err | ExitPanic msg => Died msg end.

(** [net.Listen], its error -- for which the logger is used whether there is one
    or not --, and the goroutines that are started. *)
Definition listen (l : Life) : Life :=
  match listen_err with
  | Some e =>
      if has_logger then deferred (ExitError e) l
      else deferred (ExitPanic nil_logger) l
  | None =>
      let l := set_open true (set_serving Serves l) in
      let l := if refreshes then set_refresher AwaitsTick l else l in
      set_phase Selecting l
  end.

(** [Serve] has failed: [Run] receives its error and cancels the context. *)
Definition serve_result (e : error) (l : Life) : Life :=
  let l := set_serving ResultReceived l in
  let l := set_done l in
  set_phase (ServeFailed e) l.

(** Receiving from [refreshDone], which is nil without a refresher. *)
Definition refresher_ended (l : Life) : bool :=
  match lf_refresher l with NoRefresher | RefresherEnded => true | _ => false end.

(** [srv.Shutdown] closes the listener, at which [Serve] returns, and waits for
    the connections. *)
Definition server_shutdown (l : Life) : Life :=
  let l := match lf_serving l with Serves => set_serving (Served ErrServerClosed) l | _ => l end in
  set_phase Draining l.

Definition handler (l : Life) (i : nat) : option (prog ()) := sys_handlers (lf_sys l) !! i.

(** A handler of requests that panics ends alone. *)
Definition finished (p : prog ()) : bool := match p with Done _ | Crash _ => true | _ => false end.

(** What the environment does: a request arrives on an open connection, the
    caller cancels the context, [Serve] fails. *)
Inductive env_move : Life -> Life -> Prop :=
| ls_request l p : lf_open l = true -> request p -> env_move l (spawn p l).2
| ls_cancel l : env_move l (set_done l)
| ls_serve_failed l e : lf_serving l = Serves -> env_move l (set_serving (Served e) l).

Inductive own_move : Life -> Life -> Prop :=
| ls_call l i p p' st' n :
    handler l i = Some p -> call policies_ok p (sys_provider (lf_sys l)) p' st' n ->
    own_move l (set_sys (mkSystem st' (<[i := p']> (sys_handlers (lf_sys l))) (sys_commits (lf_sys l) + n)) l)
| ls_first_purged l i a : lf_phase l = FirstPurge i -> handler l i = Some (Done a) -> own_move l (set_phase Listen l)
| ls_listen l : lf_phase l = Listen -> own_move l (listen l)
| ls_tick l :
    lf_refresher l = AwaitsTick ->
    own_move l (let '(i, l) := spawn refreshLeases l in set_refresher (Refreshing i) l)
| ls_refreshed l i a :
    lf_refresher l = Refreshing i -> handler l i = Some (Done a) -> own_move l (set_refresher AwaitsTick l)
| ls_refresher_done l :
    lf_refresher l = AwaitsTick -> lf_done l = true -> own_move l (set_refresher RefresherEnded l)
| ls_select_result l e :
    lf_phase l = Selecting -> lf_serving l = Served e -> own_move l (serve_result e l)
| ls_select_done l : lf_phase l = Selecting -> lf_done l = true -> own_move l (set_phase ContextDone l)
| ls_failed l e :
    lf_phase l = ServeFailed e -> refresher_ended l = true -> own_move l (deferred (ExitError e) l)
| ls_done l : lf_phase l = ContextDone -> refresher_ended l = true -> own_move l (set_phase ShuttingDown l)
| ls_shutdown l : lf_phase l = ShuttingDown -> own_move l (server_shutdown l)
| ls_drained l :
    lf_phase l = Draining -> Forall (fun p => finished p = true) (sys_handlers (lf_sys l)) ->
    own_move l (set_phase AwaitingResult (set_open false l))
| ls_timeout l : lf_phase l = Draining -> own_move l (set_phase AwaitingResult l)
| ls_result l e :
    lf_phase l = AwaitingResult -> lf_serving l = Served e ->
    own_move l (deferred (ExitError e) (set_serving ResultReceived l))
| ls_last_purged l i exit a :
    lf_phase l = LastPurge i exit -> handler l i = Some (Done a) -> own_move l (set_phase (exited exit) l)
| ls_own_panic l i msg :
    match lf_phase l with FirstPurge j | LastPurge j _ => i = j | _ => False end \/ lf_refresher l = Refreshing i ->
    handler l i = Some (Crash msg) -> own_move l (set_phase (Died msg) l).

(** Nothing happens any more in a process that has died. *)
Definition alive (l : Life) : Prop := match lf_phase l with Died _ => False | _ => True end.

Definition own_step (l l' : Life) : Prop := alive l /\ own_move l l'.
Definition life_step (l l' : Life) : Prop := alive l /\ (env_move l l' \/ own_move l l').
End Run.
Arguments Life St : clear implicits.
