(* ===== verification/Daemon.v ===== *)
(** * The guardian command (cmd/resourceful/guardian.go)

    [GuardianCmd.Run] checks its configuration, opens what the server needs,
    runs the server and closes everything again.  The run is a function of the
    answers of the operating system and of the server; its effects are a trace,
    in which the deferred calls of the source stand where they are executed.
    Flags, log output and the web files are left out. *)

From S2P Require Import Prelude GoStrings GoTime Policy LogProv ServerRun.

Record GuardianCmd := mkGuardianCmd {
  gc_LeaseStorage : string;
  gc_BoltPath : string;
  gc_PolicyPath : string;
  gc_TxPath : string;
  gc_Schedule : string;
  gc_StatHatKey : string;
  gc_StatsInterval : Duration;
}.

(** What the server needs; the lease provider writes to the transaction log,
    if there is one. *)
Inductive Resource :=
| TransactionLog
| LeaseProvider_ (storage : string) (logged : bool) (schedule : list Schedule)
| PolicyProvider_ (path : string).

#[export] Instance scheduleType_eq_dec : EqDecision scheduleType.
Proof. solve_decision. Defined.
#[export] Instance Schedule_eq_dec : EqDecision Schedule.
Proof. solve_decision. Defined.
#[export] Instance Resource_eq_dec : EqDecision Resource.
Proof. solve_decision. Defined.

Inductive Act :=
| Open (r : Resource)
| Close (r : Resource)
| LoadPolicies
| InitStats
| StartStats (interval : Duration)
| Serve
| StopStats.

(** [defer r.Close()] after [r] was opened. *)
Definition with_open (r : Resource) (body : option error * list Act) : option error * list Act :=
  (body.1, Open r :: body.2 ++ [Close r]).

Section Guardian.
Context `{GT : GoText}.

(** The answers of the system. *)
Context (getwd : result string) (abs : string -> result string).
Context (open_log bolt_open sub_fs : option error).
Context (policies : option error) (stats_init : option error) (server : error).

Definition minStatsInterval : Duration := (5 * Second)%Z.

(** Whether there is a transaction log. *)
Definition createTransactionLog (path : string) : result bool :=
  if decide (path = "") then Ok false
  else match open_log with Some e => Err e | None => Ok true end.

Definition createLeaseProvider (storage boltPath : string) : result string :=
  let s := ToLower storage in
  if decide (s = "mem" \/ s = "memory") then Ok "memory"
  else if decide (s = "bolt" \/ s = "boltdb") then
    match bolt_open with
    | Some e => Err ("unable to open or create bolt database " +:+ quoted boltPath +:+ ": " +:+ e)
    | None => Ok "bolt"
    end
  else Err ("unknown lease storage type: " +:+ storage).

Definition createStatRecipient (statHatKey : string) : bool := negb (bool_decide (statHatKey = "")).

(** From the test of the policies to the end of the server. *)
Definition serve_policies (cmd : GuardianCmd) (interval : Duration) : option error * list Act :=
  match policies with
  | Some _ => (None, [LoadPolicies])
  | None =>
      if createStatRecipient (gc_StatHatKey cmd) then
        match stats_init with
        | Some e => (Some e, [LoadPolicies; InitStats])
        | None => (Some server, [LoadPolicies; InitStats; StartStats interval; Serve; StopStats])
        end
      else (Some server, [LoadPolicies; Serve])
  end.

Definition with_log (logged : bool) (body : option error * list Act) : option error * list Act :=
  if logged then with_open TransactionLog body else body.

Definition guardian_run (cmd : GuardianCmd) : option error * list Act :=
  let interval := if decide (gc_StatsInterval cmd < minStatsInterval)%Z then minStatsInterval
                  else gc_StatsInterval cmd in
  match (if decide (gc_PolicyPath cmd = "") then getwd else Ok (gc_PolicyPath cmd)) with
  | Err _ => (None, [])
  | Ok path =>
      match abs path with
      | Err _ => (None, [])
      | Ok path =>
          match (if decide (gc_Schedule cmd <> "") then ParseSchedule (gc_Schedule cmd)
                 else Ok []) with
          | Err e => (Some e, [])
          | Ok schedule =>
              match createTransactionLog (gc_TxPath cmd) with
              | Err e => (Some e, [])
              | Ok logged =>
                  with_log logged
                    match createLeaseProvider (gc_LeaseStorage cmd) (gc_BoltPath cmd) with
                    | Err e => (Some e, [])
                    | Ok storage =>
                        with_open (LeaseProvider_ storage logged schedule)
                          (with_open (PolicyProvider_ path)
                            match sub_fs with
                            | Some e => (Some e, [])
                            | None => serve_policies cmd interval
                            end)
                    end
              end
          end
      end
  end.

(** ** What the run keeps in order *)

(** A resource is closed after all that was opened later; what the server and
    its statistics use is open; statistics start before the server, with an
    interval of at least five seconds, and stop after it. *)
Definition uses (open : list Resource) : bool :=
  match open with
  | PolicyProvider_ _ :: LeaseProvider_ _ logged _ :: rest =>
      bool_decide (rest = if logged then [TransactionLog] else [])
  | _ => false
  end.

Fixpoint orderly (open : list Resource) (stats : bool) (trace : list Act) : bool :=
  match trace with
  | [] => bool_decide (open = []) && negb stats
  | Open r :: trace => bool_decide (r ∉ open) && orderly (r :: open) stats trace
  | Close r :: trace =>
      match open with
      | r' :: open => bool_decide (r = r') && negb stats && orderly open stats trace
      | [] => false
      end
  | (LoadPolicies | InitStats) :: trace => uses open && negb stats && orderly open stats trace
  | StartStats interval :: trace =>
      uses open && negb stats && bool_decide (minStatsInterval <= interval)%Z
      && match trace with Serve :: StopStats :: _ => orderly open true trace | _ => false end
  | Serve :: trace => uses open && orderly open stats trace
  | StopStats :: trace => uses open && stats && orderly open false trace
  end.

Lemma orderly_uses_serve cmd interval rest open :
  uses open = true -> (minStatsInterval <= interval)%Z ->
  orderly open false rest = true -> orderly open false ((serve_policies cmd interval).2 ++ rest) = true.
Proof.
  intros Hu Hi Hr. unfold serve_policies.
  repeat case_match; cbn; rewrite ?Hu; cbn; rewrite ?bool_decide_true by done; done.
Qed.

(** Whatever fails, all that was opened is closed, in the reverse order: the
    transaction log outlives the lease provider, and the last statistics are
    sent when the server has stopped and the providers are still open. *)
Lemma guardian_orderly cmd : orderly [] false (guardian_run cmd).2 = true.
Proof.
  unfold guardian_run. set (interval := if decide (gc_StatsInterval cmd < minStatsInterval)%Z then _ else _).
  assert (Hi : (minStatsInterval <= interval)%Z) by (unfold interval; case_decide; lia). clearbody interval.
  destruct (if decide (gc_PolicyPath cmd = "") then getwd else _) as [path|]; [|done].
  destruct (abs path) as [path'|]; [|done].
  destruct (if decide _ then ParseSchedule _ else _) as [schedule|]; [|done].
  destruct (createTransactionLog (gc_TxPath cmd)) as [logged|]; [|done].
  assert (Hin : forall storage open, uses (PolicyProvider_ path' :: LeaseProvider_ storage logged schedule :: open) = true ->
    LeaseProvider_ storage logged schedule ∉ open -> PolicyProvider_ path' ∉ open ->
    forall rest, orderly open false rest = true ->
    orderly open false ((with_open (LeaseProvider_ storage logged schedule) (with_open (PolicyProvider_ path')
      match sub_fs with Some e => (Some e, []) | None => serve_policies cmd interval end)).2 ++ rest) = true).
  { intros storage open Hu Hl Hp rest Hr. cbn [with_open snd app orderly].
    rewrite bool_decide_true by done. cbn [andb]. rewrite bool_decide_true by set_solver. cbn [andb].
    rewrite <- !app_assoc. cbn [app].
    destruct sub_fs as [e|]; cbn [snd app orderly].
    - rewrite !bool_decide_true by done. done.
    - apply orderly_uses_serve; [done|done|]. cbn [orderly]. rewrite !bool_decide_true by done. done. }
  destruct (createLeaseProvider (gc_LeaseStorage cmd) (gc_BoltPath cmd)) as [storage|e].
  - destruct logged; cbn [with_log].
    + cbn [with_open snd orderly app]. rewrite bool_decide_true by set_solver. cbn [andb].
      apply (Hin storage [TransactionLog]); [by apply bool_decide_true|set_solver..|]. reflexivity.
    + specialize (Hin storage [] ltac:(by apply bool_decide_true) ltac:(set_solver) ltac:(set_solver) [] eq_refl).
      by rewrite app_nil_r in Hin.
  - by destruct logged.
Qed.

(** No server runs on policies that cannot be loaded. *)
Lemma guardian_bad_policies cmd : policies <> None -> Serve ∉ (guardian_run cmd).2.
Proof.
  intros Hp. unfold guardian_run, with_log, serve_policies. destruct policies; [|done].
  repeat case_match; cbn; set_solver.
Qed.
End Guardian.

(** The error of a server that was shut down is returned like any other, and
    [main] reports it and exits with a failure. *)
Lemma guardian_shutdown_fails :
  exists cmd, (guardian_run (GT := {| ToLower s := s; regexp_Compile _ := None |})
    (Ok "/") Ok None None None None None ErrServerClosed cmd).1 = Some ErrServerClosed.
Proof. exists (mkGuardianCmd "memory" "" "" "" "" "" Minute). reflexivity. Qed.
