(* ===== verification/ServerSafe.v ===== *)
(** * The server's transactions keep the limits

    The page invariant of a resource: its leases have unique identities, count
    by one strategy under limits of at most [limit_of], and do not consume more
    than that.  Every transaction the server commits is built on the leases it
    has viewed and keeps the invariant, hence (through [Concurrency.v]) every
    interleaving of its handlers does. *)

From S2P Require Import Prelude GoTime Lease LeaseSet Tx LeaseUtil Refresh Policy Provider Program Server Concurrency TxProps.

(** ** Consumption when one lease changes *)

Lemma consumption_cons_replace strat x y rest :
  (status_upto 1 y -> status_upto 1 x) -> ls_HostUser y = ls_HostUser x ->
  (consumption strat (y :: rest) <= consumption strat (x :: rest))%N.
Proof.
  intros Hs Hu. unfold consumption. case_decide.
  - rewrite !holders_cons, Hu. repeat case_decide; try tauto; try lia.
    pose proof (subseteq_size (holders (status_upto 1) rest)
      ({[ls_HostUser x]} ∪ holders (status_upto 1) rest) ltac:(set_solver)). lia.
  - rewrite !count_cons. repeat case_decide; try tauto; lia.
Qed.

Lemma consumption_cons_ge strat x rest :
  (consumption strat rest <= consumption strat (x :: rest))%N.
Proof.
  change (x :: rest) with ([x] ++ rest). rewrite (Permutation_app_comm [x] rest).
  apply consumption_app_l.
Qed.

Lemma consumption_cons_idle strat x rest :
  ~ status_upto 1 x -> consumption strat (x :: rest) = consumption strat rest.
Proof.
  intros Hx. change (x :: rest) with ([x] ++ rest). rewrite (Permutation_app_comm [x] rest).
  by apply consumption_snoc_idle.
Qed.

(** A lease that may be activated fits under the limit. *)
Lemma consumption_activated strat a s l limit L :
  acc_sync a [] s -> (limit <= L)%N -> (consumption strat s <= L)%N ->
  CanActivate strat (Accumulator_Active a (ls_HostUser l)) (Accumulator_Total a strat) limit = true ->
  (consumption strat (l :: s) <= L)%N.
Proof.
  intros Hsync HL Hs Hcan. rewrite (acc_sync_Total _ _ _ _ Hsync) in Hcan.
  change (l :: s) with ([l] ++ s). rewrite (Permutation_app_comm [l] s).
  apply CanActivate_true in Hcan as [Hlt|(_ & -> & Hact)].
  - pose proof (consumption_snoc_le strat s l). lia.
  - rewrite consumption_snoc_held; [done|].
    unfold Accumulator_Active in Hact. rewrite (sync_active _ _ _ Hsync), count_nil in Hact.
    assert (Hc : (0 < count (with_status Active (ls_HostUser l)) s)%N) by lia.
    apply count_pos in Hc as (x & Hx & Hxs & Hxc). apply elem_of_holders.
    exists x. split; [done|]. split; [apply status_upto_1; auto|done].
Qed.

(** ** The invariant *)

Section Invariant.
Context (strat_of : string -> Strategy) (limit_of : string -> N).
Context (host_ok : string -> Prop).

(** What every lease under the resource [r] satisfies. *)
Definition lease_ok (r : string) (l : Lease) : Prop :=
  ls_Resource l = r /\ ls_Strategy l = strat_of r /\ (ls_Limit l <= limit_of r)%N
  /\ host_ok (inst_Host (ls_Instance l)).

Record page_ok (r : string) (s : LeaseSet) : Prop := {
  pg_unique : unique_ids s;
  pg_leases : Forall (lease_ok r) s;
  pg_limit : (consumption (strat_of r) s <= limit_of r)%N;
}.

#[export] Instance page_ok_perm r : Proper ((≡ₚ) ==> iff) (page_ok r).
Proof.
  assert (H : forall s1 s2, s1 ≡ₚ s2 -> page_ok r s1 -> page_ok r s2).
  { intros s1 s2 Hp [? ? ?]. split; by rewrite <- Hp. }
  intros s1 s2 Hp. split; by apply H.
Qed.

Lemma page_ok_nil r : page_ok r [].
Proof.
  split; [constructor|constructor|].
  unfold consumption. rewrite count_nil, holders_nil, size_empty. case_decide; lia.
Qed.

Lemma refreshed_lease_ok r at_ l l' : refreshed at_ l l' -> lease_ok r l -> lease_ok r l'.
Proof. by destruct 1. Qed.

Lemma lease_ok_within r l : lease_ok r l -> within (strat_of r) (limit_of r) l.
Proof. intros (_ & Hs & Hl & _) _. done. Qed.

Section Transactions.
Context `{SO : Sorter, HSO : !SorterSpec SO}.

(** A transaction on a page that keeps the invariant. *)
Definition tx_ok (tx tx' : Tx) : Prop :=
  (exists ops, extends tx tx' ops) /\ page_ok (tx_resource tx) (tx_leases tx').

Lemma tx_ok_trans tx1 tx2 tx3 : tx_ok tx1 tx2 -> tx_ok tx2 tx3 -> tx_ok tx1 tx3.
Proof.
  intros [[ops1 H1] _] [[ops2 H2] Hp]. split; [eexists; by eapply extends_trans|].
  by rewrite <- (ext_resource _ _ _ H1).
Qed.

Lemma Refresh_ok tx at_ :
  page_ok (tx_resource tx) (tx_leases tx) -> sorted_set (tx_leases tx) ->
  exists a tx', Refresh tx at_ = Ret (a, tx') /\ tx_ok tx tx'
    /\ refreshed_set at_ (tx_leases tx) (tx_leases tx') a.
Proof.
  intros [Hu Hl Hc] Hsort.
  destruct (Refresh_rule tx at_) as (a & tx' & ops & Hrun & Hr & Hv & Ho & Hs & Hrs & Hj).
  exists a, tx'. split; [done|]. split; [|exact Hrs].
  assert (Hext : extends tx tx' ops) by (split; [done..|by apply Hj|done]).
  split; [by eexists|]. split.
  - by apply (extends_unique _ _ _ Hext).
  - apply Forall_forall. intros l' Hl'.
    destruct (refreshed_set_elem _ _ _ _ _ Hrs Hl') as (l & Hin & HR).
    eapply refreshed_lease_ok; [done|]. rewrite Forall_forall in Hl. by apply Hl.
  - etrans; [apply (rs_safe _ _ _ _ Hrs (strat_of (tx_resource tx)) (limit_of (tx_resource tx)) Hsort)|lia].
    eapply Forall_impl; [exact Hl|]. apply lease_ok_within.
Qed.

(** Replacing the lease [x] by [ls] in a page. *)
Lemma update_ok tx x rest ls :
  page_ok (tx_resource tx) (tx_leases tx) ->
  tx_leases tx ≡ₚ x :: rest -> lease_ok (tx_resource tx) ls ->
  ls_HostUser ls = ls_HostUser x -> (status_upto 1 ls -> status_upto 1 x) ->
  lease_id ls = lease_id x \/ lease_id ls ∉ (lease_id <$> tx_leases tx) ->
  exists tx', Tx_Update (ls_Instance x) ls tx = Ret tx' /\ tx_ok tx tx'
    /\ tx_ops tx' <> [] /\ tx_leases tx' ≡ₚ ls :: rest.
Proof.
  intros [Hu Hl Hc] Hp Hls Hhu Hst Hid.
  assert (Hx : lease_ok (tx_resource tx) x /\ Forall (lease_ok (tx_resource tx)) rest).
  { rewrite Hp in Hl. by apply Forall_cons. }
  assert (Hu' : unique_ids (ls :: rest)).
  { unfold unique_ids in *. rewrite Hp, fmap_cons in Hu. rewrite fmap_cons.
    apply NoDup_cons in Hu as [Hn Hu]. apply NoDup_cons. split; [|done].
    destruct Hid as [->|Hid]; [done|]. rewrite Hp, fmap_cons in Hid.
    intros Hin. apply Hid. by right. }
  destruct (Tx_Update_extends tx x rest ls Hp) as (tx' & Hrun & Hext & Hperm); [apply Hx|done..|].
  exists tx'. split; [done|]. split; [|split; [by apply (extends_nonempty tx tx' (mkOp OpUpdate x ls))|done]].
  split; [by eexists|]. split.
  - by apply (extends_unique _ _ _ Hext).
  - rewrite Hperm. apply Forall_cons. split; [done|apply Hx].
  - rewrite Hperm. etrans; [by apply consumption_cons_replace|]. by rewrite <- Hp.
Qed.

Lemma create_ok tx ls :
  page_ok (tx_resource tx) (tx_leases tx) -> lease_ok (tx_resource tx) ls ->
  lease_id ls ∉ (lease_id <$> tx_leases tx) ->
  (consumption (strat_of (tx_resource tx)) (ls :: tx_leases tx) <= limit_of (tx_resource tx))%N ->
  tx_ok tx (Tx_Create ls tx) /\ tx_ops (Tx_Create ls tx) <> []
  /\ tx_leases (Tx_Create ls tx) ≡ₚ ls :: tx_leases tx.
Proof.
  intros [Hu Hl Hc] Hls Hid Hcon.
  assert (Hu' : unique_ids (ls :: tx_leases tx)) by (unfold unique_ids; rewrite fmap_cons; by apply NoDup_cons).
  destruct (Tx_Create_extends tx ls Hu Hu') as [Hext Hperm].
  split; [|split; [by apply (extends_nonempty _ _ _ Hext)|done]]. split; [by eexists|]. split.
  - by apply (extends_unique _ _ _ Hext).
  - rewrite Hperm. by apply Forall_cons.
  - by rewrite Hperm.
Qed.

(** Consumers told apart by their host and user. *)
Definition unambiguous (subject : Subject) (s : LeaseSet) : Prop :=
  forall l, l ∈ s -> ls_HostUser l = Subject_HostUser subject ->
    inst_Host (ls_Instance l) = inst_Host (sub_Instance subject)
    /\ inst_User (ls_Instance l) = inst_User (sub_Instance subject).

Lemma replaceable_elem tx subject l :
  let i := sub_Instance subject in
  l ∈ Set_Status (Tx_HostUser tx (inst_Host i) (inst_User i)) Released ->
  l ∈ tx_leases tx /\ ls_Status l = Released /\ ls_HostUser l = Subject_HostUser subject.
Proof.
  cbn zeta. unfold Tx_HostUser. rewrite Set_Status_filter, Set_HostUser_filter.
  rewrite !list_elem_of_filter, !Is_true_true, MatchHostUser_true.
  intros (Hs & (_ & Hh & Hu) & Hl). split; [done|].
  unfold Lease_MatchStatus in Hs. rewrite bool_decide_eq_true in Hs. split; [done|].
  unfold ls_HostUser, Subject_HostUser. unfold ls_Instance in *. by rewrite Hh, Hu.
Qed.

Lemma replaceable_length tx subject :
  let i := sub_Instance subject in
  Forall (lease_ok (tx_resource tx)) (tx_leases tx) -> unambiguous subject (tx_leases tx) ->
  N.of_nat (length (Set_Status (Tx_HostUser tx (inst_Host i) (inst_User i)) Released))
  = count (with_status Released (Subject_HostUser subject)) (tx_leases tx).
Proof.
  cbn zeta. intros Hok Hun. unfold Tx_HostUser.
  rewrite Set_Status_filter, Set_HostUser_filter, list_filter_filter.
  apply (count_ext (fun a => Lease_MatchStatus a Released /\ Lease_MatchHostUser a (tx_resource tx)
    (inst_Host (sub_Instance subject)) (inst_User (sub_Instance subject)))).
  intros l Hl. rewrite Forall_forall in Hok. destruct (Hok l Hl) as [Hr _].
  rewrite !Is_true_true, MatchHostUser_true. unfold Lease_MatchStatus, with_status.
  rewrite bool_decide_eq_true. split.
  - intros (Hs & _ & Hh & Hu). split; [done|]. unfold ls_HostUser, Subject_HostUser.
    unfold ls_Instance in *. by rewrite Hh, Hu.
  - intros [Hs Hc]. split; [done|]. split; [done|]. by apply Hun.
Qed.

Lemma found_elem tx subject existing :
  Tx_Instance tx (sub_Instance subject) = Some existing ->
  existing ∈ tx_leases tx /\ ls_Resource existing = tx_resource tx
  /\ ls_Instance existing = sub_Instance subject.
Proof. apply Set_Instance_Some. Qed.

Lemma not_found_id tx subject :
  Tx_Instance tx (sub_Instance subject) = None ->
  (tx_resource tx, sub_Instance subject) ∉ (lease_id <$> tx_leases tx).
Proof.
  unfold Tx_Instance. rewrite Set_Instance_None. intros H (l & He & Hl)%list_elem_of_fmap.
  apply (H l Hl). unfold lease_id in He. by injection He.
Qed.

(** The lease offered has the subject, strategy and limit of the request. *)
Definition offered (r : string) (subject : Subject) (ls : Lease) : Prop :=
  ls_Subject ls = subject /\ lease_ok r ls.

Lemma offered_HostUser r subject ls x :
  offered r subject ls -> ls_Instance x = sub_Instance subject -> ls_HostUser ls = ls_HostUser x.
Proof.
  intros [<- _] Hi. unfold ls_HostUser, Subject_HostUser, ls_Instance in *. by rewrite Hi.
Qed.

Lemma offered_id r subject ls x :
  offered r subject ls -> ls_Resource x = r -> ls_Instance x = sub_Instance subject ->
  lease_id ls = lease_id x.
Proof.
  intros [<- (Hr & _)] Hx Hi. unfold lease_id. rewrite Hr, Hx. f_equal. by rewrite Hi.
Qed.

Lemma offered_status r subject st ls : offered r subject ls -> offered r subject (set_Status st ls).
Proof. done. Qed.
Lemma offered_started r subject t ls : offered r subject ls -> offered r subject (set_Started t ls).
Proof. done. Qed.
#[local] Hint Resolve offered_status offered_started : core.

(** The branch of [acquire_tx] for a lease that the requester already holds. *)
Lemma renew_ok tx subject existing ls :
  page_ok (tx_resource tx) (tx_leases tx) ->
  Tx_Instance tx (sub_Instance subject) = Some existing ->
  offered (tx_resource tx) subject ls -> (status_upto 1 ls -> status_upto 1 existing) ->
  exists tx' rest, Tx_Update (ls_Instance existing) ls tx = Ret tx' /\ tx_ok tx tx' /\ tx_ops tx' <> []
    /\ tx_leases tx ≡ₚ existing :: rest /\ tx_leases tx' ≡ₚ ls :: rest.
Proof.
  intros Hpage (Hin & Hr & Hi)%found_elem Hoff Hst.
  apply elem_of_Permutation in Hin as [rest Hp].
  destruct (update_ok tx existing rest ls) as (tx' & ? & ? & ? & ?); try done; [..|by exists tx', rest].
  - apply Hoff.
  - by apply (offered_HostUser (tx_resource tx) subject).
  - left. by apply (offered_id (tx_resource tx) subject).
Qed.

Lemma status_upto_Active ls : status_upto 1 (set_Status Active ls).
Proof. apply status_upto_1. by left. Qed.
Lemma status_upto_Released ls : ls_Status ls = Released -> status_upto 1 ls.
Proof. intros H. apply status_upto_1. by right. Qed.
Lemma status_upto_Queued ls : ~ status_upto 1 (set_Status Queued ls).
Proof. by apply not_upto_1_Queued. Qed.

(** The branch for a requester whose consumer has a released lease. *)
Lemma replace_ok tx subject ls released :
  let i := sub_Instance subject in
  let replaceable := Set_Status (Tx_HostUser tx (inst_Host i) (inst_User i)) Released in
  page_ok (tx_resource tx) (tx_leases tx) -> offered (tx_resource tx) subject ls ->
  (tx_resource tx, sub_Instance subject) ∉ (lease_id <$> tx_leases tx) ->
  (0 < released)%N -> N.of_nat (length replaceable) = released ->
  exists replaced tx' rest, replaceable !! N.to_nat (released - 1) = Some replaced
    /\ Tx_Update (ls_Instance replaced) (set_Status Active ls) tx = Ret tx'
    /\ tx_ok tx tx' /\ tx_ops tx' <> [] /\ ls_Status replaced = Released
    /\ ls_HostUser replaced = Subject_HostUser subject
    /\ tx_leases tx ≡ₚ replaced :: rest /\ tx_leases tx' ≡ₚ set_Status Active ls :: rest.
Proof.
  cbn zeta. intros Hpage Hoff Hid Hpos Hlen.
  destruct (lookup_lt_is_Some_2 (Set_Status (Tx_HostUser tx (inst_Host (sub_Instance subject))
    (inst_User (sub_Instance subject))) Released) (N.to_nat (released - 1))) as [x Hx]; [lia|].
  pose proof (list_elem_of_lookup_2 _ _ _ Hx) as Hin.
  apply replaceable_elem in Hin as (Hin & Hxs & Hxu).
  apply elem_of_Permutation in Hin as [rest Hp].
  destruct (update_ok tx x rest (set_Status Active ls) Hpage Hp) as (tx' & Hrun & Hok & Hne & Hels).
  - apply Hoff.
  - destruct Hoff as [Hs _]. rewrite Hxu. unfold ls_HostUser. cbn. by rewrite Hs.
  - intros _. by apply status_upto_Released.
  - right. destruct Hoff as [Hs (Hr & _)]. unfold lease_id, ls_Resource, ls_Instance in *.
    cbn. by rewrite Hr, Hs.
  - by exists x, tx', rest.
Qed.

Lemma released_count a subject s :
  acc_sync a [] s ->
  Accumulator_Released a (Subject_HostUser subject)
  = count (with_status Released (Subject_HostUser subject)) s.
Proof.
  intros Hsync. pose proof (sync_released _ _ _ Hsync (Subject_HostUser subject)) as H.
  rewrite count_nil in H. unfold Accumulator_Released. lia.
Qed.

(** The branch that issues a new lease. *)
Lemma issue_ok tx a subject policies ls :
  page_ok (tx_resource tx) (tx_leases tx) -> acc_sync a [] (tx_leases tx) ->
  offered (tx_resource tx) subject ls ->
  (tx_resource tx, sub_Instance subject) ∉ (lease_id <$> tx_leases tx) ->
  PolicySet_Strategy policies = strat_of (tx_resource tx) ->
  (PolicySet_Limit policies <= limit_of (tx_resource tx))%N ->
  let strat := PolicySet_Strategy policies in
  let ls' := set_Status
    (if CanActivate strat (Accumulator_Active a (Subject_HostUser subject))
          (Accumulator_Total a strat) (PolicySet_Limit policies)
     then Active else Queued) ls in
  tx_ok tx (Tx_Create ls' tx) /\ tx_ops (Tx_Create ls' tx) <> []
  /\ tx_leases (Tx_Create ls' tx) ≡ₚ ls' :: tx_leases tx.
Proof.
  cbn zeta. intros Hpage Hsync [Hs Hls] Hid Hstrat Hlim.
  apply create_ok; [done|by destruct Hls as (? & ? & ? & ?)| |].
  - destruct Hls as (Hr & _). unfold lease_id, ls_Resource, ls_Instance in *. cbn. by rewrite Hr, Hs.
  - destruct (CanActivate _ _ _ _) eqn:Hcan.
    + apply (consumption_activated _ a _ _ (PolicySet_Limit policies)); [done|done|apply Hpage|].
      rewrite <- Hstrat. unfold ls_HostUser. cbn. by rewrite Hs.
    + rewrite consumption_cons_idle by apply status_upto_Queued. apply Hpage.
Qed.

(** What an acquisition decides, once the leases are refreshed ([tx1]). *)
Inductive decision (subject : Subject) (policies : PolicySet) (ls : Lease) (a : Accumulator)
  (tx1 tx' : Tx) : Lease -> Prop :=
| d_reacquired existing rest :
    Tx_Instance tx1 (sub_Instance subject) = Some existing -> ls_Status existing = Released ->
    tx_leases tx1 ≡ₚ existing :: rest ->
    let consumed := Accumulator_Total a (PolicySet_Strategy policies) in
    let ls' := set_Status (if decide (consumed <= PolicySet_Limit policies)%N then Active else Queued) ls in
    tx_leases tx' ≡ₚ ls' :: rest -> decision subject policies ls a tx1 tx' ls'
| d_renewed existing rest :
    Tx_Instance tx1 (sub_Instance subject) = Some existing -> ls_Status existing <> Released ->
    tx_leases tx1 ≡ₚ existing :: rest ->
    let ls' := set_Started (ls_Started existing) (set_Status (ls_Status existing) ls) in
    tx_leases tx' ≡ₚ ls' :: rest -> decision subject policies ls a tx1 tx' ls'
| d_replaced replaced rest :
    Tx_Instance tx1 (sub_Instance subject) = None -> ls_Status replaced = Released ->
    ls_HostUser replaced = Subject_HostUser subject -> tx_leases tx1 ≡ₚ replaced :: rest ->
    tx_leases tx' ≡ₚ set_Status Active ls :: rest ->
    decision subject policies ls a tx1 tx' (set_Status Active ls)
| d_issued :
    Tx_Instance tx1 (sub_Instance subject) = None ->
    let strat := PolicySet_Strategy policies in
    let ls' := set_Status
      (if CanActivate strat (Accumulator_Active a (Subject_HostUser subject))
            (Accumulator_Total a strat) (PolicySet_Limit policies)
       then Active else Queued) ls in
    tx_leases tx' ≡ₚ ls' :: tx_leases tx1 -> decision subject policies ls a tx1 tx' ls'.

(** Every branch of an acquisition keeps the page; it panics only when two
    consumers share the text of their [HostUser]. *)
Lemma acquire_tx_ok subject policies ls now tx :
  page_ok (tx_resource tx) (tx_leases tx) -> sorted_set (tx_leases tx) ->
  offered (tx_resource tx) subject ls ->
  PolicySet_Strategy policies = strat_of (tx_resource tx) ->
  (PolicySet_Limit policies <= limit_of (tx_resource tx))%N ->
  exists a tx1, Refresh tx now = Ret (a, tx1) /\ tx_ok tx tx1
  /\ refreshed_set now (tx_leases tx) (tx_leases tx1) a
  /\ ((exists ls' tx', acquire_tx subject policies ls now tx = Ret (ls', tx')
         /\ tx_ok tx tx' /\ tx_ops tx' <> [] /\ decision subject policies ls a tx1 tx' ls')
      \/ (exists msg, acquire_tx subject policies ls now tx = Panic msg
            /\ ~ unambiguous subject (tx_leases tx1))).
Proof.
  intros Hpage Hsort Hoff Hstrat Hlim.
  destruct (Refresh_ok tx now Hpage Hsort) as (a & tx1 & Hrun & Hok1 & Hrs).
  pose proof (rs_sync _ _ _ _ Hrs) as Hsync.
  exists a, tx1. split; [done|]. split; [done|]. split; [done|].
  pose proof Hok1 as [[ops Hext] Hpage1]. pose proof (ext_resource _ _ _ Hext) as Hr1.
  rewrite <- Hr1 in Hpage1, Hoff, Hstrat, Hlim.
  unfold acquire_tx. rewrite Hrun. cbn [mbind outcome_bind].
  destruct (Tx_Instance tx1 (sub_Instance subject)) as [existing|] eqn:Hfound.
  - left. case_decide as Hrel.
    + set (ls1 := set_Status _ ls).
      destruct (renew_ok tx1 subject existing ls1 Hpage1 Hfound) as (tx2 & rest & Hup & Hok2 & Hne & Hp1 & Hp2);
        [by apply offered_status|intros _; by apply status_upto_Released|].
      cbn zeta. rewrite Hup. exists ls1, tx2. split; [done|]. split; [by eapply tx_ok_trans|].
      split; [done|]. by eapply d_reacquired.
    + set (ls1 := set_Started _ (set_Status _ ls)).
      destruct (renew_ok tx1 subject existing ls1 Hpage1 Hfound) as (tx2 & rest & Hup & Hok2 & Hne & Hp1 & Hp2);
        [by apply offered_started|done|].
      cbn zeta. rewrite Hup. exists ls1, tx2. split; [done|]. split; [by eapply tx_ok_trans|].
      split; [done|]. by eapply d_renewed.
  - pose proof (not_found_id _ _ Hfound) as Hid.
    case_decide as Hreuse; [cbn zeta; case_decide as Hlen|].
    + right. eexists. split; [done|]. intros Hun. apply Hlen.
      rewrite (released_count _ _ _ Hsync). apply replaceable_length; [apply Hpage1|done].
    + left.
      destruct (replace_ok tx1 subject ls _ Hpage1 Hoff Hid (proj1 Hreuse) Hlen)
        as (x & tx2 & rest & Hx & Hup & Hok2 & Hne & Hxs & Hxu & Hp1 & Hp2).
      rewrite Hx, Hup. exists (set_Status Active ls), tx2. split; [done|].
      split; [by eapply tx_ok_trans|]. split; [done|]. by eapply d_replaced.
    + left. destruct (issue_ok tx1 a subject policies ls Hpage1 Hsync Hoff Hid Hstrat Hlim)
        as (Hok2 & Hne & Hp).
      eexists _, _. split; [done|]. split; [by eapply tx_ok_trans|]. split; [done|]. by apply d_issued.
Qed.

(** A release keeps the page. *)
Lemma Tx_Release_ok i t tx :
  page_ok (tx_resource tx) (tx_leases tx) ->
  exists tx', Tx_Release i t tx = Ret tx' /\ tx_ok tx tx'
    /\ release_outcome (tx_resource tx) i t (tx_leases tx) (tx_leases tx').
Proof.
  intros [Hu Hl Hc]. destruct (Tx_Release_extends i t tx Hu) as (tx' & ops & Hrun & Hext & Hcase).
  exists tx'. split; [done|]. split; [|done]. split; [by eexists|].
  destruct Hcase as [(_ & Hp)|(x & rest & Hid & Hp & Hres)].
  - by apply (page_ok_perm _ _ _ Hp).
  - rewrite Hp in Hl, Hc. apply Forall_cons in Hl as [Hx Hl].
    destruct Hres as [[Hs Hp']|[Hs Hp']]; split; rewrite ?Hp'.
    + rewrite <- Hp'. by apply (extends_unique _ _ _ Hext).
    + apply Forall_cons. done.
    + etrans; [apply consumption_cons_replace|exact Hc]; [|done].
      intros _. apply status_upto_1. by left.
    + rewrite <- Hp'. by apply (extends_unique _ _ _ Hext).
    + done.
    + etrans; [apply consumption_cons_ge|exact Hc].
Qed.

Lemma tx_ok_page tx tx' : tx_ok tx tx' -> page_ok (tx_resource tx') (tx_leases tx').
Proof. intros [[ops H] Hp]. by rewrite (ext_resource _ _ _ H). Qed.

Lemma tx_ok_sorted tx tx' : tx_ok tx tx' -> sorted_set (tx_leases tx').
Proof. intros [[ops H] _]. apply (ext_sorted _ _ _ H). Qed.

(** The three stages of a release. *)
Lemma release_stages subject now tx :
  page_ok (tx_resource tx) (tx_leases tx) -> sorted_set (tx_leases tx) ->
  exists a1 tx1 tx2 a3 tx3, release_tx subject now tx = Ret tx3 /\ tx_ok tx tx3
    /\ refreshed_set now (tx_leases tx) (tx_leases tx1) a1 /\ tx_ok tx tx1
    /\ release_outcome (tx_resource tx) (sub_Instance subject) now (tx_leases tx1) (tx_leases tx2)
    /\ unique_ids (tx_leases tx2)
    /\ refreshed_set now (tx_leases tx2) (tx_leases tx3) a3.
Proof.
  intros Hpage Hsort. unfold release_tx.
  destruct (Refresh_ok tx now Hpage Hsort) as (a1 & tx1 & -> & Hok1 & Hrs1). cbn [mbind outcome_bind].
  destruct (Tx_Release_ok (sub_Instance subject) now tx1 (tx_ok_page _ _ Hok1))
    as (tx2 & -> & Hok2 & Hout). cbn [mbind outcome_bind].
  destruct (Refresh_ok tx2 now (tx_ok_page _ _ Hok2) (tx_ok_sorted _ _ Hok2))
    as (a3 & tx3 & -> & Hok3 & Hrs3). cbn [mbind outcome_bind].
  exists a1, tx1, tx2, a3, tx3. split; [done|]. split; [eauto using tx_ok_trans|].
  split; [done|]. split; [done|]. pose proof Hok1 as [[ops Hext] _].
  rewrite (ext_resource _ _ _ Hext) in Hout. split; [done|]. split; [apply Hok2|done].
Qed.

Lemma release_tx_ok subject now tx :
  page_ok (tx_resource tx) (tx_leases tx) -> sorted_set (tx_leases tx) ->
  exists tx', release_tx subject now tx = Ret tx' /\ tx_ok tx tx'.
Proof.
  intros Hpage Hsort. destruct (release_stages subject now tx Hpage Hsort)
    as (? & ? & ? & ? & tx3 & ? & ? & _). by exists tx3.
Qed.
End Transactions.
End Invariant.

(** ** The handlers *)

Section Handlers.
Context (strat_of : string -> Strategy) (limit_of : string -> N).
Context (host_ok : string -> Prop) (crash_ok : Prop).
Context `{SO : Sorter, HSO : !SorterSpec SO, GT : GoText}.

#[local] Abbreviation page := (page_ok strat_of limit_of host_ok).

(** Either panics are of no concern, or host names keep consumers apart. *)
Context (consumers_apart : crash_ok \/ forall r s subject,
  page r s -> host_ok (inst_Host (sub_Instance subject)) -> unambiguous subject s).

Definition known_strategy (strat : Strategy) : Prop :=
  strat = Strategy_Instance \/ strat = Strategy_Consumer.

#[export] Instance known_strategy_dec strat : Decision (known_strategy strat).
Proof. unfold known_strategy. apply _. Defined.

Lemma statsSummary_known limit stats strat :
  known_strategy strat -> exists t, statsSummary limit stats strat = Ret t.
Proof. intros [->| ->]; eexists; reflexivity. Qed.

Lemma statsSummary_unknown limit stats strat :
  ~ known_strategy strat -> statsSummary limit stats strat = Panic "unknown strategy".
Proof.
  intros Hk. unfold statsSummary, Stats_Consumed, Stats_tally.
  unfold known_strategy in Hk. 
  rewrite (decide_False (P := strat = Strategy_Instance)) by tauto.
  rewrite (decide_False (P := strat = Strategy_Consumer)) by tauto. done.
Qed.

(** What the policies that apply to one request say of its resource. *)
Definition matched_ok (m : PolicySet) : Prop :=
  (PolicySet_Resource m <> "" ->
     PolicySet_Strategy m = strat_of (PolicySet_Resource m)
     /\ (PolicySet_Limit m <= limit_of (PolicySet_Resource m))%N)
  /\ (crash_ok \/ known_strategy (PolicySet_Strategy m)).

Definition policies_ok (ps : result PolicySet) : Prop :=
  match ps with
  | Err _ => True
  | Ok ps => forall props, matched_ok (PolicySet_Match ps props)
  end.

(** What is known of the policies, what every commit guarantees, and which
    leases a handler may release. *)
Context (pols : result PolicySet -> Prop).
Context (G : string -> Time -> LeaseSet -> LeaseSet -> Prop).
Context (may_release : Subject -> Prop).

(** Policies that apply to some request. *)
Definition applies (m : PolicySet) : Prop :=
  exists ps props, pols (Ok ps) /\ m = PolicySet_Match ps props.

(** The guarantee holds of what the transactions do to a page. *)
Record guarantee : Prop := {
  g_policies m : applies m -> matched_ok m;
  g_refresh r now s s' a : page r s -> refreshed_set now s s' a -> G r now s s';
  g_acquire subject policies props now s a tx1 tx' ls :
    let r := sub_Resource subject in
    r <> "" -> r = PolicySet_Resource policies -> applies policies ->
    page r s -> refreshed_set now s (tx_leases tx1) a -> tx_resource tx1 = r -> page r (tx_leases tx1) ->
    decision subject policies (new_lease subject props policies now) a tx1 tx' ls ->
    G r now s (tx_leases tx');
  g_release subject now s s1 s2 s3 a1 a3 :
    let r := sub_Resource subject in
    may_release subject -> page r s -> refreshed_set now s s1 a1 -> page r s1 ->
    release_outcome r (sub_Instance subject) now s1 s2 -> refreshed_set now s2 s3 a3 ->
    G r now s s3;
}.
Context (HG : guarantee).

#[local] Abbreviation wp := (wp page pols crash_ok G).

(** What a handler has seen of a page when it has read the clock. *)
Definition seen_page (r : string) (rev : N) (s : LeaseSet) (t : Time) (V : Seen) : Prop :=
  seen_view V = Some (r, rev, s) /\ seen_time V = Some t.

Lemma commit_allowed r rev s t V tx' :
  seen_page r rev s t V -> tx_ok strat_of limit_of host_ok (NewTx r rev s) tx' -> tx_ops tx' <> [] ->
  G r t s (tx_leases tx') -> may_commit page G V tx'.
Proof.
  intros [HV Ht] [[ops [Hr Hv Ho Hj Hs]] Hp] Hne Hg. split; [done|]. exists s, t. cbn in *.
  rewrite Hr, Hv. split; [done|]. split; [done|]. split; [|done]. split; [by rewrite Ho|done].
Qed.

Lemma ops_nonempty tx : Tx_Empty tx = false -> tx_ops tx <> [].
Proof. unfold Tx_Empty. rewrite bool_decide_eq_false. by destruct (tx_ops tx). Qed.

Lemma wp_summary {A} V policies stats (f : string -> prog A) Q :
  crash_ok \/ known_strategy (PolicySet_Strategy policies) ->
  (forall t, wp V (f t) Q) ->
  wp V (lift (statsSummary (PolicySet_Limit policies) stats (PolicySet_Strategy policies)) ≫= f) Q.
Proof.
  intros Hs Hf. apply wp_bind.
  destruct (decide (known_strategy (PolicySet_Strategy policies))) as [Hk|Hk].
  - destruct (statsSummary_known (PolicySet_Limit policies) stats _ Hk) as [t ->]. apply Hf.
  - destruct Hs as [Hs|Hs]; [|done]. by rewrite (statsSummary_unknown _ _ _ Hk).
Qed.

Lemma new_lease_offered r subject props policies now :
  sub_Resource subject = r -> r <> "" -> r = PolicySet_Resource policies ->
  host_ok (inst_Host (sub_Instance subject)) -> matched_ok policies ->
  offered strat_of limit_of host_ok r subject (new_lease subject props policies now).
Proof.
  intros Hs Hne -> Hh [Hm _]. destruct (Hm Hne) as [Hst Hl]. by repeat split.
Qed.

#[local] Arguments NewTx : simpl never.
#[local] Arguments new_lease : simpl never.
#[local] Arguments acquire_tx : simpl never.
#[local] Arguments release_tx : simpl never.
#[local] Arguments Refresh : simpl never.

(** The transaction that was committed last granted [ls] under [policies]. *)
Definition attests (subject : Subject) (policies : PolicySet) (ls : Lease) (leases : LeaseSet)
  (c : option Tx) : Prop :=
  exists tx props now st started,
    c = Some tx /\ tx_resource tx = sub_Resource subject /\ tx_leases tx = leases
    /\ page (tx_resource tx) leases /\ ls ∈ leases
    /\ ls = set_Started started (set_Status st (new_lease subject props policies now)).

Lemma decision_form subject policies props now a tx1 tx' ls :
  decision subject policies (new_lease subject props policies now) a tx1 tx' ls ->
  ls ∈ tx_leases tx'
  /\ exists st started, ls = set_Started started (set_Status st (new_lease subject props policies now)).
Proof.
  destruct 1 as [? ? ? ? ? ? ? Hp|? ? ? ? ? ? Hp|? ? ? ? ? ? Hp|? ? ? Hp]; rewrite Hp;
    (split; [left|]); [exists (ls_Status ls'), now|eexists _, _|exists Active, now|exists (ls_Status ls'), now]; reflexivity.
Qed.

(** The loop of attempts of [acquire]. *)
Lemma acquire_loop_wp n V subject props policies ls snapshot err :
  sub_Resource subject <> "" -> sub_Resource subject = PolicySet_Resource policies ->
  host_ok (inst_Host (sub_Instance subject)) -> applies policies -> n <> 0 \/ err <> None ->
  wp V (acquire_loop n subject props policies ls snapshot err)
    (fun V '(ls, snapshot, err) =>
       err = None -> attests subject policies ls (snap_Leases snapshot) (seen_commit V)).
Proof.
  intros Hne Hres Hh Happ. pose proof (g_policies HG _ Happ) as Hm.
  revert V ls snapshot err. induction n as [|n IH]; intros V ls snapshot err Hn; cbn [acquire_loop].
  { cbn. intros ->. by destruct Hn. }
  cbn. split; [intros e; apply IH; by right|]. intros rev s Hpage Hsort now.
  set (r := sub_Resource subject) in *. set (V1 := see_time now _).
  assert (HV : seen_page r rev s now V1) by done.
  assert (Hoff : offered strat_of limit_of host_ok r subject (new_lease subject props policies now))
    by (by apply new_lease_offered).
  destruct (proj1 Hm ltac:(by rewrite <- Hres)) as [Hst Hlim]. rewrite <- Hres in Hst, Hlim.
  destruct (acquire_tx_ok strat_of limit_of host_ok subject policies
    (new_lease subject props policies now) now (NewTx r rev s) Hpage Hsort Hoff Hst Hlim)
    as (a & tx1 & _ & Hok1 & Hrs & [(ls' & tx' & -> & Hok & Hops & Hd)|(msg & -> & Hamb)]).
  - cbn. pose proof Hok1 as [[ops1 Hext1] Hpage1]. pose proof (ext_resource _ _ _ Hext1) as Hr1.
    unfold Tx_Empty. rewrite bool_decide_false by (by destruct (tx_ops tx')). cbn. split.
    + apply (commit_allowed r rev s now); [done..|].
      by apply (g_acquire HG subject policies props now s a tx1 tx' ls').
    + intros [e|]; [apply IH; by right|]. intros _. pose proof Hok as [[ops Hext] Hpage'].
      destruct (decision_form _ _ _ _ _ _ _ _ Hd) as (Hin & st & started & Hls).
      pose proof (ext_resource _ _ _ Hext) as Hr.
      exists tx', props, now, st, started. rewrite Hr. done.
  - cbn. destruct consumers_apart as [Hc|Ha]; [exact Hc|]. exfalso. apply Hamb.
    apply (Ha (tx_resource (NewTx r rev s))); [apply Hok1|exact Hh].
Qed.

Lemma acquire_wp V subject props policies :
  sub_Resource subject <> "" -> sub_Resource subject = PolicySet_Resource policies ->
  host_ok (inst_Host (sub_Instance subject)) -> applies policies ->
  wp V (acquire subject props policies) (fun V r =>
    match r with
    | Ok (ls, snapshot) => attests subject policies ls (snap_Leases snapshot) (seen_commit V)
    | Err _ => True
    end).
Proof.
  intros Hne Hres Hh Hm. unfold acquire. apply wp_bind.
  eapply wp_mono; [|apply (acquire_loop_wp 5); [done..|by left]].
  intros V' [[ls snapshot] [e|]] H; [done|].
  apply wp_summary; [by apply (g_policies HG)|]. intros t. cbn. by apply H.
Qed.

Lemma release_loop_wp n V subject snapshot err Q :
  may_release subject -> (forall V x, Q V x) -> wp V (release_loop n subject snapshot err) Q.
Proof.
  intros Hrel HQ. revert V snapshot err. induction n as [|n IH]; intros V snapshot err; cbn [release_loop];
    [apply HQ|].
  cbn. split; [intros e; apply IH|]. intros rev s Hpage Hsort now. set (V1 := see_time now _).
  destruct (release_stages strat_of limit_of host_ok subject now
    (NewTx (sub_Resource subject) rev s) Hpage Hsort)
    as (a1 & tx1 & tx2 & a3 & tx' & -> & Hok & Hrs1 & Hok1 & Hout & _ & Hrs3).
  cbn. destruct (Tx_Empty tx') eqn:He; [apply HQ|]. cbn. split.
  - apply (commit_allowed (sub_Resource subject) rev s now); [done..|by apply ops_nonempty|].
    apply (g_release HG subject now s (tx_leases tx1) (tx_leases tx2) (tx_leases tx') a1 a3); try done.
    apply Hok1.
  - intros [e|]; [apply IH|apply HQ].
Qed.

Lemma release_wp V subject policies :
  may_release subject -> applies policies -> wp V (release subject policies) (fun _ _ => True).
Proof.
  intros Hrel Hm. unfold release. apply wp_bind.
  eapply wp_mono; [|by apply (release_loop_wp _ _ _ _ _ (fun _ _ => True))].
  intros V' [snapshot [e|]] _; [done|]. apply wp_summary; [by apply (g_policies HG)|]. done.
Qed.

(** A refresh that is committed unless nothing has changed. *)
Lemma refresh_commit_allowed r rev s now V a tx' :
  seen_page r rev s now V -> page r s -> tx_ok strat_of limit_of host_ok (NewTx r rev s) tx' ->
  refreshed_set now s (tx_leases tx') a -> tx_ops tx' <> [] -> may_commit page G V tx'.
Proof. intros HV Hp Hok Hrs Hne. eapply commit_allowed; [done..|]. by eapply (g_refresh HG). Qed.

Lemma purge_loop_wp n V r err Q : (forall V x, Q V x) -> wp V (purge_loop n r err) Q.
Proof.
  intros HQ. revert V err. induction n as [|n IH]; intros V err; cbn [purge_loop]; [apply HQ|].
  cbn. split; [intros e; apply IH|]. intros rev s Hpage Hsort now. set (V1 := see_time now _).
  destruct (Refresh_ok strat_of limit_of host_ok (NewTx r rev s) now Hpage Hsort)
    as (a & tx' & -> & Hok & Hrs).
  cbn. case_decide as Hlen; [apply HQ|]. cbn. split.
  - apply (refresh_commit_allowed r rev s now V1 a); try done. by destruct (tx_ops tx').
  - intros [e|]; [apply IH|apply HQ].
Qed.

Lemma for_each_wp {X} (body : X -> prog (option error)) l V Q :
  (forall V x, wp V (body x) (fun _ _ => True)) -> (forall V x, Q V x) ->
  wp V (for_each body l) Q.
Proof.
  intros Hb HQ. revert V. induction l as [|x l IH]; intros V; cbn [for_each]; [apply HQ|].
  apply wp_bind. eapply wp_mono; [|apply Hb]. intros V' [e|] _; [apply HQ|apply IH].
Qed.

Lemma collect_wp {X A} (body : X -> prog (result A)) l acc V Q :
  (forall V x, wp V (body x) (fun _ _ => True)) -> (forall V x, Q V x) ->
  wp V (collect body l acc) Q.
Proof.
  intros Hb HQ. revert V acc. induction l as [|x l IH]; intros V acc; cbn [collect]; [apply HQ|].
  apply wp_bind. eapply wp_mono; [|apply Hb]. intros V' [a|e] _; [apply IH|apply HQ].
Qed.

#[local] Arguments purge_loop : simpl never.
#[local] Arguments collectSnapshot : simpl never.
#[local] Arguments refresh_resource : simpl never.

Lemma Purge_wp V : wp V Purge (fun _ _ => True).
Proof.
  unfold Purge. cbn. intros [rs|e]; [|done].
  apply for_each_wp; [|done]. intros V' r. by apply purge_loop_wp.
Qed.

Lemma collectResources_wp V Q : (forall V x, Q V x) -> wp V collectResources Q.
Proof. intros HQ. cbn. intros [ps|e] _; cbn; [|apply HQ]. intros [rs|e]; apply HQ. Qed.

Lemma collectSnapshot_wp V r Q : (forall V x, Q V x) -> wp V (collectSnapshot r) Q.
Proof.
  intros HQ. unfold collectSnapshot. cbn. split; [intros; apply HQ|]. intros rev s Hpage Hsort now.
  destruct (Refresh_ok strat_of limit_of host_ok (NewTx r rev s) now Hpage Hsort)
    as (a & tx' & -> & Hok & Hrs).
  cbn. destruct (Tx_Empty tx') eqn:He; cbn; [apply HQ|]. split; [|intros e; apply HQ].
  eapply (refresh_commit_allowed r rev s now); try done. by apply ops_nonempty.
Qed.

Lemma collectSnapshots_wp V rs Q : (forall V x, Q V x) -> wp V (collectSnapshots rs) Q.
Proof.
  intros HQ. unfold collectSnapshots.
  assert (Hc : forall V l, wp V (collect collectSnapshot l []) Q).
  { intros V' l. apply collect_wp; [|done]. intros V'' r. by apply collectSnapshot_wp. }
  apply wp_bind. case_decide; [|apply Hc].
  apply collectResources_wp. intros V' [l|e]; [apply Hc|apply HQ].
Qed.

Lemma refreshLeases_wp V : wp V refreshLeases (fun _ _ => True).
Proof.
  unfold refreshLeases. apply wp_bind, collectResources_wp. intros V' [rs|e]; [|done].
  apply wp_bind, for_each_wp; [|done]. intros V'' r. unfold refresh_resource. cbn.
  split; [done|]. intros rev s Hpage Hsort now.
  destruct (Refresh_ok strat_of limit_of host_ok (NewTx r rev s) now Hpage Hsort)
    as (a & tx' & -> & Hok & Hrs).
  cbn. destruct (Tx_Empty tx') eqn:He; [done|]. cbn. split; [|done].
  eapply (refresh_commit_allowed r rev s now); try done. by apply ops_nonempty.
Qed.

Lemma initRequest_wp V form Q :
  (forall V e, Q V (Err e)) ->
  (forall V req ps, parseRequest form = Ok req -> pols (Ok ps) ->
     Q V (Ok (req, PolicySet_Match ps (req_Properties req)))) ->
  wp V (initRequest form) Q.
Proof.
  intros He Hok. unfold initRequest. destruct (parseRequest form) as [req|e] eqn:Hreq; [|apply He].
  case_decide; [apply He|]. cbn. intros [ps|e] Hps; [|apply He]. by apply Hok.
Qed.

(** A request whose host is acceptable. *)
Definition form_ok (form : HTTPForm) : Prop :=
  forall req, parseRequest form = Ok req -> host_ok (inst_Host (sub_Instance (req_Subject req))).

(** The requester's own lease is all that a request may release; an acquisition
    does so when the policies select another resource than the one it names. *)
Definition releases_ok (form : HTTPForm) : Prop :=
  forall req, parseRequest form = Ok req -> may_release (req_Subject req).

Definition switches (req : Request) : Prop :=
  sub_Resource (req_Subject req) <> ""
  /\ exists ps, pols (Ok ps)
       /\ PolicySet_Resource (PolicySet_Match ps (req_Properties req)) <> sub_Resource (req_Subject req).

Definition switch_ok (form : HTTPForm) : Prop :=
  forall req, parseRequest form = Ok req -> switches req -> may_release (req_Subject req).

(** What a reply to an acquisition attests. *)
Definition reply_attested (form : HTTPForm) (reply : Reply) (c : option Tx) : Prop :=
  match reply with
  | AcquireReply r =>
      exists req policies, parseRequest form = Ok req /\ applies policies
        /\ PolicySet_Resource policies <> ""
        /\ ar_Request r = set_req_Resource (PolicySet_Resource policies) req
        /\ attests (req_Subject (ar_Request r)) policies (ar_Lease r) (ar_Leases r) c
  | _ => True
  end.

#[local] Arguments acquire : simpl never.
#[local] Arguments release : simpl never.

Lemma acquireHandler_wp V form :
  form_ok form -> switch_ok form ->
  wp V (acquireHandler form) (fun V reply => reply_attested form reply (seen_commit V)).
Proof.
  intros Hform Hrels. unfold acquireHandler. apply wp_bind, initRequest_wp; [done|].
  intros V1 req ps Hreq Hps. specialize (Hform req Hreq). specialize (Hrels req Hreq). cbn zeta.
  set (m := PolicySet_Match ps (req_Properties req)). assert (Hm : applies m) by by eexists _, _.
  apply wp_bind.
  match goal with |- Concurrency.wp _ _ _ _ _ ?p _ => assert (Hfirst : wp V1 p (fun _ _ => True)) end.
  { case_decide as Hd; [|done]. apply release_wp; [|done]. apply Hrels. destruct Hd. by split; [|exists ps]. }
  eapply wp_mono; [|exact Hfirst]. clear Hfirst. intros V2 [e|] _; [done|].
  set (req' := if decide (_ <> _) then _ else req).
  assert (Hr' : req' = set_req_Resource (PolicySet_Resource m) req).
  { unfold req'. case_decide as Hd; [done|]. rewrite Hd. by destruct req as [[r i] p]. }
  clearbody req'. subst req'. case_decide as Hne; [done|]. apply wp_bind.
  eapply wp_mono; [|apply acquire_wp; [exact Hne|done|exact Hform|exact Hm]].
  intros V3 [[ls sn]|e] H; [|done]. exists req, m. by split_and!.
Qed.

Lemma releaseHandler_wp V form : releases_ok form -> wp V (releaseHandler form) (fun _ _ => True).
Proof.
  intros Hrels. unfold releaseHandler. apply wp_bind, initRequest_wp; [done|].
  intros V1 req ps Hreq Hps. apply wp_bind.
  eapply wp_mono; [|apply release_wp; [by apply Hrels|by eexists _, _]].
  by intros V2 [e|] _.
Qed.

Lemma leasesHandler_wp V form : wp V (leasesHandler form) (fun _ _ => True).
Proof.
  unfold leasesHandler. destruct (parseRequest form) as [req|e]; [|done]. apply wp_bind.
  match goal with |- Concurrency.wp _ _ _ _ _ _ ?Q => set (R := Q) end.
  assert (HQ : forall V2 rs, R V2 rs).
  { intros V2 [rs|e]; unfold R; [|done]. apply wp_bind, collectSnapshots_wp. by intros V3 [sn|e]. }
  case_decide; [by apply collectResources_wp|exact (HQ V _)].
Qed.

Lemma stream_start_wp V : wp V stream_start (fun _ _ => True).
Proof.
  unfold stream_start. cbn. intros ps _. apply wp_bind, collectSnapshots_wp. done.
Qed.

End Handlers.

(** ** The handlers of a server *)

Section Server.
Context (strat_of : string -> Strategy) (limit_of : string -> N).
Context (host_ok : string -> Prop) (crash_ok : Prop).
Context `{SO : Sorter, HSO : !SorterSpec SO, GT : GoText}.
Context (consumers_apart : crash_ok \/ forall r s subject,
  page_ok strat_of limit_of host_ok r s -> host_ok (inst_Host (sub_Instance subject)) -> unambiguous subject s).

(** Nothing but the page invariant is guaranteed. *)
Definition no_guarantee (r : string) (now : Time) (s s' : LeaseSet) : Prop := True.
Definition any_release (subject : Subject) : Prop := True.

#[local] Abbreviation pols := (policies_ok strat_of limit_of crash_ok).

Lemma plain_guarantee : guarantee strat_of limit_of host_ok crash_ok pols no_guarantee any_release.
Proof. split; [|done..]. intros m (ps & props & Hps & ->). apply Hps. Qed.

(** The handlers the server starts: one per request, purges and refreshes. *)
Inductive server_handler : prog () -> Prop :=
| h_health : server_handler (_ ← healthHandler; Done tt)
| h_policies : server_handler (_ ← policiesHandler; Done tt)
| h_leases form : server_handler (_ ← leasesHandler form; Done tt)
| h_acquire form : form_ok host_ok form -> server_handler (_ ← acquireHandler form; Done tt)
| h_release form : server_handler (_ ← releaseHandler form; Done tt)
| h_stream : server_handler (_ ← stream_start; Done tt)
| h_purge : server_handler (_ ← Purge; Done tt)
| h_refresh : server_handler refreshLeases.

Lemma server_handler_wp p :
  server_handler p ->
  wp (page_ok strat_of limit_of host_ok) pols crash_ok no_guarantee unseen p (fun _ _ => True).
Proof.
  assert (Hend : forall A (q : prog A) Q,
    wp (page_ok strat_of limit_of host_ok) pols crash_ok no_guarantee unseen q Q ->
    wp (page_ok strat_of limit_of host_ok) pols crash_ok no_guarantee unseen (_ ← q; Done tt) (fun _ _ => True)).
  { intros A q Q Hq. apply wp_bind. by eapply wp_mono; [|exact Hq]. }
  pose proof plain_guarantee as HG. destruct 1.
  - by apply (Hend _ _ (fun _ _ => True)).
  - apply (Hend _ _ (fun _ _ => True)). cbn. by intros [ps|e] _.
  - eapply Hend. by eapply leasesHandler_wp.
  - eapply Hend. by eapply acquireHandler_wp.
  - eapply Hend. by eapply releaseHandler_wp.
  - eapply Hend. by eapply stream_start_wp.
  - eapply Hend. by eapply Purge_wp.
  - by eapply refreshLeases_wp.
Qed.
End Server.
