(* ===== verification/ServerProps.v ===== *)
(** * What the guardian server guarantees

    Limit safety and the absence of panics hold of every interleaving of the
    handlers, over any provider that keeps the contract of [Provider.v]; the
    results of acquisitions and releases are those of one handler. *)

From S2P Require Import Prelude GoStrings GoTime Lease LeaseSet Tx LeaseUtil Refresh Policy Provider MemProv Program Server Concurrency TxProps ServerSafe RefreshProps PolicyProps.

(** ** Lemmas *)

(** A host name without spaces tells consumers apart. *)
Lemma HostUser_inj s1 s2 :
  no_space (inst_Host (sub_Instance s1)) -> no_space (inst_Host (sub_Instance s2)) ->
  Subject_HostUser s1 = Subject_HostUser s2 ->
  inst_Host (sub_Instance s1) = inst_Host (sub_Instance s2)
  /\ inst_User (sub_Instance s1) = inst_User (sub_Instance s2).
Proof.
  unfold no_space, Subject_HostUser. intros H1 H2 H.
  apply (f_equal String.list_ascii_of_string) in H. rewrite !list_ascii_app in H. cbn in H.
  apply split_at_space in H as [Hh Hu]; [|done..].
  split; apply Policy.list_ascii_inj; done.
Qed.

Lemma hosts_apart strat_of limit_of r s subject :
  page_ok strat_of limit_of no_space r s -> no_space (inst_Host (sub_Instance subject)) ->
  unambiguous subject s.
Proof.
  intros [_ Hl _] Hh l Hin Hc. rewrite Forall_forall in Hl. destruct (Hl l Hin) as (_ & _ & _ & Hlh).
  by apply HostUser_inj.
Qed.

(** A provider that starts with pages that keep the invariant. *)
Definition good_start `{LPS : LeaseProviderSpec St} (page : string -> LeaseSet -> Prop) (st : St) : Prop :=
  provider_valid st
  /\ (forall r, page r (contents st r).2 /\ sorted_set (contents st r).2)
  /\ forall r, ((contents st r).1 < 2 ^ 64)%N.

Lemma mem_good_start `{SO : Sorter, HSO : !SorterSpec SO} strat_of limit_of host_ok :
  good_start (page_ok strat_of limit_of host_ok) MemProv_New.
Proof.
  split; [done|]. split; intros r.
  - cbn. unfold mem_contents. cbn. rewrite lookup_empty. cbn.
    split; [apply page_ok_nil|constructor].
  - cbn. unfold mem_contents. cbn. rewrite lookup_empty. done.
Qed.

(** ** Lemmas: acquisitions *)

Lemma consumption_cons_le strat x rest :
  (consumption strat (x :: rest) <= consumption strat rest + 1)%N.
Proof.
  change (x :: rest) with ([x] ++ rest). rewrite (Permutation_app_comm [x] rest).
  apply consumption_snoc_le.
Qed.

(** The queued leases wait under the terms of the policies. *)
Definition same_terms (policies : PolicySet) (s : LeaseSet) : Prop :=
  Forall (fun l => ls_Status l = Queued ->
    ls_Strategy l = PolicySet_Strategy policies /\ ls_Limit l = PolicySet_Limit policies) s.

Lemma refreshed_same_terms at_ s s' a policies :
  refreshed_set at_ s s' a -> same_terms policies s -> same_terms policies s'.
Proof.
  unfold same_terms. rewrite !Forall_forall. intros Hrs Hs l' Hl' Hq.
  destruct (refreshed_set_elem _ _ _ _ _ Hrs Hl') as (l & Hl & HR).
  destruct HR; [by apply Hs|done|done].
Qed.

(** A lease is left queued only when the limit is reached. *)
Lemma decision_queued at_ s a tx1 subject policies ls tx' ls' :
  refreshed_set at_ s (tx_leases tx1) a -> same_terms policies s ->
  decision subject policies ls a tx1 tx' ls' -> ls_Status ls' = Queued ->
  (PolicySet_Limit policies <= consumption (PolicySet_Strategy policies) (tx_leases tx'))%N.
Proof.
  intros Hrs Hterms Hd Hq. pose proof (rs_sync _ _ _ _ Hrs) as Hsync.
  set (strat := PolicySet_Strategy policies).
  pose proof (acc_sync_Total _ _ _ strat Hsync) as Htot.
  destruct Hd as [existing rest _ Hs Hp1 consumed ls1 Hp|existing rest Hf Hs Hp1 ls1 Hp
    |replaced rest _ Hs Hu Hp1 Hp|Hf strat' ls1 Hp].
  - unfold ls1, consumed in Hq. fold strat in Hq. rewrite Htot in Hq.
    case_decide as Hle; [done|].
    rewrite Hp. pose proof (consumption_cons_le strat existing rest).
    pose proof (consumption_cons_ge strat ls1 rest). rewrite Hp1 in Hle. fold strat in Hle. lia.
  - rewrite Hp. unfold ls1 in Hq. cbn in Hq.
    rewrite consumption_cons_idle by (by apply not_upto_1_Queued).
    assert (Hin : existing ∈ tx_leases tx1) by (rewrite Hp1; left).
    pose proof (refreshed_same_terms _ _ _ _ _ Hrs Hterms) as Ht. unfold same_terms in Ht.
    rewrite Forall_forall in Ht. destruct (Ht existing Hin Hq) as [Hst Hl].
    pose proof (rs_waiting _ _ _ _ Hrs existing Hin Hq) as Hw.
    rewrite Hst, Hl, Hp1, consumption_cons_idle in Hw by (by apply not_upto_1_Queued). done.
  - discriminate Hq.
  - rewrite Hp. unfold ls1 in Hq |- *. destruct (CanActivate _ _ _ _) eqn:Hcan; [discriminate Hq|].
    rewrite consumption_cons_idle by apply status_upto_Queued.
    apply CanActivate_false in Hcan. unfold strat' in Hcan. fold strat in Hcan. lia.
Qed.

(** An unexpired active lease survives a refresh as it is. *)
Lemma refresh_keeps_active at_ s s' a l :
  refreshed_set at_ s s' a -> l ∈ s -> ls_Status l = Active -> current at_ l -> l ∈ s'.
Proof.
  intros Hrs Hl Ha [Hst He]. specialize (He Ha).
  assert (Hsame : forall l', refreshed at_ l l' -> l' = l).
  { intros l' HR. destruct HR as [| |l Hq _]; [done|congruence|].
    rewrite Hq in Ha. discriminate Ha. }
  destruct (refreshed_set_fate _ _ _ _ _ Hrs Hl) as [Hd|[(l' & Hl' & HR)|(l1 & r & HR & Hr & _)]].
  - done.
  - by rewrite <- (Hsame _ HR).
  - rewrite (Hsame _ HR), Ha in Hr. discriminate Hr.
Qed.

Lemma instance_of_unique tx l :
  unique_ids (tx_leases tx) -> l ∈ tx_leases tx -> ls_Resource l = tx_resource tx ->
  Tx_Instance tx (ls_Instance l) = Some l.
Proof.
  intros Hu Hl Hr. destruct (Tx_Instance tx (ls_Instance l)) as [x|] eqn:Hx.
  - apply Set_Instance_Some in Hx as (Hxin & Hxr & Hxi). f_equal.
    apply list_elem_of_lookup in Hl as [i Hl], Hxin as [j Hxin].
    assert (i = j); [|congruence].
    eapply NoDup_lookup; [exact Hu|rewrite list_lookup_fmap, Hl; reflexivity|].
    rewrite list_lookup_fmap, Hxin. cbn. unfold lease_id. by rewrite Hxr, Hxi, Hr.
  - exfalso. unfold Tx_Instance in Hx. rewrite Set_Instance_None in Hx. by apply (Hx l Hl).
Qed.

Lemma decision_lease subject policies ls a tx1 tx' ls' :
  decision subject policies ls a tx1 tx' ls' ->
  ls' ∈ tx_leases tx' /\ ls_Subject ls' = ls_Subject ls /\ ls_Renewed ls' = ls_Renewed ls.
Proof. destruct 1 as [? ? ? ? ? ? ? Hp|? ? ? ? ? ? Hp|? ? ? ? ? ? Hp|? ? ? Hp]; rewrite Hp; (split; [left|done]). Qed.

(** ** Lemmas: releases *)

Definition release_at (now : Time) (l : Lease) : Lease := set_Released now (set_Status Released l).

Lemma released_keeps at_ l l' : refreshed at_ l l' -> ls_Status l = Released -> l' = l.
Proof. intros HR Hs. destruct HR as [|l Ha|l Hq]; [done|rewrite Ha in Hs; done|rewrite Hq in Hs; done]. Qed.

Lemma released_not_stale now l :
  (0 <= ls_Decay l)%Z -> Lease_Expired l now = false -> ~ stale now (release_at now l).
Proof.
  intros Hd He Hst. apply stale_Released in Hst; [|done].
  apply Decayed_true in Hst. apply Expired_false in He. revert Hst.
  unfold Lease_DecayTime, Time_IsZero, Lease_ExpirationTime, Time_Add. cbn.
  case_bool_decide; cbn; lia.
Qed.

Lemma release_outcome_active r i now s s' l :
  unique_ids s -> release_outcome r i now s s' -> l ∈ s -> lease_id l = (r, i) ->
  ls_Status l = Active -> release_at now l ∈ s'.
Proof.
  intros Hu [[Hn _]|(x & rest & Hid & Hp & Hcase)] Hl Hlid Ha.
  - exfalso. apply Hn. rewrite <- Hlid. by apply list_elem_of_fmap_2.
  - assert (x = l) as ->.
    { rewrite Hp in Hl, Hu. apply elem_of_cons in Hl as [->|Hl]; [done|].
      unfold unique_ids in Hu. rewrite fmap_cons in Hu. apply NoDup_cons in Hu as [Hn _].
      exfalso. apply Hn. rewrite Hid, <- Hlid. by apply list_elem_of_fmap_2. }
    destruct Hcase as [[_ ->]|[Hs _]]; [left|done].
Qed.

(** A queued lease of the remaining set was there, queued, before. *)
Lemma release_outcome_queued r i now s s' q :
  release_outcome r i now s s' -> q ∈ s' -> ls_Status q = Queued -> q ∈ s.
Proof.
  intros [[_ Hp]|(x & rest & _ & Hs & [[_ Hp]|[_ Hp]])]; rewrite Hp; [done| |by rewrite Hs; right].
  intros [->|Hin]%elem_of_cons Hq; [discriminate Hq|rewrite Hs; by right].
Qed.

Lemma refreshed_set_queued at_ s s' a q :
  refreshed_set at_ s s' a -> q ∈ s' -> ls_Status q = Queued -> q ∈ s.
Proof.
  intros Hrs Hin Hq. destruct (refreshed_set_elem _ _ _ _ _ Hrs Hin) as (l & Hl & HR).
  by destruct HR.
Qed.

Lemma page_instance_unique strat_of limit_of host_ok r s x y :
  page_ok strat_of limit_of host_ok r s -> x ∈ s -> y ∈ s -> ls_Instance x = ls_Instance y -> x = y.
Proof.
  intros [Hu Hall _] Hx Hy Hi. rewrite Forall_forall in Hall.
  assert (Hid : lease_id x = lease_id y).
  { unfold lease_id. destruct (Hall x Hx), (Hall y Hy). congruence. }
  apply list_elem_of_lookup in Hx as [i Hxi], Hy as [j Hyj]. unfold unique_ids in Hu.
  assert (i = j) as ->; [|congruence].
  apply (NoDup_lookup (lease_id <$> s) i j (lease_id x) Hu); rewrite list_lookup_fmap.
  - by rewrite Hxi.
  - by rewrite Hyj, Hid.
Qed.

(** After the release and the refresh that follows it. *)
Lemma release_outcome_status r i now s s1 s2 a l :
  release_outcome r i now s s1 -> unique_ids s -> refreshed_set now s1 s2 a ->
  l ∈ s2 -> ls_Resource l = r -> ls_Instance l = i -> ls_Status l = Released.
Proof.
  intros Hout Hu Hrs Hl Hr Hi.
  destruct (refreshed_set_elem _ _ _ _ _ Hrs Hl) as (x & Hx & HR).
  assert (Hid : lease_id x = (r, i)).
  { rewrite <- (refreshed_id _ _ _ HR). unfold lease_id. by rewrite Hr, Hi. }
  assert (Hrel : ls_Status x = Released); [|by rewrite (released_keeps _ _ _ HR Hrel)].
  assert (Hno : forall y rest, s ≡ₚ y :: rest -> lease_id y = (r, i) -> x ∉ rest).
  { intros y rest Hp Hy Hxr. rewrite Hp in Hu. unfold unique_ids in Hu. rewrite fmap_cons in Hu.
    apply NoDup_cons in Hu as [Hn _]. apply Hn. rewrite Hy, <- Hid. by apply list_elem_of_fmap_2. }
  destruct Hout as [[Hn Hp]|(y & rest & Hyid & Hp & [[_ Hp']|[_ Hp']])].
  - exfalso. apply Hn. rewrite <- Hid. rewrite Hp in Hx. by apply list_elem_of_fmap_2.
  - rewrite Hp' in Hx. apply elem_of_cons in Hx as [->|Hx]; [done|]. exfalso. by apply (Hno y rest).
  - rewrite Hp' in Hx. exfalso. by apply (Hno y rest).
Qed.

(** ** Lemmas: the in-memory provider *)

Lemma mem_view r (p : MemProvider) :
  exists p', MemProv_LeaseView r p = (Ok (mem_contents p r), p')
    /\ forall r', mem_contents p' r' = mem_contents p r'.
Proof.
  unfold MemProv_LeaseView. destruct (get_leasePage r p) as [page p1] eqn:Hg.
  apply get_leasePage_spec in Hg as [Hr Hc]. exists p1. by rewrite Hr.
Qed.

Lemma mem_commit_built `{SO : Sorter, HSO : !SorterSpec SO} tx (p : MemProvider) :
  tx_revision tx = (mem_contents p (tx_resource tx)).1 -> tx_ops tx <> [] ->
  built_on tx (mem_contents p (tx_resource tx)).2 ->
  exists p' stored, MemProv_LeaseCommit tx p = (None, p')
    /\ mem_contents p' (tx_resource tx) = (wrapu64 (tx_revision tx + 1), stored)
    /\ stored ≡ₚ tx_leases tx /\ sorted_set stored.
Proof.
  intros Hrev Hops Hbuilt. pose proof (MemProv_commit_spec tx p) as H.
  destruct (MemProv_LeaseCommit tx p) as [[e|] p']; [by destruct H as (_ & ? & _)|].
  rewrite decide_False in H by done. destruct H as [_ H].
  destruct (H Hbuilt) as [(stored & Hc & Hp & Hs) _].
  exists p', stored. rewrite Hrev. done.
Qed.

Section Properties.
Context `{SO : Sorter, HSO : !SorterSpec SO, GT : GoText}.
Context {St : Type} `{LP : LeaseProvider St, LPS : !LeaseProviderSpec St}.

(** C1. Limit safety of the server.  Suppose that the policies assign each
    resource one strategy and limits of at most [limit_of].  Then in every
    reachable state of a system of concurrently running server handlers --
    requests, purges and periodic refreshes, interleaved call by call, over any
    provider that keeps its contract -- the leases stored under each resource
    have unique identities and consume at most its limit (as long as there were
    fewer than 2^64 commits). *)
Theorem server_limit_safety strat_of limit_of st sys r :
  let pols := policies_ok strat_of limit_of True in
  let arrives := server_handler (fun _ => True) in
  good_start (page_ok strat_of limit_of (fun _ => True)) st ->
  rtc (step pols arrives) (initial st) sys -> (sys_commits sys < 2 ^ 64)%N ->
  unique_ids (contents (sys_provider sys) r).2
  /\ (consumption (strat_of r) (contents (sys_provider sys) r).2 <= limit_of r)%N.
Proof.
  cbn zeta. intros (Hv & Hp & Hr) Hsteps Hc.
  destruct (system_safe _ _ True no_guarantee (page_ok_perm strat_of limit_of (fun _ => True))
    (server_handler (fun _ => True))
    (server_handler_wp strat_of limit_of (fun _ => True) True (or_introl I)) st sys Hv Hp Hr Hsteps Hc r)
    as [[Hu _ Hl] _].
  done.
Qed.

(** C9. No panics.  If, besides, the policies' strategies are known and the
    host names in requests and stored leases contain no space, then no handler
    of a reachable system has panicked: neither the count of replaceable leases
    nor the statistics can go wrong. *)
Theorem server_never_panics strat_of limit_of st sys msg :
  let pols := policies_ok strat_of limit_of False in
  let arrives := server_handler no_space in
  good_start (page_ok strat_of limit_of no_space) st ->
  rtc (step pols arrives) (initial st) sys -> (sys_commits sys < 2 ^ 64)%N ->
  Crash msg ∉ sys_handlers sys.
Proof.
  cbn zeta. intros (Hv & Hp & Hr) Hsteps Hc Hin.
  exact (system_no_crash _ _ False no_guarantee (page_ok_perm strat_of limit_of no_space)
    (server_handler no_space)
    (server_handler_wp strat_of limit_of no_space False
      (or_intror (hosts_apart strat_of limit_of))) st sys Hv Hp Hr Hsteps Hc msg Hin).
Qed.

(** C10. Acquisition.  If the host names of the stored leases and of the request
    contain no space (otherwise the attempt may panic,
    [acquire_panics_on_ambiguous_hosts]), then an attempt at acquiring a lease
    under the policies of its resource comes to a decision, in a transaction
    that is built on the leases viewed and keeps the page.  The lease it grants
    is stored, is the requester's and is renewed now; and a requester whose
    lease is active and has not expired keeps it, with its starting time.  If
    the leases already queued wait under the terms of the same policies
    ([same_terms]: strategy and limit are still those under which they were
    queued), then the lease is left queued only if the consumption has reached
    the limit. *)
Theorem acquire_decides strat_of limit_of subject props policies now rev s :
  let r := sub_Resource subject in
  let page := page_ok strat_of limit_of no_space in
  page r s -> sorted_set s -> r <> "" -> r = PolicySet_Resource policies ->
  matched_ok strat_of limit_of False policies ->
  no_space (inst_Host (sub_Instance subject)) ->
  exists ls tx,
    acquire_tx subject policies (new_lease subject props policies now) now (NewTx r rev s) = Ret (ls, tx)
    /\ built_on tx s /\ page r (tx_leases tx)
    /\ ls ∈ tx_leases tx /\ ls_Subject ls = subject /\ ls_Renewed ls = now
    /\ (same_terms policies s -> ls_Status ls = Queued ->
        (PolicySet_Limit policies <= consumption (PolicySet_Strategy policies) (tx_leases tx))%N)
    /\ (forall l, l ∈ s -> ls_Instance l = sub_Instance subject -> ls_Status l = Active ->
         current now l -> ls_Status ls = Active /\ ls_Started ls = ls_Started l).
Proof.
  cbn zeta. intros Hpage Hsort Hne Hres Hm Hh.
  set (r := sub_Resource subject) in *. set (ls0 := new_lease subject props policies now).
  pose proof (proj1 Hm ltac:(by rewrite <- Hres)) as [Hst Hlim]. rewrite <- Hres in Hst, Hlim.
  assert (Hoff : offered strat_of limit_of no_space r subject ls0)
    by (by apply (new_lease_offered strat_of limit_of no_space False)).
  destruct (acquire_tx_ok strat_of limit_of no_space subject policies ls0 now (NewTx r rev s)
    Hpage Hsort Hoff Hst Hlim) as (a & tx1 & Hrun & [[ops1 Hext1] Hok1] & Hrs
      & [(ls & tx & Hacq & [[ops Hext] Hok] & Hne' & Hd)|(msg & _ & Hamb)]).
  2: { exfalso. apply Hamb. by apply (hosts_apart strat_of limit_of r). }
  destruct (decision_lease _ _ _ _ _ _ _ Hd) as (Hin & Hsub & Hren).
  exists ls, tx. split; [done|]. split.
  { split; [|apply Hext]. pose proof (ext_ops _ _ _ Hext) as Ho. cbn in Ho. rewrite Ho. apply Hext. }
  split; [done|]. split; [done|]. split; [by rewrite Hsub|]. split; [by rewrite Hren|].
  split; [intros Hterms; by eapply (decision_queued now s)|].
  intros l Hl Hi Ha Hcur. pose proof (refresh_keeps_active _ _ _ _ _ Hrs Hl Ha Hcur) as Hl1.
  assert (Hlr : ls_Resource l = tx_resource tx1).
  { rewrite (ext_resource _ _ _ Hext1). cbn. destruct Hpage as [_ Hall _].
    rewrite Forall_forall in Hall. by destruct (Hall l Hl). }
  pose proof (instance_of_unique tx1 l (pg_unique _ _ _ _ _ Hok1) Hl1 Hlr) as Hinst.
  rewrite Hi in Hinst.
  destruct Hd as [existing rest Hf Hs Hp1 c1 ls1 Hp|existing rest Hf Hs Hp1 ls1 Hp
    |rep rest Hf Hs Hu Hp1 Hp|Hf st ls1 Hp];
    rewrite Hinst in Hf; [|injection Hf as <-; by cbn|discriminate Hf|discriminate Hf].
  injection Hf as <-. rewrite Ha in Hs. discriminate Hs.
Qed.

(** C11. Release.  An attempt at releasing a lease always succeeds in building
    a transaction that keeps the page, after which the instance holds no lease
    that is active or queued.  A lease that was active and had not expired is
    kept as released now, to decay, unless a lease of the same consumer that was
    queued, of another instance, takes its place: that lease is active
    afterwards and otherwise unchanged. *)
Theorem release_ends_lease strat_of limit_of host_ok subject now rev s :
  let r := sub_Resource subject in
  let page := page_ok strat_of limit_of host_ok in
  page r s -> sorted_set s ->
  exists tx, release_tx subject now (NewTx r rev s) = Ret tx
    /\ built_on tx s /\ page r (tx_leases tx)
    /\ (forall l, l ∈ tx_leases tx -> ls_Instance l = sub_Instance subject -> ls_Status l = Released)
    /\ (forall l, l ∈ s -> ls_Instance l = sub_Instance subject -> ls_Status l = Active ->
         current now l -> (0 <= ls_Decay l)%Z ->
         release_at now l ∈ tx_leases tx
         \/ exists q, q ∈ s /\ ls_Status q = Queued /\ ls_HostUser q = ls_HostUser l
              /\ ls_Instance q <> sub_Instance subject /\ set_Status Active q ∈ tx_leases tx).
Proof.
  cbn zeta. intros Hpage Hsort. set (r := sub_Resource subject) in *.
  destruct (release_stages strat_of limit_of host_ok subject now (NewTx r rev s) Hpage Hsort)
    as (a1 & tx1 & tx2 & a3 & tx3 & Hrun & Hok & Hrs1 & Hok1 & Hout & Hu2 & Hrs3).
  cbn [tx_resource NewTx] in Hout. exists tx3. split; [done|].
  pose proof Hok as [[ops Hext] Hp]. split.
  { split; [|apply Hext]. pose proof (ext_ops _ _ _ Hext) as Ho. cbn in Ho. rewrite Ho. apply Hext. }
  split; [done|]. split.
  - intros l Hl Hi. apply (release_outcome_status r (sub_Instance subject) now (tx_leases tx1)
      (tx_leases tx2) (tx_leases tx3) a3 l); try done.
    + apply (pg_unique _ _ _ _ _ (tx_ok_page _ _ _ _ _ Hok1)).
    + pose proof (pg_leases _ _ _ _ _ Hp) as Hall. rewrite Forall_forall in Hall. by destruct (Hall l Hl).
  - intros l Hl Hi Ha Hcur Hd.
    pose proof (refresh_keeps_active _ _ _ _ _ Hrs1 Hl Ha Hcur) as Hl1.
    assert (Hid : lease_id l = (r, sub_Instance subject)).
    { unfold lease_id. rewrite Hi. f_equal. destruct Hpage as [_ Hall _].
      rewrite Forall_forall in Hall. by destruct (Hall l Hl). }
    assert (Hin : release_at now l ∈ tx_leases tx2).
    { apply (release_outcome_active r (sub_Instance subject) now (tx_leases tx1)); try done.
      apply (pg_unique _ _ _ _ _ (tx_ok_page _ _ _ _ _ Hok1)). }
    destruct (refreshed_set_fate _ _ _ _ _ Hrs3 Hin) as [Hst|[(l' & Hl' & HR)|(l1 & q & _ & _ & Hq2 & Hqs & Hu & Hq)]].
    + exfalso. apply (released_not_stale now l Hd); [|done]. by apply Hcur.
    + left. by rewrite <- (released_keeps _ _ _ HR eq_refl).
    + right. pose proof (release_outcome_queued _ _ _ _ _ _ Hout Hq2 Hqs) as Hq1.
      pose proof (refreshed_set_queued _ _ _ _ _ Hrs1 Hq1 Hqs) as Hq0.
      exists q. split_and!; [done..|intros Hi'|done].
      assert (q = l) as -> by (apply (page_instance_unique strat_of limit_of host_ok r s); [done..|congruence]).
      rewrite Ha in Hqs. discriminate Hqs.
Qed.
End Properties.

Section Alone.
Context `{SO : Sorter, HSO : !SorterSpec SO, GT : GoText}.

(** Acquisition alone.  When nothing interferes, an acquisition over the
    in-memory provider succeeds at its first attempt: it answers with a lease of
    the requester and the leases of the resource, publishes them, and leaves
    exactly those leases stored, in order, at the next revision. *)
Lemma acquire_succeeds_alone strat_of limit_of subject props policies (w : World MemProvider) :
  let r := sub_Resource subject in
  let '(rev, s) := mem_contents (w_provider w) r in
  page_ok strat_of limit_of no_space r s -> sorted_set s -> r <> "" ->
  r = PolicySet_Resource policies -> matched_ok strat_of limit_of False policies ->
  no_space (inst_Host (sub_Instance subject)) ->
  exists ls snapshot w',
    run (acquire subject props policies) w = (Answered (Ok (ls, snapshot)), w')
    /\ ls_Subject ls = subject /\ ls ∈ snap_Leases snapshot
    /\ w_published w' = w_published w ++ [snapshot]
    /\ exists stored, mem_contents (w_provider w') r = (wrapu64 (rev + 1), stored)
         /\ stored ≡ₚ snap_Leases snapshot /\ sorted_set stored.
Proof.
  cbn zeta. destruct (mem_contents (w_provider w) (sub_Resource subject)) as [rev s] eqn:Hmem.
  intros Hpage Hsort Hne Hres Hm Hh. set (r := sub_Resource subject) in *.
  pose proof (proj1 Hm ltac:(by rewrite <- Hres)) as [Hst Hlim]. rewrite <- Hres in Hst, Hlim.
  set (now := w_clock w (w_ticks w)). set (ls0 := new_lease subject props policies now).
  assert (Hoff : offered strat_of limit_of no_space r subject ls0)
    by (by apply (new_lease_offered strat_of limit_of no_space False)).
  destruct (acquire_tx_ok strat_of limit_of no_space subject policies ls0 now (NewTx r rev s)
    Hpage Hsort Hoff Hst Hlim) as (a & tx1 & Hrun & Hok1 & Hrs
      & [(ls & tx & Hacq & [[ops Hext] Hok] & Hne' & Hd)|(msg & _ & Hamb)]).
  2: { exfalso. apply Hamb. apply (hosts_apart strat_of limit_of r); [apply Hok1|done]. }
  destruct (decision_lease _ _ _ _ _ _ _ Hd) as (Hin & Hsub & _).
  destruct (mem_view r (w_provider w)) as (p1 & Hview & Hp1). rewrite Hmem in Hview.
  destruct (mem_commit_built tx p1) as (p2 & stored & Hcom & Hst2 & Hperm & Hsrt).
  { rewrite (ext_resource _ _ _ Hext), (ext_revision _ _ _ Hext), Hp1.
    cbn [tx_resource tx_revision NewTx]. by rewrite Hmem. }
  { done. }
  { rewrite (ext_resource _ _ _ Hext), Hp1. cbn [tx_resource NewTx]. rewrite Hmem. cbn [snd].
    split; [|apply Hext]. pose proof (ext_ops _ _ _ Hext) as Ho. cbn in Ho. rewrite Ho. apply Hext. }
  destruct (statsSummary_known (PolicySet_Limit policies) (Set_Stats (tx_leases tx))
    (PolicySet_Strategy policies)) as [t Ht]; [by destruct Hm as [_ [[]|?]]|].
  assert (Hloop : run (acquire_loop 5 subject props policies zero_lease zero_snapshot None) w
    = (Answered (ls, snapshot_of (tx_resource tx) (tx_revision tx) (tx_leases tx), None),
       set_provider p2 (tick (set_provider p1 w)))).
  { cbn [acquire_loop]. fold r. rewrite run_bind. cbn [View run LeaseView MemProv_provider].
    rewrite Hview. cbn [run]. rewrite run_bind. cbn [Now run]. rewrite run_bind.
    change (w_clock (set_provider p1 w) (w_ticks (set_provider p1 w))) with now. fold ls0.
    rewrite Hacq. cbn [lift run]. unfold Tx_Empty. rewrite bool_decide_false; [|].
    2: { by destruct (tx_ops tx). }
    rewrite run_bind. cbn [Commit run LeaseCommit MemProv_provider w_provider tick set_provider].
    rewrite Hcom. reflexivity. }
  unfold acquire. rewrite run_bind, Hloop, run_bind. cbn [snapshot_of snap_Stats].
  rewrite Ht. cbn [lift run]. rewrite run_bind. cbn [Publish run].
  do 3 eexists. split; [reflexivity|]. split; [by rewrite Hsub|]. split; [exact Hin|].
  split; [done|]. exists stored. cbn [w_provider set_provider tick publish].
  rewrite (ext_resource _ _ _ Hext), (ext_revision _ _ _ Hext) in Hst2. done.
Qed.
End Alone.

(** ** Witnesses *)

#[local] Existing Instance ascii_text.

(** One policy: three leases of "res" for program "app". *)
Definition app_policy : Policy :=
  mkPolicy "res" [mkCriterion "program.name" ComparisonExact "app"] Strategy_Instance 3
    (10 * Minute)%Z (2 * Minute)%Z (mkRefresh 0%Z 0%Z) ∅.
Definition app_policies : PolicySet := [app_policy].
Definition app_form (host inst : string) : HTTPForm :=
  Ok [("program.name", ["app"]); ("host", [host]); ("user", ["ann"]); ("instance", [inst])].
Definition app_subject (host inst : string) : Subject := mkSubject "res" (mkInstance host "ann" inst).

Definition app_strategy (r : string) : Strategy := Strategy_Instance.
Definition app_limit (r : string) : N := 3.

Definition app_world : World MemProvider :=
  mkWorld MemProv_New (Ok app_policies) (fun n => (1000 * Second)%Z) 0 [].

Definition app_handler : prog () := _ ← acquireHandler (app_form "h1" "1"); Done tt.

(** The system after one client has acquired a lease. *)
Definition app_system : system :=
  mkSystem (w_provider (run app_handler app_world).2) [ended (run app_handler app_world).1]
    (run_commits app_handler app_world).

Lemma app_matched : matched_ok app_strategy app_limit False app_policies.
Proof. split; [intros _; split; [reflexivity|cbn; done]|]. right. left. reflexivity. Qed.

Lemma app_matches crash props :
  matched_ok app_strategy app_limit crash (PolicySet_Match app_policies props).
Proof.
  unfold PolicySet_Match, app_policies. rewrite filter_cons.
  case_decide; rewrite filter_nil.
  - split; [intros _; split; [reflexivity|cbn; done]|]. right. left. reflexivity.
  - split; [by intros []|]. right. left. reflexivity.
Qed.

Lemma app_reachable host_ok crash :
  host_ok "h1" ->
  rtc (step (policies_ok app_strategy app_limit crash)
         (server_handler host_ok))
    (initial MemProv_New) app_system.
Proof.
  intros Hh. eapply rtc_l; [apply (step_arrive _ _ app_handler)|].
  - apply h_acquire. intros req [= <-]. exact Hh.
  - apply (run_steps _ _ app_handler app_world [app_handler] 0 0); [done|].
    intros props. apply app_matches.
Qed.

Lemma server_limit_safety_witness :
  rtc (step (policies_ok app_strategy app_limit True)
         (server_handler (fun _ => True))) (initial MemProv_New) app_system
  /\ length (mem_contents (sys_provider app_system) "res").2 = 1
  /\ (consumption Strategy_Instance (mem_contents (sys_provider app_system) "res").2 <= 3)%N.
Proof.
  split; [by apply app_reachable|]. split; [vm_compute; reflexivity|].
  exact (proj2 (server_limit_safety app_strategy app_limit MemProv_New app_system "res"
    (mem_good_start app_strategy app_limit _) (app_reachable _ _ I) ltac:(vm_compute; reflexivity))).
Defined.

Lemma no_space_h1 : no_space "h1".
Proof. apply (bool_decide_unpack _). vm_compute. exact I. Qed.

Lemma server_never_panics_witness :
  sys_handlers app_system = [Done tt]
  /\ Crash "unknown strategy" ∉ sys_handlers app_system.
Proof.
  split; [vm_compute; reflexivity|].
  exact (server_never_panics app_strategy app_limit MemProv_New app_system "unknown strategy"
    (mem_good_start app_strategy app_limit _) (app_reachable _ _ no_space_h1) ltac:(vm_compute; reflexivity)).
Defined.

(** A page with one active lease of the client. *)
Definition app_lease (inst : string) (st : Status) : Lease :=
  mkLease (app_subject "h1" inst) ∅ st (900 * Second)%Z (990 * Second)%Z 0%Z Strategy_Instance 3
    (10 * Minute)%Z (2 * Minute)%Z (mkRefresh 0%Z 0%Z).

Lemma app_page : page_ok app_strategy app_limit no_space "res" [app_lease "1" Active].
Proof.
  split.
  - apply (bool_decide_unpack _). vm_compute. exact I.
  - apply Forall_cons_2; [|apply Forall_nil_2].
    split; [reflexivity|]. split; [reflexivity|]. split; [cbn; done|exact no_space_h1].
  - vm_compute. discriminate.
Qed.

Lemma app_current : current (1000 * Second)%Z (app_lease "1" Active).
Proof.
  split; [|intros _; vm_compute; reflexivity].
  intros [[_ H]|[[H _]|[H _]]]; vm_compute in H; discriminate H.
Qed.

Lemma acquire_decides_witness :
  exists ls tx,
    acquire_tx (app_subject "h1" "1") app_policies
      (new_lease (app_subject "h1" "1") ∅ app_policies (1000 * Second)%Z) (1000 * Second)%Z
      (NewTx "res" 7 [app_lease "1" Active]) = Ret (ls, tx)
    /\ ls_Status ls = Active /\ ls_Started ls = (900 * Second)%Z /\ ls_Renewed ls = (1000 * Second)%Z.
Proof.
  destruct (acquire_decides app_strategy app_limit (app_subject "h1" "1") ∅ app_policies
    (1000 * Second)%Z 7 [app_lease "1" Active]) as (ls & tx & Hrun & _ & _ & _ & _ & Hren & _ & Hkeep).
  - exact app_page.
  - repeat constructor.
  - discriminate.
  - reflexivity.
  - exact app_matched.
  - exact no_space_h1.
  - exists ls, tx. split; [exact Hrun|].
    destruct (Hkeep (app_lease "1" Active)) as [Ha Hs];
      [left|reflexivity|reflexivity|exact app_current|].
    split; [exact Ha|]. split; [exact Hs|exact Hren].
Defined.

Lemma release_ends_lease_witness :
  exists tx, release_tx (app_subject "h1" "1") (1000 * Second)%Z (NewTx "res" 7 [app_lease "1" Active]) = Ret tx
    /\ forall l, l ∈ tx_leases tx -> ls_Instance l = mkInstance "h1" "ann" "1" -> ls_Status l = Released.
Proof.
  destruct (release_ends_lease app_strategy app_limit no_space (app_subject "h1" "1") (1000 * Second)%Z 7
    [app_lease "1" Active]) as (tx & Hrun & _ & _ & Hrel & _).
  - exact app_page.
  - repeat constructor.
  - exists tx. split; [exact Hrun|exact Hrel].
Defined.

Lemma acquire_succeeds_alone_witness :
  exists ls snapshot w',
    run (acquire (app_subject "h1" "1") ∅ app_policies) app_world = (Answered (Ok (ls, snapshot)), w')
    /\ ls ∈ snap_Leases snapshot.
Proof.
  destruct (acquire_succeeds_alone app_strategy app_limit (app_subject "h1" "1") ∅ app_policies app_world)
    as (ls & snapshot & w' & Hrun & _ & Hin & _).
  - apply page_ok_nil.
  - constructor.
  - discriminate.
  - reflexivity.
  - exact app_matched.
  - exact no_space_h1.
  - exists ls, snapshot, w'. split; [exact Hrun|exact Hin].
Defined.

(** ** What the source does not promise *)

(** The key [HostUser] does not tell ("a b", "c") from ("a", "b c"): a released
    lease of the first makes an acquisition by the second panic. *)
Lemma acquire_panics_on_ambiguous_hosts :
  let released := mkLease (mkSubject "res" (mkInstance "a b" "c" "1")) ∅ Released
    (900 * Second)%Z (990 * Second)%Z (995 * Second)%Z Strategy_Instance 3
    (10 * Minute)%Z (2 * Minute)%Z (mkRefresh 0%Z 0%Z) in
  let subject := mkSubject "res" (mkInstance "a" "b c" "2") in
  acquire_tx subject app_policies (new_lease subject ∅ app_policies (1000 * Second)%Z)
    (1000 * Second)%Z (NewTx "res" 7 [released])
  = Panic "server: acquireHandler: accumulator returned a different count for relased leases than the transaction".
Proof. vm_compute. reflexivity. Qed.

(** Releasing a lease that has already been released deletes it at once, decay
    period included; the server logs that such a release is ignored. *)
Lemma second_release_skips_decay :
  let released := release_at (995 * Second)%Z (app_lease "1" Active) in
  exists tx, release_tx (app_subject "h1" "1") (1000 * Second)%Z (NewTx "res" 7 [released]) = Ret tx
    /\ tx_leases tx = [] /\ Lease_Decayed released (1000 * Second)%Z = false.
Proof. eexists. split; [vm_compute; reflexivity|]. split; vm_compute; reflexivity. Qed.
