(* ===== verification/ServerReply.v ===== *)
(** * What the server's answers attest

    A handler's calls are answered by providers that other handlers use in
    between, so that what they answer is only known to keep the invariant of
    the leases.  [replied] quantifies over all these answers and follows the
    last commit that succeeded: whatever interleaves, a lease that is granted
    was part of it. *)

From S2P Require Import Prelude GoTime Lease LeaseSet Tx Refresh Policy Provider MemProv Program Server Concurrency TxProps ServerSafe ServerProps PolicyProps.

Section Replied.
Context (page_ok : string -> LeaseSet -> Prop) (policies_ok : result PolicySet -> Prop).

(** [c] is the last transaction that was committed. *)
Fixpoint replied {A} (c : option Tx) (p : prog A) (Q : option Tx -> A -> Prop) : Prop :=
  match p with
  | Done a => Q c a
  | Crash _ => True
  | Policies_ k => forall ps, policies_ok ps -> replied c (k ps) Q
  | LeaseResources_ k => forall rs, replied c (k rs) Q
  | LeaseView_ r k =>
      (forall e, replied c (k (Err e)) Q)
      /\ forall rev s, page_ok r s -> sorted_set s -> replied c (k (Ok (rev, s))) Q
  | LeaseCommit_ tx k => replied (Some tx) (k None) Q /\ forall e, replied c (k (Some e)) Q
  | Now_ k => forall t, replied c (k t) Q
  | Publish_ s k => replied c k Q
  end.

Lemma replied_mono {A} c (p : prog A) (Q R : option Tx -> A -> Prop) :
  (forall c a, Q c a -> R c a) -> replied c p Q -> replied c p R.
Proof.
  intros HQR. revert c. induction p as [a|msg|k IH|k IH|r k IH|tx k IH|k IH|s k IH]; intros c; cbn; naive_solver.
Qed.

(** What the program logic shows of a handler, forgetting what it has viewed. *)
Lemma wp_replied {A} V (p : prog A) Q :
  wp page_ok policies_ok True no_guarantee V p (fun V a => Q (seen_commit V) a) ->
  replied (seen_commit V) p Q.
Proof.
  revert V. induction p as [a|msg|k IH|k IH|r k IH|tx k IH|k IH|s k IH]; intros V; cbn; try naive_solver.
  - intros [He Hok]. split; [intros e; apply (IH _ (see_view (Err e) r V)), He|].
    intros rev s Hp Hs. by apply (IH _ (see_view (Ok (rev, s)) r V)), Hok.
  - intros [_ H]. split; [apply (IH _ (see_commit None tx V)), H|].
    intros e. apply (IH _ (see_commit (Some e) tx V)), H.
  - intros H t. apply (IH _ (see_time t V)), H.
Qed.
End Replied.

Section Acquire.
Context (strat_of : string -> Strategy) (limit_of : string -> N).
Context `{SO : Sorter, HSO : !SorterSpec SO, GT : GoText}.

#[local] Abbreviation any := (fun _ : string => True).
#[local] Abbreviation page := (page_ok strat_of limit_of any).
#[local] Abbreviation pols := (policies_ok strat_of limit_of True).
#[local] Abbreviation replied := (replied page pols).

(** C3. Granted leases are committed.  Whatever the providers answer a handler
    of acquisitions, and so whatever other handlers do between its calls: when
    it replies with a lease, its last successful commit stored that lease, for
    the requester's instance and the resource of the reply, together with just
    the leases of the reply, which keep the limit. *)
Theorem granted_leases_are_committed form :
  replied None (acquireHandler form) (fun c reply =>
    match reply with
    | AcquireReply r =>
        exists req tx, parseRequest form = Ok req /\ c = Some tx
          /\ tx_resource tx = sub_Resource (req_Subject (ar_Request r))
          /\ tx_leases tx = ar_Leases r /\ ar_Lease r ∈ ar_Leases r
          /\ ls_Subject (ar_Lease r) = mkSubject (tx_resource tx) (sub_Instance (req_Subject req))
          /\ unique_ids (ar_Leases r)
          /\ (consumption (strat_of (tx_resource tx)) (ar_Leases r) <= limit_of (tx_resource tx))%N
    | _ => True
    end).
Proof.
  eapply replied_mono; [|apply (wp_replied page pols unseen _
    (fun c reply => reply_attested strat_of limit_of any pols form reply c)),
    (acquireHandler_wp strat_of limit_of any True (or_introl I) pols no_guarantee any_release
      (plain_guarantee strat_of limit_of any True)); done].
  intros c [| | | | |r|]; try done.
  intros (req & m & Hreq & _ & _ & Hr & tx & props & now & st & started & -> & Htx & Hl & [Hu _ Hc] & Hin & Hls).
  exists req, tx. rewrite Htx in *. split_and!; try done. by rewrite Hls, Hr.
Qed.
End Acquire.

(** ** Witness *)

#[local] Existing Instance ascii_text.

Definition grants (o : answer Reply) : bool :=
  match o with Answered (AcquireReply _) => true | _ => false end.

Lemma granted_leases_are_committed_witness :
  grants (run (acquireHandler (app_form "h1" "1")) app_world).1 = true
  /\ replied (page_ok app_strategy app_limit (fun _ => True)) (policies_ok app_strategy app_limit True)
       None (acquireHandler (app_form "h1" "1"))
       (fun c reply => forall r, reply = AcquireReply r ->
          c <> None /\ (consumption (app_strategy "res") (ar_Leases r) <= 3)%N).
Proof.
  split; [vm_compute; reflexivity|].
  eapply replied_mono; [|exact (granted_leases_are_committed app_strategy app_limit (app_form "h1" "1"))].
  intros c reply H r ->.
  destruct H as (req & tx & _ & -> & _ & _ & _ & _ & _ & Hc). by split.
Defined.
