(* ===== verification/Stream.v ===== *)
(** * The event stream of the server (guardian/server.go)

    [streamHandler], [publishLeaseUpdate], [makePoliciesEvent],
    [makeLeasesEvent], and the text that [policiesHandler] writes when JSON is
    not asked for.

    The stream is that of a third-party package, [EventStream]; what the server
    relies on is in [EventStreamSpec].  The JSON encoder and the negotiation of
    content types are arguments.  [stream_step] runs the handlers of the server
    over their provider, with the goroutines that they start to broadcast what
    they publish. *)

From stdpp Require Import gmap.
From S2P Require Import Prelude GoStrings GoTime GoFmt GoQuote Lease LeaseSet Tx Policy PolicyText Provider MemProv Program Server Client Wire Refresh PolicyProps Concurrency ServerProps.

(** ** Events *)

Class EventJSON := {
  encode_policies : PolicySet -> result bytes;
  encode_snapshot : Snapshot -> result bytes;
}.

(** An event has a type and data. *)
Record StreamEvent := mkStreamEvent { evt_Type : string; evt_Data : bytes }.

(** The package eventsource: its streams, and its clients by number.  [None] is
    the nil event. *)
Class EventStream (X : Type) := {
  Register : nat -> X -> X;
  Subscribe : string -> nat -> X -> X;
  Broadcast : option StreamEvent -> X -> X;
  ClientSend : nat -> StreamEvent -> X -> X;
  Remove : nat -> X -> X;
}.

(** A client is registered to receive what is broadcast; what is sent to it is
    queued for it in order.  Nothing is known of a nil event. *)
Class EventStreamSpec (X : Type) (ES : EventStream X) := {
  queued : X -> nat -> option (list StreamEvent);
  queued_Register c x d :
    queued (Register c x) d = if decide (c = d) then Some (default [] (queued x c)) else queued x d;
  queued_Subscribe topic c x d : queued (Subscribe topic c x) d = queued x d;
  queued_Broadcast evt x d : queued (Broadcast (Some evt) x) d = (fun q => q ++ [evt]) <$> queued x d;
  queued_ClientSend c evt x d :
    queued (ClientSend c evt x) d
    = if decide (c = d) then (fun q => q ++ [evt]) <$> queued x d else queued x d;
  queued_Remove c x d : queued (Remove c x) d = if decide (c = d) then None else queued x d;
}.

Section Events.
Context `{EJ : EventJSON}.

Definition makePoliciesEvent (policies : PolicySet) : result StreamEvent :=
  data ← encode_policies policies;
  Ok (mkStreamEvent "policies" data).
Definition makeLeasesEvent (snapshot : Snapshot) : result StreamEvent :=
  data ← encode_snapshot snapshot;
  Ok (mkStreamEvent "leases" data).

(** What the goroutine of [publishLeaseUpdate] broadcasts: the nil event
    [None] after a failure. *)
Definition publishLeaseUpdate (snapshot : Snapshot) : option StreamEvent :=
  match makeLeasesEvent snapshot with Ok evt => Some evt | Err _ => None end.

(** What [streamHandler] sends of what it has retrieved: events that cannot be
    made are left out. *)
Definition sent (evt : result StreamEvent) : list StreamEvent :=
  match evt with Ok evt => [evt] | Err _ => [] end.
Definition greeting (started : option PolicySet * list Snapshot) : list StreamEvent :=
  match started.1 with Some policies => sent (makePoliciesEvent policies) | None => [] end
  ++ mjoin ((fun snapshot => sent (makeLeasesEvent snapshot)) <$> started.2).

(** What [streamHandler] asks of the stream, in order: refuse, or register a client, subscribe it, send
    it the greeting, wait for its end and remove it. *)
Inductive StreamAct :=
| StreamRefused (resp : HTTPResponse)
| RegisterClient | SubscribeClient (topic : string) | SendEvent (evt : StreamEvent) | WaitClient | RemoveClient.

Definition StatusNotAcceptable : N := 406.
Definition stream_greeted `{Sorter} : prog (list StreamAct) :=
  started ← stream_start;
  Done ([RegisterClient; SubscribeClient "leases"] ++ (SendEvent <$> greeting started) ++ [WaitClient; RemoveClient]).
Definition streamHandler `{Sorter} (accept : string) (supported : bool) : prog (list StreamAct) :=
  if decide (accept <> "text/event-stream")
  then Done [StreamRefused (http_Error "This is an EventStream endpoint" StatusNotAcceptable)]
  else if negb supported
  then Done [StreamRefused (http_Error "EventStream not supported for this connection" StatusInternalServerError)]
  else stream_greeted.

(** ** policiesHandler, for a client that accepts [accepted] *)

Definition policies_text `{Printable} (policies : PolicySet) : bytes :=
  mjoin ((fun pol => str (Policy_String pol +:+ newline)) <$> policies).
Definition policies_response `{Printable, JSON} (accepted : string) (response : PoliciesResponse) : HTTPResponse :=
  if decide (accepted = "text/plain") then http_response StatusOK (policies_text (pr_Policies response))
  else if decide (accepted = "application/json")
  then write_json StatusInternalServerError "Unable to marshal policies" (json_Policies response)
  else http_response StatusOK [].

End Events.

(** ** The handlers, their publications and the stream

    Every publication has a goroutine of its own: [st_pending] are the snapshots
    of those that have not yet broadcast, which they do in any order.  A handler
    that answers no request ends in [None]. *)

Record Streaming (St X : Type) := mkStreaming {
  st_provider : St;
  st_handlers : list (prog (option Reply));
  st_pending : list Snapshot;
  st_stream : X;
}.
Arguments mkStreaming {St X}.
Arguments st_provider {St X}.
Arguments st_handlers {St X}.
Arguments st_pending {St X}.
Arguments st_stream {St X}.


(** What a call has done that others may see of it. *)
Inductive Did := Quietly | Committed (tx : Tx) | Announced (s : Snapshot).

Inductive StreamStep :=
| Called (i : nat) (what : Did)
| Arrived
| Broadcasted (j : nat)
| Registered (c : nat)
| Subscribed (topic : string) (c : nat)
| Greeted (c : nat) (evt : StreamEvent)
| Removed (c : nat).

Section Stream.
Context `{EJ : EventJSON} {St : Type} `{LP : LeaseProvider St} {X : Type} `{ES : EventStream X}.
Context (policies_ok : result PolicySet -> Prop) (arrives : prog (option Reply) -> Prop).

Definition did {A} (p : prog A) (st : St) : Did :=
  match p with
  | LeaseCommit_ tx _ => match (LeaseCommit tx st).1 with None => Committed tx | Some _ => Quietly end
  | Publish_ s _ => Announced s
  | _ => Quietly
  end.
Definition announced_by (d : Did) : list Snapshot := match d with Announced s => [s] | _ => [] end.
Definition committed_by (d : Did) : list Tx := match d with Committed tx => [tx] | _ => [] end.

Inductive stream_step : Streaming St X -> StreamStep -> Streaming St X -> Prop :=
| stream_called i p p' st st' n hs pending x :
    hs !! i = Some p -> call policies_ok p st p' st' n ->
    stream_step (mkStreaming st hs pending x) (Called i (did p st))
      (mkStreaming st' (<[i := p']> hs) (pending ++ announced_by (did p st)) x)
| stream_arrived p st hs pending x :
    arrives p ->
    stream_step (mkStreaming st hs pending x) Arrived (mkStreaming st (hs ++ [p]) pending x)
| stream_broadcast j s st hs pending x :
    pending !! j = Some s ->
    stream_step (mkStreaming st hs pending x) (Broadcasted j)
      (mkStreaming st hs (delete j pending) (Broadcast (publishLeaseUpdate s) x))
| stream_registered c st hs pending x :
    stream_step (mkStreaming st hs pending x) (Registered c) (mkStreaming st hs pending (Register c x))
| stream_subscribed topic c st hs pending x :
    stream_step (mkStreaming st hs pending x) (Subscribed topic c) (mkStreaming st hs pending (Subscribe topic c x))
| stream_greeted_ c evt st hs pending x :
    stream_step (mkStreaming st hs pending x) (Greeted c evt) (mkStreaming st hs pending (ClientSend c evt x))
| stream_removed c st hs pending x :
    stream_step (mkStreaming st hs pending x) (Removed c) (mkStreaming st hs pending (Remove c x)).

Inductive stream_steps : Streaming St X -> list StreamStep -> Streaming St X -> Prop :=
| stream_refl st : stream_steps st [] st
| stream_trans st x st1 xs st2 : stream_step st x st1 -> stream_steps st1 xs st2 -> stream_steps st (x :: xs) st2.




(** ** Lemmas: the stream *)


Context {ESS : EventStreamSpec X ES}.


End Stream.

(** ** What handlers publish

    [announced o pub p Q] says that the program [p] publishes what it commits:
    [o] is the transaction it has committed and not yet published, [pub] what it
    has published so far.  It commits nothing while a publication is due, and
    what it publishes then are the leases of that transaction. *)






Section Handlers.
Context `{SO : Sorter, HSO : !SorterSpec SO, GT : GoText}.
















End Handlers.

(** ** What becomes of the publications of a handler *)

Section Trace.
Context `{EJ : EventJSON} {St : Type} `{LP : LeaseProvider St} {X : Type} `{ES : EventStream X}.
Context (policies_ok : result PolicySet -> Prop) (arrives : prog (option Reply) -> Prop).

#[local] Abbreviation steps := (stream_steps policies_ok arrives).





End Trace.

(** ** The property *)


Lemma called_then {St X : Type} `{LP : LeaseProvider St, ES : EventStream X, EJ : EventJSON}
    policies_ok arrives i p p' (st st' : St) n d hs pending (x : X) xs fin :
  hs !! i = Some p -> call policies_ok p st p' st' n -> did p st = d ->
  stream_steps policies_ok arrives (mkStreaming st' (<[i := p']> hs) (pending ++ announced_by d) x) xs fin ->
  stream_steps policies_ok arrives (mkStreaming st hs pending x) (Called i d :: xs) fin.
Proof. intros Hi Hc <- Hs. eapply stream_trans; [by eapply stream_called|exact Hs]. Qed.

(** The order of publications is not kept: of two updates the older one may
    reach a listener last. *)
Lemma stream_reorders {St X : Type} `{LP : LeaseProvider St, ES : EventStream X, ESS : !EventStreamSpec X ES}
    `{EJ : EventJSON} policies_ok arrives (st : St) (x : X) c s1 s2 e1 e2 :
  queued x c = Some [] -> makeLeasesEvent s1 = Ok e1 -> makeLeasesEvent s2 = Ok e2 ->
  exists st', stream_steps policies_ok arrives
                (mkStreaming st [Publish_ s1 (Done None); Publish_ s2 (Done None)] [] x)
                [Called 0 (Announced s1); Called 1 (Announced s2); Broadcasted 1; Broadcasted 0] st'
    /\ queued (st_stream st') c = Some [e2; e1].
Proof.
  intros Hq H1 H2. eexists. split.
  - eapply called_then; [reflexivity|apply call_publish|reflexivity|].
    eapply called_then; [reflexivity|apply call_publish|reflexivity|].
    eapply stream_trans; [by apply (stream_broadcast policies_ok arrives 1 s2)|].
    eapply stream_trans; [by apply (stream_broadcast policies_ok arrives 0 s1)|].
    apply stream_refl.
  - cbn. unfold publishLeaseUpdate. by rewrite H1, H2, !queued_Broadcast, Hq.
Qed.

(** A snapshot that cannot be encoded is broadcast as a nil event. *)
Lemma nil_event_broadcast `{EJ : EventJSON} s e : encode_snapshot s = Err e -> publishLeaseUpdate s = None.
Proof. unfold publishLeaseUpdate, makeLeasesEvent. by intros ->. Qed.

(** The greeting of a client has the policies before any leases. *)
Lemma greeting_order `{EJ : EventJSON} started :
  exists ps ls, greeting started = ps ++ ls
    /\ Forall (fun evt => evt_Type evt = "policies") ps /\ length ps <= 1
    /\ Forall (fun evt => evt_Type evt = "leases") ls.
Proof.
  destruct started as [policies snapshots]. unfold greeting. cbn [fst snd]. eexists _, _. split; [done|]. split_and!.
  - destruct policies as [p|]; [|done]. unfold makePoliciesEvent. destruct (encode_policies p); cbn; [|done].
    by constructor.
  - destruct policies as [p|]; [|cbn; lia]. unfold makePoliciesEvent. destruct (encode_policies p); cbn; lia.
  - apply Forall_forall. intros evt (evts & Hevt & (s & -> & _)%list_elem_of_fmap)%list_elem_of_join.
    unfold makeLeasesEvent in Hevt. destruct (encode_snapshot s); cbn in Hevt;
      [by apply list_elem_of_singleton in Hevt as ->|by apply not_elem_of_nil in Hevt].
Qed.

(** ** Witness *)

#[local] Instance named_events : EventJSON := {|
  encode_policies := fun ps => Ok (str (strings_Join (pol_Resource <$> ps) ","));
  encode_snapshot := fun s => Ok (str (snap_Resource s));
|}.

(** Streams as the queues of their clients. *)
#[local] Instance queues : EventStream (gmap nat (list StreamEvent)) := {|
  Register c x := <[c := default [] (x !! c)]> x;
  Subscribe _ _ x := x;
  Broadcast evt x := (fun q => q ++ option_list evt) <$> x;
  ClientSend c evt x := alter (fun q => q ++ [evt]) c x;
  Remove c x := delete c x;
|}.
#[local] Instance queues_spec : EventStreamSpec (gmap nat (list StreamEvent)) queues.
Proof.
  refine {| queued := fun x c => x !! c |}.
  - intros c x d. cbn. case_decide as H; [subst d; by rewrite lookup_insert_eq|by rewrite lookup_insert_ne].
  - done.
  - intros evt x d. cbn. by rewrite lookup_fmap.
  - intros c evt x d. cbn. case_decide as H; [subst d; by rewrite lookup_alter_eq|by rewrite lookup_alter_ne].
  - intros c x d. cbn. case_decide as H; [subst d; by rewrite lookup_delete_eq|by rewrite lookup_delete_ne].
Defined.

(** What a program does that runs alone. *)
Fixpoint dids `{LP : LeaseProvider St} {A} (p : prog A) (w : World St) : list Did :=
  match p with
  | Done _ | Crash _ => []
  | Policies_ k => Quietly :: dids (k (w_policies w)) w
  | LeaseResources_ k => Quietly :: dids (k (LeaseResources (w_provider w))) w
  | LeaseView_ r k =>
      let '(v, p) := LeaseView r (w_provider w) in Quietly :: dids (k v) (set_provider p w)
  | LeaseCommit_ tx k =>
      let '(e, p) := LeaseCommit tx (w_provider w) in
      match e with None => Committed tx | Some _ => Quietly end :: dids (k e) (set_provider p w)
  | Now_ k => Quietly :: dids (k (w_clock w (w_ticks w))) (tick w)
  | Publish_ s k => Announced s :: dids k (publish s w)
  end.


#[local] Existing Instance ascii_text.



(** ** What is not published

    A request for the leases of a resource refreshes and commits them, and so
    does a purge: what has become of them then is announced to no listener. *)
Definition expired_world : World MemProvider :=
  mkWorld (mkMem {[ "res" := mkPage 7 [app_lease "1" Active] ]}) (Ok app_policies)
    (fun _ => (100000 * Second)%Z) 0 [].

Definition commits_and_announces (l : list Did) : nat * nat :=
  (length (l ≫= committed_by), length (l ≫= announced_by)).

Lemma commits_unannounced :
  commits_and_announces (dids (leasesHandler (Ok [("resource", ["res"])])) expired_world) = (1, 0)
  /\ commits_and_announces (dids Purge expired_world) = (1, 0)
  /\ commits_and_announces (dids refreshLeases expired_world) = (1, 1).
Proof. vm_compute. split_and!; reflexivity. Qed.
