(* ===== verification/Timed.v ===== *)
(** * Clients hold their leases

    The system of [Concurrency.v] with what clients rely on: a clock that does
    not go back, the requests together with the replies they have been given,
    and the times that leases last.  While a lease that a client has been told
    of lasts, and the client has not asked for its release, whatever the other
    handlers do leaves it stored as active; hence no more clients hold leases of
    a resource at any time than its limit allows. *)

From S2P Require Import Prelude GoTime Lease LeaseSet Tx LeaseUtil Refresh Policy Provider MemProv Program Server Concurrency TxProps ServerSafe RefreshProps ServerProps PolicyProps.

(** ** Jobs *)

(** What the server is asked, or does by itself, and the reply to it. *)
Inductive Job :=
| JHealth
| JPolicies
| JLeases (form : HTTPForm)
| JAcquire (form : HTTPForm)
| JRelease (form : HTTPForm)
| JStream
| JPurge
| JRefresh.

Section Jobs.
Context `{SO : Sorter, GT : GoText}.

Definition job_prog (j : Job) : prog (option Reply) :=
  match j with
  | JHealth => r ← healthHandler; Done (Some r)
  | JPolicies => r ← policiesHandler; Done (Some r)
  | JLeases form => r ← leasesHandler form; Done (Some r)
  | JAcquire form => r ← acquireHandler form; Done (Some r)
  | JRelease form => r ← releaseHandler form; Done (Some r)
  | JStream => _ ← stream_start; Done None
  | JPurge => _ ← Purge; Done None
  | JRefresh => _ ← refreshLeases; Done None
  end.
End Jobs.

Section Timed.
Context (strat_of : string -> Strategy) (limit_of : string -> N) (dur_of : string -> Duration).
Context `{SO : Sorter, HSO : !SorterSpec SO, GT : GoText}.

#[local] Abbreviation any := (fun _ : string => True).
#[local] Abbreviation page := (page_ok strat_of limit_of any).

(** The policies give each resource one strategy, limits of at most [limit_of],
    leases that last at least [dur_of], and no negative decay. *)
Definition timed_policies (ps : result PolicySet) : Prop :=
  policies_ok strat_of limit_of True ps
  /\ match ps with
     | Err _ => True
     | Ok ps =>
         forall props, let m := PolicySet_Match ps props in PolicySet_Resource m <> "" ->
           (dur_of (PolicySet_Resource m) <= PolicySet_Duration m)%Z /\ (0 <= PolicySet_Decay m)%Z
     end.

(** The leases that a job may release. *)
Definition job_releases (j : Job) (subject : Subject) : Prop :=
  match j with
  | JAcquire form =>
      exists req, parseRequest form = Ok req /\ req_Subject req = subject /\ switches timed_policies req
  | JRelease form => exists req, parseRequest form = Ok req /\ req_Subject req = subject
  | _ => False
  end.

(** ** What the commits guarantee *)

(** An active lease that lasts for [dur_of] from its renewal on. *)
Record firm (r : string) (l : Lease) : Prop := {
  firm_status : ls_Status l = Active;
  firm_duration : (dur_of r <= ls_Duration l)%Z;
  firm_decay : (0 <= ls_Decay l)%Z;
  firm_released : ls_Released l = zero_time;
}.

(** The instance [i] has held a lease of [r] since a renewal at [t] or later. *)
Definition held_since (r : string) (i : LeaseInstance) (t : Time) (s : LeaseSet) : Prop :=
  exists l, l ∈ s /\ lease_id l = (r, i) /\ firm r l /\ (t <= ls_Renewed l)%Z.

Definition renewed_by (now : Time) (l : Lease) : Prop := (ls_Renewed l <= now)%Z.
Definition lasts (r : string) (now : Time) (l : Lease) : Prop := (now <= ls_Renewed l + dur_of r)%Z.

Record transition (releases : Subject -> Prop) (r : string) (now : Time) (s s' : LeaseSet) : Prop := {
  tr_renewed : Forall (renewed_by now) s -> Forall (renewed_by now) s';
  tr_kept l : l ∈ s -> firm r l -> renewed_by now l -> lasts r now l ->
    releases (mkSubject r (ls_Instance l)) \/ held_since r (ls_Instance l) (ls_Renewed l) s';
}.

Lemma firm_current r now l : firm r l -> lasts r now l -> current now l.
Proof.
  intros [Ha Hd Hdec Hr] Hl. unfold lasts in Hl. split; [|intros _; apply Expired_false; lia].
  intros Hst. apply stale_Active in Hst; [|done]. apply Decayed_true in Hst.
  rewrite DecayTime_unreleased in Hst by done. lia.
Qed.

(** A refresh leaves a lease that lasts alone, and renews none. *)
Lemma refresh_firm r now s s' a l :
  refreshed_set now s s' a -> l ∈ s -> firm r l -> lasts r now l -> l ∈ s'.
Proof.
  intros Hrs Hl Hf Hlast. eapply refresh_keeps_active; [done|done|apply Hf|by eapply firm_current].
Qed.

Lemma refresh_renewed now s s' a :
  refreshed_set now s s' a -> Forall (renewed_by now) s -> Forall (renewed_by now) s'.
Proof.
  intros Hrs. rewrite !Forall_forall. intros H l' Hl'.
  destruct (refreshed_set_elem _ _ _ _ _ Hrs Hl') as (l & Hl & HR). specialize (H l Hl). by destruct HR.
Qed.

Lemma held_itself r l s t :
  l ∈ s -> ls_Resource l = r -> firm r l -> (t <= ls_Renewed l)%Z -> held_since r (ls_Instance l) t s.
Proof. intros Hl Hr Hf Ht. exists l. unfold lease_id. by rewrite Hr. Qed.

Lemma page_resource r s l : page r s -> l ∈ s -> ls_Resource l = r.
Proof. intros [_ H _] Hl. rewrite Forall_forall in H. by destruct (H l Hl). Qed.

Lemma refresh_transition releases r now s s' a :
  page r s -> refreshed_set now s s' a -> transition releases r now s s'.
Proof.
  intros Hp Hrs. split; [by eapply refresh_renewed|]. intros l Hl Hf Hren Hlast. right.
  apply held_itself; [by eapply refresh_firm|by eapply page_resource|done|done].
Qed.

(** The lease offered is renewed now, under the terms of the policies. *)
Lemma offered_firm subject props policies now st started :
  applies timed_policies policies -> PolicySet_Resource policies <> "" -> st = Active ->
  firm (PolicySet_Resource policies) (set_Started started (set_Status st (new_lease subject props policies now))).
Proof. intros (ps & pr & [_ Hps] & ->) Hne ->. destruct (Hps pr Hne) as [Hd Hdec]. by split. Qed.

Lemma acquire_transition releases subject policies props now s a tx1 tx' ls :
  let r := sub_Resource subject in
  r <> "" -> r = PolicySet_Resource policies -> applies timed_policies policies ->
  page r s -> refreshed_set now s (tx_leases tx1) a -> tx_resource tx1 = r -> page r (tx_leases tx1) ->
  decision subject policies (new_lease subject props policies now) a tx1 tx' ls ->
  transition releases r now s (tx_leases tx').
Proof.
  cbn zeta. intros Hne Hr Happ Hp Hrs Hr1 Hp1 Hd. split.
  - intros Hren. apply (refresh_renewed _ _ _ _ Hrs) in Hren.
    assert (Hnow : forall st started, renewed_by now
      (set_Started started (set_Status st (new_lease subject props policies now)))) by (intros; unfold renewed_by; cbn; lia).
    assert (Hls : renewed_by now ls).
    { destruct (decision_form _ _ _ _ _ _ _ _ Hd) as (_ & st & started & ->). apply Hnow. }
    destruct Hd as [x rest _ _ Hx ? ? ->|x rest _ _ Hx ? ->|x rest _ _ _ Hx ->|_ ? ? ->];
      [rewrite Hx in Hren; apply Forall_cons in Hren as [_ Hren]..|]; by apply Forall_cons.
  - intros l Hl Hf Hren Hlast. right. pose proof (refresh_firm _ _ _ _ _ _ Hrs Hl Hf Hlast) as Hl1.
    assert (Hkeep : l ∈ tx_leases tx' -> held_since (sub_Resource subject) (ls_Instance l) (ls_Renewed l) (tx_leases tx')).
    { intros Hin. apply held_itself; [done|by eapply page_resource|done|lia]. }
    assert (Ha : ls_Status l <> Released) by (rewrite (firm_status _ _ Hf); done).
    destruct Hd as [x rest _ Hs Hx c ls' Hx'|x rest Hi Hs Hx ls' Hx'|x rest _ Hs _ Hx Hx'|_ st ls' Hx'];
      try rewrite Hx in Hl1; try apply elem_of_cons in Hl1 as [->|Hl1];
      try done; try (apply Hkeep; rewrite Hx'; by right).
    apply Set_Instance_Some in Hi as (_ & Hxr & Hxi). rewrite Hxi.
    exists ls'. rewrite Hx'. split; [left|]. split; [by destruct subject|]. split; [|unfold renewed_by in Hren; cbn; lia].
    rewrite Hr. apply offered_firm; [done|by rewrite <- Hr|apply Hf].
Qed.

Lemma release_transition (releases : Subject -> Prop) subject now s s1 s2 s3 a1 a3 :
  let r := sub_Resource subject in
  releases subject -> page r s -> refreshed_set now s s1 a1 -> page r s1 ->
  release_outcome r (sub_Instance subject) now s1 s2 -> refreshed_set now s2 s3 a3 ->
  transition releases r now s s3.
Proof.
  cbn zeta. intros Hrel Hp Hrs1 Hp1 Hout Hrs3. split.
  - intros Hren. apply (refresh_renewed _ _ _ _ Hrs1) in Hren. apply (refresh_renewed _ _ _ _ Hrs3).
    destruct Hout as [[_ ->]|(x & rest & _ & Hx & [[_ ->]| [_ ->]])]; [done|..];
      rewrite Hx in Hren; apply Forall_cons in Hren as [Hx1 Hren]; [by apply Forall_cons|done].
  - intros l Hl Hf Hren Hlast. pose proof (refresh_firm _ _ _ _ _ _ Hrs1 Hl Hf Hlast) as Hl1.
    pose proof (page_resource _ _ _ Hp Hl) as Hlr.
    assert (Hkeep : l ∈ s2 -> held_since (sub_Resource subject) (ls_Instance l) (ls_Renewed l) s3).
    { intros Hin. apply held_itself; [by eapply refresh_firm|done|done|done]. }
    destruct Hout as [[_ Hs2]|(x & rest & Hid & Hx & Hs2)]; [right; apply Hkeep; by rewrite Hs2|].
    rewrite Hx in Hl1. apply elem_of_cons in Hl1 as [->|Hl1].
    + left. injection Hid as _ Hi. rewrite Hi. by destruct subject.
    + right. apply Hkeep. destruct Hs2 as [[_ ->]| [_ ->]]; [by right|done].
Qed.

Lemma timed_guarantee (releases : Subject -> Prop) :
  guarantee strat_of limit_of any True timed_policies (transition releases) releases.
Proof.
  split.
  - intros m (ps & props & [Hps _] & ->). apply Hps.
  - apply refresh_transition.
  - apply acquire_transition.
  - apply release_transition.
Qed.

(** ** What is proved of a job *)

#[local] Abbreviation wp j := (wp page timed_policies True (transition (job_releases j))).

(** A reply to an acquisition attests the last commit. *)
Definition job_post (j : Job) (V : Seen) (reply : option Reply) : Prop :=
  match j, reply with
  | JAcquire form, Some reply => reply_attested strat_of limit_of any timed_policies form reply (seen_commit V)
  | _, _ => True
  end.

Lemma job_wp j : wp j unseen (job_prog j) (job_post j).
Proof.
  pose proof (timed_guarantee (job_releases j)) as HG.
  assert (Hend : forall A (q : prog A) f Q, wp j unseen q Q -> (forall V a, Q V a -> job_post j V (f a)) ->
    wp j unseen (r ← q; Done (f r)) (job_post j)).
  { intros A q f Q Hq Hf. apply wp_bind. by eapply wp_mono; [|exact Hq]. }
  assert (Hapart : True \/ forall r s subject, page r s -> True -> unambiguous subject s) by by left.
  destruct j as [| |form|form|form| | |]; unfold job_prog.
  - by apply (Hend _ _ _ (fun _ _ => True)).
  - apply (Hend _ _ _ (fun _ _ => True)); [|done]. cbn. by intros [ps|e] _.
  - eapply Hend; [by eapply leasesHandler_wp|done].
  - eapply Hend; [eapply acquireHandler_wp; try done|done]. intros req Hreq Hsw. by exists req.
  - eapply (Hend _ _ _ (fun _ _ => True)); [eapply releaseHandler_wp; try done|done]. intros req Hreq. by exists req.
  - eapply (Hend _ _ (fun _ => None)); [by eapply stream_start_wp|done].
  - eapply (Hend _ _ (fun _ => None)); [by eapply Purge_wp|done].
  - eapply (Hend _ _ (fun _ => None)); [by eapply refreshLeases_wp|done].
Qed.

(** ** The system *)

Section System.
Context {St : Type} `{LP : LeaseProvider St, LPS : !LeaseProviderSpec St}.

(** The provider, the clock, every job there has been, with what is left of its
    program, and the number of commits. *)
Record tsys := mkTsys {
  ts_provider : St;
  ts_clock : Time;
  ts_jobs : list (Job * prog (option Reply));
  ts_commits : N;
}.

Definition tstart (T : Time) (st : St) : tsys := mkTsys st T [] 0.

Inductive tstep : tsys -> tsys -> Prop :=
| t_call i j p p' st st' n T jobs c :
    jobs !! i = Some (j, p) -> (forall k, p <> Now_ k) -> call timed_policies p st p' st' n ->
    tstep (mkTsys st T jobs c) (mkTsys st' T (<[i := (j, p')]> jobs) (c + n))
| t_now i j k st T jobs c :
    jobs !! i = Some (j, Now_ k) ->
    tstep (mkTsys st T jobs c) (mkTsys st T (<[i := (j, k T)]> jobs) c)
| t_arrive j st T jobs c : tstep (mkTsys st T jobs c) (mkTsys st T (jobs ++ [(j, job_prog j)]) c)
| t_tick T T' st jobs c : (T <= T')%Z -> tstep (mkTsys st T jobs c) (mkTsys st T' jobs c).

(** A job has been asked to release the lease of the subject. *)
Definition given_up (jobs : list (Job * prog (option Reply))) (subject : Subject) : Prop :=
  Exists (fun jp => job_releases jp.1 subject) jobs.

(** ** The invariant *)

(** What a job has viewed was renewed before it read the clock. *)
Definition seen_ok (T : Time) (V : Seen) : Prop :=
  match seen_view V with
  | None => True
  | Some (_, _, s) => exists t, (t <= T)%Z /\ Forall (renewed_by t) s
                        /\ (seen_time V = None \/ seen_time V = Some t)
  end.

(** The leases that a job has committed are held while they last. *)
Definition recorded (sys : tsys) (c : option Tx) : Prop :=
  match c with
  | None => True
  | Some tx =>
      let r := tx_resource tx in
      forall l, l ∈ tx_leases tx -> ls_Resource l = r -> firm r l -> lasts r (ts_clock sys) l ->
        ~ given_up (ts_jobs sys) (mkSubject r (ls_Instance l)) ->
        held_since r (ls_Instance l) (ls_Renewed l) (contents (ts_provider sys) r).2
  end.

Definition job_inv (base ver : string -> N) (sys : tsys) (jp : Job * prog (option Reply)) : Prop :=
  exists V, wp (jp.1) V jp.2 (job_post jp.1)
    /\ view_valid base ver (ts_provider sys) (seen_view V)
    /\ seen_ok (ts_clock sys) V /\ recorded sys (seen_commit V).

Record tinv (base : string -> N) (sys : tsys) : Prop := {
  ti_valid : provider_valid (ts_provider sys);
  ti_pages : forall r, page r (contents (ts_provider sys) r).2 /\ sorted_set (contents (ts_provider sys) r).2;
  ti_renewed : forall r, Forall (renewed_by (ts_clock sys)) (contents (ts_provider sys) r).2;
  ti_jobs : exists ver,
    (forall r, (base r <= ver r <= base r + ts_commits sys)%N
       /\ (contents (ts_provider sys) r).1 = wrapu64 (ver r))
    /\ Forall (job_inv base ver sys) (ts_jobs sys);
}.

Lemma renewed_by_mono t t' s : (t <= t')%Z -> Forall (renewed_by t) s -> Forall (renewed_by t') s.
Proof. intros Ht Hs. eapply Forall_impl; [exact Hs|]. unfold renewed_by. lia. Qed.

Lemma seen_ok_mono T T' V : (T <= T')%Z -> seen_ok T V -> seen_ok T' V.
Proof.
  intros HT. unfold seen_ok. destruct (seen_view V) as [[[r rev] s]|]; [|done].
  intros (t & Ht & H). exists t. split; [lia|done].
Qed.

Lemma seen_ok_now T V : seen_ok T V -> seen_ok T (see_time T V).
Proof.
  unfold seen_ok. cbn. destruct (seen_view V) as [[[r rev] s]|]; [|done].
  intros (t & Ht & Hs & _). exists T. split; [done|]. split; [by eapply renewed_by_mono|by right].
Qed.

(** A call leaves what is recorded of every job as it should be. *)
Lemma recorded_effect st st' T jobs jobs' c n V V' W j :
  (forall subject, given_up jobs subject -> given_up jobs' subject) -> Exists (fun jp => jp.1 = j) jobs ->
  (forall r, page r (contents st r).2) -> seen_ok T V ->
  effect (transition (job_releases j)) V V' st st' ->
  recorded (mkTsys st T jobs c) (seen_commit W) ->
  recorded (mkTsys st' T jobs' (c + n)) (seen_commit W).
Proof.
  intros Hg Hj Hp HV Heff. destruct (seen_commit W) as [tx|]; [|done]. cbn.
  intros Hrec l Hl Hlr Hf Hlast Hn'. assert (Hn : ~ given_up jobs (mkSubject (tx_resource tx) (ls_Instance l))) by auto.
  specialize (Hrec l Hl Hlr Hf Hlast Hn).
  destruct Heff as [[_ Hsame]|(tx0 & rev & t & _ & Hview & Ht & Htr & Hs' & Hother)]; [by rewrite Hsame|].
  destruct (decide (tx_resource tx = tx_resource tx0)) as [Hr|Hr]; [|by rewrite Hother].
  rewrite Hr in *. unfold held_since. setoid_rewrite Hs'.
  destruct Hrec as (l0 & Hl0 & Hid & Hf0 & Hren0).
  unfold seen_ok in HV. rewrite Hview, Ht in HV. destruct HV as (t0 & Ht0 & Hren & [|[= <-]]); [done|].
  rewrite Forall_forall in Hren.
  destruct (tr_kept _ _ _ _ _ Htr l0 Hl0 Hf0 (Hren l0 Hl0)) as [Hrel|(l1 & Hl1 & Hid1 & Hf1 & Hren1)].
  - unfold lasts in *. lia.
  - exfalso. apply Hn. injection Hid as _ Hi. rewrite Hi in Hrel. clear -Hj Hrel. unfold given_up.
    rewrite !Exists_exists in *. destruct Hj as (jp & Hin & <-). by exists jp.
  - exists l1. injection Hid as _ Hi. rewrite Hi in Hid1. split_and!; [done|done|done|lia].
Qed.

(** A job that has just committed. *)
Lemma recorded_commit st st' T jobs jobs' c n V V' j :
  (forall subject, given_up jobs subject -> given_up jobs' subject) -> Exists (fun jp => jp.1 = j) jobs ->
  (forall r, page r (contents st r).2) -> seen_ok T V ->
  effect (transition (job_releases j)) V V' st st' ->
  recorded (mkTsys st T jobs c) (seen_commit V) ->
  recorded (mkTsys st' T jobs' (c + n)) (seen_commit V').
Proof.
  intros Hg Hj Hp HV Heff Hrec.
  destruct Heff as [[He Hsame]|Hcom].
  - rewrite He. eapply (recorded_effect st st' T jobs jobs' c n V V' V j); try done. by left.
  - pose proof Hcom as (tx & rev & t & He & _ & _ & _ & Hs' & _). rewrite He. cbn.
    intros l Hl Hlr Hf _ _. apply held_itself; [by rewrite Hs'|done|done|lia].
Qed.

Lemma given_up_insert jobs i j p p' subject :
  jobs !! i = Some (j, p) -> given_up jobs subject -> given_up (<[i := (j, p')]> jobs) subject.
Proof.
  unfold given_up. rewrite !Exists_exists. intros Hi ([j0 p0] & Hin & Hrel).
  apply list_elem_of_lookup in Hin as [k Hk]. destruct (decide (k = i)) as [->|Hne].
  - rewrite Hi in Hk. injection Hk as <- <-. exists (j, p'). split; [|done].
    apply (list_elem_of_lookup_2 _ i). apply list_lookup_insert_eq. by eapply lookup_lt_Some.
  - exists (j0, p0). split; [|done]. apply (list_elem_of_lookup_2 _ k). by rewrite list_lookup_insert_ne.
Qed.

(** A call of the providers. *)
Lemma call_inv base i j p p' st st' n T jobs c :
  jobs !! i = Some (j, p) -> (forall k, p <> Now_ k) -> call timed_policies p st p' st' n -> (c + n < 2 ^ 64)%N ->
  tinv base (mkTsys st T jobs c) -> tinv base (mkTsys st' T (<[i := (j, p')]> jobs) (c + n)).
Proof.
  intros Hi Hnow Hcall Hc [Hvalid Hpages Hren (ver & Hver & Hall)]. cbn in *.
  pose proof (Forall_lookup_1 _ _ _ _ Hall Hi) as (V & Hwp & HV & Hseen & Hrec). cbn in *.
  destruct (call_wp page timed_policies True _ (page_ok_perm strat_of limit_of any)
    base ver st c p st' p' n V _ Hvalid ltac:(lia) Hver Hpages Hwp HV Hcall)
    as (ver' & V' & Hev & Hwp' & HV' & Heff & [Hsees|(k & t & -> & _)]); [|by destruct (Hnow k)].
  pose proof Hev as (Hvalid' & Hver' & Hsame & Hpages').
  assert (Hj : Exists (fun jp => jp.1 = j) jobs).
  { apply Exists_exists. exists (j, p). split; [by eapply list_elem_of_lookup_2|done]. }
  pose proof (fun subject => given_up_insert jobs i j p p' subject Hi) as Hg.
  pose proof (fun r => proj1 (Hpages r)) as Hpg.
  split; cbn; [done|done| |].
  - intros r. destruct Heff as [[_ Hs]|(tx & rev & t & _ & Hview & Ht & Htr & Hs' & Hother)]; [by rewrite Hs|].
    destruct (decide (r = tx_resource tx)) as [->|Hne]; [|by rewrite Hother].
    unfold seen_ok in Hseen. rewrite Hview, Ht in Hseen. destruct Hseen as (t0 & Ht0 & Hr0 & [|[= <-]]); [done|].
    rewrite Hs'. eapply renewed_by_mono; [exact Ht0|]. by apply (tr_renewed _ _ _ _ _ Htr).
  - exists ver'. split.
    { intros r. specialize (Hver r). specialize (Hver' r). split; [lia|tauto]. }
    apply Forall_insert.
    + eapply Forall_impl; [exact Hall|]. intros [j0 p0] (W & Hq & HW & HWs & HWr). exists W.
      split_and!; [done|by apply (evolves_views page base ver ver' st st' n)|done|].
      by apply (recorded_effect st st' T jobs _ c n V V' W j).
    + exists V'. split_and!; [done|done| |].
      * destruct Hsees as [[H1 H2]|[H1 H2]]; [by unfold seen_ok in *; rewrite H1, H2|].
         unfold seen_ok. destruct (seen_view V') as [[[r rev] s]|]; [|done].
         exists T. split; [done|]. split; [|by left]. rewrite (H2 r rev s eq_refl). apply Hren.
      * by apply (recorded_commit st st' T jobs _ c n V V' j).
Qed.

(** What is recorded outlasts changes of the jobs in which nobody takes back
    that a lease was given up. *)
Lemma recorded_jobs st T jobs jobs' c tx :
  (forall subject, given_up jobs subject -> given_up jobs' subject) ->
  recorded (mkTsys st T jobs c) tx -> recorded (mkTsys st T jobs' c) tx.
Proof. destruct tx as [tx|]; [|done]. cbn. intros Hg H l Hl Hlr Hf Hlast Hn. apply H; auto. Qed.

Lemma tstep_inv base sys sys' :
  tstep sys sys' -> (ts_commits sys' < 2 ^ 64)%N -> tinv base sys -> tinv base sys'.
Proof.
  intros Hstep Hc Hinv. pose proof Hinv as [Hvalid Hpages Hren (ver & Hver & Hall)].
  destruct Hstep as [i j p p' st st' n T jobs c Hi Hnow Hcall|i j k st T jobs c Hi|j st T jobs c|T T' st jobs c HT];
    cbn in *; [by eapply call_inv|..].
  - pose proof (Forall_lookup_1 _ _ _ _ Hall Hi) as (V & Hwp & HV & Hseen & Hrec). cbn in *.
    pose proof (fun c0 => recorded_jobs st T jobs _ c c0
      (fun subject => given_up_insert jobs i j _ (k T) subject Hi)) as Hrecs.
    split; cbn; [done|done|done|]. exists ver. split; [done|]. apply Forall_insert.
    + eapply Forall_impl; [exact Hall|]. intros [j0 p0] (W & Hq & HW & HWs & HWr). exists W. by split_and!; auto.
    + exists (see_time T V). split_and!; [apply Hwp|done|by apply seen_ok_now|by apply Hrecs].
  - assert (Hrecs : forall c0, recorded (mkTsys st T jobs c) c0 ->
      recorded (mkTsys st T (jobs ++ [(j, job_prog j)]) c) c0).
    { intros c0. apply recorded_jobs. intros subject. unfold given_up. rewrite Exists_app. by left. }
    split; cbn; [done|done|done|]. exists ver. split; [done|]. apply Forall_app. split.
    + eapply Forall_impl; [exact Hall|]. intros [j0 p0] (W & Hq & HW & HWs & HWr). exists W. by split_and!; auto.
    + apply Forall_singleton. exists unseen. split_and!; [apply job_wp|done..].
  - split; cbn; [done|done|intros r; by eapply renewed_by_mono|]. exists ver. split; [done|].
    eapply Forall_impl; [exact Hall|]. intros [j0 p0] (W & Hq & HW & HWs & HWr). exists W.
    split_and!; [done|done|by eapply seen_ok_mono|]. destruct (seen_commit W) as [tx|]; [|done]. cbn in *.
    intros l Hl Hlr Hf Hlast Hn. apply HWr; try done. unfold lasts in *. lia.
Qed.

Lemma tsteps_inv base sys sys' :
  rtc tstep sys sys' -> (ts_commits sys' < 2 ^ 64)%N -> tinv base sys -> tinv base sys'.
Proof.
  induction 1 as [|s1 s2 s3 H12 H23 IH]; [done|]. intros Hc Hinv. apply IH; [done|].
  eapply tstep_inv; [done| |done].
  assert (ts_commits s2 <= ts_commits s3)%N; [|lia].
  clear -H23. induction H23 as [|a b d Hab _ IH]; [done|].
  assert (ts_commits a <= ts_commits b)%N by (destruct Hab; cbn; lia). lia.
Qed.

Lemma tstart_inv T st :
  good_start page st -> (forall r, Forall (renewed_by T) (contents st r).2) ->
  tinv (fun r => (contents st r).1) (tstart T st).
Proof.
  intros (Hv & Hp & Hr) Hren. split; [done|done|done|]. exists (fun r => (contents st r).1).
  split; [|constructor]. intros r. cbn. split; [lia|]. by rewrite wrapu64_id.
Qed.

(** ** Leases in use *)

(** A lease that a client has been told is active, that still lasts, and that
    it has not asked to release. *)
Definition in_use (sys : tsys) (r : string) (l : Lease) : Prop :=
  exists form a, (JAcquire form, Done (Some (AcquireReply a))) ∈ ts_jobs sys
    /\ ar_Lease a = l /\ ls_Resource l = r /\ ls_Status l = Active
    /\ lasts r (ts_clock sys) l /\ ~ given_up (ts_jobs sys) (ls_Subject l).

Lemma in_use_held base sys r l :
  tinv base sys -> in_use sys r l ->
  held_since r (ls_Instance l) (ls_Renewed l) (contents (ts_provider sys) r).2.
Proof.
  intros [_ _ _ (ver & _ & Hall)] (form & a & Hin & <- & Hr & Hact & Hlast & Hn).
  rewrite Forall_forall in Hall. destruct (Hall _ Hin) as (V & Hwp & _ & _ & Hrec).
  destruct Hwp as (req & m & _ & Happ & Hne & Hreq & tx & props & now & st & started & Hc & Htx & Hl & _ & Hla & Hls).
  rewrite Hc in Hrec. cbn in Hrec. rewrite Hl in Hrec.
  assert (Hm : PolicySet_Resource m = r) by (by rewrite <- Hr, Hls, Hreq).
  assert (Htr : tx_resource tx = r) by (by rewrite Htx, Hreq).
  rewrite Htr in Hrec. apply Hrec; try done.
  - rewrite <- Hm, Hls. apply offered_firm; [done|done|]. by rewrite Hls in Hact.
  - rewrite <- Hr. by destruct (ls_Subject (ar_Lease a)) eqn:He; unfold ls_Resource, ls_Instance; rewrite He in *.
Qed.

Lemma consumption_embed strat r (held s : LeaseSet) :
  NoDup (ls_Instance <$> held) ->
  (forall l, l ∈ held -> exists l', l' ∈ s /\ lease_id l' = (r, ls_Instance l) /\ ls_Resource l = r /\ ls_Status l' = Active) ->
  (consumption strat held <= consumption strat s)%N.
Proof.
  intros Hnd Hemb. unfold consumption. case_decide.
  - assert (Hsub : holders (status_upto 1) held ⊆ holders (status_upto 1) s); [|by apply subseteq_size in Hsub; lia].
    intros c (l & Hl & _ & <-)%elem_of_holders. destruct (Hemb l Hl) as (l' & Hl' & [= Hr Hi] & Hlr & Ha).
    apply elem_of_holders. exists l'. split; [done|]. split; [apply status_upto_1; by left|].
    unfold ls_HostUser, Subject_HostUser. unfold ls_Instance in Hi. by rewrite Hi.
  - unfold count. assert (Hle : length held <= length (filter (status_upto 1) s)).
    { rewrite <- (length_fmap ls_Instance held), <- (length_fmap ls_Instance (filter _ s)).
      apply submseteq_length, NoDup_submseteq; [done|].
      intros i (l & -> & Hl)%list_elem_of_fmap. destruct (Hemb l Hl) as (l' & Hl' & [= _ Hi] & _ & Ha).
      rewrite <- Hi. apply list_elem_of_fmap_2, list_elem_of_filter. split; [|done]. apply status_upto_1. by left. }
    pose proof (length_filter (status_upto 1) held). lia.
Qed.

(** C2. Leases are exclusive.  Let the policies give each resource one
    strategy, limits of at most [limit_of] and durations of at least [dur_of];
    requests, purges and refreshes interleave call by call over any provider
    that keeps its contract, while the clock advances.  Then, at any time, the
    leases that clients have been told are active, that still last and that no
    client has asked to release consume at most the limit of their resource:
    no more clients use it than are allowed to. *)
Theorem exclusive_use st T sys r held :
  good_start page st -> (forall r, Forall (renewed_by T) (contents st r).2) ->
  rtc tstep (tstart T st) sys -> (ts_commits sys < 2 ^ 64)%N ->
  NoDup (ls_Instance <$> held) -> Forall (in_use sys r) held ->
  (consumption (strat_of r) held <= limit_of r)%N.
Proof.
  intros Hst Hren Hsteps Hc Hnd Hheld.
  pose proof (tsteps_inv _ _ _ Hsteps Hc (tstart_inv T st Hst Hren)) as Hinv.
  pose proof (ti_pages _ _ Hinv r) as [[_ _ Hlim] _]. etrans; [|exact Hlim].
  apply (consumption_embed _ r); [done|]. intros l Hl. rewrite Forall_forall in Hheld.
  destruct (in_use_held _ _ _ _ Hinv (Hheld l Hl)) as (l' & Hl' & Hid & Hf & _).
  destruct (Hheld l Hl) as (_ & _ & _ & _ & Hr & _). exists l'. split_and!; try done. apply Hf.
Qed.

(** A job that runs alone while the clock stands still. *)
Lemma tstep_then i j p p' st st' n T jobs c sys :
  jobs !! i = Some (j, p) -> (forall k, p <> Now_ k) -> call timed_policies p st p' st' n ->
  rtc tstep (mkTsys st' T (<[i := (j, p')]> jobs) (c + n)) sys -> rtc tstep (mkTsys st T jobs c) sys.
Proof. intros Hi Hn Hc Hr. eapply rtc_l; [|exact Hr]. by econstructor. Qed.

Lemma run_tsteps i j p (w : World St) T jobs c :
  jobs !! i = Some (j, p) -> timed_policies (w_policies w) -> (forall n, w_clock w n = T) ->
  rtc tstep (mkTsys (w_provider w) T jobs c)
    (mkTsys (w_provider (run p w).2) T (<[i := (j, ended (run p w).1)]> jobs) (c + run_commits p w)).
Proof.
  revert w jobs c. induction p as [a|msg|k IH|k IH|r k IH|tx k IH|k IH|s k IH]; intros w jobs c Hi Hps HT;
    cbn [run run_commits].
  1,2: rewrite list_insert_id by done; rewrite N.add_0_r; apply rtc_refl.
  all: assert (Hlen : i < length jobs) by (by eapply lookup_lt_Some).
  all: assert (Hlk : forall q : prog (option Reply), <[i := (j, q)]> jobs !! i = Some (j, q))
         by (intros; by apply list_lookup_insert_eq).
  5: { eapply rtc_l; [by apply t_now|]. rewrite HT.
       pose proof (IH T (tick w) _ c (Hlk _) Hps HT) as H. by rewrite list_insert_insert_eq in H. }
  4: { destruct (LeaseCommit tx (w_provider w)) as [e st'] eqn:He.
       eapply tstep_then; [done|done|by constructor|]. rewrite N.add_assoc.
       pose proof (IH e (set_provider st' w) _ (c + 1)%N (Hlk _) Hps HT) as H.
       by rewrite list_insert_insert_eq in H. }
  3: destruct (LeaseView r (w_provider w)) as [v st'] eqn:Hv.
  all: eapply tstep_then; [done|done|by constructor|]; rewrite N.add_0_r.
  - pose proof (IH (w_policies w) w _ c (Hlk _) Hps HT) as H. by rewrite list_insert_insert_eq in H.
  - pose proof (IH (LeaseResources (w_provider w)) w _ c (Hlk _) Hps HT) as H. by rewrite list_insert_insert_eq in H.
  - pose proof (IH v (set_provider st' w) _ c (Hlk _) Hps HT) as H. by rewrite list_insert_insert_eq in H.
  - pose proof (IH (publish s w) _ c (Hlk _) Hps HT) as H. by rewrite list_insert_insert_eq in H.
Qed.
End System.
End Timed.

(** ** Witness *)

#[local] Existing Instance ascii_text.

Definition app_dur (r : string) : Duration := (10 * Minute)%Z.

Lemma app_timed : timed_policies app_strategy app_limit app_dur (Ok app_policies).
Proof.
  split; [exact (app_matches True)|]. intros props. unfold PolicySet_Match, app_policies.
  rewrite filter_cons. case_decide; rewrite filter_nil; cbn zeta; intros Hne; [|done]. by split.
Qed.

Definition app_then (s : World MemProvider) (j : Job) : World MemProvider := (run (job_prog j) s).2.

Definition app_sys : tsys (St := MemProvider) :=
  let w1 := app_then app_world (JAcquire (app_form "h1" "1")) in
  let w2 := app_then w1 (JAcquire (app_form "h2" "2")) in
  mkTsys (w_provider w2) (1000 * Second)%Z
    [(JAcquire (app_form "h1" "1"), ended (run (job_prog (JAcquire (app_form "h1" "1"))) app_world).1);
     (JAcquire (app_form "h2" "2"), ended (run (job_prog (JAcquire (app_form "h2" "2"))) w1).1)] 2.

Definition told (jp : Job * prog (option Reply)) : option Lease :=
  match jp with
  | (JAcquire _, Done (Some (AcquireReply a))) => Some (ar_Lease a)
  | _ => None
  end.

Lemma app_sys_reached :
  rtc (tstep app_strategy app_limit app_dur) (tstart (1000 * Second)%Z MemProv_New) app_sys.
Proof.
  assert (Harrive : forall j (w : World MemProvider) jobs c sys,
    w_policies w = Ok app_policies -> (forall n, w_clock w n = (1000 * Second)%Z) ->
    rtc (tstep app_strategy app_limit app_dur)
      (mkTsys (w_provider (run (job_prog j) w).2) (1000 * Second)%Z
        (<[length jobs := (j, ended (run (job_prog j) w).1)]> (jobs ++ [(j, job_prog j)]))
        (c + run_commits (job_prog j) w)) sys ->
    rtc (tstep app_strategy app_limit app_dur) (mkTsys (w_provider w) (1000 * Second)%Z jobs c) sys).
  { intros j w jobs c sys Hps HT Hr. eapply rtc_l; [apply t_arrive|].
    etrans; [|exact Hr]. apply run_tsteps; [|rewrite Hps; exact app_timed|done].
    by rewrite lookup_app_r, Nat.sub_diag by done. }
  apply (Harrive (JAcquire (app_form "h1" "1")) app_world); [done|done|].
  apply (Harrive (JAcquire (app_form "h2" "2")) (app_then app_world (JAcquire (app_form "h1" "1"))));
    [vm_compute; reflexivity|intros n; vm_compute; reflexivity|].
  match goal with |- rtc _ ?a app_sys => assert (a = app_sys) as ->; [vm_compute; reflexivity|] end.
  apply rtc_refl.
Qed.

Lemma app_keeps subject : ~ given_up app_strategy app_limit app_dur (ts_jobs app_sys) subject.
Proof.
  unfold given_up. cbn [ts_jobs app_sys]. rewrite !Exists_cons, Exists_nil.
  intros [(req & [= <-] & _ & [Hne _])|[(req & [= <-] & _ & [Hne _])|[]]]; by apply Hne.
Qed.

Lemma exclusive_use_witness :
  let held := omap told (ts_jobs app_sys) in
  length held = 2 /\ (consumption Strategy_Instance held <= 3)%N.
Proof.
  split; [vm_compute; reflexivity|].
  apply (exclusive_use app_strategy app_limit app_dur MemProv_New (1000 * Second)%Z app_sys "res").
  - apply mem_good_start.
  - intros r. constructor.
  - exact app_sys_reached.
  - vm_compute. reflexivity.
  - apply (bool_decide_unpack _). vm_compute. exact I.
  - apply Forall_forall. intros l Hl. assert (Hall : Forall (fun l => ls_Resource l = "res"
      /\ ls_Status l = Active /\ (ts_clock app_sys <= ls_Renewed l + app_dur "res")%Z)
      (omap told (ts_jobs app_sys))) by (apply (bool_decide_unpack _); vm_compute; exact I).
    rewrite Forall_forall in Hall. destruct (Hall l Hl) as (Hr & Ha & Hlast).
    apply list_elem_of_omap in Hl as ([j p] & Hjp & Ht).
    destruct j as [| | |form| | | |], p as [[[| | | | |a|]|]| | | | | | |]; try discriminate Ht.
    injection Ht as <-. exists form, a. by split_and!; [..|apply app_keeps].
Defined.
