(* ===== verification/ServerRunProps.v ===== *)
(** * What holds throughout the life of a server

    The goroutines of [Server.Run] are handlers of the system of
    [Concurrency.v], so that its guarantees extend to the whole life of a
    server; and once [Run] has a reason to end it can return, whatever the
    environment does not do. *)

From S2P Require Import Prelude GoStrings GoTime Lease LeaseSet Tx Refresh Policy Provider MemProv Program Server Concurrency ServerRun ServerSafe ServerProps PolicyProps.

Section Life.
Context `{SO : Sorter, GT : GoText}.
Context {St : Type} `{LP : LeaseProvider St, LPS : !LeaseProviderSpec St}.
Context (pols : result PolicySet -> Prop) (request : prog () -> Prop).
Context (refreshes has_logger : bool) (listen_err : option error).

#[local] Abbreviation life_step := (life_step pols request refreshes has_logger listen_err).
#[local] Abbreviation own_step := (own_step pols refreshes has_logger listen_err).
#[local] Abbreviation own_move := (own_move pols refreshes has_logger listen_err).
#[local] Abbreviation listen := (listen refreshes has_logger listen_err).

(** ** The system of handlers *)

Inductive life_handler : prog () -> Prop :=
| lh_request p : request p -> life_handler p
| lh_purge : life_handler purge
| lh_refresh : life_handler refreshLeases.

Lemma spawn_step p l : life_handler p -> step pols life_handler (lf_sys l) (lf_sys (spawn p l).2).
Proof. intros Hp. cbn. destruct (lf_sys l) as [st hs c]. by constructor. Qed.

Lemma deferred_step exit l : step pols life_handler (lf_sys l) (lf_sys (deferred exit l)).
Proof. apply (spawn_step purge (set_done l)), lh_purge. Qed.

Lemma own_move_refines l l' :
  own_move l l' -> rtc (step pols life_handler) (lf_sys l) (lf_sys l').
Proof.
  destruct 1 as [l i p p' st' n Hi Hcall|l i a _ _|l _|l _|l i a _ _|l _ _|l e _ _|l _ _
    |l e _ _|l _ _|l _|l _ _|l _|l e _ _|l i exit a _ _|l i msg _ _]; try done.
  - apply rtc_once. unfold handler in Hi. cbn. destruct (lf_sys l) as [st hs c]. by econstructor.
  - unfold ServerRun.listen. destruct listen_err as [e|].
    + destruct has_logger; apply rtc_once, deferred_step.
    + by destruct refreshes.
  - apply rtc_once, (spawn_step refreshLeases), lh_refresh.
  - apply rtc_once, deferred_step.
  - unfold server_shutdown. by destruct (lf_serving l).
  - apply rtc_once, (deferred_step (ExitError e) (set_serving ResultReceived l)).
Qed.

Lemma life_step_refines l l' :
  life_step l l' -> rtc (step pols life_handler) (lf_sys l) (lf_sys l').
Proof.
  intros [_ [He|Ho]]; [|by apply own_move_refines]. destruct He as [l p _ Hp|l|l e _]; try done.
  apply rtc_once, spawn_step. by apply lh_request.
Qed.

Lemma life_refines st l :
  rtc life_step (run_start st) l -> rtc (step pols life_handler) (initial st) (lf_sys l).
Proof.
  intros Hl. eapply rtc_l; [apply (step_arrive _ _ purge), lh_purge|].
  change (mkSystem st ([] ++ [purge]) 0) with (lf_sys (run_start st)).
  induction Hl as [l|l l1 l2 Hs _ IH]; [done|]. etrans; [by apply life_step_refines|done].
Qed.

(** ** The invariant *)

Definition serving_or_served (l : Life St) : Prop := lf_serving l = Serves \/ exists e, lf_serving l = Served e.
Definition not_serving (l : Life St) : Prop := lf_serving l = NotServing \/ lf_serving l = ResultReceived.

(** All handlers have finished, but for one perhaps. *)
Definition all_finished (but : option nat) (l : Life St) : Prop :=
  forall j p, handler l j = Some p -> but <> Some j -> finished p = true.

(** The panic of a missing logger. *)
Definition logger_panic (msg : string) : Prop :=
  has_logger = false /\ listen_err <> None /\ msg = nil_logger.

Definition phase_inv (l : Life St) : Prop :=
  match lf_phase l with
  | FirstPurge i =>
      is_Some (handler l i) /\ lf_serving l = NotServing /\ lf_refresher l = NoRefresher
      /\ lf_open l = false /\ all_finished (Some i) l
  | Listen => lf_serving l = NotServing /\ lf_refresher l = NoRefresher /\ lf_open l = false /\ all_finished None l
  | Selecting => serving_or_served l /\ lf_open l = true /\ listen_err = None
  | ServeFailed _ => lf_done l = true /\ lf_serving l = ResultReceived /\ lf_open l = true
  | ContextDone => lf_done l = true /\ serving_or_served l /\ lf_open l = true
  | ShuttingDown => lf_done l = true /\ refresher_ended l = true /\ serving_or_served l /\ lf_open l = true
  | Draining =>
      lf_done l = true /\ refresher_ended l = true /\ (exists e, lf_serving l = Served e) /\ lf_open l = true
  | AwaitingResult =>
      lf_done l = true /\ refresher_ended l = true /\ (exists e, lf_serving l = Served e)
      /\ (lf_open l = false -> all_finished None l)
  | LastPurge i exit =>
      is_Some (handler l i) /\ lf_done l = true /\ refresher_ended l = true /\ not_serving l
      /\ (lf_open l = false -> all_finished (Some i) l)
      /\ (forall msg, exit = ExitPanic msg -> logger_panic msg)
  | Returned _ =>
      lf_done l = true /\ refresher_ended l = true /\ not_serving l /\ (lf_open l = false -> all_finished None l)
  | Died msg => logger_panic msg \/ exists i, handler l i = Some (Crash msg)
  end.

Record life_inv (l : Life St) : Prop := {
  li_phase : phase_inv l;
  li_refreshing : forall i, lf_refresher l = Refreshing i -> is_Some (handler l i);
}.

Lemma start_inv st : life_inv (run_start st).
Proof.
  split; [|done]. cbn. split_and!; [by eexists|done..|]. intros [|j] p Hj Hne; [by destruct Hne|done].
Qed.

(** Handlers stay where they are; those that panicked stay so, and unless
    requests may arrive those that have finished stay the only ones. *)
Record handlers_kept (l l' : Life St) : Prop := {
  hk_some : forall i, is_Some (handler l i) -> is_Some (handler l' i);
  hk_crash : forall i msg, handler l i = Some (Crash msg) -> handler l' i = Some (Crash msg);
  hk_quiet : lf_open l = false -> forall but, all_finished but l -> all_finished but l';
}.

Lemma phase_inv_kept l l' :
  lf_phase l' = lf_phase l -> lf_done l' = lf_done l -> lf_serving l' = lf_serving l ->
  lf_open l' = lf_open l -> lf_refresher l' = lf_refresher l -> handlers_kept l l' -> life_inv l -> life_inv l'.
Proof.
  intros Hp Hd Hs Ho Hr [K1 K2 K3] [Hi Href]. split.
  - unfold phase_inv, serving_or_served, not_serving, refresher_ended in *. rewrite Hp, Hd, Hs, Ho, Hr.
    destruct (lf_phase l) as [i| | | | | | | |i ex|err|msg]; try done; naive_solver.
  - rewrite Hr. intros i Hri. auto.
Qed.

Lemma spawn_kept p (l : Life St) : lf_open l = true -> handlers_kept l (spawn p l).2.
Proof.
  intros Ho. split; [| |congruence]; unfold handler; cbn.
  - intros i Hi. apply lookup_lt_is_Some in Hi. apply lookup_lt_is_Some. rewrite length_app. lia.
  - intros i msg Hi. by apply lookup_app_l_Some.
Qed.

Lemma call_kept l i p p' st' n :
  handler l i = Some p -> call pols p (sys_provider (lf_sys l)) p' st' n ->
  handlers_kept l (set_sys (mkSystem st' (<[i := p']> (sys_handlers (lf_sys l))) (sys_commits (lf_sys l) + n)) l).
Proof.
  unfold handler. intros Hi Hcall. assert (Hlt : i < length (sys_handlers (lf_sys l))) by (by eapply lookup_lt_Some).
  assert (Hfin : finished p = false) by (by destruct Hcall).
  split; unfold all_finished, handler; cbn.
  - intros j Hj. apply lookup_lt_is_Some in Hj. apply lookup_lt_is_Some. by rewrite length_insert.
  - intros j msg Hj. destruct (decide (i = j)) as [->|Hne]; [|by rewrite list_lookup_insert_ne].
    assert (p = Crash msg) as -> by congruence. discriminate Hfin.
  - intros _ but Hall j q Hj Hne. destruct (decide (i = j)) as [->|Hij].
    + specialize (Hall j p Hi Hne). congruence.
    + rewrite list_lookup_insert_ne in Hj by done. by apply (Hall j).
Qed.

Lemma spawned p (l : Life St) : handler (spawn p l).2 (length (sys_handlers (lf_sys l))) = Some p.
Proof. unfold handler. cbn. by rewrite lookup_app_r, Nat.sub_diag by lia. Qed.

(** The deferred calls, once the refresher and the listener are gone. *)
Lemma deferred_inv exit (l : Life St) :
  refresher_ended l = true -> not_serving l -> (lf_open l = false -> all_finished None l) ->
  (forall msg, exit = ExitPanic msg -> logger_panic msg) -> life_inv (deferred exit l).
Proof.
  intros Hr Hs Hf Hex. split.
  - cbn. split_and!; [exists purge; apply (spawned purge (set_done l))|done..| |done].
    intros Ho j p Hj Hne. unfold handler in Hj. cbn in Hj.
    apply lookup_app_Some in Hj as [Hj|[Hj Hp]]; [by apply (Hf Ho j)|].
    apply list_lookup_singleton_Some in Hp as [Hp _]. destruct Hne. f_equal. lia.
  - cbn. intros i Hi. unfold refresher_ended in Hr. by rewrite Hi in Hr.
Qed.

Lemma env_move_inv l l' : env_move request l l' -> life_inv l -> life_inv l'.
Proof.
  intros He Hinv. destruct He as [l p Ho Hp|l|l e Hs].
  - apply (phase_inv_kept l); try done. by apply spawn_kept.
  - destruct Hinv as [H Hr]. split; [|done]. revert H. unfold phase_inv. cbn. by destruct (lf_phase l); naive_solver.
  - destruct Hinv as [H Hr]. split; [|done]. revert H.
    unfold phase_inv, serving_or_served, not_serving, refresher_ended. cbn.
    rewrite Hs. destruct (lf_phase l); naive_solver.
Qed.

Lemma listen_inv l : lf_phase l = Listen -> life_inv l -> life_inv (listen l).
Proof.
  intros Hph [H Hr]. unfold phase_inv in H. rewrite Hph in H. destruct H as (Hs & Hrf & Ho & Hf).
  unfold ServerRun.listen. destruct listen_err as [e|] eqn:Hl.
  - assert (Hre : refresher_ended l = true) by (unfold refresher_ended; by rewrite Hrf).
    destruct has_logger eqn:Hlog; apply deferred_inv; try done; try (by left).
    intros msg [= <-]. unfold logger_panic. by rewrite Hl, Hlog.
  - split; [|by destruct refreshes]. unfold phase_inv, serving_or_served. destruct refreshes; cbn; eauto.
Qed.

Lemma tick_inv l :
  lf_refresher l = AwaitsTick -> life_inv l ->
  life_inv (let '(i, l) := spawn refreshLeases l in set_refresher (Refreshing i) l).
Proof.
  intros Hr Hinv. pose proof (li_phase _ Hinv) as H.
  assert (Hph : match lf_phase l with
                | Selecting | ServeFailed _ | ContextDone | Died _ => True | _ => False end).
  { unfold phase_inv, refresher_ended in H. rewrite Hr in H. destruct (lf_phase l); naive_solver. }
  split; [|cbn; intros i [= <-]; exists refreshLeases; apply spawned].
  revert H Hph. unfold phase_inv. cbn. destruct (lf_phase l) as [| | | | | | | | | |msg]; try done.
  intros [?|[i Hi]] _; [by left|right]. exists i. unfold handler in *. cbn. by apply lookup_app_l_Some.
Qed.

Lemma refresher_inv r l :
  (lf_refresher l = AwaitsTick \/ exists i, lf_refresher l = Refreshing i) ->
  (r = RefresherEnded \/ r = AwaitsTick) -> life_inv l -> life_inv (set_refresher r l).
Proof.
  intros Hr Hr' [H _]. split; [|by destruct Hr' as [-> | ->]].
  revert H. unfold phase_inv, refresher_ended. cbn.
  destruct Hr as [Hr|[i Hr]]; rewrite Hr; destruct (lf_phase l); naive_solver.
Qed.

Lemma shutdown_inv l : lf_phase l = ShuttingDown -> life_inv l -> life_inv (server_shutdown l).
Proof.
  intros Hph [H Hr]. unfold phase_inv in H. rewrite Hph in H. destruct H as (Hd & He & Hs & Ho).
  unfold server_shutdown. split; [|by destruct (lf_serving l)].
  destruct Hs as [Hs|[e Hs]]; rewrite Hs; cbn; (split; [done|]); (split; [done|]); eauto.
Qed.

Lemma own_move_inv l l' : own_move l l' -> life_inv l -> life_inv l'.
Proof.
  destruct 1 as [l i p p' st' n Hi Hcall|l i a Hph Hi|l Hph|l Hr|l i a Hr Hi|l Hr Hd
    |l e Hph Hs|l Hph Hd|l e Hph He|l Hph He|l Hph|l Hph Hall|l Hph|l e Hph Hs|l i exit a Hph Hi|l i msg Hown Hi];
    intros Hinv; try (pose proof Hinv as [H Hr']; unfold phase_inv in H; rewrite Hph in H).
  - apply (phase_inv_kept l); try done. by apply (call_kept l i p).
  - split; [|done]. cbn. destruct H as (_ & Hs & Hr & Ho & Hf). split_and!; try done.
    intros j p Hj _. destruct (decide (i = j)) as [->|Hne]; [|apply (Hf j p Hj); congruence].
    change (handler l j = Some p) in Hj. rewrite Hi in Hj. by injection Hj as <-.
  - by apply listen_inv.
  - by apply tick_inv.
  - apply refresher_inv; eauto.
  - apply refresher_inv; eauto.
  - split; [|done]. cbn. naive_solver.
  - split; [|done]. cbn. naive_solver.
  - destruct H as (Hd & Hs & Ho). apply deferred_inv; [done|by right|congruence|done].
  - split; [|done]. cbn. naive_solver.
  - by apply shutdown_inv.
  - split; [|done]. cbn. destruct H as (Hd & He & Hs & Ho). split_and!; try done.
    intros _ j p Hj _. rewrite Forall_forall in Hall. apply Hall. by eapply list_elem_of_lookup_2.
  - split; [|done]. cbn. naive_solver congruence.
  - destruct H as (Hd & He & _ & Hf). apply deferred_inv; [done|by right|done|done].
  - split; [|by destruct exit]. destruct H as (_ & Hd & He & Hs & Hf & Hex). destruct exit as [err|msg]; cbn.
    + split_and!; try done. intros Ho j p Hj _. destruct (decide (i = j)) as [->|Hne]; [|apply (Hf Ho j p Hj); congruence].
      change (handler l j = Some p) in Hj. rewrite Hi in Hj. by injection Hj as <-.
    + left. by apply Hex.
  - destruct Hinv as [_ Hr]. split; [|done]. right. by exists i.
Qed.

Lemma life_step_inv l l' : life_step l l' -> life_inv l -> life_inv l'.
Proof. intros [_ [He|Ho]]; [by apply env_move_inv|by apply own_move_inv]. Qed.

Lemma life_reachable_inv st l : rtc life_step (run_start st) l -> life_inv l.
Proof.
  intros Hl. assert (Hi : life_inv (run_start st)) by apply start_inv.
  induction Hl as [l|l l1 l2 Hs _ IH]; [done|]. apply IH. by apply (life_step_inv l).
Qed.

(** ** The way to the end *)

Section Ends.
Context (page : string -> LeaseSet -> Prop) (page_perm : forall r, Proper ((≡ₚ) ==> iff) (page r)).
Context (pols_err : forall e, pols (Err e)).
Context (handlers_wp : forall p, life_handler p -> wp page pols False no_guarantee unseen p (fun _ _ => True)).

(** The world in which a handler runs on alone. *)
Definition world_of (l : Life St) : World St :=
  mkWorld (sys_provider (lf_sys l)) (Err "none") (fun _ => 0%Z) 0 [].

Definition handler_ready (l : Life St) (i : nat) : Prop :=
  exists p V, handler l i = Some p /\ wp page pols False no_guarantee V p (fun _ _ => True)
    /\ view_held V (world_of l).

#[local] Abbreviation safe l := (world_safe page pols (world_of l)).

Definition can_return (l : Life St) : Prop := exists l' err, rtc own_step l l' /\ lf_phase l' = Returned err.

Lemma can_return_step l l' : alive l -> own_move l l' -> can_return l' -> can_return l.
Proof. intros Ha Hs (l2 & err & Hl & H). exists l2, err. split; [by eapply rtc_l|done]. Qed.

Lemma can_return_path l l' : rtc own_step l l' -> can_return l' -> can_return l.
Proof. intros Hs (l2 & err & Hl & H). exists l2, err. split; [by etrans|done]. Qed.

Lemma sys_path sys sys' (l : Life St) :
  alive l -> rtc (step pols (fun _ => False)) sys sys' -> rtc own_step (set_sys sys l) (set_sys sys' l).
Proof.
  intros Ha. induction 1 as [sys|s1 s2 s3 Hs _ IH]; [done|]. eapply rtc_l; [|exact IH]. split; [done|].
  destruct Hs as [i p p' st st' hs n c Hi Hcall|p st hs c []].
  by apply (ls_call pols refreshes has_logger listen_err (set_sys (mkSystem st hs c) l) i p p' st' n).
Qed.

Lemma set_sys_id (l : Life St) :
  set_sys (mkSystem (sys_provider (lf_sys l)) (sys_handlers (lf_sys l)) (sys_commits (lf_sys l))) l = l.
Proof. by destruct l as [? ? ? ? ? []]. Qed.

(** A handler of the server can go on to its end, without a panic. *)
Lemma finish l i :
  alive l -> safe l -> handler_ready l i ->
  exists sys', rtc own_step l (set_sys sys' l) /\ handler (set_sys sys' l) i = Some (Done tt)
    /\ safe (set_sys sys' l).
Proof.
  intros Ha Hsafe (p & V & Hi & Hwp & HV).
  pose proof (run_steps pols (fun _ => False) p (world_of l) (sys_handlers (lf_sys l)) i
    (sys_commits (lf_sys l)) Hi (pols_err "none")) as Hr.
  pose proof (run_wp page pols False no_guarantee page_perm V p _ (world_of l) Hwp Hsafe HV) as Hrun.
  destruct (run p (world_of l)) as [a w']. destruct Hrun as (Hw & _ & Hans). cbn [fst snd] in Hr.
  destruct a as [[]|msg]; [|done]. eexists. split; [|split].
  - apply (sys_path _ _ l Ha) in Hr. cbn [world_of w_provider] in Hr. by rewrite set_sys_id in Hr.
  - unfold handler. cbn. by rewrite list_lookup_insert_eq by (by eapply lookup_lt_Some).
  - destruct Hw as [H1 H2 _]. split; [done|done|apply pols_err].
Qed.

Lemma last_purge_returns l i err :
  lf_phase l = LastPurge i (ExitError err) -> safe l -> handler_ready l i -> can_return l.
Proof.
  intros Hph Hsafe Hi. assert (Ha : alive l) by (unfold alive; by rewrite Hph).
  destruct (finish l i Ha Hsafe Hi) as (sys' & Hp & Hd & _). eapply can_return_path; [exact Hp|].
  eapply can_return_step; [exact Ha|by eapply ls_last_purged|]. by eexists _, err.
Qed.

Lemma deferred_returns err l : safe l -> can_return (deferred (ExitError err) l).
Proof.
  intros [H1 H2 H3]. apply (last_purge_returns _ (length (sys_handlers (lf_sys l))) err); [done|by split|].
  exists purge, unseen. split; [apply (spawned purge (set_done l))|]. split; [apply handlers_wp, lh_purge|done].
Qed.

(** Once the context is done, the refresher ends. *)
Lemma refresher_stops l :
  alive l -> safe l -> lf_done l = true -> (forall i, lf_refresher l = Refreshing i -> handler_ready l i) ->
  exists l', rtc own_step l l' /\ refresher_ended l' = true /\ lf_phase l' = lf_phase l
    /\ lf_serving l' = lf_serving l /\ safe l'.
Proof.
  intros Ha Hsafe Hd Href. destruct (lf_refresher l) as [| |i|] eqn:Hr.
  - exists l. unfold refresher_ended. by rewrite Hr.
  - exists (set_refresher RefresherEnded l). split; [|done]. apply rtc_once. split; [done|]. by apply ls_refresher_done.
  - destruct (finish l i Ha Hsafe (Href i eq_refl)) as (sys' & Hp & Hdone & Hsafe').
    exists (set_refresher RefresherEnded (set_refresher AwaitsTick (set_sys sys' l))). split; [|done].
    etrans; [exact Hp|]. eapply rtc_l; [split; [exact Ha|by eapply ls_refreshed]|].
    apply rtc_once. split; [exact Ha|]. by apply ls_refresher_done.
  - exists l. unfold refresher_ended. by rewrite Hr.
Qed.

Lemma awaiting_returns l :
  lf_phase l = AwaitingResult -> (exists e, lf_serving l = Served e) -> safe l -> can_return l.
Proof.
  intros Hph [e Hs] Hsafe. eapply can_return_step; [unfold alive; by rewrite Hph|by eapply ls_result|].
  by apply deferred_returns.
Qed.

Lemma draining_returns l :
  lf_phase l = Draining -> (exists e, lf_serving l = Served e) -> safe l -> can_return l.
Proof.
  intros Hph Hs Hsafe. eapply can_return_step; [unfold alive; by rewrite Hph|by apply ls_timeout|].
  by apply awaiting_returns.
Qed.

Lemma shutting_returns l : lf_phase l = ShuttingDown -> serving_or_served l -> safe l -> can_return l.
Proof.
  intros Hph Hs Hsafe. eapply can_return_step; [unfold alive; by rewrite Hph|by apply ls_shutdown|].
  unfold server_shutdown. destruct Hs as [Hs|[e Hs]]; rewrite Hs; apply draining_returns; cbn; eauto.
Qed.

Lemma done_returns l :
  lf_phase l = ContextDone -> serving_or_served l -> lf_done l = true -> safe l ->
  (forall i, lf_refresher l = Refreshing i -> handler_ready l i) -> can_return l.
Proof.
  intros Hph Hs Hd Hsafe Href. assert (Ha : alive l) by (unfold alive; by rewrite Hph).
  destruct (refresher_stops l Ha Hsafe Hd Href) as (l' & Hp & He & Hph' & Hs' & Hsafe').
  eapply can_return_path; [exact Hp|]. rewrite Hph in Hph'.
  eapply can_return_step; [unfold alive; by rewrite Hph'|by apply ls_done|].
  apply shutting_returns; [done| |done]. unfold serving_or_served in *. cbn. by rewrite Hs'.
Qed.

Lemma failed_returns l e :
  lf_phase l = ServeFailed e -> lf_done l = true -> safe l ->
  (forall i, lf_refresher l = Refreshing i -> handler_ready l i) -> can_return l.
Proof.
  intros Hph Hd Hsafe Href. assert (Ha : alive l) by (unfold alive; by rewrite Hph).
  destruct (refresher_stops l Ha Hsafe Hd Href) as (l' & Hp & He & Hph' & _ & Hsafe').
  eapply can_return_path; [exact Hp|]. rewrite Hph in Hph'.
  eapply can_return_step; [unfold alive; by rewrite Hph'|by apply (ls_failed _ _ _ _ _ e)|].
  by apply deferred_returns.
Qed.

Lemma selecting_returns l :
  lf_phase l = Selecting -> serving_or_served l -> safe l ->
  (forall i, lf_refresher l = Refreshing i -> handler_ready l i) ->
  lf_done l = true \/ (exists e, lf_serving l = Served e) -> can_return l.
Proof.
  intros Hph Hs Hsafe Href Hwhy. assert (Ha : alive l) by (unfold alive; by rewrite Hph).
  destruct Hwhy as [Hd|[e He]].
  - eapply can_return_step; [exact Ha|by apply ls_select_done|]. by apply done_returns.
  - eapply can_return_step; [exact Ha|by eapply ls_select_result|]. by eapply failed_returns.
Qed.

Context (logged : has_logger = true \/ listen_err = None).

Lemma listen_returns l :
  lf_phase l = Listen -> lf_refresher l = NoRefresher -> safe l -> lf_done l = true \/ is_Some listen_err -> can_return l.
Proof.
  intros Hph Hr Hsafe Hwhy. assert (Ha : alive l) by (unfold alive; by rewrite Hph).
  eapply can_return_step; [exact Ha|by apply ls_listen|]. unfold ServerRun.listen.
  destruct listen_err as [e|].
  - destruct logged as [-> |?]; [|done]. by apply deferred_returns.
  - destruct Hwhy as [Hd|[? ?]]; [|done]. unfold serving_or_served.
    destruct refreshes; apply selecting_returns; cbn; try rewrite Hr; eauto; try discriminate; by left.
Qed.

(** Why [Run] should end. *)
Definition ending (l : Life St) : Prop :=
  lf_done l = true \/ (exists e, lf_serving l = Served e) \/ lf_serving l = ResultReceived \/ is_Some listen_err.

Lemma life_returns l :
  life_inv l -> safe l -> (forall i, is_Some (handler l i) -> handler_ready l i) ->
  (forall msg, lf_phase l <> Died msg) -> ending l -> can_return l.
Proof.
  intros Hinv Hsafe Hready Hno Hwhy. pose proof (li_phase _ Hinv) as H. unfold phase_inv in H.
  assert (Href : forall i, lf_refresher l = Refreshing i -> handler_ready l i)
    by (intros i Hi; by apply Hready, (li_refreshing _ Hinv)).
  destruct (lf_phase l) as [i| | |e| | | | |i exit|err|msg] eqn:Hph.
  - assert (Ha : alive l) by (unfold alive; by rewrite Hph). pose proof H as (Hi & Hs & _).
    destruct (finish l i Ha Hsafe (Hready i Hi)) as (sys' & Hp & Hd & Hsafe').
    eapply can_return_path; [exact Hp|]. eapply can_return_step; [exact Ha|by eapply ls_first_purged|].
    apply listen_returns; [done|apply H|done|]. destruct Hwhy as [?|[[e He]|[?|?]]]; [by left|congruence..|by right].
  - apply listen_returns; [done|apply H|done|]. destruct H as (Hs & _).
    destruct Hwhy as [?|[[e He]|[?|?]]]; [by left|congruence..|by right].
  - destruct H as (Hs & _ & Hl). apply selecting_returns; [done..|].
    destruct Hwhy as [?|[?|[?|[? ?]]]]; [by left|by right| |congruence].
    destruct Hs as [?|[? ?]]; congruence.
  - apply (failed_returns l e); [done|apply H|done|done].
  - apply done_returns; [done|apply H|apply H|done|done].
  - apply shutting_returns; [done|apply H|done].
  - apply draining_returns; [done|apply H|done].
  - apply awaiting_returns; [done|apply H|done].
  - destruct H as (Hi & _ & _ & _ & _ & Hex). destruct exit as [err|msg].
    + apply (last_purge_returns l i err); [done|done|by apply Hready].
    + destruct (Hex msg eq_refl) as (Hl & He & _). destruct logged; congruence.
  - exists l, err. by split.
  - by destruct (Hno msg).
Qed.
End Ends.
End Life.

(** ** The guarantees *)

Section Guarantees.
Context `{SO : Sorter, HSO : !SorterSpec SO, GT : GoText}.
Context {St : Type} `{LP : LeaseProvider St, LPS : !LeaseProviderSpec St}.
Context (refreshes has_logger : bool) (listen_err : option error).

#[local] Abbreviation handlers strat_of limit_of :=
  (life_step (policies_ok strat_of limit_of False) (server_handler no_space) refreshes has_logger listen_err).

Lemma life_handler_wp strat_of limit_of p :
  life_handler (server_handler no_space) p ->
  wp (page_ok strat_of limit_of no_space) (policies_ok strat_of limit_of False) False no_guarantee unseen p (fun _ _ => True).
Proof.
  intros Hp. assert (Hh : server_handler no_space p) by (destruct Hp; [done|constructor|constructor]). revert Hh.
  exact (server_handler_wp strat_of limit_of no_space False (or_intror (hosts_apart strat_of limit_of)) p).
Qed.

(** A panic that ends the process is that of the missing logger. *)
Lemma died_of_logger strat_of limit_of st l msg :
  good_start (page_ok strat_of limit_of no_space) st ->
  rtc (handlers strat_of limit_of) (run_start st) l -> (sys_commits (lf_sys l) < 2 ^ 64)%N ->
  lf_phase l = Died msg -> logger_panic has_logger listen_err msg.
Proof.
  intros (Hv & Hp & Hr) Hl Hc Hd. pose proof (life_reachable_inv _ _ _ _ _ st l Hl) as Hinv.
  pose proof (life_refines _ _ _ _ _ st l Hl) as Hsys.
  pose proof (li_phase _ _ _ Hinv) as H. unfold phase_inv in H. rewrite Hd in H.
  destruct H as [H|[i Hi]]; [done|exfalso].
  apply (system_no_crash _ _ False no_guarantee (page_ok_perm strat_of limit_of no_space)
    _ (life_handler_wp strat_of limit_of) st (lf_sys l) Hv Hp Hr Hsys Hc msg). by eapply list_elem_of_lookup_2.
Qed.

(** Once all handlers have finished and no connection is open, nothing happens
    to the leases any more. *)
Lemma quiet_forever strat_of limit_of l l' err :
  life_inv has_logger listen_err l -> lf_phase l = Returned err -> lf_open l = false ->
  handlers strat_of limit_of l l' -> lf_sys l' = lf_sys l.
Proof.
  intros Hinv Hph Ho [_ Hs]. pose proof (li_phase _ _ _ Hinv) as H. unfold phase_inv in H. rewrite Hph in H.
  destruct H as (Hd & Hre & Hsv & Hf). specialize (Hf Ho). unfold refresher_ended in Hre.
  destruct Hs as [Hs|Hs].
  - destruct Hs as [l p Hop _|l|l e _]; [congruence|done..].
  - destruct Hs as [l i p p' st' n Hi Hcall|l i a _ _|l Hp|l Hr|l i a _ _|l _ _|l e Hp _|l _ _
      |l e Hp _|l _ _|l Hp|l _ _|l _|l e Hp _|l i exit a _ _|l i msg _ _]; try done; try congruence.
    + exfalso. specialize (Hf i p Hi ltac:(done)). by destruct Hcall.
    + by rewrite Hr in Hre.
Qed.

(** C6. The guarantees of the handlers hold throughout the life of a server.
    Suppose that policies are bounded as before, strategies known, host names
    without spaces, and fewer than 2^64 commits made.  From the first purge of [Run] to its last and beyond, while
    requests, refreshes and the shutdown interleave:
    - the leases stored under each resource are unique and keep the limit;
    - the process is ended by no panic but one: the listener cannot be created,
      and there is no logger to tell (nil pointer dereference);
    - once [Run] has returned, the listener is closed, the refresher has ended
      and the context is cancelled; and if no connection was left open -- the
      shutdown waited for all of them, or the server never listened -- then
      every handler has finished and the leases do not change any more.
    (After a failure of [Serve], or a shutdown that has timed out, requests on
    open connections are still served.) *)
Theorem server_life_safe strat_of limit_of st l :
  good_start (page_ok strat_of limit_of no_space) st ->
  rtc (handlers strat_of limit_of) (run_start st) l -> (sys_commits (lf_sys l) < 2 ^ 64)%N ->
  (forall r, unique_ids (contents (sys_provider (lf_sys l)) r).2
     /\ (consumption (strat_of r) (contents (sys_provider (lf_sys l)) r).2 <= limit_of r)%N)
  /\ (forall msg, lf_phase l = Died msg -> has_logger = false /\ listen_err <> None /\ msg = nil_logger)
  /\ (forall err, lf_phase l = Returned err ->
        (lf_serving l = NotServing \/ lf_serving l = ResultReceived)
        /\ refresher_ended l = true /\ lf_done l = true
        /\ (lf_open l = false ->
              Forall (fun p => finished p = true) (sys_handlers (lf_sys l))
              /\ forall l', handlers strat_of limit_of l l' -> lf_sys l' = lf_sys l)).
Proof.
  intros Hst Hl Hc. pose proof Hst as (Hv & Hp & Hr).
  pose proof (life_reachable_inv _ _ _ _ _ st l Hl) as Hinv.
  pose proof (life_refines _ _ _ _ _ st l Hl) as Hsys.
  split; [|split].
  - intros r. by destruct (system_safe _ _ False no_guarantee (page_ok_perm strat_of limit_of no_space)
      _ (life_handler_wp strat_of limit_of) st (lf_sys l) Hv Hp Hr Hsys Hc r) as [[Hu _ Hlim] _].
  - intros msg Hd. by apply (died_of_logger strat_of limit_of st l).
  - intros err He. pose proof (li_phase _ _ _ Hinv) as H. unfold phase_inv in H. rewrite He in H.
    destruct H as (Hd & Hre & Hs & Hf). split; [done|]. split; [done|]. split; [done|]. intros Ho. split.
    + apply Forall_forall. intros p [i Hi]%list_elem_of_lookup. by apply (Hf Ho i).
    + intros l' Hstep. by apply (quiet_forever strat_of limit_of l l' err).
Qed.

(** C7. [Run] returns when it should.  From every state that a server can reach
    in which its context is done, [Serve] has failed or the listener cannot be
    created, the server's own goroutines can go on until [Run] has returned,
    without any further request, cancellation or failure: no channel is waited
    for in vain, neither the refresher's nor the listener's.  (Conditions as for
    C6; a listener that cannot be created needs a logger,
    [listen_error_without_logger].) *)
Theorem server_run_returns strat_of limit_of st l :
  let pols := policies_ok strat_of limit_of False in
  good_start (page_ok strat_of limit_of no_space) st ->
  rtc (handlers strat_of limit_of) (run_start st) l -> (sys_commits (lf_sys l) < 2 ^ 64)%N ->
  has_logger = true \/ listen_err = None ->
  lf_done l = true \/ (exists e, lf_serving l = Served e) \/ lf_serving l = ResultReceived \/ is_Some listen_err ->
  exists l' err, rtc (own_step pols refreshes has_logger listen_err) l l' /\ lf_phase l' = Returned err.
Proof.
  intros pols Hst Hl Hc Hlog Hwhy. pose proof Hst as (Hv & Hp & Hr).
  pose proof (life_refines _ _ _ _ _ st l Hl) as Hsys.
  pose proof (steps_inv _ _ _ _ (page_ok_perm strat_of limit_of no_space) _ (life_handler_wp strat_of limit_of)
    _ _ _ Hsys Hc (initial_inv _ _ _ _ st Hv Hp Hr)) as Hinv.
  destruct (inv_world _ _ _ _ _ _ (Err "none") (fun _ => 0%Z) Hinv Hc I) as [Hsafe Hready].
  apply (life_returns pols (server_handler no_space) refreshes has_logger listen_err (page_ok strat_of limit_of no_space)
    (page_ok_perm strat_of limit_of no_space) (fun _ => I) (life_handler_wp strat_of limit_of) Hlog l).
  - by eapply life_reachable_inv.
  - exact Hsafe.
  - intros i [p Hi]. destruct (Hready p) as (V & Hwp & HV); [by eapply list_elem_of_lookup_2|]. by exists p, V.
  - intros msg Hd. destruct (died_of_logger strat_of limit_of st l msg Hst Hl Hc Hd) as (Hnl & He & _).
    destruct Hlog; congruence.
  - exact Hwhy.
Qed.

(** Without a logger a listener that cannot be created makes [Run] panic: after
    a last purge the process ends. *)
Lemma listen_error_without_logger (l : Life St) e pols :
  has_logger = false -> listen_err = Some e -> lf_phase l = Listen ->
  lf_phase (listen refreshes has_logger listen_err l)
    = LastPurge (length (sys_handlers (lf_sys l))) (ExitPanic nil_logger)
  /\ (forall l' i a, lf_phase l' = LastPurge i (ExitPanic nil_logger) -> handler l' i = Some (Done a) ->
        own_step pols refreshes has_logger listen_err l' (set_phase (Died nil_logger) l')).
Proof.
  intros Hlog He Hph. split; [unfold listen; by rewrite Hlog, He|].
  intros l' i a Hl' Hi. split; [unfold alive; by rewrite Hl'|].
  exact (ls_last_purged pols refreshes has_logger listen_err l' i _ a Hl' Hi).
Qed.
End Guarantees.

(** ** Witnesses *)

#[local] Existing Instance ascii_text.

(** The server listens, takes a request, and its context is cancelled. *)
Definition life_one (st : MemProvider) : Life MemProvider :=
  mkLife ContextDone true Serves true AwaitsTick (mkSystem st [Done tt; app_handler] 0).

Lemma life_one_reachable pols :
  rtc (life_step pols (server_handler no_space) true true None) (run_start MemProv_New) (life_one MemProv_New).
Proof.
  eapply rtc_l.
  { split; [exact I|]. right.
    refine (ls_call pols true true None (run_start MemProv_New) 0 purge (Done tt) MemProv_New 0 eq_refl _).
    let p := eval hnf in purge in match p with LeaseResources_ ?k => exact (call_resources pols k MemProv_New) end. }
  eapply rtc_l; [split; [exact I|]; right; by apply (ls_first_purged _ _ _ _ _ 0 tt)|].
  eapply rtc_l; [split; [exact I|]; right; by apply ls_listen|].
  eapply rtc_l.
  { split; [exact I|]. left. apply (ls_request _ _ app_handler); [done|].
    apply h_acquire. intros req [= <-]. exact no_space_h1. }
  eapply rtc_l; [split; [exact I|]; left; apply ls_cancel|].
  eapply rtc_l; [split; [exact I|]; right; by apply ls_select_done|]. apply rtc_refl.
Qed.

Lemma server_life_safe_witness :
  rtc (life_step (policies_ok app_strategy app_limit False) (server_handler no_space) true true None)
    (run_start MemProv_New) (life_one MemProv_New)
  /\ forall msg, lf_phase (life_one MemProv_New) = Died msg -> true = false /\ (None : option error) <> None /\ msg = nil_logger.
Proof.
  assert (Hl := life_one_reachable (policies_ok app_strategy app_limit False)).
  split; [exact Hl|].
  exact (proj1 (proj2 (server_life_safe true true None app_strategy app_limit MemProv_New (life_one MemProv_New)
    (mem_good_start app_strategy app_limit no_space) Hl ltac:(vm_compute; reflexivity)))).
Defined.

Lemma server_run_returns_witness :
  exists l' err, rtc (own_step (policies_ok app_strategy app_limit False) true true None) (life_one MemProv_New) l'
    /\ lf_phase l' = Returned err.
Proof.
  apply (server_run_returns true true None app_strategy app_limit MemProv_New (life_one MemProv_New)).
  - apply mem_good_start.
  - apply life_one_reachable.
  - vm_compute. reflexivity.
  - left. reflexivity.
  - left. reflexivity.
Defined.
