(* ===== verification/EndToEnd.v ===== *)
(** * Clients and servers together

    A client calls servers over a network that refuses requests, loses
    responses and delivers the requests of others in between ([Wire.v]).  What
    the client is told is what the server has stored; and a new client that can
    find a server obtains its lease. *)

From S2P Require Import Prelude GoStrings GoFmt GoTime Lease LeaseSet Tx Refresh Policy Provider MemProv Program Server Client ClientProps Wire Concurrency TxProps ServerSafe ServerProps PolicyProps.

(** ** Handlers that run alone *)

Section Alone.
Context (strat_of : string -> Strategy) (limit_of : string -> N).
Context `{SO : Sorter, HSO : !SorterSpec SO, GT : GoText}.
Context {St : Type} `{LP : LeaseProvider St, LPS : !LeaseProviderSpec St}.

#[local] Abbreviation any := (fun _ : string => True).
#[local] Abbreviation page := (page_ok strat_of limit_of any).
#[local] Abbreviation pols := (policies_ok strat_of limit_of True).
#[local] Abbreviation safe := (world_safe page pols).

Definition consumers_apart : True \/ forall r s subject,
  page r s -> any (inst_Host (sub_Instance subject)) -> unambiguous subject s := or_introl I.

(** The lease granted is among the leases reported, and these are stored. *)
Definition granted (subject : Subject) (ls : Lease) (leases : LeaseSet) (w : World St) : Prop :=
  ls_Subject ls = subject /\ ls ∈ leases
  /\ leases ≡ₚ (contents (w_provider w) (sub_Resource subject)).2.

Lemma run_safe {A} (p : prog A) Q w :
  wp page pols True no_guarantee unseen p Q -> safe w ->
  safe (run p w).2 /\ w_policies (run p w).2 = w_policies w.
Proof.
  intros Hp Hw. pose proof (run_wp page pols True no_guarantee (page_ok_perm strat_of limit_of any) unseen p _ w Hp Hw I) as H.
  destruct (run p w) as [a w']. by destruct H as (? & ? & _).
Qed.

Lemma acquire_loop_grants n subject props policies ls0 sn0 err0 w :
  sub_Resource subject <> "" -> sub_Resource subject = PolicySet_Resource policies ->
  matched_ok strat_of limit_of True policies -> safe w -> n <> 0 \/ err0 <> None ->
  match run (acquire_loop n subject props policies ls0 sn0 err0) w with
  | (Answered (ls, sn, None), w') => granted subject ls (snap_Leases sn) w'
  | _ => True
  end.
Proof.
  intros Hne Hres Hm. pose proof (proj1 Hm ltac:(by rewrite <- Hres)) as [Hst Hlim].
  rewrite <- Hres in Hst, Hlim. set (r := sub_Resource subject) in *.
  revert ls0 sn0 err0 w. induction n as [|n IH]; intros ls0 sn0 err0 w Hw Hn; cbn [acquire_loop].
  { cbn. destruct err0; [done|]. by destruct Hn. }
  fold r. rewrite run_bind. cbn [View run].
  pose proof (LeaseView_spec r _ (ws_valid _ _ _ Hw)) as H.
  destruct (LeaseView r (w_provider w)) as [v st]. destruct H as (Hvalid & Hc & Hv).
  pose proof (world_safe_provider _ _ w st Hw Hvalid Hc) as Hw1. cbn [run].
  destruct v as [[rev s]|e]; [|by apply IH; [|right]].
  rewrite run_bind. cbn [Now run]. rewrite run_bind.
  set (w2 := tick (set_provider st w)). set (now := w_clock _ _).
  assert (Hw2 : safe w2) by (by destruct Hw1). pose proof (ws_pages _ _ _ Hw r) as [Hp Hs]. rewrite <- Hv in Hp, Hs.
  assert (Hoff : offered strat_of limit_of any r subject (new_lease subject props policies now))
    by (by apply (new_lease_offered strat_of limit_of any True)).
  destruct (acquire_tx_ok strat_of limit_of any subject policies
    (new_lease subject props policies now) now (NewTx r rev s) Hp Hs Hoff Hst Hlim)
    as (a & tx1 & _ & _ & _ & [(ls & tx & -> & Hok & Hops & Hd)|(msg & -> & _)]); [|done].
  cbn [lift run]. unfold Tx_Empty. rewrite bool_decide_false by (by destruct (tx_ops tx)).
  rewrite run_bind. cbn [Commit run].
  set (V := see_time now (see_view (Ok (rev, s)) r unseen)).
  assert (HV : view_held V w2) by (unfold view_held; cbn; intros _; by rewrite Hc, <- Hv).
  assert (Hmay : may_commit page no_guarantee V tx) by (by apply (commit_allowed strat_of limit_of any no_guarantee r rev s now)).
  destruct (LeaseCommit tx (w_provider w2)) as [e st2] eqn:Hcom.
  destruct (commit_alone page pols no_guarantee (page_ok_perm strat_of limit_of any) _ tx w2 e st2 Hw2 HV Hmay Hcom) as [Hw3 Hcs].
  cbn [run]. destruct e as [e|]; [by apply IH; [|right]|]. cbn.
  destruct (decision_lease _ _ _ _ _ _ _ Hd) as (Hin & Hsub & _).
  split; [by rewrite Hsub|]. split; [done|]. fold r. rewrite <- (Hcs eq_refl).
  destruct Hok as [[ops Hext] _]. by rewrite (ext_resource _ _ _ Hext).
Qed.

Lemma acquire_grants subject props policies w :
  sub_Resource subject <> "" -> sub_Resource subject = PolicySet_Resource policies ->
  matched_ok strat_of limit_of True policies -> safe w ->
  match run (acquire subject props policies) w with
  | (Answered (Ok (ls, sn)), w') => granted subject ls (snap_Leases sn) w'
  | _ => True
  end.
Proof.
  intros Hne Hres Hm Hw. unfold acquire. rewrite run_bind.
  pose proof (acquire_loop_grants 5 subject props policies zero_lease zero_snapshot None w Hne Hres Hm Hw
    (or_introl (Nat.neq_succ_0 4))) as H.
  destruct (run (acquire_loop _ _ _ _ _ _ _) w) as [[[[ls sn] [e|]]|msg] w']; [done| |done].
  rewrite run_bind. destruct (statsSummary _ _ _); cbn [lift run]; [|done..].
  rewrite run_bind. exact H.
Qed.

(** What the policies say of a request. *)
Definition matched (props : Properties) (ps : result PolicySet) : option PolicySet :=
  match ps with Ok ps => Some (PolicySet_Match ps props) | Err _ => None end.

(** The reply to an acquisition. *)
Definition acquire_reply (req : Request) (reply : Reply) (w' : World St) : Prop :=
  match reply with
  | AcquireReply r =>
      exists m, matched (req_Properties req) (w_policies w') = Some m /\ PolicySet_Resource m <> ""
        /\ ar_Request r = set_req_Resource (PolicySet_Resource m) req
        /\ granted (req_Subject (ar_Request r)) (ar_Lease r) (ar_Leases r) w'
  | NoContentReply => exists m, matched (req_Properties req) (w_policies w') = Some m /\ PolicySet_Resource m = ""
  | ErrorReply code _ => code = StatusBadRequest
  | _ => False
  end.

Lemma acquireHandler_grants form req w :
  parseRequest form = Ok req -> safe w ->
  match run (acquireHandler form) w with
  | (Answered reply, w') => acquire_reply req reply w'
  | _ => True
  end.
Proof.
  intros Hreq Hw. unfold acquireHandler, initRequest. rewrite run_bind, Hreq.
  case_decide; [done|]. rewrite run_bind. cbn [Policies run].
  destruct (w_policies w) as [ps|e] eqn:Hps; [|done]. cbn [run]. cbn zeta.
  set (m := PolicySet_Match ps (req_Properties req)).
  assert (Happ : applies pols m).
  { exists ps, (req_Properties req). split; [|done]. rewrite <- Hps. apply Hw. }
  assert (Hm : matched_ok strat_of limit_of True m).
  { pose proof (ws_policies _ _ _ Hw) as H'. rewrite Hps in H'. apply H'. }
  rewrite run_bind. match goal with |- context [run ?p w] => set (first := p) end.
  assert (Hf : safe (run first w).2 /\ w_policies (run first w).2 = w_policies w).
  { apply (run_safe _ (fun _ _ => True)); [|done]. unfold first. case_decide; [|done].
    apply (release_wp strat_of limit_of any True consumers_apart pols no_guarantee any_release (plain_guarantee _ _ _ _)); done. }
  destruct (run first w) as [[[e|]|msg] w1]; [done| |done]. destruct Hf as [Hw1 Hp1]. cbn [snd] in *.
  assert (Hmw : forall w' : World St, w_policies w' = w_policies w1 -> matched (req_Properties req) (w_policies w') = Some m).
  { intros w' ->. by rewrite Hp1, Hps. }
  set (req' := if decide (_ <> _) then _ else req).
  assert (Hr' : req' = set_req_Resource (PolicySet_Resource m) req).
  { unfold req'. case_decide as Hd; [done|]. rewrite Hd. by destruct req as [[r i] p]. }
  clearbody req'. subst req'. set (req' := set_req_Resource _ req).
  assert (Hres : sub_Resource (req_Subject req') = PolicySet_Resource m) by done.
  case_decide as Hne; cbn [run]; [exists m; split; [by apply Hmw|by rewrite <- Hres]|].
  rewrite run_bind. set (props := MergeProperties _).
  pose proof (acquire_grants (req_Subject req') props m w1 Hne Hres Hm Hw1) as H1.
  pose proof (run_safe (acquire (req_Subject req') props m) _ w1
    (acquire_wp strat_of limit_of any True consumers_apart pols no_guarantee any_release
      (plain_guarantee _ _ _ _) unseen (req_Subject req') props m Hne Hres I Happ) Hw1) as H2.
  destruct (run (acquire _ _ _) w1) as [[[[ls sn]|e]|msg] w2]; [|done..].
  destruct H2 as [_ H2]. exists m. split; [by apply Hmw|]. split; [by rewrite <- Hres|]. done.
Qed.
End Alone.

(** ** A client on the network *)

Section Network.
Context (strat_of : string -> Strategy) (limit_of : string -> N).
Context `{SO : Sorter, HSO : !SorterSpec SO, GT : GoText, JS : JSON}.
Context {St : Type} `{LP : LeaseProvider St, LPS : !LeaseProviderSpec St}.
Context (form_range : gmap string (list string) -> list (string * list string)).
Context (form_range_perm : forall v, form_range v ≡ₚ map_to_list v).
Context (other : HTTPRequest -> HTTPResponse) (bad_url : string -> option error).

#[local] Instance net : Net (Cluster St) := cluster_net form_range other bad_url.
#[local] Abbreviation any := (fun _ : string => True).
#[local] Abbreviation page := (page_ok strat_of limit_of any).
#[local] Abbreviation pols := (policies_ok strat_of limit_of True).

(** A reply that the client reads as the server wrote it. *)
Definition survives (r : AcquireResponse) : Prop :=
  exists b, json_Acquire r = Ok b /\ ~ (percent ∈ b) /\ unjson_Acquire b = Ok r.

(** Whatever is handled in between are requests, purges and refreshes. *)
Record cluster_ok (ps : result PolicySet) (env : Cluster St) : Prop := {
  co_world : world_safe page pols (cl_world env);
  co_policies : w_policies (cl_world env) = ps;
  co_plan : Forall (fun f => Forall (server_handler any) (f_before f)) (cl_plan env);
}.

Lemma cluster_ok_event ps plan env :
  cluster_ok ps env -> Forall (fun f => Forall (server_handler any) (f_before f)) plan ->
  cluster_ok ps (cl_event plan env).
Proof. by intros [? ? ?]. Qed.

Lemma cluster_ok_world ps w env :
  cluster_ok ps env -> world_safe page pols w -> w_policies w = ps -> cluster_ok ps (set_cl_world w env).
Proof. by intros [? ? ?]. Qed.

Lemma run_all_safe l w :
  Forall (server_handler any) l -> world_safe page pols w ->
  world_safe page pols (run_all l w) /\ w_policies (run_all l w) = w_policies w.
Proof.
  unfold run_all. revert w. induction l as [|p l IH]; intros w Hl Hw; [done|].
  apply Forall_cons in Hl as [Hp Hl]. cbn [foldl].
  destruct (run_safe strat_of limit_of p (fun _ _ => True) w) as [Hw1 Hp1]; [|done|].
  - apply (server_handler_wp strat_of limit_of any True (consumers_apart strat_of limit_of)). done.
  - destruct (IH (run p w).2 Hl Hw1) as [? Hp2]. split; [done|]. by rewrite Hp2.
Qed.
Lemma serve_safe path req w :
  world_safe page pols w ->
  world_safe page pols (serve form_range other path req w).2
  /\ w_policies (serve form_range other path req w).2 = w_policies w.
Proof.
  intros Hw. unfold serve. destruct (route path (request_form form_range req)) as [p|] eqn:Hp; [|done].
  assert (Hwp : exists Q, Concurrency.wp page pols True no_guarantee unseen p Q).
  { pose proof (consumers_apart strat_of limit_of) as Hc.
    pose proof (plain_guarantee strat_of limit_of any True) as HG. unfold route in Hp.
    repeat (case_decide; [injection Hp as <-|]); [..|done].
    - by exists (fun _ _ => True).
    - exists (fun _ _ => True). cbn. by intros [ps|e] _.
    - eexists. by eapply leasesHandler_wp.
    - eexists. by eapply acquireHandler_wp.
    - eexists. by eapply releaseHandler_wp. }
  destruct Hwp as [Q Hwp]. pose proof (run_safe strat_of limit_of p Q w Hwp Hw) as H. by destruct (run p w) as [[reply|msg] w'].
Qed.

(** A request that is answered was served by a handler that ran alone. *)
Lemma Do_spec ps req env host path :
  split_last_slash (hr_Addr req) = Some (host, path) -> cluster_ok ps env ->
  let '(r, env') := cluster_Do form_range other req env in
  cluster_ok ps env' /\ match r with
                        | Ok resp => exists w, world_safe page pols w /\ w_policies w = ps
                            /\ serve form_range other path req w = (Ok resp, cl_world env')
                        | Err _ => True
                        end.
Proof.
  intros Hsplit Hok. unfold cluster_Do. rewrite Hsplit. pose proof (co_plan _ _ Hok) as Hplan.
  set (fate := match cl_plan env with [] => _ | f :: _ => f end).
  assert (Hev : cluster_ok ps (cl_event (tail (cl_plan env)) env)).
  { apply cluster_ok_event; [done|]. by destruct Hplan. }
  assert (Hf : Forall (server_handler any) (f_before fate)) by (unfold fate; by destruct Hplan).
  destruct (run_all_safe (f_before fate) (cl_world env) Hf (co_world _ _ Hok)) as [Hw Hp].
  rewrite (co_policies _ _ Hok) in Hp.
  assert (Hset : cluster_ok ps (set_cl_world (run_all (f_before fate) (cl_world env))
    (cl_event (tail (cl_plan env)) env))) by (by apply cluster_ok_world).
  pose proof (serve_safe path req _ Hw) as Hs.
  destruct (serve form_range other path req (run_all (f_before fate) (cl_world env))) as [resp w1] eqn:Hserve.
  cbn [snd] in Hs. destruct Hs as [Hw1 Hp1]. rewrite Hp in Hp1.
  cbn zeta. change (cl_world (cl_event (tail (cl_plan env)) env)) with (cl_world env). rewrite Hserve.
  destruct (f_delivery fate); [|done|]; (case_decide; [|done]); (split; [by apply cluster_ok_world|]);
    [|done]. destruct resp; [|done]. by exists (run_all (f_before fate) (cl_world env)).
Qed.

Lemma Health_keeps ps ep env : cluster_ok ps env -> cluster_ok ps (Endpoint_Health ep env).2.
Proof.
  intros Hok. unfold Endpoint_Health, endpoint_get. cbn [ctx_Err http_NewRequest http_Do net cluster_net].
  case_decide; [done|]. destruct (cl_ctx _ _); [done|]. destruct (bad_url _); [done|].
  pose proof (Do_spec ps (mkHTTPRequest "GET" (prefix ep +:+ "health") None) env (prefix ep) "health"
    (split_address ep "health" eq_refl) Hok) as Hdo.
  destruct (cluster_Do _ _ _ env) as [[resp|e] env']; [|by destruct Hdo]. destruct Hdo as [Hdo _].
  by destruct (decide _).
Qed.
(** One acquisition by its endpoint. *)
Definition told_stored (ps : result PolicySet) (subject : Subject) (props : Properties)
  (told : AcquireResponse) (env : Cluster St) : Prop :=
  exists m r, matched props ps = Some m /\ PolicySet_Resource m <> ""
    /\ ls_Subject (ar_Lease r) = mkSubject (PolicySet_Resource m) (sub_Instance subject)
    /\ ar_Lease r ∈ ar_Leases r
    /\ ar_Leases r ≡ₚ (contents (w_provider (cl_world env)) (PolicySet_Resource m)).2
    /\ (consumption (strat_of (PolicySet_Resource m)) (ar_Leases r) <= limit_of (PolicySet_Resource m))%N
    /\ (survives r -> told = r).

Definition not_required (ps : result PolicySet) (props : Properties) : Prop :=
  exists m, matched props ps = Some m /\ PolicySet_Resource m = "".

Lemma Endpoint_Acquire_told ps subject props ep env :
  reserved_free props -> cluster_ok ps env ->
  let '(r, env') := Endpoint_Acquire ep subject props env in
  cluster_ok ps env' /\ match r with
                        | Got told => told_stored ps subject props told env'
                        | Failed e => e = ErrLeaseNotRequired -> not_required ps props
                        end.
Proof.
  intros Hfree Hok. unfold Endpoint_Acquire, endpoint_post. cbn [ctx_Err http_NewRequest http_Do net cluster_net].
  case_decide; [done|]. destruct (cl_ctx _ _); [done|]. destruct (bad_url _); [done|].
  set (req := mkHTTPRequest "POST" _ _).
  pose proof (Do_spec ps req env (prefix ep) "acquire" (split_address ep "acquire" eq_refl) Hok) as Hdo.
  destruct (cluster_Do _ _ req env) as [[resp|e] env']; [|by destruct Hdo].
  destruct Hdo as (Hok' & w & Hw & Hps & Hserve). rewrite serve_acquire in Hserve.
  assert (Hreq : parseRequest (request_form form_range req) = Ok (mkRequest subject props))
    by (apply request_roundtrip; [done|apply form_range_perm]).
  pose proof (acquireHandler_grants strat_of limit_of _ _ w Hreq Hw) as Hrun.
  destruct (run (acquireHandler (request_form form_range req)) w) as [[reply|msg] w'] eqn:Heq; [|done].
  injection Hserve as <- Hw'. rewrite Hw' in Hrun. cbn [decode_Acquire net cluster_net].
  unfold acquire_reply in Hrun. rewrite ?(co_policies _ _ Hok') in Hrun.
  destruct reply as [code msg| | | | |r|]; cbn in Hrun; try done.
  - subst code. by split.
  - destruct Hrun as (m & Hm & Hne & Hr & Hsub & Hin & Hperm).
    rewrite Hr in Hsub, Hperm. cbn [respond]. unfold write_json.
    destruct (json_Acquire r) as [b|e] eqn:Hb; [|by split].
    cbn. split; [done|]. unfold decoded.
    destruct (unjson_Acquire (Fprintf b)) as [told|e] eqn:Htold; [|done].
    exists m, r. split_and!; try done.
    { rewrite Hperm. apply (ws_pages _ _ _ (co_world _ _ Hok')). }
    intros (b' & Hb' & Hplain & Hun). rewrite Hb in Hb'. injection Hb' as <-.
    rewrite Fprintf_plain in Htold by done. rewrite Hun in Htold. by injection Htold.
Qed.
(** C4. What a client is told is what the server has stored.  However the
    network refuses requests, loses responses and has other requests handled in
    between, and whatever failovers this leads to: when [Acquire] returns a
    lease, the server replied with a lease of the client's instance under the
    resource that its policies name, among leases that it had stored and that
    keep the limit, and the client has been told just that if the reply's JSON
    has no percent sign and can be read back.  When it returns that no lease is
    required, no policy that applies names a resource. *)
Theorem client_told_what_is_stored ps subject props c env :
  cluster_ok ps env -> reserved_free props ->
  let '(r, _, env') := Client_Acquire subject props c env in
  cluster_ok ps env' /\ match r with
                        | Got told => told_stored ps subject props told env'
                        | Failed e => e = ErrLeaseNotRequired -> not_required ps props
                        end.
Proof.
  intros Hok Hfree. unfold Client_Acquire.
  apply (with_failover_rule (cluster_ok ps)); try done.
  - intros env1 H1. apply cluster_ok_event; [done|apply H1].
  - intros ep env1. apply Health_keeps.
  - intros ep env1. by apply Endpoint_Acquire_told.
Qed.
End Network.

(** ** A new client on a network without faults *)

Section Reliable.
Context (strat_of : string -> Strategy) (limit_of : string -> N).
Context `{SO : Sorter, HSO : !SorterSpec SO, GT : GoText, JS : JSON}.
Context (form_range : gmap string (list string) -> list (string * list string)).
Context (form_range_perm : forall v, form_range v ≡ₚ map_to_list v).
Context (other : HTTPRequest -> HTTPResponse).

#[local] Instance reliable_net : Net (Cluster MemProvider) :=
  cluster_net form_range other (fun _ => None).
#[local] Abbreviation page := (page_ok strat_of limit_of no_space).

(** The network as it stays while no lease is asked for. *)
Record reliable (hosts : list string) (eps : EndpointSet) (w : World MemProvider)
  (env : Cluster MemProvider) : Prop := {
  re_world : cl_world env = w;
  re_plan : cl_plan env = [];
  re_hosts : cl_hosts env = hosts;
  re_resolver : cl_resolver env = Ok eps;
  re_ctx : forall n, cl_ctx env n = None;
}.

Lemma reliable_event hosts eps w env : reliable hosts eps w env -> reliable hosts eps w (cl_event [] env).
Proof. by intros [? ? ? ? ?]. Qed.

Lemma reliable_Do hosts eps w env req host path :
  reliable hosts eps w env -> split_last_slash (hr_Addr req) = Some (host, path) ->
  cluster_Do form_range other req env
  = if decide (host ∈ hosts) then
      let '(resp, w') := serve form_range other path req w in
      (resp, set_cl_world w' (cl_event [] env))
    else (Err "no such host", set_cl_world w (cl_event [] env)).
Proof.
  intros [Hw Hp Hh Hr Hc] Hs. unfold cluster_Do. rewrite Hp, Hs. cbn [f_delivery tail f_before run_all foldl].
  cbn [cl_hosts cl_world cl_event]. by rewrite Hw, <- Hh.
Qed.

Definition serves (hosts : list string) (ep : Endpoint) : Prop := ep <> "" /\ prefix ep ∈ hosts.

Definition health_survives : Prop :=
  exists b, json_Health (mkHealthResponse true) = Ok b /\ ~ (percent ∈ b)
    /\ unjson_Health b = Ok (mkHealthResponse true).

Lemma reliable_Health hosts eps w ep env :
  health_survives -> reliable hosts eps w env ->
  let '(h, env') := Endpoint_Health ep env in
  reliable hosts eps w env' /\ (serves hosts ep -> h = Got (mkHealthResponse true))
  /\ ((exists x, h = Got x) -> serves hosts ep).
Proof.
  intros (b & Hb & Hplain & Hun) Hrel. unfold Endpoint_Health, endpoint_get, serves.
  case_decide as He; [by split; [|split; [intros []|intros [? ?]]]|].
  cbn [ctx_Err http_NewRequest http_Do reliable_net cluster_net]. rewrite (re_ctx _ _ _ _ Hrel).
  rewrite (reliable_Do hosts eps w env _ (prefix ep) "health" Hrel) by (by apply split_address).
  case_decide as Hh.
  - rewrite serve_health. cbn [respond]. rewrite (write_json_ok _ _ _ b Hb Hplain). unfold decoded. cbn.
    rewrite Hun. by destruct Hrel.
  - cbn. split; [by destruct Hrel|]. split; [by intros []|by intros [? ?]].
Qed.

Lemma reliable_Select hosts eps w s env :
  health_survives -> reliable hosts eps w env -> Exists (serves hosts) s ->
  exists ep env', Select s env = (Got ep, env') /\ serves hosts ep /\ reliable hosts eps w env'.
Proof.
  intros Hh Hrel Hs. unfold Select. cbn [ctx_Err reliable_net cluster_net]. rewrite (re_ctx _ _ _ _ Hrel).
  assert (Hr : forall failed env, reliable hosts eps w env -> exists ep failed' env',
    select_round s failed env = ((Some ep, failed'), env') /\ serves hosts ep /\ reliable hosts eps w env').
  { clear env Hrel. induction Hs as [ep s Hep|ep s Hs IH]; intros failed env Hrel; cbn [select_round];
      pose proof (reliable_Health hosts eps w ep env Hh Hrel) as H;
      destruct (Endpoint_Health ep env) as [[h|e] env']; destruct H as (Hrel' & H1 & H2).
    - injection (H1 Hep) as ->. cbn. by exists ep, failed, env'.
    - by specialize (H1 Hep).
    - pose proof (H2 (ex_intro _ h eq_refl)) as Hep. injection (H1 Hep) as ->. cbn. by exists ep, failed, env'.
    - by apply IH. }
  destruct (Hr [] env Hrel) as (ep & f & env' & Hround & Hep & Hrel').
  cbn [select_rounds rounds]. rewrite Hround. by exists ep, env'.
Qed.
(** The handler of an acquisition, over the in-memory provider. *)
Lemma acquireHandler_alone form req ps (w : World MemProvider) :
  let m := PolicySet_Match ps (req_Properties req) in
  let r := PolicySet_Resource m in
  parseRequest form = Ok req -> w_policies w = Ok ps -> r <> "" ->
  sub_Resource (req_Subject req) = "" \/ sub_Resource (req_Subject req) = r ->
  page r (mem_contents (w_provider w) r).2 -> sorted_set (mem_contents (w_provider w) r).2 ->
  matched_ok strat_of limit_of False m -> no_space (inst_Host (sub_Instance (req_Subject req))) ->
  exists reply w', run (acquireHandler form) w = (Answered (AcquireReply reply), w')
    /\ ls_Subject (ar_Lease reply) = mkSubject r (sub_Instance (req_Subject req))
    /\ ar_Lease reply ∈ (mem_contents (w_provider w') r).2.
Proof.
  cbn zeta. intros Hreq Hps Hne Hheld Hpage Hsort Hm Hh.
  unfold acquireHandler, initRequest. rewrite run_bind, Hreq, decide_False by apply HostUser_nonempty.
  rewrite run_bind. cbn [Policies run]. rewrite Hps. cbn [run]. cbn zeta.
  set (m := PolicySet_Match ps (req_Properties req)) in *.
  rewrite (decide_False (P := _ /\ _)) by (intros [? ?]; destruct Hheld; congruence). rewrite run_bind. cbn [run].
  set (req' := if decide (_ <> _) then _ else req).
  assert (Hr' : req' = set_req_Resource (PolicySet_Resource m) req).
  { unfold req'. case_decide as Hd; [done|]. rewrite Hd. by destruct req as [[r i] p]. }
  clearbody req'. subst req'. set (req' := set_req_Resource _ req).
  rewrite decide_False by exact Hne. rewrite run_bind. set (props := MergeProperties _).
  pose proof (acquire_succeeds_alone strat_of limit_of (req_Subject req') props m w) as H.
  change (sub_Resource (req_Subject req')) with (PolicySet_Resource m) in H.
  destruct (H Hpage Hsort Hne eq_refl Hm Hh) as (ls & sn & w' & -> & Hsub & Hin & _ & st & Hst & Hp & _).
  cbn. exists (mkAcquireResponse req' ls (snap_Leases sn) ""), w'. split; [done|]. split; [exact Hsub|].
  apply (f_equal snd) in Hst. cbn in Hst. unfold mem_contents. cbn. by rewrite Hst, Hp.
Qed.

Lemma reliable_failover hosts eps w env :
  health_survives -> reliable hosts eps w env -> Exists (serves hosts) eps ->
  exists ep c env', failover false NewClient env = (Got ep, c, env')
    /\ c_endpoint c = ep /\ serves hosts ep /\ reliable hosts eps w env'.
Proof.
  intros Hh Hrel Hex. unfold failover. cbn [ctx_Err time_Now resolver_Resolve reliable_net cluster_net].
  rewrite (re_ctx _ _ _ _ Hrel), (re_plan _ _ _ _ Hrel).
  pose proof (reliable_event _ _ _ _ Hrel) as H1. set (env1 := cl_event [] env) in *.
  unfold Select at 1. cbn [ctx_Err reliable_net cluster_net]. rewrite (re_ctx _ _ _ _ H1). cbn.
  rewrite (re_resolver _ _ _ _ Hrel).
  destruct (reliable_Select hosts eps w eps env1 Hh H1 Hex) as (ep & env2 & -> & Hep & H2).
  rewrite (re_plan _ _ _ _ H2). do 3 eexists. split; [reflexivity|]. split; [done|]. split; [done|].
  by apply reliable_event.
Qed.

Lemma reliable_Acquire hosts eps w env ep subject props reply w' :
  reliable hosts eps w env -> serves hosts ep ->
  run (acquireHandler (Ok (form_range (urlValues subject props)))) w = (Answered (AcquireReply reply), w') ->
  survives reply ->
  exists env', Endpoint_Acquire ep subject props env = (Got reply, env') /\ cl_world env' = w'.
Proof.
  intros Hrel [Hep Hhost] Hrun (b & Hb & Hplain & Hun).
  unfold Endpoint_Acquire, endpoint_post. rewrite decide_False by done.
  cbn [ctx_Err http_NewRequest http_Do reliable_net cluster_net]. rewrite (re_ctx _ _ _ _ Hrel).
  rewrite (reliable_Do hosts eps w env _ (prefix ep) "acquire" Hrel) by (by apply split_address).
  rewrite decide_True by done. rewrite serve_acquire. unfold request_form. cbn [hr_Form].
  rewrite Hrun. cbn [respond]. rewrite (write_json_ok _ _ _ b Hb Hplain). unfold decoded. cbn. rewrite Hun.
  by eexists.
Qed.

(** C5. A new client obtains its lease.  When the resolver of a new client
    names an endpoint at which a server answers, nothing on the network fails
    or interferes, the policies name a resource for the client's properties,
    and the replies can be read back, then the first [Acquire] returns a lease
    of the client's instance under that resource, which the server has stored. *)
Theorem new_client_gets_lease hosts eps ps subject props (w : World MemProvider) env :
  let m := PolicySet_Match ps props in
  let r := PolicySet_Resource m in
  reliable hosts eps w env -> Exists (serves hosts) eps ->
  w_policies w = Ok ps -> r <> "" -> sub_Resource subject = "" \/ sub_Resource subject = r ->
  page r (mem_contents (w_provider w) r).2 -> sorted_set (mem_contents (w_provider w) r).2 ->
  matched_ok strat_of limit_of False m -> no_space (inst_Host (sub_Instance subject)) ->
  reserved_free props -> health_survives ->
  (forall reply w', run (acquireHandler (Ok (form_range (urlValues subject props)))) w
     = (Answered (AcquireReply reply), w') -> survives reply) ->
  exists told c env', Client_Acquire subject props NewClient env = (Got told, c, env')
    /\ ls_Subject (ar_Lease told) = mkSubject r (sub_Instance subject)
    /\ ar_Lease told ∈ (mem_contents (w_provider (cl_world env')) r).2
    /\ serves hosts (c_endpoint c).
Proof.
  cbn zeta. intros Hrel Hex Hps Hne Hheld Hpage Hsort Hm Hh Hfree Hhealth Hsurv.
  assert (Hreq : parseRequest (Ok (form_range (urlValues subject props))) = Ok (mkRequest subject props))
    by (apply request_roundtrip; [done|apply form_range_perm]).
  destruct (acquireHandler_alone _ _ ps w Hreq Hps Hne Hheld Hpage Hsort Hm Hh)
    as (reply & w' & Hrun & Hsub & Hin).
  destruct (reliable_failover hosts eps w env Hhealth Hrel Hex) as (ep & c & env1 & Hfail & Hc & Hep & H1).
  destruct (reliable_Acquire hosts eps w env1 ep subject props reply w' H1 Hep Hrun (Hsurv _ _ Hrun))
    as (env2 & Hacq & Hw).
  exists reply, c, env2. split; [|by rewrite Hw, Hc].
  unfold Client_Acquire, with_failover. cbn [c_endpoint NewClient].
  change (Endpoint_Acquire "" subject props env) with (@Failed AcquireResponse ErrEmptyEndpoint, env).
  cbn [isContextErr]. by rewrite Hfail, Hacq.
Qed.
End Reliable.

(** ** Witnesses *)

#[local] Existing Instance ascii_text.

Definition app_props : Properties := {[ "program.name" := "app" ]}.
Definition new_subject : Subject := mkSubject "" (mkInstance "h1" "ann" "1").

Definition app_reply_run := run (acquireHandler (Ok (map_to_list (urlValues new_subject app_props)))) app_world.
Definition app_reply : AcquireResponse :=
  match app_reply_run.1 with
  | Answered (AcquireReply r) => r
  | _ => mkAcquireResponse zero_request zero_lease [] ""
  end.

(** A codec that knows one reply of each kind. *)
#[local] Instance app_json : JSON := {|
  json_Health _ := Ok (str "ok");
  json_Policies _ := Err "unused";
  json_Leases _ := Err "unused";
  json_Acquire _ := Ok (str "acquired");
  json_Release _ := Err "unused";
  unjson_Health _ := Ok (mkHealthResponse true);
  unjson_Policies _ := Err "unused";
  unjson_Acquire _ := Ok app_reply;
  unjson_Release _ := Err "unused";
|}.

Definition app_other (req : HTTPRequest) : HTTPResponse := http_Error "not found" 404.

(** The response to the first request is lost; a purge comes before the third. *)
Definition faulty_plan : list Fate :=
  [mkFate [] (Lost "timeout"); mkFate [] Delivered; mkFate [(_ ← Purge; Done tt)] Delivered].
Definition app_cluster (plan : list Fate) : Cluster MemProvider :=
  mkCluster app_world ["http://b/"] plan (Ok ["a"; "b"]) (fun _ => None) (fun _ => (5000 * Second)%Z) 0.

Lemma app_free : reserved_free app_props.
Proof. intros k Hk. apply lookup_singleton_None. intros <-. unfold reserved in Hk. set_solver. Qed.

Lemma client_told_what_is_stored_witness :
  exists told c env',
    Client_Acquire (Env := Cluster MemProvider) (NE := cluster_net map_to_list app_other (fun _ => None))
      new_subject app_props (mkClient ["b"] "b" zero_time zero_time) (app_cluster faulty_plan) = (Got told, c, env')
    /\ cl_plan env' = []
    /\ told_stored app_strategy app_limit (Ok app_policies) new_subject app_props told env'.
Proof.
  set (c0 := mkClient ["b"] "b" zero_time zero_time).
  assert (Hok : cluster_ok app_strategy app_limit (Ok app_policies) (app_cluster faulty_plan)).
  { split; [split| |].
    - done.
    - intros r. apply (mem_good_start app_strategy app_limit).
    - intros props. apply app_matches.
    - reflexivity.
    - repeat constructor. }
  pose proof (client_told_what_is_stored app_strategy app_limit map_to_list (fun v => reflexivity _)
    app_other (fun _ => None) (Ok app_policies) new_subject app_props c0 (app_cluster faulty_plan) Hok app_free) as H.
  unfold net in H.
  destruct (Client_Acquire new_subject app_props c0 (app_cluster faulty_plan)) as [[[told|e] c] env'] eqn:Hrun.
  - exists told, c, env'. split; [reflexivity|]. split; [|apply H].
    apply (f_equal (fun x => cl_plan x.2)) in Hrun. by vm_compute in Hrun.
  - exfalso. apply (f_equal (fun x => match x.1.1 with Got _ => true | Failed _ => false end)) in Hrun.
    vm_compute in Hrun. discriminate Hrun.
Defined.

Lemma new_client_gets_lease_witness :
  exists told c env',
    Client_Acquire (Env := Cluster MemProvider) (NE := reliable_net map_to_list app_other)
      new_subject app_props NewClient (app_cluster []) = (Got told, c, env')
    /\ ar_Lease told ∈ (mem_contents (w_provider (cl_world env')) "res").2
    /\ serves ["http://b/"] (c_endpoint c).
Proof.
  destruct (new_client_gets_lease app_strategy app_limit map_to_list (fun v => reflexivity _) app_other
    ["http://b/"] ["a"; "b"] app_policies new_subject app_props app_world (app_cluster []))
    as (told & c & env' & Hrun & _ & Hin & Hc).
  - by split.
  - right. left. split; [discriminate|]. left.
  - reflexivity.
  - discriminate.
  - by left.
  - apply page_ok_nil.
  - constructor.
  - apply app_matches.
  - exact no_space_h1.
  - exact app_free.
  - exists (str "ok"). split; [reflexivity|]. split; [|reflexivity]. apply (bool_decide_unpack _). vm_compute. exact I.
  - intros reply w' Hrun. exists (str "acquired"). split; [reflexivity|].
    split; [apply (bool_decide_unpack _); vm_compute; exact I|]. cbn. unfold app_reply, app_reply_run. by rewrite Hrun.
  - exists told, c, env'. split; [exact Hrun|]. split; [exact Hin|exact Hc].
Defined.
